(* ===== verification/_CoqProject ===== *)
-Q . S2P
Prelude.v
Errors.v
Prefix.v
X86.v
Relocate.v
Code.v
Arm64.v
Arm64Exec.v
Arm64Copy.v
Arm64Code.v
Expectations.v
Memory.v
Cache.v
Executable.v
UnixPages.v
Text.v
LinuxMemory.v
LinuxPages.v
MacosMemory.v
MacosRemap.v
MacosPages.v
WindowsMemory.v
WindowsPages.v
Routing.v
Session.v
Calls.v
Async.v
Mock.v
Typing.v
Syntax.v
Expansion.v
Behaviour.v
Systems.v
Client.v
Examples.v
