(* ===== verification/Prelude.v ===== *)
(** * shimforge: a verification development

    shimforge replaces Rust functions in a running test process.  A session
    ([src/src/lib.rs]) overwrites the first instructions of a function with a
    jump; the saved instructions are copied to a page of their own so that the
    original can still be called; mocks answer calls by expectations; and when
    the session ends everything is put back.

    ** The parts and the files

    Data flows upwards in this list; every file requires only files above it.

    - [Prelude]: outcomes ([Ok], [Err], [Panic], [Abort]), the state monad
      [M], machine integers, slices with their panics, tactics and hints.
      [Errors]: [src/src/error.rs].
    - x86-64 code generation.  [Prefix] is the instruction decoder
      ([code/prefix.rs]); [X86] the jump and the plan of an entry patch
      ([code/x86.rs]); [Relocate] the trampoline ([code/relocate.rs]).
      [Code] is the interface [code.rs] re-exports: the class [Code] with its
      laws [CodeLaws], which [x86_code] discharges.
    - AArch64 code generation ([code/arm64.rs]).  [Arm64] holds the
      definitions, [Arm64Exec] an execution model of the instructions the
      module rewrites or emits, [Arm64Copy] the simulation of the trampoline,
      [Arm64Code] plans, panics and the instance [arm64_code] of [Code].
    - [Expectations] ([expectation.rs]): call counts, sequences, rules, mock
      states and the re-entrancy guard over a heap of shared objects, with a
      step relation for the sections the locks make atomic.
    - [Memory] ([memory.rs]): reading code and rewriting it as a transaction,
      over the interface [Platform] of the operating system and its laws
      [PlatformLaws]; [View] is what a state shows of memory.
    - [Cache] ([cache.rs]): the AArch64 cache maintenance and the caches.
    - [Executable] ([executable.rs], the searches of [executable/unix.rs] and
      [executable/windows.rs]): owned pages over the interface [Pages] and its
      laws [PagesLaws].
    - The platforms.  [UnixPages] ([executable/unix.rs]); [Text],
      [LinuxMemory] and [LinuxPages] ([memory/linux.rs],
      [memory/linux/maps.rs], [executable/linux.rs]); [MacosMemory],
      [MacosRemap] and [MacosPages] ([memory/macos.rs],
      [memory/macos/remap.rs], [executable/macos.rs]); [WindowsMemory] and
      [WindowsPages] ([memory/windows.rs], [memory/windows/api.rs],
      [executable/windows.rs]).  The system calls are classes ([Posix],
      [Linux], [Mach], [Kernel32]) whose laws state their documented
      behaviour, failures included; each platform is an instance of
      [Platform] with its [PlatformLaws], and Linux and macOS, on both
      architectures, are instances of [PagesLaws] too.  A small executable
      system satisfies each set of laws and runs in the witnesses.
    - [Routing] ([routing.rs]): the table of patched functions, the routes of
      every thread, installation and removal.
    - [Session] ([lib.rs]): the session lock, installation of replacements and
      mocks, verification, restoring and [Drop].
    - [Calls], [Async], [Mock]: what a mocked call does; mocks of futures
      ([asynchronous.rs]); the code [mock!] and [replace!] expand to
      ([src/macros/src/lib.rs] and the macros of [lib.rs]).
    - [Typing]: the types of the functions that dispatchers call by address
      ([__invoke!] of [lib.rs]).
    - [Syntax], [Expansion] ([src/macros/src/lib.rs],
      [src/macros/src/signature.rs]): the parsers of the macro inputs, the
      [Borrowed] visitor, the signature checks and every item the macros
      generate, as token trees; [syn]'s own parsers are the class [Syn].
    - [Systems]: the builds for Linux and macOS on both architectures, as
      instances of all the laws above.
    - [Behaviour]: [Spec], the mock as a test sees it, and its refinement by
      the code [mock!] expands to.  [Client]: tests as programs, alone with
      other threads in between, and in parallel.  [Examples]
      ([src/examples/]): the example programs and their tests.

    ** How the model corresponds to the code

    A function of the source is a definition of the same name where Rocq
    allows it, with a prefix where several modules use one name
    ([linux_region_at], [mock_verify]).  State that the source mutates is
    passed explicitly through [M]; [?] is the bind of the monad, a panic or an
    abort is an outcome of its own, and a destructor is a call where the
    source drops the value, on error paths too.  [usize] is [Z] with the
    checks the source makes ([checked_add], [saturating_sub], ...), and
    arithmetic that would overflow panics.  [Arc]s and leaked boxes are
    indices into a heap, so aliasing is visible.  Threads interleave at the
    locks: [Expectations], [Session] and [Mock] have step relations and
    invariants over them.  Closures of the user are functions of the model:
    a response is a function of the calls it saw before.

    ** What the theorems show

    - Code generation: decoding is total, self-delimiting and in bounds;
      plans replace whole instructions by a jump that reaches the target; on
      x86-64 a trampoline is an instruction-by-instruction copy without gaps,
      with the same branch targets, operands and return address, and decodes
      to what it copies (but for a branch whose wide form exceeds 15 bytes); on
      AArch64 running it simulates running the saved instructions.
    - Memory: a write either happens completely or leaves no trace but that of
      a [protect] that failed itself, or the process ends; the staged page
      replacement of Apple Silicon leaves no trace at all, and the cache flush makes the new code visible whatever the
      caches do.  The region queries of all platforms report the true
      mapping.  Trampoline pages are new, near, and never writable and
      executable at once.
    - Expectations: a call is decided by the first rule that still wants it;
      sequences are respected in every interleaving; a call that no
      expectation took is never forgotten; verification and checkpoints say exactly what they promise;
      a one-shot response is there when its call arrives.
    - Routing and sessions: an installation changes exactly one route or
      nothing, a newly patched function jumps to the given dispatcher, and
      other threads reach what they reached before; routes resolve to the
      thread's, the global or the original target; whatever a session did,
      restoring gives back every route and byte, or the patches it could not
      undo stay known; a step of a local session changes nothing for the calls
      of other threads; global sessions exclude all others, whomever the lock
      prefers.
    - Macros and futures: a mocked call runs one action, releases its guard
      on every path and never reaches the original; a poll without a mock goes
      on to the original; installing a mock twice is refused; [replace!]
      reaches its target on the session's thread only.  Every address a
      dispatcher casts to its function type and calls has that type.  The
      procedural macros read back what they are given, and offer the helpers
      that keep a value exactly for results that borrow nothing.
    - Tests: on every script a mock behaves outcome by outcome like the
      abstract mock; tests on different threads do not influence each other
      in any interleaving; the tests of the examples pass once [mock!]
      succeeded, the threads without a mock reaching the real function.

    Theorems about [write], [install_replacement], sessions and so on are
    proved from [PlatformLaws], [PagesLaws] and [CodeLaws], hence hold for
    every platform and architecture that discharges them; [Systems] says so
    for four of them, and runs a replacement on Apple Silicon from the plan to
    the remapped pages and back.

    ** Fuel

    Loops whose recursion is not structural take fuel, and running out of it
    is a panic, which the theorems exclude.  [prefixes]: 16, as the decoder
    rejects a sixteenth prefix.  [plan_loop]: the bytes of the jump,
    [relocate_loop] and [call_bridge_loop]: the saved bytes, as every
    instruction has at least one.
    [executable_regions_loop]: the number of bytes of the range, as every
    region holds its cursor.  [fallback_loop]: the number of entries, as the
    list is acyclic.  [Windows.search_loop]: twice the reach in allocation
    granules.  [retry_loop] and [read_loop]: the signals that are pending and
    the bytes of the file.  [region_at_loop]: the depth of the submaps.

    ** Not modelled

    What Rust's trait solver decides about the generated signature probes:
    they are modelled as the tokens the macro emits.  [Typing] takes from the
    compiler that source, dispatcher and target of one macro use have one
    type.  The
    fault injection of the unit tests ([memory::syscall] is the call itself).
    Lock poisoning, which the code ignores, and whom [RwLock] lets in first
    when threads wait, which is the class [Priority].  How the [macro_rules]
    patterns of [replace!] split their input.  Windows pages are released by
    their allocation base, so [WindowsPages] states the life of a page by
    itself instead of [PagesLaws], and [Systems] leaves Windows out.  Instructions the AArch64
    module copies unchanged are a parameter of its execution model.  In
    [Behaviour] expectations have no sequence ([Expectations] has the theorems
    about sequences) and in [Client] an installation that fails ends its test
    and is left out of the interleaved runs.  In [Client] a test calls its
    mock on its own thread directly; on another thread the call starts at the
    function, and that a saved original runs like the function is the
    hypothesis [original_kept] (the trampoline theorems are about
    instructions).  Paths in [Examples] are those of Unix.  The unit tests of the repository. *)

From stdpp Require Export base list list_numbers numbers strings sorting pretty gmap.
From Stdlib Require Export ZArith Lia.

#[export] Set Default Proof Using "Type".

(** ** Outcomes

    A Rust function returns a value, returns [Err], unwinds with a panic, or
    aborts the process.  The four cases are kept apart, so that a theorem can
    say that a slice index never panics or that a failed rollback aborts. *)

Inductive outcome (E A : Type) : Type :=
| Ok (a : A)
| Err (e : E)
| Panic (message : string)
| Abort.

Arguments Ok {E A} a.
Arguments Err {E A} e.
Arguments Panic {E A} message.
Arguments Abort {E A}.

#[export] Instance outcome_eq_dec {E A} `{EqDecision E} `{EqDecision A} :
  EqDecision (outcome E A).
Proof. solve_decision. Defined.

#[export] Instance outcome_ret {E} : MRet (outcome E) := @Ok E.

#[export] Instance outcome_bind {E} : MBind (outcome E) := λ A B f m,
  match m with
  | Ok a => f a
  | Err e => Err e
  | Panic msg => Panic msg
  | Abort => Abort
  end.

#[export] Instance outcome_fmap {E} : FMap (outcome E) := λ A B f m,
  match m with
  | Ok a => Ok (f a)
  | Err e => Err e
  | Panic msg => Panic msg
  | Abort => Abort
  end.

(** [option.ok_or(e)]. *)
Definition ok_or {E A} (e : E) (o : option A) : outcome E A :=
  match o with Some a => Ok a | None => Err e end.

(** [Option::expect] and [unwrap]. *)
Definition expect {E A} (msg : string) (o : option A) : outcome E A :=
  match o with Some a => Ok a | None => Panic msg end.

(** [if c { return Err(e) }]. *)
Definition ensure {E} (c : bool) (e : E) : outcome E unit :=
  if c then Ok tt else Err e.

Definition is_ok {E A} (r : outcome E A) : bool :=
  match r with Ok _ => true | _ => false end.

(** The function comes back to its caller with a value or an [Err]. *)
Definition returns {E A} (r : outcome E A) : Prop :=
  match r with Ok _ | Err _ => True | Panic _ | Abort => False end.

Section outcome_lemmas.
Context {E A B : Type}.
Implicit Types (m : outcome E A) (f : A → outcome E B).

Lemma bind_Ok_inv m f b : m ≫= f = Ok b → ∃ a, m = Ok a ∧ f a = Ok b.
Proof. destruct m; simpl; [eauto|done..]. Qed.

Lemma ok_or_Ok (e : E) (o : option A) a : ok_or e o = Ok a ↔ o = Some a.
Proof. destruct o; simpl; naive_solver. Qed.

Lemma ensure_Ok c (e : E) u : ensure c e = Ok u ↔ c = true.
Proof. destruct u, c; simpl; naive_solver. Qed.

Lemma ok_or_returns (e : E) (o : option A) : returns (ok_or e o).
Proof. by destruct o. Qed.

Lemma ensure_returns c (e : E) : returns (ensure c e).
Proof. by destruct c. Qed.

Lemma returns_bind m f :
  returns m → (∀ a, m = Ok a → returns (f a)) → returns (m ≫= f).
Proof. destruct m; simpl; auto. Qed.
End outcome_lemmas.

(** ** Machine integers: [usize] is 64 bits wide on both supported
    architectures ([x86_64], [aarch64]). *)

#[local] Open Scope Z_scope.

Definition usize_max : Z := 2 ^ 64 - 1.
Definition isize_max : Z := 2 ^ 63 - 1.

Definition in_usize (z : Z) : bool := (0 <=? z) && (z <=? usize_max).
Definition in_i32 (z : Z) : bool := (- 2 ^ 31 <=? z) && (z <? 2 ^ 31).

(** [usize::checked_add]. *)
Definition checked_add (a b : Z) : option Z :=
  if a + b <=? usize_max then Some (a + b) else None.

(** [usize::checked_sub]. *)
Definition checked_sub (a b : Z) : option Z :=
  if b <=? a then Some (a - b) else None.

Definition saturating_add (a b : Z) : Z := Z.min usize_max (a + b).
Definition saturating_sub (a b : Z) : Z := Z.max 0 (a - b).

(** [usize::div_ceil]. *)
Definition div_ceil (a b : Z) : Z := (a + b - 1) / b.

(** [i32::try_from] on a wider integer. *)
Definition i32_try_from (z : Z) : option Z :=
  if in_i32 z then Some z else None.

(** [usize::try_from] on an [i128]. *)
Definition usize_try_from (z : Z) : option Z :=
  if in_usize z then Some z else None.

(** Two's complement reading of the low [w] bits. *)
Definition to_signed (w z : Z) : Z :=
  if z mod 2 ^ w <? 2 ^ (w - 1) then z mod 2 ^ w else z mod 2 ^ w - 2 ^ w.

Definition is_byte (b : Z) : Prop := 0 ≤ b < 256.
Abbreviation bytes_ok := (Forall is_byte).

(** [i32::to_le_bytes], [u32::to_le_bytes], [u64::to_le_bytes]. *)
Definition le_bytes (n : Z) (z : Z) : list Z := Z_to_little_endian n 8 z.
Definition u32_from_le_bytes (bs : list Z) : Z := little_endian_to_Z 8 bs.
Definition i32_from_le_bytes (bs : list Z) : Z :=
  to_signed 32 (little_endian_to_Z 8 bs).

(** Checking a property of small integers by running it on all of them. *)
Lemma seqZ_forallb (lo n : Z) (P : Z → bool) :
  forallb P (seqZ lo n) = true → ∀ x, lo ≤ x < lo + n → P x = true.
Proof.
  intros H x Hx. rewrite forallb_forall in H. apply H.
  apply list_elem_of_In, elem_of_seqZ. lia.
Qed.

Lemma checked_add_Some a b c :
  checked_add a b = Some c ↔ c = a + b ∧ a + b ≤ usize_max.
Proof. unfold checked_add. destruct (Z.leb_spec (a + b) usize_max); naive_solver lia. Qed.

Lemma i32_try_from_Some z c :
  i32_try_from z = Some c ↔ c = z ∧ - 2 ^ 31 ≤ z < 2 ^ 31.
Proof. unfold i32_try_from, in_i32. destruct (_ && _) eqn:?; naive_solver lia. Qed.

Lemma usize_try_from_Some z c :
  usize_try_from z = Some c ↔ c = z ∧ 0 ≤ z ≤ usize_max.
Proof. unfold usize_try_from, in_usize. destruct (_ && _) eqn:?; naive_solver lia. Qed.

Lemma to_signed_id w z :
  0 < w → - 2 ^ (w - 1) ≤ z < 2 ^ (w - 1) → to_signed w (z mod 2 ^ w) = z.
Proof.
  intros Hw Hz. unfold to_signed.
  assert (2 ^ w = 2 * 2 ^ (w - 1)) as Hp.
  { replace w with (Z.succ (w - 1)) at 1 by lia. rewrite Z.pow_succ_r by lia. lia. }
  rewrite Z.mod_mod by lia.
  destruct (decide (0 ≤ z)) as [Hp'|Hn].
  - rewrite Z.mod_small by lia. destruct (Z.ltb_spec z (2 ^ (w - 1))); lia.
  - assert (z mod 2 ^ w = z + 2 ^ w) as ->.
    { symmetry. apply (Z.mod_unique_pos _ _ (-1)); lia. }
    destruct (Z.ltb_spec (z + 2 ^ w) (2 ^ (w - 1))); lia.
Qed.

Lemma to_signed_range w z :
  0 < w → - 2 ^ (w - 1) ≤ to_signed w z < 2 ^ (w - 1).
Proof.
  intros Hw. unfold to_signed.
  assert (2 ^ w = 2 * 2 ^ (w - 1)) as Hp.
  { replace w with (Z.succ (w - 1)) at 1 by lia. rewrite Z.pow_succ_r by lia. lia. }
  pose proof (Z.pow_pos_nonneg 2 (w - 1)).
  pose proof (Z.mod_pos_bound z (2 ^ w)).
  destruct (Z.ltb_spec (z mod 2 ^ w) (2 ^ (w - 1))); lia.
Qed.

Lemma length_le_bytes n z : 0 ≤ n → length (le_bytes n z) = Z.to_nat n.
Proof. intros. unfold le_bytes. pose proof (length_Z_to_little_endian n 8 z). lia. Qed.

Lemma le_bytes_ok n z : 0 ≤ n → bytes_ok (le_bytes n z).
Proof. intros. unfold le_bytes. apply (Z_to_little_endian_bound n 8); lia. Qed.

Lemma i32_le_roundtrip z :
  - 2 ^ 31 ≤ z < 2 ^ 31 → i32_from_le_bytes (le_bytes 4 z) = z.
Proof.
  intros. unfold i32_from_le_bytes, le_bytes.
  rewrite little_endian_to_Z_to_little_endian by lia.
  apply (to_signed_id 32); lia.
Qed.

Lemma u_le_roundtrip n z :
  0 ≤ n → 0 ≤ z < 2 ^ (n * 8) → u32_from_le_bytes (le_bytes n z) = z.
Proof.
  intros. unfold u32_from_le_bytes, le_bytes.
  rewrite little_endian_to_Z_to_little_endian by lia.
  apply Z.mod_small; lia.
Qed.

Lemma i32_from_le_bytes_range bs : - 2 ^ 31 ≤ i32_from_le_bytes bs < 2 ^ 31.
Proof. apply (to_signed_range 32). lia. Qed.

(** ** Slices

    Offsets into buffers are [nat]: the buffers are at most a few pages long,
    so no [usize] sum over them can wrap.  Rust panics outside the bounds. *)

Definition index {E A} (l : list A) (i : nat) : outcome E A :=
  expect "index out of bounds" (l !! i).

(** [&l[a..b]]. *)
Definition slice {E A} (l : list A) (a b : nat) : outcome E (list A) :=
  if ((a <=? b) && (b <=? length l))%nat then Ok (take (b - a) (drop a l))
  else Panic "range out of bounds".

(** [l[i] = x]. *)
Definition store {E A} (l : list A) (i : nat) (x : A) : outcome E (list A) :=
  if (i <? length l)%nat then Ok (<[i := x]> l) else Panic "index out of bounds".

(** [l[i..i + xs.len()].copy_from_slice(xs)]. *)
Definition store_slice {E A} (l : list A) (i : nat) (xs : list A) : outcome E (list A) :=
  if (i + length xs <=? length l)%nat then Ok (list_inserts i xs l)
  else Panic "range out of bounds".

(** [xs] occurs in [l] at position [p]. *)
Definition bytes_at {A} (l : list A) (p : nat) (xs : list A) : Prop :=
  ∀ k x, xs !! k = Some x → l !! (p + k)%nat = Some x.

Lemma list_alter_insert {A} (f : A → A) (l : list A) i a :
  l !! i = Some a → alter f i l = <[i := f a]> l.
Proof.
  intros Ha. apply list_eq. intros j. destruct (decide (i = j)) as [->|Hne].
  - rewrite list_lookup_alter_eq, list_lookup_insert_eq, Ha; [done|].
    by eapply lookup_lt_Some.
  - by rewrite list_lookup_alter_ne, list_lookup_insert_ne.
Qed.

Lemma list_filter_all {A} (P : A → Prop) `{!∀ x, Decision (P x)} (l : list A) :
  Forall P l → filter P l = l.
Proof. induction 1; [done|]. rewrite filter_cons_True by done. by f_equal. Qed.

Section slices.
Context {E A : Type}.
Implicit Types l xs ys : list A.

Lemma slice_Ok l a b ys :
  @slice E A l a b = Ok ys ↔
  (a ≤ b)%nat ∧ (b ≤ length l)%nat ∧ ys = take (b - a) (drop a l).
Proof.
  unfold slice. destruct (Nat.leb_spec a b), (Nat.leb_spec b (length l));
    simpl; naive_solver lia.
Qed.

Lemma index_Ok l i x : @index E A l i = Ok x ↔ l !! i = Some x.
Proof. unfold index. destruct (l !! i); simpl; naive_solver. Qed.

Lemma store_Ok l i x ys :
  @store E A l i x = Ok ys ↔ (i < length l)%nat ∧ ys = <[i := x]> l.
Proof. unfold store. destruct (Nat.ltb_spec i (length l)); naive_solver lia. Qed.

Lemma store_slice_Ok l i xs ys :
  @store_slice E A l i xs = Ok ys ↔
  (i + length xs ≤ length l)%nat ∧ ys = list_inserts i xs l.
Proof. unfold store_slice. destruct (Nat.leb_spec (i + length xs) (length l)); naive_solver lia. Qed.

Lemma slice_returns l a b :
  (a ≤ b)%nat → (b ≤ length l)%nat → returns (@slice E A l a b).
Proof. intros. unfold slice. by rewrite (proj2 (Nat.leb_le a b)), (proj2 (Nat.leb_le b _)). Qed.

Lemma index_returns l i : (i < length l)%nat → returns (@index E A l i).
Proof. intros [x Hx]%lookup_lt_is_Some. unfold index. by rewrite Hx. Qed.

Lemma store_returns l i x : (i < length l)%nat → returns (@store E A l i x).
Proof. intros. unfold store. by rewrite (proj2 (Nat.ltb_lt _ _)). Qed.

Lemma store_slice_returns l i xs :
  (i + length xs ≤ length l)%nat → returns (@store_slice E A l i xs).
Proof. intros. unfold store_slice. by rewrite (proj2 (Nat.leb_le _ _)). Qed.

Lemma bytes_at_nil l p : bytes_at l p [].
Proof. intros k x. by rewrite lookup_nil. Qed.

Lemma bytes_at_app l p xs ys :
  bytes_at l p (xs ++ ys) ↔ bytes_at l p xs ∧ bytes_at l (p + length xs) ys.
Proof.
  unfold bytes_at. split.
  - intros H. split; intros k x Hk.
    + apply H. by apply lookup_app_l_Some.
    + replace (p + length xs + k)%nat with (p + (length xs + k))%nat by lia.
      apply H. rewrite lookup_app_r by lia.
      by replace (length xs + k - length xs)%nat with k by lia.
  - intros [Hx Hy] k x. rewrite lookup_app_Some. intros [?|[? Hk]]; [by apply Hx|].
    apply Hy in Hk. by replace (p + length xs + (k - length xs))%nat with (p + k)%nat in Hk by lia.
Qed.

Lemma bytes_at_length l p xs : bytes_at l p xs → xs ≠ [] → (p + length xs ≤ length l)%nat.
Proof.
  intros H Hne. destruct (last xs) as [x|] eqn:Hl; [|by apply last_None in Hl].
  rewrite last_lookup in Hl. apply H, lookup_lt_Some in Hl.
  destruct xs; simpl in *; [done|lia].
Qed.

(** Reading back what occurs at a position. *)
Lemma bytes_at_take l p xs :
  bytes_at l p xs → (p + length xs ≤ length l)%nat → take (length xs) (drop p l) = xs.
Proof.
  intros H Hl. apply list_eq. intros i.
  destruct (decide (i < length xs)%nat) as [Hi|Hi].
  - destruct (lookup_lt_is_Some_2 _ _ Hi) as [x Hx]. rewrite Hx.
    rewrite lookup_take by done. rewrite decide_True by done.
    rewrite lookup_drop. by apply H.
  - rewrite lookup_take, decide_False by lia. symmetry. by apply lookup_ge_None_2; lia.
Qed.

Lemma bytes_at_app_l l r p xs : bytes_at l p xs → bytes_at (l ++ r) p xs.
Proof. intros H k x Hk. apply lookup_app_l_Some. by apply H. Qed.

Lemma bytes_at_end l xs : bytes_at (l ++ xs) (length l) xs.
Proof. intros k x Hk. rewrite lookup_app_r by lia. by replace (length l + k - length l)%nat with k by lia. Qed.

(** A write elsewhere leaves it in place. *)
Lemma bytes_at_inserts_ne l p xs f ys :
  bytes_at l p xs → (f + length ys ≤ p ∨ p + length xs ≤ f)%nat →
  bytes_at (list_inserts f ys l) p xs.
Proof.
  intros H Hd k x Hk. pose proof (lookup_lt_Some _ _ _ Hk).
  destruct Hd.
  - rewrite list_lookup_inserts_ge by lia. by apply H.
  - rewrite list_lookup_inserts_lt by lia. by apply H.
Qed.

Lemma bytes_at_inserts_eq l f ys :
  (f + length ys ≤ length l)%nat → bytes_at (list_inserts f ys l) f ys.
Proof.
  intros Hl k x Hk. pose proof (lookup_lt_Some _ _ _ Hk).
  rewrite list_lookup_inserts by lia. by replace (f + k - f)%nat with k by lia.
Qed.
End slices.

(** ** Stateful code

    [M E S A] runs in a state [S] and ends with an outcome; the state changes
    made before an error stay made, as they do in Rust. *)

Definition M (E S A : Type) : Type := S → outcome E A * S.

#[export] Instance M_ret {E S} : MRet (M E S) := λ A a s, (Ok a, s).

#[export] Instance M_bind {E S} : MBind (M E S) := λ A B f m s,
  match m s with
  | (Ok a, s') => f a s'
  | (Err e, s') => (Err e, s')
  | (Panic msg, s') => (Panic msg, s')
  | (Abort, s') => (Abort, s')
  end.

Definition lift {E S A} (r : outcome E A) : M E S A := λ s, (r, s).
Definition gets {E S A} (f : S → A) : M E S A := λ s, (Ok (f s), s).
Definition modify {E S} (f : S → S) : M E S unit := λ s, (Ok tt, f s).
Definition throw {E S A} (e : E) : M E S A := λ s, (Err e, s).
Definition panic {E S A} (msg : string) : M E S A := λ s, (Panic msg, s).
Definition abort {E S A} : M E S A := λ s, (Abort, s).

(** Run [m] and look at its outcome without propagating it. *)
Definition attempt {E S A} (m : M E S A) : M E S (outcome E A) := λ s,
  let '(r, s') := m s in (Ok r, s').

(** Weakest precondition: [Q] holds of the outcome and the final state. *)
Definition wp {E S A} (m : M E S A) (Q : outcome E A → S → Prop) (s : S) : Prop :=
  Q (m s).1 (m s).2.

Section wp_lemmas.
Context {E S : Type}.

Lemma wp_bind {A B} (m : M E S A) (f : A → M E S B) Q s :
  wp m (λ r s', match r with
                | Ok a => wp (f a) Q s'
                | Err e => Q (Err e) s'
                | Panic msg => Q (Panic msg) s'
                | Abort => Q Abort s'
                end) s →
  wp (m ≫= f) Q s.
Proof. unfold wp, mbind, M_bind. destruct (m s) as [[] s']; done. Qed.

Lemma wp_mono {A} (m : M E S A) (Q Q' : outcome E A → S → Prop) s :
  wp m Q s → (∀ r s', Q r s' → Q' r s') → wp m Q' s.
Proof. unfold wp. auto. Qed.

Lemma wp_ret {A} (a : A) (Q : outcome E A → S → Prop) s : Q (Ok a) s → wp (mret a) Q s.
Proof. done. Qed.
Lemma wp_gets {A} (f : S → A) (Q : outcome E A → S → Prop) s : Q (Ok (f s)) s → wp (gets f) Q s.
Proof. done. Qed.
Lemma wp_modify (f : S → S) (Q : outcome E unit → S → Prop) s : Q (Ok tt) (f s) → wp (modify f) Q s.
Proof. done. Qed.
Lemma wp_lift {A} (r : outcome E A) Q (s : S) : Q r s → wp (lift r) Q s.
Proof. done. Qed.
Lemma wp_throw {A} e (Q : outcome E A → S → Prop) s : Q (Err e) s → wp (throw e) Q s.
Proof. done. Qed.
Lemma wp_panic {A} message (Q : outcome E A → S → Prop) s : Q (Panic message) s → wp (panic message) Q s.
Proof. done. Qed.
Lemma wp_abort {A} (Q : outcome E A → S → Prop) s : Q Abort s → wp abort Q s.
Proof. done. Qed.
Lemma wp_attempt {A} (m : M E S A) (Q : outcome E (outcome E A) → S → Prop) s :
  wp m (λ o s', Q (Ok o) s') s → wp (attempt m) Q s.
Proof. unfold wp, attempt. by destruct (m s). Qed.

Lemma M_bind_Ok_inv {A B} (m : M E S A) (f : A → M E S B) s b s' :
  (m ≫= f) s = (Ok b, s') → ∃ a s1, m s = (Ok a, s1) ∧ f a s1 = (Ok b, s').
Proof. unfold mbind, M_bind. destruct (m s) as [[] ?]; naive_solver. Qed.

Lemma M_ret_Ok {A} (a b : A) (s s' : S) :
  mret (M:=M E S) a s = (Ok b, s') ↔ b = a ∧ s' = s.
Proof. unfold mret, M_ret. naive_solver. Qed.

Lemma gets_Ok {A} (f : S → A) b s s' :
  gets (E:=E) f s = (Ok b, s') ↔ b = f s ∧ s' = s.
Proof. unfold gets. naive_solver. Qed.

Lemma modify_Ok (f : S → S) u s s' :
  modify (E:=E) f s = (Ok u, s') ↔ s' = f s.
Proof. unfold modify. destruct u. naive_solver. Qed.

Lemma throw_Ok {A} (e : E) (a : A) (s s' : S) : throw e s = (Ok a, s') ↔ False.
Proof. unfold throw. naive_solver. Qed.

Lemma lift_Ok {A} (r : outcome E A) (a : A) (s s' : S) :
  lift r s = (Ok a, s') ↔ r = Ok a ∧ s' = s.
Proof. unfold lift. naive_solver. Qed.
End wp_lemmas.

(** ** Automation *)

(** One step of a program whose next operation is not a call. *)
Ltac wp_step :=
  match goal with
  | |- wp (_ ≫= _) _ _ => apply wp_bind
  | |- wp (mret _) _ _ => apply wp_ret
  | |- wp (gets _) _ _ => apply wp_gets
  | |- wp (modify _) _ _ => apply wp_modify
  | |- wp (lift _) _ _ => apply wp_lift
  | |- wp (throw _) _ _ => apply wp_throw
  | |- wp (panic _) _ _ => apply wp_panic
  | |- wp abort _ _ => apply wp_abort
  | |- wp (attempt _) _ _ => apply wp_attempt
  end; cbv beta iota.

(** Invert the monadic equations of a successful run. *)
Ltac inv_ok :=
  repeat match goal with
  | H : Ok _ = Ok _ |- _ => injection H as H; subst
  | H : Ok _ = Err _ |- _ => discriminate H
  | H : Err _ = Ok _ |- _ => discriminate H
  | H : Panic _ = Ok _ |- _ => discriminate H
  | H : Abort = Ok _ |- _ => discriminate H
  | H : @mbind (outcome _) _ _ _ _ _ = Ok _ |- _ =>
      let a := fresh "a" in let Ha := fresh "Heq" in
      apply bind_Ok_inv in H as (a & Ha & H)
  | H : ok_or _ _ = Ok _ |- _ => apply ok_or_Ok in H
  | H : ensure _ _ = Ok _ |- _ => apply ensure_Ok in H
  | H : index _ _ = Ok _ |- _ => apply index_Ok in H
  | H : slice _ _ _ = Ok _ |- _ => apply slice_Ok in H as (? & ? & ?); subst
  | H : store _ _ _ = Ok _ |- _ => apply store_Ok in H as (? & ?); subst
  | H : store_slice _ _ _ = Ok _ |- _ => apply store_slice_Ok in H as (? & ?); subst
  | H : checked_add _ _ = Some _ |- _ => apply checked_add_Some in H as (? & ?); subst
  | H : i32_try_from _ = Some _ |- _ => apply i32_try_from_Some in H as (? & ?); subst
  | H : usize_try_from _ = Some _ |- _ => apply usize_try_from_Some in H as (? & ?); subst
  end.

Create HintDb returns discriminated.
#[export] Hint Resolve ok_or_returns ensure_returns : returns.
#[export] Hint Extern 2 (returns (slice _ _ _)) => apply slice_returns; lia : returns.
#[export] Hint Extern 2 (returns (index _ _)) => apply index_returns; lia : returns.

(** Step through a program that has to come back. *)
Ltac returns_step :=
  lazymatch goal with
  | |- returns (Ok _) => exact I
  | |- returns (Err _) => exact I
  | |- returns (mbind _ _) =>
      apply returns_bind; [solve [auto with returns]|];
      let a := fresh "a" in let Ha := fresh "Heq" in intros a Ha; inv_ok
  end.

(** Invert the equations of a successful stateful run. *)
Ltac inv_run :=
  repeat match goal with
  | H : @mbind (M _ _) _ _ _ _ _ _ = (Ok _, _) |- _ =>
      let a := fresh "a" in let s := fresh "s" in let Hm := fresh "Hrun" in
      apply M_bind_Ok_inv in H as (a & s & Hm & H)
  | H : @mret (M _ _) _ _ _ _ = (Ok _, _) |- _ => apply M_ret_Ok in H as [? ?]; subst
  | H : gets _ _ = (Ok _, _) |- _ => apply gets_Ok in H as [? ?]; subst
  | H : modify _ _ = (Ok _, _) |- _ => apply modify_Ok in H; subst
  | H : throw _ _ = (Ok _, _) |- _ => apply throw_Ok in H; contradiction
  | H : lift _ _ = (Ok _, _) |- _ => apply lift_Ok in H as [? ?]; subst
  end.
