(* ===== verification/Errors.v ===== *)
(** * Errors of shimforge ([src/src/error.rs])

    The [Error] enum, its [Display] text, and [check], which turns an [Err]
    into the panic a test sees. *)

From S2P Require Import Prelude.

Inductive Error : Type :=
| Busy
| InvalidAddress
| InvalidRange
| NotExecutable
| MemoryChanged
| SameAddress
| Overlap
| InsufficientSpace
| InvalidInstruction
| ShadowStack
| Os (operation : string) (code : Z)
| Mapping (message : string)
| Expectation (message : string).

#[export] Instance Error_eq_dec : EqDecision Error.
Proof. solve_decision. Defined.

(** [Result<A, Error>], with the panic and abort cases of [outcome]. *)
Abbreviation result := (outcome Error).

(** [impl fmt::Display for Error]. *)
Definition display (e : Error) : string :=
  match e with
  | Busy => "another shimforge session is active"
  | InvalidAddress => "address is not readable"
  | InvalidRange => "invalid memory range"
  | NotExecutable => "address is not readable executable memory"
  | MemoryChanged => "function bytes changed unexpectedly"
  | SameAddress => "source and replacement have the same address"
  | Overlap => "target overlaps an active replacement"
  | InsufficientSpace => "function prefix is too short for a jump"
  | InvalidInstruction => "function prefix contains an unsupported or invalid instruction"
  | ShadowStack => "this function entry cannot be mocked with shadow stacks enabled"
  | Os operation code => operation +:+ " failed (OS error " +:+ pretty code +:+ ")"
  | Mapping message => "cannot inspect memory mapping: " +:+ message
  | Expectation message => message
  end.

(** [error::check]: the value, or a panic with the error's text. *)
Definition check {A} (r : result A) : result A :=
  match r with
  | Ok value => Ok value
  | Err error => Panic (display error)
  | Panic message => Panic message
  | Abort => Abort
  end.

Lemma check_Ok {A} (r : result A) a : check r = Ok a ↔ r = Ok a.
Proof. destruct r; simpl; naive_solver. Qed.
