(* ===== verification/Prefix.v ===== *)
(** * The x86-64 entry decoder ([src/src/code/prefix.rs])

    [decode] sizes the instructions shimforge may meet at a function entry and
    reports the fields a relocation has to rewrite.  [Reader] is the cursor it
    reads through.  The theorems say that decoding is a self-delimiting parse:
    it never panics, stays inside the buffer and inside the 15-byte limit,
    depends only on the bytes it consumes, rejects every truncation, and every
    field it reports lies inside the instruction. *)

From S2P Require Import Prelude Errors.

#[local] Open Scope Z_scope.

(** ** The reader *)

Module Reader.
Record t : Type := mk {
  bytes : list Z;
  offset : nat;
  relative_memory : option nat;
  memory : bool;
}.

Definition set_offset (o : nat) (r : t) : t :=
  mk (bytes r) o (relative_memory r) (memory r).
Definition set_memory (b : bool) (r : t) : t :=
  mk (bytes r) (offset r) (relative_memory r) b.
Definition set_relative_memory (o : option nat) (r : t) : t :=
  mk (bytes r) (offset r) o (memory r).
Definition set_bytes (bs : list Z) (r : t) : t :=
  mk bs (offset r) (relative_memory r) (memory r).

Abbreviation rd := (M Error t).

(** [Reader::skip]. *)
Definition skip (count : nat) : rd unit := λ r,
  let stop := (offset r + count)%nat in
  if (length (bytes r) <? stop)%nat || (15 <? stop)%nat
  then (Err InvalidInstruction, r)
  else (Ok tt, set_offset stop r).

(** [self.bytes[k]] (also [bytes[k]] in [decode], which borrows the slice). *)
Definition peek (k : nat) : rd Z := λ r, (index (bytes r) k, r).

(** [Reader::byte]. *)
Definition byte : rd Z :=
  skip 1;; o ← gets offset; peek (o - 1).

(** [Reader::modrm]. *)
Definition modrm : rd Z :=
  b ← byte;
  let mode := Z.shiftr b 6 in
  modify (set_memory (negb (mode =? 3)));;
  let register := Z.land (Z.shiftr b 3) 7 in
  let base := Z.land b 7 in
  if mode =? 3 then mret register
  else
    sib_base ← (if base =? 4 then sib ← byte; mret (Z.land sib 7) else mret base);
    o ← gets offset;
    (if (mode =? 0) && (base =? 5)
     then modify (set_relative_memory (Some o)) else mret tt);;
    let displacement :=
      if (mode =? 0) && (sib_base =? 5) then 4%nat
      else if mode =? 1 then 1%nat
      else if mode =? 2 then 4%nat
      else 0%nat in
    skip displacement;;
    mret register.
End Reader.

Import Reader (rd).

(** ** Decoded instructions *)

Inductive Call : Type :=
| Direct (displacement : nat)
| Indirect (modrm : nat).

Record Branch : Type := mkBranch {
  displacement : nat;
  width : nat;
  condition : option Z;
}.

Record Instruction : Type := mkInstruction {
  size : nat;
  terminal : bool;
  relative_memory : option nat;
  cannot_move : bool;
  branch : option Branch;
  call : option Call;
}.

(** The locals of [decode] that the prefix loop sets. *)
Record Prefixes : Type := mkPrefixes {
  word : bool;
  rex : Z;
  address32 : bool;
  locked : bool;
}.

(** The locals of [decode] that the opcode match sets. *)
Record Effect : Type := mkEffect {
  e_terminal : bool;
  e_cannot_move : bool;
  e_branch : option Branch;
  e_call : option Call;
  e_lockable : bool;
}.

Definition plain : Effect := mkEffect false false None None false.
Definition stops : Effect := mkEffect true false None None false.
Definition pinned : Effect := mkEffect false true None None false.
Definition lockable_if (b : bool) : Effect := mkEffect false false None None b.

(** [lo..=hi] and [a | b | ...] patterns. *)
Definition within (b lo hi : Z) : bool := (lo <=? b) && (b <=? hi).
Definition one_of (b : Z) (l : list Z) : bool := existsb (Z.eqb b) l.

(** One turn of the prefix loop: the locals after a prefix byte, or [None] when
    the byte is the opcode ([break byte]). *)
Definition prefix_step (p : Prefixes) (byte : Z) : option Prefixes :=
  if byte =? 0xf0 then Some (mkPrefixes (word p) 0 (address32 p) true)
  else if byte =? 0x66 then Some (mkPrefixes true 0 (address32 p) (locked p))
  else if byte =? 0x67 then Some (mkPrefixes (word p) 0 true (locked p))
  else if one_of byte [0x26; 0x2e; 0x36; 0x3e; 0x64; 0x65; 0xf2; 0xf3]
  then Some (mkPrefixes (word p) 0 (address32 p) (locked p))
  else if within byte 0x40 0x4f
  then Some (mkPrefixes (word p) byte (address32 p) (locked p))
  else None.

(** The prefix loop.  Each turn consumes a byte and the reader refuses a
    sixteenth one, so [fuel = 16] is never used up ([decode_returns]). *)
Fixpoint prefixes (fuel : nat) (p : Prefixes) : rd (Z * Prefixes) :=
  match fuel with
  | O => panic "prefix loop"
  | S fuel =>
      byte ← Reader.byte;
      match prefix_step p byte with
      | Some p' => prefixes fuel p'
      | None => mret (byte, p)
      end
  end.

(** [let immediate = if word && rex & 8 == 0 { 2 } else { 4 }]. *)
Definition immediate (p : Prefixes) : nat :=
  if word p && (Z.land (rex p) 8 =? 0) then 2%nat else 4%nat.

(** A relative branch of the given displacement width. *)
Definition relative_branch (w : nat) (c : option Z) (stop : bool) : rd Effect :=
  o ← gets Reader.offset;
  Reader.skip w;;
  mret (mkEffect stop false (Some (mkBranch o w c)) None false).

(** The [0x0f] arm: two-byte opcodes. *)
Definition two_byte : rd Effect :=
  b ← Reader.byte;
  if b =? 0x0b then mret stops
  else if b =? 0x1f then
    g ← Reader.modrm;
    if g =? 0 then mret plain else throw InvalidInstruction
  else if within b 0x10 0x17 || within b 0x28 0x2f || within b 0x40 0x4f
       || within b 0x54 0x59 || one_of b [0x6e; 0x6f; 0x7e; 0x7f]
       || within b 0x90 0x9f || one_of b [0xaf; 0xb6; 0xb7; 0xbe; 0xbf; 0xef] then
    Reader.modrm;; mret plain
  else if within b 0x80 0x8f then relative_branch 4 (Some (Z.land b 15)) false
  else if within b 0xc8 0xcf then mret plain
  else throw InvalidInstruction.

(** The [0xfe | 0xff] arm. *)
Definition inc_dec_group (opcode : Z) : rd Effect :=
  modrm ← gets Reader.offset;
  group ← Reader.modrm;
  if ((opcode =? 0xfe) && (1 <? group)) || one_of group [3; 5; 7]
  then throw InvalidInstruction
  else if (opcode =? 0xff) && (group =? 2) then
    b ← Reader.peek modrm;
    mret (mkEffect false (Z.land b 7 =? 4) None (Some (Indirect modrm)) (group <=? 1))
  else mret (mkEffect ((opcode =? 0xff) && (group =? 4)) false None None (group <=? 1)).

(** The opcode match of [decode], arm by arm. *)
Definition decode_opcode (p : Prefixes) (opcode : Z) : rd Effect :=
  if within opcode 0x50 0x5f || within opcode 0x90 0x99
     || one_of opcode [0x9c; 0x9d; 0xc9; 0xfc; 0xfd] then mret plain
  else if one_of opcode [0xc3; 0xcb; 0xcc; 0xcf; 0xf1; 0xf4] then mret stops
  else if one_of opcode [0xc2; 0xca] then Reader.skip 2;; mret stops
  else if opcode =? 0xcd then
    Reader.skip 1;; mret (mkEffect true true None None false)
  else if one_of opcode [0xe9; 0xeb] then
    relative_branch (if opcode =? 0xe9 then 4%nat else 1%nat) None true
  else if opcode =? 0xe8 then
    o ← gets Reader.offset;
    Reader.skip 4;; mret (mkEffect false false None (Some (Direct o)) false)
  else if within opcode 0x70 0x7f then relative_branch 1 (Some (Z.land opcode 15)) false
  else if within opcode 0xe0 0xe3 then Reader.skip 1;; mret pinned
  else if (opcode =? 0x6a) || within opcode 0xb0 0xb7 || (opcode =? 0xa8) then
    Reader.skip 1;; mret plain
  else if opcode =? 0x68 then Reader.skip (immediate p);; mret plain
  else if within opcode 0xb8 0xbf then
    Reader.skip (if Z.land (rex p) 8 =? 0 then immediate p else 8%nat);; mret plain
  else if within opcode 0xa0 0xa3 then
    Reader.skip (if address32 p then 4 else 8)%nat;; mret plain
  else if opcode =? 0xa9 then Reader.skip (immediate p);; mret plain
  else if within opcode 0x00 0x3d && (Z.land opcode 7 <=? 5) then
    (if within (Z.land opcode 7) 0 3 then
       Reader.modrm;;
       mret (lockable_if ((opcode <? 0x38) && (Z.land opcode 7 <=? 1)))
     else if Z.land opcode 7 =? 4 then Reader.skip 1;; mret plain
     else Reader.skip (immediate p);; mret plain)
  else if (opcode =? 0x63) || within opcode 0x84 0x8b || (opcode =? 0x8d)
          || within opcode 0xd0 0xd3 then
    Reader.modrm;; mret (lockable_if (one_of opcode [0x86; 0x87]))
  else if one_of opcode [0x69; 0x6b; 0x80; 0x81; 0x83; 0xc0; 0xc1] then
    group ← Reader.modrm;
    Reader.skip (if one_of opcode [0x69; 0x81] then immediate p else 1%nat);;
    mret (lockable_if (one_of opcode [0x80; 0x81; 0x83] && negb (group =? 7)))
  else if one_of opcode [0x8f; 0xc6; 0xc7] then
    group ← Reader.modrm;
    if group =? 0 then
      (if opcode =? 0xc6 then Reader.skip 1
       else if opcode =? 0xc7 then Reader.skip (immediate p)
       else mret tt);; mret plain
    else throw InvalidInstruction
  else if one_of opcode [0xf6; 0xf7] then
    group ← Reader.modrm;
    if group =? 1 then throw InvalidInstruction
    else
      (if group =? 0
       then Reader.skip (if opcode =? 0xf6 then 1%nat else immediate p)
       else mret tt);; mret (lockable_if (one_of group [2; 3]))
  else if one_of opcode [0xfe; 0xff] then inc_dec_group opcode
  else if opcode =? 0x0f then two_byte
  else throw InvalidInstruction.

Definition no_prefixes : Prefixes := mkPrefixes false 0 false false.

Definition is_Some_b {A} (o : option A) : bool :=
  match o with Some _ => true | None => false end.

(** [decode] as a reader program. *)
Definition decode_reader : rd Instruction :=
  '(opcode, p) ← prefixes 16 no_prefixes;
  e ← decode_opcode p opcode;
  memory ← gets Reader.memory;
  if locked p && negb (e_lockable e && memory) then throw InvalidInstruction
  else
    o ← gets Reader.offset;
    rel ← gets Reader.relative_memory;
    mret (mkInstruction o (e_terminal e) rel
            (e_cannot_move e || (address32 p && is_Some_b rel))
            (e_branch e) (e_call e)).

(** [prefix::decode]. *)
Definition decode (bytes : list Z) : result Instruction :=
  (decode_reader (Reader.mk bytes 0 None false)).1.

(** [prefix::instruction]. *)
Definition instruction (bytes : list Z) : result (nat * bool) :=
  decoded ← decode bytes; Ok (size decoded, terminal decoded).

(** ** Decoding is a self-delimiting parse

    [Parser lo m]: started at an offset of at least [lo], the reader program [m]
    moves forward inside the buffer and inside the 15-byte limit, panics never,
    fails only with [InvalidInstruction], gives the same answer on every buffer
    that agrees on the bytes it consumed, and fails when one of them is cut
    off. *)

Definition parses {A} (m : rd A) (r : Reader.t) (a : A) (r' : Reader.t) : Prop :=
  Reader.bytes r' = Reader.bytes r ∧
  (Reader.offset r ≤ Reader.offset r' ≤ length (Reader.bytes r))%nat ∧
  (Reader.offset r ≤ 15 → Reader.offset r' ≤ 15)%nat ∧
  (∀ bs, take (Reader.offset r') bs = take (Reader.offset r') (Reader.bytes r) →
         m (Reader.set_bytes bs r) = (Ok a, Reader.set_bytes bs r')) ∧
  (∀ n, (Reader.offset r ≤ n < Reader.offset r')%nat →
        (m (Reader.set_bytes (take n (Reader.bytes r)) r)).1 = Err InvalidInstruction).

Definition Parser {A} (lo : nat) (m : rd A) : Prop :=
  ∀ r, (lo ≤ Reader.offset r)%nat →
       (Reader.offset r ≤ length (Reader.bytes r))%nat →
       match m r with
       | (Ok a, r') => parses m r a r'
       | (Err e, _) => e = InvalidInstruction
       | _ => False
       end.

Create HintDb parser discriminated.

Section parser.
Context {A B : Type}.

Lemma Parser_weaken lo lo' (m : rd A) : (lo ≤ lo')%nat → Parser lo m → Parser lo' m.
Proof. intros Hle H r ??. apply H; lia. Qed.

Lemma Parser_ret lo (a : A) : Parser lo (mret a).
Proof. intros r ??. simpl. split_and!; try done; lia. Qed.

Lemma Parser_throw lo : Parser (A:=A) lo (throw InvalidInstruction).
Proof. by intros r ??. Qed.

(** Programs that read or write the cursor's other fields. *)
Lemma Parser_gets lo (f : Reader.t → A) :
  (∀ bs r, f (Reader.set_bytes bs r) = f r) → Parser lo (gets f).
Proof.
  intros Hf r ??. simpl. split_and!; try done; try lia.
  intros bs _. unfold gets. by rewrite Hf.
Qed.

Lemma Parser_bind_post lo lo' (m : rd A) (f : A → rd B) :
  Parser lo m →
  (∀ r a r', (lo ≤ Reader.offset r ≤ length (Reader.bytes r))%nat → m r = (Ok a, r') →
             (lo' ≤ Reader.offset r')%nat) →
  (∀ a, Parser lo' (f a)) → Parser lo (m ≫= f).
Proof.
  intros Hm Hpost Hf r Hlo Hr. specialize (Hm r Hlo Hr).
  unfold mbind, M_bind. destruct (m r) as [[a|e|?|] r1] eqn:Hrun; try done.
  destruct Hm as (Hb & Hoff & H15 & Hsame & Hcut).
  specialize (Hf a r1 (Hpost _ _ _ (conj Hlo Hr) Hrun)). rewrite Hb in Hf. specialize (Hf ltac:(lia)).
  destruct (f a r1) as [[b|e|?|] r2] eqn:Hrun2; try done.
  destruct Hf as (Hb2 & Hoff2 & H152 & Hsame2 & Hcut2). rewrite Hb in Hoff2, Hsame2, Hcut2.
  split_and!; [congruence|lia|lia|lia|..].
  - intros bs Hbs.
    rewrite Hsame; [by apply Hsame2|].
    assert (∀ l : list Z, take (Reader.offset r1) l = take (Reader.offset r1) (take (Reader.offset r2) l)) as Ht.
    { intros l. rewrite take_take. f_equal. lia. }
    by rewrite (Ht bs), Hbs, <-Ht.
  - intros n Hn.
    destruct (decide (n < Reader.offset r1)%nat) as [Hlt|Hge].
    + pose proof (Hcut n ltac:(lia)) as Hc.
      destruct (m (Reader.set_bytes _ r)) as [o r'] eqn:?; simpl in *; by subst.
    + rewrite Hsame by (rewrite take_take; f_equal; lia).
      apply Hcut2; lia.
Qed.

Lemma Parser_mono lo (m : rd A) r a r' :
  Parser lo m → (lo ≤ Reader.offset r)%nat →
  (Reader.offset r ≤ length (Reader.bytes r))%nat →
  m r = (Ok a, r') → parses m r a r'.
Proof. intros H Hlo Hr Hm. specialize (H r Hlo Hr). by rewrite Hm in H. Qed.

Lemma Parser_bind lo (m : rd A) (f : A → rd B) :
  Parser lo m → (∀ a, Parser lo (f a)) → Parser lo (m ≫= f).
Proof.
  intros Hm. apply Parser_bind_post; [done|]. intros r a r' [Hlo Hr] Hrun.
  destruct (Parser_mono _ _ _ _ _ Hm Hlo Hr Hrun) as (_ & ? & _). lia.
Qed.

(** A program that consumes a byte raises the lower bound. *)
Definition advances (m : rd A) : Prop :=
  ∀ r a r', m r = (Ok a, r') → (Reader.offset r < Reader.offset r')%nat.

Lemma Parser_bind_advances lo (m : rd A) (f : A → rd B) :
  Parser lo m → advances m → (∀ a, Parser (S lo) (f a)) → Parser lo (m ≫= f).
Proof.
  intros Hm Ha. apply Parser_bind_post; [done|]. intros r a r' [Hlo Hr] Hrun.
  apply Ha in Hrun. lia.
Qed.

Lemma Parser_bind_offset lo (f : nat → rd B) :
  (∀ k, (lo ≤ k)%nat → Parser k (f k)) → Parser lo (gets Reader.offset ≫= f).
Proof. intros Hf r Hlo Hr. apply (Hf (Reader.offset r)); lia. Qed.
End parser.

Lemma Parser_modify_memory lo b : Parser lo (modify (Reader.set_memory b)).
Proof. intros r ??. simpl. split_and!; try done; simpl; lia. Qed.

Lemma Parser_modify_relative lo o : Parser lo (modify (Reader.set_relative_memory o)).
Proof. intros r ??. simpl. split_and!; try done; simpl; lia. Qed.

Lemma skip_Ok n r u r' :
  Reader.skip n r = (Ok u, r') ↔
  (Reader.offset r + n ≤ length (Reader.bytes r))%nat ∧ (Reader.offset r + n ≤ 15)%nat ∧
  r' = Reader.set_offset (Reader.offset r + n) r.
Proof.
  destruct u. unfold Reader.skip.
  destruct (Nat.ltb_spec (length (Reader.bytes r)) (Reader.offset r + n)),
    (Nat.ltb_spec 15 (Reader.offset r + n)); simpl; naive_solver lia.
Qed.

Lemma Parser_skip lo n : Parser lo (Reader.skip n).
Proof.
  intros r Hlo Hr. destruct (Reader.skip n r) as [[[]|e|?|] r'] eqn:Hs.
  - apply skip_Ok in Hs as (Hn & H15 & ->). split_and!; simpl; try done; try lia.
    + intros bs Hbs. apply (f_equal length) in Hbs. rewrite !length_take in Hbs.
      rewrite skip_Ok. split_and!; simpl in *; try done; lia.
    + intros m Hm. unfold Reader.skip; simpl. rewrite length_take.
      destruct (Nat.ltb_spec (m `min` length (Reader.bytes r)) (Reader.offset r + n)); [done|lia].
  - unfold Reader.skip in Hs. case_match; congruence.
  - unfold Reader.skip in Hs. case_match; congruence.
  - unfold Reader.skip in Hs. case_match; congruence.
Qed.

Lemma Parser_peek lo k : (k < lo)%nat → Parser lo (Reader.peek k).
Proof.
  intros Hk r Hlo Hr. unfold Reader.peek, index.
  destruct (lookup_lt_is_Some_2 (Reader.bytes r) k ltac:(lia)) as [b Hb].
  rewrite Hb. simpl. split_and!; try done; try lia.
  intros bs Hbs. unfold Reader.peek, index. simpl.
  apply (f_equal (.!! k)) in Hbs. rewrite !lookup_take, !decide_True in Hbs by lia.
  by rewrite Hbs, Hb.
Qed.

Lemma Parser_byte lo : Parser lo Reader.byte.
Proof.
  apply (Parser_bind_post _ (S lo)); [apply Parser_skip| |].
  - intros r a r' Hr [_ [_ ->]]%skip_Ok. simpl. lia.
  - intros _. apply Parser_bind_offset. intros k Hk. apply Parser_peek. lia.
Qed.

Lemma byte_Ok r b r' :
  Reader.byte r = (Ok b, r') →
  (Reader.offset r < length (Reader.bytes r))%nat ∧ (Reader.offset r < 15)%nat ∧
  Reader.bytes r !! Reader.offset r = Some b ∧
  r' = Reader.set_offset (S (Reader.offset r)) r.
Proof.
  intros ([] & r1 & (? & ? & ->)%skip_Ok & Hrun)%M_bind_Ok_inv.
  unfold gets, mbind, M_bind, Reader.peek, index in Hrun. simpl in Hrun.
  replace (Reader.offset r + 1 - 1)%nat with (Reader.offset r) in Hrun by lia.
  rewrite Nat.add_1_r in *. destruct (Reader.bytes r !! Reader.offset r); naive_solver lia.
Qed.

Lemma byte_advances : advances Reader.byte.
Proof. intros r b r' (? & ? & ? & ->)%byte_Ok. simpl. lia. Qed.

#[export] Hint Resolve Parser_ret Parser_throw Parser_skip Parser_byte
  Parser_modify_memory Parser_modify_relative byte_advances : parser.
#[export] Hint Extern 1 (Parser _ (gets _)) =>
  apply Parser_gets; reflexivity : parser.
#[export] Hint Extern 1 (Parser _ (Reader.peek _)) =>
  apply Parser_peek; lia : parser.

(** Take a reader program apart along its binds and conditionals. *)
Ltac parser_step :=
  first
    [ solve [auto with parser]
    | match goal with
      | |- ∀ _, _ => intro
      | |- Parser _ (match ?x with _ => _ end) => destruct x
      end
    | apply Parser_bind_offset
    | apply Parser_bind_advances; [| solve [auto with parser] |]
    | apply Parser_bind ].
Ltac parser := repeat (cbv zeta; parser_step).

Lemma Parser_modrm lo : Parser lo Reader.modrm.
Proof. unfold Reader.modrm. parser. Qed.

Lemma advances_byte_bind {A} (f : Z → rd A) :
  (∀ b, Parser 0 (f b)) → advances (Reader.byte ≫= f).
Proof.
  intros Hf r a r' (b & r1 & (? & ? & ? & ->)%byte_Ok & Hrun)%M_bind_Ok_inv.
  eapply (Parser_mono 0) in Hrun as (_ & Ho & _); [|apply Hf|simpl; lia..].
  simpl in Ho. lia.
Qed.

Lemma modrm_advances : advances Reader.modrm.
Proof. apply advances_byte_bind. parser. Qed.

#[export] Hint Resolve Parser_modrm modrm_advances : parser.

Lemma Parser_prefixes n lo p : (15 ≤ lo + n)%nat → Parser lo (prefixes (S n) p).
Proof.
  revert lo p. induction n as [|n IH]; intros lo p Hlo.
  - intros r Hr Hl. simpl. unfold Reader.byte, mbind, M_bind, Reader.skip.
    destruct (Nat.ltb_spec 15 (Reader.offset r + 1)); [|lia].
    by rewrite orb_true_r.
  - apply Parser_bind_advances; [auto with parser..|]. intros b.
    destruct (prefix_step p b); [apply IH; lia|auto with parser].
Qed.

Lemma Parser_relative_branch lo w c s : Parser lo (relative_branch w c s).
Proof. unfold relative_branch. parser. Qed.
#[export] Hint Resolve Parser_relative_branch : parser.

Lemma Parser_two_byte lo : Parser lo two_byte.
Proof. unfold two_byte. parser. Qed.

Lemma Parser_inc_dec_group lo o : Parser lo (inc_dec_group o).
Proof. unfold inc_dec_group. parser. Qed.
#[export] Hint Resolve Parser_two_byte Parser_inc_dec_group : parser.

Lemma Parser_decode_opcode lo p o : Parser lo (decode_opcode p o).
Proof. unfold decode_opcode. parser. Qed.
#[export] Hint Resolve Parser_decode_opcode : parser.

Lemma Parser_decode_reader lo : Parser lo decode_reader.
Proof.
  unfold decode_reader. apply Parser_bind; [apply Parser_prefixes; lia|]. parser.
Qed.

Definition start (bs : list Z) : Reader.t := Reader.mk bs 0 None false.

Lemma decode_Ok_inv bs i :
  decode bs = Ok i → ∃ r, decode_reader (start bs) = (Ok i, r) ∧
                          parses decode_reader (start bs) i r ∧ size i = Reader.offset r.
Proof.
  unfold decode. fold (start bs). intros H.
  destruct (decode_reader (start bs)) as [o r] eqn:Hrun.
  simpl in H. subst o. exists r. split_and!; [done|..].
  - eapply (Parser_mono 0); [apply Parser_decode_reader|simpl; lia..|done].
  - apply M_bind_Ok_inv in Hrun as ([o p] & r1 & _ & Hrun).
    apply M_bind_Ok_inv in Hrun as (e & r2 & _ & Hrun).
    unfold gets, mbind, M_bind in Hrun. case_match; [done|].
    by injection Hrun as <- <-.
Qed.

(** ** Field bounds *)

(** What [decode_opcode] promises about the fields it reports, in the state the
    reader is left in. *)
Definition effect_ok (e : Effect) (r : Reader.t) : Prop :=
  (∀ d, Reader.relative_memory r = Some d → (1 ≤ d ∧ d + 4 ≤ Reader.offset r)%nat) ∧
  match e_branch e, e_call e with
  | Some b, None =>
      (displacement b + width b = Reader.offset r)%nat ∧ (1 ≤ displacement b)%nat ∧
      Reader.relative_memory r = None ∧ e_lockable e = false ∧
      match condition b with
      | Some c => 0 ≤ c < 16 ∧ (width b = 1%nat ∨ width b = 4%nat ∧ (2 ≤ displacement b)%nat)
      | None => width b = 1%nat ∨ width b = 4%nat
      end
  | None, Some (Direct d) =>
      (d + 4 = Reader.offset r)%nat ∧ (1 ≤ d)%nat ∧ Reader.relative_memory r = None
  | None, Some (Indirect m) =>
      (m < Reader.offset r)%nat ∧
      (∀ d, Reader.relative_memory r = Some d → (m < d)%nat)
  | Some _, Some _ => False
  | None, None => True
  end.

Ltac inv_rd :=
  repeat (inv_run; match goal with
  | H : Reader.skip _ _ = (Ok _, _) |- _ => apply skip_Ok in H as (? & ? & ->)
  | H : Reader.byte _ = (Ok _, _) |- _ => apply byte_Ok in H as (? & ? & ? & ->)
  | H : match ?b with _ => _ end _ = (Ok _, _) |- _ => destruct b eqn:?
  end); inv_run; simpl in *.

Lemma land_bounds a n : 0 ≤ n → 0 ≤ Z.land a (Z.ones n) < 2 ^ n.
Proof. intros. rewrite Z.land_ones by done. apply Z.mod_pos_bound. lia. Qed.

Lemma modrm_Ok r g r' :
  Reader.modrm r = (Ok g, r') → Reader.relative_memory r = None →
  (Reader.offset r < Reader.offset r')%nat ∧
  Reader.bytes r' = Reader.bytes r ∧
  (∀ d, Reader.relative_memory r' = Some d →
        (Reader.offset r < d)%nat ∧ (d + 4 = Reader.offset r')%nat).
Proof.
  unfold Reader.modrm. intros Hrun Hnone. inv_rd; split_and!; try done; try lia;
    intros d Hd; rewrite ?Hnone in Hd; simplify_eq; try lia.
  match goal with H : _ = true |- _ => rewrite H end. lia.
Qed.

Lemma relative_branch_ok w c s r e r' :
  relative_branch w c s r = (Ok e, r') → Reader.relative_memory r = None →
  (1 ≤ Reader.offset r)%nat →
  match c with
  | Some c => 0 ≤ c < 16 ∧ (w = 1%nat ∨ w = 4%nat ∧ (2 ≤ Reader.offset r)%nat)
  | None => w = 1%nat ∨ w = 4%nat
  end → effect_ok e r'.
Proof.
  unfold relative_branch. intros Hrun Hnone Ho Hc. inv_rd.
  split; simpl; [by rewrite Hnone|]. split_and!; try done; lia.
Qed.

(** The reader after a ModRM operand reports a well-placed field. *)
Lemma modrm_effect_ok r g r' :
  Reader.modrm r = (Ok g, r') → Reader.relative_memory r = None →
  ∀ e n, e_branch e = None → e_call e = None →
         effect_ok e (Reader.set_offset (Reader.offset r' + n) r').
Proof.
  intros Hrun Hnone e n Hb Hc. destruct (modrm_Ok _ _ _ Hrun Hnone) as (? & _ & Hd).
  split; rewrite ?Hb, ?Hc; [|done]. intros d ?%Hd. simpl. lia.
Qed.

Lemma modrm_effect_ok_0 r g r' :
  Reader.modrm r = (Ok g, r') → Reader.relative_memory r = None →
  ∀ e, e_branch e = None → e_call e = None → effect_ok e r'.
Proof.
  intros Hrun Hnone e Hb Hc. destruct (modrm_Ok _ _ _ Hrun Hnone) as (? & _ & Hd).
  split; rewrite ?Hb, ?Hc; [|done]. intros d ?%Hd. lia.
Qed.

(** An effect with no fields, when no ModRM operand was read. *)
Lemma no_field_ok e r :
  e_branch e = None → e_call e = None → Reader.relative_memory r = None → effect_ok e r.
Proof. intros Hb Hc Hr. split; rewrite ?Hb, ?Hc, ?Hr; done. Qed.

Lemma two_byte_ok r e r' :
  two_byte r = (Ok e, r') → Reader.relative_memory r = None →
  (1 ≤ Reader.offset r)%nat → effect_ok e r'.
Proof.
  unfold two_byte. intros Hrun Hnone Ho. inv_rd;
    try (by apply no_field_ok); try (by eapply modrm_effect_ok_0).
  eapply relative_branch_ok; [done|done|simpl; lia|]. simpl.
  split; [apply (land_bounds _ 4); lia|lia].
Qed.

Lemma inc_dec_group_ok o r e r' :
  inc_dec_group o r = (Ok e, r') → Reader.relative_memory r = None → effect_ok e r'.
Proof.
  unfold inc_dec_group. intros Hrun Hnone. inv_run.
  destruct (modrm_Ok _ _ _ Hrun1 Hnone) as (? & _ & Hd).
  destruct (_ || _); [by inv_run|]. destruct (_ && _) in Hrun; inv_run.
  - unfold Reader.peek in *. simplify_eq. split; [intros d ?%Hd; lia|].
    simpl. split; [lia|]. intros d ?%Hd; lia.
  - by eapply modrm_effect_ok_0.
Qed.

Lemma decode_opcode_ok p o r e r' :
  decode_opcode p o r = (Ok e, r') → Reader.relative_memory r = None →
  (1 ≤ Reader.offset r)%nat → effect_ok e r'.
Proof.
  unfold decode_opcode. intros Hrun Hnone Ho.
  repeat match goal with
  | H : (if ?b then _ else _) _ = (Ok _, _) |- _ => destruct b eqn:?
  end; inv_run;
  repeat match goal with
  | H : (if ?b then _ else _) _ = (Ok _, _) |- _ => destruct b eqn:?
  end; inv_run;
  repeat match goal with
  | H : Reader.skip _ _ = (Ok _, _) |- _ => apply skip_Ok in H as (? & ? & ->)
  end;
  try (by apply no_field_ok); try (by eapply modrm_effect_ok_0);
  try (by eapply modrm_effect_ok); try (by eapply inc_dec_group_ok);
  try (by eapply two_byte_ok).
  - eapply relative_branch_ok; [done..|]. destruct (o =? 0xe9); lia.
  - split; simpl; [by rewrite Hnone|]. split_and!; try done; lia.
  - eapply relative_branch_ok; [done..|]. split; [apply (land_bounds _ 4); lia|lia].
  - inv_rd; first [by eapply modrm_effect_ok | by eapply modrm_effect_ok_0].
  - inv_rd; first [by eapply modrm_effect_ok | by eapply modrm_effect_ok_0].
Qed.

(** What a decoded instruction promises about its fields. *)
Definition instruction_ok (i : Instruction) : Prop :=
  (∀ d, relative_memory i = Some d → (1 ≤ d ∧ d + 4 ≤ size i)%nat) ∧
  match branch i, call i with
  | Some b, None =>
      (displacement b + width b = size i)%nat ∧ (1 ≤ displacement b)%nat ∧
      relative_memory i = None ∧
      match condition b with
      | Some c => 0 ≤ c < 16 ∧ (width b = 1%nat ∨ width b = 4%nat ∧ (2 ≤ displacement b)%nat)
      | None => width b = 1%nat ∨ width b = 4%nat
      end
  | None, Some (Direct d) => (d + 4 = size i)%nat ∧ (1 ≤ d)%nat ∧ relative_memory i = None
  | None, Some (Indirect m) =>
      (m < size i)%nat ∧ (∀ d, relative_memory i = Some d → (m < d)%nat)
  | Some _, Some _ => False
  | None, None => True
  end.

Lemma prefixes_frame n p r a r' :
  prefixes n p r = (Ok a, r') →
  Reader.relative_memory r' = Reader.relative_memory r ∧
  (Reader.offset r < Reader.offset r')%nat.
Proof.
  revert p r. induction n as [|n IH]; intros p r Hrun; [done|].
  simpl in Hrun. inv_rd; [|split; simpl; lia || done].
  apply IH in Hrun as [-> ?]. simpl in *. split; [done|lia].
Qed.

Lemma decode_fields bs i : decode bs = Ok i → instruction_ok i.
Proof.
  intros (r & Hrun & _ & _)%decode_Ok_inv. unfold decode_reader in Hrun. inv_run.
  destruct a as [o p]. inv_run.
  apply prefixes_frame in Hrun0 as [Hnone Ho].
  apply decode_opcode_ok in Hrun1; [|done|simpl in *; lia].
  case_match; inv_run. destruct Hrun1 as [H1 H2]. split; simpl; [done|].
  destruct (e_branch _), (e_call _) as [[]|]; naive_solver.
Qed.

(** ** The theorems *)

(** [decode] comes back for every input, and the only error is
    [InvalidInstruction]; none of its indexing can panic and the prefix loop
    ends. *)
Theorem decode_returns bs :
  decode bs = Err InvalidInstruction ∨ ∃ i, decode bs = Ok i.
Proof.
  pose proof (Parser_decode_reader 0 (start bs)) as H. simpl in H.
  unfold decode. fold (start bs).
  destruct (decode_reader (start bs)) as [[i|e|?|] r]; simpl; naive_solver lia.
Qed.

(** A decoded instruction is 1 to 15 bytes long and lies inside the buffer. *)
Lemma decode_size bs i :
  decode bs = Ok i → (1 ≤ size i ≤ 15)%nat ∧ (size i ≤ length bs)%nat.
Proof.
  intros (r & Hrun & (_ & ? & ? & _) & ->)%decode_Ok_inv. simpl in *.
  unfold decode_reader in Hrun. apply M_bind_Ok_inv in Hrun as ([o p] & r1 & Hp & Hrun).
  pose proof (Parser_prefixes 15 0 no_prefixes ltac:(lia)) as HP.
  destruct (Parser_mono 0 _ (start bs) _ _ HP (Nat.le_0_l _) (Nat.le_0_l _) Hp) as (Hb & ? & _).
  apply prefixes_frame in Hp as [_ Ho]. simpl in *.
  apply (Parser_mono 0) in Hrun as (_ & ? & _); [lia|parser|lia|rewrite Hb; simpl; lia].
Qed.

(** The bytes after the instruction do not matter. *)
Lemma decode_app bs i rest :
  decode bs = Ok i → decode (take (size i) bs ++ rest) = Ok i.
Proof.
  intros Hd. pose proof (decode_size _ _ Hd).
  apply decode_Ok_inv in Hd as (r & Hrun & (_ & ? & _ & Hsame & _) & Hsz). simpl in *.
  unfold decode. fold (start (take (size i) bs ++ rest)).
  change (start ?l) with (Reader.set_bytes l (start bs)).
  rewrite Hsame; [done|]. rewrite <-Hsz, take_app_le, take_take by (rewrite length_take; lia).
  f_equal. lia.
Qed.

(** Every cut through the instruction is rejected. *)
Lemma decode_truncated bs i n :
  decode bs = Ok i → (n < size i)%nat → decode (take n bs) = Err InvalidInstruction.
Proof.
  intros (r & Hrun & (_ & ? & _ & _ & Hcut) & Hsz)%decode_Ok_inv Hn. simpl in *.
  apply (Hcut n). lia.
Qed.

(** ** The shape of relative branches

    A decoded branch is a run of prefix bytes, an opcode of one or two bytes and
    the displacement; the same prefixes in front of a 32-bit form decode to the
    same branch. *)

Fixpoint prefix_fold (p : Prefixes) (pre : list Z) : option Prefixes :=
  match pre with
  | [] => Some p
  | b :: pre => match prefix_step p b with Some p' => prefix_fold p' pre | None => None end
  end.

Lemma prefixes_inv n p r op p' r' :
  prefixes n p r = (Ok (op, p'), r') →
  ∃ pre, prefix_fold p pre = Some p' ∧ prefix_step p' op = None ∧
         bytes_at (Reader.bytes r) (Reader.offset r) (pre ++ [op]) ∧
         r' = Reader.set_offset (Reader.offset r + length pre + 1) r.
Proof.
  revert p r. induction n as [|n IH]; intros p r Hrun; [done|]. simpl in Hrun.
  apply M_bind_Ok_inv in Hrun as (b & r1 & (? & ? & Hb & ->)%byte_Ok & Hrun).
  destruct (prefix_step p b) as [p1|] eqn:Hstep.
  - apply IH in Hrun as (pre & Hf & Hn & Hat & ->). exists (b :: pre). simpl in *.
    rewrite Hstep. split_and!; try done.
    + intros [|k] x Hk; simpl in Hk; simplify_eq; [by rewrite Nat.add_0_r|].
      apply Hat in Hk. by rewrite <-Nat.add_succ_comm.
    + unfold Reader.set_offset; simpl. f_equal. lia.
  - inv_run. simplify_eq. exists []. simpl. split_and!; try done.
    + intros [|k] x Hk; simpl in Hk; simplify_eq; by rewrite Nat.add_0_r.
    + unfold Reader.set_offset. f_equal. lia.
Qed.

Lemma byte_run r b :
  Reader.bytes r !! Reader.offset r = Some b → (Reader.offset r < 15)%nat →
  Reader.byte r = (Ok b, Reader.set_offset (S (Reader.offset r)) r).
Proof.
  intros Hb H15. pose proof (lookup_lt_Some _ _ _ Hb).
  unfold Reader.byte, mbind, M_bind, Reader.skip.
  destruct (Nat.ltb_spec (length (Reader.bytes r)) (Reader.offset r + 1)); [lia|].
  destruct (Nat.ltb_spec 15 (Reader.offset r + 1)); [lia|]. simpl.
  unfold Reader.peek, index. simpl. rewrite Nat.add_sub, Hb. simpl.
  by rewrite Nat.add_1_r.
Qed.

Lemma skip_run r n :
  (Reader.offset r + n ≤ length (Reader.bytes r))%nat → (Reader.offset r + n ≤ 15)%nat →
  Reader.skip n r = (Ok tt, Reader.set_offset (Reader.offset r + n) r).
Proof. intros. by apply skip_Ok. Qed.

Lemma prefixes_run pre n p r op p' :
  bytes_at (Reader.bytes r) (Reader.offset r) (pre ++ [op]) →
  prefix_fold p pre = Some p' → prefix_step p' op = None →
  (length pre < n)%nat → (Reader.offset r + length pre < 15)%nat →
  prefixes n p r =
  (Ok (op, p'), Reader.set_offset (Reader.offset r + length pre + 1) r).
Proof.
  revert n p r. induction pre as [|b pre IH]; intros n p r Hat Hf Hn Hlen H15;
    (destruct n as [|n]; [simpl in *; lia|]); simpl in *.
  - simplify_eq. unfold mbind, M_bind. specialize (Hat 0%nat op eq_refl).
    rewrite Nat.add_0_r in Hat. rewrite (byte_run _ op) by (done || lia). rewrite Hn.
    unfold mret, M_ret. do 2 f_equal. unfold Reader.set_offset. f_equal; lia.
  - unfold mbind, M_bind.
    rewrite (byte_run _ b) by (try (specialize (Hat 0%nat b eq_refl); rewrite Nat.add_0_r in Hat); done || lia).
    destruct (prefix_step p b) as [p1|]; [|done].
    rewrite (IH n p1); simpl; try done; try lia.
    + unfold Reader.set_offset; simpl. repeat f_equal; lia.
    + intros k x Hk. replace (S (Reader.offset r) + k)%nat with (Reader.offset r + S k)%nat by lia.
      by apply Hat.
Qed.

(** The opcode bytes of a 32-bit relative branch. *)
Definition branch_opcode (c : option Z) : list Z :=
  match c with Some c => [0x0f; Z.lor 0x80 c] | None => [0xe9] end.

(** The opcode bytes [b] was decoded from. *)
Definition source_opcode (b : Branch) : list Z :=
  if (width b =? 4)%nat then branch_opcode (condition b)
  else match condition b with Some c => [Z.lor 0x70 c] | None => [0xeb] end.

Lemma within_spec b lo hi : within b lo hi = true ↔ lo ≤ b ≤ hi.
Proof. unfold within. lia. Qed.

Lemma low_nibble_70 b : within b 0x70 0x7f = true → Z.lor 0x70 (Z.land b 15) = b.
Proof.
  intros H%within_spec. apply Z.eqb_eq.
  apply (seqZ_forallb 0x70 16 (λ b, Z.lor 0x70 (Z.land b 15) =? b)); [reflexivity|lia].
Qed.

Lemma low_nibble_80 b : within b 0x80 0x8f = true → Z.lor 0x80 (Z.land b 15) = b.
Proof.
  intros H%within_spec. apply Z.eqb_eq.
  apply (seqZ_forallb 0x80 16 (λ b, Z.lor 0x80 (Z.land b 15) =? b)); [reflexivity|lia].
Qed.

(** What is known of an effect that reports a branch: its opcode is [op]
    followed by [rest], and the displacement comes next. *)
Definition branch_shape (op : Z) (r : Reader.t) (e : Effect) (b : Branch) : Prop :=
  ∃ rest, source_opcode b = op :: rest ∧
    bytes_at (Reader.bytes r) (Reader.offset r) rest ∧
    displacement b = (Reader.offset r + length rest)%nat ∧
    e_cannot_move e = false ∧ e_terminal e = negb (is_Some_b (condition b)) ∧
    e_lockable e = false.

Lemma relative_branch_shape w c s r e r' b :
  relative_branch w c s r = (Ok e, r') → e_branch e = Some b → s = negb (is_Some_b c) →
  b = mkBranch (Reader.offset r) w c ∧ e_cannot_move e = false ∧
  e_terminal e = negb (is_Some_b c) ∧ e_lockable e = false.
Proof. unfold relative_branch. intros Hrun Hb ->. inv_rd. naive_solver. Qed.

Lemma two_byte_shape r e r' b :
  two_byte r = (Ok e, r') → e_branch e = Some b → branch_shape 0x0f r e b.
Proof.
  unfold two_byte. intros Hrun Hb.
  apply M_bind_Ok_inv in Hrun as (x & r1 & (? & ? & Hx & ->)%byte_Ok & Hrun).
  repeat match goal with
  | H : (if ?b then _ else _) _ = (Ok _, _) |- _ => destruct b eqn:?
  end; inv_run; simplify_eq/=; inv_rd; simplify_eq/=.
  eapply relative_branch_shape in Hrun as (-> & ? & ? & ?); [|done..].
  exists [x]. unfold source_opcode; simpl. rewrite low_nibble_80 by done.
  split_and!; try done; [|lia]. intros [|k] y Hy; simpl in Hy; simplify_eq. by rewrite Nat.add_0_r.
Qed.

Lemma decode_opcode_shape p op r e r' b :
  decode_opcode p op r = (Ok e, r') → e_branch e = Some b → branch_shape op r e b.
Proof.
  unfold decode_opcode, inc_dec_group. intros Hrun Hb.
  repeat match goal with
  | H : (if ?b then _ else _) _ = (Ok _, _) |- _ => destruct b eqn:?
  end; inv_run;
  repeat match goal with
  | H : (if ?b then _ else _) _ = (Ok _, _) |- _ => destruct b eqn:?
  end; inv_run; simplify_eq/=.
  - eapply relative_branch_shape in Hrun as (-> & ? & ? & ?); [|done..].
    exists []. destruct (Z.eqb_spec op 0xe9) as [->|]; simpl;
      split_and!; try done; try lia; try apply bytes_at_nil.
    unfold one_of in *; simpl in *. unfold source_opcode; simpl. f_equal. lia.
  - eapply relative_branch_shape in Hrun as (-> & ? & ? & ?); [|done..].
    exists []. unfold source_opcode; simpl. rewrite low_nibble_70 by done.
    split_and!; try done; try lia; try apply bytes_at_nil.
  - assert (op = 0x0f) as -> by lia. by eapply two_byte_shape.
Qed.

Lemma decode_branch_inv bs i b :
  decode bs = Ok i → branch i = Some b →
  ∃ pre p, prefix_fold no_prefixes pre = Some p ∧ locked p = false ∧
    (displacement b = length pre + length (source_opcode b))%nat ∧
    bytes_at bs 0 (pre ++ source_opcode b) ∧
    terminal i = negb (is_Some_b (condition b)).
Proof.
  intros (r & Hrun & _ & _)%decode_Ok_inv Hb. unfold decode_reader in Hrun.
  apply M_bind_Ok_inv in Hrun as ([op p] & r1 & Hp & Hrun).
  apply prefixes_inv in Hp as (pre & Hf & Hn & Hat & ->). simpl in Hat.
  apply M_bind_Ok_inv in Hrun as (e & r2 & He & Hrun).
  unfold gets, mbind, M_bind in Hrun. destruct (locked p && _) eqn:Hl in Hrun; [done|].
  unfold mret, M_ret in Hrun. simplify_eq/=.
  apply decode_opcode_shape with (b := b) in He as (rest & Hop & Hrest & Hd & _ & Ht & Hk); [|done].
  exists pre, p. rewrite Hop. split_and!; try done.
  - rewrite Hk in Hl. destruct (locked p); [done|done].
  - simpl in *. lia.
  - change (op :: rest) with ([op] ++ rest). rewrite (assoc_L (++)), bytes_at_app.
    split; [done|]. by rewrite length_app.
Qed.

Lemma relative_branch_run w c s r :
  (Reader.offset r + w ≤ length (Reader.bytes r))%nat → (Reader.offset r + w ≤ 15)%nat →
  relative_branch w c s r =
  (Ok (mkEffect s false (Some (mkBranch (Reader.offset r) w c)) None false),
   Reader.set_offset (Reader.offset r + w) r).
Proof. intros. unfold relative_branch, mbind, M_bind, gets. by rewrite skip_run. Qed.

Lemma high_nibble_80 c :
  0 ≤ c < 16 →
  (Z.lor 0x80 c =? 0x0b) = false ∧ (Z.lor 0x80 c =? 0x1f) = false ∧
  (within (Z.lor 0x80 c) 0x10 0x17 || within (Z.lor 0x80 c) 0x28 0x2f
   || within (Z.lor 0x80 c) 0x40 0x4f || within (Z.lor 0x80 c) 0x54 0x59
   || one_of (Z.lor 0x80 c) [0x6e; 0x6f; 0x7e; 0x7f] || within (Z.lor 0x80 c) 0x90 0x9f
   || one_of (Z.lor 0x80 c) [0xaf; 0xb6; 0xb7; 0xbe; 0xbf; 0xef]) = false ∧
  within (Z.lor 0x80 c) 0x80 0x8f = true ∧ Z.land (Z.lor 0x80 c) 15 = c.
Proof.
  intros Hc. assert (c ∈ seqZ 0 16) as Hin by (apply elem_of_seqZ; lia).
  vm_compute in Hin. repeat (apply elem_of_cons in Hin as [->|Hin]; [by vm_compute|]).
  by apply elem_of_nil in Hin.
Qed.

Lemma decode_opcode_branch p c r :
  bytes_at (Reader.bytes r) (Reader.offset r) (drop 1 (branch_opcode c)) →
  (match c with Some c => 0 ≤ c < 16 | None => True end) →
  let n := (Reader.offset r + length (branch_opcode c) - 1)%nat in
  (n + 4 ≤ length (Reader.bytes r))%nat → (n + 4 ≤ 15)%nat →
  decode_opcode p (if c then 0x0f else 0xe9) r =
  (Ok (mkEffect (negb (is_Some_b c)) false (Some (mkBranch n 4 c)) None false),
   Reader.set_offset (n + 4) r).
Proof.
  intros Hat Hc n Hlen H15. destruct c as [c|]; simpl in *.
  - unfold decode_opcode. simpl. unfold two_byte, mbind, M_bind.
    specialize (Hat 0%nat _ eq_refl). rewrite Nat.add_0_r in Hat.
    rewrite (byte_run _ (Z.lor 0x80 c)) by (done || lia).
    destruct (high_nibble_80 c Hc) as (-> & -> & -> & -> & ->).
    rewrite relative_branch_run by (simpl; lia). simpl.
    unfold n, Reader.set_offset. simpl. repeat f_equal; lia.
  - unfold decode_opcode. simpl. rewrite relative_branch_run by lia.
    unfold n. by rewrite Nat.add_sub.
Qed.

(** Any prefixes a branch was decoded with, in front of the 32-bit form of the
    same branch, decode to that branch as long as the result fits 15 bytes. *)
Lemma decode_long_branch pre p c field tail :
  prefix_fold no_prefixes pre = Some p → locked p = false →
  (match c with Some c => 0 ≤ c < 16 | None => True end) →
  length field = 4%nat →
  let n := (length pre + length (branch_opcode c))%nat in
  (n + 4 ≤ 15)%nat →
  decode (pre ++ branch_opcode c ++ field ++ tail) =
  Ok (mkInstruction (n + 4) (negb (is_Some_b c)) None false
        (Some (mkBranch n 4 c)) None).
Proof.
  intros Hf Hl Hc Hlen n H15.
  set (bs := pre ++ branch_opcode c ++ field ++ tail).
  assert (branch_opcode c = (if c then 0x0f else 0xe9) :: drop 1 (branch_opcode c)) as Hop
    by by destruct c.
  assert (bytes_at bs 0 (pre ++ branch_opcode c)) as Hat.
  { intros k x Hk. unfold bs. rewrite (assoc_L (++)). by apply lookup_app_l_Some. }
  assert (length bs = n + 4 + length tail)%nat as Hbs.
  { unfold bs, n. rewrite !length_app. lia. }
  rewrite Hop in Hat. change (?x :: ?l) with ([x] ++ l) in Hat.
  rewrite (assoc_L (++)), bytes_at_app, length_app in Hat. destruct Hat as [Hat1 Hat2].
  assert (length (branch_opcode c) = S (length (drop 1 (branch_opcode c)))) as HL
    by (rewrite Hop at 1; done).
  unfold decode, decode_reader, mbind, M_bind. fold (start bs).
  rewrite (prefixes_run pre _ _ _ (if c then 0x0f else 0xe9) p); simpl; try done; try lia;
    [|by destruct c].
  rewrite decode_opcode_branch; simpl; try done; try (unfold n in *; lia).
  rewrite Hl. simpl. do 2 f_equal; [unfold n; lia|by rewrite andb_false_r|].
  do 2 f_equal. unfold n. lia.
Qed.

(** The prefixes of an instruction are determined by its bytes. *)
Lemma prefix_fold_unique pre pre' q p p' op op' rest rest' :
  prefix_fold q pre = Some p → prefix_step p op = None →
  prefix_fold q pre' = Some p' → prefix_step p' op' = None →
  pre ++ op :: rest = pre' ++ op' :: rest' → pre = pre' ∧ op = op' ∧ p = p'.
Proof.
  revert q pre'. induction pre as [|b pre IH]; intros q [|b' pre'] Hf Hn Hf' Hn' He;
    simpl in *; simplify_eq.
  - done.
  - rewrite Hn in Hf'. done.
  - rewrite Hn' in Hf. done.
  - destruct (prefix_step q b') as [q'|]; [|done].
    edestruct (IH q' pre') as (-> & -> & ->); done.
Qed.

(** Behind more prefixes than 15 bytes have room for, the 32-bit form is no
    instruction. *)
Lemma decode_overlong_branch pre p c field tail :
  prefix_fold no_prefixes pre = Some p →
  (match c with Some c => 0 ≤ c < 16 | None => True end) →
  (15 < length pre + length (branch_opcode c) + 4)%nat →
  decode (pre ++ branch_opcode c ++ field ++ tail) = Err InvalidInstruction.
Proof.
  intros Hf Hc Hlong. destruct (decode_returns (pre ++ branch_opcode c ++ field ++ tail)) as [|[i Hd]];
    [done|exfalso].
  apply decode_Ok_inv in Hd as (r & Hrun & _ & _). unfold decode_reader in Hrun.
  apply M_bind_Ok_inv in Hrun as ([op p'] & r1 & Hp & Hrun).
  apply prefixes_inv in Hp as (pre' & Hf' & Hn' & Hat & ->). simpl in Hat, Hrun.
  apply M_bind_Ok_inv in Hrun as (e & r2 & Hrun & _).
  set (bs := pre ++ branch_opcode c ++ field ++ tail) in *.
  set (op0 := if c then 0x0f else 0xe9).
  assert (bs = pre ++ op0 :: drop 1 (branch_opcode c) ++ field ++ tail) as Hbs.
  { unfold bs, op0. by destruct c. }
  assert (bs = pre' ++ op :: drop (length pre' + 1) bs) as Hbs'.
  { rewrite <-(take_drop (length pre' + 1) bs) at 1.
    apply (bytes_at_take _ 0) in Hat;
      [|apply (bytes_at_length _ 0); [done|by destruct pre']].
    rewrite drop_0, length_app in Hat. simpl in Hat. rewrite Hat, <-(assoc_L (++)). done. }
  rewrite Hbs in Hbs' at 1.
  assert (prefix_step p op0 = None) as Hn by (unfold op0; by destruct c).
  destruct (prefix_fold_unique _ _ _ _ _ _ _ _ _ Hf Hn Hf' Hn' Hbs') as (<- & <- & <-).
  destruct c as [c|]; unfold op0 in Hrun; simpl in Hlong.
  - change (two_byte (Reader.set_offset (length pre + 1) (start bs)) = (Ok e, r2)) in Hrun.
    unfold two_byte in Hrun. apply M_bind_Ok_inv in Hrun as (b & r3 & (_ & _ & Hb & ->)%byte_Ok & Hrun). simpl in Hb.
    assert (b = Z.lor 0x80 c) as ->.
    { rewrite Hbs, lookup_app_r in Hb by lia. simpl in Hb.
      replace (length pre + 1 - length pre)%nat with 1%nat in Hb by lia. simpl in Hb. congruence. }
    destruct (high_nibble_80 c Hc) as (H1 & H2 & H3 & H4 & _). rewrite H1, H2, H3, H4 in Hrun.
    unfold relative_branch in Hrun. inv_rd. lia.
  - change (relative_branch 4 None true (Reader.set_offset (length pre + 1) (start bs)) = (Ok e, r2))
      in Hrun. unfold relative_branch in Hrun. inv_rd. lia.
Qed.

(** ** The bytes of a RIP-relative displacement do not matter *)

(** Programs that look at the length of the buffer only. *)
Definition lengthy {A} (m : rd A) : Prop := ∀ r a r' bs,
  m r = (Ok a, r') → length bs = length (Reader.bytes r) →
  Reader.relative_memory r' = Reader.relative_memory r ∧
  m (Reader.set_bytes bs r) = (Ok a, Reader.set_bytes bs r').

Lemma lengthy_ret {A} (a : A) : lengthy (mret a).
Proof. by intros r a' r' bs [= <- <-] _. Qed.
Lemma lengthy_throw {A} e : lengthy (throw (A:=A) e).
Proof. by intros r a r' bs ?. Qed.
Lemma lengthy_skip n : lengthy (Reader.skip n).
Proof.
  intros r [] r' bs (? & ? & ->)%skip_Ok Hl. split; [done|].
  by rewrite skip_run by (simpl; lia).
Qed.
Lemma lengthy_bind {A B} (m : rd A) (f : A → rd B) :
  lengthy m → (∀ a, lengthy (f a)) → (∀ r a r', m r = (Ok a, r') → Reader.bytes r' = Reader.bytes r) →
  lengthy (m ≫= f).
Proof.
  intros Hm Hf Hb r b r' bs (a & r1 & H1 & H2)%M_bind_Ok_inv Hl.
  destruct (Hm _ _ _ bs H1 Hl) as [E1 H1']. pose proof (Hb _ _ _ H1) as Hb1.
  destruct (Hf a _ _ _ bs H2 ltac:(by rewrite Hb1)) as [E2 H2']. split; [congruence|].
  unfold mbind, M_bind. by rewrite H1'.
Qed.
Lemma lengthy_skip_ret {A} n (a : A) : lengthy (Reader.skip n;; mret a).
Proof.
  apply lengthy_bind; [apply lengthy_skip|intros; apply lengthy_ret|].
  by intros r [] r' (_ & _ & ->)%skip_Ok.
Qed.
Lemma lengthy_ret_ret {A B} (a : A) (b : B) : lengthy (_ ← mret a; mret b).
Proof. apply (lengthy_ret b). Qed.
#[local] Hint Resolve lengthy_ret lengthy_throw lengthy_skip lengthy_skip_ret lengthy_ret_ret
  : parser.

(** A RIP-relative operand: its ModRM byte comes right before. *)
Lemma modrm_relative r g r' d bs :
  Reader.modrm r = (Ok g, r') → Reader.relative_memory r = None →
  Reader.relative_memory r' = Some d → length bs = length (Reader.bytes r) →
  take d bs = take d (Reader.bytes r) →
  d = S (Reader.offset r) ∧ Reader.bytes r' = Reader.bytes r ∧
  Reader.modrm (Reader.set_bytes bs r) = (Ok g, Reader.set_bytes bs r').
Proof.
  intros Hrun Hnone Hd Hl Ht. destruct (modrm_Ok _ _ _ Hrun Hnone) as (_ & Hb & Hrel).
  destruct (Hrel d Hd) as [Hd1 Hd2].
  unfold Reader.modrm in *. apply M_bind_Ok_inv in Hrun as (b & r1 & H1 & Hrun).
  pose proof H1 as (? & H15 & Hbyte & ->)%byte_Ok.
  assert (Reader.byte (Reader.set_bytes bs r) =
    (Ok b, Reader.set_offset (S (Reader.offset r)) (Reader.set_bytes bs r))) as Hb'.
  { apply (byte_run (Reader.set_bytes bs r)); [|done]. simpl.
    apply (f_equal (.!! Reader.offset r)) in Ht.
    rewrite !lookup_take, !decide_True in Ht by lia. by rewrite Ht. }
  unfold mbind at 1, M_bind at 1. rewrite Hb'. clear Hb' H1.
  destruct (Z.shiftr b 6 =? 3) eqn:Hmode; [inv_rd; congruence|].
  destruct (Z.land b 7 =? 5) eqn:Hbase; [|rewrite andb_false_r in Hrun; inv_rd; congruence].
  apply Z.eqb_eq in Hbase. rewrite Hbase in *. simpl in Hrun |- *.
  destruct (Z.shiftr b 6 =? 0) eqn:H0; simpl in Hrun |- *; [|inv_rd; congruence].
  inv_rd. simplify_eq. split_and!; [lia|done|].
  unfold mbind, M_bind, modify, gets, mret, M_ret. simpl.
  rewrite skip_run by (simpl; lia). done.
Qed.
(** The opcodes with a RIP-relative operand. *)
Lemma modrm_tail {B} (t : Z → rd B) r e r' d bs :
  (∀ g, lengthy (t g)) → (Reader.modrm ≫= t) r = (Ok e, r') →
  Reader.relative_memory r = None → Reader.relative_memory r' = Some d →
  length bs = length (Reader.bytes r) → take d bs = take d (Reader.bytes r) →
  (Reader.modrm ≫= t) (Reader.set_bytes bs r) = (Ok e, Reader.set_bytes bs r').
Proof.
  intros Ht (g & r1 & H1 & H2)%M_bind_Ok_inv Hnone Hd Hl Htake.
  assert (Reader.relative_memory r1 = Some d) as Hd1.
  { destruct (Ht g _ _ _ (Reader.bytes r1) H2 eq_refl) as [He _]. congruence. }
  destruct (modrm_relative _ _ _ _ bs H1 Hnone Hd1 Hl Htake) as (_ & Hb & H1').
  destruct (Ht g _ _ _ bs H2 ltac:(by rewrite Hb)) as [_ H2'].
  unfold mbind, M_bind. by rewrite H1'.
Qed.

Lemma modrm_tail_ahead {B} (t : Z → rd B) r e r' d :
  (∀ g, lengthy (t g)) → (Reader.modrm ≫= t) r = (Ok e, r') →
  Reader.relative_memory r = None → Reader.relative_memory r' = Some d → (Reader.offset r < d)%nat.
Proof.
  intros Ht (g & r1 & H1 & H2)%M_bind_Ok_inv Hnone Hd.
  destruct (Ht g _ _ _ (Reader.bytes r1) H2 eq_refl) as [He _].
  destruct (modrm_Ok _ _ _ H1 Hnone) as (_ & _ & Hrel). destruct (Hrel d); [congruence|lia].
Qed.

Lemma relative_branch_relative w c s r e r' :
  relative_branch w c s r = (Ok e, r') → Reader.relative_memory r' = Reader.relative_memory r.
Proof. unfold relative_branch. intros. inv_rd. done. Qed.

Lemma two_byte_ahead r e r' d :
  two_byte r = (Ok e, r') → Reader.relative_memory r = None →
  Reader.relative_memory r' = Some d → (Reader.offset r < d)%nat.
Proof.
  unfold two_byte. intros (b & r1 & (_ & _ & _ & ->)%byte_Ok & Hrun)%M_bind_Ok_inv Hnone Hd.
  repeat match goal with
  | H : (if ?b then _ else _) _ = (Ok _, _) |- _ => destruct b eqn:?
  end; try (apply relative_branch_relative in Hrun; simpl in Hrun; congruence);
    try (by inv_run; simpl in *; congruence);
    (apply modrm_tail_ahead with (d := d) in Hrun; [simpl in Hrun; lia| |done..]);
    intros; repeat case_match; auto with parser.
Qed.

(** The second opcode byte, then an operand or none. *)
Lemma two_byte_relative r e r' d bs :
  two_byte r = (Ok e, r') → Reader.relative_memory r = None →
  Reader.relative_memory r' = Some d → length bs = length (Reader.bytes r) →
  take d bs = take d (Reader.bytes r) →
  two_byte (Reader.set_bytes bs r) = (Ok e, Reader.set_bytes bs r').
Proof.
  intros Hrun Hnone Hd Hl Ht. pose proof (two_byte_ahead _ _ _ _ Hrun Hnone Hd) as Hahead.
  unfold two_byte in *.
  apply M_bind_Ok_inv in Hrun as (b & r1 & (Hlen & H15 & Hb & ->)%byte_Ok & Hrun).
  assert ((Reader.offset r < d)%nat → Reader.byte (Reader.set_bytes bs r) =
    (Ok b, Reader.set_bytes bs (Reader.set_offset (S (Reader.offset r)) r))) as Hbyte.
  { intros Hd'. apply (byte_run (Reader.set_bytes bs r)); [|done]. simpl.
    apply (f_equal (.!! Reader.offset r)) in Ht.
    rewrite !lookup_take, !decide_True in Ht by lia. by rewrite Ht. }
  unfold mbind at 1, M_bind at 1. rewrite Hbyte by done. clear Hbyte.
  repeat match goal with
  | H : (if ?b then _ else _) _ = (Ok _, _) |- _ => destruct b eqn:?
  end; try (apply relative_branch_relative in Hrun; simpl in Hrun; congruence);
    try (by inv_run; simpl in *; congruence);
    (eapply modrm_tail; [|done..]; intros; repeat case_match; auto with parser).
Qed.

(** The end of [inc_dec_group]. *)
Lemma inc_dec_operand o g k r e r' :
  (if ((o =? 0xfe) && (1 <? g)) || one_of g [3; 5; 7]
   then throw InvalidInstruction
   else if (o =? 0xff) && (g =? 2) then
     b ← Reader.peek k;
     mret (mkEffect false (Z.land b 7 =? 4) None (Some (Indirect k)) (g <=? 1))
   else mret (mkEffect ((o =? 0xff) && (g =? 4)) false None None (g <=? 1))) r = (Ok e, r') →
  r' = r.
Proof.
  intros Hrun. destruct (_ || _) in Hrun; [done|]. destruct (_ && _) in Hrun; inv_run; [|done].
  unfold Reader.peek in *. by simplify_eq.
Qed.

Lemma inc_dec_relative o r e r' d bs :
  inc_dec_group o r = (Ok e, r') → Reader.relative_memory r = None →
  Reader.relative_memory r' = Some d → length bs = length (Reader.bytes r) →
  take d bs = take d (Reader.bytes r) →
  inc_dec_group o (Reader.set_bytes bs r) = (Ok e, Reader.set_bytes bs r').
Proof.
  unfold inc_dec_group. intros Hrun Hnone Hd Hl Ht.
  unfold mbind at 1, M_bind at 1, gets in Hrun. unfold mbind at 1, M_bind at 1, gets.
  apply M_bind_Ok_inv in Hrun as (g & r1 & H1 & Hrun).
  pose proof (inc_dec_operand _ _ _ _ _ _ Hrun) as ->.
  destruct (modrm_relative _ _ _ _ bs H1 Hnone Hd Hl Ht) as (-> & Hb & H1').
  unfold mbind at 1, M_bind at 1. rewrite H1'. destruct (_ || _); [done|].
  destruct (_ && _) in Hrun |- *; [|by inv_run].
  apply M_bind_Ok_inv in Hrun as (b & r2 & H2 & Hrun). unfold Reader.peek in H2.
  unfold mbind at 1, M_bind at 1, Reader.peek. simpl. inv_run.
  rewrite Hb in H2. unfold index in *.
  apply (f_equal (.!! Reader.offset r)) in Ht. rewrite !lookup_take, !decide_True in Ht by lia.
  rewrite Ht. destruct (Reader.bytes r !! Reader.offset r); simpl in *; by simplify_eq.
Qed.

Lemma decode_opcode_relative p o r e r' d bs :
  decode_opcode p o r = (Ok e, r') → Reader.relative_memory r = None →
  Reader.relative_memory r' = Some d → length bs = length (Reader.bytes r) →
  take d bs = take d (Reader.bytes r) →
  decode_opcode p o (Reader.set_bytes bs r) = (Ok e, Reader.set_bytes bs r').
Proof.
  unfold decode_opcode. intros Hrun Hnone Hd Hl Ht.
  repeat match goal with
  | H : (if ?b then _ else _) _ = (Ok _, _) |- _ => destruct b eqn:?
  end;
  try (by eapply two_byte_relative); try (by eapply inc_dec_relative);
  try (apply relative_branch_relative in Hrun; congruence);
  try (by inv_rd; congruence).
  all: eapply modrm_tail; [|done..]; intros; repeat case_match; auto with parser.
Qed.

Lemma decode_opcode_ahead p o r e r' d :
  decode_opcode p o r = (Ok e, r') → Reader.relative_memory r = None →
  Reader.relative_memory r' = Some d → (Reader.offset r ≤ d)%nat.
Proof.
  unfold decode_opcode. intros Hrun Hnone Hd.
  repeat match goal with
  | H : (if ?b then _ else _) _ = (Ok _, _) |- _ => destruct b eqn:?
  end;
  try (apply relative_branch_relative in Hrun; congruence);
  try (by inv_rd; congruence);
  try (apply modrm_tail_ahead with (d := d) in Hrun; [lia| |done..];
       intros; repeat case_match; by auto with parser).
  - unfold inc_dec_group in Hrun. unfold mbind at 1, M_bind at 1, gets in Hrun.
    apply M_bind_Ok_inv in Hrun as (g & r1 & H1 & ->%inc_dec_operand).
    destruct (modrm_Ok _ _ _ H1 Hnone) as (_ & _ & Hrel). destruct (Hrel d Hd). lia.
  - apply two_byte_ahead with (d := d) in Hrun; [lia|done..].
Qed.

(** Only the bytes in front of a RIP-relative displacement decide how an
    instruction decodes. *)
Lemma decode_relative bs bs' i d :
  decode bs = Ok i → relative_memory i = Some d → length bs' = length bs →
  take d bs' = take d bs → decode bs' = Ok i.
Proof.
  intros Hd Hrel Hl Ht. destruct (decode_fields _ _ Hd) as [Hf _].
  apply decode_Ok_inv in Hd as (r & Hrun & _ & _). unfold decode_reader in Hrun.
  apply M_bind_Ok_inv in Hrun as ([op p] & r1 & Hp & Hrun).
  pose proof (prefixes_frame _ _ _ _ _ Hp) as [Hnone _].
  pose proof (Parser_prefixes 15 0 no_prefixes ltac:(lia)) as HP.
  destruct (Parser_mono 0 _ (start bs) _ _ HP (Nat.le_0_l _) (Nat.le_0_l _) Hp)
    as (Hb & _ & _ & Hsame & _).
  apply M_bind_Ok_inv in Hrun as (e & r2 & He & Hrun).
  assert (Reader.relative_memory r2 = Some d) as Hd2.
  { unfold gets, mbind, M_bind in Hrun. case_match; [done|]. injection Hrun as <- <-. done. }
  assert (Reader.offset r1 ≤ d)%nat as Hahead by by eapply decode_opcode_ahead.
  unfold decode, decode_reader. fold (start bs').
  change (start bs') with (Reader.set_bytes bs' (start bs)).
  unfold mbind at 1, M_bind at 1. rewrite Hsame.
  2:{ change (Reader.bytes (start bs)) with bs.
      apply (f_equal (take (Reader.offset r1))) in Ht. rewrite !take_take in Ht.
      by rewrite !Nat.min_l in Ht by lia. }
  unfold mbind at 1, M_bind at 1.
  rewrite (decode_opcode_relative _ _ _ _ _ d bs' He); [|done|done|by rewrite Hb..].
  unfold gets, mbind, M_bind in *. simpl. case_match; [done|]. injection Hrun as <- <-. done.
Qed.

(** ** Claims *)

(** C22. Decoding is self-delimiting.  A decoded instruction has 1
    to 15 bytes and lies inside the buffer; the answer does not depend on the
    bytes behind it; and cutting off any of its bytes makes [decode] reject. *)
Theorem decode_self_delimiting bs i :
  decode bs = Ok i →
  (1 ≤ size i ≤ 15)%nat ∧ (size i ≤ length bs)%nat ∧
  (∀ rest, decode (take (size i) bs ++ rest) = Ok i) ∧
  (∀ n, (n < size i)%nat → decode (take n bs) = Err InvalidInstruction).
Proof.
  intros Hd. destruct (decode_size _ _ Hd). split_and!; try lia.
  - intros rest. by apply decode_app.
  - intros n Hn. by apply (decode_truncated _ i).
Qed.

Lemma decode_self_delimiting_witness :
  ∃ i, decode [0x48; 0x8b; 0x84; 0x24; 1; 2; 3; 4; 0x55] = Ok i ∧ size i = 8%nat ∧
       decode ([0x48; 0x8b; 0x84; 0x24; 1; 2; 3; 4] ++ [0xcc]) = Ok i.
Proof.
  eexists. split; [vm_compute; reflexivity|]. split; [reflexivity|].
  exact (proj1 (proj2 (proj2 (decode_self_delimiting
    [0x48; 0x8b; 0x84; 0x24; 1; 2; 3; 4; 0x55] _ eq_refl))) [0xcc]).
Defined.

(** Every field a decoded instruction reports lies inside it:
    a RIP-relative displacement is four bytes of it, a branch displacement ends
    it and leaves room for the opcode, a call operand is inside it, and no
    instruction reports a branch together with a call or a memory operand. *)
Theorem decode_fields_in_bounds bs i :
  decode bs = Ok i →
  (∀ d, relative_memory i = Some d → (1 ≤ d ∧ d + 4 ≤ size i)%nat) ∧
  (∀ b, branch i = Some b →
        (displacement b + width b = size i)%nat ∧
        (length (source_opcode b) ≤ displacement b)%nat ∧ (width b = 1 ∨ width b = 4)%nat ∧
        (∀ c, condition b = Some c → 0 ≤ c < 16) ∧
        call i = None ∧ relative_memory i = None) ∧
  (∀ d, call i = Some (Direct d) →
        (d + 4 = size i)%nat ∧ (1 ≤ d)%nat ∧ relative_memory i = None) ∧
  (∀ m, call i = Some (Indirect m) →
        (m < size i)%nat ∧ ∀ d, relative_memory i = Some d → (m < d)%nat).
Proof.
  intros Hd. pose proof (decode_fields _ _ Hd) as [Hr Hok]. split_and!; [done|..].
  - intros b Hb. rewrite Hb in Hok. destruct (call i); [done|].
    destruct Hok as (Hs & H1 & Hm & Hc). unfold source_opcode, branch_opcode.
    destruct (condition b) as [c|].
    + destruct Hc as [? [Hw|[Hw ?]]]; rewrite Hw in *; simpl; split_and!; naive_solver lia.
    + destruct Hc as [Hw|Hw]; rewrite Hw in *; simpl; split_and!; naive_solver lia.
  - intros d Hc. rewrite Hc in Hok. destruct (branch i); done.
  - intros m Hc. rewrite Hc in Hok. destruct (branch i); done.
Qed.

Lemma decode_fields_in_bounds_witness :
  ∃ i, decode [0x0f; 0x85; 6; 0; 0; 0] = Ok i ∧
       ∀ b, branch i = Some b → (displacement b + width b = size i)%nat.
Proof.
  eexists. split; [vm_compute; reflexivity|].
  intros b Hb. refine (proj1 (proj1 (proj2 (decode_fields_in_bounds
    [0x0f; 0x85; 6; 0; 0; 0] _ eq_refl)) b Hb)).
Defined.
