(* ===== verification/X86.v ===== *)
(** * Entry plans on x86-64 ([src/src/code/x86.rs])

    [jump] encodes a jump between two addresses; [plan] decides which bytes of a
    function entry it overwrites.  The theorems give the encoded jump its
    architectural meaning and show that a plan replaces whole instructions by a
    jump of the same length that lands on the target. *)

From S2P Require Import Prelude Errors Prefix.

#[local] Open Scope Z_scope.

Definition MAX_PREFIX : nat := 32.
Definition ENDBR64 : list Z := [0xf3; 0x0f; 0x1e; 0xfa].

Record Plan : Type := mkPlan {
  offset : nat;
  original : list Z;
  replacement : list Z;
}.

(** [slice::starts_with]. *)
Definition starts_with (l xs : list Z) : bool := bool_decide (take (length xs) l = xs).

(** [code::jump]. *)
Definition jump (source target : Z) : result (list Z) :=
  next ← ok_or InvalidRange (checked_add source 5);
  let displacement := target - next in
  match i32_try_from displacement with
  | Some relative => Ok ([0xe9] ++ le_bytes 4 relative)
  | None => Ok ([0xff; 0x25; 0; 0; 0; 0] ++ le_bytes 8 target)
  end.

(** The [while length < replacement.len()] loop of [plan].  An instruction has
    at least one byte, so [S need] turns are enough ([plan_no_panic]). *)
Fixpoint plan_loop (fuel : nat) (prefix : list Z) (need len : nat) : result nat :=
  match fuel with
  | O => Panic "plan loop"
  | S fuel =>
      if (len <? need)%nat then
        if (len =? length prefix)%nat then Err InsufficientSpace
        else
          rest ← slice prefix len (length prefix);
          '(size, terminal) ← instruction rest;
          let len := (len + size)%nat in
          if terminal && (len <? need)%nat then Err InsufficientSpace
          else plan_loop fuel prefix need len
      else Ok len
  end.

(** [code::plan]. *)
Definition plan (source target : Z) (bytes : list Z) : result Plan :=
  if (source =? 0) || (target =? 0) then Err InvalidAddress
  else if source =? target then Err SameAddress
  else
    let offset := if starts_with bytes ENDBR64 then 4%nat else 0%nat in
    address ← ok_or InvalidRange (checked_add source (Z.of_nat offset));
    replacement ← jump address target;
    prefix ← slice bytes offset (length bytes);
    len ← plan_loop (S (length replacement)) prefix (length replacement) 0;
    original ← slice prefix 0 len;
    Ok (mkPlan offset original (resize len 0x90 replacement)).

(** ** What the bytes of a jump do

    The processor's reading of the two forms [jump] emits: [e9] adds a signed
    32-bit displacement to the address after the instruction, and [ff 25] loads
    the target from memory at its displacement from that address; the load is
    answered from the bytes themselves. *)
Definition jump_destination (address : Z) (code : list Z) : option Z :=
  match code with
  | 0xe9 :: rest =>
      if (4 <=? length rest)%nat
      then Some (address + 5 + i32_from_le_bytes (take 4 rest)) else None
  | 0xff :: 0x25 :: rest =>
      let slot := 6 + i32_from_le_bytes (take 4 rest) in
      if (6 <=? slot) && (slot + 8 <=? Z.of_nat (length code))
      then Some (u32_from_le_bytes (take 8 (drop (Z.to_nat slot) code))) else None
  | _ => None
  end.

(** [code] splits from position [o] on into whole instructions. *)
Inductive splits (code : list Z) : nat → list (nat * Instruction) → Prop :=
| splits_nil : splits code (length code) []
| splits_cons o i l :
    decode (drop o code) = Ok i → splits code (o + size i) l →
    splits code o ((o, i) :: l).

Lemma jump_Ok source target bs :
  jump source target = Ok bs →
  source + 5 ≤ usize_max ∧
  ((- 2 ^ 31 ≤ target - (source + 5) < 2 ^ 31 ∧ bs = [0xe9] ++ le_bytes 4 (target - (source + 5)))
   ∨ bs = [0xff; 0x25; 0; 0; 0; 0] ++ le_bytes 8 target).
Proof.
  unfold jump. intros H. inv_ok.
  destruct (i32_try_from _) eqn:Ht; inv_ok; auto.
Qed.

Lemma jump_length source target bs :
  jump source target = Ok bs → length bs = 5%nat ∨ length bs = 14%nat.
Proof.
  intros [_ [[_ ->]| ->]]%jump_Ok; rewrite length_app, length_le_bytes by lia; simpl; auto.
Qed.

Lemma jump_lands source target bs pad :
  0 ≤ target ≤ usize_max → jump source target = Ok bs →
  jump_destination source (bs ++ pad) = Some target.
Proof.
  intros Ht [_ [[Hr ->]| ->]]%jump_Ok.
  - unfold jump_destination. cbn [app]. rewrite length_app, length_le_bytes by lia.
    rewrite (proj2 (Nat.leb_le _ _)) by lia.
    rewrite take_app_length' by (rewrite length_le_bytes; lia).
    rewrite i32_le_roundtrip by lia. f_equal. lia.
  - unfold jump_destination. cbn [app].
    change (take 4 (0 :: 0 :: 0 :: 0 :: ?l)) with [0; 0; 0; 0].
    change (i32_from_le_bytes [0; 0; 0; 0]) with 0.
    cbn [length]. rewrite length_app, length_le_bytes by lia.
    rewrite (proj2 (Z.leb_le _ _)) by lia. rewrite (proj2 (Z.leb_le _ _)) by lia.
    cbn [andb]. change (Z.to_nat (6 + 0)) with 6%nat. cbn [skipn]. rewrite drop_0.
    rewrite take_app_length' by (rewrite length_le_bytes; lia).
    unfold usize_max in Ht. rewrite (u_le_roundtrip 8) by lia. done.
Qed.

Lemma decode_drop_nonempty code o i :
  decode (drop o code) = Ok i → (o + size i ≤ length code)%nat ∧ (1 ≤ size i)%nat.
Proof. intros [? H]%decode_size. rewrite length_drop in H. lia. Qed.

Lemma splits_le code o l : splits code o l → (o ≤ length code)%nat.
Proof. induction 1 as [|?? ? []%decode_drop_nonempty]; lia. Qed.

(** Decoding inside a longer buffer is decoding in the part that was kept. *)
Lemma decode_take code n o i :
  decode (drop o code) = Ok i → (o + size i ≤ n)%nat → decode (drop o (take n code)) = Ok i.
Proof.
  intros Hd Hn. destruct (decode_drop_nonempty _ _ _ Hd) as [Hl _].
  rewrite skipn_firstn_comm.
  rewrite <-(take_drop (size i) (drop o code)) at 1.
  rewrite take_app_ge by (rewrite length_take, length_drop; lia).
  by apply decode_app.
Qed.

(** The trace of the loop: the instructions it passed, each decoded in place. *)
Inductive passed (prefix : list Z) (need : nat) : nat → nat → list (nat * Instruction) → Prop :=
| passed_nil len : (need ≤ len)%nat → passed prefix need len len []
| passed_cons len n i l :
    (len < need)%nat → decode (drop len prefix) = Ok i →
    (terminal i = true → (need ≤ len + size i)%nat) →
    passed prefix need (len + size i) n l → passed prefix need len n ((len, i) :: l).

Lemma plan_loop_Ok fuel prefix need len n :
  plan_loop fuel prefix need len = Ok n → ∃ l, passed prefix need len n l.
Proof.
  revert len. induction fuel as [|fuel IH]; intros len; simpl; [done|].
  destruct (Nat.ltb_spec len need); [|intros; inv_ok; eexists; by constructor].
  destruct (Nat.eqb_spec len (length prefix)); [done|]. intros Hrun. inv_ok.
  destruct a0 as [sz t]. unfold instruction in Heq0. inv_ok. simplify_eq.
  rewrite take_ge in Heq by (rewrite length_drop; lia).
  destruct (terminal a && _) eqn:Ht; [done|]. apply IH in Hrun as [l Hl].
  exists ((len, a) :: l). constructor; try done.
  intros Htt. rewrite Htt in Ht. simpl in Ht. apply Nat.ltb_ge in Ht. done.
Qed.

Lemma passed_bounds prefix need len n l :
  passed prefix need len n l → (len ≤ length prefix)%nat → (len ≤ need + 14)%nat →
  (need ≤ n ≤ need + 14 ∧ n ≤ length prefix ∧ len ≤ n)%nat.
Proof.
  induction 1 as [|len n i l ? Hd _ _ IH]; [lia|]. intros.
  pose proof (decode_size _ _ Hd) as [? Hs]. rewrite length_drop in Hs.
  specialize (IH ltac:(lia) ltac:(lia)). lia.
Qed.

Lemma passed_mono prefix need len n l : passed prefix need len n l → (len ≤ n)%nat.
Proof. induction 1; lia. Qed.

Lemma passed_splits prefix need len n l :
  passed prefix need len n l → (len ≤ length prefix)%nat → (n ≤ length prefix)%nat →
  splits (take n prefix) len l.
Proof.
  induction 1 as [len|len n i l ? Hd _ Hp IH]; intros Hlen Hn.
  - replace len with (length (take len prefix)) at 2 by (rewrite length_take; lia). constructor.
  - pose proof (decode_size _ _ Hd) as [? Hs]. rewrite length_drop in Hs.
    constructor; [|apply IH; lia]. apply decode_take; [done|].
    apply passed_mono in Hp. lia.
Qed.

Lemma starts_with_prefix l xs : starts_with l xs = true ↔ xs `prefix_of` l.
Proof.
  unfold starts_with. rewrite bool_decide_eq_true. split.
  - intros H. exists (drop (length xs) l). by rewrite <-H at 1; rewrite take_drop.
  - intros [k ->]. by rewrite take_app_length.
Qed.

(** The facts a successful [plan] leaves behind. *)
Lemma plan_Ok source target bytes p :
  plan source target bytes = Ok p →
  source ≠ 0 ∧ target ≠ 0 ∧ source ≠ target ∧
  source + Z.of_nat (offset p) ≤ usize_max ∧
  offset p = (if starts_with bytes ENDBR64 then 4 else 0)%nat ∧
  (offset p ≤ length bytes)%nat ∧
  ∃ j l, jump (source + Z.of_nat (offset p)) target = Ok j ∧
         passed (drop (offset p) bytes) (length j) 0 (length (original p)) l ∧
         original p = take (length (original p)) (drop (offset p) bytes) ∧
         replacement p = j ++ replicate (length (original p) - length j) 0x90.
Proof.
  unfold plan. intros H.
  destruct (Z.eqb_spec source 0), (Z.eqb_spec target 0), (Z.eqb_spec source target); try done.
  cbn [orb] in H. inv_ok. cbn [offset original replacement].
  set (o := if starts_with bytes ENDBR64 then 4%nat else 0%nat) in *.
  rewrite (take_ge (drop o bytes)) in * by (rewrite length_drop; lia).
  match goal with H : plan_loop _ _ _ _ = Ok _ |- _ => apply plan_loop_Ok in H as [l Hl] end.
  pose proof (passed_bounds _ _ _ _ _ Hl ltac:(lia) ltac:(lia)).
  rewrite Nat.sub_0_r in *. rewrite drop_0, length_take, Nat.min_l by lia.
  split_and!; try done. eexists _, l. split_and!; try done.
  by rewrite resize_ge by lia.
Qed.

Lemma plan_loop_returns fuel prefix need len :
  (0 < fuel)%nat → (need < fuel + len)%nat → (len ≤ length prefix)%nat →
  returns (plan_loop fuel prefix need len).
Proof.
  revert len. induction fuel as [|fuel IH]; intros len H0 Hf Hl; simpl; [lia|].
  destruct (Nat.ltb_spec len need); [|done].
  destruct (Nat.eqb_spec len (length prefix)); [done|].
  unfold slice. rewrite (proj2 (Nat.leb_le len _)), Nat.leb_refl by lia. simpl.
  rewrite take_ge by (rewrite length_drop; lia). unfold instruction.
  destruct (decode_returns (drop len prefix)) as [-> | [i Hi]]; [done|].
  rewrite Hi. simpl. destruct (_ && _); [done|].
  apply decode_drop_nonempty in Hi as [? ?]. apply IH; lia.
Qed.

Lemma starts_with_length l xs : starts_with l xs = true → (length xs ≤ length l)%nat.
Proof. intros H%starts_with_prefix. by apply prefix_length. Qed.

Lemma endbr_offset bytes :
  ((if starts_with bytes ENDBR64 then 4 else 0) ≤ length bytes)%nat.
Proof. destruct (starts_with bytes ENDBR64) eqn:H; [|lia]. by apply starts_with_length in H. Qed.

Lemma plan_no_panic source target bytes : returns (plan source target bytes).
Proof.
  unfold plan. destruct (_ || _); [done|]. destruct (_ =? _); [done|].
  pose proof (endbr_offset bytes) as Hoff.
  set (o := if starts_with bytes ENDBR64 then 4%nat else 0%nat) in *.
  apply returns_bind; [by destruct (checked_add _ _)|]. intros address _.
  apply returns_bind; [unfold jump; destruct (checked_add _ _); simpl; [destruct (i32_try_from _)|]; done|].
  intros j Hj. apply jump_length in Hj.
  apply returns_bind; [unfold slice; by rewrite (proj2 (Nat.leb_le o _)), Nat.leb_refl by lia|].
  intros prefix Hp. inv_ok. rewrite take_ge by (rewrite length_drop; lia).
  apply returns_bind; [apply plan_loop_returns; lia|]. intros n [l Hl]%plan_loop_Ok.
  apply passed_bounds in Hl; [|lia..].
  apply returns_bind; [|done]. unfold slice. by rewrite (proj2 (Nat.leb_le n _)) by lia.
Qed.

(** ** Claims *)

(** C8. A plan for a function entry replaces exactly the bytes
    it saved by a jump of the same length, made of the encoded jump followed by
    NOPs, which lands on the target; a leading ENDBR64 stays in front of it; the
    saved bytes are whole instructions, none of which, before the jump is
    covered, ends the function; and the patch fits the bytes that were read. *)
Theorem plan_correct source target bytes p :
  0 ≤ target ≤ usize_max → plan source target bytes = Ok p →
  jump_destination (source + Z.of_nat (offset p)) (replacement p) = Some target ∧
  length (original p) = length (replacement p) ∧
  bytes_at bytes (offset p) (original p) ∧
  take (offset p) bytes = take (offset p) ENDBR64 ∧
  (∃ n l, (n = 5 ∨ n = 14)%nat ∧
          Forall (eq 0x90) (drop n (replacement p)) ∧
          (n ≤ length (original p) ≤ n + 14)%nat ∧
          splits (original p) 0 l ∧
          Forall (λ '(o, i), terminal i = true → (n ≤ o + size i)%nat) l).
Proof.
  intros Ht H. apply plan_Ok in H as (_ & _ & _ & _ & Hoff & Hle & j & l & Hj & Hl & Ho & Hr).
  pose proof (jump_length _ _ _ Hj) as Hjl.
  pose proof (passed_bounds _ _ _ _ _ Hl ltac:(lia) ltac:(lia)) as (Hn & Hnl & _).
  split_and!.
  - rewrite Hr. by apply jump_lands.
  - rewrite Hr, length_app, length_replicate. lia.
  - intros k x Hk. rewrite Ho in Hk. apply lookup_take_Some in Hk as [Hk _].
    by rewrite lookup_drop in Hk.
  - rewrite Hoff. destruct (starts_with bytes ENDBR64) eqn:Hs; [|done].
    apply starts_with_prefix in Hs as [k ->]. done.
  - exists (length j), l. split_and!; try lia.
    + rewrite Hr, drop_app_length. by apply Forall_replicate.
    + rewrite Ho.
      apply passed_splits with (need := length j); [done|lia|lia].
    + clear -Hl. induction Hl; constructor; auto.
Qed.

Lemma plan_correct_witness :
  ∃ p, plan 0x1000 0x2000 [0x55; 0x48; 0x89; 0xe5; 0x48; 0x83; 0xec; 0x28] = Ok p ∧
       jump_destination 0x1000 (replacement p) = Some 0x2000.
Proof.
  destruct (plan 0x1000 0x2000 [0x55; 0x48; 0x89; 0xe5; 0x48; 0x83; 0xec; 0x28])
    as [p| | |] eqn:H; [|vm_compute in H; discriminate H..].
  exists p. split; [reflexivity|].
  assert (offset p = 0%nat) as Ho.
  { vm_compute in H. injection H as <-. reflexivity. }
  pose proof (proj1 (plan_correct 0x1000 0x2000
    [0x55; 0x48; 0x89; 0xe5; 0x48; 0x83; 0xec; 0x28] p ltac:(unfold usize_max; lia) H)) as Hj.
  rewrite Ho in Hj. exact Hj.
Defined.
