(* ===== verification/Relocate.v ===== *)
(** * Saved entries on x86-64 ([src/src/code/relocate.rs])

    [trampoline] copies the instructions a plan overwrote to another address so
    that running the copy does what running them in place did: branches and
    RIP-relative operands keep their targets, a final call keeps the original
    return address, and the copy ends with a jump behind the overwritten bytes.
    [needs_call_bridge] tells whether the copy contains such a call. *)

From S2P Require Import Prelude Errors Prefix X86.

#[local] Open Scope Z_scope.

(** The [output], [positions] and [branches] vectors of [trampoline]. *)
Record Emit : Type := mkEmit {
  output : list Z;
  positions : list (nat * nat);
  branches : list (nat * Z);
}.

(** [usize] subtraction, which panics below zero. *)
Definition usub (a b : nat) : result nat :=
  if (b <=? a)%nat then Ok (a - b)%nat else Panic "attempt to subtract with overflow".

(** [let value = if branch.width == 1 { .. } else { .. }]. *)
Definition read_displacement (original : list Z) (field w : nat) : result Z :=
  if (w =? 1)%nat then b ← index original field; Ok (to_signed 8 b)
  else bs ← slice original field (field + 4); Ok (i32_from_le_bytes bs).

(** The [push] of the return address in front of a relocated call. *)
Definition open_bridge (i : Instruction) (stop : nat) (original out : list Z) :
    result (list Z) :=
  if is_Some_b (call i) then
    _ ← ensure (stop =? length original)%nat InvalidInstruction;
    Ok (out ++ [0xff; 0x35; 0; 0; 0; 0])
  else Ok out.

(** The body of the instruction: the branch, direct-call and copy arms. *)
Definition emit_body (source : Z) (original : list Z) (offset : nat) (i : Instruction)
    (out : list Z) (branches : list (nat * Z)) : result (list Z * list (nat * Z)) :=
  let stop := (offset + size i)%nat in
  let copied_start := length out in
  match branch i with
  | Some b =>
      value ← read_displacement original (offset + displacement b) (width b);
      let target := source + Z.of_nat stop + value in
      prefix ← usub (displacement b)
                 (if (width b =? 4)%nat && is_Some_b (condition b) then 2 else 1);
      head ← slice original offset (offset + prefix);
      let out := out ++ head ++ match condition b with
                                | Some c => [0x0f; Z.lor 0x80 c]
                                | None => [0xe9]
                                end in
      Ok (out ++ [0; 0; 0; 0], branches ++ [(length out, target)])
  | None =>
      match call i with
      | Some (Direct displacement) =>
          let field := (offset + displacement)%nat in
          bs ← slice original field (field + 4);
          let out := out ++ [0xe9] in
          Ok (out ++ [0; 0; 0; 0],
              branches ++ [(length out, source + Z.of_nat stop + i32_from_le_bytes bs)])
      | c =>
          body ← slice original offset stop;
          let out := out ++ body in
          out ← match c with
                | Some (Indirect modrm) =>
                    x ← index out (copied_start + modrm);
                    store out (copied_start + modrm)
                      (Z.lor (Z.land x (Z.lnot 0x38)) 0x20)
                | _ => Ok out
                end;
          Ok (out, branches)
      end
  end.

(** The RIP-relative operand keeps its absolute target. *)
Definition fix_memory (source destination : Z) (original : list Z) (offset : nat)
    (i : Instruction) (copied_start : nat) (out : list Z) : result (list Z) :=
  match relative_memory i with
  | None => Ok out
  | Some displacement =>
      let field := (offset + displacement)%nat in
      bs ← slice original field (field + 4);
      let target := source + Z.of_nat (offset + size i) + i32_from_le_bytes bs in
      _ ← ensure (in_usize target) InvalidRange;
      next ← ok_or InvalidRange (checked_add destination (Z.of_nat (length out)));
      relative ← ok_or InvalidRange (i32_try_from (target - next));
      store_slice out (copied_start + displacement) (le_bytes 4 relative)
  end.

(** The literal the bridge pushes: the return address of the original call. *)
Definition close_bridge (continuation : Z) (i : Instruction) (start : nat) (out : list Z) :
    result (list Z) :=
  if is_Some_b (call i) then
    len ← usub (length out) start;
    len ← usub len 6;
    out ← store_slice out (start + 2) (le_bytes 4 (Z.of_nat len));
    Ok (out ++ le_bytes 8 continuation)
  else Ok out.

(** One turn of the relocation loop. *)
Definition relocate_step (source destination continuation : Z) (original : list Z)
    (offset : nat) (st : Emit) : result (nat * Emit) :=
  rest ← slice original offset (length original);
  i ← decode rest;
  if cannot_move i then Err InvalidInstruction
  else
    let stop := (offset + size i)%nat in
    let start := length (output st) in
    let positions := positions st ++ [(offset, start)] in
    out ← open_bridge i stop original (output st);
    let copied_start := length out in
    '(out, branches) ← emit_body source original offset i out (branches st);
    out ← fix_memory source destination original offset i copied_start out;
    out ← close_bridge continuation i start out;
    Ok (stop, mkEmit out positions branches).

(** The relocation loop; every turn moves forward ([trampoline_returns]). *)
Fixpoint relocate_loop (fuel : nat) (source destination continuation : Z)
    (original : list Z) (offset : nat) (st : Emit) : result Emit :=
  match fuel with
  | O => Panic "relocate loop"
  | S fuel =>
      if (offset <? length original)%nat then
        '(offset, st) ← relocate_step source destination continuation original offset st;
        relocate_loop fuel source destination continuation original offset st
      else Ok st
  end.

(** Where a branch to [target] goes in the copy. *)
Definition resolve (source destination continuation : Z) (positions : list (nat * nat))
    (target : Z) : result Z :=
  if (source <=? target) && (target <? continuation) then
    mapped ← ok_or InvalidInstruction
               (List.find (λ '(o, _), Z.of_nat o =? target - source) positions);
    ok_or InvalidRange (checked_add destination (Z.of_nat mapped.2))
  else Ok target.

(** The loop that fills in the branch fields. *)
Fixpoint patch_branches (source destination continuation : Z)
    (positions : list (nat * nat)) (branches : list (nat * Z)) (out : list Z) :
    result (list Z) :=
  match branches with
  | [] => Ok out
  | (field, target) :: branches =>
      target ← ok_or InvalidRange (usize_try_from target);
      target ← resolve source destination continuation positions target;
      next ← ok_or InvalidRange (checked_add destination (Z.of_nat (field + 4)));
      relative ← ok_or InvalidRange (i32_try_from (target - next));
      out ← store_slice out field (le_bytes 4 relative);
      patch_branches source destination continuation positions branches out
  end.

(** [code::trampoline]. *)
Definition trampoline (source destination : Z) (original : list Z) : result (list Z) :=
  if (source =? 0) || (destination =? 0) then Err InvalidAddress
  else
    continuation ← ok_or InvalidRange (checked_add source (Z.of_nat (length original)));
    st ← relocate_loop (S (length original)) source destination continuation original 0
           (mkEmit ENDBR64 [] []);
    out ← patch_branches source destination continuation (positions st) (branches st) (output st);
    next ← ok_or InvalidRange (checked_add destination (Z.of_nat (length out)));
    next ← ok_or InvalidRange (checked_add next 5);
    relative ← ok_or InvalidRange (i32_try_from (continuation - next));
    Ok (out ++ [0xe9] ++ le_bytes 4 relative).

(** [code::needs_call_bridge]. *)
Fixpoint call_bridge_loop (fuel : nat) (original : list Z) (offset : nat) : result bool :=
  match fuel with
  | O => Panic "call bridge loop"
  | S fuel =>
      if (offset <? length original)%nat then
        rest ← slice original offset (length original);
        i ← decode rest;
        if is_Some_b (call i) then Ok true
        else call_bridge_loop fuel original (offset + size i)
      else Ok false
  end.

Definition needs_call_bridge (original : list Z) : result bool :=
  call_bridge_loop (S (length original)) original 0.

(** ** What a relocated instruction looks like *)

Section relocation.
Context (source destination : Z) (original : list Z).
Abbreviation continuation := (source + Z.of_nat (length original)).

(** The displacement an instruction at [o] encodes, and where it points. *)
Definition displacement_at (field w : nat) : Z :=
  if (w =? 1)%nat then to_signed 8 (original !!! field)
  else i32_from_le_bytes (take 4 (drop field original)).

Definition target_at (o : nat) (i : Instruction) (field w : nat) : Z :=
  source + Z.of_nat (o + size i) + displacement_at (o + field) w.

(** The bytes of the instruction at [o], an indirect call in its [/4] (jump)
    form. *)
Definition copied (o : nat) (i : Instruction) : list Z :=
  let copy := take (size i) (drop o original) in
  match call i with
  | Some (Indirect m) => <[m := Z.lor (Z.land (copy !!! m) (Z.lnot 0x38)) 0x20]> copy
  | _ => copy
  end.

(** [body'] is [body], the instruction of offset [o], made to run at offset
    [at_] of the copy: a RIP-relative operand still points to the same
    absolute address. *)
Definition retargeted (o : nat) (i : Instruction) (at_ : nat) (body body' : list Z) : Prop :=
  match relative_memory i with
  | None => body' = body
  | Some d =>
      ∃ rel, body' = list_inserts d (le_bytes 4 rel) body ∧ - 2 ^ 31 ≤ rel < 2 ^ 31 ∧
             destination + Z.of_nat (at_ + size i) + rel = target_at o i d 4
  end.

Definition moved (o : nat) (i : Instruction) (at_ : nat) (body : list Z) : Prop :=
  retargeted o i at_ (copied o i) body.

(** The bytes before the opcode of a branch. *)
Definition branch_head (o : nat) (b : Branch) : list Z :=
  take (displacement b - length (source_opcode b)) (drop o original).

(** What one turn appends for the instruction at [o] when the copy is [p]
    bytes long: bytes with zeroed branch fields, and the fields to fill. *)
Definition piece_ok (o : nat) (i : Instruction) (p : nat) (piece : list Z)
    (fields : list (nat * Z)) : Prop :=
  match branch i, call i with
  | Some b, _ =>
      let head := branch_head o b ++ branch_opcode (condition b) in
      piece = head ++ [0; 0; 0; 0] ∧
      fields = [((p + length head)%nat, target_at o i (displacement b) (width b))]
  | None, Some (Direct d) =>
      piece = [0xff; 0x35] ++ le_bytes 4 5 ++ [0xe9] ++ [0; 0; 0; 0] ++ le_bytes 8 continuation ∧
      fields = [((p + 7)%nat, target_at o i d 4)] ∧ (o + size i)%nat = length original
  | None, Some (Indirect _) =>
      ∃ body, moved o i (p + 6) body ∧
        piece = [0xff; 0x35] ++ le_bytes 4 (Z.of_nat (size i)) ++ body ++ le_bytes 8 continuation ∧
        fields = [] ∧ (o + size i)%nat = length original
  | None, None => moved o i p piece ∧ fields = []
  end.

(** The copy, instruction by instruction: [(o, i, p)] says that the
    instruction [i] at offset [o] was copied to offset [p]. *)
Inductive emits : nat → list (nat * Instruction * nat) → list Z → list (nat * Z) → Prop :=
| emits_nil p : emits p [] [] []
| emits_cons p o i lay piece fields out brs :
    piece_ok o i p piece fields →
    emits (p + length piece) lay out brs →
    emits p ((o, i, p) :: lay) (piece ++ out) (fields ++ brs).
End relocation.

(** The bytes the copy of an instruction takes: a branch has its 32-bit form,
    a call is a push, a jump and the literal of the return address. *)
Definition copy_size (i : Instruction) : nat :=
  match branch i, call i with
  | Some b, _ =>
      displacement b - length (source_opcode b) + length (branch_opcode (condition b)) + 4
  | None, Some (Direct _) => 6 + 5 + 8
  | None, Some (Indirect _) => 6 + size i + 8
  | None, None => size i
  end.

(** The copies stand one behind the other, from [p] to [stop]. *)
Fixpoint placed (p : nat) (lay : list (nat * Instruction * nat)) (stop : nat) : Prop :=
  match lay with
  | [] => p = stop
  | (o, i, q) :: lay => q = p ∧ placed (p + copy_size i) lay stop
  end.

Lemma usub_Ok a b c : usub a b = Ok c ↔ (b ≤ a)%nat ∧ c = (a - b)%nat.
Proof. unfold usub. destruct (Nat.leb_spec b a); naive_solver lia. Qed.

Lemma read_displacement_Ok original field w v :
  read_displacement original field w = Ok v → v = displacement_at original field w.
Proof.
  unfold read_displacement, displacement_at. destruct (w =? 1)%nat; intros H; inv_ok.
  - by rewrite (list_lookup_total_correct _ _ _ Heq).
  - do 2 f_equal. lia.
Qed.

Lemma source_opcode_length b :
  (width b = 1 ∨ width b = 4)%nat →
  length (source_opcode b) =
  (if (width b =? 4)%nat && is_Some_b (condition b) then 2 else 1)%nat.
Proof. unfold source_opcode. intros [-> | ->]; by destruct (condition b). Qed.

Section relocation_lemmas.
Context (source destination : Z) (original : list Z).
Abbreviation continuation := (source + Z.of_nat (length original)).

Lemma copied_length o i :
  (o + size i ≤ length original)%nat → length (copied original o i) = size i.
Proof.
  intros. unfold copied. destruct (call i) as [[]|];
    rewrite ?length_insert, length_take, length_drop; lia.
Qed.

Lemma fix_memory_Ok o i out body out' :
  length body = size i →
  fix_memory source destination original o i (length out) (out ++ body) = Ok out' →
  ∃ body', out' = out ++ body' ∧ length body' = size i ∧
           retargeted source destination original o i (length out) body body'.
Proof.
  intros Hlen Hfix. unfold fix_memory in Hfix. unfold retargeted.
  destruct (relative_memory i) as [d|] eqn:Hm; inv_ok; [|by exists body].
  rewrite list_inserts_app_r. eexists. split_and!; [done|by rewrite length_inserts|].
  eexists. split_and!; [done|lia|lia|].
  unfold target_at, displacement_at. simpl.
  rewrite length_app, Hlen. replace (o + d + 4 - (o + d))%nat with 4%nat by lia. lia.
Qed.

Lemma emit_copy o i out brs out' brs' :
  (o + size i ≤ length original)%nat → branch i = None →
  (∀ d, call i ≠ Some (Direct d)) →
  (∀ m, call i = Some (Indirect m) → (m < size i)%nat) →
  emit_body source original o i out brs = Ok (out', brs') →
  out' = out ++ copied original o i ∧ brs' = brs.
Proof.
  intros Hl Hb Hd Hm H. unfold emit_body in H. rewrite Hb in H.
  assert (length (take (size i) (drop o original)) = size i) as Hlen
    by (rewrite length_take, length_drop; lia).
  unfold copied. destruct (call i) as [[d|m]|] eqn:Hc; [by destruct (Hd d)|..]; inv_ok;
    replace (o + size i - o)%nat with (size i) in * by lia; simplify_eq; [|done].
  rewrite lookup_app_r in * by lia.
  replace (length out + m - length out)%nat with m in * by lia.
  split; [|done]. rewrite insert_app_r.
  by erewrite list_lookup_total_correct.
Qed.

Lemma emit_branch o i b out brs out' brs' :
  branch i = Some b → instruction_ok i →
  emit_body source original o i out brs = Ok (out', brs') →
  let head := branch_head original o b ++ branch_opcode (condition b) in
  out' = out ++ head ++ [0; 0; 0; 0] ∧
  brs' = brs ++ [((length out + length head)%nat,
                  target_at source original o i (displacement b) (width b))].
Proof.
  intros Hb [_ Hok] H. unfold emit_body in H. rewrite Hb in *.
  destruct (call i); [done|]. destruct Hok as (Hsz & Hd & _ & Hc).
  assert (width b = 1 ∨ width b = 4)%nat as Hw by (destruct (condition b); naive_solver).
  rewrite <-source_opcode_length in H by done. inv_ok. simplify_eq.
  apply usub_Ok in Heq0 as [_ ->]. apply read_displacement_Ok in Heq as ->.
  unfold branch_head. replace (o + (displacement b - length (source_opcode b)) - o)%nat
    with (displacement b - length (source_opcode b))%nat by lia.
  fold (branch_opcode (condition b)). rewrite <-!(assoc_L (++)), !length_app.
  done.
Qed.

Lemma emit_direct o i d out brs out' brs' :
  branch i = None → call i = Some (Direct d) →
  emit_body source original o i out brs = Ok (out', brs') →
  out' = out ++ [0xe9; 0; 0; 0; 0] ∧
  brs' = brs ++ [((length out + 1)%nat, target_at source original o i d 4)].
Proof.
  intros Hb Hc H. unfold emit_body in H. rewrite Hb, Hc in H. inv_ok. simplify_eq.
  rewrite <-(assoc_L (++)), length_app. split; [done|].
  unfold target_at, displacement_at. simpl.
  by replace (o + d + 4 - (o + d))%nat with 4%nat by lia.
Qed.

(** Closing the bridge writes the distance to the literal into the push. *)
Lemma close_bridge_Ok i out body out' :
  is_Some_b (call i) = true →
  close_bridge continuation i (length out) (out ++ [0xff; 0x35; 0; 0; 0; 0] ++ body) = Ok out' →
  out' = out ++ [0xff; 0x35] ++ le_bytes 4 (Z.of_nat (length body)) ++ body
             ++ le_bytes 8 continuation.
Proof.
  intros Hc H. unfold close_bridge in H. rewrite Hc in H. inv_ok.
  apply usub_Ok in Heq as [_ ->]. apply usub_Ok in Heq0 as [_ ->].
  rewrite list_inserts_app_r. rewrite !length_app in *. simpl length in *.
  replace (length out + (6 + length body) - length out - 6)%nat with (length body) by lia.
  by rewrite <-!(assoc_L (++)).
Qed.

(** The four stages of a turn together append one well-formed piece. *)
Lemma stages_Ok o i out brs a body brs' out1 out2 :
  decode (drop o original) = Ok i →
  open_bridge i (o + size i) original out = Ok a →
  emit_body source original o i a brs = Ok (body, brs') →
  fix_memory source destination original o i (length a) body = Ok out1 →
  close_bridge continuation i (length out) out1 = Ok out2 →
  ∃ piece fields,
    piece_ok source destination original o i (length out) piece fields ∧
    out2 = out ++ piece ∧ brs' = brs ++ fields.
Proof.
  intros Hd Ho He Hf Hc. pose proof (decode_fields _ _ Hd) as Hok.
  destruct (decode_drop_nonempty _ _ _ Hd) as [Hlen _]. unfold piece_ok.
  destruct (branch i) as [b|] eqn:Hb.
  - pose proof Hok as [_ Hok']. rewrite Hb in Hok'. destruct (call i) eqn:Hcall; [done|].
    destruct Hok' as (_ & _ & Hrel & _). unfold open_bridge, close_bridge, fix_memory in *.
    rewrite Hcall, ?Hrel in *. cbn [is_Some_b] in Ho, Hc. inv_ok.
    apply (emit_branch _ _ b) in He as [-> ->]; [|done..]. eexists _, _.
    split_and!; done.
  - destruct (call i) as [[d|m]|] eqn:Hcall.
    + destruct Hok as [_ Hok]. rewrite Hb, Hcall in Hok. destruct Hok as (_ & _ & Hrel).
      unfold open_bridge, fix_memory in *. rewrite Hcall, ?Hrel in *. simpl in Ho. inv_ok.
      apply Nat.eqb_eq in Heq.
      apply (emit_direct _ _ d) in He as [-> ->]; [|done..].
      rewrite <-(assoc_L (++)) in Hc. apply close_bridge_Ok in Hc as ->; [|by rewrite Hcall].
      eexists _, _. split_and!; try done. rewrite length_app; simpl.
      by rewrite <-Nat.add_assoc.
    + unfold open_bridge in Ho. rewrite Hcall in Ho. simpl in Ho. inv_ok.
      apply Nat.eqb_eq in Heq. pose proof Hok as [_ Hok']. rewrite Hb, Hcall in Hok'.
      apply emit_copy in He as [-> ->]; [|naive_solver lia..].
      apply fix_memory_Ok in Hf as (body & -> & Hbl & Hm); [|by apply copied_length].
      rewrite <-(assoc_L (++)) in Hc. apply close_bridge_Ok in Hc as ->; [|by rewrite Hcall].
      eexists _, []. split_and!; [|done|by rewrite app_nil_r].
      exists body. rewrite length_app in Hm. rewrite Hbl. done.
    + unfold open_bridge, close_bridge in *. rewrite Hcall in *. simpl in *. inv_ok.
      apply emit_copy in He as [-> ->]; [|naive_solver lia..].
      apply fix_memory_Ok in Hf as (body & -> & Hbl & Hm); [|by apply copied_length].
      eexists _, []. split_and!; [done..|by rewrite app_nil_r].
Qed.

Lemma relocate_step_Ok o st o' st' :
  relocate_step source destination continuation original o st = Ok (o', st') →
  ∃ i piece fields,
    decode (drop o original) = Ok i ∧ cannot_move i = false ∧ o' = (o + size i)%nat ∧
    piece_ok source destination original o i (length (output st)) piece fields ∧
    st' = mkEmit (output st ++ piece) (positions st ++ [(o, length (output st))])
            (branches st ++ fields).
Proof.
  intros H. unfold relocate_step in H. inv_ok.
  rewrite take_ge in * by (rewrite length_drop; lia).
  match goal with H : decode _ = Ok ?j |- _ => rename H into Hd; rename j into i end.
  destruct (cannot_move i) eqn:Hmv; [done|]. inv_ok.
  match goal with H : emit_body _ _ _ _ _ _ = Ok ?p |- _ => rename H into He; destruct p as [body brs] end.
  inv_ok. simplify_eq. exists i.
  destruct (stages_Ok _ _ _ _ _ _ _ _ _ Hd Heq He Heq0 Heq1)
    as (piece & fields & ? & -> & ->).
  exists piece, fields. done.
Qed.

Definition layout_positions (lay : list (nat * Instruction * nat)) : list (nat * nat) :=
  (λ '(o, i, p), (o, p)) <$> lay.

Lemma relocate_loop_Ok fuel o st st' :
  relocate_loop fuel source destination continuation original o st = Ok st' →
  (o ≤ length original)%nat →
  ∃ lay out brs,
    splits original o (lay.*1) ∧
    Forall (λ '(o, i, p), cannot_move i = false) lay ∧
    emits source destination original (length (output st)) lay out brs ∧
    st' = mkEmit (output st ++ out) (positions st ++ layout_positions lay) (branches st ++ brs).
Proof.
  revert o st. induction fuel as [|fuel IH]; intros o st H Ho; simpl in H; [done|].
  destruct (Nat.ltb_spec o (length original)).
  - inv_ok. destruct a as [o' st1].
    apply relocate_step_Ok in Heq as (i & piece & fields & Hd & Hmv & -> & Hp & ->).
    apply IH in H as (lay & out & brs & Hs & Hf & He & ->);
      [|by apply decode_drop_nonempty in Hd as [? _]].
    simpl in He. rewrite length_app in He.
    exists ((o, i, length (output st)) :: lay), (piece ++ out), (fields ++ brs).
    split_and!; [by constructor|by constructor|by constructor|].
    simpl. by rewrite <-!(assoc_L (++)).
  - inv_ok. exists [], [], []. split_and!; [|by constructor..|].
    + replace o with (length original) by lia. constructor.
    + simpl. rewrite !app_nil_r. by destruct st'.
Qed.

(** A branch field lies inside the piece it belongs to. *)
Lemma piece_fields o i p piece fields :
  piece_ok source destination original o i p piece fields →
  fields = [] ∨ ∃ f t, fields = [(f, t)] ∧ (p ≤ f)%nat ∧ (f + 4 ≤ p + length piece)%nat.
Proof.
  unfold piece_ok. destruct (branch i) as [b|]; [|destruct (call i) as [[d|m]|]].
  - intros [-> ->]. right. eexists _, _. rewrite !length_app; simpl. split_and!; [done|lia..].
  - intros (-> & -> & _). right. eexists _, _. rewrite !length_app, !length_le_bytes by lia.
    simpl. split_and!; [done|lia..].
  - naive_solver.
  - naive_solver.
Qed.

Lemma emits_fields p lay out brs :
  emits source destination original p lay out brs →
  Forall (λ ft, (p ≤ ft.1 ∧ ft.1 + 4 ≤ p + length out)%nat) brs.
Proof.
  induction 1 as [|p o i lay piece fields out brs Hp _ IH]; [constructor|].
  rewrite length_app. apply Forall_app. split.
  - apply piece_fields in Hp as [->|(f & t & -> & ? & ?)]; repeat constructor; simpl; lia.
  - eapply Forall_impl; [exact IH|]. simpl. intros; lia.
Qed.

(** The fields come in order and do not overlap. *)
Lemma emits_sorted p lay out brs :
  emits source destination original p lay out brs →
  StronglySorted (λ a b : nat * Z, (a.1 + 4 ≤ b.1)%nat) brs.
Proof.
  induction 1 as [|p o i lay piece fields out brs Hp He IH]; [constructor|].
  apply emits_fields in He.
  apply piece_fields in Hp as [->|(f & t & -> & ? & ?)]; [done|].
  simpl. constructor; [done|]. eapply Forall_impl; [exact He|]. simpl. intros; lia.
Qed.

Lemma piece_length o i p piece fields :
  decode (drop o original) = Ok i →
  piece_ok source destination original o i p piece fields → length piece = copy_size i.
Proof.
  intros Hd. pose proof (decode_fields _ _ Hd) as [_ Hok].
  destruct (decode_drop_nonempty _ _ _ Hd) as [Hlen _]. unfold piece_ok, copy_size.
  assert (∀ at_ body, moved source destination original o i at_ body → length body = size i) as Hmoved.
  { intros at_ body. unfold moved, retargeted. rewrite <-(copied_length o i) by lia.
    destruct (relative_memory i); [|by intros ->].
    intros (rel & -> & _). by rewrite length_inserts. }
  destruct (branch i) as [b|].
  - destruct (call i); [done|]. intros [-> _]. rewrite !length_app. simpl.
    unfold branch_head. rewrite length_take, length_drop. lia.
  - destruct (call i) as [[d|m]|].
    + by intros [-> _].
    + intros (body & Hb%Hmoved & -> & _). rewrite !length_app, !length_le_bytes by lia. simpl. lia.
    + intros [Hb%Hmoved _]. done.
Qed.

Lemma emits_placed k p lay out brs :
  splits original k (lay.*1) → emits source destination original p lay out brs →
  placed p lay (p + length out).
Proof.
  intros Hs He. revert k Hs. induction He as [|p o i lay piece fields out brs Hp _ IH]; intros k Hs.
  - simpl. lia.
  - inversion Hs as [|? ? ? Hd Hs']; subst. rewrite length_app. split; [done|].
    rewrite <-(piece_length _ _ _ _ _ Hd Hp), Nat.add_assoc. by eapply IH.
Qed.

(** Every instruction of the layout has its piece in the copy, away from the
    branch fields of the others. *)
Lemma emits_lookup p lay out brs o i q :
  emits source destination original p lay out brs → (o, i, q) ∈ lay →
  ∃ piece fields brs1 brs2,
    piece_ok source destination original o i q piece fields ∧
    (p ≤ q)%nat ∧ (q + length piece ≤ p + length out)%nat ∧
    bytes_at out (q - p) piece ∧ brs = brs1 ++ fields ++ brs2 ∧
    Forall (λ ft, (ft.1 + 4 ≤ q)%nat) brs1 ∧
    Forall (λ ft, (q + length piece ≤ ft.1)%nat) brs2.
Proof.
  induction 1 as [|p o' i' lay piece fields out brs Hp He IH]; [by intros ?%elem_of_nil|].
  rewrite elem_of_cons, length_app. intros [?|Hin].
  - simplify_eq. exists piece, fields, [], brs. rewrite Nat.sub_diag.
    split_and!; try done; try lia.
    + intros k x Hk. by apply lookup_app_l_Some.
    + apply emits_fields in He. eapply Forall_impl; [exact He|]. simpl. intros; lia.
  - destruct (IH Hin) as (piece' & fields' & brs1 & brs2 & Hp' & ? & ? & Hat & -> & H1 & H2).
    exists piece', fields', (fields ++ brs1), brs2. split_and!; try done; try lia.
    + intros k x Hk. apply Hat in Hk. rewrite lookup_app_r by lia.
      by replace (q - p + k - length piece)%nat with (q - (p + length piece) + k)%nat by lia.
    + by rewrite (assoc_L (++)).
    + apply Forall_app. split; [|done].
      apply piece_fields in Hp as [->|(f & t & -> & ? & ?)]; repeat constructor; simpl; lia.
Qed.

(** ** Filling in the branch fields *)

(** Where control goes when a copied branch is taken to [t]. *)
Definition resolved (lay : list (nat * Instruction * nat)) (t t' : Z) : Prop :=
  (¬ (source ≤ t < continuation) ∧ t' = t) ∨
  (source ≤ t < continuation ∧ ∃ o i p, (o, i, p) ∈ lay ∧ t = source + Z.of_nat o ∧
                                         t' = destination + Z.of_nat p).

Lemma resolve_Ok lay t t' :
  resolve source destination continuation (layout_positions lay) t = Ok t' →
  resolved lay t t'.
Proof.
  unfold resolve. destruct (Z.leb_spec source t), (Z.ltb_spec t continuation);
    simpl; intros Hres; inv_ok; try (by left; split; [lia|]).
  destruct a as [o p]. apply List.find_some in Heq as [Hin Ho].
  apply list_elem_of_In in Hin. unfold layout_positions in Hin.
  apply list_elem_of_fmap in Hin as ([[o' i] p'] & ? & Hin). simplify_eq.
  right. split; [lia|]. exists o', i, p'. simpl. split_and!; [done|lia|done].
Qed.

Lemma patch_branches_Ok lay brs out out' :
  patch_branches source destination continuation (layout_positions lay) brs out = Ok out' →
  StronglySorted (λ a b : nat * Z, (a.1 + 4 ≤ b.1)%nat) brs →
  length out' = length out ∧
  (∀ p xs, bytes_at out p xs →
           Forall (λ ft, (ft.1 + 4 ≤ p ∨ p + length xs ≤ ft.1)%nat) brs → bytes_at out' p xs) ∧
  (∀ f t, (f, t) ∈ brs →
     ∃ rel t', bytes_at out' f (le_bytes 4 rel) ∧ - 2 ^ 31 ≤ rel < 2 ^ 31 ∧
               0 ≤ t ≤ usize_max ∧ resolved lay t t' ∧
               destination + Z.of_nat (f + 4) + rel = t').
Proof.
  revert out. induction brs as [|[f t] brs IH]; intros out H Hs; simpl in H.
  - inv_ok. split_and!; [done|auto|]. by intros ?? ?%elem_of_nil.
  - inv_ok. apply StronglySorted_inv in Hs as [Hs Hfor].
    apply IH in H as (Hlen & Hkeep & Hfill); [|done]. rewrite length_inserts in Hlen.
    split_and!; [done|..].
    + intros p xs Hat Hd. inversion_clear Hd as [|?? Hd1 Hd2]. apply Hkeep; [|done].
      apply bytes_at_inserts_ne; [done|]. by rewrite length_le_bytes by lia.
    + intros f' t' [?|Hin]%elem_of_cons; [|by apply Hfill]. simplify_eq.
      eexists _, _. split.
      { apply Hkeep; [by apply bytes_at_inserts_eq|].
        rewrite length_le_bytes by lia. eapply Forall_impl; [exact Hfor|].
        simpl. intros; lia. }
      split_and!; [lia..|by apply resolve_Ok|lia].
Qed.

(** The instruction [i] of offset [o], as it stands at offset [p] of the
    finished copy [out]. *)
Definition relocated (lay : list (nat * Instruction * nat)) (out : list Z)
    (o : nat) (i : Instruction) (p : nat) : Prop :=
  match branch i, call i with
  | Some b, _ =>
      let head := branch_head original o b ++ branch_opcode (condition b) in
      ∃ rel t', bytes_at out p (head ++ le_bytes 4 rel) ∧ - 2 ^ 31 ≤ rel < 2 ^ 31 ∧
        resolved lay (target_at source original o i (displacement b) (width b)) t' ∧
        destination + Z.of_nat (p + length head + 4) + rel = t'
  | None, Some (Direct d) =>
      ∃ rel t',
        bytes_at out p ([0xff; 0x35] ++ le_bytes 4 5 ++ [0xe9] ++ le_bytes 4 rel
                          ++ le_bytes 8 continuation) ∧ - 2 ^ 31 ≤ rel < 2 ^ 31 ∧
        resolved lay (target_at source original o i d 4) t' ∧
        destination + Z.of_nat (p + 11) + rel = t' ∧ (o + size i)%nat = length original
  | None, Some (Indirect _) =>
      ∃ body, moved source destination original o i (p + 6) body ∧
        bytes_at out p ([0xff; 0x35] ++ le_bytes 4 (Z.of_nat (size i)) ++ body
                          ++ le_bytes 8 continuation) ∧
        (o + size i)%nat = length original
  | None, None =>
      ∃ body, moved source destination original o i p body ∧ bytes_at out p body
  end.

(** Filling in the fields of a piece turns it into the relocated instruction. *)
Lemma piece_relocated lay out out' brs1 brs2 o i p piece fields :
  piece_ok source destination original o i p piece fields →
  bytes_at out p piece →
  Forall (λ ft, (ft.1 + 4 ≤ p)%nat) brs1 →
  Forall (λ ft, (p + length piece ≤ ft.1)%nat) brs2 →
  (∀ q xs, bytes_at out q xs →
           Forall (λ ft, (ft.1 + 4 ≤ q ∨ q + length xs ≤ ft.1)%nat) (brs1 ++ fields ++ brs2) →
           bytes_at out' q xs) →
  (∀ f t, (f, t) ∈ fields →
     ∃ rel t', bytes_at out' f (le_bytes 4 rel) ∧ - 2 ^ 31 ≤ rel < 2 ^ 31 ∧
               0 ≤ t ≤ usize_max ∧ resolved lay t t' ∧
               destination + Z.of_nat (f + 4) + rel = t') →
  relocated lay out' o i p.
Proof.
  intros Hp Hat H1 H2 Hkeep Hfill.
  (* a segment of the piece that misses the piece's own fields *)
  assert (∀ a xs b, piece = a ++ xs ++ b →
            Forall (λ ft, (ft.1 + 4 ≤ p + length a ∨ p + length a + length xs ≤ ft.1)%nat) fields →
            bytes_at out' (p + length a) xs) as Hseg.
  { intros a xs b -> Hown. rewrite !bytes_at_app in Hat. destruct Hat as (_ & Hxs & _).
    apply Hkeep; [done|]. rewrite !length_app in H2.
    apply Forall_app; split; [|apply Forall_app; split; [done|]].
    - eapply Forall_impl; [exact H1|]. simpl. intros; lia.
    - eapply Forall_impl; [exact H2|]. simpl. intros; lia. }
  unfold piece_ok in Hp. unfold relocated.
  destruct (branch i) as [b|]; [|destruct (call i) as [[d|m]|]].
  - destruct Hp as [-> ->]. set (head := branch_head _ _ _ ++ _) in *.
    destruct (Hfill _ _ ltac:(by apply list_elem_of_singleton)) as (rel & t' & Hf & ? & _ & ? & ?).
    exists rel, t'. split_and!; try done; try lia. apply bytes_at_app. split; [|done].
    rewrite <-(Nat.add_0_r p). apply (Hseg [] head [0; 0; 0; 0]); [done|].
    repeat constructor; simpl; lia.
  - destruct Hp as (-> & -> & Hend).
    destruct (Hfill _ _ ltac:(by apply list_elem_of_singleton)) as (rel & t' & Hf & ? & _ & ? & ?).
    exists rel, t'. split_and!; try done; try lia.
    change ([0xff; 0x35] ++ le_bytes 4 5 ++ [0xe9] ++ le_bytes 4 rel ++ le_bytes 8 continuation)
      with (([0xff; 0x35] ++ le_bytes 4 5 ++ [0xe9]) ++ le_bytes 4 rel ++ le_bytes 8 continuation).
    apply bytes_at_app; split; [|apply bytes_at_app; split; [exact Hf|]].
    + rewrite <-(Nat.add_0_r p).
      apply (Hseg [] _ ([0; 0; 0; 0] ++ le_bytes 8 continuation)); [done|].
      repeat constructor; simpl; lia.
    + rewrite <-Nat.add_assoc.
      apply (Hseg ([0xff; 0x35] ++ le_bytes 4 5 ++ [0xe9] ++ [0; 0; 0; 0]) _ []);
        [by rewrite app_nil_r|]. repeat constructor; simpl; lia.
  - destruct Hp as (body & Hm & -> & -> & Hend). exists body. split_and!; try done.
    rewrite <-(Nat.add_0_r p). apply (Hseg [] _ []); [by rewrite app_nil_r|constructor].
  - destruct Hp as [Hm ->]. exists piece. split; [done|].
    rewrite <-(Nat.add_0_r p). apply (Hseg [] _ []); [by rewrite app_nil_r|constructor].
Qed.
End relocation_lemmas.

Lemma trampoline_layout source destination original out :
  trampoline source destination original = Ok out →
  ∃ lay, splits original 0 (lay.*1) ∧
    Forall (λ '(o, i, p), cannot_move i = false) lay ∧
    bytes_at out 0 ENDBR64 ∧
    Forall (λ '(o, i, p), relocated source destination original lay out o i p) lay ∧
    placed 4 lay (length out - 5) ∧
    (∃ rel, bytes_at out (length out - 5) ([0xe9] ++ le_bytes 4 rel) ∧ (5 ≤ length out)%nat ∧
            - 2 ^ 31 ≤ rel < 2 ^ 31 ∧
            destination + Z.of_nat (length out) + rel = source + Z.of_nat (length original)).
Proof.
  intros H. unfold trampoline in H. destruct (_ || _); [done|]. inv_ok.
  match goal with H : relocate_loop _ _ _ _ _ _ _ = Ok _ |- _ =>
    apply relocate_loop_Ok in H as (lay & body & brs & Hs & Hm & He & ->); [|lia] end.
  match goal with H : patch_branches _ _ _ _ _ _ = Ok ?o |- _ => rename H into Hp; rename o into out end.
  cbn [output positions branches] in Hp, He. rewrite !app_nil_l in Hp.
  change (length ENDBR64) with 4%nat in He. pose proof (emits_sorted _ _ _ _ _ _ _ He) as Hsort.
  apply patch_branches_Ok in Hp as (Hlen & Hkeep & Hfill); [|done].
  exists lay. split_and!; try done.
  - apply bytes_at_app_l, (Hkeep 0%nat ENDBR64); [intros k x Hk; by apply lookup_app_l_Some|].
    apply emits_fields in He. eapply Forall_impl; [exact He|]. simpl. intros; lia.
  - apply Forall_forall. intros [[o i] q] Hin.
    destruct (emits_lookup _ _ _ _ _ _ _ _ _ _ He Hin)
      as (piece & fields & brs1 & brs2 & Hp & ? & ? & Hat & -> & H1' & H2').
    assert (bytes_at (ENDBR64 ++ body) q piece) as Hat'.
    { intros k x Hk. apply Hat in Hk. rewrite lookup_app_r by (simpl; lia). simpl.
      by replace (q + k - 4)%nat with (q - 4 + k)%nat by lia. }
    eapply (piece_relocated _ _ _ lay (ENDBR64 ++ body) _ brs1 brs2 o i q piece fields);
      [done|done|done|done|..].
    + intros p xs Hxs Hd. by apply bytes_at_app_l, Hkeep.
    + intros f t Hft. destruct (Hfill f t) as (rel & t' & Hr & ?).
      { rewrite !elem_of_app. auto. }
      exists rel, t'. split; [by apply bytes_at_app_l|done].
  - rewrite length_app. simpl length. rewrite Nat.add_sub, Hlen, length_app.
    by eapply emits_placed.
  - eexists. split.
    { replace (length (_ ++ _) - 5)%nat with (length out); [by apply bytes_at_end|].
      rewrite length_app. simpl. lia. }
    rewrite length_app. simpl length. split_and!; lia.
Qed.

(** ** Relocation comes back *)

Lemma usub_returns a b : (b ≤ a)%nat → returns (usub a b).
Proof. intros. unfold usub. by rewrite (proj2 (Nat.leb_le _ _)). Qed.

Lemma read_displacement_returns original field w :
  (w = 1 ∨ w = 4)%nat → (field + w ≤ length original)%nat →
  returns (read_displacement original field w).
Proof. intros [-> | ->] ?; unfold read_displacement; simpl; repeat returns_step. Qed.

Lemma emit_body_returns source original o i out brs :
  instruction_ok i → (o + size i ≤ length original)%nat →
  returns (emit_body source original o i out brs).
Proof.
  intros [_ Hok] Hl. unfold emit_body. destruct (branch i) as [b|].
  - destruct (call i); [done|]. destruct Hok as (Hsz & Hd & _ & Hc).
    assert (width b = 1 ∨ width b = 4)%nat as Hw by (destruct (condition b); naive_solver).
    apply returns_bind; [apply read_displacement_returns; [done|lia]|]. intros v _.
    apply returns_bind.
    { apply usub_returns. destruct (condition b); simpl; [|rewrite andb_false_r; lia].
      destruct Hc as [_ [-> | [-> ?]]]; simpl; lia. }
    intros k [_ ->]%usub_Ok.
    repeat returns_step.
  - destruct (call i) as [[d|m]|]; repeat returns_step.
    apply returns_bind; [|intros; exact I].
    apply returns_bind; [apply index_returns|intros x _; apply store_returns];
      rewrite length_app, length_take, length_drop; lia.
Qed.

Lemma fix_memory_returns source destination original o i cs out :
  instruction_ok i → (o + size i ≤ length original)%nat →
  (is_Some (relative_memory i) → (cs + size i ≤ length out)%nat) →
  returns (fix_memory source destination original o i cs out).
Proof.
  intros [Hr _] Hl Hout. unfold fix_memory. destruct (relative_memory i) as [d|]; [|done].
  specialize (Hr d eq_refl). specialize (Hout ltac:(eauto)). repeat returns_step.
  apply store_slice_returns. rewrite length_le_bytes by lia. lia.
Qed.

Lemma fix_memory_length source destination original o i cs out out' :
  fix_memory source destination original o i cs out = Ok out' → length out' = length out.
Proof.
  unfold fix_memory. destruct (relative_memory i); intros; inv_ok; [|done].
  by rewrite length_inserts.
Qed.

Lemma emit_body_length source original o i out brs out' brs' :
  emit_body source original o i out brs = Ok (out', brs') →
  (length out ≤ length out')%nat ∧
  (branch i = None → (∀ d, call i ≠ Some (Direct d)) →
   (o + size i ≤ length original)%nat → length out' = (length out + size i)%nat).
Proof.
  unfold emit_body. destruct (branch i) as [b|]; intros H.
  - inv_ok. simplify_eq. rewrite !length_app. split; [lia|done].
  - destruct (call i) as [[d|m]|]; inv_ok; simplify_eq;
      rewrite ?length_insert, !length_app, ?length_take, ?length_drop; naive_solver lia.
Qed.

Lemma relocate_step_returns source destination continuation original o st :
  (o ≤ length original)%nat →
  returns (relocate_step source destination continuation original o st).
Proof.
  intros Ho. unfold relocate_step. returns_step.
  rewrite take_ge by (rewrite length_drop; lia).
  destruct (decode_returns (drop o original)) as [-> | [i Hi]]; [done|].
  rewrite Hi. cbn [mbind outcome_bind]. destruct (cannot_move i); [done|].
  pose proof (decode_fields _ _ Hi) as Hok.
  destruct (decode_drop_nonempty _ _ _ Hi) as [Hlen _].
  apply returns_bind; [unfold open_bridge; destruct (is_Some_b _); repeat returns_step|].
  intros a Ha.
  apply returns_bind; [by apply emit_body_returns|]. intros [out brs] He.
  apply emit_body_length in He as [Hmono Hcopy].
  apply returns_bind.
  { apply fix_memory_returns; [done|done|]. intros [d Hd].
    destruct Hok as [_ Hok]. rewrite Hcopy; [lia|..|done];
      destruct (branch i), (call i) as [[]|]; naive_solver. }
  intros out' Hl%fix_memory_length.
  apply returns_bind; [|done]. unfold close_bridge, open_bridge in *.
  destruct (is_Some_b (call i)); [|done]. inv_ok. rewrite length_app in Hmono. simpl in Hmono.
  apply returns_bind; [apply usub_returns; lia|]. intros n [_ ->]%usub_Ok.
  apply returns_bind; [apply usub_returns; lia|]. intros n [_ ->]%usub_Ok.
  apply returns_bind; [|done]. apply store_slice_returns. rewrite length_le_bytes by lia. lia.
Qed.

Lemma relocate_loop_returns fuel source destination original o st :
  (0 < fuel)%nat → (length original < fuel + o)%nat → (o ≤ length original)%nat →
  returns (relocate_loop fuel source destination (source + Z.of_nat (length original)) original o st).
Proof.
  revert o st. induction fuel as [|fuel IH]; intros o st H0 Hf Ho; simpl; [lia|].
  destruct (Nat.ltb_spec o (length original)); [|done].
  apply returns_bind; [by apply relocate_step_returns|]. intros [o' st'] Hs.
  apply relocate_step_Ok in Hs as (i & piece & fields & Hd & _ & -> & _ & _).
  destruct (decode_drop_nonempty _ _ _ Hd). apply IH; lia.
Qed.

Lemma patch_branches_returns source destination continuation positions brs out :
  Forall (λ ft, (ft.1 + 4 ≤ length out)%nat) brs →
  returns (patch_branches source destination continuation positions brs out).
Proof.
  revert out. induction brs as [|[f t] brs IH]; intros out Hf; simpl; [done|].
  inversion_clear Hf as [|?? H1 H2]. simpl in H1. returns_step.
  apply returns_bind; [unfold resolve; destruct (_ && _); repeat returns_step; auto with returns|].
  intros t' _. repeat returns_step.
  apply returns_bind; [apply store_slice_returns; by rewrite length_le_bytes by lia|].
  intros out' Ho. inv_ok. apply IH. by rewrite length_inserts.
Qed.

Lemma trampoline_no_panic source destination original :
  returns (trampoline source destination original).
Proof.
  unfold trampoline. destruct (_ || _); [done|]. returns_step.
  apply returns_bind; [apply relocate_loop_returns; lia|]. intros st Hst.
  apply relocate_loop_Ok in Hst as (lay & body & brs & _ & _ & He & ->); [|lia].
  cbn [output positions branches] in *. apply emits_fields in He.
  apply returns_bind.
  { apply patch_branches_returns. rewrite length_app. eapply Forall_impl; [exact He|].
    intros ? [_ ?]. done. }
  intros out _. repeat returns_step.
Qed.

(** ** Copied branches decode to the same branch *)

Lemma branch_head_run original o i b :
  decode (drop o original) = Ok i → branch i = Some b →
  ∃ p, prefix_fold no_prefixes (branch_head original o b) = Some p ∧ locked p = false ∧
       length (branch_head original o b) = (displacement b - length (source_opcode b))%nat ∧
       terminal i = negb (is_Some_b (condition b)).
Proof.
  intros Hd Hb. destruct (decode_branch_inv _ _ _ Hd Hb) as (pre & p & Hf & Hl & Hlen & Hat & Ht).
  assert (branch_head original o b = pre) as ->.
  { unfold branch_head. rewrite Hlen, Nat.add_sub.
    apply bytes_at_app in Hat as [Hat _].
    destruct (decode_size _ _ Hd) as [_ Hs]. pose proof (decode_fields _ _ Hd) as [_ Hok].
    rewrite Hb in Hok. destruct (call i); [done|].
    apply (bytes_at_take _ 0) in Hat; [by rewrite drop_0 in Hat|]. lia. }
  exists p. split_and!; try done. lia.
Qed.

Lemma relocated_branch source destination original lay out o i p b :
  decode (drop o original) = Ok i → branch i = Some b →
  relocated source destination original lay out o i p →
  let n := (displacement b - length (source_opcode b) + length (branch_opcode (condition b)))%nat in
  (n + 4 ≤ 15)%nat →
  ∃ i' t', decode (drop p out) = Ok i' ∧ size i' = (n + 4)%nat ∧
           branch i' = Some (mkBranch n 4 (condition b)) ∧ terminal i' = terminal i ∧
           resolved source destination original lay
             (target_at source original o i (displacement b) (width b)) t' ∧
           target_at destination out p i' n 4 = t'.
Proof.
  intros Hd Hb Hr n Hn. unfold relocated in Hr. rewrite Hb in Hr.
  destruct (branch_head_run _ _ _ _ Hd Hb) as (pf & Hf & Hl & Hlen & Ht).
  destruct Hr as (rel & t' & Hat & Hrel & Hres & Heq).
  set (bytes := (branch_head original o b ++ branch_opcode (condition b)) ++ le_bytes 4 rel) in *.
  assert (length bytes = n + 4)%nat as Hbl.
  { unfold bytes. rewrite !length_app, length_le_bytes, Hlen by lia. done. }
  assert (p + length bytes ≤ length out)%nat as Hpl.
  { apply (bytes_at_length _ _ _ Hat). destruct bytes; simpl in *; [lia|done]. }
  assert (drop p out = bytes ++ drop (p + length bytes) out) as Hdrop.
  { rewrite <-(take_drop (length bytes) (drop p out)), drop_drop. f_equal.
    by apply bytes_at_take. }
  pose proof (decode_fields _ _ Hd) as [_ Hok]. rewrite Hb in Hok. destruct (call i); [done|].
  destruct Hok as (_ & _ & _ & Hc).
  eexists _, t'. split.
  { rewrite Hdrop. unfold bytes. rewrite <-!(assoc_L (++)).
    apply (decode_long_branch _ pf (condition b)); [done|done|by destruct (condition b); naive_solver|..].
    - by rewrite length_le_bytes.
    - rewrite Hlen. done. }
  cbn [branch terminal size]. rewrite Hlen. split_and!; [done|done|done|done|].
  unfold target_at, displacement_at. cbn [size Nat.eqb]. rewrite ?Hlen. fold n.
  assert (take 4 (drop (p + n) out) = le_bytes 4 rel) as ->.
  { rewrite <-drop_drop, Hdrop. unfold bytes.
    rewrite <-(assoc_L (++) _ (le_bytes 4 rel)), drop_app_length'
      by (rewrite length_app, Hlen; done).
    by apply take_app_length'; rewrite length_le_bytes. }
  rewrite i32_le_roundtrip by done. rewrite length_app, Hlen in Heq. fold n in Heq. lia.
Qed.

(** The push of a relocated call. *)
Definition bridge_push : Instruction := mkInstruction 6 false (Some 2%nat) false None None.

Lemma decode_push field rest :
  length field = 4%nat → decode ([0xff; 0x35] ++ field ++ rest) = Ok bridge_push.
Proof.
  intros Hl. assert (decode [0xff; 0x35; 0; 0; 0; 0] = Ok bridge_push) as Hd by (vm_compute; reflexivity).
  apply (decode_app _ _ rest) in Hd.
  eapply decode_relative; [exact Hd|reflexivity| |done].
  rewrite !length_app, Hl. done.
Qed.

Section decoding.
Context (source destination : Z) (original : list Z).

(** How the copy of the instruction [i] of offset [o] decodes at offset [p]: a
    plain instruction as itself; a branch as the same branch to the resolved
    target, if its 32-bit form is at most 15 bytes long, and as no instruction
    otherwise; a call as a push, which a direct call follows with a jump. *)
Definition copy_decodes (lay : list (nat * Instruction * nat)) (out : list Z)
    (o : nat) (i : Instruction) (p : nat) : Prop :=
  match branch i, call i with
  | Some b, _ =>
      if (copy_size i <=? 15)%nat then
        ∃ i' t', decode (drop p out) = Ok i' ∧ size i' = copy_size i ∧
          branch i' = Some (mkBranch (copy_size i - 4) 4 (condition b)) ∧
          terminal i' = terminal i ∧
          resolved source destination original lay
            (target_at source original o i (displacement b) (width b)) t' ∧
          target_at destination out p i' (copy_size i - 4) 4 = t'
      else decode (drop p out) = Err InvalidInstruction
  | None, Some (Direct d) =>
      decode (drop p out) = Ok bridge_push ∧
      ∃ i' t', decode (drop (p + 6) out) = Ok i' ∧ branch i' = Some (mkBranch 1 4 None) ∧
        resolved source destination original lay (target_at source original o i d 4) t' ∧
        target_at destination out (p + 6) i' 1 4 = t'
  | None, Some (Indirect _) => decode (drop p out) = Ok bridge_push
  | None, None => decode (drop p out) = Ok i
  end.

Lemma bytes_at_drop (out : list Z) p xs :
  bytes_at out p xs → xs ≠ [] → drop p out = xs ++ drop (p + length xs) out.
Proof.
  intros Hat Hne. rewrite <-(take_drop (length xs) (drop p out)), drop_drop. f_equal.
  by apply bytes_at_take; [|apply (bytes_at_length _ _ _ Hat)].
Qed.

Lemma branch_decodes lay out o i p b :
  decode (drop o original) = Ok i → branch i = Some b →
  relocated source destination original lay out o i p → copy_decodes lay out o i p.
Proof.
  intros Hd Hb Hr. unfold copy_decodes. rewrite Hb.
  assert (copy_size i = displacement b - length (source_opcode b)
    + length (branch_opcode (condition b)) + 4)%nat as Hn by (unfold copy_size; by rewrite Hb).
  destruct (Nat.leb_spec (copy_size i) 15) as [Hle|Hgt].
  - destruct (relocated_branch _ _ _ _ _ _ _ _ _ Hd Hb Hr ltac:(lia)) as (i' & t' & Hd' & Hs & Hb' & Ht & Hres & He).
    exists i', t'. rewrite Hn, Nat.add_sub. split_and!; try done.
  - unfold relocated in Hr. rewrite Hb in Hr. destruct Hr as (rel & t' & Hat & _).
    destruct (branch_head_run _ _ _ _ Hd Hb) as (pf & Hf & Hl & Hlen & _).
    rewrite (bytes_at_drop _ _ _ Hat) by (destruct (branch_head original o b); by destruct (condition b)).
    rewrite <-!(assoc_L (++)). pose proof (decode_fields _ _ Hd) as [_ Hok]. rewrite Hb in Hok.
    destruct (call i); [done|]. destruct Hok as (_ & _ & _ & Hc).
    apply (decode_overlong_branch _ pf); [done|by destruct (condition b); naive_solver|lia].
Qed.

Lemma relocated_decodes lay out o i p :
  decode (drop o original) = Ok i →
  relocated source destination original lay out o i p → copy_decodes lay out o i p.
Proof.
  intros Hd Hr. destruct (branch i) as [b|] eqn:Hb; [by eapply branch_decodes|].
  unfold copy_decodes, relocated in *. rewrite Hb in *.
  pose proof (decode_drop_nonempty _ _ _ Hd) as [Hlen Hpos].
  destruct (call i) as [[d|m]|] eqn:Hc.
  - destruct Hr as (rel & t' & Hat & Hrel & Hres & He & _).
    rewrite (bytes_at_drop _ _ _ Hat) by done. split.
    { rewrite <-!(assoc_L (++)). by apply decode_push. }
    assert (∃ rest, drop (p + 6) out = [0xe9] ++ le_bytes 4 rel ++ rest) as [rest Hj].
    { rewrite (assoc_L (++)), bytes_at_app in Hat. destruct Hat as [_ Hat].
      eexists. rewrite (bytes_at_drop _ _ _ Hat) at 1 by done. by rewrite <-!(assoc_L (++)). }
    assert (length (le_bytes 4 rel) = 4%nat) as Hl4 by (by apply length_le_bytes).
    pose proof (decode_long_branch [] no_prefixes None (le_bytes 4 rel) rest
      eq_refl eq_refl I Hl4 ltac:(simpl; lia)) as Hdj.
    eexists _, t'. split; [rewrite Hj; exact Hdj|].
    split_and!; [done|done|]. unfold target_at, displacement_at. cbn [size Nat.eqb].
    rewrite <-drop_drop, Hj. cbn [app drop length branch_opcode].
    rewrite drop_0, take_app_length' by done. rewrite i32_le_roundtrip by done. lia.
  - destruct Hr as (body & _ & Hat & _). rewrite (bytes_at_drop _ _ _ Hat) by done.
    rewrite <-!(assoc_L (++)). by apply decode_push.
  - destruct Hr as (body & Hm & Hat).
    assert (copied original o i = take (size i) (drop o original)) as Hcopy
      by (unfold copied; by rewrite Hc).
    unfold moved, retargeted in Hm. rewrite Hcopy in Hm.
    assert (length (take (size i) (drop o original)) = size i) as Hl
      by (rewrite length_take, length_drop; lia).
    destruct (relative_memory i) as [d|] eqn:Hrel.
    + destruct Hm as (rel & -> & _).
      rewrite (bytes_at_drop _ _ _ Hat)
        by (intros E%(f_equal length); rewrite length_inserts, Hl in E; simpl in E; lia).
      eapply decode_relative; [exact (decode_app _ _ (drop (p + size i) out) Hd)|done| |].
      * rewrite !length_app, length_inserts, Hl. done.
      * destruct (decode_fields _ _ Hd) as [Hf _]. destruct (Hf d Hrel).
        rewrite !take_app_le by (rewrite ?length_inserts; lia).
        apply list_eq. intros k. rewrite !lookup_take. case_decide; [|done].
        rewrite list_lookup_inserts_lt by done. by rewrite lookup_take.
    + subst body. rewrite (bytes_at_drop _ _ _ Hat)
        by (intros E%(f_equal length); rewrite Hl in E; simpl in E; lia).
      by apply decode_app.
Qed.
End decoding.

(** ** The call bridge *)

Definition has_call (l : list (nat * Instruction)) : bool :=
  existsb (λ oi, is_Some_b (call oi.2)) l.

Lemma call_bridge_splits fuel original o l :
  splits original o l → (length l < fuel)%nat →
  call_bridge_loop fuel original o = Ok (has_call l).
Proof.
  intros Hs. revert fuel. induction Hs as [|o i l Hd Hs IH]; intros fuel Hf;
    (destruct fuel as [|fuel]; [simpl in Hf; lia|]); simpl.
  - by rewrite Nat.ltb_irrefl.
  - destruct (decode_drop_nonempty _ _ _ Hd) as [Hl ?].
    rewrite (proj2 (Nat.ltb_lt _ _)) by lia.
    unfold slice. rewrite (proj2 (Nat.leb_le o _)), Nat.leb_refl by lia. simpl.
    rewrite take_ge by (rewrite length_drop; lia). rewrite Hd. simpl.
    destruct (is_Some_b (call i)); [done|]. apply IH. simpl in Hf. lia.
Qed.

Lemma splits_length code o l : splits code o l → (length l + o ≤ length code)%nat.
Proof.
  induction 1 as [|o i l Hd Hs IH]; simpl; [lia|].
  destruct (decode_drop_nonempty _ _ _ Hd). lia.
Qed.

Lemma splits_decode code o l o' i :
  splits code o l → (o', i) ∈ l → decode (drop o' code) = Ok i.
Proof. induction 1; rewrite ?elem_of_nil, ?elem_of_cons; naive_solver. Qed.

(** There is one way to split. *)
Lemma splits_unique code o l l' : splits code o l → splits code o l' → l = l'.
Proof.
  intros Hs. revert l'. induction Hs as [|o i l Hd Hs IH]; intros l' Hs'; inversion Hs'; subst; try done.
  - match goal with H : decode _ = Ok _ |- _ => apply decode_drop_nonempty in H end. lia.
  - apply decode_drop_nonempty in Hd. lia.
  - rewrite Hd in *. simplify_eq. f_equal. by apply IH.
Qed.

Lemma splits_last code o l o' i :
  splits code o l → (o', i) ∈ l → (o' + size i)%nat = length code → last l = Some (o', i).
Proof.
  induction 1 as [|o j l Hd Hs IH]; rewrite ?elem_of_nil, ?elem_of_cons; [done|].
  intros [?|Hin] He; simplify_eq.
  - destruct l as [|[o2 i2] l]; [done|]. apply splits_length in Hs. simpl in Hs. lia.
  - rewrite last_cons, IH by done. done.
Qed.

(** A call can only stand at the end of what [trampoline] accepts. *)
Lemma relocated_call_last source destination original lay out o i p :
  relocated source destination original lay out o i p → branch i = None →
  is_Some_b (call i) = true → (o + size i)%nat = length original.
Proof.
  unfold relocated. intros Hr Hb Hc. rewrite Hb in Hr.
  destruct (call i) as [[]|]; naive_solver.
Qed.

(** ** Claims *)

(** C2. A trampoline is an instruction-by-instruction copy of the saved entry.
    The saved bytes split into whole instructions; the copies stand one
    directly behind the other, from the ENDBR64 at the start to the jump at the
    end, which goes to the first byte after the saved ones.  Each copy keeps
    its branch target, its RIP-relative operand and, for a final call, its
    return address ([relocated]); a branch into the saved bytes goes to the
    copy of the instruction it aimed at.  In the copy the instructions decode
    to what they were ([copy_decodes]), with one exception: a short branch
    behind so many prefixes that its 32-bit form is longer than 15 bytes, which
    decodes to no instruction. *)
Theorem trampoline_correct source destination original out :
  trampoline source destination original = Ok out →
  ∃ lay, splits original 0 (lay.*1) ∧ bytes_at out 0 ENDBR64 ∧
    placed 4 lay (length out - 5) ∧
    Forall (λ '(o, i, p), relocated source destination original lay out o i p ∧
                          copy_decodes source destination original lay out o i p) lay ∧
    jump_destination (destination + Z.of_nat (length out) - 5) (drop (length out - 5) out)
    = Some (source + Z.of_nat (length original)).
Proof.
  intros (lay & Hs & _ & He & Hr & H0 & rel & Hat & Hl & Hrel & Heq)%trampoline_layout.
  exists lay. split_and!; try done.
  - apply Forall_forall. intros [[o i] p] Hin. rewrite Forall_forall in Hr. specialize (Hr _ Hin).
    split; [done|]. apply relocated_decodes; [|done].
    eapply splits_decode; [exact Hs|]. apply list_elem_of_fmap. by exists (o, i, p).
  - assert (length ([0xe9] ++ le_bytes 4 rel) = 5%nat) as Hlen by done.
    apply bytes_at_take in Hat; [|rewrite Hlen; lia].
    rewrite Hlen, take_ge in Hat by (rewrite length_drop; lia). rewrite Hat.
    unfold jump_destination. cbn [app]. rewrite length_le_bytes by lia.
    rewrite (take_ge (le_bytes 4 rel)) by (by rewrite length_le_bytes by lia).
    rewrite i32_le_roundtrip by done. simpl. f_equal. lia.
Qed.

(** A conditional branch over a NOP, and a jump back to the start. *)
Module RelocateDemo.
Definition original : list Z := [0x75; 1; 0x90; 0xeb; 0xfb].
Definition jne : Instruction := mkInstruction 2 false None false (Some (mkBranch 1 1 (Some 5))) None.
Definition nop : Instruction := mkInstruction 1 false None false None None.
Definition back : Instruction := mkInstruction 2 true None false (Some (mkBranch 1 1 None)) None.

Lemma splits_original : splits original 0 [(0%nat, jne); (2%nat, nop); (3%nat, back)].
Proof. do 3 (constructor; [vm_compute; reflexivity|]). exact (splits_nil original). Qed.
End RelocateDemo.

(** The three copies stand at 4, 10 and 11, and the first branch still skips
    the NOP. *)
Lemma trampoline_correct_witness :
  ∃ out lay, trampoline 0x1000 0x2000 RelocateDemo.original = Ok out ∧
    lay = [(0, RelocateDemo.jne, 4); (2, RelocateDemo.nop, 10); (3, RelocateDemo.back, 11)]%nat ∧
    placed 4 lay (length out - 5) ∧ decode (drop 10 out) = Ok RelocateDemo.nop ∧
    ∃ i', decode (drop 4 out) = Ok i' ∧ target_at 0x2000 out 4 i' 2 4 = 0x2000 + 11.
Proof.
  destruct (trampoline 0x1000 0x2000 RelocateDemo.original) as [out| | |] eqn:H;
    [|vm_compute in H; discriminate H..].
  destruct (trampoline_correct 0x1000 0x2000 RelocateDemo.original out H)
    as (lay & Hs & _ & Hp & Hall & _).
  pose proof (splits_unique _ _ _ _ Hs RelocateDemo.splits_original) as E.
  destruct lay as [|[[o1 j1] p1] [|[[o2 j2] p2] [|[[o3 j3] p3] [|]]]]; try discriminate E.
  cbn in E. injection E as -> -> -> -> -> ->.
  destruct Hp as (-> & -> & -> & Hp). rewrite !Forall_cons in Hall.
  destruct Hall as ([_ H1] & [_ H2] & _).
  destruct H1 as (i' & t' & Hd & _ & _ & _ & Hres & Ht).
  exists out. eexists. split; [reflexivity|]. split; [reflexivity|].
  split; [cbn; repeat split; exact Hp|]. split; [exact H2|]. exists i'. split; [exact Hd|].
  etransitivity; [exact Ht|]. destruct Hres as [[Hout _]|(_ & o & i & p & Hin & Ho & ->)].
  - exfalso. apply Hout. vm_compute. split; [discriminate|reflexivity].
  - change (0x1003 = 0x1000 + Z.of_nat o) in Ho. assert (o = 3%nat) as -> by lia.
    rewrite !elem_of_cons, elem_of_nil in Hin.
    destruct Hin as [[=]|[[=]|[[= _ ->]|[]]]]. reflexivity.
Defined.

(** The exception exists: [decode] accepts a short branch behind ten prefixes,
    and [trampoline] widens it to sixteen bytes. *)
Lemma trampoline_overlong_branch :
  let original := replicate 10 0x2e ++ [0x75; 6] in
  ∃ i out, decode original = Ok i ∧ size i = 12%nat ∧ copy_size i = 16%nat ∧
           trampoline 0x1000 0x2000 original = Ok out ∧
           decode (drop 4 out) = Err InvalidInstruction.
Proof. eexists _, _. split_and!; vm_compute; reflexivity. Qed.

(** C40. After a trampoline was built, [needs_call_bridge] cannot
    fail, and it answers [true] exactly when the saved bytes end in a call (the
    only place where [trampoline] accepts one). *)
Theorem needs_call_bridge_correct source destination original out :
  trampoline source destination original = Ok out →
  ∃ l b, splits original 0 l ∧ needs_call_bridge original = Ok b ∧
         (b = true ↔ ∃ o i, last l = Some (o, i) ∧ is_Some_b (call i) = true) ∧
         (∀ o i, (o, i) ∈ l → is_Some_b (call i) = true → last l = Some (o, i)).
Proof.
  intros (lay & Hs & _ & _ & Hr & _)%trampoline_layout.
  exists (lay.*1), (has_call (lay.*1)).
  assert (∀ o i, (o, i) ∈ lay.*1 → is_Some_b (call i) = true → last (lay.*1) = Some (o, i)) as Hlast.
  { intros o i Hin Hc. pose proof Hin as Hd%(splits_decode _ _ _ _ _ Hs).
    apply list_elem_of_fmap in Hin as ([[o' i'] p] & ? & Hin). simplify_eq/=.
    rewrite Forall_forall in Hr. pose proof (Hr _ Hin) as Hrel.
    pose proof (decode_fields _ _ Hd) as [_ Hok].
    assert (branch i' = None) as Hb by (destruct (branch i'), (call i'); naive_solver).
    apply (relocated_call_last _ _ _ _ _ _ _ _ Hrel Hb) in Hc.
    eapply splits_last; [exact Hs| |exact Hc]. apply list_elem_of_fmap. by exists (o', i', p). }
  split_and!; [done|..|done].
  - apply call_bridge_splits; [done|]. apply splits_length in Hs. lia.
  - unfold has_call. rewrite existsb_exists. split.
    + intros ([o i] & Hin & Hc). exists o, i. split; [|done]. apply Hlast; [|done].
      by apply list_elem_of_In.
    + intros (o & i & Hl & Hc). exists (o, i). split; [|done]. apply list_elem_of_In.
      apply last_Some_elem_of in Hl. done.
Qed.

Lemma needs_call_bridge_correct_witness :
  ∃ l o i, splits [0x90; 0xe8; 10; 0; 0; 0] 0 l ∧ last l = Some (o, i) ∧ is_Some_b (call i) = true ∧
    needs_call_bridge [0x90; 0xe8; 10; 0; 0; 0] = Ok true.
Proof.
  destruct (trampoline 0x1000 0x2000 [0x90; 0xe8; 10; 0; 0; 0]) as [out| | |] eqn:H;
    [|vm_compute in H; discriminate H..].
  destruct (needs_call_bridge_correct 0x1000 0x2000 [0x90; 0xe8; 10; 0; 0; 0] out H)
    as (l & b & Hs & Hb & Hiff & _).
  assert (b = true) as -> by (vm_compute in Hb; injection Hb as <-; reflexivity).
  destruct (proj1 Hiff eq_refl) as (o & i & Hl & Hc). exists l, o, i.
  split; [exact Hs|]. split; [exact Hl|]. split; [exact Hc|exact Hb].
Defined.
