(* ===== verification/Code.v ===== *)
(** * The code generator as the rest of the crate sees it ([src/src/code.rs])

    [code.rs] re-exports one architecture module.  [Code] lists what the
    routing and session code calls, [CodeLaws] what it relies on, and the
    instances discharge the laws. *)

From S2P Require Import Prelude Errors Prefix X86 Relocate.

#[local] Open Scope Z_scope.

Class Code := {
  max_prefix : nat;
  code_plan : Z → Z → list Z → result Plan;
  code_jump : Z → Z → result (list Z);
  code_trampoline : Z → Z → list Z → result (list Z);
  code_needs_call_bridge : list Z → result bool;
  (** [install_raw] goes through a relay page on this architecture. *)
  code_relay : bool;
  (** The code at an address sends the processor to a target. *)
  lands : Z → list Z → Z → Prop }.

Class CodeLaws `{!Code} := {
  plan_law source target bytes p :
    0 ≤ target ≤ usize_max → code_plan source target bytes = Ok p →
    lands (source + Z.of_nat (offset p)) (replacement p) target ∧
    length (original p) = length (replacement p) ∧ original p ≠ [] ∧
    bytes_at bytes (offset p) (original p) ∧ source ≠ target;
  plan_returns_law source target bytes : returns (code_plan source target bytes);
  jump_law source target bs rest :
    0 ≤ target ≤ usize_max → code_jump source target = Ok bs → lands source (bs ++ rest) target;
  jump_returns_law source target : returns (code_jump source target);
  trampoline_returns_law source destination bytes :
    returns (code_trampoline source destination bytes);
  needs_call_bridge_law source destination bytes out :
    code_trampoline source destination bytes = Ok out →
    ∃ b, code_needs_call_bridge bytes = Ok b }.

(** [#[cfg(target_arch = "x86_64")] pub(crate) use x86::*]. *)
#[global] Instance x86_code : Code := {
  max_prefix := MAX_PREFIX;
  code_plan := plan;
  code_jump := jump;
  code_trampoline := trampoline;
  code_needs_call_bridge := needs_call_bridge;
  code_relay := false;
  lands a bs t := jump_destination a bs = Some t }.

Lemma jump_no_panic source target : returns (jump source target).
Proof. unfold jump. destruct (checked_add _ _); simpl; [by destruct (i32_try_from _)|done]. Qed.

#[global] Instance x86_laws : CodeLaws.
Proof.
  split; simpl.
  - intros source target bytes p Ht H.
    apply plan_Ok in H as (_ & _ & Hne & _ & _ & Hle & j & l & Hj & Hl & Ho & Hr).
    pose proof (jump_length _ _ _ Hj) as Hjl.
    pose proof (passed_bounds _ _ _ _ _ Hl ltac:(lia) ltac:(lia)) as (Hn & Hnl & _).
    split_and!.
    + rewrite Hr. by apply jump_lands.
    + rewrite Hr, length_app, length_replicate. lia.
    + intros E. rewrite E in Hn. simpl in Hn. lia.
    + intros k x Hk. rewrite Ho in Hk. apply lookup_take_Some in Hk as [Hk _].
      by rewrite lookup_drop in Hk.
    + done.
  - apply plan_no_panic.
  - intros. by apply jump_lands.
  - apply jump_no_panic.
  - apply trampoline_no_panic.
  - intros source destination bytes out (lay & Hs & _)%trampoline_layout.
    eexists. unfold needs_call_bridge. eapply call_bridge_splits; [done|].
    apply splits_length in Hs. lia.
Qed.

(** The loop of [needs_call_bridge] ends: every instruction has a byte. *)
Lemma call_bridge_returns fuel original offset :
  (length original - offset < fuel)%nat → returns (call_bridge_loop fuel original offset).
Proof.
  revert offset. induction fuel as [|fuel IH]; intros offset Hf; cbn [call_bridge_loop].
  { lia. }
  destruct (Nat.ltb_spec offset (length original)) as [Hlt|]; [|done].
  apply returns_bind; [by apply slice_returns; lia|]. intros rest _.
  apply returns_bind; [by destruct (decode_returns rest) as [->|[i ->]]|]. intros i Hi.
  destruct (is_Some_b (call i)); [done|]. apply IH.
  pose proof (decode_size _ _ Hi) as Hsize. lia.
Qed.

(** On every input the x86-64 decoder and the entry points that use it come
    back with a result or an error: no slice, index or subtraction in them
    panics and every loop ends; the only error of the decoder is
    [InvalidInstruction]. *)
Lemma x86_code_returns source target bytes :
  returns (@code_plan x86_code source target bytes) ∧
  returns (@code_jump x86_code source target) ∧
  returns (@code_trampoline x86_code source target bytes) ∧
  returns (@code_needs_call_bridge x86_code bytes) ∧
  (decode bytes = Err InvalidInstruction ∨ ∃ i, decode bytes = Ok i).
Proof.
  split_and!.
  - apply plan_no_panic.
  - apply jump_no_panic.
  - apply trampoline_no_panic.
  - apply call_bridge_returns. lia.
  - apply decode_returns.
Qed.
