(* ===== verification/Arm64.v ===== *)
(** * Entry plans and trampolines on AArch64 ([src/src/code/arm64.rs])

    The module is the architecture's [plan], [jump] and [trampoline].  Code is
    a list of bytes, an instruction a 32-bit word.  The theorems are about an
    execution model of the instructions the trampoline rewrites or emits
    ([exec]); every other instruction is a parameter that does not see the
    program counter. *)

From S2P Require Import Prelude Errors X86 Code.

#[local] Open Scope Z_scope.

Definition MAX_PREFIX : nat := 32.
Definition NOP : Z := 0xd503201f.
Definition BTI : Z := 0xd503245f.

(** [!mask] on [u32]. *)
Definition not32 (mask : Z) : Z := Z.lxor mask 0xffffffff.

(** [x & mask == value]. *)
Definition matches (x mask value : Z) : bool := Z.land x mask =? value.

Definition aligned (address : Z) : result unit :=
  if address =? 0 then Err InvalidAddress
  else if negb (Z.land address 3 =? 0) then Err InvalidRange
  else Ok tt.

(** [u32::from_le_bytes] of the first four bytes. *)
Definition word (bytes : list Z) : result Z :=
  if (4 <=? length bytes)%nat then Ok (u32_from_le_bytes (take 4 bytes) mod 2 ^ 32)
  else Err InsufficientSpace.

Definition emit (bytes : list Z) (instruction : Z) : list Z := bytes ++ le_bytes 4 instruction.

(** [/] and [%] on [i128] truncate. *)
Definition relative (source target bits : Z) : result Z :=
  let delta := target - source in
  let value := Z.quot delta 4 in
  if negb (Z.rem delta 4 =? 0) || (value <? - 2 ^ (bits - 1)) || (2 ^ (bits - 1) <=? value)
  then Err InvalidRange
  else Ok (Z.land (value mod 2 ^ 32) (2 ^ bits - 1)).

(** The shifts of [signed]: left on [u32], then right on [i32]. *)
Definition signed (value bits : Z) : Z :=
  Z.shiftr (to_signed 32 (Z.shiftl value (32 - bits))) (32 - bits).

Definition add (address delta : Z) : result Z :=
  ok_or InvalidRange (usize_try_from (address + delta)).

(** One turn of the loop of [constant]. *)
Definition constant_half (register value half : Z) : Z :=
  let opcode := if half =? 0 then 0xd2800000 else 0xf2800000 in
  Z.lor (Z.lor (Z.lor opcode (Z.shiftl half 21))
    (Z.shiftl (Z.land (Z.shiftr value (half * 16)) 0xffff) 5)) register.

Definition constant (bytes : list Z) (register value : Z) : list Z :=
  foldl (λ bytes half, emit bytes (constant_half register value half)) bytes [0; 1; 2; 3].

Definition jump (source target : Z) : result (list Z) :=
  aligned source;;
  aligned target;;
  match relative source target 26 with
  | Ok delta => Ok (emit [] (Z.lor 0x14000000 delta))
  | _ => Ok (emit (emit [] 0x58000050) 0xd61f0200 ++ le_bytes 8 target)
  end.

Definition valid (instruction : Z) : bool :=
  let group := Z.land (Z.shiftr instruction 25) 15 in
  negb ((group =? 0) || (group =? 1) || (group =? 3)) && negb (instruction =? 0xffffffff).

Definition terminal (instruction : Z) : bool :=
  matches instruction 0xfc000000 0x14000000
  || matches instruction 0xfe000000 0xd6000000
  || matches instruction 0xffe0001f 0xd4200000.

(** [chunks_exact(4)]. *)
Fixpoint chunks (bytes : list Z) : list (list Z) :=
  match bytes with
  | a :: b :: c :: d :: rest => [a; b; c; d] :: chunks rest
  | _ => []
  end.

(** The loop of [plan]; [index] counts the chunks. *)
Fixpoint plan_loop (size index : nat) (chunks : list (list Z)) : result unit :=
  match chunks with
  | [] => Ok tt
  | bytes :: chunks =>
      instruction ← word bytes;
      if negb (valid instruction) then Err InvalidInstruction
      else if terminal instruction && ((index + 1) * 4 <? size)%nat then Err InsufficientSpace
      else plan_loop size (index + 1) chunks
  end.

(** [bytes.get(a..b)]. *)
Definition get (bytes : list Z) (a b : nat) : option (list Z) :=
  if ((a <=? b) && (b <=? length bytes))%nat then Some (take (b - a) (drop a bytes)) else None.

Definition plan (source target : Z) (bytes : list Z) : result Plan :=
  aligned source;;
  aligned target;;
  if source =? target then Err SameAddress else
  first ← word bytes;
  let offset := if matches first 0xffffff1f 0xd503241f then 4%nat else 0%nat in
  address ← ok_or InvalidRange (checked_add source (Z.of_nat offset));
  replacement ← jump address target;
  prefix ← ok_or InsufficientSpace (get bytes offset (offset + length replacement));
  plan_loop (length prefix) 0 (chunks prefix);;
  Ok (mkPlan offset prefix replacement).

(** The buffers of [trampoline]. *)
Record buffers := mkBuffers {
  output : list Z;
  positions : list (nat * nat);
  branches : list (nat * Z) }.

(** [output] grows by the instructions. *)
Definition push (words : list Z) (b : buffers) : buffers :=
  mkBuffers (foldl emit (output b) words) (positions b) (branches b).
(** [constant(&mut output, register, value)]. *)
Definition push_constant (register value : Z) (b : buffers) : buffers :=
  mkBuffers (constant (output b) register value) (positions b) (branches b).
(** [branches.push((output.len(), target)); emit(&mut output, 0x14000000)]. *)
Definition push_branch (target : Z) (b : buffers) : buffers :=
  mkBuffers (emit (output b) 0x14000000) (positions b)
    (branches b ++ [(length (output b), target)]).

Section trampoline.
Context (source destination continuation : Z) (total : nat).

(** [B] and [BL]. *)
Definition copy_branch (instruction : Z) (offset : nat) (b : buffers) : result buffers :=
  let pc := source + Z.of_nat offset in
  target ← add pc (signed (Z.land instruction 0x03ffffff) 26 * 4);
  b ← (if negb (Z.land instruction 0x80000000 =? 0) then
         if negb (offset + 4 =? total)%nat then Err InvalidInstruction
         else Ok (push_constant 30 continuation b)
       else Ok b);
  Ok (push_branch target b).

(** [B.cond], [CBZ], [CBNZ], [TBZ], [TBNZ]. *)
Definition copy_conditional (instruction : Z) (offset : nat) (b : buffers) : result buffers :=
  let pc := source + Z.of_nat offset in
  let test_bit := matches instruction 0x7e000000 0x36000000 in
  let bits := if test_bit then 14 else 19 in
  let mask := Z.shiftl (Z.shiftl 1 bits - 1) 5 in
  target ← add pc (signed (Z.shiftr (Z.land instruction mask) 5) bits * 4);
  let base := Z.land instruction (not32 mask) in
  let b :=
    if matches instruction 0xff000010 0x54000000 then
      if Z.land instruction 15 <? 14 then push [Z.lor (Z.lxor base 1) (Z.shiftl 2 5)] b else b
    else push [Z.lor (Z.lxor base (Z.shiftl 1 24)) (Z.shiftl 2 5)] b in
  Ok (push_branch target b).

(** [ADR] and [ADRP]. *)
Definition copy_address (instruction : Z) (offset : nat) (b : buffers) : result buffers :=
  let pc := source + Z.of_nat offset in
  let immediate := Z.lor (Z.shiftl (Z.land (Z.shiftr instruction 5) 0x7ffff) 2)
                         (Z.land (Z.shiftr instruction 29) 3) in
  let delta := signed immediate 21 in
  target ← (if negb (Z.land instruction 0x80000000 =? 0)
            then add (Z.ldiff pc 4095) (delta * 4096) else add pc delta);
  Ok (push_constant (Z.land instruction 31) target b).

(** [LDR], [LDRSW] and [PRFM] of a literal. *)
Definition copy_literal (instruction : Z) (offset : nat) (b : buffers) : result buffers :=
  let pc := source + Z.of_nat offset in
  target ← add pc (signed (Z.land (Z.shiftr instruction 5) 0x7ffff) 19 * 4);
  next ← ok_or InvalidRange (checked_add destination (Z.of_nat (length (output b))));
  match relative next target 19 with
  | Ok delta =>
      Ok (push [Z.lor (Z.land instruction (not32 0x00ffffe0)) (Z.shiftl delta 5)] b)
  | _ =>
      let register := Z.land instruction 31 in
      let operation := Z.shiftr instruction 30 in
      if negb (Z.land instruction (Z.shiftl 1 26) =? 0) || (register =? 31)
      then Err InvalidRange
      else if operation =? 3 then Ok (push [NOP] b)
      else
        opcode ← index [0xb9400000; 0xf9400000; 0xb9800000] (Z.to_nat operation);
        Ok (push [Z.lor (Z.lor opcode (Z.shiftl register 5)) register]
              (push_constant register target b))
  end.

(** [BLR]. *)
Definition copy_call (instruction : Z) (offset : nat) (b : buffers) : result buffers :=
  if negb (offset + 4 =? total)%nat || (Z.land (Z.shiftr instruction 5) 31 =? 30)
  then Err InvalidInstruction
  else Ok (push [Z.land instruction (not32 (Z.shiftl 1 21))]
             (push_constant 30 continuation b)).

(** Everything else. *)
Definition copy_other (instruction : Z) (b : buffers) : result buffers :=
  if matches instruction 0xff000000 0x54000000 then Err InvalidInstruction
  else if matches instruction 0xfe000000 0xd6000000
          && negb (matches instruction 0xfffffc1f 0xd61f0000)
          && negb (matches instruction 0xfffffc1f 0xd65f0000)
          && negb ((instruction =? 0xd65f0bff) || (instruction =? 0xd65f0fff))
  then Err InvalidInstruction
  else Ok (push [instruction] b).

(** One turn of the copy loop. *)
Definition copy_step (bytes : list Z) (offset : nat) (b : buffers) : result buffers :=
  instruction ← word bytes;
  if negb (valid instruction) then Err InvalidInstruction else
  let b := mkBuffers (output b) (positions b ++ [(offset, length (output b))]) (branches b) in
  if matches instruction 0x7c000000 0x14000000 then copy_branch instruction offset b
  else if matches instruction 0xff000010 0x54000000
          || matches instruction 0x7e000000 0x34000000
          || matches instruction 0x7e000000 0x36000000
  then copy_conditional instruction offset b
  else if matches instruction 0x1f000000 0x10000000 then copy_address instruction offset b
  else if matches instruction 0x3b000000 0x18000000 then copy_literal instruction offset b
  else if matches instruction 0xfffffc1f 0xd63f0000 then copy_call instruction offset b
  else copy_other instruction b.

Fixpoint copy_loop (chunks : list (list Z)) (offset : nat) (b : buffers) : result buffers :=
  match chunks with
  | [] => Ok b
  | bytes :: chunks => b ← copy_step bytes offset b; copy_loop chunks (offset + 4) b
  end.

(** Where a branch of the copy goes. *)
Definition resolve (positions : list (nat * nat)) (target : Z) : result Z :=
  if (source <=? target) && (target <? continuation) then
    '(_, position) ← ok_or InvalidInstruction
      (find (λ entry, Z.of_nat entry.1 =? target - source) positions);
    ok_or InvalidRange (checked_add destination (Z.of_nat position))
  else Ok target.

(** The second loop: the branches get their targets. *)
Fixpoint patch_loop (positions : list (nat * nat)) (branches : list (nat * Z)) (output : list Z)
  : result (list Z) :=
  match branches with
  | [] => Ok output
  | (field, target) :: branches =>
      target ← resolve positions target;
      pc ← ok_or InvalidRange (checked_add destination (Z.of_nat field));
      delta ← relative pc target 26;
      output ← store_slice output field (le_bytes 4 (Z.lor 0x14000000 delta));
      patch_loop positions branches output
  end.
End trampoline.

Definition trampoline (source destination : Z) (original : list Z) : result (list Z) :=
  aligned source;;
  aligned destination;;
  if (length original =? 0)%nat || negb (length original mod 4 =? 0)%nat then Err InvalidRange else
  continuation ← ok_or InvalidRange (checked_add source (Z.of_nat (length original)));
  b ← copy_loop source destination continuation (length original) (chunks original) 0
        (mkBuffers (le_bytes 4 BTI) [] []);
  output ← patch_loop source destination continuation (positions b) (branches b) (output b);
  next ← ok_or InvalidRange (checked_add destination (Z.of_nat (length output)));
  back ← jump next continuation;
  Ok (output ++ back).
