(* ===== verification/Arm64Exec.v ===== *)
(** * What AArch64 code does

    The execution model behind the theorems of [Arm64]: the instructions the
    trampoline rewrites or emits, as the Arm architecture documents them.
    Every other instruction is the parameter [plain], which does not see the
    program counter. *)

From S2P Require Import Prelude Errors Arm64.

#[local] Open Scope Z_scope.
#[local] Set Default Proof Using "Type*".

Definition wrap (z : Z) : Z := z mod 2 ^ 64.
(** [len] bits of [w] from bit [lo]. *)
Definition field (w lo len : Z) : Z := Z.land (Z.shiftr w lo) (Z.ones len).

(** Registers, flags, memory, and the state the model does not look into. *)
Record core (V : Type) := mkCore {
  regs : gmap Z Z;
  flags : bool * bool * bool * bool;
  mem : Z → Z;
  rest : V }.
Arguments mkCore {V}. Arguments regs {V}. Arguments flags {V}.
Arguments mem {V}. Arguments rest {V}.

(** Where execution goes on. *)
Inductive succ := Next | Goto (target : Z) | Indirect (target : Z).

(** [ConditionHolds] on N, Z, C, V. *)
Definition condition (cond : Z) (f : bool * bool * bool * bool) : bool :=
  let '(n, z, c, v) := f in
  let base := match cond / 2 with
              | 0 => z | 1 => c | 2 => n | 3 => v
              | 4 => c && negb z | 5 => eqb n v | 6 => eqb n v && negb z
              | _ => true
              end in
  if Z.odd cond && negb (cond =? 15) then negb base else base.

Section exec.
Context {V : Type}.
(** The instructions that are not modelled: the state after them, and the
    target of an indirect branch. *)
Context (plain : Z → core V → core V * option Z).
(** A SIMD literal load: the instruction without its offset, and the address. *)
Context (simd_load : Z → Z → core V → core V).
Implicit Types c : core V.

(** Register 31 reads as zero, and writes to it are lost. *)
Definition get (r : Z) c : Z := if r =? 31 then 0 else default 0 (regs c !! r).
Definition set (r v : Z) c : core V :=
  if r =? 31 then c else mkCore (<[r := v]> (regs c)) (flags c) (mem c) (rest c).

Definition load (n : Z) (a : Z) c : Z :=
  little_endian_to_Z 8 ((λ k, mem c (wrap (a + k))) <$> seqZ 0 n).

(** [LDR Wt], [LDR Xt], [LDRSW Xt]; [PRFM] has no effect. *)
Definition load_register (operation r a : Z) c : core V :=
  if operation =? 0 then set r (load 4 a c) c
  else if operation =? 1 then set r (load 8 a c) c
  else if operation =? 2 then set r (wrap (to_signed 32 (load 4 a c))) c
  else c.

Definition movk (old hw imm : Z) : Z :=
  Z.lor (Z.ldiff old (Z.shiftl 0xffff (16 * hw))) (Z.shiftl imm (16 * hw)).

Definition literal (w pc : Z) : Z := wrap (pc + 4 * to_signed 19 (field w 5 19)).

(** The number of the bit [TBZ] tests. *)
Definition test_bit (w : Z) : Z := Z.b2z (Z.testbit w 31) * 32 + field w 19 5.

(** One instruction at [pc]. *)
Definition exec (w pc : Z) c : core V * succ :=
  if matches w 0x7c000000 0x14000000 then (* B, BL *)
    (if Z.testbit w 31 then set 30 (wrap (pc + 4)) c else c,
     Goto (wrap (pc + 4 * to_signed 26 (field w 0 26))))
  else if matches w 0xff000010 0x54000000 then (* B.cond *)
    (c, if condition (field w 0 4) (flags c) then Goto (literal w pc) else Next)
  else if matches w 0x7e000000 0x34000000 then (* CBZ, CBNZ *)
    let x := get (field w 0 5) c in
    let x := if Z.testbit w 31 then x else x mod 2 ^ 32 in
    (c, if xorb (x =? 0) (Z.testbit w 24) then Goto (literal w pc) else Next)
  else if matches w 0x7e000000 0x36000000 then (* TBZ, TBNZ *)
    (c, if xorb (negb (Z.testbit (get (field w 0 5) c) (test_bit w))) (Z.testbit w 24)
        then Goto (wrap (pc + 4 * to_signed 14 (field w 5 14))) else Next)
  else if matches w 0x1f000000 0x10000000 then (* ADR, ADRP *)
    let imm := to_signed 21 (4 * field w 5 19 + field w 29 2) in
    (set (field w 0 5)
       (wrap (if Z.testbit w 31 then 4096 * (pc / 4096) + 4096 * imm else pc + imm)) c, Next)
  else if matches w 0x3b000000 0x18000000 then (* LDR, LDRSW, PRFM (literal) *)
    (if Z.testbit w 26 then simd_load (Z.land w (not32 0x00ffffe0)) (literal w pc) c
     else load_register (field w 30 2) (field w 0 5) (literal w pc) c, Next)
  else if matches w 0xfffffc1f 0xd63f0000 then (* BLR *)
    (set 30 (wrap (pc + 4)) c, Indirect (get (field w 5 5) c))
  else if matches w 0xfffffc1f 0xd61f0000 then (* BR *)
    (c, Indirect (get (field w 5 5) c))
  else if matches w 0xff800000 0xd2800000 then (* MOVZ *)
    (set (field w 0 5) (Z.shiftl (field w 5 16) (16 * field w 21 2)) c, Next)
  else if matches w 0xff800000 0xf2800000 then (* MOVK *)
    (set (field w 0 5) (movk (get (field w 0 5) c) (field w 21 2) (field w 5 16)) c, Next)
  else if matches w 0xfffffc00 0xb9400000 && negb (field w 5 5 =? 31) then (* LDR Wt, [Xn] *)
    (load_register 0 (field w 0 5) (get (field w 5 5) c) c, Next)
  else if matches w 0xfffffc00 0xf9400000 && negb (field w 5 5 =? 31) then (* LDR Xt, [Xn] *)
    (load_register 1 (field w 0 5) (get (field w 5 5) c) c, Next)
  else if matches w 0xfffffc00 0xb9800000 && negb (field w 5 5 =? 31) then (* LDRSW Xt, [Xn] *)
    (load_register 2 (field w 0 5) (get (field w 5 5) c) c, Next)
  else if (w =? NOP) || matches w 0xffffff3f 0xd503241f then (* NOP, BTI *)
    (c, Next)
  else
    let '(c', target) := plain w c in
    (c', match target with Some target => Indirect target | None => Next end).

(** ** Running code at an address *)

Definition fetch (base : Z) (code : list Z) (pc : Z) : option Z :=
  if base <=? pc then
    match word (drop (Z.to_nat (pc - base)) code) with Ok w => Some w | _ => None end
  else None.

Definition go (pc : Z) (k : succ) : Z :=
  match k with Next => pc + 4 | Goto t | Indirect t => t end.

Fixpoint run (base : Z) (code : list Z) (n : nat) (pc : Z) c : option (Z * core V) :=
  match n with
  | O => Some (pc, c)
  | S n =>
      w ← fetch base code pc;
      let '(c', k) := exec w pc c in
      run base code n (go pc k) c'
  end.

Lemma run_app base code n m pc c pc' c' :
  run base code n pc c = Some (pc', c') →
  run base code (n + m) pc c = run base code m pc' c'.
Proof.
  revert pc c. induction n as [|n IH]; intros pc c; [by intros [= -> ->]|]. simpl.
  destruct (fetch base code pc) as [w|]; simpl; [|done].
  destruct (exec w pc c) as [c1 k]. apply IH.
Qed.
End exec.

(** ** Words *)

Lemma land_part w F V m : Z.land w F = V → Z.land m F = m → Z.land w m = Z.land V m.
Proof. intros <- Hm. rewrite <-Hm at 1. rewrite (Z.land_comm m), Z.land_assoc. done. Qed.

(** Fixed bits that do not fit a pattern rule it out. *)
Lemma matches_clash w F V m c :
  Z.land w F = V → (Z.land V m =? Z.land c F) = false → matches w m c = false.
Proof.
  intros <- Hne%Z.eqb_neq. unfold matches. apply Z.eqb_neq. intros <-. apply Hne.
  rewrite <-!Z.land_assoc. by rewrite (Z.land_comm m).
Qed.

Lemma matches_part w F V m c :
  Z.land w F = V → Z.land m F = m → (Z.land V m =? c) = true → matches w m c = true.
Proof. intros H Hm Hc. unfold matches. by rewrite (land_part _ _ _ _ H Hm). Qed.

Lemma matches_eq w m c : matches w m c = true ↔ Z.land w m = c.
Proof. apply Z.eqb_eq. Qed.

Lemma land_bit w F V n : Z.land w F = V → Z.testbit F n = true → Z.testbit w n = Z.testbit V n.
Proof. intros <- Hn. by rewrite Z.land_spec, Hn, andb_true_r. Qed.

Lemma small_bit d k n : 0 ≤ d < 2 ^ k → 0 ≤ k ≤ n → Z.testbit d n = false.
Proof.
  intros Hd Hn. rewrite <-(Z.mod_small d (2 ^ k)) by done. by apply Z.mod_pow2_bits_high.
Qed.

Lemma bits_32 a b :
  0 ≤ a < 2 ^ 32 → 0 ≤ b < 2 ^ 32 →
  Forall (λ n, Z.testbit a n = Z.testbit b n) (seqZ 0 32) → a = b.
Proof.
  intros Ha Hb Hall. rewrite Forall_forall in Hall. apply Z.bits_inj'. intros n Hn.
  destruct (decide (n < 32)).
  - apply Hall, elem_of_seqZ. lia.
  - by rewrite (small_bit a 32 n Ha ltac:(lia)), (small_bit b 32 n Hb ltac:(lia)).
Qed.

Lemma land_range a m k : 0 ≤ k → 0 ≤ m < 2 ^ k → 0 ≤ Z.land a m < 2 ^ k.
Proof.
  intros Hk Hm.
  assert (Z.land a m = Z.land a m mod 2 ^ k) as ->.
  { apply Z.bits_inj'. intros n Hn. destruct (decide (n < k)).
    - by rewrite Z.mod_pow2_bits_low.
    - rewrite Z.mod_pow2_bits_high by lia. by rewrite Z.land_spec, (small_bit m k n Hm ltac:(lia)), andb_false_r. }
  apply Z.mod_pos_bound. lia.
Qed.

Lemma field_range w lo len : 0 ≤ len → 0 ≤ field w lo len < 2 ^ len.
Proof.
  intros. unfold field. rewrite Z.land_ones by done. apply Z.mod_pos_bound. lia.
Qed.

Lemma field_bit w lo len n :
  0 ≤ n → 0 ≤ lo → Z.testbit (field w lo len) n = Z.testbit w (n + lo) && Z.testbit (Z.ones len) n.
Proof. intros. unfold field. by rewrite Z.land_spec, Z.shiftr_spec. Qed.

(** Equalities of words, one bit at a time: above bit 31 every bit is clear;
    below, constants, fixed bits and small fields are known. *)
Ltac push_bits :=
  repeat first
    [ rewrite Z.land_spec | rewrite Z.lor_spec | rewrite Z.lxor_spec
    | rewrite field_bit by lia | rewrite Z.shiftl_spec by lia | rewrite Z.shiftr_spec by lia ].

Ltac known_bits :=
  repeat match goal with
  | |- context [Z.testbit (Zpos ?p) (Zpos ?n)] =>
      let b := eval vm_compute in (Z.testbit (Zpos p) (Zpos n)) in
      change (Z.testbit (Zpos p) (Zpos n)) with b
  | |- context [Z.testbit (Zpos ?p) 0] =>
      let b := eval vm_compute in (Z.testbit (Zpos p) 0) in
      change (Z.testbit (Zpos p) 0) with b
  | |- context [Z.testbit ?x (Zneg ?n)] => rewrite (Z.testbit_neg_r x (Zneg n)) by lia
  | |- context [Z.testbit (Zpos ?p) ?n] => rewrite (small_bit (Zpos p) 32 n) by lia
  | H : Z.land ?x ?F = ?V |- context [Z.testbit ?x ?n] =>
      rewrite (land_bit x F V n H) by (vm_compute; reflexivity)
  | H : 0 ≤ ?x < 2 ^ ?k |- context [Z.testbit ?x ?n] => rewrite (small_bit x k n H) by lia
  end.

Ltac known_words :=
  repeat match goal with
  | |- context [Z.ones (Zpos ?k)] =>
      let x := eval vm_compute in (Z.ones (Zpos k)) in change (Z.ones (Zpos k)) with x
  | |- context [Z.shiftl (Zpos ?a) (Zpos ?k)] =>
      let x := eval vm_compute in (Z.shiftl (Zpos a) (Zpos k)) in
      change (Z.shiftl (Zpos a) (Zpos k)) with x
  | |- context [Z.lxor (Zpos ?a) (Zpos ?b)] =>
      let x := eval vm_compute in (Z.lxor (Zpos a) (Zpos b)) in
      change (Z.lxor (Zpos a) (Zpos b)) with x
  end.

Ltac ground x := lazymatch x with Z0 => idtac | Zpos _ => idtac | Zneg _ => idtac end.

Ltac known_positions :=
  repeat match goal with
  | |- context [Z.testbit ?x (?a + ?b)] =>
      ground a; ground b;
      let n := eval vm_compute in (a + b) in change (Z.testbit x (a + b)) with (Z.testbit x n)
  | |- context [Z.testbit ?x (?a + ?b - ?c)] =>
      ground a; ground b; ground c;
      let n := eval vm_compute in (a + b - c) in
      change (Z.testbit x (a + b - c)) with (Z.testbit x n)
  | |- context [Z.testbit ?x (?a - ?b)] =>
      ground a; ground b;
      let n := eval vm_compute in (a - b) in change (Z.testbit x (a - b)) with (Z.testbit x n)
  end.

Ltac solve_bits :=
  push_bits; known_words; known_positions;
  known_bits;
  repeat match goal with |- context [Z.testbit ?x ?n] => destruct (Z.testbit x n) end;
  reflexivity.

Lemma bits_split a b :
  Forall (λ n, Z.testbit a n = Z.testbit b n) (seqZ 0 32) →
  (∀ n, 32 ≤ n → Z.testbit a n = Z.testbit b n) → a = b.
Proof.
  intros Hl Hh. rewrite Forall_forall in Hl. apply Z.bits_inj'. intros n Hn.
  destruct (decide (n < 32)); [|apply Hh; lia]. apply Hl, elem_of_seqZ. lia.
Qed.

Ltac word_bits :=
  apply bits_split;
  [ let l := eval vm_compute in (seqZ 0 32) in change (seqZ 0 32) with l;
    repeat (apply Forall_cons; split); [solve_bits..|by apply Forall_nil]
  | intros ? ?; solve_bits ].

(** The words the trampoline emits. *)
Lemma branch_fixed d : 0 ≤ d < 2 ^ 26 → Z.land (Z.lor 0x14000000 d) 0xfc000000 = 0x14000000.
Proof. intros Hd. word_bits. Qed.
Lemma branch_offset d : 0 ≤ d < 2 ^ 26 → field (Z.lor 0x14000000 d) 0 26 = d.
Proof. intros Hd. word_bits. Qed.

(** A conditional branch over the next instruction, with the opposite
    condition. *)
Definition skip_unless (mask flip w : Z) : Z :=
  Z.lor (Z.lxor (Z.land w (not32 mask)) flip) 64.
Definition mask19 : Z := 0xffffe0.
Definition mask14 : Z := 0x7ffe0.

Section words.
Context (w : Z) (Hw : 0 ≤ w < 2 ^ 32).

Ltac show_word := unfold skip_unless, not32, mask19, mask14; known_words; word_bits.

Lemma cond_fixed : Z.land w 0xff000010 = 0x54000000 →
  Z.land (skip_unless mask19 1 w) 0xff000010 = 0x54000000.
Proof. intros Hf. show_word. Qed.
Lemma cond_code : field (skip_unless mask19 1 w) 0 4 = Z.lxor (field w 0 4) 1.
Proof. show_word. Qed.
Lemma cond_offset flip : flip = 1 ∨ flip = 0x1000000 → field (skip_unless mask19 flip w) 5 19 = 2.
Proof. intros [->| ->]; show_word. Qed.

Lemma compare_fixed : Z.land w 0x7e000000 = 0x34000000 →
  Z.land (skip_unless mask19 0x1000000 w) 0x7e000000 = 0x34000000.
Proof. intros Hf. show_word. Qed.
Lemma compare_register mask : mask = mask19 ∨ mask = mask14 →
  field (skip_unless mask 0x1000000 w) 0 5 = field w 0 5.
Proof. intros [->| ->]; show_word. Qed.

Lemma test_fixed : Z.land w 0x7e000000 = 0x36000000 →
  Z.land (skip_unless mask14 0x1000000 w) 0x7e000000 = 0x36000000.
Proof. intros Hf. show_word. Qed.
Lemma test_offset : field (skip_unless mask14 0x1000000 w) 5 14 = 2.
Proof. show_word. Qed.
Lemma test_number : field (skip_unless mask14 0x1000000 w) 19 5 = field w 19 5.
Proof. show_word. Qed.

Ltac one_bit := unfold skip_unless, not32, mask19, mask14; known_words; solve_bits.

Lemma skip_op mask : mask = mask19 ∨ mask = mask14 →
  Z.testbit (skip_unless mask 0x1000000 w) 24 = negb (Z.testbit w 24).
Proof. intros [->| ->]; one_bit. Qed.
Lemma skip_wide mask : mask = mask19 ∨ mask = mask14 →
  Z.testbit (skip_unless mask 0x1000000 w) 31 = Z.testbit w 31.
Proof. intros [->| ->]; one_bit. Qed.

(** A literal load with another offset. *)
Definition reload (d : Z) : Z := Z.lor (Z.land w (not32 0x00ffffe0)) (Z.shiftl d 5).

Lemma literal_fixed d : 0 ≤ d < 2 ^ 19 → Z.land w 0x3b000000 = 0x18000000 →
  Z.land (reload d) 0x3b000000 = 0x18000000.
Proof. intros Hd Hf. unfold reload. show_word. Qed.
Lemma literal_offset d : 0 ≤ d < 2 ^ 19 → field (reload d) 5 19 = d.
Proof. intros Hd. unfold reload. show_word. Qed.
Lemma literal_rest d : 0 ≤ d < 2 ^ 19 →
  Z.land (reload d) (not32 0x00ffffe0) = Z.land w (not32 0x00ffffe0).
Proof. intros Hd. unfold reload. show_word. Qed.

(** They are words. *)
Lemma word_range x : Z.land x 0xffffffff = x → 0 ≤ x < 2 ^ 32.
Proof. intros <-. apply land_range; lia. Qed.
Lemma skip_range mask flip :
  mask = mask19 ∨ mask = mask14 → flip = 1 ∨ flip = 0x1000000 →
  0 ≤ skip_unless mask flip w < 2 ^ 32.
Proof. intros [->| ->] [->| ->]; apply word_range; show_word. Qed.
Lemma literal_range d : 0 ≤ d < 2 ^ 19 → 0 ≤ reload d < 2 ^ 32.
Proof. intros Hd. apply word_range. unfold reload. show_word. Qed.

(** [BLR] made [BR]. *)
Lemma call_fixed : Z.land w 0xfffffc1f = 0xd63f0000 →
  Z.land (Z.land w (not32 (Z.shiftl 1 21))) 0xfffffc1f = 0xd61f0000.
Proof. intros Hf. change (Z.shiftl 1 21) with 0x200000. show_word. Qed.
Lemma call_register : field (Z.land w (not32 (Z.shiftl 1 21))) 5 5 = field w 5 5.
Proof. change (Z.shiftl 1 21) with 0x200000. show_word. Qed.
End words.

(** [MOVZ] and [MOVK]. *)
Section constants.
Context (r v : Z) (Hr : 0 ≤ r < 2 ^ 5).

Definition half_bits (h : Z) : Z := Z.land (Z.shiftr v (h * 16)) 0xffff.

Lemma constant_fixed h : h = 0 ∨ h = 1 ∨ h = 2 ∨ h = 3 →
  Z.land (constant_half r v h) 0xffe00000 =
  Z.lor (if h =? 0 then 0xd2800000 else 0xf2800000) (Z.shiftl h 21).
Proof.
  intros Hh. unfold constant_half. fold (half_bits h).
  pose proof (land_range (Z.shiftr v (h * 16)) 0xffff 16 ltac:(lia) ltac:(lia)) as Hx.
  fold (half_bits h) in Hx. set (x := half_bits h) in *. clearbody x.
  destruct Hh as [->|[->|[->| ->]]]; cbn [Z.eqb Pos.eqb];
    rewrite ?Z.shiftl_0_l, ?Z.lor_0_r; known_words; word_bits.
Qed.
Lemma constant_register h : h = 0 ∨ h = 1 ∨ h = 2 ∨ h = 3 → field (constant_half r v h) 0 5 = r.
Proof.
  intros Hh. unfold constant_half. fold (half_bits h).
  pose proof (land_range (Z.shiftr v (h * 16)) 0xffff 16 ltac:(lia) ltac:(lia)) as Hx.
  fold (half_bits h) in Hx. set (x := half_bits h) in *. clearbody x.
  destruct Hh as [->|[->|[->| ->]]]; cbn [Z.eqb Pos.eqb];
    rewrite ?Z.shiftl_0_l, ?Z.lor_0_r; known_words; word_bits.
Qed.
Lemma constant_value h : h = 0 ∨ h = 1 ∨ h = 2 ∨ h = 3 →
  field (constant_half r v h) 5 16 = half_bits h.
Proof.
  intros Hh. unfold constant_half. fold (half_bits h).
  pose proof (land_range (Z.shiftr v (h * 16)) 0xffff 16 ltac:(lia) ltac:(lia)) as Hx.
  fold (half_bits h) in Hx. set (x := half_bits h) in *. clearbody x.
  destruct Hh as [->|[->|[->| ->]]]; cbn [Z.eqb Pos.eqb];
    rewrite ?Z.shiftl_0_l, ?Z.lor_0_r; known_words; word_bits.
Qed.

Lemma constant_range h : h = 0 ∨ h = 1 ∨ h = 2 ∨ h = 3 → 0 ≤ constant_half r v h < 2 ^ 32.
Proof.
  intros Hh. cut (Z.land (constant_half r v h) 0xffffffff = constant_half r v h).
  { intros <-. apply land_range; lia. }
  unfold constant_half. fold (half_bits h).
  pose proof (land_range (Z.shiftr v (h * 16)) 0xffff 16 ltac:(lia) ltac:(lia)) as Hx.
  fold (half_bits h) in Hx. set (x := half_bits h) in *. clearbody x.
  destruct Hh as [->|[->|[->| ->]]]; cbn [Z.eqb Pos.eqb];
    rewrite ?Z.shiftl_0_l, ?Z.lor_0_r; known_words; word_bits.
Qed.

(** [LDR] from the address in the register. *)
Definition load_word (opcode : Z) : Z := Z.lor (Z.lor opcode (Z.shiftl r 5)) r.

Lemma load_fixed opcode : opcode = 0xb9400000 ∨ opcode = 0xf9400000 ∨ opcode = 0xb9800000 →
  Z.land (load_word opcode) 0xfffffc00 = opcode.
Proof. intros [->|[->| ->]]; unfold load_word; word_bits. Qed.
Lemma load_range opcode : opcode = 0xb9400000 ∨ opcode = 0xf9400000 ∨ opcode = 0xb9800000 →
  0 ≤ load_word opcode < 2 ^ 32.
Proof.
  intros Ho. cut (Z.land (load_word opcode) 0xffffffff = load_word opcode).
  { intros <-. apply land_range; lia. }
  destruct Ho as [->|[->| ->]]; unfold load_word; word_bits.
Qed.
Lemma load_target opcode : opcode = 0xb9400000 ∨ opcode = 0xf9400000 ∨ opcode = 0xb9800000 →
  field (load_word opcode) 0 5 = r.
Proof. intros [->|[->| ->]]; unfold load_word; word_bits. Qed.
Lemma load_base opcode : opcode = 0xb9400000 ∨ opcode = 0xf9400000 ∨ opcode = 0xb9800000 →
  field (load_word opcode) 5 5 = r.
Proof. intros [->|[->| ->]]; unfold load_word; word_bits. Qed.
End constants.

(** ** Offsets *)

Lemma signed_spec v bits : 0 < bits ≤ 32 → 0 ≤ v < 2 ^ bits → signed v bits = to_signed bits v.
Proof.
  intros Hb Hv. unfold signed, to_signed. set (k := 32 - bits).
  rewrite Z.shiftl_mul_pow2, Z.shiftr_div_pow2 by lia.
  assert (2 ^ 32 = 2 ^ bits * 2 ^ k) as E by (subst k; rewrite <-Z.pow_add_r by lia; f_equal; lia).
  assert (2 ^ bits = 2 * 2 ^ (bits - 1)) as Eb.
  { replace bits with (Z.succ (bits - 1)) at 1 by lia. rewrite Z.pow_succ_r by lia. lia. }
  assert (2 ^ (32 - 1) = 2 ^ (bits - 1) * 2 ^ k) as E1
    by (subst k; rewrite <-Z.pow_add_r by lia; f_equal; lia).
  pose proof (Z.pow_pos_nonneg 2 k ltac:(lia) ltac:(lia)) as Hk.
  rewrite E1, E. rewrite !(Z.mod_small _ _) by nia.
  destruct (Z.ltb_spec v (2 ^ (bits - 1))).
  - rewrite (proj2 (Z.ltb_lt _ _)) by nia. by rewrite Z.div_mul by lia.
  - rewrite (proj2 (Z.ltb_ge _ _)) by nia.
    replace (v * 2 ^ k - 2 ^ bits * 2 ^ k) with ((v - 2 ^ bits) * 2 ^ k) by lia.
    by rewrite Z.div_mul by lia.
Qed.

Lemma relative_Ok source target bits d :
  0 < bits ≤ 32 → relative source target bits = Ok d →
  0 ≤ d < 2 ^ bits ∧ target = source + 4 * to_signed bits d.
Proof.
  intros Hb. unfold relative.
  destruct (negb (Z.rem (target - source) 4 =? 0) || _ || _) eqn:Hc; [done|]. intros [= <-].
  apply orb_false_iff in Hc as [[Hrem Hlo]%orb_false_iff Hhi].
  apply negb_false_iff, Z.eqb_eq in Hrem. apply Z.ltb_ge in Hlo. apply Z.leb_gt in Hhi.
  pose proof (Z.quot_rem' (target - source) 4) as Hq. set (value := Z.quot (target - source) 4) in *.
  assert (Z.land (value mod 2 ^ 32) (2 ^ bits - 1) = value mod 2 ^ bits) as ->.
  { replace (2 ^ bits - 1) with (Z.ones bits) by (rewrite Z.ones_equiv; lia).
    rewrite Z.land_ones by lia. symmetry. apply Z.bits_inj'. intros n Hn.
    destruct (decide (n < bits)).
    - rewrite !Z.mod_pow2_bits_low by lia. done.
    - rewrite !Z.mod_pow2_bits_high by lia. done. }
  split; [apply Z.mod_pos_bound; lia|]. rewrite to_signed_id by lia. lia.
Qed.

Lemma wrap_id z : 0 ≤ z ≤ usize_max → wrap z = z.
Proof. unfold wrap, usize_max. intros. apply Z.mod_small. lia. Qed.

(** ** Running the emitted words *)

Section blocks.
Context {V : Type} (plain : Z → core V → core V * option Z) (simd_load : Z → Z → core V → core V).
Context (base : Z) (code : list Z).
Implicit Types c : core V.
Abbreviation exec := (exec plain simd_load).
Abbreviation run := (run plain simd_load base code).

Lemma set_set r x y c : set r x (set r y c) = set r x c.
Proof. unfold set. destruct (r =? 31); [done|]. simpl. by rewrite insert_insert_eq. Qed.

Lemma get_set r x c : r ≠ 31 → get r (set r x c) = x.
Proof.
  intros Hr. unfold get, set. rewrite (proj2 (Z.eqb_neq _ _) Hr). simpl.
  by rewrite lookup_insert_eq.
Qed.

Lemma run_step n w pc c :
  fetch base code pc = Some w →
  run (S n) pc c = let '(c', k) := exec w pc c in run n (go pc k) c'.
Proof. intros Hf. simpl. by rewrite Hf. Qed.

(** The bits of a halfword written over. *)
Lemma movk_bit old hw imm n :
  0 ≤ imm < 2 ^ 16 → 0 ≤ hw → 0 ≤ n →
  Z.testbit (movk old hw imm) n =
  if decide (16 * hw ≤ n < 16 * hw + 16) then Z.testbit imm (n - 16 * hw) else Z.testbit old n.
Proof.
  intros Hi Hh Hn. unfold movk. rewrite Z.lor_spec, Z.ldiff_spec, !Z.shiftl_spec by lia.
  change 0xffff with (Z.ones 16). case_decide.
  - rewrite Z.ones_spec_low by lia. simpl. by rewrite andb_false_r.
  - destruct (decide (n < 16 * hw)).
    + rewrite !(Z.testbit_neg_r _ (n - 16 * hw)) by lia. by rewrite andb_true_r, orb_false_r.
    + rewrite Z.ones_spec_high by lia. rewrite (small_bit imm 16 (n - 16 * hw) Hi) by lia.
      by rewrite andb_true_r, orb_false_r.
Qed.

Lemma half_bit v h n :
  0 ≤ n → 0 ≤ h → Z.testbit (half_bits v h) n = Z.testbit v (n + h * 16) && bool_decide (n < 16).
Proof.
  intros Hn Hh. unfold half_bits. change 0xffff with (Z.ones 16).
  rewrite Z.land_spec, Z.shiftr_spec by lia. f_equal. case_bool_decide.
  - by rewrite Z.ones_spec_low by lia.
  - by rewrite Z.ones_spec_high by lia.
Qed.

Lemma half_range v h : 0 ≤ half_bits v h < 2 ^ 16.
Proof. apply land_range; lia. Qed.

(** The four halves make up the constant. *)
Lemma constant_halves v :
  0 ≤ v ≤ usize_max →
  movk (movk (movk (Z.shiftl (half_bits v 0) (16 * 0)) 1 (half_bits v 1)) 2 (half_bits v 2)) 3
    (half_bits v 3) = v.
Proof.
  intros Hv. apply Z.bits_inj'. intros n Hn.
  rewrite !movk_bit by (try apply half_range; lia). rewrite Z.shiftl_0_r.
  repeat case_decide; rewrite half_bit by lia;
    try (rewrite bool_decide_true by lia; rewrite andb_true_r; f_equal; lia).
  destruct (decide (n < 16)).
  - rewrite bool_decide_true by lia. rewrite andb_true_r. f_equal. lia.
  - rewrite bool_decide_false by lia. rewrite andb_false_r. symmetry.
    apply (small_bit v 64); unfold usize_max in Hv; lia.
Qed.

(** Skip the patterns that the fixed bits [Hf] rule out. *)
Ltac skip_patterns Hf :=
  repeat (rewrite (matches_clash _ _ _ _ _ Hf) by (vm_compute; reflexivity); cbn [andb]).
Ltac hit_pattern Hf :=
  rewrite (matches_part _ _ _ _ _ Hf) by (vm_compute; reflexivity); cbn [andb].

Lemma exec_branch d pc c :
  0 ≤ d < 2 ^ 26 → exec (Z.lor 0x14000000 d) pc c = (c, Goto (wrap (pc + 4 * to_signed 26 d))).
Proof.
  intros Hd. pose proof (branch_fixed d Hd) as Hf. unfold Arm64Exec.exec. hit_pattern Hf.
  rewrite (land_bit _ _ _ 31 Hf) by (vm_compute; reflexivity). simpl.
  by rewrite branch_offset.
Qed.

Lemma exec_constant r v h pc c :
  0 ≤ r < 2 ^ 5 → h = 0 ∨ h = 1 ∨ h = 2 ∨ h = 3 →
  exec (constant_half r v h) pc c =
  (set r (if h =? 0 then Z.shiftl (half_bits v 0) (16 * 0)
          else movk (get r c) h (half_bits v h)) c, Next).
Proof.
  intros Hr Hh. pose proof (constant_fixed r v Hr h Hh) as Hf.
  pose proof (constant_register r v Hr h Hh) as Hreg. pose proof (constant_value r v Hr h Hh) as Hval.
  assert (field (constant_half r v h) 21 2 = h) as Hhw.
  { unfold field. apply Z.bits_inj'. intros n Hn. rewrite Z.land_spec, Z.shiftr_spec by lia.
    destruct (decide (n < 2)).
    - assert (n = 0 ∨ n = 1) as Hn01 by lia.
      destruct Hh as [->|[->|[->| ->]]], Hn01 as [->| ->];
        rewrite (land_bit _ _ _ _ Hf) by (vm_compute; reflexivity); vm_compute; reflexivity.
    - rewrite Z.ones_spec_high, andb_false_r by lia. symmetry. apply (small_bit h 2); lia. }
  unfold Arm64Exec.exec. rewrite Hreg, Hval, Hhw.
  destruct Hh as [->|[->|[->| ->]]]; skip_patterns Hf; hit_pattern Hf; done.
Qed.

(** A whole constant. *)
Lemma run_constant r v pc c :
  0 ≤ r < 2 ^ 5 → 0 ≤ v ≤ usize_max →
  (∀ h, 0 ≤ h < 4 → fetch base code (pc + 4 * h) = Some (constant_half r v h)) →
  run 4 pc c = Some (pc + 16, set r v c).
Proof.
  intros Hr Hv Hf.
  pose proof (Hf 0 ltac:(lia)) as F0. rewrite Z.add_0_r in F0.
  pose proof (Hf 1 ltac:(lia)) as F1. pose proof (Hf 2 ltac:(lia)) as F2.
  pose proof (Hf 3 ltac:(lia)) as F3.
  rewrite (run_step _ _ _ _ F0), exec_constant by auto. cbn [Z.eqb go].
  replace (pc + 4 * 1) with (pc + 4) in F1 by lia.
  rewrite (run_step _ _ _ _ F1), exec_constant by auto. cbn [Z.eqb go].
  replace (pc + 4 * 2) with (pc + 4 + 4) in F2 by lia.
  rewrite (run_step _ _ _ _ F2), exec_constant by auto. cbn [Z.eqb go].
  replace (pc + 4 * 3) with (pc + 4 + 4 + 4) in F3 by lia.
  rewrite (run_step _ _ _ _ F3), exec_constant by auto 10. cbn [Z.eqb go Arm64Exec.run].
  do 2 f_equal; [lia|]. rewrite !set_set. destruct (decide (r = 31)) as [->|Hne]; [done|].
  rewrite !get_set by done. by rewrite constant_halves.
Qed.

Lemma exec_load r opcode operation pc c :
  0 ≤ r < 31 →
  (operation, opcode) ∈ [(0, 0xb9400000); (1, 0xf9400000); (2, 0xb9800000)] →
  exec (load_word r opcode) pc c = (load_register operation r (get r c) c, Next).
Proof.
  intros Hr Hop.
  assert (opcode = 0xb9400000 ∨ opcode = 0xf9400000 ∨ opcode = 0xb9800000) as Ho.
  { rewrite !elem_of_cons, elem_of_nil in Hop. naive_solver. }
  pose proof (load_fixed r ltac:(lia) opcode Ho) as Hf.
  pose proof (load_target r ltac:(lia) opcode Ho) as Ht.
  pose proof (load_base r ltac:(lia) opcode Ho) as Hb.
  unfold Arm64Exec.exec. rewrite Ht, Hb. rewrite (proj2 (Z.eqb_neq r 31)) by lia.
  rewrite !elem_of_cons, elem_of_nil in Hop.
  destruct Hop as [[= -> ->]|[[= -> ->]|[[= -> ->]|[]]]]; skip_patterns Hf; hit_pattern Hf; done.
Qed.

Lemma exec_hint w pc c : w = NOP ∨ w = BTI → exec w pc c = (c, Next).
Proof. intros [->| ->]; reflexivity. Qed.
End blocks.
