(* ===== verification/Arm64Copy.v ===== *)
(** * The AArch64 trampoline does what the saved entry does

    Each saved instruction becomes a block of words.  [simulates] says that
    running the block has the effect of the instruction at its old address;
    the theorem at the end puts the blocks together. *)

From S2P Require Import Prelude Errors X86 Arm64 Arm64Exec.

#[local] Open Scope Z_scope.
#[local] Set Default Proof Using "Type*".

(** ** Blocks of words *)

(** A word, or a branch whose target is filled in later. *)
Inductive piece := Word (w : Z) | Branch (target : Z).

Definition first_word (p : piece) : Z :=
  match p with Word w => w | Branch _ => 0x14000000 end.
Definition piece_ok (p : piece) : Prop :=
  match p with Word w => 0 ≤ w < 2 ^ 32 | Branch t => 0 ≤ t ≤ usize_max end.

Definition flat (ws : list Z) : list Z := concat (le_bytes 4 <$> ws).

(** The branches of a block that starts at offset [o]. *)
Fixpoint slots (o : nat) (ps : list piece) : list (nat * Z) :=
  match ps with
  | [] => []
  | Word _ :: ps => slots (o + 4) ps
  | Branch t :: ps => (o, t) :: slots (o + 4) ps
  end.

Lemma flat_app ws ws' : flat (ws ++ ws') = flat ws ++ flat ws'.
Proof. unfold flat. by rewrite fmap_app, concat_app. Qed.

Lemma length_flat ws : length (flat ws) = (4 * length ws)%nat.
Proof.
  induction ws as [|w ws IH]; [done|].
  change (flat (w :: ws)) with (le_bytes 4 w ++ flat ws).
  rewrite length_app, IH, length_le_bytes by lia. simpl. lia.
Qed.

Lemma slots_app o ps ps' : slots o (ps ++ ps') = slots o ps ++ slots (o + 4 * length ps) ps'.
Proof.
  revert o. induction ps as [|[w|t] ps IH]; intros o; simpl.
  - f_equal. lia.
  - rewrite IH. do 2 f_equal. lia.
  - rewrite IH. do 3 f_equal. lia.
Qed.

Lemma slots_words o ws : slots o (Word <$> ws) = [].
Proof. revert o. induction ws; simpl; auto. Qed.

Lemma emit_flat out w : emit out w = out ++ flat [w].
Proof. unfold emit, flat. by rewrite fmap_cons, fmap_nil, concat_cons, app_nil_r. Qed.

Lemma emits_flat out ws : foldl emit out ws = out ++ flat ws.
Proof.
  revert out. induction ws as [|w ws IH]; intros out; simpl; [by rewrite app_nil_r|].
  rewrite IH, emit_flat, <-app_assoc, <-flat_app. done.
Qed.

Definition constant_words (r v : Z) : list Z := constant_half r v <$> [0; 1; 2; 3].

Lemma constant_flat out r v : constant out r v = out ++ flat (constant_words r v).
Proof. rewrite <-emits_flat. done. Qed.

(** [b'] is [b] with the block of one instruction. *)
Definition extends (b : buffers) (ps : list piece) (b' : buffers) : Prop :=
  output b' = output b ++ flat (first_word <$> ps) ∧
  positions b' = positions b ∧
  branches b' = branches b ++ slots (length (output b)) ps.

Lemma extends_nil b : extends b [] b.
Proof. split_and!; simpl; by rewrite ?app_nil_r. Qed.

Lemma extends_trans b1 b2 b3 ps qs :
  extends b1 ps b2 → extends b2 qs b3 → extends b1 (ps ++ qs) b3.
Proof.
  intros (Ho & Hp & Hb) (Ho' & Hp' & Hb'). split_and!.
  - by rewrite Ho', Ho, fmap_app, flat_app, app_assoc.
  - by rewrite Hp', Hp.
  - rewrite Hb', Hb, Ho, slots_app, <-app_assoc. do 3 f_equal.
    by rewrite length_app, length_flat, length_fmap.
Qed.

Lemma extends_push ws b : extends b (Word <$> ws) (push ws b).
Proof.
  split_and!; simpl; [|done|by rewrite slots_words, app_nil_r].
  rewrite emits_flat. by rewrite <-list_fmap_compose, list_fmap_id.
Qed.

Lemma extends_constant r v b :
  extends b (Word <$> constant_words r v) (push_constant r v b).
Proof.
  split_and!; simpl; [|done|by rewrite app_nil_r]. by rewrite constant_flat.
Qed.

Lemma extends_branch t b : extends b [Branch t] (push_branch t b).
Proof. split_and!; simpl; [apply emit_flat|done|done]. Qed.

(** ** Running a block *)

Section simulates.
Context {V : Type} (plain : Z → core V → core V * option Z) (simd_load : Z → Z → core V → core V).
Implicit Types c : core V.
Abbreviation exec := (exec plain simd_load).

(** The block lies at [here], with its branches going where [goal] says. *)
Definition placed (base : Z) (code : list Z) (goal : Z → Z) (here : Z) (ps : list piece) : Prop :=
  ∀ i p, ps !! i = Some p →
    match p with
    | Word w => fetch base code (here + 4 * Z.of_nat i) = Some w
    | Branch t => ∃ d, 0 ≤ d < 2 ^ 26 ∧ 0 ≤ goal t ≤ usize_max ∧
        fetch base code (here + 4 * Z.of_nat i) = Some (Z.lor 0x14000000 d) ∧
        here + 4 * Z.of_nat i + 4 * to_signed 26 d = goal t
    end.

(** Where the copy is after an instruction. *)
Definition landing (goal : Z → Z) (after : Z) (k : succ) : Z :=
  match k with Next => after | Goto t => goal t | Indirect t => t end.

(** Running the block at [here] is executing [w] at [pc]. *)
Definition simulates (w pc here : Z) (ps : list piece) : Prop :=
  ∀ base code goal c,
    placed base code goal here ps → here + 4 * Z.of_nat (length ps) ≤ usize_max →
    ∃ n, run plain simd_load base code n here c =
      Some (landing goal (here + 4 * Z.of_nat (length ps)) (exec w pc c).2, (exec w pc c).1).

Lemma placed_app base code goal here ps qs :
  placed base code goal here (ps ++ qs) →
  placed base code goal here ps ∧
  placed base code goal (here + 4 * Z.of_nat (length ps)) qs.
Proof.
  intros Hp. split; intros i p Hi.
  - apply Hp. by apply lookup_app_l_Some.
  - specialize (Hp (length ps + i)%nat p). rewrite lookup_app_r, Nat.add_sub' in Hp by lia.
    specialize (Hp Hi).
    replace (here + 4 * Z.of_nat (length ps) + 4 * Z.of_nat i)
      with (here + 4 * Z.of_nat (length ps + i)) by lia. done.
Qed.

Lemma placed_word base code goal here w ps :
  placed base code goal here (Word w :: ps) → fetch base code here = Some w.
Proof. intros Hp. specialize (Hp 0%nat _ eq_refl). simpl in Hp. by rewrite Z.add_0_r in Hp. Qed.

Lemma run_branch base code goal here t ps c :
  placed base code goal here (Branch t :: ps) →
  run plain simd_load base code 1 here c = Some (goal t, c).
Proof.
  intros Hp. destruct (Hp 0%nat _ eq_refl) as (d & Hd & Hg & Hf & Ht).
  rewrite Z.add_0_r in *. rewrite (run_step _ _ _ _ _ _ _ _ Hf), exec_branch by done. simpl.
  by rewrite Ht, wrap_id.
Qed.

Lemma run_constants base code goal here r v ps c :
  0 ≤ r < 2 ^ 5 → 0 ≤ v ≤ usize_max →
  placed base code goal here ((Word <$> constant_words r v) ++ ps) →
  run plain simd_load base code 4 here c = Some (here + 16, set r v c).
Proof.
  intros Hr Hv [Hp _]%placed_app. apply run_constant; [done..|]. intros h Hh.
  specialize (Hp (Z.to_nat h) (Word (constant_half r v h))).
  rewrite Z2Nat.id in Hp by lia. apply Hp.
  assert (h = 0 ∨ h = 1 ∨ h = 2 ∨ h = 3) as [->|[->|[->| ->]]] by lia; done.
Qed.

(** ** The source's way to take words apart *)

Lemma low_field w n : 0 ≤ n → Z.land w (Z.ones n) = field w 0 n.
Proof. intros. unfold field. by rewrite Z.shiftr_0_r. Qed.

Lemma mask_field w lo n :
  0 ≤ lo → 0 ≤ n → Z.shiftr (Z.land w (Z.shiftl (Z.shiftl 1 n - 1) lo)) lo = field w lo n.
Proof.
  intros Hlo Hn. unfold field. rewrite Z.shiftr_land. f_equal.
  rewrite Z.shiftr_shiftl_l by lia. rewrite Z.sub_diag, Z.shiftl_0_r, Z.shiftl_mul_pow2 by lia.
  rewrite Z.ones_equiv. lia.
Qed.

Lemma land_single w n : 0 ≤ n → negb (Z.land w (Z.shiftl 1 n) =? 0) = Z.testbit w n.
Proof.
  intros Hn. rewrite Z.shiftl_mul_pow2, Z.mul_1_l by done.
  destruct (Z.testbit w n) eqn:Hb.
  - apply negb_true_iff, Z.eqb_neq. intros Hz. apply (f_equal (λ z, Z.testbit z n)) in Hz.
    by rewrite Z.land_spec, Hb, Z.pow2_bits_true, Z.bits_0 in Hz.
  - apply negb_false_iff, Z.eqb_eq. apply Z.bits_inj'. intros m Hm.
    rewrite Z.land_spec, Z.bits_0. destruct (decide (m = n)) as [->|Hne]; [by rewrite Hb|].
    by rewrite Z.pow2_bits_false, andb_false_r.
Qed.

Lemma top_field w n : 0 ≤ n ≤ 32 → 0 ≤ w < 2 ^ 32 → Z.shiftr w n = field w n (32 - n).
Proof.
  intros Hn Hw. unfold field. rewrite Z.land_ones by lia.
  rewrite Z.mod_small; [done|]. rewrite Z.shiftr_div_pow2 by lia.
  assert (2 ^ 32 = 2 ^ (32 - n) * 2 ^ n) as E by (rewrite <-Z.pow_add_r by lia; f_equal; lia).
  split; [apply Z.div_pos; lia|]. apply Z.div_lt_upper_bound; lia.
Qed.

Lemma join_fields a b : 0 ≤ a → 0 ≤ b < 2 ^ 2 → Z.lor (Z.shiftl a 2) b = 4 * a + b.
Proof.
  intros Ha Hb. rewrite <-Z.add_nocarry_lor.
  - rewrite Z.shiftl_mul_pow2 by lia. lia.
  - apply Z.bits_inj'. intros n Hn. rewrite Z.land_spec, Z.shiftl_spec, Z.bits_0 by lia.
    destruct (decide (n < 2)).
    + by rewrite Z.testbit_neg_r by lia.
    + by rewrite (small_bit b 2 n Hb ltac:(lia)), andb_false_r.
Qed.

Lemma page_start a : Z.ldiff a (Z.ones 12) = 4096 * (a / 4096).
Proof.
  rewrite Z.ldiff_ones_r, Z.shiftl_mul_pow2, Z.shiftr_div_pow2 by lia.
  change (2 ^ 12) with 4096. lia.
Qed.

Lemma add_Ok a d t : add a d = Ok t → t = a + d ∧ 0 ≤ t ≤ usize_max.
Proof. unfold add. intros H. inv_ok. done. Qed.

Lemma constant_pieces_ok r v : 0 ≤ r < 2 ^ 5 → Forall piece_ok (Word <$> constant_words r v).
Proof.
  intros Hr. apply Forall_fmap, Forall_fmap. repeat constructor; apply constant_range; auto.
Qed.
End simulates.

(** ** One instruction at a time *)

(** The lowest bit of a condition negates it, but for the last two. *)
Lemma condition_flip cond f :
  0 ≤ cond < 14 → condition (Z.lxor cond 1) f = negb (condition cond f).
Proof.
  intros Hc. destruct f as [[[n z] cf] v].
  pose proof (seqZ_forallb 0 14 (λ x, forallb (λ f, eqb (condition (Z.lxor x 1) f)
    (negb (condition x f)))
    ((λ q, (Z.testbit q 0, Z.testbit q 1, Z.testbit q 2, Z.testbit q 3)) <$> seqZ 0 16))) as Hall.
  specialize (Hall ltac:(vm_compute; reflexivity) cond Hc). cbv beta in Hall.
  rewrite forallb_forall in Hall. apply eqb_prop, Hall. apply list_elem_of_In.
  apply list_elem_of_fmap.
  exists (Z.b2z n + 2 * Z.b2z z + 4 * Z.b2z cf + 8 * Z.b2z v).
  split; [by destruct n, z, cf, v|]. apply elem_of_seqZ. destruct n, z, cf, v; simpl; lia.
Qed.

Lemma condition_always cond f : 14 ≤ cond < 16 → condition cond f = true.
Proof.
  intros Hc. destruct f as [[[n z] cf] v].
  assert (cond = 14 ∨ cond = 15) as [->| ->] by lia; done.
Qed.

Section copy.
Context {V : Type} (plain : Z → core V → core V * option Z) (simd_load : Z → Z → core V → core V).
Context (source destination : Z) (total : nat).
Context (Hsource : 0 ≤ source) (Hend : source + Z.of_nat total ≤ usize_max).
Implicit Types c : core V.
Abbreviation exec := (exec plain simd_load).
Abbreviation run := (run plain simd_load).
Abbreviation continuation := (source + Z.of_nat total).

(** The buffers grew by a block that simulates [w] wherever it is placed. *)
Definition copied (w pc here : Z) (b b' : buffers) : Prop :=
  ∃ ps, extends b ps b' ∧ Forall piece_ok ps ∧ simulates plain simd_load w pc here ps.

Context (w : Z) (Hw : 0 ≤ w < 2 ^ 32) (off : nat) (Hoff : (off + 4 ≤ total)%nat).
Abbreviation pc := (source + Z.of_nat off).

Lemma copy_branch_run here b b' :
  matches w 0x7c000000 0x14000000 = true → 0 ≤ here →
  copy_branch source continuation total w off b = Ok b' → copied w pc here b b'.
Proof.
  intros Hm Hhere H. unfold copy_branch in H.
  change 0x03ffffff with (Z.ones 26) in H. rewrite low_field in H by lia.
  change 0x80000000 with (Z.shiftl 1 31) in H. rewrite land_single in H by lia.
  rewrite signed_spec in H by (try apply field_range; lia).
  apply bind_Ok_inv in H as (t & [-> Ht]%add_Ok & H).
  rewrite Z.mul_comm in *. set (t := pc + 4 * to_signed 26 (field w 0 26)) in *.
  assert (∀ c, exec w pc c =
    (if Z.testbit w 31 then set 30 (pc + 4) c else c, Goto t)) as Hexec.
  { intros c. unfold Arm64Exec.exec. rewrite Hm. fold t. by rewrite !wrap_id by lia. }
  destruct (Z.testbit w 31).
  - destruct (Nat.eqb_spec (off + 4) total) as [Heq|]; simpl in H; [|done].
    injection H as <-. exists ((Word <$> constant_words 30 continuation) ++ [Branch t]). split_and!.
    + eapply extends_trans; [apply extends_constant|apply extends_branch].
    + apply Forall_app. split; [by apply constant_pieces_ok|by apply Forall_singleton].
    + intros base code goal c Hp Hu. exists (4 + 1)%nat.
      rewrite (run_app _ _ _ _ _ _ _ _ _ _ (run_constants plain simd_load base code goal here 30
        continuation [Branch t] c ltac:(lia) ltac:(lia) Hp)).
      apply placed_app in Hp as [_ Hp]. rewrite Hexec. simpl landing. simpl fst.
      replace continuation with (pc + 4) by lia. by eapply run_branch.
  - simpl in H. injection H as <-. exists [Branch t]. split_and!.
    + apply extends_branch.
    + by apply Forall_singleton.
    + intros base code goal c Hp Hu. exists 1%nat. rewrite Hexec. by eapply run_branch.
Qed.

(** A conditional skip over a branch. *)
Lemma skip_simulates (skip t here : Z) (taken : core V → bool) :
  0 ≤ here → (∀ c, exec w pc c = (c, if taken c then Goto t else Next)) →
  (∀ c, here + 8 ≤ usize_max →
     exec skip here c = (c, if taken c then Next else Goto (here + 8))) →
  simulates plain simd_load w pc here [Word skip; Branch t].
Proof.
  intros Hhere Hexec Hskip base code goal c Hp Hu. simpl in Hu. rewrite Hexec.
  pose proof (placed_word _ _ _ _ _ _ Hp) as Hf.
  apply (placed_app _ _ _ _ [Word skip]) in Hp as [_ Hp]. simpl length in Hp.
  destruct (taken c) eqn:Ht; [exists 2%nat|exists 1%nat];
    rewrite (run_step _ _ _ _ _ _ _ _ Hf), Hskip, Ht by lia; simpl go.
  - replace (here + 4) with (here + 4 * Z.of_nat 1) by lia. by eapply run_branch.
  - simpl. reflexivity.
Qed.

(** The two pieces that replace a conditional branch: the inverted test over
    the next word, then the branch. *)
Lemma skip_copied mask bit t here b (taken : core V → bool) :
  (mask = mask19 ∨ mask = mask14) → (bit = 1 ∨ bit = 0x1000000) → 0 ≤ here →
  0 ≤ t ≤ usize_max →
  (∀ c, exec w pc c = (c, if taken c then Goto t else Next)) →
  (∀ c, here + 8 ≤ usize_max →
     exec (skip_unless mask bit w) here c = (c, if taken c then Next else Goto (here + 8))) →
  copied w pc here b (push_branch t (push [skip_unless mask bit w] b)).
Proof.
  intros Hmask Hbit Hhere Ht Hexec Hskip.
  exists [Word (skip_unless mask bit w); Branch t]. split_and!.
  - eapply (extends_trans _ _ _ [Word (skip_unless mask bit w)] [Branch t]);
      [apply (extends_push [_])|apply extends_branch].
  - constructor; [apply skip_range; auto|by apply Forall_singleton].
  - by apply (skip_simulates _ _ _ taken).
Qed.

(** [TBZ] and [TBNZ] with the sense inverted, over the next word. *)
Lemma skip_test_exec here c :
  matches w 0x7e000000 0x36000000 = true → 0 ≤ here → here + 8 ≤ usize_max →
  exec (skip_unless mask14 0x1000000 w) here c = (c,
    if xorb (negb (Z.testbit (get (field w 0 5) c) (test_bit w))) (Z.testbit w 24)
    then Next else Goto (here + 8)).
Proof.
  clear Hend Hsource Hoff. intros Htest Hhere Hu. apply matches_eq in Htest. pose proof (test_fixed w Hw Htest) as Hf.
  unfold Arm64Exec.exec.
  rewrite !(matches_clash _ _ _ _ _ Hf) by (vm_compute; reflexivity).
  rewrite (matches_part _ _ _ _ _ Hf) by (vm_compute; reflexivity).
  unfold test_bit. rewrite compare_register, test_number, test_offset, skip_op, skip_wide by auto.
  rewrite wrap_id by (change (to_signed 14 2) with 2; lia).
  change (to_signed 14 2) with 2. f_equal.
  by destruct (Z.testbit (get _ c) _), (Z.testbit w 24).
Qed.

(** [B.cond] with the condition inverted. *)
Lemma skip_cond_exec here c :
  matches w 0xff000010 0x54000000 = true → field w 0 4 < 14 → 0 ≤ here → here + 8 ≤ usize_max →
  exec (skip_unless mask19 1 w) here c = (c,
    if condition (field w 0 4) (flags c) then Next else Goto (here + 8)).
Proof.
  clear Hend Hsource Hoff. intros Hcond Hlt Hhere Hu. pose proof (field_range w 0 4 ltac:(lia)) as Hcf.
  apply matches_eq in Hcond. pose proof (cond_fixed w Hw Hcond) as Hf. unfold Arm64Exec.exec.
  rewrite !(matches_clash _ _ _ _ _ Hf) by (vm_compute; reflexivity).
  rewrite (matches_part _ _ _ _ _ Hf) by (vm_compute; reflexivity).
  unfold literal. rewrite cond_code, cond_offset by auto. rewrite condition_flip by lia.
  change (to_signed 19 2) with 2. rewrite wrap_id by lia.
  f_equal. by destruct (condition (field w 0 4) (flags c)).
Qed.

(** [CBZ] and [CBNZ] with the sense inverted. *)
Lemma skip_compare_exec here c :
  matches w 0x7e000000 0x34000000 = true → 0 ≤ here → here + 8 ≤ usize_max →
  exec (skip_unless mask19 0x1000000 w) here c = (c,
    if (let x := get (field w 0 5) c in
      xorb ((if Z.testbit w 31 then x else x mod 2 ^ 32) =? 0) (Z.testbit w 24))
    then Next else Goto (here + 8)).
Proof.
  clear Hend Hsource Hoff. intros Hcmp Hhere Hu. apply matches_eq in Hcmp. pose proof (compare_fixed w Hw Hcmp) as Hf.
  unfold Arm64Exec.exec.
  rewrite !(matches_clash _ _ _ _ _ Hf) by (vm_compute; reflexivity).
  rewrite (matches_part _ _ _ _ _ Hf) by (vm_compute; reflexivity).
  unfold literal. rewrite compare_register, cond_offset, skip_op, skip_wide by auto.
  change (to_signed 19 2) with 2. rewrite wrap_id by lia.
  f_equal. cbn zeta. by destruct (_ =? 0), (Z.testbit w 24).
Qed.

Lemma copy_conditional_run here b b' :
  matches w 0x7c000000 0x14000000 = false →
  matches w 0xff000010 0x54000000 || matches w 0x7e000000 0x34000000
    || matches w 0x7e000000 0x36000000 = true →
  0 ≤ here → copy_conditional source w off b = Ok b' → copied w pc here b b'.
Proof.
  intros HB Hm Hhere H. unfold copy_conditional in H.
  destruct (matches w 0x7e000000 0x36000000) eqn:Htest;
    rewrite mask_field in H by lia; rewrite signed_spec in H by (try apply field_range; lia);
    apply bind_Ok_inv in H as (t & [-> Ht]%add_Ok & H); rewrite Z.mul_comm in *.
  - pose proof Htest as Hf. apply matches_eq in Hf.
    assert (matches w 0xff000010 0x54000000 = false) as Hcond
      by by apply (matches_clash _ _ _ _ _ Hf).
    assert (matches w 0x7e000000 0x34000000 = false) as Hcmp
      by by apply (matches_clash _ _ _ _ _ Hf).
    rewrite Hcond in H. injection H as <-.
    set (t := pc + 4 * to_signed 14 (field w 5 14)) in *.
    apply (skip_copied mask14 0x1000000 _ _ _
      (λ c, xorb (negb (Z.testbit (get (field w 0 5) c) (test_bit w))) (Z.testbit w 24)));
      auto using skip_test_exec.
    intros c. unfold Arm64Exec.exec. rewrite HB, Hcond, Hcmp, Htest. fold t. by rewrite wrap_id.
  - set (t := pc + 4 * to_signed 19 (field w 5 19)) in *.
    assert (literal w pc = t) as Hlit by (unfold literal; fold t; by apply wrap_id).
    destruct (matches w 0xff000010 0x54000000) eqn:Hcond.
    + assert (∀ c, exec w pc c = (c, if condition (field w 0 4) (flags c) then Goto t else Next))
        as Hexec. { intros c. unfold Arm64Exec.exec. by rewrite HB, Hcond, Hlit. }
      change 15 with (Z.ones 4) in H. rewrite low_field in H by lia.
      destruct (Z.ltb_spec (field w 0 4) 14) as [Hlt|Hge]; injection H as <-.
      * apply (skip_copied mask19 1 _ _ _ (λ c, condition (field w 0 4) (flags c)));
          auto using skip_cond_exec.
      * exists [Branch t]. split_and!; [apply extends_branch|by apply Forall_singleton|].
        pose proof (field_range w 0 4 ltac:(lia)).
        intros base code goal c Hp Hu. exists 1%nat. rewrite Hexec, condition_always by lia.
        by eapply run_branch.
    + destruct (matches w 0x7e000000 0x34000000) eqn:Hcmp; [|done]. injection H as <-.
      apply (skip_copied mask19 0x1000000 _ _ _ (λ c, let x := get (field w 0 5) c in
        xorb ((if Z.testbit w 31 then x else x mod 2 ^ 32) =? 0) (Z.testbit w 24)));
        auto using skip_compare_exec.
      intros c. unfold Arm64Exec.exec. by rewrite HB, Hcond, Hcmp, Hlit.
Qed.

Lemma copy_address_run here b b' :
  matches w 0x1f000000 0x10000000 = true → 0 ≤ here →
  copy_address source w off b = Ok b' → copied w pc here b b'.
Proof.
  intros Hm Hhere H. unfold copy_address in H.
  change 0x80000000 with (Z.shiftl 1 31) in H. rewrite land_single in H by lia.
  change (Z.land (Z.shiftr w 5) 0x7ffff) with (field w 5 19) in H.
  change (Z.land (Z.shiftr w 29) 3) with (field w 29 2) in H.
  change (Z.land w 31) with (Z.land w (Z.ones 5)) in H. rewrite low_field in H by lia.
  pose proof (field_range w 5 19 ltac:(lia)). pose proof (field_range w 29 2 ltac:(lia)).
  rewrite join_fields, signed_spec in H by lia.
  set (imm := to_signed 21 (4 * field w 5 19 + field w 29 2)) in *.
  set (v := if Z.testbit w 31 then 4096 * (pc / 4096) + 4096 * imm else pc + imm).
  assert (0 ≤ v ≤ usize_max ∧ b' = push_constant (field w 0 5) v b) as [Hv ->].
  { subst v. change 4095 with (Z.ones 12) in H. rewrite page_start in H.
    destruct (Z.testbit w 31); apply bind_Ok_inv in H as (t & [-> Ht]%add_Ok & H);
      injection H as <-; split; try done; try lia. do 2 f_equal. lia. }
  exists (Word <$> constant_words (field w 0 5) v).
  pose proof (field_range w 0 5 ltac:(lia)) as Hr.
  split_and!; [apply extends_constant|by apply constant_pieces_ok|].
  intros base code goal c Hp Hu. exists 4%nat. rewrite <-(app_nil_r (Word <$> _)) in Hp.
  rewrite (run_constants plain simd_load base code goal here _ _ [] c Hr Hv Hp).
  unfold Arm64Exec.exec. apply matches_eq in Hm.
  rewrite !(matches_clash _ _ _ _ _ Hm) by (vm_compute; reflexivity).
  rewrite (matches_part _ _ _ _ _ Hm) by (vm_compute; reflexivity).
  cbn [fst snd landing]. fold imm. fold v. by rewrite wrap_id.
Qed.

(** Seen from the page: the near form. *)
Lemma reload_simulates here d :
  matches w 0x3b000000 0x18000000 = true → 0 ≤ here → 0 ≤ d < 2 ^ 19 →
  0 ≤ literal w pc ≤ usize_max → literal w pc = here + 4 * to_signed 19 d →
  simulates plain simd_load w pc here [Word (reload w d)].
Proof.
  intros Hm Hhere Hd Hl Hlit base code goal c Hp Hu. exists 1%nat.
  rewrite (run_step _ _ _ _ _ _ _ _ (placed_word _ _ _ _ _ _ Hp)).
  apply matches_eq in Hm. pose proof (literal_fixed w Hw d Hd Hm) as Hf.
  pose proof (literal_rest w Hw d Hd) as Hrest.
  assert (∀ lo len, 0 ≤ lo → Z.land (Z.shiftl (Z.ones len) lo) (not32 0x00ffffe0) =
      Z.shiftl (Z.ones len) lo → 0 ≤ len →
      field (reload w d) lo len = field w lo len) as Hfield.
  { intros lo len Hlo Hin Hlen. apply Z.bits_inj'. intros n Hn. rewrite !field_bit by done.
    destruct (Z.testbit (Z.ones len) n) eqn:Hone; [|by rewrite !andb_false_r].
    f_equal. pose proof (f_equal (λ z, Z.testbit z (n + lo)) Hrest) as Hb. cbv beta in Hb.
    pose proof (f_equal (λ z, Z.testbit z (n + lo)) Hin) as Hk. cbv beta in Hk.
    rewrite Z.land_spec, Z.shiftl_spec, Z.add_simpl_r, Hone in Hk by lia. simpl in Hk.
    by rewrite !Z.land_spec, Hk, !andb_true_r in Hb. }
  assert (Z.testbit (reload w d) 26 = Z.testbit w 26) as Hsimd.
  { pose proof (f_equal (λ z, Z.testbit z 26) Hrest) as Hb. cbv beta in Hb.
    rewrite !Z.land_spec in Hb. change (Z.testbit (not32 0x00ffffe0) 26) with true in Hb.
    by rewrite !andb_true_r in Hb. }
  unfold Arm64Exec.exec.
  rewrite !(matches_clash _ _ _ _ _ Hf) by (vm_compute; reflexivity).
  rewrite (matches_part _ _ _ _ _ Hf) by (vm_compute; reflexivity).
  rewrite !(matches_clash _ _ _ _ _ Hm) by (vm_compute; reflexivity).
  rewrite (matches_part _ _ _ _ _ Hm) by (vm_compute; reflexivity).
  assert (literal (reload w d) here = literal w pc) as ->.
  { unfold literal at 1. rewrite (literal_offset w Hw d Hd), <-Hlit. by apply wrap_id. }
  rewrite Hrest, Hsimd, (Hfield 30 2), (Hfield 0 5) by (lia || reflexivity).
  simpl go. cbn [Arm64Exec.run fst snd landing length]. done.
Qed.

(** The far form: load the address, then through it. *)
Lemma far_simulates here operation opcode :
  matches w 0x3b000000 0x18000000 = true → Z.testbit w 26 = false → field w 0 5 ≠ 31 →
  field w 30 2 = operation →
  (operation, opcode) ∈ [(0, 0xb9400000); (1, 0xf9400000); (2, 0xb9800000)] →
  0 ≤ here → 0 ≤ literal w pc ≤ usize_max →
  simulates plain simd_load w pc here
    ((Word <$> constant_words (field w 0 5) (literal w pc)) ++ [Word (load_word (field w 0 5) opcode)]).
Proof.
  intros Hm Hv Hr Hop Hin Hhere Hl base code goal c Hp Hu. exists (4 + 1)%nat.
  pose proof (field_range w 0 5 ltac:(lia)) as Hr5. change (2 ^ 5) with 32 in Hr5.
  rewrite (run_app _ _ _ _ _ _ _ _ _ _ (run_constants plain simd_load base code goal here _ _ _ c
    ltac:(done) Hl Hp)).
  apply placed_app in Hp as [_ Hp]. apply placed_word in Hp.
  change (here + 4 * Z.of_nat (length (Word <$> constant_words (field w 0 5) (literal w pc))))
    with (here + 16) in Hp.
  rewrite (run_step _ _ _ _ _ _ _ _ Hp).
  rewrite (exec_load _ _ _ _ operation) by (done || lia). rewrite get_set by done.
  apply matches_eq in Hm. unfold Arm64Exec.exec.
  rewrite !(matches_clash _ _ _ _ _ Hm) by (vm_compute; reflexivity).
  rewrite (matches_part _ _ _ _ _ Hm) by (vm_compute; reflexivity).
  rewrite Hv, Hop. cbn [fst snd landing go Arm64Exec.run]. do 2 f_equal.
  { rewrite length_app. simpl. lia. }
  rewrite !elem_of_cons, elem_of_nil in Hin. set (v := literal w pc).
  assert (∀ n, load n v (set (field w 0 5) v c) = load n v c) as Hload.
  { intros n. unfold load, set. by destruct (_ =? 31). }
  destruct Hin as [[= -> ->]|[[= -> ->]|[[= -> ->]|[]]]]; unfold load_register; simpl;
    by rewrite set_set, Hload.
Qed.

(** A prefetch is a hint. *)
Lemma prefetch_simulates here :
  matches w 0x3b000000 0x18000000 = true → Z.testbit w 26 = false → field w 30 2 = 3 →
  simulates plain simd_load w pc here [Word NOP].
Proof.
  intros Hm Hv H3 base code goal c Hp Hu. exists 1%nat.
  rewrite (run_step _ _ _ _ _ _ _ _ (placed_word _ _ _ _ _ _ Hp)), exec_hint by auto.
  apply matches_eq in Hm. unfold Arm64Exec.exec.
  rewrite !(matches_clash _ _ _ _ _ Hm) by (vm_compute; reflexivity).
  rewrite (matches_part _ _ _ _ _ Hm) by (vm_compute; reflexivity).
  by rewrite Hv, H3.
Qed.

Lemma copy_far_run here t b b' :
  matches w 0x3b000000 0x18000000 = true → 0 ≤ here → literal w pc = t → 0 ≤ t ≤ usize_max →
  (if negb (Z.land w (Z.shiftl 1 26) =? 0) || (Z.land w 31 =? 31) then Err InvalidRange
   else if Z.shiftr w 30 =? 3 then Ok (push [NOP] b)
   else
     opcode ← index [0xb9400000; 0xf9400000; 0xb9800000] (Z.to_nat (Z.shiftr w 30));
     Ok (push [Z.lor (Z.lor opcode (Z.shiftl (Z.land w 31) 5)) (Z.land w 31)]
           (push_constant (Z.land w 31) t b))) = Ok b' →
  copied w pc here b b'.
Proof.
  intros Hm Hhere Hlit Ht H. change (Z.land w 31) with (Z.land w (Z.ones 5)) in H.
  rewrite low_field in H by lia. rewrite (top_field w 30 ltac:(lia) Hw) in H.
  change (32 - 30) with 2 in H. rewrite land_single in H by lia.
  destruct (Z.testbit w 26) eqn:Hv; [done|].
  destruct (Z.eqb_spec (field w 0 5) 31) as [|Hr]; [done|]. cbn [orb] in H.
  pose proof (field_range w 30 2 ltac:(lia)) as Hop. pose proof (field_range w 0 5 ltac:(lia)) as Hr5.
  destruct (Z.eqb_spec (field w 30 2) 3) as [H3|H3].
  { injection H as <-. exists [Word NOP]. split_and!.
    - apply (extends_push [_]).
    - by apply Forall_singleton.
    - by apply prefetch_simulates. }
  apply bind_Ok_inv in H as (opcode & Hi & H). apply index_Ok in Hi. injection H as <-.
  assert ((field w 30 2, opcode) ∈ [(0, 0xb9400000); (1, 0xf9400000); (2, 0xb9800000)] ∧
    (opcode = 0xb9400000 ∨ opcode = 0xf9400000 ∨ opcode = 0xb9800000)) as [Hin Hopc].
  { assert (field w 30 2 = 0 ∨ field w 30 2 = 1 ∨ field w 30 2 = 2) as Hc by lia.
    destruct Hc as [Hc|[Hc|Hc]]; rewrite Hc in *; injection Hi as <-; rewrite !elem_of_cons; auto. }
  exists ((Word <$> constant_words (field w 0 5) t) ++ [Word (load_word (field w 0 5) opcode)]).
  split_and!.
  - eapply extends_trans; [apply extends_constant|apply (extends_push [_])].
  - apply Forall_app. split; [by apply constant_pieces_ok|]. apply Forall_singleton.
    by apply load_range.
  - rewrite <-Hlit. apply (far_simulates here (field w 30 2)); rewrite ?Hlit; done.
Qed.

Lemma copy_literal_run b b' :
  matches w 0x3b000000 0x18000000 = true → 0 ≤ destination →
  copy_literal source destination w off b = Ok b' →
  copied w pc (destination + Z.of_nat (length (output b))) b b'.
Proof.
  intros Hm Hdest H. unfold copy_literal in H.
  change (Z.land (Z.shiftr w 5) 0x7ffff) with (field w 5 19) in H.
  rewrite signed_spec in H by (try apply field_range; lia).
  apply bind_Ok_inv in H as (t & [Et Ht]%add_Ok & H).
  apply bind_Ok_inv in H as (next & Hn & H). apply ok_or_Ok, checked_add_Some in Hn as [-> Hn].
  set (here := destination + Z.of_nat (length (output b))) in *.
  assert (literal w pc = t) as Hlit.
  { unfold literal. rewrite Z.mul_comm, <-Et. by apply wrap_id. }
  destruct (relative here t 19) as [d|e|m|] eqn:Hrel.
  { apply relative_Ok in Hrel as [Hd Ed]; [|lia]. injection H as <-.
    exists [Word (reload w d)]. split_and!.
    - apply (extends_push [_]).
    - apply Forall_singleton. by apply literal_range.
    - apply reload_simulates; rewrite ?Hlit; try done. lia. }
  all: by eapply copy_far_run; [done|lia|..|exact H].
Qed.

Lemma copy_call_run here b b' :
  matches w 0xfffffc1f 0xd63f0000 = true → 0 ≤ here →
  copy_call continuation total w off b = Ok b' → copied w pc here b b'.
Proof.
  intros Hm Hhere H. unfold copy_call in H.
  change (Z.land (Z.shiftr w 5) 31) with (field w 5 5) in H.
  destruct (Nat.eqb_spec (off + 4) total) as [Heq|]; simpl in H; [|done].
  destruct (Z.eqb_spec (field w 5 5) 30) as [|Hr]; simpl in H; [done|]. injection H as <-.
  eexists. split_and!.
  - eapply extends_trans; [apply extends_constant|apply (extends_push [_])].
  - apply Forall_app. split; [by apply constant_pieces_ok|]. apply Forall_singleton. simpl.
    apply land_range; [lia|]. by vm_compute.
  - intros base code goal c Hp Hu. exists (4 + 1)%nat.
    rewrite (run_app _ _ _ _ _ _ _ _ _ _ (run_constants plain simd_load base code goal here 30
      continuation _ c ltac:(lia) ltac:(lia) Hp)).
    apply placed_app in Hp as [_ Hp]. apply placed_word in Hp.
    change (here + 4 * Z.of_nat (length (Word <$> constant_words 30 continuation)))
      with (here + 16) in Hp.
    rewrite (run_step _ _ _ _ _ _ _ _ Hp). apply matches_eq in Hm.
    pose proof (call_fixed w Hw Hm) as Hf. unfold Arm64Exec.exec.
    rewrite !(matches_clash _ _ _ _ _ Hf) by (vm_compute; reflexivity).
    rewrite (matches_part _ _ _ _ _ Hf) by (vm_compute; reflexivity).
    rewrite !(matches_clash _ _ _ _ _ Hm) by (vm_compute; reflexivity).
    rewrite (matches_part _ _ _ _ _ Hm) by (vm_compute; reflexivity).
    rewrite call_register by done. cbn [fst snd landing go Arm64Exec.run].
    do 2 f_equal.
    + unfold get, set. simpl. destruct (field w 5 5 =? 31); [done|]. simpl.
      by rewrite lookup_insert_ne by done.
    + f_equal. rewrite wrap_id by lia. lia.
Qed.

Lemma copy_other_run here b b' :
  matches w 0x7c000000 0x14000000 = false → matches w 0xff000010 0x54000000 = false →
  matches w 0x7e000000 0x34000000 = false → matches w 0x7e000000 0x36000000 = false →
  matches w 0x1f000000 0x10000000 = false → matches w 0x3b000000 0x18000000 = false →
  matches w 0xfffffc1f 0xd63f0000 = false →
  copy_other w b = Ok b' → copied w pc here b b'.
Proof.
  intros H1 H2 H3 H4 H5 H6 H7 H. unfold copy_other in H.
  destruct (matches w 0xff000000 0x54000000); [done|].
  destruct (_ && _ && _ && _); [done|]. injection H as <-. exists [Word w]. split_and!.
  - apply (extends_push [_]).
  - by apply Forall_singleton.
  - intros base code goal c Hp Hu. exists 1%nat.
    rewrite (run_step _ _ _ _ _ _ _ _ (placed_word _ _ _ _ _ _ Hp)).
    assert (exec w here c = exec w pc c) as ->.
    { unfold Arm64Exec.exec. by rewrite H1, H2, H3, H4, H5, H6, H7. }
    assert (∀ t, (exec w pc c).2 ≠ Goto t) as Hno.
    { intros t. unfold Arm64Exec.exec. rewrite H1, H2, H3, H4, H5, H6, H7.
      repeat case_match; simpl; try done; by destruct o. }
    destruct (exec w pc c) as [c' [|t|t]]; simpl in *; [done| |done]. by destruct (Hno t).
Qed.

Lemma copy_step_run bytes b b' :
  word bytes = Ok w → 0 ≤ destination →
  copy_step source destination continuation total bytes off b = Ok b' →
  ∃ ps, output b' = output b ++ flat (first_word <$> ps) ∧
    positions b' = positions b ++ [(off, length (output b))] ∧
    branches b' = branches b ++ slots (length (output b)) ps ∧ Forall piece_ok ps ∧
    simulates plain simd_load w pc (destination + Z.of_nat (length (output b))) ps.
Proof.
  intros Hword Hdest H. unfold copy_step in H. rewrite Hword in H.
  apply bind_Ok_inv in H as (w' & [= <-] & H). destruct (negb (valid w)); [done|].
  set (b1 := mkBuffers (output b) (positions b ++ [(off, length (output b))]) (branches b)) in *.
  assert (copied w pc (destination + Z.of_nat (length (output b1))) b1 b') as
    (ps & (Ho & Hp & Hb) & Hok & Hsim); [|by exists ps].
  assert (0 ≤ destination + Z.of_nat (length (output b1))) as Hhere by lia.
  destruct (matches w 0x7c000000 0x14000000) eqn:H1;
    [exact (copy_branch_run _ _ _ H1 Hhere H)|].
  destruct (matches w 0xff000010 0x54000000 || matches w 0x7e000000 0x34000000
    || matches w 0x7e000000 0x36000000) eqn:H2;
    [exact (copy_conditional_run _ _ _ H1 H2 Hhere H)|].
  apply orb_false_iff in H2 as [[H2 H3]%orb_false_iff H4].
  destruct (matches w 0x1f000000 0x10000000) eqn:H5;
    [exact (copy_address_run _ _ _ H5 Hhere H)|].
  destruct (matches w 0x3b000000 0x18000000) eqn:H6;
    [exact (copy_literal_run _ _ H6 Hdest H)|].
  destruct (matches w 0xfffffc1f 0xd63f0000) eqn:H7;
    [exact (copy_call_run _ _ _ H7 Hhere H)|].
  exact (copy_other_run _ _ _ H1 H2 H3 H4 H5 H6 H7 H).
Qed.
End copy.

(** ** All instructions *)

(** [positions]: the offsets of the instructions and of their blocks. *)
Fixpoint places (off out : nat) (blocks : list (list piece)) : list (nat * nat) :=
  match blocks with
  | [] => []
  | ps :: blocks => (off, out) :: places (off + 4) (out + 4 * length ps) blocks
  end.

(** Where the block of instruction [k] starts, in words. *)
Definition block_start (blocks : list (list piece)) (k : nat) : nat :=
  length (concat (take k blocks)).

Lemma places_find off out blocks x o p :
  find (λ e, Z.of_nat e.1 =? x) (places off out blocks) = Some (o, p) →
  ∃ k, (k < length blocks)%nat ∧ o = (off + 4 * k)%nat ∧ x = Z.of_nat o ∧
    p = (out + 4 * block_start blocks k)%nat.
Proof.
  revert off out. induction blocks as [|ps blocks IH]; intros off out; simpl; [done|].
  destruct (Z.eqb_spec (Z.of_nat off) x) as [E|].
  - intros [= <- <-]. exists 0%nat. unfold block_start. simpl. split_and!; lia.
  - intros (k & ? & ? & ? & ?)%IH. exists (S k). unfold block_start in *. simpl.
    rewrite length_app. split_and!; lia.
Qed.

Section loop.
Context {V : Type} (plain : Z → core V → core V * option Z) (simd_load : Z → Z → core V → core V).
Context (source destination : Z) (total : nat).
Context (Hsource : 0 ≤ source) (Hend : source + Z.of_nat total ≤ usize_max)
  (Hdest : 0 ≤ destination).
Abbreviation continuation := (source + Z.of_nat total).

Definition chunk_ok (bytes : list Z) : Prop := ∃ w, word bytes = Ok w ∧ 0 ≤ w < 2 ^ 32.

Lemma copy_loop_run ch off b b' :
  Forall chunk_ok ch → (off + 4 * length ch = total)%nat →
  copy_loop source destination continuation total ch off b = Ok b' →
  ∃ blocks, length blocks = length ch ∧
    output b' = output b ++ flat (first_word <$> concat blocks) ∧
    positions b' = positions b ++ places off (length (output b)) blocks ∧
    branches b' = branches b ++ slots (length (output b)) (concat blocks) ∧
    Forall piece_ok (concat blocks) ∧
    ∀ k bytes ps w, ch !! k = Some bytes → blocks !! k = Some ps → word bytes = Ok w →
      simulates plain simd_load w (source + Z.of_nat (off + 4 * k))
        (destination + Z.of_nat (length (output b) + 4 * block_start blocks k)) ps.
Proof.
  revert off b. induction ch as [|bytes ch IH]; intros off b Hall Hoff H.
  { injection H as <-. exists []. simpl. rewrite !app_nil_r. split_and!; try done. }
  apply Forall_cons in Hall as [(w & Hword & Hw) Hall']. cbn [copy_loop] in H.
  apply bind_Ok_inv in H as (b1 & H1 & H). simpl in Hoff.
  destruct (copy_step_run plain simd_load source destination total Hsource Hend w Hw off
    ltac:(lia) bytes b b1 Hword Hdest H1) as (ps & Ho & Hp & Hb & Hok & Hsim).
  destruct (IH (off + 4)%nat b1 Hall' ltac:(lia) H) as (blocks & Hlen & Ho' & Hp' & Hb' & Hok' & Hsim').
  assert (length (output b1) = (length (output b) + 4 * length ps)%nat) as Hl1.
  { by rewrite Ho, length_app, length_flat, length_fmap. }
  exists (ps :: blocks). simpl. split_and!.
  - lia.
  - by rewrite Ho', Ho, fmap_app, flat_app, app_assoc.
  - by rewrite Hp', Hp, <-app_assoc, Hl1.
  - by rewrite Hb', Hb, slots_app, <-app_assoc, Hl1.
  - by apply Forall_app.
  - intros [|k] bytes' ps' w'; simpl.
    + intros [= <-] [= <-] Hword'. assert (w' = w) as -> by congruence.
      unfold block_start. simpl. rewrite !Nat.add_0_r. done.
    + intros Hk Hps Hword'. specialize (Hsim' k bytes' ps' w' Hk Hps Hword').
      unfold block_start in *. simpl. rewrite length_app.
      rewrite Hl1 in Hsim'.
      match type of Hsim' with simulates _ _ _ ?a ?h _ =>
        match goal with |- simulates _ _ _ ?a' ?h' _ =>
          replace a' with a by lia; replace h' with h by lia end end.
      done.
Qed.

(** The word of a piece after the second loop; [j] is its place. *)
Definition filled (pos : list (nat * nat)) (j : nat) (p : piece) (x : Z) : Prop :=
  match p with
  | Word w => x = w
  | Branch t => ∃ t' d, resolve source destination continuation pos t = Ok t' ∧
      relative (destination + 4 * Z.of_nat j) t' 26 = Ok d ∧ x = Z.lor 0x14000000 d
  end.

Lemma store_word pre x v ws out :
  store_slice (flat (pre ++ x :: ws)) (4 * length pre) (le_bytes 4 v) = @Ok Error _ out →
  out = flat (pre ++ v :: ws).
Proof.
  intros [_ ->]%store_slice_Ok. change (x :: ws) with ([x] ++ ws). change (v :: ws) with ([v] ++ ws).
  rewrite !flat_app. rewrite <-(length_flat pre), <-(Nat.add_0_r (length (flat pre))).
  by rewrite list_inserts_app_r.
Qed.

Lemma patch_loop_run pos ps pre out :
  patch_loop source destination continuation pos (slots (4 * length pre) ps)
    (flat (pre ++ (first_word <$> ps))) = Ok out →
  ∃ ws, out = flat (pre ++ ws) ∧ length ws = length ps ∧
    ∀ i p x, ps !! i = Some p → ws !! i = Some x → filled pos (length pre + i) p x.
Proof.
  revert pre. induction ps as [|[w|t] ps IH]; intros pre H;
    rewrite ?fmap_cons in H; cbn [slots patch_loop first_word] in H.
  - injection H as <-. exists []. done.
  - replace (4 * length pre + 4)%nat with (4 * length (pre ++ [w]))%nat in H
      by (rewrite length_app; simpl; lia).
    change (pre ++ w :: (first_word <$> ps)) with (pre ++ [w] ++ (first_word <$> ps)) in H.
    rewrite app_assoc in H. destruct (IH _ H) as (ws & -> & Hl & Hf).
    exists (w :: ws). rewrite <-app_assoc. split_and!; [done|simpl; lia|].
    intros [|i] p x; simpl; [by intros [= <-] [= <-]|]. intros Hp Hx.
    specialize (Hf i p x Hp Hx). rewrite length_app in Hf. simpl in Hf.
    by replace (length pre + S i)%nat with (length pre + 1 + i)%nat by lia.
  - apply bind_Ok_inv in H as (t' & Ht & H). apply bind_Ok_inv in H as (a & Ha & H).
    apply ok_or_Ok, checked_add_Some in Ha as [-> Ha].
    apply bind_Ok_inv in H as (d & Hd & H). apply bind_Ok_inv in H as (out' & Hs & H).
    apply store_word in Hs as ->.
    set (v := Z.lor 0x14000000 d) in *.
    replace (4 * length pre + 4)%nat with (4 * length (pre ++ [v]))%nat in H
      by (rewrite length_app; simpl; lia).
    change (pre ++ v :: (first_word <$> ps)) with (pre ++ [v] ++ (first_word <$> ps)) in H.
    rewrite app_assoc in H. destruct (IH _ H) as (ws & -> & Hl & Hf).
    exists (v :: ws). rewrite <-app_assoc. split_and!; [done|simpl; lia|].
    intros [|i] p x; simpl.
    + intros [= <-] [= <-]. exists t', d. split_and!; [done| |done].
      by replace (destination + 4 * Z.of_nat (length pre + 0))
        with (destination + Z.of_nat (4 * length pre)) by lia.
    + intros Hp Hx. specialize (Hf i p x Hp Hx). rewrite length_app in Hf. simpl in Hf.
      by replace (length pre + S i)%nat with (length pre + 1 + i)%nat by lia.
Qed.
End loop.

(** ** The trampoline *)

Lemma chunks_length n l : length l = (4 * n)%nat → length (chunks l) = n.
Proof.
  revert l. induction n as [|n IH]; intros l Hl.
  - by destruct l.
  - destruct l as [|x [|y [|z [|u l]]]]; simpl in Hl; try lia. simpl. f_equal. apply IH. lia.
Qed.

Lemma chunks_lookup k l :
  (4 * k + 4 ≤ length l)%nat → chunks l !! k = Some (take 4 (drop (4 * k) l)).
Proof.
  revert l. induction k as [|k IH]; intros l Hl;
    (destruct l as [|x [|y [|z [|u l]]]]; simpl in Hl; try lia).
  - done.
  - change (chunks (x :: y :: z :: u :: l) !! S k) with (chunks l !! k). rewrite IH by lia.
    replace (4 * S k)%nat with (S (S (S (S (4 * k))))) by lia. done.
Qed.

Lemma word_of_chunk l k bytes :
  length l = (4 * length (chunks l))%nat → chunks l !! k = Some bytes → chunk_ok bytes.
Proof.
  intros Hl Hk. pose proof (lookup_lt_Some _ _ _ Hk).
  rewrite chunks_lookup in Hk by lia. apply (inj Some) in Hk as <-.
  assert (length (take 4 (drop (4 * k) l)) = 4%nat) as H4 by (rewrite length_take, length_drop; lia).
  eexists. unfold word. rewrite H4. split; [done|]. apply Z.mod_pos_bound. lia.
Qed.

Lemma fetch_flat base ws rest j x :
  ws !! j = Some x → 0 ≤ x < 2 ^ 32 →
  fetch base (flat ws ++ rest) (base + 4 * Z.of_nat j) = Some x.
Proof.
  intros Hj Hx. unfold fetch. rewrite (proj2 (Z.leb_le _ _)) by lia.
  replace (Z.to_nat (base + 4 * Z.of_nat j - base)) with (length (flat (take j ws)))
    by (rewrite length_flat, length_take; pose proof (lookup_lt_Some _ _ _ Hj); lia).
  rewrite <-(take_drop_middle ws j x Hj) at 2.
  change (x :: drop (S j) ws) with ([x] ++ drop (S j) ws).
  rewrite !flat_app, <-!app_assoc, drop_app_length.
  replace (flat [x]) with (le_bytes 4 x)
    by (unfold flat; by rewrite fmap_cons, fmap_nil, concat_cons, app_nil_r).
  unfold word. rewrite length_app, length_le_bytes by lia.
  rewrite (proj2 (Nat.leb_le _ _)) by lia.
  rewrite take_app_length' by (rewrite length_le_bytes; lia). f_equal.
  rewrite (u_le_roundtrip 4) by lia. by apply Z.mod_small.
Qed.

Lemma branch_range d : 0 ≤ d < 2 ^ 26 → 0 ≤ Z.lor 0x14000000 d < 2 ^ 32.
Proof.
  intros Hd. cut (Z.land (Z.lor 0x14000000 d) 0xffffffff = Z.lor 0x14000000 d).
  { intros <-. apply land_range; lia. }
  word_bits.
Qed.

Lemma jump_cases source target bs :
  jump source target = Ok bs →
  (∃ d, 0 ≤ d < 2 ^ 26 ∧ target = source + 4 * to_signed 26 d ∧ bs = flat [Z.lor 0x14000000 d]) ∨
  bs = flat [0x58000050; 0xd61f0200] ++ le_bytes 8 target.
Proof.
  unfold jump. intros ([] & _ & ([] & _ & H)%bind_Ok_inv)%bind_Ok_inv.
  destruct (relative source target 26) as [d|e|m|] eqn:Hrel; injection H as <-;
    [|by right..].
  left. exists d. apply relative_Ok in Hrel as [Hd Ht]; [|lia].
  split; [done|]. split; [done|]. reflexivity.
Qed.

Lemma concat_lookup blocks k ps i p :
  blocks !! k = Some ps → ps !! i = Some p →
  concat blocks !! (block_start blocks k + i)%nat = Some p.
Proof.
  intros Hk Hi. unfold block_start.
  assert (concat blocks = concat (take k blocks) ++ ps ++ concat (drop (S k) blocks)) as ->.
  { rewrite <-concat_cons, <-concat_app. by rewrite take_drop_middle. }
  rewrite lookup_app_r by lia. rewrite Nat.add_sub'. by apply lookup_app_l_Some.
Qed.

Lemma block_start_S blocks k ps :
  blocks !! k = Some ps → block_start blocks (S k) = (block_start blocks k + length ps)%nat.
Proof.
  intros Hk. unfold block_start. rewrite (take_S_r _ _ _ Hk), concat_app, length_app.
  simpl. by rewrite app_nil_r.
Qed.

Lemma block_start_le blocks k : (block_start blocks k ≤ length (concat blocks))%nat.
Proof.
  unfold block_start.
  assert (concat blocks = concat (take k blocks) ++ concat (drop k blocks)) as ->.
  { by rewrite <-concat_app, take_drop. }
  rewrite length_app. lia.
Qed.

Section theorem.
Context {V : Type} (plain : Z → core V → core V * option Z) (simd_load : Z → Z → core V → core V).
Implicit Types c : core V.
Abbreviation exec := (exec plain simd_load).
Abbreviation run := (run plain simd_load).

(** A branch of the copy: within the saved bytes to the block of the
    instruction there, else to the address itself. *)
Definition redirect (source continuation : Z) (place : nat → Z) (t : Z) : Z :=
  if (source <=? t) && (t <? continuation) then place (Z.to_nat ((t - source) / 4)) else t.

Lemma resolve_redirect source destination continuation blocks t t' :
  resolve source destination continuation (places 0 4 blocks) t = Ok t' →
  0 ≤ destination → 0 ≤ t ≤ usize_max →
  t' = redirect source continuation
    (λ k, destination + 4 + 4 * Z.of_nat (block_start blocks k)) t ∧ 0 ≤ t' ≤ usize_max.
Proof.
  intros H Hd Ht. unfold resolve in H. unfold redirect. destruct (_ && _); [|by injection H as <-].
  apply bind_Ok_inv in H as ([o p] & Hf & H). apply ok_or_Ok in Hf, H.
  apply places_find in Hf as (k & Hk & -> & Hx & ->). apply checked_add_Some in H as [-> Hle].
  split; [|lia]. rewrite Hx. replace (Z.of_nat (0 + 4 * k)) with (Z.of_nat k * 4) by lia.
  rewrite Z.div_mul, Nat2Z.id by lia. lia.
Qed.

(** The bytes of the trampoline are in memory. *)
Definition resident (destination : Z) (code : list Z) c : Prop :=
  ∀ i b, code !! i = Some b → mem c (wrap (destination + Z.of_nat i)) = b.

(** The bytes [resident] gives a load. *)
Lemma resident_load destination pre tail rest n c v :
  resident destination (pre ++ tail ++ rest) c → tail = le_bytes n v → 0 ≤ n → 0 ≤ v < 2 ^ (n * 8) →
  load n (wrap (destination + Z.of_nat (length pre))) c = v.
Proof.
  intros Hres Ht Hn Hv. assert (length tail = Z.to_nat n) as Hl by (by rewrite Ht, length_le_bytes).
  unfold load.
  assert ((λ k, mem c (wrap (wrap (destination + Z.of_nat (length pre)) + k))) <$> seqZ 0 n = tail)
    as ->; [|rewrite Ht; by apply u_le_roundtrip].
  apply list_eq. intros i. rewrite list_lookup_fmap.
  destruct (decide (i < length tail)%nat) as [Hi|Hi].
  - rewrite lookup_seqZ_lt by lia. destruct (lookup_lt_is_Some_2 tail i Hi) as [x Hx].
    rewrite Hx. simpl. f_equal. specialize (Hres (length pre + i)%nat x).
    rewrite lookup_app_r, Nat.add_sub' in Hres by lia.
    rewrite <-(Hres (lookup_app_l_Some _ _ _ _ Hx)). f_equal.
    unfold wrap. rewrite Zplus_mod_idemp_l. f_equal. lia.
  - rewrite lookup_seqZ_ge by lia. symmetry. apply lookup_ge_None. lia.
Qed.

(** The jump back, from the end of the blocks. *)
Lemma run_back destination ws back rest next continuation c :
  next = destination + Z.of_nat (length (flat ws)) → 0 ≤ continuation ≤ usize_max →
  jump next continuation = Ok back → resident destination (flat ws ++ back ++ rest) c →
  ∃ n c', run destination (flat ws ++ back ++ rest) n next c = Some (continuation, c') ∧
    (c' = c ∨ c' = set 16 continuation c).
Proof.
  intros Hnext Hcont Hj Hres. rewrite length_flat in Hnext.
  assert (∀ xs tail i x, xs !! i = Some x → 0 ≤ x < 2 ^ 32 →
    fetch destination (flat ws ++ flat xs ++ tail) (next + 4 * Z.of_nat i) = Some x) as Hfetch.
  { intros xs tail i x Hi Hx. rewrite app_assoc, <-flat_app.
    replace (next + 4 * Z.of_nat i) with (destination + 4 * Z.of_nat (length ws + i)) by lia.
    apply fetch_flat; [|done]. by rewrite lookup_app_r, Nat.add_sub' by lia. }
  destruct (jump_cases _ _ _ Hj) as [(d & Hd & Ht & ->)| ->].
  - exists 1%nat, c. split; [|by left].
    pose proof (Hfetch [Z.lor 0x14000000 d] rest 0%nat _ eq_refl (branch_range d Hd)) as Hf.
    rewrite Z.add_0_r in Hf.
    rewrite (run_step _ _ _ _ _ _ _ _ Hf), exec_branch by done. simpl.
    by rewrite <-Ht, wrap_id.
  - exists 2%nat, (set 16 continuation c). split; [|by right]. rewrite <-(app_assoc (flat [_; _])) in *.
    pose proof (Hfetch [0x58000050; 0xd61f0200] (le_bytes 8 continuation ++ rest) 0%nat _ eq_refl
      ltac:(lia)) as Hf1. rewrite Z.add_0_r in Hf1.
    pose proof (Hfetch [0x58000050; 0xd61f0200] (le_bytes 8 continuation ++ rest) 1%nat _ eq_refl
      ltac:(lia)) as Hf2.
    rewrite (run_step _ _ _ _ _ _ _ _ Hf1).
    change (exec 0x58000050 next c) with (load_register 1 16 (wrap (next + 8)) c, Next).
    rewrite app_assoc, <-flat_app in Hres.
    pose proof (resident_load _ _ _ _ 8 c continuation Hres eq_refl ltac:(lia)
      ltac:(unfold usize_max in Hcont; lia)) as Hload.
    rewrite length_flat, length_app in Hload. simpl length in Hload.
    replace (destination + Z.of_nat (4 * (length ws + 2))) with (next + 8) in Hload by lia.
    unfold load_register. cbn [Z.eqb go Pos.eqb]. rewrite Hload.
    replace (next + 4 * Z.of_nat 1) with (next + 4) in Hf2 by lia.
    rewrite (run_step _ _ _ _ _ _ _ _ Hf2).
    change (exec 0xd61f0200 (next + 4) (set 16 continuation c))
      with (set 16 continuation c, Indirect (get 16 (set 16 continuation c))).
    cbn [Arm64Exec.run go]. by rewrite get_set.
Qed.

(** What [trampoline] puts together. *)
Record layout (source destination : Z) (original out : list Z) (blocks : list (list piece))
    (ws back : list Z) : Prop := {
  lay_count : length original = (4 * length blocks)%nat;
  lay_end : source + Z.of_nat (length original) ≤ usize_max;
  lay_out : out = flat (BTI :: ws) ++ back;
  lay_next : destination + Z.of_nat (length (flat (BTI :: ws))) ≤ usize_max;
  lay_back : jump (destination + Z.of_nat (length (flat (BTI :: ws))))
    (source + Z.of_nat (length original)) = Ok back;
  lay_words : length ws = length (concat blocks);
  lay_pieces : Forall piece_ok (concat blocks);
  lay_filled i p x : concat blocks !! i = Some p → ws !! i = Some x →
    filled source destination (length original) (places 0 4 blocks) (1 + i) p x;
  lay_blocks k w ps : word (drop (4 * k) original) = Ok w → blocks !! k = Some ps →
    simulates plain simd_load w (source + Z.of_nat (4 * k))
      (destination + Z.of_nat (4 + 4 * block_start blocks k)) ps }.

Lemma arm64_trampoline_layout source destination original out :
  trampoline source destination original = Ok out →
  0 ≤ source → 0 ≤ destination →
  ∃ blocks ws back, layout source destination original out blocks ws back.
Proof.
  intros H Hsrc Hdst. unfold trampoline in H.
  apply bind_Ok_inv in H as ([] & _ & H). apply bind_Ok_inv in H as ([] & _ & H).
  destruct (_ || _) eqn:Hc; [done|]. apply orb_false_iff in Hc as [_ Hmod].
  apply negb_false_iff, Nat.eqb_eq in Hmod.
  apply bind_Ok_inv in H as (cont & Hcont & H). apply ok_or_Ok, checked_add_Some in Hcont as [-> Hend].
  apply bind_Ok_inv in H as (b & Hb & H). apply bind_Ok_inv in H as (body & Hbody & H).
  apply bind_Ok_inv in H as (next & Hn & H). apply ok_or_Ok, checked_add_Some in Hn as [-> Hn].
  apply bind_Ok_inv in H as (back & Hback & H). injection H as <-.
  assert (length original = (4 * (length original / 4))%nat) as Hlen
    by (pose proof (Nat.div_mod_eq (length original) 4); lia).
  pose proof (chunks_length _ _ Hlen) as Hch.
  destruct (copy_loop_run plain simd_load source destination (length original) Hsrc Hend Hdst
    (chunks original) 0 (mkBuffers (le_bytes 4 BTI) [] []) b) as
    (blocks & Hbl & Ho & Hp & Hbr & Hok & Hsim); [|lia|done|].
  { apply Forall_forall. intros bytes [k Hk]%list_elem_of_lookup. eapply word_of_chunk; [|done]. lia. }
  cbn [output positions branches] in *. rewrite app_nil_l in *.
  change (length (le_bytes 4 BTI)) with 4%nat in *.
  change (le_bytes 4 BTI) with (flat [BTI]) in Ho. rewrite <-flat_app in Ho.
  rewrite Ho, Hp, Hbr in Hbody. 
  destruct (patch_loop_run source destination (length original) Hsrc Hend Hdst _ (concat blocks)
    [BTI] body Hbody) as (ws & -> & Hws & Hfill).
  exists blocks, ws, back. split; try done.
  - lia.
  - intros k w ps Hw Hps.
    assert (4 * k + 4 ≤ length original)%nat as Hk by (apply lookup_lt_Some in Hps; lia).
    assert (word (take 4 (drop (4 * k) original)) = Ok w) as Hw'.
    { unfold word in *. rewrite length_take, length_drop in *.
      rewrite (proj2 (Nat.leb_le _ _)) by lia. rewrite (proj2 (Nat.leb_le _ _)) in Hw by lia.
      by rewrite take_take. }
    exact (Hsim k _ ps w (chunks_lookup k original Hk) Hps Hw').
Qed.

(** Every block lies at its place, with its branches redirected. *)
Lemma block_placed source destination original out blocks ws back k ps :
  layout source destination original out blocks ws back → 0 ≤ destination →
  blocks !! k = Some ps →
  placed destination out (redirect source (source + Z.of_nat (length original))
      (λ k, destination + 4 + 4 * Z.of_nat (block_start blocks k)))
    (destination + Z.of_nat (4 + 4 * block_start blocks k)) ps.
Proof.
  intros [] Hdst Hps i p Hi. pose proof (concat_lookup _ _ _ _ _ Hps Hi) as Hc.
  set (j := (block_start blocks k + i)%nat) in *.
  assert (is_Some (ws !! j)) as [x Hx].
  { apply lookup_lt_is_Some. rewrite lay_words0. by eapply lookup_lt_Some. }
  pose proof (lay_filled0 j p x Hc Hx) as Hfill.
  assert (∀ x', x' = x → 0 ≤ x' < 2 ^ 32 →
    fetch destination out (destination + Z.of_nat (4 + 4 * block_start blocks k) +
      4 * Z.of_nat i) = Some x') as Hfetch.
  { intros x' -> Hr. rewrite lay_out0.
    rewrite <-(fetch_flat destination (BTI :: ws) back (S j) x Hx Hr). f_equal. lia. }
  rewrite Forall_lookup in lay_pieces0. specialize (lay_pieces0 _ _ Hc).
  destruct p as [w|t]; simpl in Hfill, lay_pieces0; [by apply Hfetch|].
  destruct Hfill as (t' & d & Hres & Hrel & ->).
  destruct (resolve_redirect _ _ _ _ _ _ Hres Hdst lay_pieces0) as [Ht' Hrange].
  apply relative_Ok in Hrel as [Hd Heq]; [|lia]. exists d. rewrite <-Ht'. split_and!; try lia.
  apply Hfetch; [done|by apply branch_range].
Qed.

(** C3. Running the trampoline does what the saved instructions do.  There is a
    place in it for every saved instruction: it is entered at the first; from
    the place of an instruction the same registers, flags and memory are
    reached as by the instruction at its old address, and execution goes on
    at the place of the next instruction, at the place of a branch target
    among the saved instructions, or at the very target outside; from the last
    place it goes back behind the saved bytes, using at most [x16]. *)
Theorem arm64_trampoline_correct source destination original out :
  trampoline source destination original = Ok out →
  0 ≤ source → 0 ≤ destination →
  let continuation := source + Z.of_nat (length original) in
  ∃ place : nat → Z,
    (∀ c, run destination out 1 destination c = Some (place 0%nat, c)) ∧
    (∀ k w c, word (drop (4 * k) original) = Ok w →
       ∃ n, run destination out n (place k) c =
         Some (landing (redirect source continuation place) (place (S k))
                 (exec w (source + Z.of_nat (4 * k)) c).2,
               (exec w (source + Z.of_nat (4 * k)) c).1)) ∧
    (∀ c, resident destination out c →
       ∃ n c', run destination out n (place (length original / 4)%nat) c = Some (continuation, c') ∧
         (c' = c ∨ c' = set 16 continuation c)).
Proof.
  intros H Hsrc Hdst continuation.
  destruct (arm64_trampoline_layout _ _ _ _ H Hsrc Hdst) as (blocks & ws & back & Hlay).
  pose proof Hlay as []. subst out. set (out := flat (BTI :: ws) ++ back) in *.
  set (place := λ k, destination + 4 + 4 * Z.of_nat (block_start blocks k)).
  rewrite length_flat in lay_next0. simpl length in lay_next0.
  exists place. split_and!.
  - intros c. pose proof (fetch_flat destination (BTI :: ws) back 0 BTI eq_refl ltac:(done)) as Hf.
    rewrite Z.add_0_r in Hf. fold out in Hf.
    rewrite (run_step _ _ _ _ _ _ _ _ Hf), exec_hint by auto. simpl. do 2 f_equal.
    unfold place, block_start. simpl. lia.
  - intros k w c Hw. assert (is_Some (blocks !! k)) as [ps Hps].
    { apply lookup_lt_is_Some. unfold word in Hw. rewrite length_drop in Hw.
      destruct (Nat.leb_spec 4 (length original - 4 * k)); [lia|done]. }
    pose proof (block_start_le blocks (S k)) as Hle. rewrite (block_start_S _ _ _ Hps) in Hle.
    destruct (lay_blocks0 k w ps Hw Hps destination out (redirect source continuation place) c)
      as [n Hrun].
    + by eapply block_placed.
    + lia.
    + exists n.
      replace (place k) with (destination + Z.of_nat (4 + 4 * block_start blocks k))
        by (unfold place; lia).
      rewrite Hrun. do 3 f_equal. unfold place. rewrite (block_start_S _ _ _ Hps). lia.
  - intros c Hres.
    destruct (run_back destination (BTI :: ws) back [] _ continuation c eq_refl ltac:(lia) lay_back0)
      as (n & c' & Hrun & Hc'); rewrite app_nil_r in *; [exact Hres|].
    exists n, c'. split; [|done]. unfold place.
    replace (destination + 4 + 4 * Z.of_nat (block_start blocks (length original / 4)))
      with (destination + Z.of_nat (length (flat (BTI :: ws)))); [done|].
    rewrite length_flat. simpl length. rewrite lay_words0.
    replace (length original / 4)%nat with (length blocks)
      by (rewrite lay_count0, Nat.mul_comm, Nat.div_mul; lia).
    unfold block_start. rewrite take_ge by done. lia.
Qed.
End theorem.
