(* ===== verification/Arm64Code.v ===== *)
(** * AArch64 as a code generator

    Plans on AArch64, that nothing in the module panics, and the instance of
    [Code] with its laws: what is proved about routing and sessions from the
    laws holds for both architectures. *)

From S2P Require Import Prelude Errors Prefix X86 Code Arm64 Arm64Exec Arm64Copy.

#[local] Open Scope Z_scope.

(** The code at [a] takes the processor to [t], using at most [x16]. *)
Definition arm64_lands (a : Z) (code : list Z) (t : Z) : Prop :=
  ∀ (plain : Z → core unit → core unit * option Z) simd_load c,
    resident a code c →
    ∃ n c', run plain simd_load a code n a c = Some (t, c') ∧ (c' = c ∨ c' = set 16 t c).

Lemma arm64_jump_lands source target bs rest :
  0 ≤ target ≤ usize_max → jump source target = Ok bs → arm64_lands source (bs ++ rest) target.
Proof.
  intros Ht Hj plain simd_load c Hres.
  apply (run_back plain simd_load source [] bs rest source target c); [simpl; lia|done..].
Qed.

Lemma arm64_jump_length source target bs :
  jump source target = Ok bs → length bs = 4%nat ∨ length bs = 16%nat.
Proof.
  intros [(d & _ & _ & ->)| ->]%jump_cases; [left|right].
  - by rewrite length_flat.
  - by rewrite length_app, length_flat, length_le_bytes by lia.
Qed.

Lemma get_Some bytes a b l :
  Arm64.get bytes a b = Some l → (a ≤ b ≤ length bytes)%nat ∧ l = take (b - a) (drop a bytes).
Proof.
  unfold Arm64.get. destruct (Nat.leb_spec a b), (Nat.leb_spec b (length bytes)); simpl; naive_solver lia.
Qed.

(** Every saved instruction is known, and only the last may leave. *)
Definition movable (prefix : list Z) : Prop :=
  ∀ k, (4 * k < length prefix)%nat → ∃ w, word (drop (4 * k) prefix) = Ok w ∧ valid w = true ∧
    (terminal w = true → (4 * k + 4 = length prefix)%nat).

Lemma arm64_plan_loop_Ok size index ch :
  plan_loop size index ch = Ok tt →
  ∀ k bytes, ch !! k = Some bytes → ∃ w, word bytes = Ok w ∧ valid w = true ∧
    (terminal w = true → (size ≤ (index + k + 1) * 4)%nat).
Proof.
  revert index. induction ch as [|x ch IH]; intros index H k bytes Hk; [done|].
  cbn [plan_loop] in H. apply bind_Ok_inv in H as (w & Hw & H).
  destruct (valid w) eqn:Hv; simpl in H; [|done].
  destruct (terminal w && _) eqn:Ht; [done|]. destruct k as [|k].
  - injection Hk as <-. exists w. split_and!; [done..|]. intros Hterm. rewrite Hterm in Ht.
    apply Nat.ltb_ge in Ht. lia.
  - destruct (IH _ H k bytes Hk) as (w' & ? & ? & Hle). exists w'. split_and!; [done..|].
    intros ?. specialize (Hle ltac:(done)). lia.
Qed.

Lemma arm64_plan_run source target bytes p :
  0 ≤ target ≤ usize_max → plan source target bytes = Ok p →
  source ≠ target ∧ original p ≠ [] ∧ length (original p) = length (replacement p) ∧
  bytes_at bytes (offset p) (original p) ∧ movable (original p) ∧
  arm64_lands (source + Z.of_nat (offset p)) (replacement p) target.
Proof.
  intros Ht H. unfold plan in H.
  apply bind_Ok_inv in H as ([] & _ & H). apply bind_Ok_inv in H as ([] & _ & H).
  destruct (Z.eqb_spec source target) as [|Hne]; [done|].
  apply bind_Ok_inv in H as (first & _ & H). cbv zeta in H.
  set (off := if matches first _ _ then 4%nat else 0%nat) in *.
  apply bind_Ok_inv in H as (address & Ha & H). apply ok_or_Ok, checked_add_Some in Ha as [-> Ha].
  apply bind_Ok_inv in H as (rep & Hj & H). apply bind_Ok_inv in H as (prefix & Hp & H).
  apply ok_or_Ok, get_Some in Hp as [Hle Hp].
  apply bind_Ok_inv in H as ([] & Hl & H). injection H as <-. simpl.
  assert (length prefix = length rep) as Hlen by (rewrite Hp, length_take, length_drop; lia).
  pose proof (arm64_jump_length _ _ _ Hj) as Hjl. split_and!; [done|..].
  - intros E. rewrite E in Hlen. simpl in Hlen. lia.
  - done.
  - intros k x Hk. rewrite Hp in Hk. apply lookup_take_Some in Hk as [Hk _].
    by rewrite lookup_drop in Hk.
  - intros k Hk. assert (4 * k + 4 ≤ length prefix)%nat as Hk4.
    { destruct Hjl as [E|E]; rewrite Hlen, E in *; lia. }
    destruct (arm64_plan_loop_Ok _ _ _ Hl k _ (chunks_lookup k prefix Hk4)) as (w & Hw & Hv & Hterm).
    exists w. split_and!; [|done|].
    + unfold word in *. rewrite length_take, length_drop in Hw. rewrite length_drop.
      rewrite (proj2 (Nat.leb_le _ _)) by lia. rewrite (proj2 (Nat.leb_le _ _)) in Hw by lia.
      by rewrite take_take in Hw.
    + intros Hw'. specialize (Hterm Hw'). lia.
  - rewrite <-(app_nil_r rep). by apply arm64_jump_lands.
Qed.

(** C21. A plan replaces whole, known instructions of the entry, of which only the
    last may leave the function, by a jump of the same length; the jump takes
    the processor to the target and changes at most [x16], the register the
    platform ABIs reserve for veneers. *)
Theorem arm64_plan_correct source target bytes p :
  0 ≤ target ≤ usize_max → plan source target bytes = Ok p →
  source ≠ target ∧ original p ≠ [] ∧ length (original p) = length (replacement p) ∧
  bytes_at bytes (offset p) (original p) ∧ movable (original p) ∧
  arm64_lands (source + Z.of_nat (offset p)) (replacement p) target.
Proof. apply arm64_plan_run. Qed.

(** ** Nothing panics *)

Lemma aligned_returns a : returns (aligned a).
Proof. unfold aligned. by repeat case_match. Qed.

Lemma arm64_jump_returns source target : returns (jump source target).
Proof.
  unfold jump. apply returns_bind; [apply aligned_returns|]. intros _ _.
  apply returns_bind; [apply aligned_returns|]. intros _ _. by case_match.
Qed.

Lemma relative_returns source target bits : returns (relative source target bits).
Proof. unfold relative. by case_match. Qed.

Lemma word_returns bytes : returns (word bytes).
Proof. unfold word. by case_match. Qed.

Lemma add_returns a d : returns (add a d).
Proof. apply ok_or_returns. Qed.

#[local] Hint Resolve aligned_returns arm64_jump_returns relative_returns word_returns
  add_returns ok_or_returns : returns.

Ltac back :=
  repeat match goal with
  | |- returns (_ ≫= _) => apply returns_bind; [auto with returns|intros ? ?]
  | |- returns (if ?b then _ else _) => destruct b eqn:?
  | |- returns (let '(_, _) := ?x in _) => destruct x
  end; try done; auto with returns.

Lemma arm64_plan_loop_returns size index ch : returns (plan_loop size index ch).
Proof. revert index. induction ch as [|x ch IH]; intros index; cbn [plan_loop]; back. Qed.

Lemma arm64_plan_returns source target bytes : returns (plan source target bytes).
Proof. unfold plan. back. apply arm64_plan_loop_returns. Qed.

Lemma copy_literal_returns source destination w off b :
  0 ≤ w < 2 ^ 32 → returns (copy_literal source destination w off b).
Proof.
  intros Hw. unfold copy_literal. apply returns_bind; [apply add_returns|]. intros t _.
  apply returns_bind; [apply ok_or_returns|]. intros next _.
  rewrite (top_field w 30 ltac:(lia) Hw). change (32 - 30) with 2.
  pose proof (field_range w 30 2 ltac:(lia)) as Hf. cbv zeta.
  pose proof (relative_returns next t 19) as Hr.
  destruct (relative next t 19) as [d|e|m|]; [exact I| |destruct Hr..].
  destruct (_ || _); [exact I|]. destruct (Z.eqb_spec (field w 30 2) 3); [exact I|].
  apply returns_bind; [|intros opcode _; exact I]. apply index_returns. cbn [length]. lia.
Qed.

Lemma copy_step_returns source destination continuation total bytes off b w :
  word bytes = Ok w → 0 ≤ w < 2 ^ 32 →
  returns (copy_step source destination continuation total bytes off b).
Proof.
  intros Hword Hw. unfold copy_step. rewrite Hword. apply returns_bind; [done|].
  intros w' [= <-]. destruct (negb (valid w)); [done|].
  destruct (matches _ _ _).
  { unfold copy_branch. back. }
  destruct (_ || _ || _).
  { unfold copy_conditional. back. }
  destruct (matches _ _ _).
  { unfold copy_address. apply returns_bind; [|done]. by case_match; apply add_returns. }
  destruct (matches _ _ _); [by apply copy_literal_returns|].
  destruct (matches _ _ _); [unfold copy_call; by case_match|].
  unfold copy_other. back.
Qed.

Lemma copy_loop_returns source destination continuation total ch off b :
  Forall chunk_ok ch → returns (copy_loop source destination continuation total ch off b).
Proof.
  intros Hall. revert off b. induction Hall as [|bytes ch (w & Hword & Hw) _ IH]; intros off b; [done|].
  cbn [copy_loop]. apply returns_bind; [by eapply copy_step_returns|]. intros. apply IH.
Qed.

(** Every branch that waits for its target lies in the output. *)
Definition in_output (b : buffers) : Prop :=
  Forall (λ x, x.1 + 4 ≤ length (output b))%nat (branches b).

Lemma in_output_grow b b' :
  in_output b → branches b' = branches b → (length (output b) ≤ length (output b'))%nat →
  in_output b'.
Proof.
  unfold in_output. intros H -> Hl. eapply Forall_impl; [exact H|]. intros [f t]. simpl. lia.
Qed.

Lemma in_output_push ws b : in_output b → in_output (push ws b).
Proof.
  intros H. eapply in_output_grow; [exact H|done|]. simpl. rewrite emits_flat, length_app. lia.
Qed.

Lemma in_output_constant r v b : in_output b → in_output (push_constant r v b).
Proof.
  intros H. eapply in_output_grow; [exact H|done|]. simpl. rewrite constant_flat, length_app. lia.
Qed.

Lemma in_output_branch t b : in_output b → in_output (push_branch t b).
Proof.
  intros H. unfold in_output. simpl. rewrite emit_flat, length_app, length_flat.
  apply Forall_app. split.
  - eapply Forall_impl; [exact H|]. intros [f u]. simpl. lia.
  - apply Forall_singleton. simpl. lia.
Qed.

#[local] Hint Resolve in_output_push in_output_constant in_output_branch : in_output.

Lemma copy_step_output source destination continuation total bytes off b b' :
  in_output b → copy_step source destination continuation total bytes off b = Ok b' →
  in_output b'.
Proof.
  intros Hb H. unfold copy_step in H. apply bind_Ok_inv in H as (w & _ & H).
  destruct (negb (valid w)); [discriminate H|]. cbv zeta in H.
  set (b1 := mkBuffers _ _ _) in H. assert (in_output b1) as Hb1 by exact Hb.
  destruct (matches _ _ _).
  { unfold copy_branch in H. apply bind_Ok_inv in H as (t & _ & H).
    apply bind_Ok_inv in H as (b2 & H2 & H). injection H as <-. apply in_output_branch.
    destruct (negb (_ =? 0)); [destruct (negb _)|]; inversion H2; subst; auto with in_output. }
  destruct (_ || _ || _).
  { unfold copy_conditional in H. apply bind_Ok_inv in H as (t & _ & H). injection H as <-.
    apply in_output_branch. repeat case_match; auto with in_output. }
  destruct (matches _ _ _).
  { unfold copy_address in H. apply bind_Ok_inv in H as (t & _ & H). injection H as <-.
    auto with in_output. }
  destruct (matches _ _ _).
  { unfold copy_literal in H. apply bind_Ok_inv in H as (t & _ & H).
    apply bind_Ok_inv in H as (next & _ & H). cbv zeta in H.
    destruct (relative next t 19); [injection H as <-; auto with in_output|..];
      (destruct (_ || _); [discriminate H|]; destruct (_ =? 3);
       [injection H as <-; auto with in_output|];
       apply bind_Ok_inv in H as (opcode & _ & H); injection H as <-; auto with in_output). }
  destruct (matches _ _ _).
  { unfold copy_call in H. destruct (_ || _); [discriminate H|]. injection H as <-.
    auto with in_output. }
  unfold copy_other in H. destruct (matches _ _ _); [discriminate H|].
  destruct (_ && _ && _ && _); [discriminate H|]. injection H as <-. auto with in_output.
Qed.

Lemma copy_loop_output source destination continuation total ch off b b' :
  in_output b → copy_loop source destination continuation total ch off b = Ok b' → in_output b'.
Proof.
  revert off b. induction ch as [|bytes ch IH]; intros off b Hb H; [by injection H as <-|].
  cbn [copy_loop] in H. apply bind_Ok_inv in H as (b1 & H1 & H).
  eapply IH; [|exact H]. by eapply copy_step_output.
Qed.

Lemma resolve_returns source destination continuation pos t :
  returns (resolve source destination continuation pos t).
Proof.
  unfold resolve. case_match; [|done]. apply returns_bind; [apply ok_or_returns|].
  intros [o p] _. apply ok_or_returns.
Qed.

Lemma patch_loop_returns source destination continuation pos brs out :
  Forall (λ x, x.1 + 4 ≤ length out)%nat brs →
  returns (patch_loop source destination continuation pos brs out).
Proof.
  revert out. induction brs as [|[f t] brs IH]; intros out Hall; [done|].
  apply Forall_cons in Hall as [Hf Hall]. cbn [patch_loop].
  apply returns_bind; [apply resolve_returns|]. intros t' _.
  apply returns_bind; [apply ok_or_returns|]. intros a _.
  apply returns_bind; [apply relative_returns|]. intros d _.
  assert (length (le_bytes 4 (Z.lor 0x14000000 d)) = 4%nat) as H4 by (by rewrite length_le_bytes).
  apply returns_bind; [apply store_slice_returns; rewrite H4; exact Hf|].
  intros out' [_ ->]%store_slice_Ok. apply IH. by rewrite length_inserts.
Qed.

Lemma arm64_trampoline_no_panic source destination original :
  returns (trampoline source destination original).
Proof.
  unfold trampoline. apply returns_bind; [apply aligned_returns|]. intros _ _.
  apply returns_bind; [apply aligned_returns|]. intros _ _.
  destruct (_ || _) eqn:Hc; [done|]. apply orb_false_iff in Hc as [_ Hmod].
  apply negb_false_iff, Nat.eqb_eq in Hmod.
  apply returns_bind; [apply ok_or_returns|]. intros cont _.
  apply returns_bind.
  { apply copy_loop_returns. apply Forall_forall. intros bytes [k Hk]%list_elem_of_lookup.
    eapply word_of_chunk; [|done].
    assert (length original = (4 * (length original / 4))%nat) as Hlen
      by (pose proof (Nat.div_mod_eq (length original) 4); lia).
    rewrite (chunks_length _ _ Hlen). exact Hlen. }
  intros b Hb. apply returns_bind.
  { apply patch_loop_returns. eapply copy_loop_output; [|exact Hb]. by constructor. }
  intros out _. apply returns_bind; [apply ok_or_returns|]. intros next _.
  apply returns_bind; [apply arm64_jump_returns|]. done.
Qed.

(** ** The instance *)

(** [#[cfg(target_arch = "aarch64")] pub(crate) use arm64::*]; calls need no
    bridge here, and raw replacements go through a relay page. *)
Definition arm64_code : Code := {|
  max_prefix := MAX_PREFIX;
  code_plan := plan;
  code_jump := jump;
  code_trampoline := trampoline;
  code_needs_call_bridge _ := Ok false;
  code_relay := true;
  lands := arm64_lands |}.

Lemma arm64_laws : @CodeLaws arm64_code.
Proof.
  split; simpl.
  - intros source target bytes p Ht H.
    destruct (arm64_plan_run _ _ _ _ Ht H) as (? & ? & ? & ? & _ & ?). done.
  - apply arm64_plan_returns.
  - intros. by apply arm64_jump_lands.
  - apply arm64_jump_returns.
  - apply arm64_trampoline_no_panic.
  - by eexists.
Qed.

(** C33. On every input the entry points of both architectures, and the decoder
    behind those of x86-64, come back with a result or an error: no slice,
    index or subtraction in them panics and every loop ends; the only error of
    the decoder is [InvalidInstruction]. *)
Theorem code_returns source target bytes :
  (returns (@code_plan x86_code source target bytes) ∧
   returns (@code_jump x86_code source target) ∧
   returns (@code_trampoline x86_code source target bytes) ∧
   returns (@code_needs_call_bridge x86_code bytes) ∧
   (decode bytes = Err InvalidInstruction ∨ ∃ i, decode bytes = Ok i)) ∧
  returns (@code_plan arm64_code source target bytes) ∧
  returns (@code_jump arm64_code source target) ∧
  returns (@code_trampoline arm64_code source target bytes).
Proof.
  split; [apply x86_code_returns|].
  split_and!; [apply arm64_plan_returns|apply arm64_jump_returns|apply arm64_trampoline_no_panic].
Qed.

(** ** A conditional branch over a NOP, saved to a page nearby *)

Module Arm64Demo.
Definition saved : list Z := flat [0x34000040; NOP].
Definition plain (_ : Z) (c : core unit) : core unit * option Z := (c, None).
Definition simd (_ _ : Z) (c : core unit) : core unit := c.
Definition start : core unit := mkCore ∅ (false, false, false, false) (λ _, 0) tt.
End Arm64Demo.

Lemma arm64_trampoline_correct_witness :
  ∃ out place n, trampoline 0x10000000 0x10001000 Arm64Demo.saved = Ok out ∧
    run Arm64Demo.plain Arm64Demo.simd 0x10001000 out 1 0x10001000 Arm64Demo.start =
      Some (place 0%nat, Arm64Demo.start) ∧
    run Arm64Demo.plain Arm64Demo.simd 0x10001000 out n (place 0%nat) Arm64Demo.start =
      Some (0x10000008, Arm64Demo.start).
Proof.
  destruct (trampoline 0x10000000 0x10001000 Arm64Demo.saved) as [out|e|m|] eqn:H;
    [|vm_compute in H; discriminate H..].
  destruct (arm64_trampoline_correct Arm64Demo.plain Arm64Demo.simd _ _ _ _ H
    ltac:(lia) ltac:(lia)) as (place & H0 & Hk & _).
  destruct (Hk 0%nat 0x34000040 Arm64Demo.start ltac:(vm_compute; reflexivity)) as [n Hn].
  exists out, place, n. split; [reflexivity|]. split; [apply H0|]. rewrite Hn. vm_compute. reflexivity.
Defined.

Lemma arm64_plan_correct_witness :
  ∃ p, plan 0x10000000 0x20000000 (flat [BTI; NOP; NOP; NOP; NOP]) = Ok p ∧
    offset p = 4%nat ∧ arm64_lands 0x10000004 (replacement p) 0x20000000.
Proof.
  destruct (plan 0x10000000 0x20000000 (flat [BTI; NOP; NOP; NOP; NOP])) as [p|e|m|] eqn:H;
    [|vm_compute in H; discriminate H..].
  destruct (arm64_plan_correct 0x10000000 0x20000000 _ p ltac:(split; vm_compute; discriminate) H)
    as (_ & _ & _ & _ & _ & Hl).
  assert (offset p = 4%nat) as Ho by (vm_compute in H; injection H as <-; reflexivity).
  exists p. split; [reflexivity|]. split; [exact Ho|]. rewrite Ho in Hl. exact Hl.
Defined.
