(* ===== verification/Expectations.v ===== *)
(** * Expectations ([src/src/expectation.rs])

    Call counts, sequences, the per-expectation progress ([Meta]), the rules
    of one mock ([State]) and the re-entrancy guard ([CallGuard]).

    An [Arc] is an index into the heap that owns its target, so that a [Meta]
    shared between a rule and its [Expectation] handle, and a [Sequence]
    shared between mocks, are one object here too.  [lock] ignores poisoning,
    so taking a mutex is plain access to the state; every operation below is
    cut into the sections the code runs under its locks ([step]), and the
    invariants are proved for all interleavings of those sections. *)

From S2P Require Import Prelude Errors.

#[local] Open Scope Z_scope.

(** [fn error]. *)
Definition error (message : string) : Error := Errors.Expectation message.

(** ** Call counts *)

Module CallCount.
Record t := Make { min : Z; max : option Z }.

#[export] Instance t_eq_dec : EqDecision t.
Proof. solve_decision. Defined.

(** [CallCount::validate]. *)
Definition validate (self : t) : result t :=
  if match max self with Some max => max <? min self | None => false end
  then Err (error "call count range is empty")
  else Ok self.

(** The argument types with an [Into<CallCount>]. *)
Inductive bounds :=
| Exact (count : Z)
| Range (start stop : Z)
| RangeInclusive (start stop : Z)
| RangeFrom (start : Z)
| RangeTo (stop : Z)
| RangeToInclusive (stop : Z)
| RangeFull.

Definition from_usize (count : Z) : t := Make count (Some count).

Definition from_range (start stop : Z) : t :=
  match checked_sub stop 1 with
  | Some max => Make start (Some max)
  | None => Make 1 (Some 0)
  end.

Definition from_range_inclusive (start stop : Z) : t := Make start (Some stop).
Definition from_range_from (start : Z) : t := Make start None.
Definition from_range_to (stop : Z) : t := from_range 0 stop.
Definition from_range_to_inclusive (stop : Z) : t := from_range_inclusive 0 stop.
Definition from_range_full : t := from_range_from 0.

(** [impl From<..> for CallCount], one arm per implementation. *)
Definition from (b : bounds) : t :=
  match b with
  | Exact count => from_usize count
  | Range start stop => from_range start stop
  | RangeInclusive start stop => from_range_inclusive start stop
  | RangeFrom start => from_range_from start
  | RangeTo stop => from_range_to stop
  | RangeToInclusive stop => from_range_to_inclusive stop
  | RangeFull => from_range_full
  end.

(** What the range types mean: [RangeBounds::contains]. *)
Definition contains (b : bounds) (n : Z) : Prop :=
  match b with
  | Exact count => n = count
  | Range start stop => start ≤ n < stop
  | RangeInclusive start stop => start ≤ n ≤ stop
  | RangeFrom start => start ≤ n
  | RangeTo stop => n < stop
  | RangeToInclusive stop => n ≤ stop
  | RangeFull => True
  end.

(** The end points are [usize]s. *)
Definition bounds_ok (b : bounds) : Prop :=
  match b with
  | Exact n | RangeFrom n | RangeTo n | RangeToInclusive n => 0 ≤ n ≤ usize_max
  | Range a b | RangeInclusive a b => 0 ≤ a ≤ usize_max ∧ 0 ≤ b ≤ usize_max
  | RangeFull => True
  end.

(** The counts a [CallCount] lets through. *)
Definition admits (c : t) (n : Z) : Prop :=
  min c ≤ n ∧ ∀ m, max c = Some m → n ≤ m.

(** The fields are [usize]s. *)
Definition sized (c : t) : Prop :=
  0 ≤ min c ≤ usize_max ∧ ∀ m, max c = Some m → m ≤ usize_max.

Definition valid (c : t) : Prop :=
  sized c ∧ ∀ m, max c = Some m → min c ≤ m.

Lemma validate_Ok c c' :
  validate c = Ok c' ↔ c' = c ∧ ∀ m, max c = Some m → min c ≤ m.
Proof.
  unfold validate. destruct c as [lo [hi|]]; simpl; [|naive_solver].
  destruct (Z.ltb_spec hi lo); split.
  - done.
  - intros [-> Hm]. specialize (Hm _ eq_refl). lia.
  - intros [= <-]. split; [done|]. by intros m [= <-].
  - by intros [-> _].
Qed.

Lemma from_sized b : bounds_ok b → sized (from b).
Proof.
  unfold sized, usize_max.
  destruct b; simpl; unfold from_range_to, from_range, checked_sub, usize_max;
    repeat (case_match; simplify_eq/=);
    (split; [lia|intros; simplify_eq; lia]).
Qed.

Lemma from_admits b n :
  bounds_ok b → 0 ≤ n → admits (from b) n ↔ contains b n.
Proof.
  unfold admits. intros Hb Hn.
  destruct b; simpl in *; unfold from_range_to, from_range, checked_sub;
    repeat (case_match; simplify_eq/=);
    (split; [intros [? Hm]; try specialize (Hm _ eq_refl); lia
            |intros; split; [lia|intros; simplify_eq; lia]]).
Qed.
End CallCount.

(** ** The shared objects *)

Module SequenceProgress.
Record t := Make { next : Z; cursor : Z }.
End SequenceProgress.

(** [Sequence]: a handle on its shared progress. *)
Abbreviation Sequence := nat (only parsing).

Module Ticket.
Record t := Make { sequence : Sequence; index : Z }.
End Ticket.

Module Config.
Record t := Make { count : option CallCount.t; sequence : option Sequence }.

Definition default : t := Make None None.

Definition times (self : t) (count : CallCount.bounds) : t :=
  Make (Some (CallCount.from count)) (sequence self).

Definition once (self : t) : t := times self (CallCount.Exact 1).

Definition in_sequence (self : t) (s : Sequence) : t := Make (count self) (Some s).

Definition for_once (self : t) : result t :=
  count ← CallCount.validate
    (match count self with Some c => c | None => CallCount.from_usize 1 end);
  if match CallCount.max count with None => true | Some max => 1 <? max end
  then Err (error "a one-shot response allows at most one call")
  else Ok (Make (Some count) (sequence self)).

Definition validate (self : t) : result CallCount.t :=
  count ← CallCount.validate
    (match count self with Some c => c | None => CallCount.from_range_full end);
  if bool_decide (is_Some (sequence self)) &&
     ((CallCount.min count =? 0) ||
      negb (bool_decide (CallCount.max count = Some (CallCount.min count))))
  then Err (error "sequence expectations need an exact positive count")
  else Ok count.

(** A sequence expectation has an exact positive count. *)
Lemma config_validate_Ok self c :
  validate self = Ok c →
  (c = match count self with Some c => c | None => CallCount.from_range_full end) ∧
  (∀ m, CallCount.max c = Some m → CallCount.min c ≤ m) ∧
  (∀ s, sequence self = Some s →
     CallCount.min c ≠ 0 ∧ CallCount.max c = Some (CallCount.min c)).
Proof.
  unfold validate. intros H. inv_ok.
  apply CallCount.validate_Ok in Heq as [Hc Hv]. rewrite <-Hc in Hv.
  case_match eqn:Hg; [discriminate|]. injection H as ->. split_and!; [done..|].
  intros s Hs. rewrite Hs in Hg.
  rewrite bool_decide_true in Hg by eauto.
  destruct (Z.eqb_spec (CallCount.min c) 0); [done|].
  destruct (bool_decide_reflect (CallCount.max c = Some (CallCount.min c))); done.
Qed.

(** What a test can write with the builder methods. *)
Inductive built : t → Prop :=
| built_default : built default
| built_times c b : built c → CallCount.bounds_ok b → built (times c b)
| built_in_sequence c s : built c → built (in_sequence c s)
| built_for_once c c' : built c → for_once c = Ok c' → built c'.

Lemma for_once_Ok c c' :
  for_once c = Ok c' →
  ∃ n m, count c' = Some (CallCount.Make n (Some m)) ∧ n ≤ m ≤ 1 ∧
    sequence c' = sequence c ∧
    (count c = Some (CallCount.Make n (Some m)) ∨ count c = None ∧ n = 1 ∧ m = 1).
Proof.
  unfold for_once. intros H. inv_ok.
  apply CallCount.validate_Ok in Heq as [-> Hv].
  case_match eqn:Hm; [discriminate|]. inv_ok. simpl.
  destruct (count c) as [[n [m|]]|]; simpl in *; try done.
  - specialize (Hv _ eq_refl). exists n, m. split_and!; auto; lia.
  - exists 1, 1. split_and!; auto; lia.
Qed.

Lemma built_sized c n : built c → count c = Some n → CallCount.sized n.
Proof.
  intros Hb. revert n. induction Hb as [|c b Hb IH Hok|c s Hb IH|c c' Hb IH Ho];
    intros n Hn; simpl in *; simplify_eq; eauto.
  - by apply CallCount.from_sized.
  - destruct (for_once_Ok _ _ Ho) as (a & m & Hc & ? & _ & [Hold|(? & ? & ?)]);
      simplify_eq; simpl; [by apply (IH _ Hold)|].
    unfold CallCount.sized, usize_max; simpl. split; [lia|]. intros ? [= <-]. lia.
Qed.

Lemma validate_valid c n : built c → validate c = Ok n → CallCount.valid n.
Proof.
  intros Hb (-> & Hv & _)%config_validate_Ok. split; [|done].
  destruct (count c) eqn:Hc; [by eapply built_sized|].
  by apply (CallCount.from_sized CallCount.RangeFull).
Qed.
End Config.

Module Meta.
(** [Meta] with the [Progress] behind its mutex. *)
Record t := Make {
  name : string;
  count : CallCount.t;
  calls : Z;
  ticket : option Ticket.t;
  failure : option string }.

Definition set_calls (n : Z) (m : t) : t :=
  Make (name m) (count m) n (ticket m) (failure m).
Definition set_ticket (x : Ticket.t) (m : t) : t :=
  Make (name m) (count m) (calls m) (Some x) (failure m).
(** [failure.get_or_insert_with(..)]. *)
Definition insert_failure (message : string) (m : t) : t :=
  Make (name m) (count m) (calls m) (ticket m)
    (match failure m with Some old => Some old | None => Some message end).
End Meta.

Inductive Claim := Taken | Exhausted.

(** [trait Rule]: what a mock's generated rule type offers. *)
Class Rule (R : Type) := meta : R → nat.

Module State.
(** [State<R>] with the [Inner] behind its mutex. *)
Record t (R : Type) := Make {
  name : string;
  active : bool;
  rules : list R;
  failure : option Error }.
Arguments Make {R} name active rules failure.
Arguments name {R}. Arguments active {R}. Arguments rules {R}. Arguments failure {R}.

(** [failure.get_or_insert(..)]. *)
Definition insert_failure {R} (e : Error) (s : t R) : t R :=
  Make (name s) (active s) (rules s)
    (match failure s with Some old => Some old | None => Some e end).
Definition set_rules {R} (rs : list R) (s : t R) : t R :=
  Make (name s) (active s) rs (failure s).
Definition set_active {R} (b : bool) (s : t R) : t R :=
  Make (name s) b (rules s) (failure s).
End State.

(** The heap: the targets of the [Arc]s, and [ACTIVE_CALLS] of every thread. *)
Record World (R : Type) := mkWorld {
  sequences : list SequenceProgress.t;
  metas : list Meta.t;
  mocks : list (State.t R);
  active_calls : gmap nat (list nat) }.
Arguments mkWorld {R} sequences metas mocks active_calls.
Arguments sequences {R}. Arguments metas {R}.
Arguments mocks {R}. Arguments active_calls {R}.

(** ** Operations *)

Section operations.
Context {R : Type} `{!Rule R}.
Implicit Types w : World R.

Definition at_sequences (f : list SequenceProgress.t → list SequenceProgress.t) w : World R :=
  mkWorld (f (sequences w)) (metas w) (mocks w) (active_calls w).
Definition at_metas (f : list Meta.t → list Meta.t) w : World R :=
  mkWorld (sequences w) (f (metas w)) (mocks w) (active_calls w).
Definition at_mocks (f : list (State.t R) → list (State.t R)) w : World R :=
  mkWorld (sequences w) (metas w) (f (mocks w)) (active_calls w).
Definition at_active (f : gmap nat (list nat) → gmap nat (list nat)) w : World R :=
  mkWorld (sequences w) (metas w) (mocks w) (f (active_calls w)).

(** Following an [Arc]. *)
Definition deref {A} (heap : World R → list A) (p : nat) : M Error (World R) A := λ w,
  lift (expect "dangling Arc" (heap w !! p)) w.

(** [Sequence::new]. *)
Definition sequence_new : M Error (World R) Sequence := λ w,
  (Ok (length (sequences w)), at_sequences (λ l, l ++ [SequenceProgress.Make 0 0]) w).

(** [Sequence::reserve]. *)
Definition reserve (self : Sequence) : M Error (World R) Ticket.t :=
  progress ← deref sequences self;
  next ← lift (ok_or (error "sequence is full")
    (checked_add (SequenceProgress.next progress) 1));
  modify (at_sequences
    (<[self := SequenceProgress.Make next (SequenceProgress.cursor progress)]>));;
  mret (Ticket.Make self (SequenceProgress.next progress)).

(** [Meta::fail]. *)
Definition meta_fail {A} (self : nat) (reason : string) : M Error (World R) A :=
  m ← deref metas self;
  let message := Meta.name m +:+ ": " +:+ reason in
  modify (at_metas (<[self := Meta.insert_failure message m]>));;
  throw (error message).

(** The sequence part of [Meta::claim]. *)
Definition claim_ticket (self : nat) (max : option Z) (calls : Z) (ticket : option Ticket.t)
  : M Error (World R) unit :=
  match ticket with
  | None => mret tt
  | Some ticket =>
      sequence ← deref sequences (Ticket.sequence ticket);
      if negb (SequenceProgress.cursor sequence =? Ticket.index ticket) then
        meta_fail self "call arrived out of order"
      else if bool_decide (max = Some calls) then
        cursor ← lift (expect "attempt to add with overflow"
          (checked_add (SequenceProgress.cursor sequence) 1));
        modify (at_sequences (<[Ticket.sequence ticket :=
          SequenceProgress.Make (SequenceProgress.next sequence) cursor]>))
      else mret tt
  end.

(** [Meta::claim]. *)
Definition claim (self : nat) : M Error (World R) Claim :=
  m ← deref metas self;
  let max := CallCount.max (Meta.count m) in
  if bool_decide (max = Some 0) then meta_fail self "a forbidden call was made"
  else if match max with Some max => max <=? Meta.calls m | None => false end
  then mret Exhausted
  else match checked_add (Meta.calls m) 1 with
       | None => meta_fail self "call count overflow"
       | Some calls =>
           claim_ticket self max calls (Meta.ticket m);;
           modify (at_metas (<[self := Meta.set_calls calls m]>));;
           mret Taken
       end.

(** [Meta::verify]. *)
Definition meta_verify (self : Meta.t) : result unit :=
  match Meta.failure self with
  | Some message => Err (error message)
  | None =>
      if Meta.calls self <? CallCount.min (Meta.count self)
      then Err (error (Meta.name self +:+ ": expected at least " +:+
             pretty (CallCount.min (Meta.count self)) +:+ " calls, observed " +:+
             pretty (Meta.calls self)))
      else Ok tt
  end.

(** [Expectation]: a handle on its [Meta]; [Expectation::calls] and
    [Expectation::verify]. *)
Abbreviation Expectation := nat (only parsing).

Definition expectation_calls (self : Expectation) : M Error (World R) Z :=
  m ← deref metas self; mret (Meta.calls m).

Definition expectation_verify (self : Expectation) : M Error (World R) unit :=
  m ← deref metas self; lift (check (meta_verify m)).

(** [State::new]. *)
Definition state_new (name : string) : M Error (World R) nat := λ w,
  (Ok (length (mocks w)), at_mocks (λ l, l ++ [State.Make name true [] None]) w).

(** [State::fail]. *)
Definition state_fail {A} (self : nat) (failure : Error) : M Error (World R) A :=
  s ← deref mocks self;
  modify (at_mocks (<[self := State.insert_failure failure s]>));;
  panic (display failure).

(** [Arc::new(Meta { .. })] with [Progress::default()]. *)
Definition meta_new (name : string) (count : CallCount.t) : M Error (World R) nat := λ w,
  (Ok (length (metas w)), at_metas (λ l, l ++ [Meta.Make name count 0 None None]) w).

Definition no_longer_active (name : string) : Error :=
  error (name +:+ ": mock is no longer active").

(** [inner.rules.push(rule)]. *)
Definition push_rule (self : nat) (rule : R) : M Error (World R) unit :=
  s ← deref mocks self;
  modify (at_mocks (<[self := State.set_rules (State.rules s ++ [rule]) s]>)).

(** [State::add] and [State::add_with]. *)
Definition add (self : nat) (config : Config.t) (make : nat → R) : M Error (World R) Expectation :=
  count ← lift (Config.validate config);
  s ← deref mocks self;
  if negb (State.active s) then throw (no_longer_active (State.name s)) else
  meta ← meta_new (State.name s) count;
  let rule := make meta in
  s ← deref mocks self;
  if negb (State.active s) then throw (no_longer_active (State.name s)) else
  match Config.sequence config with
  | Some sequence =>
      ticket ← reserve sequence;
      m ← deref metas meta;
      modify (at_metas (<[meta := Meta.set_ticket ticket m]>))
  | None => mret tt
  end;;
  push_rule self rule;;
  mret meta.

(** The loop of [State::select]. *)
Fixpoint select_loop (self : nat) (matches : R → bool) (matched : bool) (rules : list R)
  : M Error (World R) R :=
  match rules with
  | [] =>
      s ← deref mocks self;
      state_fail self (error (State.name s +:+ ": " +:+
        (if matched then "matching expectations are exhausted"
         else "no expectation matched this call")))
  | rule :: rules =>
      if matches rule then
        r ← attempt (claim (meta rule));
        match r with
        | Ok Taken => mret rule
        | Ok Exhausted => select_loop self matches true rules
        | Err failure => state_fail self failure
        | Panic message => panic message
        | Abort => abort
        end
      else select_loop self matches matched rules
  end.

(** [State::select]. *)
Definition select (self : nat) (matches : R → bool) : M Error (World R) R :=
  s ← deref mocks self;
  if negb (State.active s) then state_fail self (no_longer_active (State.name s))
  else select_loop self matches false (State.rules s).

(** The loop of [State::verify_inner]. *)
Fixpoint verify_rules (rules : list R) : M Error (World R) unit :=
  match rules with
  | [] => mret tt
  | rule :: rules =>
      m ← deref metas (meta rule);
      lift (meta_verify m);;
      verify_rules rules
  end.

(** [State::verify_inner]. *)
Definition verify_inner (inner : State.t R) : M Error (World R) unit :=
  match State.failure inner with
  | Some failure => throw failure
  | None => verify_rules (State.rules inner)
  end.

(** [State::verify]. *)
Definition state_verify (self : nat) : M Error (World R) unit :=
  inner ← deref mocks self; verify_inner inner.

(** [State::checkpoint]. *)
Definition checkpoint (self : nat) : M Error (World R) unit :=
  inner ← deref mocks self;
  if negb (State.active inner) then throw (no_longer_active (State.name inner)) else
  verify_inner inner;;
  modify (at_mocks (<[self := State.set_rules [] inner]>)).

(** [State::deactivate]. *)
Definition deactivate (self : nat) : M Error (World R) unit :=
  inner ← deref mocks self;
  modify (at_mocks (<[self := State.set_rules [] (State.set_active false inner)]>)).

(** [ACTIVE_CALLS] of a thread. *)
Definition calls_of (thread : nat) w : list nat :=
  default [] (active_calls w !! thread).

(** [CallGuard::try_enter]; the guard is its key. *)
Definition try_enter (thread key : nat) : M Error (World R) nat :=
  calls ← gets (calls_of thread);
  if bool_decide (key ∈ calls) then throw (error "a mock called itself recursively") else
  modify (at_active (<[thread := calls ++ [key]]>));;
  mret key.

(** [State::enter]. *)
Definition enter (thread self : nat) : M Error (World R) nat :=
  r ← attempt (try_enter thread self);
  match r with
  | Ok guard => mret guard
  | Err failure =>
      s ← deref mocks self;
      state_fail self (error (State.name s +:+ ": " +:+ display failure))
  | Panic message => panic message
  | Abort => abort
  end.

(** [Drop for CallGuard]. *)
Definition guard_drop (thread key : nat) : M Error (World R) unit :=
  modify (at_active (λ calls,
    <[thread := filter (.≠ key) (default [] (calls !! thread))]> calls)).
End operations.

(** ** The invariant *)

Section invariant.
Context {R : Type} `{!Rule R}.
Implicit Types w : World R.

(** One expectation: a valid count that the calls never exceed. *)
Definition meta_ok (m : Meta.t) : Prop :=
  CallCount.valid (Meta.count m) ∧ 0 ≤ Meta.calls m ≤ usize_max ∧
  ∀ k, CallCount.max (Meta.count m) = Some k → Meta.calls m ≤ k.

Definition sequence_ok (p : SequenceProgress.t) : Prop :=
  0 ≤ SequenceProgress.cursor p ≤ SequenceProgress.next p ∧
  SequenceProgress.next p ≤ usize_max.

(** An expectation with a ticket: the ones before the cursor are complete,
    the one at the cursor has calls left, the later ones were never called. *)
Definition ticket_ok (m : Meta.t) (x : Ticket.t) (p : SequenceProgress.t) : Prop :=
  0 ≤ Ticket.index x < SequenceProgress.next p ∧
  ∃ n, 0 < n ∧ CallCount.max (Meta.count m) = Some n ∧ CallCount.min (Meta.count m) = n ∧
    (Ticket.index x < SequenceProgress.cursor p → Meta.calls m = n) ∧
    (Ticket.index x = SequenceProgress.cursor p → Meta.calls m < n) ∧
    (SequenceProgress.cursor p < Ticket.index x → Meta.calls m = 0).

Record world_ok w : Prop := {
  ok_metas i m : metas w !! i = Some m → meta_ok m;
  ok_sequences s p : sequences w !! s = Some p → sequence_ok p;
  ok_tickets i m x :
    metas w !! i = Some m → Meta.ticket m = Some x →
    ∃ p, sequences w !! Ticket.sequence x = Some p ∧ ticket_ok m x p;
  ok_distinct i j m m' x :
    metas w !! i = Some m → metas w !! j = Some m' →
    Meta.ticket m = Some x → Meta.ticket m' = Some x → i = j;
  ok_reserved s p k :
    sequences w !! s = Some p → 0 ≤ k < SequenceProgress.next p →
    ∃ i m, metas w !! i = Some m ∧ Meta.ticket m = Some (Ticket.Make s k);
  ok_rules k s r :
    mocks w !! k = Some s → r ∈ State.rules s → is_Some (metas w !! meta r) }.

(** [m] accepts no further call. *)
Definition exhausted w (i : nat) : Prop :=
  ∃ m k, metas w !! i = Some m ∧ CallCount.max (Meta.count m) = Some k ∧
    0 < k ≤ Meta.calls m.

Definition fail_meta (i : nat) (m : Meta.t) (message : string) w : World R :=
  at_metas (<[i := Meta.insert_failure message m]>) w.

(** Moving the cursor when the last expected call arrived. *)
Definition advance (x : option Ticket.t) (last : bool) w : World R :=
  match x with
  | Some x => if last then at_sequences (alter (λ p,
                SequenceProgress.Make (SequenceProgress.next p)
                  (SequenceProgress.cursor p + 1)) (Ticket.sequence x)) w
              else w
  | None => w
  end.

Definition count_call (i : nat) (m : Meta.t) w : World R :=
  at_metas (<[i := Meta.set_calls (Meta.calls m + 1) m]>)
    (advance (Meta.ticket m)
       (bool_decide (CallCount.max (Meta.count m) = Some (Meta.calls m + 1))) w).

(** The sequence lets [m] take a call now. *)
Definition in_turn (m : Meta.t) w : Prop :=
  ∀ x p, Meta.ticket m = Some x → sequences w !! Ticket.sequence x = Some p →
    SequenceProgress.cursor p = Ticket.index x.

(** The branches of [claim]. *)
Inductive claim_spec w (i : nat) (m : Meta.t) : outcome Error Claim → World R → Prop :=
| claim_forbidden :
    CallCount.max (Meta.count m) = Some 0 →
    claim_spec w i m (Err (error (Meta.name m +:+ ": a forbidden call was made")))
      (fail_meta i m (Meta.name m +:+ ": a forbidden call was made") w)
| claim_exhausted :
    exhausted w i → claim_spec w i m (Ok Exhausted) w
| claim_overflow :
    CallCount.max (Meta.count m) = None → Meta.calls m = usize_max →
    claim_spec w i m (Err (error (Meta.name m +:+ ": call count overflow")))
      (fail_meta i m (Meta.name m +:+ ": call count overflow") w)
| claim_out_of_order x p :
    ¬ exhausted w i →
    Meta.ticket m = Some x → sequences w !! Ticket.sequence x = Some p →
    SequenceProgress.cursor p < Ticket.index x →
    claim_spec w i m (Err (error (Meta.name m +:+ ": call arrived out of order")))
      (fail_meta i m (Meta.name m +:+ ": call arrived out of order") w)
| claim_taken :
    Meta.calls m < usize_max →
    (∀ k, CallCount.max (Meta.count m) = Some k → Meta.calls m < k) →
    in_turn m w →
    claim_spec w i m (Ok Taken) (count_call i m w).

Lemma deref_bind {A B} (heap : World R → list A) p a (f : A → M Error (World R) B) w :
  heap w !! p = Some a → (deref heap p ≫= f) w = f a w.
Proof. unfold mbind, M_bind, deref, lift. by intros ->. Qed.

Lemma meta_fail_run {A} w i m reason :
  metas w !! i = Some m →
  meta_fail (A:=A) i reason w =
    (Err (error (Meta.name m +:+ ": " +:+ reason)),
     fail_meta i m (Meta.name m +:+ ": " +:+ reason) w).
Proof. intros Hm. unfold meta_fail. by rewrite (deref_bind _ _ _ _ _ Hm). Qed.

(** The sequence part of a claim on an expectation that has calls left. *)
Lemma claim_ticket_run w i m :
  world_ok w → metas w !! i = Some m →
  (∀ k, CallCount.max (Meta.count m) = Some k → Meta.calls m < k) →
  let max := CallCount.max (Meta.count m) in
  let calls := Meta.calls m + 1 in
  (in_turn m w ∧
   claim_ticket i max calls (Meta.ticket m) w =
     (Ok tt, advance (Meta.ticket m) (bool_decide (max = Some calls)) w)) ∨
  (∃ x p, Meta.ticket m = Some x ∧ sequences w !! Ticket.sequence x = Some p ∧
     SequenceProgress.cursor p < Ticket.index x ∧
     claim_ticket i max calls (Meta.ticket m) w =
       meta_fail i "call arrived out of order" w).
Proof.
  intros Hw Hm Hlt max calls. unfold in_turn, claim_ticket.
  destruct (Meta.ticket m) as [x|] eqn:Hx; [|by left].
  destruct (ok_tickets _ Hw _ _ _ Hm Hx) as (p & Hp & Hi & n & Hn & Hmax & _ & Hdone & _ & _).
  rewrite (deref_bind _ _ _ _ _ Hp).
  destruct (Z.eqb_spec (SequenceProgress.cursor p) (Ticket.index x)) as [He|Hne]; simpl.
  - left. split; [naive_solver|].
    destruct (bool_decide _); [|done].
    destruct (ok_sequences _ Hw _ _ Hp) as [_ Hnext].
    unfold checked_add. rewrite (proj2 (Z.leb_le _ _)) by lia.
    unfold mbind, M_bind, lift, expect, modify, at_sequences. f_equal. f_equal.
    by rewrite (list_alter_insert _ _ _ _ Hp).
  - right. exists x, p. split_and!; try done.
    destruct (decide (SequenceProgress.cursor p < Ticket.index x)) as [|Hge]; [done|].
    specialize (Hlt _ Hmax). rewrite Hdone in Hlt by lia. lia.
Qed.

Lemma claim_correct w i m :
  world_ok w → metas w !! i = Some m →
  ∃ r w', claim i w = (r, w') ∧ claim_spec w i m r w'.
Proof.
  intros Hw Hm. destruct (ok_metas _ Hw _ _ Hm) as (Hv & Hc & Hmax).
  unfold claim. rewrite (deref_bind _ _ _ _ _ Hm).
  destruct (bool_decide_reflect (CallCount.max (Meta.count m) = Some 0)) as [H0|H0].
  { rewrite (meta_fail_run _ _ _ _ Hm). eexists _, _. split; [done|]. by constructor. }
  destruct (match CallCount.max (Meta.count m) with
            | Some max => max <=? Meta.calls m | None => false end) eqn:Hex.
  { destruct (CallCount.max (Meta.count m)) as [k|] eqn:Hk; [|done].
    eexists _, _. split; [done|]. constructor. exists m, k. apply Z.leb_le in Hex.
    destruct Hv as [[? _] Hv]. specialize (Hv _ Hk).
    split_and!; try done. assert (k ≠ 0) by congruence. lia. }
  assert (∀ k, CallCount.max (Meta.count m) = Some k → Meta.calls m < k) as Hlt.
  { intros k Hk. rewrite Hk in Hex. lia. }
  destruct (checked_add (Meta.calls m) 1) as [c|] eqn:Hadd.
  2:{ unfold checked_add in Hadd. case_match eqn:Hle; [done|]. apply Z.leb_gt in Hle.
      rewrite (meta_fail_run _ _ _ _ Hm). eexists _, _. split; [done|].
      constructor; [|lia]. destruct (CallCount.max (Meta.count m)) as [k|] eqn:Hk; [|done].
      specialize (Hlt k eq_refl). destruct Hv as [[_ Hs] _]. specialize (Hs _ Hk). lia. }
  apply checked_add_Some in Hadd as [-> Hle].
  unfold mbind at 1, M_bind at 1.
  destruct (claim_ticket_run _ _ _ Hw Hm Hlt) as [[Hturn ->]|(x & p & Hx & Hp & Hi & ->)].
  - eexists _, _. split; [done|]. apply claim_taken; [lia|done..].
  - rewrite (meta_fail_run _ _ _ _ Hm). eexists _, _. split; [done|].
    eapply claim_out_of_order; [|done..]. intros (m' & k & ? & Hk & ?). simplify_eq.
    specialize (Hlt _ Hk). lia.
Qed.

(** *** Preservation *)

(** Recording a failure, or any change that keeps count, calls and ticket. *)
Lemma world_ok_failure w i m message :
  world_ok w → metas w !! i = Some m → world_ok (fail_meta i m message w).
Proof.
  intros [Hm Hs Ht Hd Hr Hk] Hi.
  assert (∀ j m', metas (fail_meta i m message w) !! j = Some m' →
    ∃ m0, metas w !! j = Some m0 ∧ Meta.count m0 = Meta.count m' ∧
      Meta.calls m0 = Meta.calls m' ∧ Meta.ticket m0 = Meta.ticket m') as Hback.
  { intros j m'. simpl. rewrite list_lookup_insert_Some.
    intros [(<- & <- & _)|[_ ?]]; eauto. }
  assert (∀ j m0, metas w !! j = Some m0 →
    ∃ m', metas (fail_meta i m message w) !! j = Some m' ∧
      Meta.ticket m' = Meta.ticket m0) as Hforth.
  { intros j m0 Hj. simpl. destruct (decide (i = j)) as [<-|?].
    - rewrite list_lookup_insert_eq by (by eapply lookup_lt_Some). simplify_eq. eauto.
    - rewrite list_lookup_insert_ne by done. eauto. }
  split.
  - intros j m' (m0 & Hj & Hc & Hn & _)%Hback. specialize (Hm _ _ Hj).
    unfold meta_ok in *. by rewrite <-Hc, <-Hn.
  - exact Hs.
  - intros j m' x (m0 & Hj & Hc & Hn & Htk)%Hback Hx. rewrite <-Htk in Hx.
    destruct (Ht _ _ _ Hj Hx) as (p & Hp & Hok). exists p. split; [done|].
    unfold ticket_ok in *. by rewrite <-Hc, <-Hn.
  - intros j j' m1 m2 x (? & ? & ? & ? & Ht1)%Hback (? & ? & ? & ? & Ht2)%Hback ??.
    rewrite <-Ht1, <-Ht2 in *. eauto.
  - intros s p k Hp Hki. destruct (Hr _ _ _ Hp Hki) as (j & m0 & Hj & Hx).
    destruct (Hforth _ _ Hj) as (m' & ? & Htk). exists j, m'. by rewrite Htk.
  - intros k s r Hks Hin. destruct (Hk _ _ _ Hks Hin) as [m0 Hm0].
    destruct (Hforth _ _ Hm0) as (m' & ? & _). eauto.
Qed.

Lemma metas_advance x b w : metas (advance x b w) = metas w.
Proof. by destruct x, b. Qed.

Lemma mocks_advance x b w : mocks (advance x b w) = mocks w.
Proof. by destruct x, b. Qed.

Lemma metas_count_call w i m j m' :
  metas (count_call i m w) !! j = Some m' ↔
  (i = j ∧ m' = Meta.set_calls (Meta.calls m + 1) m ∧ (j < length (metas w))%nat) ∨
  (i ≠ j ∧ metas w !! j = Some m').
Proof.
  unfold count_call. simpl. rewrite metas_advance.
  rewrite list_lookup_insert_Some. naive_solver.
Qed.

(** The sequences after a counted call: only the own cursor can move, and it
    moves exactly when the last expected call arrived. *)
Lemma sequences_count_call w i m s p' :
  sequences (count_call i m w) !! s = Some p' ↔
  ∃ p, sequences w !! s = Some p ∧ SequenceProgress.next p' = SequenceProgress.next p ∧
    SequenceProgress.cursor p' = SequenceProgress.cursor p +
      (if bool_decide ((Ticket.sequence <$> Meta.ticket m) = Some s ∧
                       CallCount.max (Meta.count m) = Some (Meta.calls m + 1))
       then 1 else 0).
Proof.
  unfold count_call, advance. simpl.
  assert (∀ p p' : SequenceProgress.t, p' = p ↔
    SequenceProgress.next p' = SequenceProgress.next p ∧
    SequenceProgress.cursor p' = SequenceProgress.cursor p + 0) as Hsame.
  { intros [a b] [c d]; simpl. rewrite Z.add_0_r. naive_solver. }
  assert (∀ o, o = Some p' ↔ ∃ p, o = Some p ∧ p' = p) as Hex by naive_solver.
  destruct (Meta.ticket m) as [x|]; simpl.
  - destruct (bool_decide_reflect (CallCount.max (Meta.count m) = Some (Meta.calls m + 1)))
      as [Hl|Hl]; simpl.
    + destruct (decide (Ticket.sequence x = s)) as [<-|Hne].
      * rewrite bool_decide_true by done. rewrite list_lookup_alter_eq, fmap_Some.
        apply exist_proper; intros p. destruct p' as [a b]; naive_solver.
      * rewrite bool_decide_false by naive_solver. rewrite list_lookup_alter_ne by done.
        rewrite Hex. apply exist_proper; intros p. by rewrite Hsame.
    + rewrite bool_decide_false by naive_solver.
      rewrite Hex. apply exist_proper; intros p. by rewrite Hsame.
  - rewrite Hex. apply exist_proper; intros p. by rewrite Hsame.
Qed.

Lemma ticket_count_call w i m j m' x :
  world_ok w → metas w !! i = Some m →
  (∀ k, CallCount.max (Meta.count m) = Some k → Meta.calls m < k) → in_turn m w →
  metas (count_call i m w) !! j = Some m' → Meta.ticket m' = Some x →
  ∃ p, sequences (count_call i m w) !! Ticket.sequence x = Some p ∧ ticket_ok m' x p.
Proof.
  intros Hw Hi Hlt Hturn Hj Hx.
  assert (∃ m0, metas w !! j = Some m0 ∧ Meta.ticket m0 = Meta.ticket m')
    as (m0 & Hj0 & Htk).
  { apply metas_count_call in Hj as [(<- & -> & _)|[_ ?]]; eauto. }
  rewrite <-Htk in Hx.
  destruct (ok_tickets _ Hw _ _ _ Hj0 Hx) as (p & Hp & Hidx & n & Hn & Hmax & Hmin & H1 & H2 & H3).
  set (b := bool_decide ((Ticket.sequence <$> Meta.ticket m) = Some (Ticket.sequence x) ∧
    CallCount.max (Meta.count m) = Some (Meta.calls m + 1))).
  exists (SequenceProgress.Make (SequenceProgress.next p)
    (SequenceProgress.cursor p + (if b then 1 else 0))).
  split; [rewrite sequences_count_call; eauto|]. split; [done|]. simpl.
  apply metas_count_call in Hj as [(<- & -> & _)|[Hne Hj]].
  - assert (m0 = m) as -> by congruence. simpl. exists n.
    specialize (Hturn _ _ Hx Hp). specialize (Hlt _ Hmax).
    assert (b = true ∧ n = Meta.calls m + 1 ∨ b = false ∧ n ≠ Meta.calls m + 1) as Hb.
    { subst b. rewrite Hx, Hmax. case_bool_decide as Hb; [left|right]; split; try done.
      - by destruct Hb as [_ [=]].
      - intros ->. by apply Hb. }
    split_and!; try done; destruct Hb as [[-> ?]|[-> ?]]; lia.
  - assert (m0 = m') as -> by congruence. exists n.
    destruct b eqn:Hb; [|rewrite Z.add_0_r; split_and!; done].
    apply bool_decide_eq_true in Hb as [Hsx Hlast].
    apply fmap_Some in Hsx as (y & Hy & Hxy).
    rewrite Hxy in Hp. specialize (Hturn _ _ Hy Hp).
    assert (Ticket.index y ≠ Ticket.index x).
    { intros He. apply Hne. eapply (ok_distinct _ Hw _ _ _ _ x Hi Hj); [|done].
      rewrite Hy. f_equal. destruct x, y; simpl in *; congruence. }
    split_and!; try done; lia.
Qed.

Lemma world_ok_count_call w i m :
  world_ok w → metas w !! i = Some m → Meta.calls m < usize_max →
  (∀ k, CallCount.max (Meta.count m) = Some k → Meta.calls m < k) → in_turn m w →
  world_ok (count_call i m w).
Proof.
  intros Hw Hi Hu Hlt Hturn. destruct (Hw) as [Hm Hs Ht Hd Hr Hk]. pose proof (lookup_lt_Some _ _ _ Hi) as Hlen.
  assert (∀ j m', metas (count_call i m w) !! j = Some m' →
    ∃ m0, metas w !! j = Some m0 ∧ Meta.ticket m0 = Meta.ticket m') as Hback.
  { intros j m' [(<- & -> & _)|[_ ?]]%metas_count_call; eauto. }
  assert (∀ j m0, metas w !! j = Some m0 →
    ∃ m', metas (count_call i m w) !! j = Some m' ∧ Meta.ticket m' = Meta.ticket m0) as Hforth.
  { intros j m0 Hj. destruct (decide (i = j)) as [<-|?]; eexists;
      rewrite metas_count_call; split; [left; eauto| |right; eauto|done].
    simplify_eq. done. }
  split.
  - intros j m' [(<- & -> & _)|[_ Hj]]%metas_count_call; [|by eauto].
    destruct (Hm _ _ Hi) as (Hv & Hc & _). split; [done|]. simpl. split; [lia|].
    intros k Hk'. specialize (Hlt _ Hk'). lia.
  - intros s p' (p & Hp & Hn & Hc)%sequences_count_call.
    destruct (Hs _ _ Hp) as [? ?]. unfold sequence_ok. rewrite Hn, Hc.
    case_bool_decide as Hb; [destruct Hb as [Hx _]|rewrite Z.add_0_r; lia].
    apply fmap_Some in Hx as (x & Hx & ->).
    specialize (Hturn _ _ Hx Hp).
    destruct (Ht _ _ _ Hi Hx) as (q & Hq & Hidx & _). simplify_eq. lia.
  - intros j m' x. by apply ticket_count_call.
  - intros j j' m1 m2 x (? & ? & Ht1)%Hback (? & ? & Ht2)%Hback ??.
    rewrite <-Ht1, <-Ht2 in *. eauto.
  - intros s p' k (p & Hp & Hn & _)%sequences_count_call Hki. rewrite Hn in Hki.
    destruct (Hr _ _ _ Hp Hki) as (j & m0 & Hj & Hx).
    destruct (Hforth _ _ Hj) as (m' & ? & Htk). exists j, m'. by rewrite Htk.
  - intros k s r Hks Hin.
    unfold count_call in Hks. simpl in Hks. rewrite mocks_advance in Hks. destruct (Hk _ _ _ Hks Hin) as [m0 Hm0].
    destruct (Hforth _ _ Hm0) as (m' & ? & _). eauto.
Qed.

(** A new expectation: no ticket yet, or the next one of a sequence. *)
Lemma world_ok_meta_new w name count :
  world_ok w → CallCount.valid count →
  world_ok (at_metas (λ l, l ++ [Meta.Make name count 0 None None]) w).
Proof.
  intros [Hm Hs Ht Hd Hr Hk] Hc.
  assert (∀ j m, (metas w ++ [Meta.Make name count 0 None None]) !! j = Some m →
    metas w !! j = Some m ∨ m = Meta.Make name count 0 None None) as Hback.
  { intros j m. rewrite lookup_app_Some. intros [?|[_ ?%list_lookup_singleton_Some]];
      naive_solver. }
  split; simpl; try done.
  - intros j m [Hj| ->]%Hback; [eauto|].
    split; [done|]. simpl. split; [unfold usize_max; lia|].
    intros k Hk'. destruct Hc as [[? _] Hc]. specialize (Hc _ Hk'). lia.
  - intros j m x [Hj| ->]%Hback; [eauto|done].
  - intros j j' m m' x [Hj| ->]%Hback [Hj'| ->]%Hback; naive_solver.
  - intros s p k Hp Hki. destruct (Hr _ _ _ Hp Hki) as (j & m & Hj & Hx).
    exists j, m. by rewrite (lookup_app_l_Some _ _ _ _ Hj).
  - intros k s r Hks Hin. destruct (Hk _ _ _ Hks Hin) as [m Hm'].
    exists m. by apply lookup_app_l_Some.
Qed.

Lemma world_ok_reserve w i m s p :
  world_ok w → metas w !! i = Some m → sequences w !! s = Some p →
  Meta.ticket m = None → Meta.calls m = 0 →
  CallCount.min (Meta.count m) ≠ 0 →
  CallCount.max (Meta.count m) = Some (CallCount.min (Meta.count m)) →
  SequenceProgress.next p < usize_max →
  world_ok (at_metas (<[i := Meta.set_ticket (Ticket.Make s (SequenceProgress.next p)) m]>)
    (at_sequences (<[s := SequenceProgress.Make (SequenceProgress.next p + 1)
                            (SequenceProgress.cursor p)]>) w)).
Proof.
  intros [Hm Hs Ht Hd Hr Hk] Hi Hp Hnone Hzero Hmin Hmax Hn.
  pose proof (lookup_lt_Some _ _ _ Hi) as Hli. pose proof (lookup_lt_Some _ _ _ Hp) as Hlp.
  destruct (Hs _ _ Hp) as [Hcur _]. destruct (Hm _ _ Hi) as ([[Hmin0 _] _] & _ & _).
  assert (∀ j m' x, metas w !! j = Some m' → Meta.ticket m' = Some x →
    Ticket.sequence x = s → Ticket.index x < SequenceProgress.next p) as Hold.
  { intros j m' x Hj Hx <-. destruct (Ht _ _ _ Hj Hx) as (q & ? & ? & _). simplify_eq. lia. }
  split; simpl.
  - intros j m' [(<- & <- & _)|[_ ?]]%list_lookup_insert_Some; [|by eauto].
    apply (Hm _ _ Hi).
  - intros s' q [(<- & <- & _)|[_ ?]]%list_lookup_insert_Some; [|by eauto].
    unfold sequence_ok; simpl; lia.
  - intros j m' x [(<- & <- & _)|[Hne Hj]]%list_lookup_insert_Some.
    + intros [= <-]. simpl. rewrite list_lookup_insert_eq by done. eexists. split; [done|].
      split; simpl; [lia|]. eexists. split_and!; try done; lia.
    + intros Hx. destruct (Ht _ _ _ Hj Hx) as (q & Hq & Hidx & n & Hn').
      destruct (decide (s = Ticket.sequence x)) as [->|?].
      * rewrite list_lookup_insert_eq by done. eexists. split; [done|]. simplify_eq.
        split; simpl; [lia|]. by exists n.
      * rewrite list_lookup_insert_ne by done. exists q. split; [done|]. split; [done|].
        by exists n.
  - intros j j' m1 m2 x [(<- & <- & _)|[Hne Hj]]%list_lookup_insert_Some
      [(<- & <- & _)|[Hne' Hj']]%list_lookup_insert_Some; simpl; try done.
    + intros [= <-] Hx. specialize (Hold _ _ _ Hj' Hx eq_refl). simpl in Hold. lia.
    + intros Hx [= <-]. specialize (Hold _ _ _ Hj Hx eq_refl). simpl in Hold. lia.
    + eauto.
  - intros s' q k [(<- & <- & _)|[Hne Hq]]%list_lookup_insert_Some Hki; simpl in Hki.
    + destruct (decide (k = SequenceProgress.next p)) as [->|?].
      * exists i. rewrite list_lookup_insert_eq by done. eauto.
      * destruct (Hr s p k Hp ltac:(lia)) as (j & m' & Hj & Hx). exists j, m'.
        rewrite list_lookup_insert_ne by naive_solver. done.
    + destruct (Hr s' q k Hq Hki) as (j & m' & Hj & Hx). exists j, m'.
      rewrite list_lookup_insert_ne by naive_solver. done.
  - intros k s' r Hks Hin. destruct (Hk _ _ _ Hks Hin) as [m' Hm'].
    destruct (decide (i = meta r)) as [->|?].
    + rewrite list_lookup_insert_eq by done. eauto.
    + rewrite list_lookup_insert_ne by done. eauto.
Qed.

(** A change to a mock whose rules all have an allocated [Meta]. *)
Lemma world_ok_mock w k s :
  world_ok w → (∀ r, r ∈ State.rules s → is_Some (metas w !! meta r)) →
  world_ok (at_mocks (<[k := s]>) w).
Proof.
  intros [Hm Hs Ht Hd Hr Hk] Hrules. split; simpl; try done.
  intros k' s' r [(<- & <- & _)|[_ ?]]%list_lookup_insert_Some; eauto.
Qed.

Lemma world_ok_sequence_new w : world_ok w → world_ok (sequence_new w).2.
Proof.
  intros [Hm Hs Ht Hd Hr Hk]. split; simpl; try done.
  - intros s p. rewrite lookup_app_Some. intros [?|[_ ?%list_lookup_singleton_Some]]; [eauto|].
    destruct H as [_ <-]. unfold sequence_ok, usize_max; simpl. lia.
  - intros i m x Hi Hx. destruct (Ht _ _ _ Hi Hx) as (p & Hp & ?).
    exists p. split; [by apply lookup_app_l_Some|done].
  - intros s p k. rewrite lookup_app_Some.
    intros [?|[_ [_ <-]%list_lookup_singleton_Some]] Hki; [eauto|]. simpl in Hki. lia.
Qed.

Lemma world_ok_state_new w name : world_ok w → world_ok (state_new name w).2.
Proof.
  intros [Hm Hs Ht Hd Hr Hk]. split; simpl; try done.
  intros k s r. rewrite lookup_app_Some.
  intros [?|[_ [_ <-]%list_lookup_singleton_Some]]; [eauto|]. by intros ?%not_elem_of_nil.
Qed.

Lemma deref_None {A B} (heap : World R → list A) p (f : A → M Error (World R) B) w :
  heap w !! p = None → (deref heap p ≫= f) w = (Panic "dangling Arc", w).
Proof. unfold mbind, M_bind, deref, lift. by intros ->. Qed.

(** [add] on a mock that is active: the new expectation is the last rule and
    holds the next ticket of its sequence; it fails only on a full sequence. *)
Lemma add_run w k s config make count :
  Config.validate config = Ok count → mocks w !! k = Some s → State.active s = true →
  let i := length (metas w) in
  let w1 := at_metas (λ l, l ++ [Meta.Make (State.name s) count 0 None None]) w in
  let push := at_mocks (<[k := State.set_rules (State.rules s ++ [make i]) s]>) in
  match Config.sequence config with
  | None => add k config make w = (Ok i, push w1)
  | Some sq => ∀ p, sequences w !! sq = Some p →
      if SequenceProgress.next p + 1 <=? usize_max
      then add k config make w = (Ok i, push
        (at_metas (<[i := Meta.set_ticket (Ticket.Make sq (SequenceProgress.next p))
                            (Meta.Make (State.name s) count 0 None None)]>)
          (at_sequences (<[sq := SequenceProgress.Make (SequenceProgress.next p + 1)
                                   (SequenceProgress.cursor p)]>) w1)))
      else add k config make w = (Err (error "sequence is full"), w1)
  end.
Proof.
  intros Hv Hk Ha i w1 push.
  assert (add k config make w =
    (match Config.sequence config with
     | Some sequence =>
         ticket ← reserve sequence;
         m ← deref metas i;
         modify (at_metas (<[i := Meta.set_ticket ticket m]>))
     | None => mret tt
     end;; push_rule k (make i);; mret i) w1) as ->.
  { unfold add. unfold mbind at 1, M_bind at 1, lift at 1.
    rewrite Hv, (deref_bind _ _ _ _ _ Hk), Ha. simpl.
    unfold mbind at 1, M_bind at 1, meta_new. fold i. fold w1.
    assert (mocks w1 !! k = Some s) as Hk1 by done.
    by rewrite (deref_bind _ _ _ _ _ Hk1), Ha. }
  unfold reserve, push_rule, mbind, M_bind, deref, lift, checked_add, w1.
  destruct (Config.sequence config) as [sq|]; simpl; [|by rewrite Hk].
  intros p Hp. rewrite Hp. cbn [expect].
  destruct (SequenceProgress.next p + 1 <=? usize_max); simpl; [|done].
  unfold i. rewrite list_lookup_middle by done. simpl. by rewrite Hk.
Qed.

(** A new expectation: its [Meta] is new, with the validated count. *)
Lemma add_new w k config make i w1 :
  (∀ sq, Config.sequence config = Some sq → is_Some (sequences w !! sq)) →
  add k config make w = (Ok i, w1) →
  i = length (metas w) ∧ ∃ count m, Config.validate config = Ok count ∧
    metas w1 !! i = Some m ∧ Meta.count m = count ∧ Meta.calls m = 0.
Proof.
  intros Hsq Hadd.
  destruct (Config.validate config) as [count| | |] eqn:Hv;
    [|unfold add, mbind, M_bind, lift in Hadd; rewrite Hv in Hadd; done..].
  destruct (mocks w !! k) as [s|] eqn:Hk.
  2:{ unfold add in Hadd. unfold mbind at 1, M_bind at 1, lift in Hadd. rewrite Hv in Hadd.
      by rewrite (deref_None _ _ _ _ Hk) in Hadd. }
  destruct (State.active s) eqn:Ha.
  2:{ unfold add in Hadd. unfold mbind at 1, M_bind at 1, lift at 1 in Hadd.
      rewrite Hv, (deref_bind _ _ _ _ _ Hk), Ha in Hadd. done. }
  pose proof (add_run w k s config make _ Hv Hk Ha) as Hrun. simpl in Hrun.
  destruct (Config.sequence config) as [sq|].
  - destruct (Hsq _ eq_refl) as [p Hp]. specialize (Hrun p Hp).
    case_match; rewrite Hadd in Hrun; [|done]. injection Hrun as -> ->. simpl.
    rewrite list_lookup_insert_eq by (rewrite length_app; simpl; lia). eauto 10.
  - rewrite Hadd in Hrun. injection Hrun as -> ->. simpl.
    rewrite list_lookup_middle by done. eauto 10.
Qed.

Lemma world_ok_add w k config make :
  world_ok w → Config.built config → (∀ i, meta (make i) = i) →
  (∀ sq, Config.sequence config = Some sq → is_Some (sequences w !! sq)) →
  world_ok (add k config make w).2.
Proof.
  intros Hw Hb Hmake Hsq.
  destruct (Config.validate config) as [count| | |] eqn:Hv;
    [|unfold add, mbind, M_bind, lift; rewrite Hv; done..].
  pose proof (Config.validate_valid _ _ Hb Hv) as Hvalid.
  destruct (mocks w !! k) as [s|] eqn:Hk.
  2:{ unfold add. unfold mbind at 1, M_bind at 1, lift. rewrite Hv.
      by rewrite (deref_None _ _ _ _ Hk). }
  destruct (State.active s) eqn:Ha.
  2:{ unfold add. unfold mbind at 1, M_bind at 1, lift at 1. rewrite Hv.
      by rewrite (deref_bind _ _ _ _ _ Hk), Ha. }
  pose proof (add_run w k s config make count Hv Hk Ha) as Hrun. simpl in Hrun.
  pose proof (world_ok_meta_new w (State.name s) count Hw Hvalid) as Hw1.
  assert (∀ w2, world_ok w2 → (∀ j, is_Some (metas w !! j) → is_Some (metas w2 !! j)) →
    is_Some (metas w2 !! length (metas w)) →
    world_ok (at_mocks (<[k := State.set_rules (State.rules s ++ [make (length (metas w))]) s]>)
      w2)) as Hpush.
  { intros w2 Hw2 Hkeep Hnew. apply world_ok_mock; [done|]. simpl. intros r.
    rewrite elem_of_app, list_elem_of_singleton. intros [Hr| ->]; [|by rewrite Hmake].
    apply Hkeep. by apply (ok_rules _ Hw _ _ _ Hk). }
  destruct (Config.sequence config) as [sq|] eqn:Hs.
  - destruct (Hsq _ eq_refl) as [p Hp]. specialize (Hrun p Hp).
    destruct (Z.leb_spec (SequenceProgress.next p + 1) usize_max); rewrite Hrun; [|done].
    destruct (Config.config_validate_Ok _ _ Hv) as (_ & _ & Hseq).
    destruct (Hseq _ Hs) as [Hmin Hmax].
    apply Hpush; simpl.
    + apply (world_ok_reserve _ (length (metas w)) _ sq p Hw1); simpl; try done; [|lia].
      by apply list_lookup_middle.
    + intros j. rewrite !lookup_lt_is_Some. rewrite length_insert, length_app. simpl. lia.
    + rewrite lookup_lt_is_Some, length_insert, length_app. simpl. lia.
  - rewrite Hrun. apply Hpush; [done|..]; simpl.
    + intros j. rewrite !lookup_lt_is_Some, length_app. simpl. lia.
    + rewrite lookup_lt_is_Some, length_app. simpl. lia.
Qed.

(** ** Steps

    The sections the operations run under their locks.  [add] publishes its
    [Meta] and takes its ticket in its second section; the first one only
    reads.  [claim] holds the locks of the expectation and of its sequence.
    [checkpoint] and [deactivate] end by dropping rules. *)
Inductive step w : World R → Prop :=
| step_sequence_new : step w (sequence_new w).2
| step_state_new name : step w (state_new name w).2
| step_add k config make :
    Config.built config → (∀ i, meta (make i) = i) →
    (∀ sq, Config.sequence config = Some sq → is_Some (sequences w !! sq)) →
    step w (add k config make w).2
| step_claim i : is_Some (metas w !! i) → step w (claim i w).2
| step_fail k e : step w (state_fail (A:=R) k e w).2
| step_clear k s :
    mocks w !! k = Some s → step w (at_mocks (<[k := State.set_rules [] s]>) w)
| step_deactivate k : step w (deactivate k w).2
| step_try_enter thread key : step w (try_enter thread key w).2
| step_guard_drop thread key : step w (guard_drop thread key w).2.

Definition world_empty : World R := mkWorld [] [] [] ∅.
Definition reachable : World R → Prop := rtc step world_empty.

Lemma world_ok_state_fail {A} w k e : world_ok w → world_ok (state_fail (A:=A) k e w).2.
Proof.
  intros Hw. unfold state_fail. destruct (mocks w !! k) as [s|] eqn:Hk.
  - rewrite (deref_bind _ _ _ _ _ Hk). apply world_ok_mock; [done|]. simpl.
    intros r. by apply (ok_rules _ Hw _ _ _ Hk).
  - by rewrite (deref_None _ _ _ _ Hk).
Qed.

Lemma world_ok_active f w : world_ok w → world_ok (at_active f w).
Proof. by intros [Hm Hs Ht Hd Hr Hk]; split. Qed.

Lemma world_ok_claim w i : world_ok w → is_Some (metas w !! i) → world_ok (claim i w).2.
Proof.
  intros Hw [m Hm]. destruct (claim_correct _ _ _ Hw Hm) as (r & w' & -> & Hs). simpl.
  destruct Hs; eauto using world_ok_failure, world_ok_count_call.
Qed.

Lemma world_ok_step w w' : world_ok w → step w w' → world_ok w'.
Proof.
  intros Hw []; eauto using world_ok_sequence_new, world_ok_state_new, world_ok_add,
    world_ok_claim, world_ok_state_fail.
  - apply world_ok_mock; [done|]. simpl. by intros r ?%not_elem_of_nil.
  - unfold deactivate. destruct (mocks w !! k) as [s|] eqn:Hk.
    + rewrite (deref_bind _ _ _ _ _ Hk). apply world_ok_mock; [done|]. simpl.
      by intros r ?%not_elem_of_nil.
    + by rewrite (deref_None _ _ _ _ Hk).
  - unfold try_enter. unfold mbind at 1, M_bind at 1, gets. case_bool_decide; [done|].
    by apply world_ok_active.
  - by apply world_ok_active.
Qed.

Lemma world_ok_steps w w' : world_ok w → rtc step w w' → world_ok w'.
Proof. intros Hw Hs. induction Hs; eauto using world_ok_step. Qed.

Lemma world_ok_empty : world_ok world_empty.
Proof. by split; intros; simplify_eq/=. Qed.

Lemma reachable_ok w : reachable w → world_ok w.
Proof. apply world_ok_steps, world_ok_empty. Qed.

(** *** The loop of [select] *)

Definition fail_mock (k : nat) (e : Error) (s : State.t R) w : World R :=
  at_mocks (<[k := State.insert_failure e s]>) w.

Lemma state_fail_run {A} w k s e :
  mocks w !! k = Some s → state_fail (A:=A) k e w = (Panic (display e), fail_mock k e s w).
Proof. intros Hk. unfold state_fail. by rewrite (deref_bind _ _ _ _ _ Hk). Qed.

Lemma claim_mocks w i m r w' : claim_spec w i m r w' → mocks w' = mocks w.
Proof. destruct 1; try done. unfold count_call. simpl. by rewrite mocks_advance. Qed.

(** The rules a call passes over: the ones that do not match, and the ones
    that match and are used up. *)
Definition passed_over w (matches : R → bool) (r : R) : Prop :=
  matches r = true → exhausted w (meta r).

(** The error of a call that no rule takes. *)
Definition unmatched (s : State.t R) (matched : bool) : Error :=
  error (State.name s +:+ ": " +:+
    (if matched then "matching expectations are exhausted"
     else "no expectation matched this call")).

(** What one call does: the first rule that matches and is not used up
    decides; it takes the call, or its rejection is recorded. *)
Inductive selects w (k : nat) (s : State.t R) (matches : R → bool)
  : outcome Error R → World R → Prop :=
| selects_taken pre r post m :
    State.rules s = pre ++ r :: post → Forall (passed_over w matches) pre →
    matches r = true → metas w !! meta r = Some m →
    claim (meta r) w = (Ok Taken, count_call (meta r) m w) →
    claim_spec w (meta r) m (Ok Taken) (count_call (meta r) m w) →
    selects w k s matches (Ok r) (count_call (meta r) m w)
| selects_rejected pre r post m e w' :
    State.rules s = pre ++ r :: post → Forall (passed_over w matches) pre →
    matches r = true → metas w !! meta r = Some m →
    claim (meta r) w = (Err e, w') → claim_spec w (meta r) m (Err e) w' →
    selects w k s matches (Panic (display e)) (fail_mock k e s w')
| selects_none :
    Forall (passed_over w matches) (State.rules s) →
    let e := unmatched s (existsb matches (State.rules s)) in
    selects w k s matches (Panic (display e)) (fail_mock k e s w).

Lemma select_loop_correct w k s matches pre rules :
  world_ok w → mocks w !! k = Some s → State.rules s = pre ++ rules →
  Forall (passed_over w matches) pre →
  ∃ o w', select_loop k matches (existsb matches pre) rules w = (o, w') ∧
    selects w k s matches o w'.
Proof.
  intros Hw Hk. revert pre. induction rules as [|r rules IH]; intros pre Hs Hpre.
  { eexists _, _. split.
    - simpl. rewrite (deref_bind _ _ _ _ _ Hk). by rewrite (state_fail_run _ _ _ _ Hk).
    - rewrite app_nil_r in Hs. rewrite <-Hs. apply selects_none. by rewrite Hs. }
  simpl. specialize (IH (pre ++ [r])). rewrite <-app_assoc, existsb_app in IH. simpl in IH.
  destruct (matches r) eqn:Hm.
  2:{ rewrite !orb_false_r in IH. apply IH; [done|].
      apply Forall_app. split; [done|]. apply Forall_singleton. by intros ?; congruence. }
  rewrite orb_true_r in IH.
  destruct (ok_rules _ Hw k s r Hk) as [m Hmeta].
  { rewrite Hs. apply elem_of_app. right. by left. }
  destruct (claim_correct _ _ _ Hw Hmeta) as (o & w' & Hrun & Hspec).
  unfold mbind at 1, M_bind at 1, attempt. rewrite Hrun.
  destruct o as [[]|e| |].
  - assert (w' = count_call (meta r) m w) as -> by (by inversion Hspec).
    eexists _, _. split; [done|]. by eapply selects_taken.
  - assert (w' = w ∧ exhausted w (meta r)) as [-> Hex] by (by inversion Hspec).
    apply IH; [done|]. apply Forall_app. split; [done|]. apply Forall_singleton. by intros _.
  - eexists _, _. rewrite (state_fail_run _ k s e) by (by rewrite (claim_mocks _ _ _ _ _ Hspec)).
    split; [done|]. by eapply selects_rejected.
  - by inversion Hspec.
  - by inversion Hspec.
Qed.

Lemma select_run w k s matches :
  world_ok w → mocks w !! k = Some s → State.active s = true →
  ∃ o w', select k matches w = (o, w') ∧ selects w k s matches o w'.
Proof.
  intros Hw Hk Ha. unfold select. rewrite (deref_bind _ _ _ _ _ Hk), Ha. simpl.
  by apply (select_loop_correct w k s matches []).
Qed.

(** *** What a step keeps *)

(** Counts never change, calls only grow, mocks keep their name and their
    first failure, and an inactive mock stays inactive. *)
Definition meta_grows (m m' : Meta.t) : Prop :=
  Meta.count m' = Meta.count m ∧ Meta.calls m ≤ Meta.calls m'.
Definition mock_grows (s s' : State.t R) : Prop :=
  State.name s' = State.name s ∧
  (∀ e, State.failure s = Some e → State.failure s' = Some e) ∧
  (State.active s = false → State.active s' = false).

Record grows w w' : Prop := {
  grows_metas i m : metas w !! i = Some m → ∃ m', metas w' !! i = Some m' ∧ meta_grows m m';
  grows_mocks k s : mocks w !! k = Some s → ∃ s', mocks w' !! k = Some s' ∧ mock_grows s s' }.

#[global] Instance meta_grows_refl : Reflexive meta_grows.
Proof. intros m. by split. Qed.
#[global] Instance mock_grows_refl : Reflexive mock_grows.
Proof. intros s. by split_and!. Qed.

#[global] Instance grows_preorder : PreOrder grows.
Proof.
  split.
  - intros w. split; eauto using meta_grows_refl, mock_grows_refl.
  - intros w1 w2 w3 [Hm Hk] [Hm' Hk']. split.
    + intros i m Hi. destruct (Hm _ _ Hi) as (m' & Hi' & ? & ?).
      destruct (Hm' _ _ Hi') as (m'' & ? & ? & ?). exists m''. split; [done|].
      split; [congruence|lia].
    + intros k s Hs. destruct (Hk _ _ Hs) as (s' & Hs' & ? & ? & ?).
      destruct (Hk' _ _ Hs') as (s'' & ? & ? & ? & ?). exists s''. split; [done|].
      split_and!; [congruence|naive_solver..].
Qed.

Lemma grows_meta w i m m' :
  metas w !! i = Some m → meta_grows m m' → grows w (at_metas (<[i := m']>) w).
Proof.
  intros Hi Hg. split; simpl; [|by eauto using mock_grows_refl].
  intros j m0 Hj. destruct (decide (i = j)) as [<-|?].
  - rewrite list_lookup_insert_eq by (by eapply lookup_lt_Some). simplify_eq. eauto.
  - rewrite list_lookup_insert_ne by done. eauto using meta_grows_refl.
Qed.

Lemma grows_mock w k s s' :
  mocks w !! k = Some s → mock_grows s s' → grows w (at_mocks (<[k := s']>) w).
Proof.
  intros Hi Hg. split; simpl; [by eauto using meta_grows_refl|].
  intros j s0 Hj. destruct (decide (k = j)) as [<-|?].
  - rewrite list_lookup_insert_eq by (by eapply lookup_lt_Some). simplify_eq. eauto.
  - rewrite list_lookup_insert_ne by done. eauto using mock_grows_refl.
Qed.

Lemma grows_meta_new w m : grows w (at_metas (λ l, l ++ [m]) w).
Proof.
  split; simpl; [|by eauto using mock_grows_refl].
  intros i m' Hi. exists m'. split; [by apply lookup_app_l_Some|reflexivity].
Qed.

Lemma grows_sequences f w : grows w (at_sequences f w).
Proof. split; simpl; eauto using mock_grows_refl, meta_grows_refl. Qed.

Lemma grows_fail_mock w k s e : mocks w !! k = Some s → grows w (fail_mock k e s w).
Proof.
  intros Hk. apply (grows_mock _ _ s); [done|]. split_and!; simpl; try done.
  by intros e' ->.
Qed.

Lemma grows_claim w i m o w' :
  world_ok w → metas w !! i = Some m → claim_spec w i m o w' → grows w w'.
Proof.
  intros Hw Hm [].
  1, 3, 4: by apply (grows_meta _ _ m).
  - reflexivity.
  - transitivity (advance (Meta.ticket m) (bool_decide
      (CallCount.max (Meta.count m) = Some (Meta.calls m + 1))) w).
    + unfold advance. repeat case_match; [apply grows_sequences|reflexivity..].
    + apply (grows_meta _ _ m); [by rewrite metas_advance|]. split; simpl; [done|lia].
Qed.

Lemma grows_add w k config make :
  (∀ sq, Config.sequence config = Some sq → is_Some (sequences w !! sq)) →
  grows w (add k config make w).2.
Proof.
  intros Hsq.
  destruct (Config.validate config) as [count| | |] eqn:Hv;
    [|unfold add, mbind, M_bind, lift; rewrite Hv; reflexivity..].
  destruct (mocks w !! k) as [s|] eqn:Hk.
  2:{ unfold add. unfold mbind at 1, M_bind at 1, lift. rewrite Hv.
      by rewrite (deref_None _ _ _ _ Hk). }
  destruct (State.active s) eqn:Ha.
  2:{ unfold add. unfold mbind at 1, M_bind at 1, lift at 1. rewrite Hv.
      by rewrite (deref_bind _ _ _ _ _ Hk), Ha. }
  pose proof (add_run w k s config make count Hv Hk Ha) as Hrun. simpl in Hrun.
  destruct (Config.sequence config) as [sq|] eqn:Hs.
  - destruct (Hsq _ eq_refl) as [p Hp]. specialize (Hrun p Hp).
    case_match; rewrite Hrun; [|apply grows_meta_new].
    etrans; [apply grows_meta_new|]. etrans; [apply grows_sequences|].
    etrans; [eapply grows_meta|eapply grows_mock]; simpl;
      [by apply list_lookup_middle|by split|done|by split_and!].
  - rewrite Hrun. etrans; [apply grows_meta_new|]. eapply grows_mock; [done|by split_and!].
Qed.

Lemma grows_step w w' : world_ok w → step w w' → grows w w'.
Proof.
  intros Hw [].
  - apply grows_sequences.
  - split; simpl; [by eauto using meta_grows_refl|]. intros k s Hs. exists s.
    split; [by apply lookup_app_l_Some|reflexivity].
  - by apply grows_add.
  - destruct H as [m Hm]. destruct (claim_correct _ _ _ Hw Hm) as (r & w1 & -> & Hs).
    by eapply grows_claim.
  - unfold state_fail. destruct (mocks w !! k) as [s|] eqn:Hk.
    + rewrite (deref_bind _ _ _ _ _ Hk). by apply grows_fail_mock.
    + by rewrite (deref_None _ _ _ _ Hk).
  - apply (grows_mock _ _ s); [done|]. by split_and!.
  - unfold deactivate. destruct (mocks w !! k) as [s|] eqn:Hk.
    + rewrite (deref_bind _ _ _ _ _ Hk). apply (grows_mock _ _ s); [done|]. by split_and!.
    + by rewrite (deref_None _ _ _ _ Hk).
  - unfold try_enter. unfold mbind at 1, M_bind at 1, gets. case_bool_decide; [reflexivity|].
    split; simpl; eauto using mock_grows_refl, meta_grows_refl.
  - split; simpl; eauto using mock_grows_refl, meta_grows_refl.
Qed.

Lemma grows_steps w w' : world_ok w → rtc step w w' → grows w w'.
Proof.
  intros Hw Hs. induction Hs as [w|w1 w2 w3 H1 H2 IH]; [reflexivity|].
  transitivity w2; [by apply grows_step|]. apply IH. by eapply world_ok_step.
Qed.

(** Every operation is made of steps. *)
Lemma select_steps w k matches : world_ok w → rtc step w (select k matches w).2.
Proof.
  intros Hw. destruct (mocks w !! k) as [s|] eqn:Hk.
  2:{ unfold select. by rewrite (deref_None _ _ _ _ Hk). }
  destruct (State.active s) eqn:Ha.
  2:{ unfold select. rewrite (deref_bind _ _ _ _ _ Hk), Ha. simpl. apply rtc_once.
      apply step_fail. }
  destruct (select_run w k s matches Hw Hk Ha) as (o & w' & -> & Hsel). simpl.
  assert (∀ i r w', is_Some (metas w !! i) → claim i w = (r, w') → step w w') as Hclaim.
  { intros i r w1 Hm Hc. pose proof (step_claim w i Hm) as Hst. by rewrite Hc in Hst. }
  assert (∀ w1 e, mocks w1 = mocks w → step w1 (fail_mock k e s w1)) as Hfail.
  { intros w1 e Heq. pose proof (step_fail w1 k e) as Hst.
    rewrite (state_fail_run _ _ s) in Hst; [done|]. by rewrite Heq. }
  destruct Hsel as [pre r post m ??? Hm Hc Hs|pre r post m e w' ??? Hm Hc Hs|].
  - by eapply rtc_once, Hclaim.
  - eapply rtc_l; [by eapply Hclaim|]. apply rtc_once, Hfail. by eapply claim_mocks.
  - by apply rtc_once, Hfail.
Qed.

(** [verify] only reads. *)
Lemma verify_rules_run w k s :
  world_ok w → mocks w !! k = Some s →
  verify_inner s w = ((verify_inner s w).1, w) ∧
  ((verify_inner s w).1 = Ok tt ↔
   State.failure s = None ∧
   ∀ r m, r ∈ State.rules s → metas w !! meta r = Some m →
     Meta.failure m = None ∧ CallCount.admits (Meta.count m) (Meta.calls m)) ∧
  returns (verify_inner s w).1.
Proof.
  intros Hw Hk. unfold verify_inner. destruct (State.failure s) as [e|]; [naive_solver|].
  assert (∀ r, r ∈ State.rules s → is_Some (metas w !! meta r)) as Hin
    by (intros r; by apply (ok_rules _ Hw _ _ _ Hk)).
  induction (State.rules s) as [|r rules IH].
  { simpl. split_and!; try done. split; [|done]. intros _. split; [done|].
    by intros r m ?%not_elem_of_nil. }
  destruct (Hin r ltac:(by left)) as [m Hm]. simpl.
  destruct IH as (IH1 & IH2 & IH3); [by intros; apply Hin; right|].
  rewrite (deref_bind _ _ _ _ _ Hm). unfold mbind, M_bind, lift, meta_verify.
  destruct (Meta.failure m) as [f|] eqn:Hf; simpl.
  { split_and!; try done. split; [done|]. intros [_ Hall].
    destruct (Hall r m) as [? _]; [by left|done|]. congruence. }
  destruct (Z.ltb_spec (Meta.calls m) (CallCount.min (Meta.count m))); simpl.
  { split_and!; try done. split; [done|]. intros [_ Hall].
    destruct (Hall r m) as [_ [? _]]; [by left|done|]. lia. }
  rewrite IH1. simpl. split_and!; try done. rewrite IH2. split; intros [? Hall]; split; try done.
  - intros r' m' [->|Hr']%elem_of_cons Hm'; [|by eauto]. simplify_eq. split; [done|].
    split; [done|]. intros k'. by apply (ok_metas _ Hw _ _ Hm).
  - intros r' m' Hr'. apply Hall. by right.
Qed.
End invariant.

(** ** Theorems *)

Section theorems.
Context {R : Type} `{!Rule R}.
Implicit Types w : World R.

(** C34. Every argument of [times] means what its Rust range means: it is rejected
    exactly when the range contains no count, and otherwise the call count
    admits exactly the counts of the range. *)
Theorem call_count_from_correct b :
  CallCount.bounds_ok b →
  (CallCount.validate (CallCount.from b) = Err (error "call count range is empty") ∧
   ∀ n, 0 ≤ n ≤ usize_max → ¬ CallCount.contains b n) ∨
  (CallCount.validate (CallCount.from b) = Ok (CallCount.from b) ∧
   (∃ n, 0 ≤ n ≤ usize_max ∧ CallCount.contains b n) ∧
   ∀ n, 0 ≤ n ≤ usize_max → CallCount.admits (CallCount.from b) n ↔ CallCount.contains b n).
Proof.
  intros Hb. pose proof (CallCount.from_sized _ Hb) as [Hmin Hmax].
  assert (∀ n, 0 ≤ n ≤ usize_max → CallCount.admits (CallCount.from b) n ↔
    CallCount.contains b n) as Hadm by (intros; apply CallCount.from_admits; [done|lia]).
  unfold CallCount.validate. destruct (CallCount.from b) as [lo [hi|]] eqn:Hf; simpl in *.
  - specialize (Hmax _ eq_refl). destruct (Z.ltb_spec hi lo).
    + left. split; [done|]. intros n Hn Hc%(Hadm n Hn). destruct Hc as [? Hc]; simpl in *.
      specialize (Hc _ eq_refl). lia.
    + right. split_and!; [done| |done]. exists lo. split; [lia|]. apply Hadm; [lia|].
      split; simpl; [lia|]. intros ? [= <-]. lia.
  - right. split_and!; [done| |done]. exists lo. split; [lia|]. apply Hadm; [lia|]. by split.
Qed.

(** C10. Order of a sequence, over every interleaving of the operations: an
    expectation was called only if each one that was added to the sequence
    before it has received all the calls it expects. *)
Theorem sequence_order w i j m m' x y :
  reachable w → metas w !! i = Some m → metas w !! j = Some m' →
  Meta.ticket m = Some x → Meta.ticket m' = Some y →
  Ticket.sequence x = Ticket.sequence y → Ticket.index x < Ticket.index y →
  0 < Meta.calls m' →
  CallCount.max (Meta.count m) = Some (Meta.calls m) ∧
  CallCount.admits (Meta.count m) (Meta.calls m).
Proof.
  intros Hw%reachable_ok Hi Hj Hx Hy Hs Hlt Hc.
  destruct (ok_tickets _ Hw _ _ _ Hi Hx) as (p & Hp & _ & n & _ & Hmax & Hmin & H1 & _).
  destruct (ok_tickets _ Hw _ _ _ Hj Hy) as (p' & Hp' & _ & n' & _ & _ & _ & _ & _ & H3).
  rewrite Hs in Hp. simplify_eq. rewrite H1 by lia. split; [done|].
  split; [lia|]. intros k Hk. rewrite Hmax in Hk. simplify_eq. lia.
Qed.

(** C32. A sequence with expectations left is never stuck: exactly one expectation
    holds the ticket at the cursor, and a call to it is taken. *)
Theorem sequence_progress w s p :
  reachable w → sequences w !! s = Some p →
  SequenceProgress.cursor p < SequenceProgress.next p →
  ∃ i m, metas w !! i = Some m ∧
    Meta.ticket m = Some (Ticket.Make s (SequenceProgress.cursor p)) ∧
    claim i w = (Ok Taken, count_call i m w) ∧
    ∀ j m', metas w !! j = Some m' → Meta.ticket m' = Meta.ticket m → j = i.
Proof.
  intros Hw%reachable_ok Hp Hlt. destruct (ok_sequences _ Hw _ _ Hp) as [Hc Hu].
  destruct (ok_reserved _ Hw _ _ (SequenceProgress.cursor p) Hp ltac:(lia)) as (i & m & Hi & Hx).
  exists i, m. split_and!; try done.
  - destruct (ok_tickets _ Hw _ _ _ Hi Hx) as (q & Hq & _ & n & Hn & Hmax & _ & _ & H2 & _).
    simpl in *. simplify_eq. specialize (H2 eq_refl).
    destruct (ok_metas _ Hw _ _ Hi) as ((_ & _) & ? & _).
    destruct (claim_correct _ _ _ Hw Hi) as (o & w' & -> & Hspec).
    destruct Hspec as [| (? & ? & ? & ? & ?) | | |]; simplify_eq/=; try lia; done.
  - intros j m' Hj He. rewrite Hx in He. by apply (ok_distinct _ Hw _ _ _ _ _ Hj Hi He).
Qed.

(** C7. A call to an active mock is decided by the first rule, in the order of
    [add], that matches and is not used up.  That rule takes the call, and
    then its count grows by one, the cursor of its sequence moves if it was
    the last expected call, and nothing else changes; or its rejection is
    recorded in the expectation and in the mock and the call panics.  With no
    such rule the call panics and the mock records it. *)
Theorem select_correct w k s matches :
  reachable w → mocks w !! k = Some s → State.active s = true →
  ∃ o w', select k matches w = (o, w') ∧ selects w k s matches o w' ∧ reachable w'.
Proof.
  intros Hr Hk Ha. pose proof (reachable_ok _ Hr) as Hw.
  destruct (select_run w k s matches Hw Hk Ha) as (o & w' & Hrun & Hsel).
  exists o, w'. split_and!; [done..|]. unfold reachable. etrans; [done|].
  pose proof (select_steps w k matches Hw) as Hst. by rewrite Hrun in Hst.
Qed.

(** C30. [verify] passes exactly when the mock recorded no failure and every rule
    recorded none and received a number of calls its count admits; it changes
    nothing. *)
Theorem verify_correct w k s :
  reachable w → mocks w !! k = Some s →
  (state_verify k w).2 = w ∧ returns (state_verify k w).1 ∧
  ((state_verify k w).1 = Ok tt ↔
   State.failure s = None ∧
   ∀ r m, r ∈ State.rules s → metas w !! meta r = Some m →
     Meta.failure m = None ∧ CallCount.admits (Meta.count m) (Meta.calls m)).
Proof.
  intros Hw%reachable_ok Hk. unfold state_verify. rewrite (deref_bind _ _ _ _ _ Hk).
  destruct (verify_rules_run _ _ _ Hw Hk) as (H1 & H2 & H3).
  split_and!; [by rewrite H1|done..].
Qed.


(** A checkpoint that passes drops only rules whose calls are admitted and
    whose turn in their sequence is over, so it strands no sequence; one that
    fails changes nothing. *)
Theorem checkpoint_correct w k s :
  reachable w → mocks w !! k = Some s →
  (checkpoint k w = (Ok tt, at_mocks (<[k := State.set_rules [] s]>) w) ∧
   State.active s = true ∧
   ∀ r m, r ∈ State.rules s → metas w !! meta r = Some m →
     CallCount.admits (Meta.count m) (Meta.calls m) ∧
     ∀ x, Meta.ticket m = Some x → ∃ p, sequences w !! Ticket.sequence x = Some p ∧
       Ticket.index x < SequenceProgress.cursor p) ∨
  (∃ e, checkpoint k w = (Err e, w) ∧
   (State.active s = false ∨ state_verify k w = (Err e, w))).
Proof.
  intros Hw%reachable_ok Hk. unfold checkpoint, state_verify.
  rewrite !(deref_bind _ _ _ _ _ Hk).
  destruct (State.active s) eqn:Ha; simpl; [|right; eauto].
  destruct (verify_rules_run _ _ _ Hw Hk) as (H1 & H2 & H3).
  unfold mbind, M_bind. rewrite H1.
  destruct (verify_inner s w).1 as [[]|e| |] eqn:Hv; try done; [left|right; eauto].
  split_and!; [done..|]. intros r m Hr Hm. destruct H2 as [[_ H2] _]; [done|].
  destruct (H2 _ _ Hr Hm) as [_ Hadm]. split; [done|]. intros x Hx.
  destruct (ok_tickets _ Hw _ _ _ Hm Hx) as (p & Hp & _ & n & Hn & _ & Hmin & _ & Hat & Hafter).
  exists p. split; [done|]. destruct Hadm as [Hlo _].
  destruct (Z.lt_trichotomy (Ticket.index x) (SequenceProgress.cursor p)) as [?|[?|?]];
    [done|specialize (Hat ltac:(done)); lia|rewrite Hafter in Hlo by done; lia].
Qed.

(** The response of a one-shot expectation is used at most once, whatever
    runs after it was added. *)
Theorem one_shot_at_most_once w k config config' make i w1 w2 :
  reachable w → Config.built config → Config.for_once config = Ok config' →
  (∀ j, meta (make j) = j) →
  (∀ sq, Config.sequence config = Some sq → is_Some (sequences w !! sq)) →
  add k config' make w = (Ok i, w1) → rtc step w1 w2 →
  ∃ m, metas w2 !! i = Some m ∧ Meta.calls m ≤ 1.
Proof.
  intros Hw%reachable_ok Hb Ho Hmake Hsq Hadd Hsteps.
  destruct (Config.for_once_Ok _ _ Ho) as (n & x & Hc & Hx & Hseq & _).
  rewrite <-Hseq in Hsq.
  pose proof (world_ok_add w k config' make Hw (Config.built_for_once _ _ Hb Ho) Hmake Hsq) as Hw1.
  rewrite Hadd in Hw1. simpl in Hw1.
  destruct (add_new _ _ _ _ _ _ Hsq Hadd) as (_ & count & m & Hv & Hm & Hcm & _).
  assert (count = CallCount.Make n (Some x)) as ->.
  { destruct (Config.config_validate_Ok _ _ Hv) as [-> _]. by rewrite Hc. }
  destruct (grows_metas _ _ (grows_steps _ _ Hw1 Hsteps) _ _ Hm) as (m2 & Hm2 & Hcnt & _).
  exists m2. split; [done|].
  destruct (ok_metas _ (world_ok_steps _ _ Hw1 Hsteps) _ _ Hm2) as (_ & _ & Hle).
  rewrite Hcnt, Hcm in Hle. specialize (Hle _ eq_refl). lia.
Qed.

(** The re-entrancy guard: a mock that is not running on this thread is
    entered, and dropping the guard restores the thread's list of running
    mocks; a mock that is running already panics and records it.  Other
    threads are never affected. *)
Theorem call_guard_correct w w' thread k s :
  mocks w !! k = Some s →
  if bool_decide (k ∈ calls_of thread w) then
    let e := error (State.name s +:+ ": a mock called itself recursively") in
    enter thread k w = (Panic (display e), fail_mock k e s w)
  else
    ∃ w1, enter thread k w = (Ok k, w1) ∧
      calls_of thread w1 = calls_of thread w ++ [k] ∧
      (calls_of thread w' = calls_of thread w1 →
       calls_of thread (guard_drop thread k w').2 = calls_of thread w) ∧
      ∀ other, other ≠ thread →
        calls_of other w1 = calls_of other w ∧
        calls_of other (guard_drop thread k w').2 = calls_of other w'.
Proof.
  intros Hk. unfold enter, try_enter, calls_of, mbind, M_bind, attempt, gets.
  case_bool_decide as Hin; simpl.
  - rewrite Hk. simpl. by rewrite (state_fail_run w k s).
  - eexists. split; [done|]. simpl. rewrite lookup_insert_eq. simpl. split_and!; [done|..].
    + intros ->. rewrite lookup_insert_eq. simpl. rewrite filter_app, filter_cons_False
        by naive_solver. rewrite filter_nil, app_nil_r. apply list_filter_all.
      apply Forall_forall. naive_solver.
    + intros other Hne. by rewrite !lookup_insert_ne.
Qed.
End theorems.

(** ** A small run

    Two mocks and one sequence: mock 0 expects one call, then mock 1 expects
    one call; the first call arrived. *)

Module Demo.
#[local] Instance rule_nat : Rule nat := λ r, r.

Definition config : Config.t := Config.in_sequence (Config.once Config.default) 0%nat.

Definition w0 : World nat := (sequence_new world_empty).2.
Definition w1 : World nat := (state_new "a" w0).2.
Definition w2 : World nat := (state_new "b" w1).2.
Definition w3 : World nat := (add 0 config id w2).2.
Definition w4 : World nat := (add 1 config id w3).2.
Definition w5 : World nat := (select 0 (λ _, true) w4).2.
Definition w6 : World nat := (select 1 (λ _, true) w5).2.

Lemma config_built : Config.built config.
Proof.
  apply Config.built_in_sequence, Config.built_times; [constructor|].
  by vm_compute.
Qed.

Lemma step_add_config k w :
  is_Some (sequences w !! 0%nat) → step w (add k config (@id nat) w).2.
Proof.
  intros Hs. apply step_add; [apply config_built|intros; reflexivity|].
  intros sq Hsq. injection Hsq as <-. exact Hs.
Qed.

Lemma w4_reachable : reachable w4.
Proof.
  apply (rtc_r _ w3); [apply (rtc_r _ w2); [apply (rtc_r _ w1); [apply (rtc_r _ w0)|]|]|].
  - apply rtc_once, step_sequence_new.
  - apply step_state_new.
  - apply step_state_new.
  - apply step_add_config. eexists. vm_compute. reflexivity.
  - apply step_add_config. eexists. vm_compute. reflexivity.
Qed.

Lemma w5_reachable : reachable w5.
Proof. unfold reachable. etrans; [apply w4_reachable|]. apply select_steps, reachable_ok, w4_reachable. Qed.

Lemma w6_reachable : reachable w6.
Proof. unfold reachable. etrans; [apply w5_reachable|]. apply select_steps, reachable_ok, w5_reachable. Qed.
End Demo.

Lemma call_count_from_correct_witness :
  CallCount.validate (CallCount.from (CallCount.Range 2 5)) = Ok (CallCount.Make 2 (Some 4)) ∧
  CallCount.admits (CallCount.from (CallCount.Range 2 5)) 4 ∧
  ¬ CallCount.admits (CallCount.from (CallCount.Range 2 5)) 5.
Proof.
  destruct (call_count_from_correct (CallCount.Range 2 5)) as [[H _]|(H & _ & Hadm)].
  - simpl. unfold usize_max. lia.
  - vm_compute in H. discriminate H.
  - split; [exact H|]. split; [|intros Hno].
    + apply (Hadm 4); simpl; unfold usize_max; lia.
    + apply (Hadm 5) in Hno; simpl in *; unfold usize_max; lia.
Defined.

Lemma sequence_order_witness :
  ∃ m, metas Demo.w6 !! 0%nat = Some m ∧ CallCount.max (Meta.count m) = Some (Meta.calls m).
Proof.
  eexists. split; [reflexivity|].
  eapply (sequence_order (Rule0:=Demo.rule_nat) Demo.w6 0 1); [apply Demo.w6_reachable|reflexivity..| |];
    simpl; lia.
Defined.

Lemma sequence_progress_witness :
  ∃ i m, metas Demo.w5 !! i = Some m ∧
    claim i Demo.w5 = (Ok Taken, count_call i m Demo.w5).
Proof.
  edestruct (sequence_progress (Rule0:=Demo.rule_nat) Demo.w5 0) as (i & m & Hm & _ & Hc & _);
    [apply Demo.w5_reachable|reflexivity|simpl; lia|]. eauto.
Defined.

Lemma select_correct_witness :
  ∃ s, mocks Demo.w5 !! 1%nat = Some s ∧
    ∃ o w', select (Rule0:=Demo.rule_nat) 1 (λ _, true) Demo.w5 = (o, w') ∧
      selects (Rule0:=Demo.rule_nat) Demo.w5 1 s (λ _, true) o w'.
Proof.
  eexists. split; [reflexivity|].
  edestruct (select_correct (Rule0:=Demo.rule_nat) Demo.w5 1) as (o & w' & H1 & H2 & _);
    [apply Demo.w5_reachable|reflexivity|reflexivity|]. exists o, w'. split; [exact H1|exact H2].
Defined.

Lemma verify_correct_witness :
  (state_verify (Rule0:=Demo.rule_nat) 1 Demo.w6).1 = Ok tt ∧
  returns (state_verify (Rule0:=Demo.rule_nat) 1 Demo.w5).1 ∧
  (state_verify (Rule0:=Demo.rule_nat) 1 Demo.w5).1 ≠ Ok tt.
Proof.
  edestruct (verify_correct (Rule0:=Demo.rule_nat) Demo.w5 1) as (_ & H & _);
    [apply Demo.w5_reachable|reflexivity|].
  split; [vm_compute; reflexivity|]. split; [exact H|]. vm_compute. discriminate.
Defined.


Lemma checkpoint_correct_witness :
  is_ok (checkpoint (Rule0:=Demo.rule_nat) 0 Demo.w5).1 = true ∧
  ∃ e, checkpoint (Rule0:=Demo.rule_nat) 1 Demo.w5 = (Err e, Demo.w5).
Proof.
  split; [vm_compute; reflexivity|].
  edestruct (checkpoint_correct (Rule0:=Demo.rule_nat) Demo.w5 1) as [(H & _)|(e & H & _)];
    [apply Demo.w5_reachable|reflexivity| |exists e; exact H].
  vm_compute in H. discriminate H.
Defined.

Lemma one_shot_at_most_once_witness :
  ∃ i w1 m, add 0 (Config.Make (Some (CallCount.Make 1 (Some 1))) None) id Demo.w2 = (Ok i, w1) ∧
    metas (select (Rule0:=Demo.rule_nat) 0 (λ _, true) w1).2 !! i = Some m ∧ Meta.calls m ≤ 1.
Proof.
  destruct (add 0 (Config.Make (Some (CallCount.Make 1 (Some 1))) None) id Demo.w2)
    as [o w1] eqn:H.
  destruct o as [i| | |]; [|vm_compute in H; discriminate H..].
  assert (reachable (Rule0:=Demo.rule_nat) Demo.w2) as H2.
  { apply (rtc_r _ Demo.w1); [apply (rtc_r _ Demo.w0)|];
      [apply rtc_once, step_sequence_new|apply step_state_new..]. }
  assert (world_ok (Rule0:=Demo.rule_nat) w1) as Hw1.
  { pose proof (world_ok_add (Rule0:=Demo.rule_nat) Demo.w2 0
      (Config.Make (Some (CallCount.Make 1 (Some 1))) None) id) as Hw.
    rewrite H in Hw. apply Hw; [apply reachable_ok, H2| |reflexivity|discriminate].
    apply (Config.built_for_once Config.default); [constructor|reflexivity]. }
  exists i, w1.
  edestruct (one_shot_at_most_once (Rule0:=Demo.rule_nat) Demo.w2 0 Config.default) as (m & Hm & Hc);
    [exact H2|constructor|reflexivity|reflexivity|discriminate|exact H| |].
  - apply (select_steps w1 0 (λ _, true)). exact Hw1.
  - exists m. split; [reflexivity|]. split; [exact Hm|exact Hc].
Defined.

Lemma call_guard_correct_witness :
  ∃ w1, enter 7 0 Demo.w2 = (Ok 0%nat, w1) ∧ calls_of 7 w1 = [0%nat] ∧
    calls_of 7 (guard_drop 7 0 w1).2 = [].
Proof.
  destruct (enter 7 0 Demo.w2) as [o w1] eqn:H.
  edestruct (call_guard_correct Demo.w2 w1 7 0) as (w1' & He & Hc & Hd & _); [reflexivity|].
  rewrite H in He. injection He as -> <-. exists w1.
  split; [reflexivity|]. split; [exact Hc|]. exact (Hd eq_refl).
Defined.
