(* ===== verification/Memory.v ===== *)
(** * Code reads and writes with rollback ([src/src/memory.rs])

    The routines over the operating system interface ([Platform], the
    [platform] module the source selects by [cfg]).  [PlatformLaws] states
    what they rely on; [LinuxMemory] discharges it for the Linux module. *)

From S2P Require Import Prelude Errors.

#[local] Open Scope Z_scope.
#[local] Set Default Proof Using "Type*".

Module Region.
Record t := Make {
  start : Z;
  stop : Z;  (* [end] *)
  protection : Z;
  readable : bool;
  executable : bool }.
End Region.

Module PageRange.
Record t := Make { address : Z; length : Z; protection : Z }.
End PageRange.

(** The operations of the [platform] module, and [ptr::copy] to raw memory;
    [remap_pages] is [platform::replace_pages] where the target has it. *)
Class Platform (S : Type) := {
  region_at : Z → M Error S (option Region.t);
  read_bytes : Z → Z → M Error S (list Z);
  page_size : M Error S Z;
  protect : PageRange.t → bool → M Error S unit;
  flush : Z → Z → M Error S unit;
  copy : list Z → Z → M Error S unit;
  remap_pages : option (Z → list Z → list PageRange.t → M Error S unit) }.

(** [checked_end]. *)
Definition checked_end (address length : Z) : result Z :=
  if address =? 0 then Err InvalidAddress else
  if length =? 0 then Err InvalidRange else
  ok_or InvalidRange (checked_add address length).

Section operations.
Context {S : Type} `{!Platform S}.

(** The loop of [executable_regions]; a region that holds the cursor moves
    it, so one unit of fuel per byte of the range is enough. *)
Fixpoint executable_regions_loop (fuel : nat) (stop cursor : Z) (regions : list Region.t)
  : M Error S (list Region.t) :=
  if negb (cursor <? stop) then mret regions else
  match fuel with
  | O => panic "out of fuel"
  | Datatypes.S fuel =>
      region ← region_at cursor;
      let leave error :=
        match regions with [] => throw error | _ :: _ => mret regions end in
      match region with
      | Some region =>
          if Region.readable region && Region.executable region then
            executable_regions_loop fuel stop (Z.min (Region.stop region) stop)
              (regions ++ [region])
          else if Region.readable region then leave NotExecutable
          else leave InvalidAddress
      | None => leave InvalidAddress
      end
  end.

(** [executable_regions]. *)
Definition executable_regions (address length : Z) : M Error S (list Region.t) :=
  stop ← lift (checked_end address length);
  executable_regions_loop (Z.to_nat length) stop address [].

(** [regions.last().unwrap()]. *)
Definition last_region (regions : list Region.t) : result Region.t :=
  expect "called `Option::unwrap()` on a `None` value" (last regions).

(** [a - b] on [usize]. *)
Definition sub (a b : Z) : result Z :=
  expect "attempt to subtract with overflow" (checked_sub a b).

(** [read]. *)
Definition read (address limit : Z) : M Error S (list Z) :=
  regions ← executable_regions address limit;
  region ← lift (last_region regions);
  length ← lift (sub (Region.stop region) address);
  read_bytes address (Z.min length limit).

(** The page range [replace] makes writable in one region. *)
Definition page_range (address page_size last_page_end : Z) (region : Region.t)
  : result PageRange.t :=
  let start := Z.max (Region.start region) (address / page_size * page_size) in
  let stop := Z.min (Region.stop region) last_page_end in
  length ← sub stop start;
  Ok (PageRange.Make start length (Region.protection region)).

Fixpoint page_ranges (address page_size last_page_end : Z) (regions : list Region.t)
  : result (list PageRange.t) :=
  match regions with
  | [] => Ok []
  | region :: regions =>
      page ← page_range address page_size last_page_end region;
      pages ← page_ranges address page_size last_page_end regions;
      Ok (page :: pages)
  end.

(** A call whose [Err] is fatal: [if call.is_err() { fatal() }]. *)
Definition or_fatal (call : M Error S unit) : M Error S unit :=
  r ← attempt call;
  match r with
  | Ok _ => mret tt
  | Err _ => abort
  | Panic message => panic message
  | Abort => abort
  end.

(** The loop of [restore_permissions]; with [writable] set, the loop that
    makes the pages writable for the rollback. *)
Fixpoint protect_or_fatal (writable : bool) (pages : list PageRange.t) : M Error S unit :=
  match pages with
  | [] => mret tt
  | page :: pages => or_fatal (protect page writable);; protect_or_fatal writable pages
  end.

(** [restore_permissions]. *)
Definition restore_permissions (pages : list PageRange.t) : M Error S unit :=
  protect_or_fatal false pages.

(** The loop that makes the pages writable; [done] is [&pages[..index]]. *)
Fixpoint open_pages (done pages : list PageRange.t) : M Error S unit :=
  match pages with
  | [] => mret tt
  | page :: pages =>
      r ← attempt (protect page true);
      match r with
      | Ok _ => open_pages (done ++ [page]) pages
      | Err error => restore_permissions done;; throw error
      | Panic message => panic message
      | Abort => abort
      end
  end.

(** [pages.iter().try_for_each(..)] with [platform::protect] to [false]. *)
Fixpoint close_pages (pages : list PageRange.t) : M Error S unit :=
  match pages with
  | [] => mret tt
  | page :: pages => protect page false;; close_pages pages
  end.

(** The rollback of [replace]. *)
Definition roll_back (address : Z) (original : list Z) (pages : list PageRange.t)
  : M Error S unit :=
  protect_or_fatal true pages;;
  copy original address;;
  or_fatal (flush address (Z.of_nat (length original)));;
  restore_permissions pages.

(** The pages of a replacement: checks, and the page ranges to open. *)
Definition prepare (address : Z) (expected replacement : list Z)
  : M Error S (list Z * list PageRange.t) :=
  let len := Z.of_nat (length expected) in
  if negb (length expected =? length replacement)%nat then throw InvalidRange else
  stop ← lift (checked_end address len);
  regions ← executable_regions address len;
  region ← lift (last_region regions);
  if Region.stop region <? stop then throw InvalidRange else
  original ← read_bytes address len;
  if negb (bool_decide (original = expected)) then throw MemoryChanged else
  page_size ← page_size;
  slack ← lift (sub page_size 1);
  rounded ← lift (ok_or InvalidRange (checked_add stop slack));
  let last_page_end := rounded / page_size * page_size in
  pages ← lift (page_ranges address page_size last_page_end regions);
  mret (original, pages).

(** The end of [replace] where pages are opened and written in place. *)
Definition overwrite (address : Z) (original replacement : list Z) (pages : list PageRange.t)
  : M Error S unit :=
  open_pages [] pages;;
  copy replacement address;;
  result ← attempt (flush address (Z.of_nat (length replacement));; close_pages pages);
  match result with
  | Ok _ => mret tt
  | Err error => roll_back address original pages;; throw error
  | Panic message => panic message
  | Abort => abort
  end.

(** [replace], with [std::process::abort] as [fatal]; the target decides which
    end it has. *)
Definition replace (address : Z) (expected replacement : list Z) : M Error S unit :=
  '(original, pages) ← prepare address expected replacement;
  match remap_pages with
  | Some replace_pages => replace_pages address replacement pages
  | None => overwrite address original replacement pages
  end.

(** [write]. *)
Definition write (address : Z) (expected replacement : list Z) : M Error S unit :=
  replace address expected replacement.
End operations.

(** ** What the routines rely on

    [byte_at] and [prot_at] are the bytes and the page permissions of the
    process; a state may hold more (descriptors, pending signals), which the
    calls are free to change. *)
Class View (S : Type) := {
  byte_at : S → Z → Z;
  prot_at : S → Z → option Z;
  page : Z;
  prot_ok : Z → Prop;
  with_write : Z → Z;
  can_write : Z → bool;
  can_run : Z → bool }.

Section view.
Context {S : Type} `{!View S}.

Definition same_bytes (s s' : S) : Prop := ∀ a, byte_at s' a = byte_at s a.
Definition same_prot (s s' : S) : Prop := ∀ a, prot_at s' a = prot_at s a.
Definition same_view (s s' : S) : Prop := same_bytes s s' ∧ same_prot s s'.
Definition still_mapped (s s' : S) : Prop :=
  ∀ a, is_Some (prot_at s a) → is_Some (prot_at s' a).

(** [bs] lies in memory at [a]. *)
Definition holds (s : S) (a : Z) (bs : list Z) : Prop :=
  ∀ k b, bs !! k = Some b → byte_at s (a + Z.of_nat k) = b.

(** [s'] has [bs] at [a] and the bytes of [s] elsewhere. *)
Definition written (s s' : S) (a : Z) (bs : list Z) : Prop :=
  holds s' a bs ∧
  ∀ b, ¬ a ≤ b < a + Z.of_nat (length bs) → byte_at s' b = byte_at s b.

Definition in_page (p : PageRange.t) (a : Z) : Prop :=
  PageRange.address p ≤ a < PageRange.address p + PageRange.length p.

(** A range of whole pages, with a permission the system reports. *)
Definition page_aligned (p : PageRange.t) : Prop :=
  (page | PageRange.address p) ∧ (page | PageRange.length p) ∧ prot_ok (PageRange.protection p).

(** A region the system reports: it holds the address and is made of whole
    pages with one permission. *)
Definition region_ok (s : S) (a : Z) (r : Region.t) : Prop :=
  0 ≤ Region.start r ≤ a ∧ a < Region.stop r ≤ usize_max ∧
  (page | Region.start r) ∧ (page | Region.stop r) ∧ prot_ok (Region.protection r) ∧
  ∀ b, Region.start r ≤ b < Region.stop r → prot_at s b = Some (Region.protection r).

(** A page range inside the address space that meets [a .. a + n]. *)
Definition meets (a n : Z) (p : PageRange.t) : Prop :=
  0 ≤ PageRange.address p ∧ PageRange.address p + PageRange.length p ≤ usize_max ∧
  ∃ x, a ≤ x < a + n ∧ in_page p x.

(** The page ranges of the range [a .. a + n]: whole pages with the
    permission they have in [s], which together hold the range and each meet
    it. *)
Definition pages_for (s : S) (a n : Z) (pages : list PageRange.t) : Prop :=
  Forall page_aligned pages ∧
  (∀ p b, p ∈ pages → in_page p b → prot_at s b = Some (PageRange.protection p)) ∧
  (∀ b, a ≤ b < a + n → ∃ p, p ∈ pages ∧ in_page p b ∧ can_run (PageRange.protection p) = true) ∧
  Forall (meets a n) pages ∧ a + n ≤ usize_max.

#[global] Instance same_view_preorder : PreOrder same_view.
Proof.
  unfold same_view, same_bytes, same_prot. split.
  - by intros s.
  - intros s1 s2 s3 [] []. split; intros; etrans; eauto.
Qed.
End view.

(** The laws.  A failed [protect] may have changed permissions inside its own
    range, as POSIX allows; every other failure changes nothing.  Where pages
    are mapped anew, that is a transaction of its own. *)
Class PlatformLaws (S : Type) `{!Platform S, !View S} := {
  page_pos : 0 < page;
  with_write_can p : prot_ok p → can_write (with_write p) = true;
  region_at_law a s o s' :
    region_at a s = (o, s') →
    returns o ∧ same_view s s' ∧
    ∀ r, o = Ok (Some r) → Region.readable r && Region.executable r = true →
      region_ok s a r ∧ can_run (Region.protection r) = true;
  read_bytes_law a n s o s' :
    0 ≤ n → read_bytes a n s = (o, s') →
    returns o ∧ same_view s s' ∧
    ∀ bs, o = Ok bs → Z.of_nat (length bs) ≤ n ∧ holds s a bs;
  page_size_law s o s' :
    page_size s = (o, s') → returns o ∧ same_view s s' ∧ ∀ p, o = Ok p → p = page;
  protect_law p w s o s' :
    page_aligned p → protect p w s = (o, s') →
    returns o ∧ same_bytes s s' ∧
    (∀ a, ¬ in_page p a → prot_at s' a = prot_at s a) ∧
    still_mapped s s' ∧
    (o = Ok tt → ∀ a, in_page p a →
      prot_at s' a = Some (if w then with_write (PageRange.protection p)
                           else PageRange.protection p));
  flush_law a n s o s' : flush a n s = (o, s') → returns o ∧ same_view s s';
  copy_law bs a s o s' :
    (∀ k, (k < length bs)%nat →
      ∃ p, prot_at s (a + Z.of_nat k) = Some p ∧ can_write p = true) →
    copy bs a s = (o, s') → o = Ok tt ∧ same_prot s s' ∧ written s s' a bs;
  remap_law f a bs pages s s1 o s' :
    remap_pages = Some f → pages_for s a (Z.of_nat (length bs)) pages → same_view s s1 →
    f a bs pages s1 = (o, s') →
    match o with
    | Ok _ => written s s' a bs ∧ same_prot s s'
    | Err _ => same_view s s'
    | Panic _ => False
    | Abort => True
    end }.

(** ** Proofs over the laws *)

Section correctness.
Context {S : Type} `{!Platform S, !View S, !PlatformLaws S}.
Implicit Types s : S.

Lemma same_view_region s s' a r : same_view s s' → region_ok s' a r → region_ok s a r.
Proof.
  intros [_ Hp] (? & ? & ? & ? & ? & Hr). split_and!; try lia; try done.
  intros b Hb. rewrite <-Hp. by apply Hr.
Qed.

Lemma same_view_holds s s' a bs : same_bytes s s' → holds s' a bs → holds s a bs.
Proof. intros Hb Hh k b Hk. rewrite <-Hb. by apply Hh. Qed.

(** The regions found from [a]: each holds the point where the one before it
    ended, up to [stop]. *)
Inductive chain s (stop : Z) : Z → list Region.t → Z → Prop :=
| chain_nil a : chain s stop a [] a
| chain_cons a r rs c :
    a < stop → region_ok s a r → can_run (Region.protection r) = true →
    chain s stop (Z.min (Region.stop r) stop) rs c →
    chain s stop a (r :: rs) c.

Lemma chain_snoc s stop a rs c r :
  chain s stop a rs c → c < stop → region_ok s c r → can_run (Region.protection r) = true →
  chain s stop a (rs ++ [r]) (Z.min (Region.stop r) stop).
Proof. induction 1; intros; simpl; econstructor; eauto using chain_nil. Qed.

Lemma chain_last s stop a rs c r :
  chain s stop a rs c → last rs = Some r → c = Z.min (Region.stop r) stop.
Proof.
  induction 1 as [|a r0 rs c ? ? ? Hc IH]; [done|]. destruct rs as [|r1 rs].
  - inversion Hc. by intros [= ->].
  - intros Hl. apply IH. by rewrite last_cons_cons in Hl.
Qed.

Lemma chain_le s stop a rs c : a ≤ stop → chain s stop a rs c → a ≤ c ≤ stop.
Proof.
  intros Ha. induction 1 as [|a r rs c ? (? & ? & _) ? Hc IH]; [lia|].
  specialize (IH ltac:(lia)). lia.
Qed.

(** Every point up to the end of the chain lies in one of its regions. *)
Lemma chain_covers s stop a rs c b :
  chain s stop a rs c → a ≤ b < c →
  ∃ r x, r ∈ rs ∧ a ≤ x < stop ∧ region_ok s x r ∧ can_run (Region.protection r) = true ∧
    Region.start r ≤ b < Region.stop r.
Proof.
  induction 1 as [|a r rs c ? Hr Hrun Hc IH]; [lia|]. intros Hb.
  pose proof Hr as (Hstart & Hstop & _).
  destruct (decide (b < Z.min (Region.stop r) stop)) as [Hlt|Hge].
  - exists r, a. split_and!; try done; try lia. by left.
  - destruct IH as (r' & x & Hin & Hx & ?); [lia|]. exists r', x.
    split_and!; [by right|lia..|naive_solver|naive_solver|naive_solver lia|naive_solver lia].
Qed.

Lemma chain_regions s stop a rs c r :
  chain s stop a rs c → r ∈ rs → ∃ x, a ≤ x < stop ∧ region_ok s x r.
Proof.
  induction 1 as [|a r0 rs c ? Hr ? Hc IH]; [by intros ?%not_elem_of_nil|].
  pose proof Hr as (? & ? & _).
  intros [->|Hin]%elem_of_cons; [exists a; split; [lia|done]|].
  destruct (IH Hin) as (x & ? & ?). exists x. split; [lia|done].
Qed.

Lemma executable_regions_loop_correct fuel stop a c rs s0 s o s' :
  stop - c ≤ Z.of_nat fuel → c ≤ stop → same_view s0 s → chain s0 stop a rs c →
  executable_regions_loop fuel stop c rs s = (o, s') →
  returns o ∧ same_view s0 s' ∧
  ∀ rs', o = Ok rs' → ∃ c', chain s0 stop a rs' c' ∧ (a < stop → rs' ≠ []).
Proof.
  revert c rs s. induction fuel as [|fuel IH]; intros c rs s Hf Hc Hv Hch Hrun.
  all: cbn [executable_regions_loop] in Hrun; destruct (Z.ltb_spec c stop) as [Hlt|Hge];
    cbn [negb] in Hrun; try lia.
  all: try (injection Hrun as <- <-; split_and!; [done..|]; intros rs' [= <-]; exists c;
    split; [done|]; intros Hne ->; inversion Hch; lia).
  unfold mbind, M_bind in Hrun. destruct (region_at c s) as [o1 s1] eqn:Hreg.
  destruct (region_at_law _ _ _ _ Hreg) as (Hret & Hv1 & Hr).
  assert (same_view s0 s1) as Hv01 by (by etrans).
  assert (∀ e, (match rs with [] => throw e | _ :: _ => mret rs end) s1 = (o, s') →
    returns o ∧ same_view s0 s' ∧
    ∀ rs', o = Ok rs' → ∃ c', chain s0 stop a rs' c' ∧ (a < stop → rs' ≠ [])) as Hleave.
  { intros e He. destruct rs; injection He as <- <-; split_and!; try done.
    intros rs' [= <-]. eauto. }
  destruct o1 as [[r|]|e| |]; try done; [|by eapply Hleave|by injection Hrun as <- <-].
  destruct (Region.readable r && Region.executable r) eqn:Hflags.
  - destruct (Hr _ eq_refl Hflags) as [Hrok Hcan]. pose proof Hrok as (? & ? & _).
    eapply IH; [..|exact Hrun]; [lia|lia|done|].
    eapply chain_snoc; [done..| |done]. by apply (same_view_region s0 s).
  - destruct (Region.readable r); by eapply Hleave.
Qed.

Lemma checked_end_Ok a n e :
  checked_end a n = Ok e → a ≠ 0 ∧ n ≠ 0 ∧ e = a + n ∧ a + n ≤ usize_max.
Proof.
  unfold checked_end. destruct (Z.eqb_spec a 0), (Z.eqb_spec n 0); try done.
  intros. inv_ok. done.
Qed.

Lemma checked_end_returns a n : returns (checked_end a n).
Proof. unfold checked_end. repeat case_match; auto using ok_or_returns. done. done. Qed.

Lemma executable_regions_correct a n s o s' :
  0 ≤ n → executable_regions a n s = (o, s') →
  returns o ∧ same_view s s' ∧
  ∀ rs, o = Ok rs → 0 < n ∧ a + n ≤ usize_max ∧
    ∃ c r, chain s (a + n) a rs c ∧ last rs = Some r.
Proof.
  intros Hn. unfold executable_regions, mbind, M_bind, lift.
  destruct (checked_end a n) as [e|e| |] eqn:He; try (by intros [= <- <-]);
    try (pose proof (checked_end_returns a n) as Hr; by rewrite He in Hr).
  apply checked_end_Ok in He as (_ & ? & -> & ?). intros Hrun.
  destruct (executable_regions_loop_correct (Z.to_nat n) (a + n) a a [] s s o s'
    ltac:(lia) ltac:(lia) ltac:(reflexivity) (chain_nil _ _ _) Hrun) as (? & ? & Hok).
  split_and!; [done..|]. intros rs Hrs. destruct (Hok _ Hrs) as (c & Hch & Hne).
  split_and!; [lia|done|]. destruct (last rs) as [r|] eqn:Hl; [by exists c, r|].
  apply last_None in Hl. by specialize (Hne ltac:(lia)).
Qed.

Lemma sub_Ok a b c : sub a b = Ok c ↔ c = a - b ∧ b ≤ a.
Proof. unfold sub, checked_sub. destruct (Z.leb_spec b a); simpl; naive_solver lia. Qed.

Lemma sub_run a b : b ≤ a → sub a b = Ok (a - b).
Proof. intros. by apply sub_Ok. Qed.

Lemma page_range_correct s a n x r :
  0 < n → a ≤ x < a + n → region_ok s x r →
  let stop := (a + n + (page - 1)) / page * page in
  ∃ p, page_range a page stop r = Ok p ∧ page_aligned p ∧
    PageRange.protection p = Region.protection r ∧
    (∀ b, in_page p b → Region.start r ≤ b < Region.stop r) ∧
    (∀ b, a ≤ b < a + n → Region.start r ≤ b < Region.stop r → in_page p b) ∧ meets a n p.
Proof.
  intros Hn Hx (Hstart & Hstop & Hds & Hde & Hok & _) stop. pose proof page_pos as Hpos.
  assert (a + n ≤ stop) as Hlo.
  { unfold stop. pose proof (Z.mod_pos_bound (a + n + (page - 1)) page Hpos).
    pose proof (Z.div_mod (a + n + (page - 1)) page). lia. }
  assert (a / page * page ≤ a) as Hfl.
  { pose proof (Z.mod_pos_bound a page Hpos). pose proof (Z.div_mod a page). lia. }
  unfold page_range. rewrite sub_run by lia. simpl. eexists. split; [done|].
  assert ((page | Z.max (Region.start r) (a / page * page))) as Hd1.
  { destruct (Z.max_spec (Region.start r) (a / page * page)) as [[_ ->]|[_ ->]];
      [apply Z.divide_factor_r|done]. }
  split_and!; [split_and!; simpl; [done| |done]|done|..].
  - apply Z.divide_sub_r; [|done].
    destruct (Z.min_spec (Region.stop r) stop) as [[_ ->]|[_ ->]];
      [done|apply Z.divide_factor_r].
  - unfold in_page; simpl. lia.
  - unfold in_page; simpl. lia.
  - unfold meets, in_page; simpl. split_and!; [lia..|]. exists x. lia.
Qed.

Lemma page_ranges_correct s a n rs :
  0 < n → (∀ r, r ∈ rs → ∃ x, a ≤ x < a + n ∧ region_ok s x r) →
  ∃ pages, page_ranges a page ((a + n + (page - 1)) / page * page) rs = Ok pages ∧
    Forall page_aligned pages ∧
    (∀ p b, p ∈ pages → in_page p b → prot_at s b = Some (PageRange.protection p)) ∧
    (∀ r b, r ∈ rs → a ≤ b < a + n → Region.start r ≤ b < Region.stop r →
      ∃ p, p ∈ pages ∧ in_page p b ∧ PageRange.protection p = Region.protection r) ∧
    Forall (meets a n) pages.
Proof.
  intros Hn. induction rs as [|r rs IH]; intros Hrs.
  { exists []. split_and!; [done|constructor|by intros ? ? ?%not_elem_of_nil..|constructor]. }
  destruct (Hrs r ltac:(by left)) as (x & Hx & Hr).
  destruct (page_range_correct _ _ _ _ _ Hn Hx Hr) as (p & Hp & Hal & Hprot & Hin & Hcov & Hmeet).
  destruct IH as (pages & Hpages & Hals & Hprots & Hcovs & Hmeets); [intros; apply Hrs; by right|].
  exists (p :: pages). cbn [page_ranges]. rewrite Hp. simpl. rewrite Hpages.
  split_and!; [done|by constructor|..|by constructor].
  - intros p' b [->|Hp']%elem_of_cons Hb; [|by eauto]. rewrite Hprot.
    destruct Hr as (_ & _ & _ & _ & _ & Hr). by apply Hr, Hin.
  - intros r' b [->|Hr']%elem_of_cons Hb Hr0.
    + exists p. split_and!; [by left|by apply Hcov|done].
    + destruct (Hcovs _ _ Hr' Hb Hr0) as (p' & ? & ? & ?). exists p'. by split_and!; [right|..].
Qed.

Lemma prepare_correct a expected replacement s o s' :
  prepare a expected replacement s = (o, s') →
  returns o ∧ same_view s s' ∧
  ∀ original pages, o = Ok (original, pages) →
    original = expected ∧ length expected = length replacement ∧
    holds s a expected ∧ pages_for s a (Z.of_nat (length expected)) pages.
Proof.
  unfold prepare. set (n := Z.of_nat (length expected)).
  destruct (Nat.eqb_spec (length expected) (length replacement)) as [Hlen|]; simpl;
    [|by intros [= <- <-]].
  unfold mbind, M_bind, lift.
  destruct (checked_end a n) as [stop|e| |] eqn:He; try (by intros [= <- <-]);
    try (pose proof (checked_end_returns a n) as Hr; by rewrite He in Hr).
  apply checked_end_Ok in He as (_ & Hn & -> & Hmax).
  destruct (executable_regions a n s) as [o1 s1] eqn:Hreg.
  destruct (executable_regions_correct a n s o1 s1 ltac:(lia) Hreg) as (Hret1 & Hv1 & Hrs).
  destruct o1 as [rs|e| |]; try done; [|by intros [= <- <-]].
  destruct (Hrs _ eq_refl) as (Hpos & _ & c & r & Hch & Hlast).
  unfold last_region. rewrite Hlast. simpl.
  destruct (Z.ltb_spec (Region.stop r) (a + n)) as [|Hcov]; [by intros [= <- <-]|].
  destruct (read_bytes a n s1) as [o2 s2] eqn:Hread.
  destruct (read_bytes_law a n s1 o2 s2 ltac:(lia) Hread) as (Hret2 & Hv2 & Hbs).
  assert (same_view s s2) as Hv by (by etrans).
  destruct o2 as [bs|e| |]; try done; [|by intros [= <- <-]].
  destruct (bool_decide_reflect (bs = expected)) as [->|]; simpl; [|by intros [= <- <-]].
  destruct (Hbs _ eq_refl) as [_ Hholds].
  destruct (page_size s2) as [o3 s3] eqn:Hps.
  destruct (page_size_law _ _ _ Hps) as (Hret3 & Hv3 & Hp).
  assert (same_view s s3) as Hv' by (by etrans).
  destruct o3 as [ps|e| |]; try done; [|by intros [= <- <-]]. rewrite (Hp _ eq_refl).
  pose proof page_pos. rewrite sub_run by lia.
  destruct (checked_add (a + n) (page - 1)) as [rounded|] eqn:Hadd; simpl;
    [|by intros [= <- <-]].
  apply checked_add_Some in Hadd as [-> _].
  destruct (page_ranges_correct s a n rs ltac:(lia)) as (pages & -> & Hal & Hprot & Hc & Hmeet).
  { intros r' Hr'. by eapply chain_regions. }
  intros [= <- <-]. split_and!; [done..|]. intros original pages' [= <- <-].
  split_and!; [done|done|eapply same_view_holds; [apply Hv1|done]|].
  split_and!; [done|done| |done|done]. intros b Hb.
  pose proof (chain_last _ _ _ _ _ _ Hch Hlast) as ->.
  destruct (chain_covers _ _ _ _ _ b Hch ltac:(lia)) as (r' & x & Hin & _ & _ & Hrun & Hr').
  destruct (Hc _ _ Hin Hb Hr') as (p & ? & ? & Hpp). exists p. rewrite Hpp. done.
Qed.

(** *** Changing permissions *)

#[local] Instance in_page_dec p a : Decision (in_page p a).
Proof. unfold in_page. apply _. Defined.

Definition covered (pages : list PageRange.t) (a : Z) : Prop := Exists (λ p, in_page p a) pages.

#[local] Instance covered_dec pages a : Decision (covered pages a).
Proof. unfold covered. apply _. Defined.

Lemma covered_nil a : ¬ covered [] a.
Proof. by intros ?%Exists_nil. Qed.

Lemma covered_cons p pages a : covered (p :: pages) a ↔ in_page p a ∨ covered pages a.
Proof. unfold covered. by rewrite Exists_cons. Qed.

Lemma covered_one p a : covered [p] a ↔ in_page p a.
Proof. rewrite covered_cons. pose proof (covered_nil a). naive_solver. Qed.

Lemma covered_app pages pages' a :
  covered (pages ++ pages') a ↔ covered pages a ∨ covered pages' a.
Proof. unfold covered. by rewrite Exists_app. Qed.

(** The permission of a page after [protect(page, writable)]. *)
Definition target s0 (writable : bool) (a : Z) : option Z :=
  (if writable then with_write else id) <$> prot_at s0 a.

Definition consistent s0 (pages : list PageRange.t) : Prop :=
  Forall (λ p, page_aligned p ∧
    ∀ b, in_page p b → prot_at s0 b = Some (PageRange.protection p)) pages.

Lemma pages_for_consistent s a n pages : pages_for s a n pages → consistent s pages.
Proof.
  intros (Hal & Hprot & _). rewrite Forall_forall in Hal. apply Forall_forall.
  intros p Hp. split; [by apply Hal|]. intros b. by apply Hprot.
Qed.

(** [pages] were set and the rest was kept. *)
Definition set_pages s0 (writable : bool) (pages : list PageRange.t) s s' : Prop :=
  same_bytes s s' ∧
  ∀ a, prot_at s' a = if decide (covered pages a) then target s0 writable a else prot_at s a.

Lemma set_pages_nil s0 w s : set_pages s0 w [] s s.
Proof. split; [done|]. intros a. rewrite decide_False; [done|]. apply covered_nil. Qed.

Lemma set_pages_cons s0 w p pages s s1 s2 :
  set_pages s0 w [p] s s1 → set_pages s0 w pages s1 s2 → set_pages s0 w (p :: pages) s s2.
Proof.
  intros [Hb1 Hp1] [Hb2 Hp2]. split; [intros a; by rewrite Hb2|]. intros a.
  rewrite Hp2, Hp1. pose proof (covered_one p a). pose proof (covered_cons p pages a).
  repeat case_decide; naive_solver.
Qed.

Lemma protect_set s0 p pages w s o s' :
  consistent s0 (p :: pages) → protect p w s = (o, s') →
  returns o ∧ same_bytes s s' ∧ (∀ a, ¬ in_page p a → prot_at s' a = prot_at s a) ∧
  still_mapped s s' ∧ (o = Ok tt → set_pages s0 w [p] s s').
Proof.
  intros [[Hal Hprot] _]%Forall_cons Hrun.
  destruct (protect_law _ _ _ _ _ Hal Hrun) as (Hret & Hb & Hout & Hm & Hin).
  split_and!; [done..|]. intros Ho. split; [done|]. intros a.
  pose proof (covered_one p a) as Hone. case_decide as Hd.
  - apply Hone in Hd. rewrite (Hin Ho a Hd). unfold target. rewrite (Hprot _ Hd).
    by destruct w.
  - apply Hout. naive_solver.
Qed.

Lemma protect_or_fatal_correct s0 w pages s o s' :
  consistent s0 pages → protect_or_fatal w pages s = (o, s') →
  o = Abort ∨ o = Ok tt ∧ set_pages s0 w pages s s'.
Proof.
  revert s. induction pages as [|p pages IH]; intros s Hc Hrun.
  { injection Hrun as <- <-. right. split; [done|]. apply set_pages_nil. }
  cbn [protect_or_fatal] in Hrun. unfold mbind, M_bind, or_fatal, attempt in Hrun.
  unfold mbind, M_bind in Hrun. destruct (protect p w s) as [o1 s1] eqn:H1.
  destruct (protect_set _ _ _ _ _ _ _ Hc H1) as (Hret & _ & _ & _ & Hok).
  destruct o1 as [[]|e| |]; try done.
  - destruct (IH s1 ltac:(by inversion Hc) Hrun) as [?|[-> ?]]; [by left|].
    right. split; [done|]. eapply set_pages_cons; [by apply Hok|done].
  - injection Hrun as <- <-. by left.
Qed.

Lemma close_pages_correct s0 pages s o s' :
  consistent s0 pages → close_pages pages s = (o, s') →
  returns o ∧ same_bytes s s' ∧ (∀ a, ¬ covered pages a → prot_at s' a = prot_at s a) ∧
  (o = Ok tt → set_pages s0 false pages s s').
Proof.
  revert s. induction pages as [|p pages IH]; intros s Hc Hrun.
  { injection Hrun as <- <-. split_and!; done || (intros _; apply set_pages_nil). }
  cbn [close_pages] in Hrun. unfold mbind, M_bind in Hrun.
  destruct (protect p false s) as [o1 s1] eqn:H1.
  destruct (protect_set _ _ _ _ _ _ _ Hc H1) as (Hret & Hb & Hout & _ & Hok).
  assert (∀ a, ¬ covered (p :: pages) a → ¬ in_page p a ∧ ¬ covered pages a) as Hnc.
  { intros a. rewrite covered_cons. naive_solver. }
  destruct o1 as [[]|e| |]; try done.
  - destruct (IH s1) as (? & Hb2 & Hout2 & Hok2); [by inversion Hc|done|]. split_and!; [done|..].
    + intros a. by rewrite Hb2.
    + intros a [? ?]%Hnc. rewrite Hout2 by done. by apply Hout.
    + intros ->. eapply set_pages_cons; [by apply Hok|by apply Hok2].
  - injection Hrun as <- <-. split_and!; [done..| |done]. intros a [? _]%Hnc. by apply Hout.
Qed.

(** A page range whose own [protect] failed with [e], in a state [s1] where
    some permissions of [s] were widened and nothing else had changed: it is
    left as that call left it, or put back, and all else is as in [s]. *)
Definition failed_protect s s' (e : Error) (p : PageRange.t) : Prop :=
  page_aligned p ∧
  (∀ b, in_page p b → prot_at s b = Some (PageRange.protection p)) ∧
  (∀ b, ¬ in_page p b → prot_at s' b = prot_at s b) ∧
  ∃ s1 s2, same_bytes s s1 ∧
    (∀ b, prot_at s1 b = prot_at s b ∨ prot_at s1 b = with_write <$> prot_at s b) ∧
    protect p true s1 = (Err e, s2) ∧
    (∀ b, in_page p b → prot_at s' b = prot_at s2 b ∨ prot_at s' b = prot_at s b).

(** Opening the pages: all are writable; or an [Err] came back, and the only
    permissions that can differ are those of the page that failed. *)
Lemma open_pages_correct s0 before pages s o s' :
  consistent s0 (before ++ pages) → set_pages s0 true before s0 s →
  open_pages before pages s = (o, s') →
  match o with
  | Ok _ => set_pages s0 true (before ++ pages) s0 s'
  | Err e => same_bytes s0 s' ∧ still_mapped s0 s' ∧ ∃ p, p ∈ pages ∧ failed_protect s0 s' e p
  | Panic _ => False
  | Abort => True
  end.
Proof.
  revert before s. induction pages as [|p pages IH]; intros before s Hc Hset Hrun.
  { injection Hrun as <- <-. by rewrite app_nil_r. }
  cbn [open_pages] in Hrun. unfold mbind, M_bind, attempt in Hrun.
  destruct (protect p true s) as [o1 s1] eqn:H1.
  assert (consistent s0 (p :: pages)) as Hc' by (by apply Forall_app in Hc as [_ ?]).
  destruct (protect_set _ _ _ _ _ _ _ Hc' H1) as (Hret & Hb & Hout & Hm & Hok).
  assert (∀ a, covered (before ++ [p]) a ↔ covered before a ∨ in_page p a) as Hcov.
  { intros a. by rewrite covered_app, covered_one. }
  destruct o1 as [[]|e| |]; try done.
  - specialize (IH (before ++ [p]) s1). rewrite <-app_assoc in IH.
    assert (set_pages s0 true (before ++ [p]) s0 s1) as Hset1; last first.
    { specialize (IH Hc Hset1 Hrun). destruct o; try done.
      destruct IH as (? & ? & p' & ? & ?). split_and!; [done..|]. exists p'.
      split; [by right|done]. }
    destruct (Hok eq_refl) as [Hb1 Hp1], Hset as [Hb0 Hp0].
    split; [intros a; by rewrite Hb1|]. intros a. rewrite Hp1, Hp0.
    pose proof (covered_one p a). specialize (Hcov a). repeat case_decide; naive_solver.
  - unfold restore_permissions in Hrun.
    destruct (protect_or_fatal false before s1) as [o2 s2] eqn:H2.
    apply Forall_app in Hc as [Hbefore _].
    destruct (protect_or_fatal_correct s0 _ _ _ _ _ Hbefore H2) as [->|[-> [Hb2 Hp2]]]; [by injection Hrun as <- <-|].
    injection Hrun as <- <-. destruct Hset as [Hb0 Hp0]. split_and!.
    + intros a. by rewrite Hb2, Hb, Hb0.
    + intros a Ha. rewrite Hp2. unfold target. case_decide; [by destruct (prot_at s0 a)|].
      apply Hm. rewrite Hp0. unfold target. case_decide; [by destruct Ha as [? ->]|done].
    + exists p. split; [by left|]. apply Forall_cons in Hc' as [[Hal Hprot] _]. split_and!; [done..| |].
      { intros a Ha. rewrite Hp2, Hout, Hp0 by done.
        repeat case_decide; try done. unfold target. by destruct (prot_at s0 a). }
      exists s, s1. split_and!; [done| |done|].
      * intros b. rewrite Hp0. unfold target. case_decide; auto.
      * intros b _. rewrite Hp2. unfold target. case_decide; [right; by destruct (prot_at s0 b)|by left].
Qed.

(** *** The transaction *)

Lemma written_back s s1 s2 a bs bs' :
  length bs' = length bs → holds s a bs → written s s1 a bs' → written s1 s2 a bs →
  same_bytes s s2.
Proof.
  intros Hlen Hh [_ Hout1] [Hin2 Hout2] b.
  destruct (decide (a ≤ b < a + Z.of_nat (length bs))) as [Hb|Hb].
  - destruct (lookup_lt_is_Some_2 bs (Z.to_nat (b - a))) as [x Hx]; [lia|].
    replace b with (a + Z.of_nat (Z.to_nat (b - a))) by lia.
    by rewrite (Hin2 _ _ Hx), (Hh _ _ Hx).
  - rewrite Hout2, Hout1 by lia. done.
Qed.

Lemma same_prot_mapped s s' : same_prot s s' → still_mapped s s'.
Proof. intros Hp a. by rewrite Hp. Qed.

Lemma written_bytes s s0 s1 a bs : same_bytes s s0 → written s0 s1 a bs → written s s1 a bs.
Proof. intros Hb [? Hout]. split; [done|]. intros b Hnb. by rewrite Hout, Hb. Qed.

(** The pages are open, so the copy goes through. *)
Lemma copy_open s0 a n pages bs s o s' :
  pages_for s0 a n pages → (Z.of_nat (length bs) ≤ n) →
  (∀ b, prot_at s b = if decide (covered pages b) then target s0 true b else prot_at s0 b) →
  copy bs a s = (o, s') → o = Ok tt ∧ same_prot s s' ∧ written s s' a bs.
Proof.
  intros (Hal & Hprot & Hcov & _) Hn Hs. apply copy_law. intros k Hk.
  destruct (Hcov (a + Z.of_nat k)) as (p & Hp & Hin & _); [lia|].
  exists (with_write (PageRange.protection p)).
  split; [|apply with_write_can; by destruct (proj1 (Forall_forall _ _) Hal p Hp) as (_ & _ & ?)].
  rewrite Hs, decide_True by (apply Exists_exists; eauto).
  unfold target. by rewrite (Hprot _ _ Hp Hin).
Qed.

Lemma roll_back_correct s0 a original pages s o s' :
  pages_for s0 a (Z.of_nat (length original)) pages → holds s0 a original →
  (∃ replacement, length replacement = length original ∧ written s0 s a replacement) →
  (∀ b, ¬ covered pages b → prot_at s b = prot_at s0 b) →
  roll_back a original pages s = (o, s') →
  o = Abort ∨ o = Ok tt ∧ same_view s0 s'.
Proof.
  intros Hpages Hholds (repl & Hlen & Hw) Hout. pose proof (pages_for_consistent _ _ _ _ Hpages) as Hc.
  unfold roll_back, mbind, M_bind.
  destruct (protect_or_fatal true pages s) as [o1 s1] eqn:H1.
  destruct (protect_or_fatal_correct s0 _ _ _ _ _ Hc H1) as [->|[-> [Hb1 Hp1]]];
    [intros [= <- <-]; by left|].
  assert (∀ b, prot_at s1 b = if decide (covered pages b) then target s0 true b
    else prot_at s0 b) as Hopen.
  { intros b. rewrite Hp1. case_decide; auto. }
  destruct (copy original a s1) as [o2 s2] eqn:H2.
  destruct (copy_open _ _ _ _ _ _ _ _ Hpages ltac:(reflexivity) Hopen H2) as (-> & Hp2 & Hw2).
  unfold or_fatal, attempt. unfold mbind, M_bind.
  destruct (flush a (Z.of_nat (length original)) s2) as [o3 s3] eqn:H3.
  destruct (flush_law _ _ _ _ _ H3) as [Hret3 [Hb3 Hp3]].
  destruct o3 as [[]|e| |]; try done; [|intros [= <- <-]; by left].
  unfold restore_permissions. intros H4.
  destruct (protect_or_fatal_correct s0 _ _ _ _ _ Hc H4) as [->|[-> [Hb4 Hp4]]]; [by left|].
  right. split; [done|]. split.
  - intros b. rewrite Hb4, Hb3. eapply (written_back s0 s1 s2); [exact Hlen|done| |done].
    destruct Hw as [Hh Hno]. split.
    + intros k x Hk. rewrite Hb1. by apply Hh.
    + intros b' Hb'. rewrite Hb1. by apply Hno.
  - intros b. rewrite Hp4. case_decide as Hcov; [unfold target; by destruct (prot_at s0 b)|].
    rewrite Hp3, Hp2, Hopen. by rewrite decide_False.
Qed.

(** What a write leaves behind. *)
Definition transaction s s' (a : Z) (expected replacement : list Z) (o : result unit) : Prop :=
  match o with
  | Ok _ =>
      holds s a expected ∧ length expected = length replacement ∧
      written s s' a replacement ∧ same_prot s s'
  | Err e =>
      same_bytes s s' ∧ still_mapped s s' ∧
      (same_prot s s' ∨
       remap_pages = None ∧ ∃ p, meets a (Z.of_nat (length expected)) p ∧ failed_protect s s' e p)
  | Panic _ => False
  | Abort => True
  end.

Lemma overwrite_transaction a expected replacement pages s s1 o s' :
  remap_pages = None → same_view s s1 → length expected = length replacement → holds s a expected →
  pages_for s a (Z.of_nat (length expected)) pages →
  overwrite a expected replacement pages s1 = (o, s') → transaction s s' a expected replacement o.
Proof.
  intros Hmap [Hvb Hvp] Hlen Hholds Hpages. unfold overwrite.
  pose proof (pages_for_consistent _ _ _ _ Hpages) as Hc.
  assert (set_pages s true [] s s1) as Hset1.
  { split; [done|]. intros b. rewrite decide_False by apply covered_nil. apply Hvp. }
  unfold mbind, M_bind. destruct (open_pages [] pages s1) as [o2 s2] eqn:H2.
  pose proof (open_pages_correct s [] pages s1 o2 s2 Hc Hset1 H2) as Hopen.
  destruct o2 as [[]|e| |]; [|intros [= <- <-]| |intros [= <- <-]]; try done.
  2:{ destruct Hopen as (? & ? & p & Hp & ?). split_and!; [done..|]. right. split; [done|]. exists p.
      split; [|done]. destruct Hpages as (_ & _ & _ & Hmeet & _).
      by apply (proj1 (Forall_forall _ _) Hmeet). }
  destruct Hopen as [Hb2 Hp2]. simpl in Hp2.
  destruct (copy replacement a s2) as [o3 s3] eqn:H3.
  destruct (copy_open s a _ pages replacement s2 o3 s3 Hpages ltac:(lia) Hp2 H3)
    as (-> & Hp3 & Hw3).
  apply (written_bytes s) in Hw3; [|done].
  unfold attempt. unfold mbind, M_bind.
  destruct (flush a (Z.of_nat (length replacement)) s3) as [o4 s4] eqn:H4.
  destruct (flush_law _ _ _ _ _ H4) as [Hret4 [Hb4 Hp4]].
  assert (∀ s5, same_bytes s4 s5 → written s s5 a replacement) as Hw5.
  { intros s5 Hb5. destruct Hw3 as [Hh Hno]. split.
    - intros k x Hk. rewrite Hb5, Hb4. by apply Hh.
    - intros b Hb. rewrite Hb5, Hb4. by apply Hno. }
  assert (∀ s5 e o s', same_bytes s4 s5 →
    (∀ b, ¬ covered pages b → prot_at s5 b = prot_at s4 b) →
    (let (o, s') := roll_back a expected pages s5 in
     match o with
     | Ok _ => throw e s' | Err e => (Err e, s') | Panic m => (Panic m, s') | Abort => (Abort, s')
     end) = (o, s') → transaction s s' a expected replacement o) as Hroll.
  { intros s5 e o' s'' Hb5 Hp5. destruct (roll_back a expected pages s5) as [o6 s6] eqn:H6.
    destruct (roll_back_correct s a expected pages s5 o6 s6) as [->|[-> [? ?]]]; try done.
    - eauto.
    - intros b Hb. by rewrite Hp5, Hp4, Hp3, Hp2, decide_False.
    - by intros [= <- <-].
    - intros [= <- <-]. split_and!; [done|by apply same_prot_mapped|by left]. }
  destruct o4 as [[]|e| |]; try done; [|by apply Hroll].
  destruct (close_pages pages s4) as [o5 s5] eqn:H5.
  destruct (close_pages_correct s _ _ _ _ Hc H5) as (Hret5 & Hb5 & Hout5 & Hok5).
  destruct o5 as [[]|e| |]; try done; [|by apply Hroll].
  intros [= <- <-]. destruct (Hok5 eq_refl) as [_ Hp5]. split_and!; try done; [by apply Hw5|].
  intros b. rewrite Hp5. case_decide; [unfold target; by destruct (prot_at s b)|].
  by rewrite Hp4, Hp3, Hp2, decide_False.
Qed.

Lemma replace_transaction a expected replacement s o s' :
  replace a expected replacement s = (o, s') → transaction s s' a expected replacement o.
Proof.
  unfold replace. unfold mbind at 1, M_bind at 1.
  destruct (prepare a expected replacement s) as [o1 s1] eqn:H1.
  destruct (prepare_correct _ _ _ _ _ _ H1) as (Hret1 & Hv & Hok).
  destruct o1 as [[original pages]|e| |]; try done;
    [|destruct Hv; intros [= <- <-]; simpl; auto using same_prot_mapped].
  destruct (Hok _ _ eq_refl) as (-> & Hlen & Hholds & Hpages). clear Hok.
  destruct remap_pages as [f|] eqn:Hf; [|by eapply overwrite_transaction].
  rewrite Hlen in Hpages. intros Hrun. pose proof (remap_law _ _ _ _ _ _ _ _ Hf Hpages Hv Hrun) as Hr.
  destruct o; simpl; try done. destruct Hr. auto using same_prot_mapped.
Qed.
End correctness.

(** ** Theorems *)

Section theorems.
Context {S : Type} `{!Platform S, !View S, !PlatformLaws S}.
Implicit Types s : S.

(** C5. [write] is a transaction.  [Ok]: the range held the expected bytes, now
    holds the replacement, no other byte and no permission changed.  [Err]: no
    byte changed, nothing was unmapped, and no permission changed; except that
    when [protect] itself failed to open a page range of the code, and this is
    the error returned, that one range may be as the failed call left it.
    Otherwise the process is aborted; it never panics. *)
Theorem write_transaction a expected replacement s o s' :
  write a expected replacement s = (o, s') →
  match o with
  | Ok _ =>
      holds s a expected ∧ length expected = length replacement ∧
      written s s' a replacement ∧ same_prot s s'
  | Err e =>
      same_bytes s s' ∧ still_mapped s s' ∧
      (same_prot s s' ∨
       remap_pages = None ∧ ∃ p, meets a (Z.of_nat (length expected)) p ∧ failed_protect s s' e p)
  | Panic _ => False
  | Abort => True
  end.
Proof. apply replace_transaction. Qed.

Lemma read_run a limit s o s' :
  0 ≤ limit → read a limit s = (o, s') →
  returns o ∧ same_view s s' ∧
  ∀ bs, o = Ok bs →
    Z.of_nat (length bs) ≤ limit ∧ holds s a bs ∧
    ∀ k, (k < length bs)%nat →
      ∃ p, prot_at s (a + Z.of_nat k) = Some p ∧ can_run p = true.
Proof.
  intros Hl. unfold read, mbind, M_bind.
  destruct (executable_regions a limit s) as [o1 s1] eqn:H1.
  destruct (executable_regions_correct a limit s o1 s1 Hl H1) as (Hret1 & Hv1 & Hok).
  destruct o1 as [rs|e| |]; try done; [|by intros [= <- <-]].
  destruct (Hok _ eq_refl) as (Hpos & Hmax & c & r & Hch & Hlast).
  unfold last_region, lift. rewrite Hlast. simpl.
  pose proof (chain_last _ _ _ _ _ _ Hch Hlast) as ->.
  pose proof (chain_le s (a + limit) a rs _ ltac:(lia) Hch) as Hle.
  rewrite sub_run by lia. intros H2.
  destruct (read_bytes_law a (Z.min (Region.stop r - a) limit) s1 o s' ltac:(lia) H2) as (Hret2 & Hv2 & Hbs).
  split_and!; [done|by etrans|]. intros bs Ho. destruct (Hbs _ Ho) as [Hlen Hh].
  split_and!; [lia|eapply same_view_holds; [apply Hv1|done]|].
  intros k Hk.
  destruct (chain_covers _ _ _ _ _ (a + Z.of_nat k) Hch ltac:(lia))
    as (r' & x & _ & _ & (_ & _ & _ & _ & _ & Hr) & Hrun & Hin).
  exists (Region.protection r'). split; [by apply Hr|done].
Qed.

(** [read] changes nothing and never panics; what it returns are the bytes at
    the address, at most [limit] of them, all in readable executable pages. *)
Theorem read_correct a limit s o s' :
  0 ≤ limit → read a limit s = (o, s') →
  returns o ∧ same_view s s' ∧
  ∀ bs, o = Ok bs →
    Z.of_nat (length bs) ≤ limit ∧ holds s a bs ∧
    ∀ k, (k < length bs)%nat →
      ∃ p, prot_at s (a + Z.of_nat k) = Some p ∧ can_run p = true.
Proof. apply read_run. Qed.
End theorems.

(** ** Page tables, for the example systems *)

Module PageTable.
Section table.
Context (size : Z) (Hsize : 0 < size).
Implicit Types perms : Z → option Z.

Definition in_range (a n q : Z) : bool := (a <=? q * size) && (q * size <? a + n).
Definition aligned (a n : Z) : bool := (a mod size =? 0) && (n mod size =? 0).
Definition mapped (p : option Z) : bool := if p then true else false.
Definition all (f : option Z → bool) (a n : Z) perms : bool :=
  forallb (λ q, f (perms q)) (seqZ (a / size) (n / size)).
Definition set (a n : Z) (p : option Z) perms : Z → option Z :=
  λ q, if in_range a n q then p else perms q.

Lemma aligned_spec a n : aligned a n = true ↔ (size | a) ∧ (size | n).
Proof using Hsize.
  unfold aligned. rewrite andb_true_iff, !Z.eqb_eq, !Z.mod_divide by lia. done.
Qed.

(** The page of [a] holds [a]. *)
Lemma page_of a : a / size * size ≤ a < a / size * size + size.
Proof using Hsize.
  pose proof (Z.div_mod a size ltac:(lia)). pose proof (Z.mod_pos_bound a size Hsize). lia.
Qed.

Lemma page_bounds q m b : q ≤ b / size < m ↔ q * size ≤ b < m * size.
Proof using Hsize.
  pose proof (page_of b). split; [nia|]. intros [H1 H2].
  split; [apply Z.div_le_lower_bound; lia|apply Z.div_lt_upper_bound; lia].
Qed.

Lemma in_range_spec a n b :
  (size | a) → (size | n) → in_range a n (b / size) = true ↔ a ≤ b < a + n.
Proof using Hsize.
  intros [q ->] [m ->]. unfold in_range. rewrite andb_true_iff, Z.leb_le, Z.ltb_lt.
  rewrite <-Z.mul_add_distr_r, <-Z.mul_le_mono_pos_r, <-Z.mul_lt_mono_pos_r, <-page_bounds by done.
  done.
Qed.

Lemma all_spec f a n perms b :
  (size | a) → (size | n) → all f a n perms = true → a ≤ b < a + n →
  f (perms (b / size)) = true.
Proof using Hsize.
  intros [q ->] [m ->] Hall Hb. unfold all in Hall. rewrite forallb_forall in Hall.
  apply (Hall (b / size)), list_elem_of_In, elem_of_seqZ. rewrite !Z.div_mul by lia.
  apply page_bounds. by rewrite Z.mul_add_distr_r.
Qed.

Lemma set_in a n p perms b :
  (size | a) → (size | n) → a ≤ b < a + n → set a n p perms (b / size) = p.
Proof using Hsize. intros Ha Hn Hb. unfold set. by rewrite (proj2 (in_range_spec a n b Ha Hn)). Qed.

Lemma set_out a n p perms b :
  (size | a) → (size | n) → ¬ a ≤ b < a + n → set a n p perms (b / size) = perms (b / size).
Proof using Hsize.
  intros Ha Hn Hb. unfold set. destruct (in_range a n (b / size)) eqn:Hr; [|done].
  by apply in_range_spec in Hr.
Qed.

Lemma same_page a b : a / size * size ≤ b < a / size * size + size → b / size = a / size.
Proof using Hsize. intros Hb. symmetry. apply Z.div_unique_pos with (b - a / size * size); lia. Qed.
End table.
End PageTable.

(** ** A machine with pages of 4096 bytes and scripted [mprotect] failures *)

Module Machine.
Record t := Make { bytes : Z → Z; perms : Z → option Z; faults : list bool }.

Definition page_bytes : Z := 4096.

#[global] Instance platform : Platform t := {
  region_at a := λ s,
    (match perms s (a / page_bytes) with
     | Some p =>
         if (0 <=? a) && (a / page_bytes * page_bytes + page_bytes <=? usize_max)
         then Ok (Some (Region.Make (a / page_bytes * page_bytes)
                          (a / page_bytes * page_bytes + page_bytes) p
                          (Z.testbit p 0) (Z.testbit p 2)))
         else Ok None
     | None => Ok None
     end, s);
  read_bytes a n := λ s, (Ok ((λ k, bytes s (a + k)) <$> seqZ 0 n), s);
  page_size := λ s, (Ok page_bytes, s);
  protect p w := λ s,
    match faults s with
    | true :: faults => (Err (Os "protect memory" 12), Make (bytes s) (perms s) faults)
    | _ =>
        (Ok tt, Make (bytes s)
          (λ q, if (PageRange.address p <=? q * page_bytes) &&
                   (q * page_bytes <? PageRange.address p + PageRange.length p)
                then Some (if w then Z.lor (PageRange.protection p) 2
                           else PageRange.protection p)
                else perms s q)
          (tail (faults s)))
    end;
  flush a n := λ s, (Ok tt, s);
  copy bs a := λ s,
    (Ok tt, Make (λ b, if (a <=? b) && (b <? a + Z.of_nat (length bs))
                       then default 0 (bs !! Z.to_nat (b - a)) else bytes s b)
                 (perms s) (faults s));
  remap_pages := None }.

#[global] Instance view : View t := {
  byte_at := bytes;
  prot_at s b := perms s (b / page_bytes);
  page := page_bytes;
  prot_ok _ := True;
  with_write p := Z.lor p 2;
  can_write p := Z.testbit p 1;
  can_run p := Z.testbit p 0 && Z.testbit p 2 }.

(** A page-aligned range holds a byte exactly when it holds its page. *)
Lemma aligned_in x n b :
  (page_bytes | x) → (page_bytes | n) →
  x ≤ b < x + n ↔ x ≤ b / page_bytes * page_bytes < x + n.
Proof.
  intros [q ->] [m ->]. unfold page_bytes.
  pose proof (Z.div_mod b 4096 ltac:(lia)). pose proof (Z.mod_pos_bound b 4096 ltac:(lia)).
  nia.
Qed.

#[global] Instance laws : PlatformLaws t.
Proof.
  split.
  - done.
  - intros p _. change (Z.testbit (Z.lor p 2) 1 = true). rewrite Z.lor_spec. apply orb_true_r.
  - intros a s o s' [= <- <-]. split_and!; [by repeat case_match|reflexivity|].
    intros r. case_match eqn:Hp; [|done]. case_match eqn:Hb; [|done]. intros [= <-] Hflags.
    split; [|done]. pose proof (Z.div_mod a page_bytes ltac:(done)).
    pose proof (Z.mod_pos_bound a page_bytes ltac:(done)).
    unfold page_bytes in *. split_and!; simpl; try lia.
    + apply Z.divide_factor_r.
    + apply Z.divide_add_r; [apply Z.divide_factor_r|done].
    + intros b Hb'. simpl in Hb'. unfold page_bytes.
      replace (b / 4096) with (a / 4096); [done|].
      apply Z.div_unique_pos with (b - a / 4096 * 4096); lia.
  - intros a n s o s' Hn [= <- <-]. split_and!; [done|reflexivity|]. intros bs [= <-].
    split; [rewrite length_fmap, length_seqZ; lia|].
    intros k b Hk. apply list_lookup_fmap_Some in Hk as (x & -> & [-> ?]%lookup_seqZ). done.
  - intros s o s' [= <- <-]. split_and!; [done|reflexivity|]. by intros p [= <-].
  - intros p w s o s' (Ha & Hl & _) Hrun. simpl in Hrun.
    pose proof (λ a, aligned_in _ _ a Ha Hl) as Hin.
    destruct (faults s) as [|[] fs]; injection Hrun as <- <-;
      try (split_and!; done || by intros ? ?);
      (split_and!; [done|done|intros a Hp|intros a Hp; simpl; by case_match|intros _ a Hp]);
      specialize (Hin a); unfold in_page in Hp; simpl; case_match; lia || done.
  - intros a n s o s' [= <- <-]. split; [done|reflexivity].
  - intros bs a s o s' _ [= <- <-]. split_and!; [done|done|]. split.
    + intros k b Hk. pose proof (lookup_lt_Some _ _ _ Hk). simpl.
      rewrite (proj2 (Z.leb_le _ _)), (proj2 (Z.ltb_lt _ _)) by lia. simpl.
      replace (Z.to_nat (a + Z.of_nat k - a)) with k by lia. by rewrite Hk.
    + intros b Hb. simpl. case_match; [lia|done].
  - discriminate.
Qed.

(** Two pages of code at [0x1000], and a call that patches across them. *)
Definition demo (faults : list bool) : t :=
  Make (λ a, a mod 256) (λ q, if (q =? 1) || (q =? 2) then Some 5 else None) faults.

Definition original : list Z := [254; 255; 0; 1].
Definition replacement : list Z := [233; 1; 2; 3].
End Machine.

(** A write across two pages; and one where the second page cannot be closed
    again, which is rolled back. *)
Lemma write_transaction_witness :
  (∃ s', write (S:=Machine.t) 8190 Machine.original Machine.replacement (Machine.demo []) = (Ok tt, s') ∧
     written (Machine.demo []) s' 8190 Machine.replacement) ∧
  ∃ e s', write (S:=Machine.t) 8190 Machine.original Machine.replacement
      (Machine.demo [false; false; false; true]) = (Err e, s') ∧
    same_bytes (Machine.demo [false; false; false; true]) s'.
Proof.
  split.
  - destruct (write (S:=Machine.t) 8190 Machine.original Machine.replacement (Machine.demo []))
      as [o s'] eqn:H.
    pose proof (write_transaction _ _ _ _ _ _ H) as Ht.
    destruct o as [[]|e|m|]; [|apply (f_equal (is_ok ∘ fst)) in H; vm_compute in H; discriminate H..].
    exists s'. split; [reflexivity|apply Ht].
  - destruct (write (S:=Machine.t) 8190 Machine.original Machine.replacement
      (Machine.demo [false; false; false; true])) as [o s'] eqn:H.
    pose proof (write_transaction _ _ _ _ _ _ H) as Ht.
    destruct o as [[]|e|m|].
    + apply (f_equal (is_ok ∘ fst)) in H. vm_compute in H. discriminate H.
    + exists e, s'. split; [reflexivity|apply Ht].
    + destruct Ht.
    + apply (f_equal (λ x, match x.1 with Abort => true | _ => false end)) in H. vm_compute in H. discriminate H.
Defined.

Lemma read_correct_witness :
  ∃ bs s', read (S:=Machine.t) 12280 64 (Machine.demo []) = (Ok bs, s') ∧ length bs = 8%nat ∧
    holds (Machine.demo []) 12280 bs.
Proof.
  destruct (read (S:=Machine.t) 12280 64 (Machine.demo [])) as [o s'] eqn:H.
  destruct (read_correct 12280 64 _ _ _ ltac:(lia) H) as (_ & _ & Hok).
  destruct o as [bs|e|m|]; [|apply (f_equal (is_ok ∘ fst)) in H; vm_compute in H; discriminate H..].
  exists bs, s'. split; [reflexivity|]. split; [|apply (Hok bs eq_refl)].
  apply (f_equal fst) in H. vm_compute in H. injection H as <-. reflexivity.
Defined.
