(* ===== verification/Cache.v ===== *)
(** * Instruction cache maintenance ([src/src/cache.rs])

    What [flush] executes on each target; for AArch64 Linux, where it writes
    the maintenance instructions out itself, why they are enough: whatever the caches do on their own in between, the core fetches
    the bytes the thread wrote. *)

From S2P Require Import Prelude Errors.

#[local] Open Scope Z_scope.

(** [dc cvau], [ic ivau], [dsb ish], [isb]. *)
Inductive CacheOp := Clean (line : Z) | Invalidate (line : Z) | Dsb | Isb.

(** [!x] on [usize]. *)
Definition not_usize (x : Z) : Z := Z.lxor x usize_max.

(** [(start..stop).step_by(step)]. *)
Definition step_by (start stop step : Z) : list Z :=
  (λ k, start + k * step) <$> seqZ 0 (div_ceil (stop - start) step).

(** [4 << (field & 15)]: the smallest line of the data and of the instruction
    caches in [ctr_el0]. *)
Definition data_line (cache_type : Z) : Z := Z.shiftl 4 (Z.land (Z.shiftr cache_type 16) 15).
Definition instruction_line (cache_type : Z) : Z := Z.shiftl 4 (Z.land cache_type 15).

(** The lines of a range. *)
Definition lines_of (address stop line : Z) : list Z :=
  step_by (Z.land address (not_usize (line - 1))) stop line.

(** [flush] on AArch64 Linux. *)
Definition cache_flush_ops (cache_type address length : Z) : result (list CacheOp) :=
  stop ← expect "attempt to add with overflow" (checked_add address length);
  Ok ((Clean <$> lines_of address stop (data_line cache_type)) ++ [Dsb]
      ++ (Invalidate <$> lines_of address stop (instruction_line cache_type)) ++ [Dsb; Isb]).

(** The targets of the [cfg] attributes; [cache_type] is what [ctr_el0]
    reads. *)
Inductive Target := X86_64 | Aarch64_macos | Aarch64_linux (cache_type : Z).

(** What one [flush] executes: a fence, the call of [sys_icache_invalidate],
    or maintenance instructions. *)
Inductive Flush :=
| Fence
| Sys_icache_invalidate (address length : Z)
| Instructions (ops : list CacheOp).

(** [flush]. *)
Definition flush (target : Target) (address length : Z) : result Flush :=
  match target with
  | X86_64 => Ok Fence
  | Aarch64_macos => Ok (Sys_icache_invalidate address length)
  | Aarch64_linux cache_type =>
      ops ← cache_flush_ops cache_type address length; Ok (Instructions ops)
  end.

(** ** The caches of a core

    [stored] is what a load sees; [unified] what an instruction cache is
    filled from; [icache] the lines it holds; [fetched] the instructions the
    core fetched and has not executed.  A maintenance instruction only asks:
    [cleaning] and [invalidating] are the requests that have not completed.

    A core does the following on its own at any time: it writes data back,
    fills and drops instruction lines, fetches ahead and completes requests;
    other threads may store, but not to the range that is being flushed. *)
Record core := mkCore {
  stored : Z → Z;
  unified : Z → Z;
  icache : Z → option Z;
  fetched : Z → option Z;
  cleaning : list Z;
  invalidating : list Z }.

(** The block of [size] bytes that holds [line]. *)
Definition block (size line a : Z) : bool := line / size =? a / size.

(** What a fetch of the byte at [a] gets. *)
Definition fetch (c : core) (a : Z) : Z := default (unified c a) (icache c a).

(** What the core executes at [a]. *)
Definition executes (c : core) (a : Z) : Z := default (fetch c a) (fetched c a).

Section core.
Context (cache_type address stop : Z).
Implicit Types c : core.

Inductive hardware : core → core → Prop :=
| hw_write_back c a :
    hardware c (mkCore (stored c) (λ b, if b =? a then stored c b else unified c b)
      (icache c) (fetched c) (cleaning c) (invalidating c))
| hw_fill c a :
    hardware c (mkCore (stored c) (unified c)
      (λ b, if b =? a then Some (unified c b) else icache c b)
      (fetched c) (cleaning c) (invalidating c))
| hw_drop c a :
    hardware c (mkCore (stored c) (unified c) (λ b, if b =? a then None else icache c b)
      (fetched c) (cleaning c) (invalidating c))
| hw_prefetch c a :
    hardware c (mkCore (stored c) (unified c) (icache c)
      (λ b, if b =? a then Some (fetch c b) else fetched c b) (cleaning c) (invalidating c))
| hw_cleaned c pre line post :
    cleaning c = pre ++ line :: post →
    hardware c (mkCore (stored c)
      (λ b, if block (data_line cache_type) line b then stored c b else unified c b)
      (icache c) (fetched c) (pre ++ post) (invalidating c))
| hw_invalidated c pre line post :
    invalidating c = pre ++ line :: post →
    hardware c (mkCore (stored c) (unified c)
      (λ b, if block (instruction_line cache_type) line b then None else icache c b)
      (fetched c) (cleaning c) (pre ++ post))
| hw_store c a v :
    ¬ address ≤ a < stop →
    hardware c (mkCore (λ b, if b =? a then v else stored c b) (unified c)
      (icache c) (fetched c) (cleaning c) (invalidating c)).

(** One instruction; [dsb] waits for the requests, [isb] drops what was
    fetched. *)
Inductive maintain : CacheOp → core → core → Prop :=
| do_clean c line :
    maintain (Clean line) c (mkCore (stored c) (unified c) (icache c) (fetched c)
      (line :: cleaning c) (invalidating c))
| do_invalidate c line :
    maintain (Invalidate line) c (mkCore (stored c) (unified c) (icache c) (fetched c)
      (cleaning c) (line :: invalidating c))
| do_dsb c : cleaning c = [] → invalidating c = [] → maintain Dsb c c
| do_isb c :
    maintain Isb c (mkCore (stored c) (unified c) (icache c) (λ _, None)
      (cleaning c) (invalidating c)).

Inductive exec : list CacheOp * core → list CacheOp * core → Prop :=
| exec_hardware ops c c' : hardware c c' → exec (ops, c) (ops, c')
| exec_op op ops c c' : maintain op c c' → exec (op :: ops, c) (ops, c').
End core.

(** ** The lines of a range cover it *)

Lemma line_is_power n : 0 ≤ n → ∃ k, 0 ≤ k ≤ 17 ∧ Z.shiftl 4 (Z.land n 15) = 2 ^ k.
Proof.
  intros Hn. change 15 with (Z.ones 4). rewrite Z.land_ones, Z.shiftl_mul_pow2 by
    (try apply Z.mod_pos_bound; lia).
  pose proof (Z.mod_pos_bound n (2 ^ 4) ltac:(lia)). exists (2 + n mod 2 ^ 4).
  split; [lia|]. rewrite Z.pow_add_r by lia. done.
Qed.

(** Masking rounds down to a line. *)
Lemma mask_line address k :
  0 ≤ k ≤ 17 → 0 ≤ address ≤ usize_max →
  Z.land address (not_usize (2 ^ k - 1)) = address / 2 ^ k * 2 ^ k.
Proof.
  intros Hk Ha. replace (2 ^ k - 1) with (Z.ones k) by (rewrite Z.ones_equiv; lia).
  rewrite <-Z.shiftr_div_pow2, <-Z.shiftl_mul_pow2 by lia.
  unfold not_usize. change usize_max with (Z.ones 64). apply Z.bits_inj'. intros i Hi.
  rewrite Z.land_spec, Z.lxor_spec, Z.shiftl_spec by lia.
  rewrite !Z.testbit_ones_nonneg by lia.
  destruct (decide (i < k)) as [Hlt|Hge].
  - rewrite (Z.testbit_neg_r _ (i - k)) by lia.
    replace (i <? k) with true by lia. replace (i <? 64) with true by lia. apply andb_false_r.
  - rewrite Z.shiftr_spec by lia. replace (i - k + k) with i by lia.
    replace (i <? k) with false by lia. destruct (Z.ltb_spec i 64); [apply andb_true_r|].
    rewrite andb_false_r. symmetry. destruct (decide (address = 0)) as [->|]; [apply Z.bits_0|].
    apply Z.bits_above_log2; [lia|]. apply Z.lt_le_trans with 64; [|done].
    apply Z.log2_lt_pow2; unfold usize_max in Ha; lia.
Qed.

Lemma lines_cover address stop k a :
  0 ≤ k ≤ 17 → 0 ≤ address ≤ usize_max → address ≤ a < stop →
  ∃ line, line ∈ lines_of address stop (2 ^ k) ∧ block (2 ^ k) line a = true.
Proof.
  intros Hk Haddr Ha. pose proof (Z.pow_pos_nonneg 2 k ltac:(lia) ltac:(lia)) as Hpos.
  exists (a / 2 ^ k * 2 ^ k). unfold lines_of, step_by. rewrite mask_line by done. split.
  - apply list_elem_of_fmap. exists (a / 2 ^ k - address / 2 ^ k). split; [lia|].
    apply elem_of_seqZ. unfold div_ceil.
    pose proof (Z.div_le_mono address a (2 ^ k) Hpos ltac:(lia)).
    split; [lia|]. Z.to_euclidean_division_equations. nia.
  - unfold block. rewrite Z.div_mul by lia. apply Z.eqb_refl.
Qed.

(** ** Coherence *)

Lemma Exists_remove {A} (P : A → Prop) l pre x post :
  Exists P (l ++ pre ++ x :: post) → Exists P (l ++ pre ++ post) ∨ P x.
Proof. rewrite !Exists_app, Exists_cons. tauto. Qed.

Lemma Exists_move {A} (P : A → Prop) l x k : Exists P ((x :: l) ++ k) → Exists P (l ++ x :: k).
Proof. simpl. rewrite Exists_app, !Exists_cons, Exists_app. tauto. Qed.

Section coherence.
Context (cache_type address stop : Z) (a : Z) (Ha : address ≤ a < stop).
Implicit Types c : core.

Abbreviation dline := (data_line cache_type).
Abbreviation iline := (instruction_line cache_type).

(** The byte will be cleaned, or was. *)
Definition clean_in (v : Z) (lines : list Z) c : Prop :=
  Exists (λ l, block dline l a = true) (lines ++ cleaning c) ∨ unified c a = v.

(** The byte will be invalidated, or is not stale. *)
Definition fresh_in (v : Z) (lines : list Z) c : Prop :=
  Exists (λ l, block iline l a = true) (lines ++ invalidating c) ∨
  icache c a = None ∨ icache c a = Some v.

(** Where the flush of a byte with the value [v] stands. *)
Inductive flushing (v : Z) : list CacheOp * core → Prop :=
| flush_cleaning cleans invalidates c :
    stored c a = v → clean_in v cleans c →
    Exists (λ l, block iline l a = true) invalidates →
    flushing v ((Clean <$> cleans) ++ Dsb :: (Invalidate <$> invalidates) ++ [Dsb; Isb], c)
| flush_invalidating invalidates c :
    stored c a = v → unified c a = v → fresh_in v invalidates c →
    flushing v ((Invalidate <$> invalidates) ++ [Dsb; Isb], c)
| flush_synchronised c :
    stored c a = v → unified c a = v → fresh_in v [] c → invalidating c = [] →
    flushing v ([Isb], c)
| flush_done c :
    stored c a = v → unified c a = v → icache c a = None ∨ icache c a = Some v →
    fetched c a = None ∨ fetched c a = Some v → flushing v ([], c).

(** What the core does on its own never makes a clean byte stale. *)
Lemma hardware_keeps v c c' :
  hardware cache_type address stop c c' → stored c a = v →
  stored c' a = v ∧
  (∀ lines, clean_in v lines c → clean_in v lines c') ∧
  (unified c a = v → unified c' a = v ∧
    (∀ lines, fresh_in v lines c → fresh_in v lines c') ∧
    (icache c a = None ∨ icache c a = Some v →
      (icache c' a = None ∨ icache c' a = Some v) ∧
      (fetched c a = None ∨ fetched c a = Some v → fetched c' a = None ∨ fetched c' a = Some v)))
  ∧ (invalidating c = [] → invalidating c' = []).
Proof using Ha.
  intros Hstep Hv. destruct Hstep as [c b|c b|c b|c b|c pre line post Hc|c pre line post Hc|c b x Hb];
    unfold clean_in, fresh_in; simpl.
  - split_and!; [done|..|done].
    + intros lines []; [by left|right]. by destruct (a =? b).
    + intros Hu. split_and!; [by destruct (a =? b)|done|by intros].
  - split_and!; [done|done| |done]. intros Hu. split_and!; [done| |].
    + intros lines []; [by left|]. right. destruct (a =? b); [right; congruence|done].
    + intros Hi. split; [|done]. destruct (a =? b); [right; congruence|done].
  - split_and!; [done|done| |done]. intros Hu. split_and!; [done| |].
    + intros lines []; [by left|]. right. destruct (a =? b); [by left|done].
    + intros Hi. split; [|done]. destruct (a =? b); [by left|done].
  - split_and!; [done|done| |done]. intros Hu. split_and!; [done|done|].
    intros Hi. split; [done|]. intros Hf. destruct (a =? b); [|done]. right. f_equal.
    unfold fetch. by destruct Hi as [-> | ->].
  - split_and!; [done|..|done].
    + intros lines [Hin|Hu]; [|right; by destruct (block dline line a)].
      destruct (block dline line a) eqn:Hl; [right; congruence|left]. rewrite Hc in Hin.
      by apply Exists_remove in Hin as [Hin|?]; [|congruence].
    + intros Hu. split_and!; [by destruct (block dline line a)|done|done].
  - split_and!; [done|done| |by rewrite Hc; destruct pre]. intros Hu. split_and!; [done| |].
    + intros lines [Hin|Hi]; [|right; destruct (block iline line a); [by left|done]].
      destruct (block iline line a) eqn:Hl; [by right; left|left].
      rewrite Hc in Hin. by apply Exists_remove in Hin as [Hin|?]; [|congruence].
    + intros Hi. split; [|done]. destruct (block iline line a); [by left|done].
  - replace (a =? b) with false by lia. split_and!; try done.
Qed.

Lemma flushing_hardware v ops c c' :
  hardware cache_type address stop c c' → flushing v (ops, c) → flushing v (ops, c').
Proof using Ha.
  intros Hstep Hf. inversion Hf as [cl inv c1 Hv Hc Hi|inv c1 Hv Hu Hfr|c1 Hv Hu Hfr Hn|c1 Hv Hu Hi Hfe];
    subst ops c1; destruct (hardware_keeps v c c' Hstep Hv) as (Hv' & Hcl & Hun & Hno).
  - apply flush_cleaning; auto.
  - destruct (Hun Hu) as (? & ? & _). apply flush_invalidating; auto.
  - destruct (Hun Hu) as (? & ? & _). apply flush_synchronised; auto.
  - destruct (Hun Hu) as (? & _ & Hcache). destruct (Hcache Hi). apply flush_done; auto.
Qed.

Lemma flushing_maintain v op ops c c' :
  maintain op c c' → flushing v (op :: ops, c) → flushing v (ops, c').
Proof using Type.
  intros Hstep Hf. inversion Hf as [cl inv c1 Hv Hc Hi Hops|inv c1 Hv Hu Hfr Hops|c1 Hv Hu Hfr Hn Hops|];
    subst c1.
  - destruct cl as [|l cl]; injection Hops as <- <-; inversion Hstep; subst.
    + apply flush_invalidating; [done| |left; by apply Exists_app; left].
      destruct Hc as [Hc|]; [|done]. rewrite H, app_nil_r in Hc. by apply Exists_nil in Hc.
    + apply flush_cleaning; [done| |done]. destruct Hc as [Hc|]; [left|by right].
      by apply Exists_move.
  - destruct inv as [|l inv]; injection Hops as <- <-; inversion Hstep; subst.
    + by apply flush_synchronised.
    + apply flush_invalidating; [done|done|]. destruct Hfr as [Hfr|]; [left|by right].
      by apply Exists_move.
  - subst. inversion Hstep; subst. apply flush_done; simpl; auto.
    destruct Hfr as [Hfr|]; [|done]. rewrite Hn in Hfr. by apply Exists_nil in Hfr.
Qed.
End coherence.

(** ** Every run ends, and ends coherent *)

Section runs.
Context (cache_type address stop : Z).
Abbreviation run := (rtc (exec cache_type address stop)).

(** The requests a [dsb] waits for complete. *)
Lemma drain_cleaning ops l c :
  cleaning c = l →
  ∃ c', run (ops, c) (ops, c') ∧ cleaning c' = [] ∧ invalidating c' = invalidating c.
Proof using Type.
  revert c. induction l as [|line l IH]; intros c Hc; [by exists c|].
  destruct (IH (mkCore (stored c)
      (λ b, if block (data_line cache_type) line b then stored c b else unified c b)
      (icache c) (fetched c) l (invalidating c)) eq_refl) as (c' & Hrun & ? & ?).
  exists c'. split; [|done]. eapply rtc_l; [|exact Hrun].
  by apply exec_hardware, (hw_cleaned _ _ _ c []).
Qed.

Lemma drain_invalidating ops l c :
  invalidating c = l →
  ∃ c', run (ops, c) (ops, c') ∧ invalidating c' = [] ∧ cleaning c' = cleaning c.
Proof using Type.
  revert c. induction l as [|line l IH]; intros c Hc; [by exists c|].
  destruct (IH (mkCore (stored c) (unified c)
      (λ b, if block (instruction_line cache_type) line b then None else icache c b)
      (fetched c) (cleaning c) l) eq_refl) as (c' & Hrun & ? & ?).
  exists c'. split; [|done]. eapply rtc_l; [|exact Hrun].
  by apply exec_hardware, (hw_invalidated _ _ _ c []).
Qed.

Lemma run_completes ops c : ∃ c', run (ops, c) ([], c').
Proof using Type.
  revert c. induction ops as [|op ops IH]; intros c; [by exists c|].
  assert (∃ c1 c2, run (op :: ops, c) (op :: ops, c1) ∧ maintain op c1 c2) as (c1 & c2 & H1 & H2).
  { destruct op; try (eexists c, _; split; [reflexivity|constructor]; fail).
    destruct (drain_cleaning (Dsb :: ops) _ c eq_refl) as (c1 & H1 & Hc1 & _).
    destruct (drain_invalidating (Dsb :: ops) _ c1 eq_refl) as (c2 & H2 & Hc2 & Heq).
    exists c2, c2. split; [by etrans|]. constructor; [congruence|done]. }
  destruct (IH c2) as [c' H3]. exists c'. etrans; [exact H1|]. eapply rtc_l; [|exact H3].
  by constructor.
Qed.
End runs.

(** C26. After [flush] the core executes what the thread wrote.  The instructions
    never overflow in a range that ends in the address space; they can always
    run to their end; and however write-backs, fills, prefetches, stores of
    other threads elsewhere and the completion of the requests fall between
    them, every byte of the range is then executed with the value it was
    stored with. *)
Theorem cache_flush_coherent cache_type address length c :
  0 ≤ cache_type → 0 ≤ address → 0 ≤ length → address + length ≤ usize_max →
  ∃ ops, flush (Aarch64_linux cache_type) address length = Ok (Instructions ops) ∧
    (∃ c', rtc (exec cache_type address (address + length)) (ops, c) ([], c')) ∧
    ∀ c', rtc (exec cache_type address (address + length)) (ops, c) ([], c') →
      ∀ a, address ≤ a < address + length →
        stored c' a = stored c a ∧ executes c' a = stored c a.
Proof.
  intros Hct Haddr Hlen Hend. unfold flush, cache_flush_ops, checked_add.
  rewrite (proj2 (Z.leb_le _ _)) by lia. simpl. eexists. split; [done|].
  split; [apply run_completes|]. intros c' Hrun a Ha.
  assert (flushing cache_type a (stored c a) ([], c')) as Hdone.
  { eapply (rtc_ind_r (λ p, flushing cache_type a (stored c a) p)); [| |exact Hrun].
    - destruct (line_is_power (Z.shiftr cache_type 16)) as (k & Hk & Hd);
        [by apply Z.shiftr_nonneg|].
      destruct (line_is_power cache_type Hct) as (j & Hj & Hi).
      destruct (lines_cover address (address + length) k a) as (l & Hl & Hbl); [lia..|].
      destruct (lines_cover address (address + length) j a) as (m & Hm & Hbm); [lia..|].
      apply flush_cleaning; [done|left|].
      + apply Exists_app. left. apply Exists_exists. exists l. unfold data_line. by rewrite Hd.
      + apply Exists_exists. exists m. unfold instruction_line. by rewrite Hi.
    - intros p q _ Hstep Hp. destruct Hstep; [by eapply flushing_hardware|by eapply flushing_maintain]. }
  inversion Hdone as [cl inv ? ? ? ? Hops|inv ? ? ? ? Hops| |c1 Hv Hu Hi Hf].
  - by destruct cl.
  - by destruct inv.
  - subst c1. split; [done|]. unfold executes, fetch.
    destruct Hf as [-> | ->]; [|done]. simpl. by destruct Hi as [-> | ->].
Qed.

Lemma cache_flush_coherent_witness :
  ∃ ops c', flush (Aarch64_linux 0x84448004) 0x1004 0x50 = Ok (Instructions ops) ∧
    rtc (exec 0x84448004 0x1004 0x1054)
      (ops, mkCore (λ a, a mod 256) (λ _, 0) (λ _, Some 1) (λ _, Some 2) [] []) ([], c') ∧
    executes c' 0x1010 = 0x10.
Proof.
  destruct (cache_flush_coherent 0x84448004 0x1004 0x50
    (mkCore (λ a, a mod 256) (λ _, 0) (λ _, Some 1) (λ _, Some 2) [] []))
    as (ops & H & [c' Hrun] & Hall); [lia|lia|lia|unfold usize_max; lia|].
  exists ops, c'. split; [exact H|]. split; [exact Hrun|].
  destruct (Hall c' Hrun 0x1010) as [_ He]; [lia|]. rewrite He. reflexivity.
Defined.
