(* ===== verification/Executable.v ===== *)
(** * Owned pages for saved function entries
    ([src/src/executable.rs], [executable/unix.rs], [executable/linux.rs],
    [executable/windows.rs])

    [Executable] over the page operations of the platform ([Pages]); the two
    searches for a page near a function, [Unix.search] and [Windows.search];
    the shadow-stack query of Linux. *)

From S2P Require Import Prelude Errors Memory.

#[local] Open Scope Z_scope.
#[local] Set Default Proof Using "Type*".

Definition CAPACITY : Z := 16384.
Definition REACH_x86_64 : Z := 2 ^ 30.
Definition REACH_aarch64 : Z := 2 ^ 27 - CAPACITY.

(** The operations of the [platform] module. *)
Class Pages (S : Type) := {
  allocate : Z → M Error S Z;
  seal : Z → M Error S unit;
  release : Z → M Error S unit;
  shadow_stack : M Error S bool }.

(** [finish] of [lib.rs], with [std::process::abort]. *)
Definition finish {S} (result : M Error S unit) : M Error S unit := or_fatal result.

Module Executable.
Record t := Make { address : Z; sealed : bool }.

Section operations.
Context {S : Type} `{!Platform S, !Pages S}.

(** [Executable::near]. *)
Definition near (source : Z) : M Error S t :=
  if (source =? 0) || (isize_max - CAPACITY <? source) then throw InvalidAddress else
  address ← allocate source;
  mret (Make address false).

(** [Executable::publish]: the page after the call, and the result. *)
Definition publish (self : t) (bytes : list Z) : M Error S (t * result unit) :=
  if sealed self || (length bytes =? 0)%nat || (CAPACITY <? Z.of_nat (length bytes))
  then mret (self, Err InvalidRange) else
  copy bytes (address self);;
  let self := Make (address self) true in
  r ← attempt (seal (address self));
  mret (self, r).

(** [Drop for Executable]. *)
Definition drop (self : t) : M Error S unit := finish (release (address self)).
End operations.
End Executable.

Section bridge.
Context {S : Type} `{!Pages S}.

(** [check_shadow_stack]. *)
Definition check_shadow_stack (enabled : bool) : result unit :=
  if enabled then Err ShadowStack else Ok tt.

(** [check_call_bridge]. *)
Definition check_call_bridge : M Error S unit :=
  enabled ← shadow_stack; lift (check_shadow_stack enabled).
End bridge.

(** ** The Unix search *)

Module Unix.
Section search.
Context {S : Type} (REACH : Z).
Context (reserve : Z → M Error S (option Z)) (release : Z → M Error S unit).

(** The hint of one step: alternating sides, further away every second step. *)
Definition hint (source step : Z) : Z :=
  let distance := div_ceil step 2 * (REACH / 64) in
  let hint := if step mod 2 =? 0 then saturating_add source distance
              else saturating_sub source distance in
  hint / CAPACITY * CAPACITY.

Fixpoint search_loop (source : Z) (steps : list Z) : M Error S Z :=
  match steps with
  | [] => throw InsufficientSpace
  | step :: steps =>
      let hint := hint source step in
      if (hint <? CAPACITY) || (isize_max - CAPACITY <? hint) then search_loop source steps else
      page ← reserve hint;
      match page with
      | Some address =>
          if Z.abs (address - source) <=? REACH - CAPACITY then mret address
          else release address;; search_loop source steps
      | None => search_loop source steps
      end
  end.

(** [search]: steps [0..=128]. *)
Definition search (source : Z) : M Error S Z := search_loop source (seqZ 0 129).

(** [fallback], for Apple Silicon. *)
Definition fallback (near : M Error S Z) : M Error S Z :=
  r ← attempt near;
  match r with
  | Err InsufficientSpace =>
      page ← reserve 0;
      match page with Some address => mret address | None => throw InsufficientSpace end
  | r => lift r
  end.
End search.
End Unix.

(** ** The Windows search *)

Module Windows.
Definition GRANULARITY : Z := 65536.

Section search.
Context {S : Type} (REACH : Z).
Context (region : Z → M Error S (Z * bool)) (reserve : Z → M Error S (option Z)).

(** [a * b] on [usize]. *)
Definition mul (a b : Z) : result Z :=
  if a * b <=? usize_max then Ok (a * b) else Panic "attempt to multiply with overflow".

(** [a + b] on [usize]. *)
Definition plus (a b : Z) : result Z :=
  expect "attempt to add with overflow" (checked_add a b).

Fixpoint search_loop (fuel : nat) (upper cursor : Z) : M Error S Z :=
  if negb (cursor <=? saturating_sub upper CAPACITY) then throw InsufficientSpace else
  match fuel with
  | O => panic "out of fuel"
  | Datatypes.S fuel =>
      '(stop, free) ← region cursor;
      if stop <=? cursor then throw InvalidRange else
      if free && (CAPACITY <=? stop - cursor) then
        page ← reserve cursor;
        match page with
        | Some address => mret address
        | None =>
            cursor ← lift (plus cursor GRANULARITY);
            search_loop fuel upper cursor
        end
      else
        cursor ← lift (mul (div_ceil stop GRANULARITY) GRANULARITY);
        search_loop fuel upper cursor
  end.

Definition lower (source : Z) : Z := Z.max (saturating_sub source REACH) GRANULARITY.
Definition upper (source : Z) : Z := Z.min (saturating_add source REACH) isize_max.

(** [search].  The cursor moves by at least [GRANULARITY] a step, over at
    most [2 * REACH] bytes. *)
Definition search (source : Z) : M Error S Z :=
  cursor ← lift (mul (div_ceil (lower source) GRANULARITY) GRANULARITY);
  search_loop (Z.to_nat (2 * REACH / GRANULARITY + 2)) (upper source) cursor.
End search.
End Windows.

(** ** The shadow-stack query of Linux *)

Definition EINVAL : Z := 22.
Definition ENOSYS : Z := 38.
Definition ENOTSUP : Z := 95.

(** [query_shadow_stack]: [query] returns the result of [arch_prctl], the
    flags it wrote and [errno]. *)
Definition query_shadow_stack (query : Z * Z * Z) : result bool :=
  let '(result, flags, errno) := query in
  if negb (result =? 0) then
    if (errno =? EINVAL) || (errno =? ENOSYS) || (errno =? ENOTSUP) then Ok false
    else Err (Os "query shadow stack" errno)
  else Ok (negb (Z.land flags 1 =? 0)).

(** ** Pages as resources

    [owned] are the pages the process holds; reserving adds a page that was
    not held, releasing takes it away, a failed release changes nothing. *)
Class Ledger (S : Type) (reserve : Z → M Error S (option Z)) (release : Z → M Error S unit) := {
  owned : S → gset Z;
  reserve_law hint s o s' :
    reserve hint s = (o, s') →
    match o with
    | Ok (Some a) => a ∉ owned s ∧ owned s' = {[a]} ∪ owned s
    | Ok None => owned s' = owned s
    | _ => False
    end;
  release_law a s o s' :
    release a s = (o, s') →
    match o with
    | Ok _ => owned s' = owned s ∖ {[a]}
    | Err _ => owned s' = owned s
    | _ => False
    end }.

Section unix_search.
Context {S : Type} {reserve : Z → M Error S (option Z)} {release : Z → M Error S unit}
  `{!Ledger S reserve release}.

(** A page that was handed out and given back leaves the ledger as it was. *)
Lemma give_back (a : Z) (X : gset Z) : a ∉ X → ({[a]} ∪ X) ∖ {[a]} = X.
Proof. set_solver. Qed.

Lemma search_loop_correct REACH source steps s o s' :
  Unix.search_loop REACH reserve release source steps s = (o, s') →
  match o with
  | Ok a => Z.abs (a - source) ≤ REACH - CAPACITY ∧ a ∉ owned s ∧ owned s' = {[a]} ∪ owned s
  | Err e => (e = InsufficientSpace ∧ owned s' = owned s) ∨
             ∃ a s1, release a s1 = (Err e, s') ∧ owned s' = {[a]} ∪ owned s
  | _ => False
  end.
Proof.
  revert s. induction steps as [|step steps IH]; intros s; cbn [Unix.search_loop].
  { intros [= <- <-]. auto. }
  destruct (_ || _); [by apply IH|]. unfold mbind, M_bind.
  destruct (reserve (Unix.hint REACH source step) s) as [o1 s1] eqn:H1.
  pose proof (reserve_law _ _ _ _ H1) as Hr.
  destruct o1 as [[a|]| | |]; try done.
  2:{ intros Hrun. rewrite <-Hr. by apply IH. }
  destruct Hr as [Hfresh Hown].
  destruct (Z.leb_spec (Z.abs (a - source)) (REACH - CAPACITY)) as [Hle|_].
  { intros [= <- <-]. done. }
  destruct (release a s1) as [o2 s2] eqn:H2. pose proof (release_law _ _ _ _ H2) as Hf.
  destruct o2 as [[]|e| |]; try done.
  - intros Hrun. rewrite Hown, give_back in Hf by done. rewrite <-Hf. by apply IH.
  - intros [= <- <-]. right. exists a, s1. split; [done|]. by rewrite Hf.
Qed.

(** The Unix search hands out one new page, at most [REACH - CAPACITY] away
    from the function, and gives back every other page it was offered; when
    it fails it holds no new page, unless the system refused to take one
    back. It returns after at most 129 offers. *)
Theorem unix_search_correct REACH source s o s' :
  Unix.search REACH reserve release source s = (o, s') →
  match o with
  | Ok a => Z.abs (a - source) ≤ REACH - CAPACITY ∧ a ∉ owned s ∧ owned s' = {[a]} ∪ owned s
  | Err e => (e = InsufficientSpace ∧ owned s' = owned s) ∨
             ∃ a s1, release a s1 = (Err e, s') ∧ owned s' = {[a]} ∪ owned s
  | _ => False
  end.
Proof. apply search_loop_correct. Qed.
End unix_search.

(** ** The Windows search *)

(** What [VirtualQuery] and [VirtualAlloc] promise: user space ends below
    [isize::MAX], and a reservation at an aligned address is at that address. *)
Class VirtualMemory (S : Type) (region : Z → M Error S (Z * bool))
    (reserve : Z → M Error S (option Z)) := {
  region_law a s : match (region a s).1 with
                   | Ok (stop, _) => stop ≤ isize_max + 1
                   | Err _ => True
                   | _ => False
                   end;
  virtual_alloc_law a s : 0 < a → (Windows.GRANULARITY | a) →
                          match (reserve a s).1 with
                          | Ok (Some b) => b = a
                          | Ok None => True
                          | _ => False
                          end }.

Section windows_search.
Context {S : Type} {region : Z → M Error S (Z * bool)} {reserve : Z → M Error S (option Z)}
  `{!VirtualMemory S region reserve}.

Lemma div_ceil_mul a b : 0 < b → a ≤ div_ceil a b * b < a + b.
Proof. intros. unfold div_ceil. Z.to_euclidean_division_equations. nia. Qed.

Lemma windows_loop_correct fuel upper cursor s :
  upper - cursor < Z.of_nat fuel * Windows.GRANULARITY → Windows.GRANULARITY ≤ cursor →
  upper ≤ isize_max → (Windows.GRANULARITY | cursor) →
  match (Windows.search_loop region reserve fuel upper cursor s).1 with
  | Ok a => cursor ≤ a ≤ upper - CAPACITY ∧ (Windows.GRANULARITY | a)
  | Err _ => True
  | _ => False
  end.
Proof.
  revert cursor s. induction fuel as [|fuel IH]; intros cursor s Hf Hc Hu Hal;
    cbn [Windows.search_loop];
    destruct (Z.leb_spec cursor (saturating_sub upper CAPACITY)) as [Hle|]; simpl; try done;
    unfold saturating_sub, CAPACITY, Windows.GRANULARITY, isize_max in *; [lia|].
  assert (∀ c s, cursor + 65536 ≤ c → (65536 | c) →
    match (Windows.search_loop region reserve fuel upper c s).1 with
    | Ok a => cursor ≤ a ≤ upper - 16384 ∧ (65536 | a)
    | Err _ => True
    | _ => False
    end) as Hnext.
  { intros c s0 Hlt Hdiv. specialize (IH c s0 ltac:(lia) ltac:(lia) Hu Hdiv).
    destruct (Windows.search_loop region reserve fuel upper c s0).1; try done.
    destruct IH. split; [lia|done]. }
  unfold mbind, M_bind.
  destruct (region cursor s) as [o1 s1] eqn:H1.
  pose proof (region_law cursor s) as Hr. rewrite H1 in Hr. simpl in Hr.
  destruct o1 as [[stop free]| | |]; try done.
  destruct (Z.leb_spec stop cursor) as [|Hstop]; [done|].
  destruct (free && (16384 <=? stop - cursor)).
  - destruct (reserve cursor s1) as [o2 s2] eqn:H2.
    pose proof (virtual_alloc_law cursor s1 ltac:(lia) Hal) as Ha. rewrite H2 in Ha. simpl in Ha.
    destruct o2 as [[a|]| | |]; try done; simpl.
    { subst a. split; [lia|done]. }
    unfold Windows.plus, checked_add, usize_max. rewrite (proj2 (Z.leb_le _ _)) by lia. simpl.
    apply Hnext; [lia|by apply Z.divide_add_r].
  - pose proof (div_ceil_mul stop 65536 ltac:(lia)) as Hd.
    unfold lift, Windows.mul, usize_max, isize_max in *. rewrite (proj2 (Z.leb_le _ _)) by lia.
    apply Hnext; [|apply Z.divide_factor_r]. destruct Hal as [q ->]. nia.
Qed.

(** The Windows search ends, never overflows, and what it reserves lies
    wholly within [REACH] of the function, at an allocation boundary. *)
Theorem windows_search_correct REACH source s :
  0 ≤ source ≤ isize_max - CAPACITY → 0 ≤ REACH ≤ isize_max →
  match (Windows.search REACH region reserve source s).1 with
  | Ok a => source - REACH ≤ a ∧ a + CAPACITY ≤ source + REACH ∧ 0 < a ∧
            a + CAPACITY ≤ isize_max ∧ (Windows.GRANULARITY | a)
  | Err _ => True
  | _ => False
  end.
Proof.
  intros Hs HR. unfold Windows.search, mbind, M_bind, lift.
  pose proof (div_ceil_mul (Windows.lower REACH source) Windows.GRANULARITY ltac:(done)) as Hd.
  assert (Windows.lower REACH source ≤ isize_max) as Hl.
  { unfold Windows.lower, saturating_sub, Windows.GRANULARITY, isize_max, CAPACITY in *. lia. }
  set (cursor := div_ceil (Windows.lower REACH source) Windows.GRANULARITY * Windows.GRANULARITY) in *.
  unfold Windows.mul. rewrite (proj2 (Z.leb_le _ _))
    by (fold cursor; unfold isize_max, usize_max, Windows.GRANULARITY in *; lia). fold cursor.
  pose proof (windows_loop_correct (Z.to_nat (2 * REACH / Windows.GRANULARITY + 2))
    (Windows.upper REACH source) cursor s) as Hloop.
  assert (Windows.GRANULARITY ≤ cursor) as Hcur by (unfold Windows.lower in *; lia).
  destruct (Windows.search_loop region reserve _ (Windows.upper REACH source) cursor s).1;
    try done; destruct Hloop;
    unfold Windows.upper, Windows.lower, saturating_sub, saturating_add, Windows.GRANULARITY,
      isize_max, usize_max, CAPACITY in *;
    try apply Z.divide_factor_r; try lia; try done;
    try (Z.to_euclidean_division_equations; lia).
  split_and!; try done; lia.
Qed.
End windows_search.

(** ** Publishing code *)

Definition owned_range (a b : Z) : Prop := a ≤ b < a + CAPACITY.

#[global] Instance owned_range_dec a b : Decision (owned_range a b).
Proof. unfold owned_range. apply _. Defined.

Section view.
Context {S : Type} `{!View S}.

(** Nothing outside the page at [a] changed. *)
Definition confined (a : Z) (s s' : S) : Prop :=
  ∀ b, ¬ owned_range a b → byte_at s' b = byte_at s b ∧ prot_at s' b = prot_at s b.

Definition writable_page (s : S) (a : Z) : Prop :=
  ∀ b, owned_range a b → ∃ p, prot_at s b = Some p ∧ can_write p = true.
Definition runnable_page (s : S) (a : Z) : Prop :=
  ∀ b, owned_range a b → ∃ p, prot_at s b = Some p ∧ can_run p = true.
Definition unmapped_page (s : S) (a : Z) : Prop :=
  ∀ b, owned_range a b → prot_at s b = None.

(** The bytes that were mapped are unchanged and still mapped. *)
Definition keeps (s s' : S) : Prop :=
  ∀ b, is_Some (prot_at s b) → byte_at s' b = byte_at s b ∧ is_Some (prot_at s' b).

#[global] Instance keeps_preorder : PreOrder keeps.
Proof.
  split; [by intros s b|]. intros s1 s2 s3 H12 H23 b Hb.
  destruct (H12 b Hb) as [E12 M12]. destruct (H23 b M12) as [E23 M23].
  split; [congruence|done].
Qed.

Lemma same_view_keeps (s s' : S) : same_view s s' → keeps s s'.
Proof. intros [Hb Hp] b Hm. by rewrite Hb, Hp. Qed.
End view.

(** What the page operations promise.  An allocation that fails may leave
    pages behind that the system would not take back. *)
Class PagesLaws (S : Type) `{!Platform S, !View S, !Pages S} := {
  allocate_law source s o s' :
    allocate source s = (o, s') →
    match o with
    | Ok a => 0 < a ∧ a + CAPACITY ≤ isize_max ∧
              unmapped_page s a ∧ writable_page s' a ∧ confined a s s'
    | Err _ => keeps s s'
    | _ => False
    end;
  seal_law a s o s' :
    seal a s = (o, s') →
    returns o ∧ same_bytes s s' ∧ confined a s s' ∧ (o = Ok tt → runnable_page s' a);
  page_release_law a s o s' :
    release a s = (o, s') →
    match o with
    | Ok _ => confined a s s' ∧ unmapped_page s' a
    | Err _ => same_view s s'
    | _ => False
    end;
  shadow_stack_law s o s' : shadow_stack s = (o, s') → returns o ∧ same_view s s' }.

Section publish.
Context {S : Type} `{!Platform S, !View S, !PlatformLaws S, !Pages S}.
Implicit Types s : S.

(** What sealing the page at [a] does. *)
Definition seals (a : Z) : Prop := ∀ s o s', seal a s = (o, s') →
  returns o ∧ same_bytes s s' ∧ confined a s s' ∧ (o = Ok tt → runnable_page s' a).

Lemma publish_sealing self bytes s :
  seals (Executable.address self) → writable_page s (Executable.address self) →
  ∃ self' r s', Executable.publish self bytes s = (Ok (self', r), s') ∧
    returns r ∧ Executable.address self' = Executable.address self ∧
    confined (Executable.address self) s s' ∧
    (r = Ok tt →
      Executable.sealed self = false ∧ bytes ≠ [] ∧ Z.of_nat (length bytes) ≤ CAPACITY ∧
      written s s' (Executable.address self) bytes ∧
      runnable_page s' (Executable.address self)) ∧
    (if Executable.sealed self' then
       ∀ bytes' s'', Executable.publish self' bytes' s'' = (Ok (self', Err InvalidRange), s'')
     else self' = self ∧ s' = s ∧ r = Err InvalidRange).
Proof.
  intros Hseal Hw. unfold Executable.publish at 1.
  destruct (Executable.sealed self || (length bytes =? 0)%nat ||
    (CAPACITY <? Z.of_nat (length bytes))) eqn:Hbad.
  { exists self, (Err InvalidRange), s. split_and!; try done.
    destruct (Executable.sealed self) eqn:Hs; [|done].
    intros bytes' s''. unfold Executable.publish. by rewrite Hs. }
  apply orb_false_iff in Hbad as [[Hs Hne]%orb_false_iff Hlen].
  apply Nat.eqb_neq in Hne. apply Z.ltb_ge in Hlen. unfold mbind, M_bind.
  destruct (copy bytes (Executable.address self) s) as [o1 s1] eqn:H1.
  destruct (copy_law bytes (Executable.address self) s o1 s1) as (-> & Hp1 & Hw1); [|done|].
  { intros k Hk. apply Hw. unfold owned_range. lia. }
  unfold attempt. simpl. destruct (seal (Executable.address self) s1) as [o2 s2] eqn:H2.
  destruct (Hseal _ _ _ H2) as (Hret & Hb2 & Hc2 & Hok).
  eexists _, o2, s2. split; [done|]. split_and!; try done.
  - intros b Hb. destruct (Hc2 b Hb) as [-> ->]. split; [|apply Hp1].
    destruct Hw1 as [_ Hout]. apply Hout. unfold owned_range in Hb. lia.
  - intros Ho. split_and!; [done|by intros ->|done| |by apply Hok].
    destruct Hw1 as [Hin Hout]. split.
    + intros k x Hk. rewrite Hb2. by apply Hin.
    + intros b Hb. rewrite Hb2. by apply Hout.
Qed.

Context `{!PagesLaws S}.

Lemma publish_run self bytes s :
  writable_page s (Executable.address self) →
  ∃ self' r s', Executable.publish self bytes s = (Ok (self', r), s') ∧
    returns r ∧ Executable.address self' = Executable.address self ∧
    confined (Executable.address self) s s' ∧
    (r = Ok tt →
      Executable.sealed self = false ∧ bytes ≠ [] ∧ Z.of_nat (length bytes) ≤ CAPACITY ∧
      written s s' (Executable.address self) bytes ∧
      runnable_page s' (Executable.address self)) ∧
    (if Executable.sealed self' then
       ∀ bytes' s'', Executable.publish self' bytes' s'' = (Ok (self', Err InvalidRange), s'')
     else self' = self ∧ s' = s ∧ r = Err InvalidRange).
Proof. apply publish_sealing. intros ??? Hs. exact (seal_law _ _ _ _ Hs). Qed.

(** [publish] on an open page: on success the page is executable and starts
    with the bytes; whatever happens, nothing outside the page changes, and
    once the bytes were copied no later call writes the page again. *)
Theorem publish_correct self bytes s :
  writable_page s (Executable.address self) →
  ∃ self' r s', Executable.publish self bytes s = (Ok (self', r), s') ∧
    returns r ∧ Executable.address self' = Executable.address self ∧
    confined (Executable.address self) s s' ∧
    (r = Ok tt →
      Executable.sealed self = false ∧ bytes ≠ [] ∧ Z.of_nat (length bytes) ≤ CAPACITY ∧
      written s s' (Executable.address self) bytes ∧
      runnable_page s' (Executable.address self)) ∧
    (if Executable.sealed self' then
       ∀ bytes' s'', Executable.publish self' bytes' s'' = (Ok (self', Err InvalidRange), s'')
     else self' = self ∧ s' = s ∧ r = Err InvalidRange).
Proof. apply publish_run. Qed.
End publish.

(** ** The example machine, with one spare page at [0x100000] *)

Module Spare.
Definition address : Z := 2 ^ 20.
Definition in_spare (q : Z) : bool := (256 <=? q) && (q <? 260).

Definition set_spare (p : option Z) (s : Machine.t) : Machine.t :=
  Machine.Make (Machine.bytes s)
    (λ q, if in_spare q then p else Machine.perms s q) (Machine.faults s).

Definition at_spare {A} (a : Z) (e : A) (f : Machine.t → outcome Error A * Machine.t)
    (s : Machine.t) : outcome Error A * Machine.t :=
  if a =? address then f s else (Err (Os "trampoline page" 22), s).

#[global] Instance pages : Pages Machine.t := {
  allocate source := λ s,
    if forallb (λ q, bool_decide (Machine.perms s q = None)) [256; 257; 258; 259]
    then (Ok address, set_spare (Some 3) s) else (Err InsufficientSpace, s);
  seal a := at_spare a tt (λ s, (Ok tt, set_spare (Some 5) s));
  release a := at_spare a tt (λ s, (Ok tt, set_spare None s));
  shadow_stack := λ s, (Ok false, s) }.

Lemma in_spare_spec b : in_spare (b / 4096) = true ↔ owned_range address b.
Proof.
  unfold in_spare, owned_range, address, CAPACITY.
  rewrite andb_true_iff, Z.leb_le, Z.ltb_lt. Z.to_euclidean_division_equations. lia.
Qed.

Lemma set_spare_confined p s : confined address s (set_spare p s).
Proof.
  intros b Hb. split; [done|]. simpl. unfold Machine.page_bytes.
  destruct (in_spare (b / 4096)) eqn:Hin; [|done]. by apply in_spare_spec in Hin.
Qed.

Lemma set_spare_prot p s b : owned_range address b → prot_at (set_spare p s) b = p.
Proof. intros Hb%in_spare_spec. simpl. unfold Machine.page_bytes. by rewrite Hb. Qed.

#[global] Instance pages_laws : PagesLaws Machine.t.
Proof.
  split.
  - intros source s o s' Hrun. simpl in Hrun. case_match eqn:Hfree.
    2:{ injection Hrun as <- <-. reflexivity. }
    injection Hrun as <- <-. rewrite !andb_true_iff, !bool_decide_eq_true in Hfree.
    destruct Hfree as (H1 & H2 & H3 & H4 & _). split_and!; [done|by vm_compute|..].
    + intros b Hb. simpl. apply in_spare_spec in Hb. unfold in_spare in Hb.
      unfold Machine.page_bytes.
      assert (b / 4096 = 256 ∨ b / 4096 = 257 ∨ b / 4096 = 258 ∨ b / 4096 = 259)
        as [->|[->|[->| ->]]] by lia; done.
    + intros b Hb. exists 3. split; [by apply set_spare_prot|done].
    + apply set_spare_confined.
  - intros a s o s' Hrun. simpl in Hrun. unfold at_spare in Hrun.
    destruct (Z.eqb_spec a address) as [->|]; injection Hrun as <- <-; split_and!; try done.
    + apply set_spare_confined.
    + intros _ b Hb. exists 5. split; [by apply set_spare_prot|done].
  - intros a s o s' Hrun. simpl in Hrun. unfold at_spare in Hrun.
    destruct (Z.eqb_spec a address) as [->|]; injection Hrun as <- <-; [|reflexivity].
    split; [apply set_spare_confined|]. intros b Hb. by apply set_spare_prot.
  - intros s o s' [= <- <-]. split; [done|reflexivity].
Qed.

(** The page operations seen as reserving and releasing. *)
Definition reserve (hint : Z) : M Error Machine.t (option Z) := λ s,
  match allocate hint s with
  | (Ok a, s') => (Ok (Some a), s')
  | (_, s') => (Ok None, s')
  end.
End Spare.

Lemma publish_correct_witness :
  ∃ self' s', Executable.publish (Executable.Make Spare.address false) [0xc3]
      (Spare.set_spare (Some 3) (Machine.demo [])) = (Ok (self', Ok tt), s') ∧
    runnable_page s' Spare.address.
Proof.
  destruct (publish_correct (Executable.Make Spare.address false) [0xc3]
    (Spare.set_spare (Some 3) (Machine.demo []))) as (self' & r & s' & H & _ & _ & _ & Hok & _).
  - intros b Hb. exists 3. split; [apply Spare.set_spare_prot; exact Hb|reflexivity].
  - assert (r = Ok tt) as ->.
    { apply (f_equal fst) in H. vm_compute in H. injection H as _ <-. reflexivity. }
    exists self', s'. split; [exact H|apply (Hok eq_refl)].
Defined.

Section offers.
(** A process that is offered the given addresses, in turn. *)
Definition offers : Type := list Z * gset Z.

Definition offer_reserve (_ : Z) : M Error offers (option Z) := λ s,
  match s.1 with
  | a :: rest => if decide (a ∈ s.2) then (Ok None, s) else (Ok (Some a), (rest, {[a]} ∪ s.2))
  | [] => (Ok None, s)
  end.
Definition offer_release (a : Z) : M Error offers unit := λ s, (Ok tt, (s.1, s.2 ∖ {[a]})).

#[global] Instance offers_ledger : Ledger offers offer_reserve offer_release.
Proof.
  refine {| owned := snd |}.
  - intros hint [l X] o s'. unfold offer_reserve. simpl. destruct l as [|a l].
    + by intros [= <- <-].
    + case_decide; intros [= <- <-]; done.
  - by intros a s o s' [= <- <-].
Defined.
End offers.

Lemma unix_search_correct_witness :
  ∃ a s', Unix.search REACH_x86_64 offer_reserve offer_release (2 ^ 40)
      ([2 ^ 20; 2 ^ 40 + 16384], ∅) = (Ok a, s') ∧
    Z.abs (a - 2 ^ 40) ≤ REACH_x86_64 - CAPACITY ∧ owned s' = {[a]} ∪ ∅.
Proof.
  destruct (Unix.search REACH_x86_64 offer_reserve offer_release (2 ^ 40)
    ([2 ^ 20; 2 ^ 40 + 16384], ∅)) as [o s'] eqn:H.
  pose proof (unix_search_correct _ _ _ _ _ H) as Hs.
  destruct o as [a|e|m|];
    [|apply (f_equal (is_ok ∘ fst)) in H; vm_compute in H; discriminate H..].
  exists a, s'. destruct Hs as (H1 & _ & H3). split; [reflexivity|]. split; [exact H1|exact H3].
Defined.

(** An address space that is free above [2 ^ 41], in blocks of 1 MiB. *)
Definition free_region (a : Z) : M Error unit (Z * bool) := λ s,
  (Ok (Z.min (a + 2 ^ 20) (isize_max + 1), 2 ^ 41 <=? a), s).
Definition free_reserve (a : Z) : M Error unit (option Z) := λ s, (Ok (Some a), s).

#[local] Instance free_space : VirtualMemory unit free_region free_reserve.
Proof. split; intros a s; simpl; [lia|by intros _ _]. Qed.

Lemma windows_search_correct_witness :
  ∃ a, (Windows.search REACH_x86_64 free_region free_reserve (2 ^ 41) tt).1 = Ok a ∧
    2 ^ 41 - REACH_x86_64 ≤ a ∧ a + CAPACITY ≤ 2 ^ 41 + REACH_x86_64.
Proof.
  pose proof (windows_search_correct REACH_x86_64 (2 ^ 41) tt) as H.
  destruct (Windows.search REACH_x86_64 free_region free_reserve (2 ^ 41) tt).1 as [a|e|m|] eqn:E;
    [|vm_compute in E; discriminate E..].
  destruct H as (H1 & H2 & _); [vm_compute; split; discriminate..|].
  exists a. split; [reflexivity|]. split; [exact H1|exact H2].
Defined.
