(* ===== verification/UnixPages.v ===== *)
(** * Trampoline pages on Unix ([src/src/executable/unix.rs])

    The page operations over the system calls Linux and macOS share
    ([Posix]), and what they promise to [Executable]. *)

From S2P Require Import Prelude Errors Memory Executable.

#[local] Open Scope Z_scope.
#[local] Set Default Proof Using "Type*".

Definition PROT_READ : Z := 1.
Definition PROT_WRITE : Z := 2.
Definition PROT_EXEC : Z := 4.
Definition MAP_FAILED : Z := usize_max.

(** [mmap] maps anonymous private memory to read and write near a hint;
    [cache_flush] is [cache::flush]. *)
Class Posix (S : Type) := {
  mmap : Z → Z → S → Z * S;
  mprotect : Z → Z → Z → S → Z * S;
  munmap : Z → Z → S → Z * S;
  cache_flush : Z → Z → S → S;
  errno : S → Z }.

Section operations.
Context {S : Type} `{!Posix S}.

(** [memory::os_error]. *)
Definition os_error {A} (operation : string) : M Error S A := λ s,
  (Err (Os operation (errno s)), s).

(** [reserve]. *)
Definition unix_reserve (hint : Z) : M Error S (option Z) := λ s,
  let '(page, s) := mmap hint CAPACITY s in
  (Ok (if page =? MAP_FAILED then None else Some page), s).

(** [seal]. *)
Definition unix_seal (address : Z) : M Error S unit := λ s,
  let '(result, s) := mprotect address CAPACITY (Z.lor PROT_READ PROT_EXEC) s in
  if negb (result =? 0) then os_error "protect trampoline" s
  else (Ok tt, cache_flush address CAPACITY s).

(** [release]. *)
Definition unix_release (address : Z) : M Error S unit := λ s,
  let '(result, s) := munmap address CAPACITY s in
  if negb (result =? 0) then os_error "free trampoline" s else (Ok tt, s).

(** [allocate]. *)
Definition unix_allocate (REACH source : Z) : M Error S Z :=
  Unix.search REACH unix_reserve unix_release source.

(** [allocate] on Apple Silicon. *)
Definition unix_allocate_far (REACH source : Z) : M Error S Z :=
  Unix.fallback unix_reserve (unix_allocate REACH source).
End operations.

(** What the calls document.  A new mapping replaces none ([MAP_FIXED] is not
    given) and lies in user space; a call that fails changes nothing, except
    that [mprotect] may have changed permissions inside its range.  A trampoline
    page is a whole number of pages, as it is with pages of 4 and of 16 KiB. *)
Class PosixLaws (S : Type) `{!Posix S, !View S} := {
  page_divides : (page (S:=S) | CAPACITY);
  posix_prot p : 0 ≤ p < 8 → can_write (S:=S) p = Z.testbit p 1 ∧
    can_run (S:=S) p = Z.testbit p 0 && Z.testbit p 2;
  unmapped_byte s b : prot_at s b = None → byte_at s b = 0;
  mprotect_law a n prot s r s' :
    (page (S:=S) | a) → (page (S:=S) | n) → 0 ≤ prot < 8 → mprotect a n prot s = (r, s') →
    same_bytes s s' ∧
    (∀ b, ¬ a ≤ b < a + n → prot_at s' b = prot_at s b) ∧
    still_mapped s s' ∧
    (r = 0 → ∀ b, a ≤ b < a + n → prot_at s' b = Some prot);
  mprotect_unaligned a n prot s r s' :
    ¬ (page (S:=S) | a) → mprotect a n prot s = (r, s') → r ≠ 0 ∧ same_view s s';
  cache_flush_law a n s : same_view s (cache_flush a n s);
  mmap_law hint n s r s' :
    0 < n → (page (S:=S) | n) → mmap hint n s = (r, s') →
    if r =? MAP_FAILED then same_view s s' else
      0 < r ∧ r + n ≤ isize_max ∧ (page (S:=S) | r) ∧
      (∀ b, r ≤ b < r + n → prot_at s b = None ∧ prot_at s' b = Some (Z.lor PROT_READ PROT_WRITE)) ∧
      ∀ b, ¬ r ≤ b < r + n → byte_at s' b = byte_at s b ∧ prot_at s' b = prot_at s b;
  munmap_law a n s r s' :
    (page (S:=S) | n) → munmap a n s = (r, s') →
    if r =? 0 then
      (∀ b, a ≤ b < a + n → prot_at s' b = None) ∧
      ∀ b, ¬ a ≤ b < a + n → byte_at s' b = byte_at s b ∧ prot_at s' b = prot_at s b
    else same_view s s' }.

Section laws.
Context {S : Type} `{!Posix S, !View S, !PosixLaws S}.
Implicit Types s : S.

(** An open page may be read and written, a published one read and
    executed. *)
Definition open_page s (a : Z) : Prop :=
  ∀ b, owned_range a b → prot_at s b = Some (Z.lor PROT_READ PROT_WRITE).
Definition sealed_page s (a : Z) : Prop :=
  ∀ b, owned_range a b → prot_at s b = Some (Z.lor PROT_READ PROT_EXEC).

Lemma open_page_writable s a : open_page s a → writable_page s a.
Proof.
  intros Ho b Hb. eexists. rewrite Ho by done. split; [done|]. 
  by rewrite (proj1 (posix_prot (Z.lor PROT_READ PROT_WRITE) ltac:(done))).
Qed.

Lemma unix_reserve_run hint s o s' :
  unix_reserve hint s = (o, s') →
  match o with
  | Ok (Some a) => 0 < a ∧ a + CAPACITY ≤ isize_max ∧
      unmapped_page s a ∧ open_page s' a ∧ confined a s s'
  | Ok None => same_view s s'
  | _ => False
  end.
Proof.
  unfold unix_reserve. destruct (mmap hint CAPACITY s) as [r s1] eqn:Hm. intros [= <- <-].
  apply mmap_law in Hm; [|done|exact page_divides].
  destruct (r =? MAP_FAILED); [done|]. destruct Hm as (? & ? & _ & Hin & Hout).
  split_and!; [done|done|..|exact Hout].
  - intros b Hb. by apply Hin.
  - intros b Hb. by apply Hin.
Qed.

Lemma unix_release_run a s o s' :
  unix_release a s = (o, s') →
  match o with
  | Ok _ => confined a s s' ∧ unmapped_page s' a
  | Err e => same_view s s' ∧ e ≠ InsufficientSpace
  | _ => False
  end.
Proof.
  unfold unix_release. destruct (munmap a CAPACITY s) as [r s1] eqn:Hm.
  apply munmap_law in Hm; [|exact page_divides].
  destruct (r =? 0); simpl; intros [= <- <-]; [|done]. destruct Hm as [Hin Hout]. by split.
Qed.

(** A page that was reserved and given back. *)
Lemma give_page_back s s1 s2 a :
  unmapped_page s a → confined a s s1 → confined a s1 s2 → unmapped_page s2 a → same_view s s2.
Proof.
  intros Hu H1 H2 Hu2. split; intros b; destruct (decide (owned_range a b)) as [Hb|Hb].
  - by rewrite !unmapped_byte by auto.
  - destruct (H1 b Hb), (H2 b Hb). congruence.
  - by rewrite Hu, Hu2.
  - destruct (H1 b Hb), (H2 b Hb). congruence.
Qed.

Lemma unix_search_loop_run REACH source steps s0 s o s' :
  same_view s0 s → Unix.search_loop REACH unix_reserve unix_release source steps s = (o, s') →
  match o with
  | Ok a => Z.abs (a - source) ≤ REACH - CAPACITY ∧ 0 < a ∧ a + CAPACITY ≤ isize_max ∧
      unmapped_page s0 a ∧ open_page s' a ∧ confined a s0 s'
  | Err e => keeps s0 s' ∧ (e = InsufficientSpace → same_view s0 s')
  | _ => False
  end.
Proof.
  revert s. induction steps as [|step steps IH]; intros s Hv; cbn [Unix.search_loop].
  { intros [= <- <-]. split; [by apply same_view_keeps|done]. }
  destruct (_ || _); [by apply IH|]. unfold mbind, M_bind.
  destruct (unix_reserve _ s) as [o1 s1] eqn:H1. apply unix_reserve_run in H1.
  destruct o1 as [[a|]| | |]; try done; [|apply IH; by etrans].
  destruct H1 as (Hpos & Hmax & Hu & Hw & Hc). destruct Hv as [Hvb Hvp].
  assert (unmapped_page s0 a) as Hu0 by (intros b Hb; by rewrite <-Hvp, Hu).
  assert (confined a s0 s1) as Hc0.
  { intros b Hb. destruct (Hc b Hb) as [-> ->]. by rewrite Hvb, Hvp. }
  destruct (Z.leb_spec (Z.abs (a - source)) (REACH - CAPACITY)); [by intros [= <- <-]|].
  destruct (unix_release a s1) as [o2 s2] eqn:H2. apply unix_release_run in H2.
  destruct o2 as [[]|e| |]; try done.
  - destruct H2 as [Hc2 Hu2]. apply IH. by eapply give_page_back.
  - intros [= <- <-]. destruct H2 as [[Hb2 Hp2] Hne]. split; [|done]. intros b [p Hb]. rewrite Hb2, Hp2.
    destruct (Hc0 b) as [-> ->]; [|by eauto]. intros Hin. by rewrite (Hu0 b Hin) in Hb.
Qed.

Lemma unix_seal_run a s o s' :
  unix_seal a s = (o, s') →
  returns o ∧ same_bytes s s' ∧ confined a s s' ∧
  (o = Ok tt → sealed_page s' a).
Proof.
  unfold unix_seal. destruct (mprotect a CAPACITY _ s) as [r s1] eqn:Hm.
  destruct (Znumtheory.Zdivide_dec (page (S:=S)) a) as [Ha|Ha].
  - apply mprotect_law in Hm as (Hb & Hout & _ & Hin); [|done|exact page_divides|done].
    destruct (Z.eqb_spec r 0) as [->|Hr]; cbn [negb]; intros [= <- <-].
    + destruct (cache_flush_law a CAPACITY s1) as [Hfb Hfp].
      split_and!; [done|..].
      * intros b. by rewrite Hfb, Hb.
      * intros b Hb'. by rewrite Hfb, Hfp, Hb, Hout.
      * intros _ b Hb'. by rewrite Hfp, Hin.
    + split_and!; [done|done| |done]. intros b Hb'. by rewrite Hb, Hout.
  - apply mprotect_unaligned in Hm as [Hr [Hb Hp]]; [|done].
    rewrite (proj2 (Z.eqb_neq r 0)) by done. cbn [negb]. intros [= <- <-].
    split_and!; [done|done| |done]. intros b _. by rewrite Hb, Hp.
Qed.

(** [allocate] and [release], as [Executable] uses them. *)
Lemma unix_allocate_run REACH source s o s' :
  unix_allocate REACH source s = (o, s') →
  match o with
  | Ok a => Z.abs (a - source) ≤ REACH - CAPACITY ∧ 0 < a ∧ a + CAPACITY ≤ isize_max ∧
      unmapped_page s a ∧ open_page s' a ∧ confined a s s'
  | Err e => keeps s s' ∧ (e = InsufficientSpace → same_view s s')
  | _ => False
  end.
Proof. intros Hrun. eapply unix_search_loop_run; [reflexivity|exact Hrun]. Qed.

Lemma unix_page_release a s o s' :
  unix_release a s = (o, s') →
  match o with
  | Ok _ => confined a s s' ∧ unmapped_page s' a
  | Err _ => same_view s s'
  | _ => False
  end.
Proof. intros Hr%unix_release_run. by destruct o; [|destruct Hr|..]. Qed.

Lemma unix_allocate_far_run REACH source s o s' :
  unix_allocate_far REACH source s = (o, s') →
  match o with
  | Ok a =>
      0 < a ∧ a + CAPACITY ≤ isize_max ∧ unmapped_page s a ∧ open_page s' a ∧ confined a s s' ∧
      (Z.abs (a - source) ≤ REACH - CAPACITY ∨
       (unix_allocate REACH source s).1 = Err InsufficientSpace)
  | Err _ => keeps s s'
  | _ => False
  end.
Proof.
  unfold unix_allocate_far, Unix.fallback, mbind, M_bind, attempt.
  destruct (unix_allocate REACH source s) as [o1 s1] eqn:H1.
  pose proof (unix_allocate_run _ _ _ _ _ H1) as Hrun.
  destruct o1 as [a|e| |]; try done.
  { intros [= <- <-]. destruct Hrun as (? & ? & ? & ? & ? & ?). split_and!; auto. }
  destruct Hrun as [Hkeep Hsame].
  destruct e; try (by intros [= <- <-]). specialize (Hsame eq_refl).
  destruct (unix_reserve 0 s1) as [o2 s2] eqn:H2. apply unix_reserve_run in H2.
  destruct o2 as [[a|]| | |]; try done; intros [= <- <-].
  - destruct H2 as (? & ? & Hu & Ho & Hc). destruct Hsame as [Hb Hp]. split_and!; try done; [| |by right].
    + intros b Hb'. by rewrite <-Hp, Hu.
    + intros b Hb'. destruct (Hc b Hb') as [-> ->]. by rewrite Hb, Hp.
  - apply same_view_keeps. by etrans.
Qed.

Lemma unix_allocate_law REACH source s o s' :
  (unix_allocate REACH source s = (o, s') ∨ unix_allocate_far REACH source s = (o, s')) →
  match o with
  | Ok a => 0 < a ∧ a + CAPACITY ≤ isize_max ∧
            unmapped_page s a ∧ writable_page s' a ∧ confined a s s'
  | Err _ => keeps s s'
  | _ => False
  end.
Proof.
  intros [Ha%unix_allocate_run|Ha%unix_allocate_far_run]; destruct o; try done.
  - destruct Ha as (_ & ? & ? & ? & Ho & ?). split_and!; [done..|by apply open_page_writable|done].
  - by destruct Ha.
  - destruct Ha as (? & ? & ? & Ho & ? & _). split_and!; [done..|by apply open_page_writable|done].
Qed.

(** Page operations made of these functions have the laws of [Executable]. *)
Lemma unix_pages_laws `{!Platform S, !Pages S} REACH :
  (allocate = unix_allocate REACH ∨ allocate = unix_allocate_far REACH) →
  seal = unix_seal → release = unix_release →
  (∀ s o s', shadow_stack s = (o, s') → returns o ∧ same_view s s') → PagesLaws S.
Proof.
  intros Hallocate Hseal Hrelease Hshadow. split; [..|exact Hshadow].
  - intros source s o s' Ha. apply (unix_allocate_law REACH source).
    destruct Hallocate as [<-|<-]; auto.
  - rewrite Hseal. intros a s o s' (Hret & Hb & Hc & Hok)%unix_seal_run. split_and!; [done..|].
    intros Ho b Hin. eexists. rewrite (Hok Ho b Hin). split; [done|].
    by rewrite (proj2 (posix_prot (Z.lor PROT_READ PROT_EXEC) ltac:(done))).
  - rewrite Hrelease. apply unix_page_release.
Qed.

Lemma publish_sealed `{!Platform S, !Pages S} page bytes s page' s' :
  seal = unix_seal → Executable.publish page bytes s = (Ok (page', Ok tt), s') →
  sealed_page s' (Executable.address page).
Proof.
  intros Hseal. unfold Executable.publish. destruct (_ || _); [done|]. unfold mbind, M_bind.
  destruct (copy bytes _ s) as [[[]| | |] s1]; try done. unfold attempt.
  cbn [Executable.address]. rewrite Hseal. destruct (unix_seal _ s1) as [o2 s2] eqn:Hs.
  intros [= _ -> <-]. apply unix_seal_run in Hs as (_ & _ & _ & Hok). by apply Hok.
Qed.
End laws.
