(* ===== verification/Text.v ===== *)
(** * Text as Rust's [str] handles it

    What [src/src/memory/linux.rs] and [src/src/memory/linux/maps.rs] use of
    the standard library's strings: lossy UTF-8 decoding, [lines],
    [split_whitespace], [split_once], [as_bytes] and
    [usize::from_str_radix(_, 16)].  A [str] is the list of its code points, a
    byte string the list of its bytes. *)

From S2P Require Import Prelude.

#[local] Open Scope Z_scope.

(** ** UTF-8 *)

Definition continuation (b : Z) : bool := (0x80 <=? b) && (b <=? 0xBF).

(** The second bytes a leading byte of a longer sequence allows. *)
Definition second_of_three (b c : Z) : bool :=
  if b =? 0xE0 then (0xA0 <=? c) && (c <=? 0xBF)
  else if b =? 0xED then (0x80 <=? c) && (c <=? 0x9F)
  else continuation c.
Definition second_of_four (b c : Z) : bool :=
  if b =? 0xF0 then (0x90 <=? c) && (c <=? 0xBF)
  else if b =? 0xF4 then (0x80 <=? c) && (c <=? 0x8F)
  else continuation c.

(** One step of decoding: a character, or a maximal ill-formed part; the
    number of bytes it takes behind the first one. *)
Inductive Chunk := Valid (c : Z) (more : nat) | Invalid (more : nat).

Definition chunk_more (k : Chunk) : nat :=
  match k with Valid _ n | Invalid n => n end.

Definition next_chunk (b : Z) (rest : list Z) : Chunk :=
  let get i := default 0 (rest !! i) in
  if b <? 0x80 then Valid b 0
  else if (0xC2 <=? b) && (b <=? 0xDF) then
    if negb (continuation (get 0%nat)) then Invalid 0
    else Valid ((b - 0xC0) * 64 + (get 0%nat - 0x80)) 1
  else if (0xE0 <=? b) && (b <=? 0xEF) then
    if negb (second_of_three b (get 0%nat)) then Invalid 0
    else if negb (continuation (get 1%nat)) then Invalid 1
    else Valid (((b - 0xE0) * 64 + (get 0%nat - 0x80)) * 64 + (get 1%nat - 0x80)) 2
  else if (0xF0 <=? b) && (b <=? 0xF4) then
    if negb (second_of_four b (get 0%nat)) then Invalid 0
    else if negb (continuation (get 1%nat)) then Invalid 1
    else if negb (continuation (get 2%nat)) then Invalid 2
    else Valid ((((b - 0xF0) * 64 + (get 0%nat - 0x80)) * 64 + (get 1%nat - 0x80)) * 64
                + (get 2%nat - 0x80)) 3
  else Invalid 0.

(** [String::from_utf8_lossy]; [skip] bytes belong to the chunk before. *)
Fixpoint lossy (skip : nat) (bytes : list Z) : list Z :=
  match bytes, skip with
  | [], _ => []
  | _ :: bytes, S skip => lossy skip bytes
  | b :: bytes, O =>
      match next_chunk b bytes with
      | Valid c n => c :: lossy n bytes
      | Invalid n => 0xFFFD :: lossy n bytes
      end
  end.
Definition from_utf8_lossy (bytes : list Z) : list Z := lossy 0 bytes.

(** [str::as_bytes]. *)
Definition char_bytes (c : Z) : list Z :=
  if c <? 0x80 then [c]
  else if c <? 0x800 then [0xC0 + c / 64; 0x80 + c mod 64]
  else if c <? 0x10000 then [0xE0 + c / 4096; 0x80 + c / 64 mod 64; 0x80 + c mod 64]
  else [0xF0 + c / 262144; 0x80 + c / 4096 mod 64; 0x80 + c / 64 mod 64; 0x80 + c mod 64].
Definition as_bytes (s : list Z) : list Z := s ≫= char_bytes.

(** ** Splitting *)

(** The line without the carriage return of [\r\n]. *)
Definition strip_cr (line : list Z) : list Z :=
  match last line with
  | Some 13 => removelast line
  | _ => line
  end.

(** [str::lines]; [line] is what was read of the current one. *)
Fixpoint split_lines (line s : list Z) : list (list Z) :=
  match s with
  | [] => match line with [] => [] | _ :: _ => [line] end
  | c :: s =>
      if c =? 10 then strip_cr line :: split_lines [] s
      else split_lines (line ++ [c]) s
  end.
Definition lines (s : list Z) : list (list Z) := split_lines [] s.

(** [char::is_whitespace], Unicode's [White_Space]. *)
Definition is_whitespace (c : Z) : bool :=
  ((9 <=? c) && (c <=? 13)) || (c =? 32) || (c =? 0x85) || (c =? 0xA0) || (c =? 0x1680)
  || ((0x2000 <=? c) && (c <=? 0x200A)) || (c =? 0x2028) || (c =? 0x2029) || (c =? 0x202F)
  || (c =? 0x205F) || (c =? 0x3000).

(** [str::split_whitespace]; [word] is what was read of the current word. *)
Fixpoint split_words (word s : list Z) : list (list Z) :=
  match s with
  | [] => match word with [] => [] | _ :: _ => [word] end
  | c :: s =>
      if is_whitespace c then
        match word with [] => split_words [] s | _ :: _ => word :: split_words [] s end
      else split_words (word ++ [c]) s
  end.
Definition split_whitespace (s : list Z) : list (list Z) := split_words [] s.

(** [str::split_once]. *)
Fixpoint split_once (separator : Z) (s : list Z) : option (list Z * list Z) :=
  match s with
  | [] => None
  | c :: s =>
      if c =? separator then Some ([], s)
      else '(before, after) ← split_once separator s; Some (c :: before, after)
  end.

(** ** Hexadecimal numbers *)

(** [IntErrorKind] of an unsigned parse, and [ParseIntError]'s text. *)
Inductive IntError := Empty | InvalidDigit | PosOverflow.
Definition int_error_text (e : IntError) : string :=
  match e with
  | Empty => "cannot parse integer from empty string"
  | InvalidDigit => "invalid digit found in string"
  | PosOverflow => "number too large to fit in target type"
  end.

(** [char::to_digit(16)]. *)
Definition to_digit (c : Z) : option Z :=
  if (48 <=? c) && (c <=? 57) then Some (c - 48)
  else if (97 <=? c) && (c <=? 102) then Some (c - 87)
  else if (65 <=? c) && (c <=? 70) then Some (c - 55)
  else None.

(** [usize::checked_mul]. *)
Definition checked_mul (a b : Z) : option Z :=
  if a * b <=? usize_max then Some (a * b) else None.

Fixpoint parse_digits (value : Z) (digits : list Z) : outcome IntError Z :=
  match digits with
  | [] => Ok value
  | c :: digits =>
      digit ← ok_or InvalidDigit (to_digit c);
      product ← ok_or PosOverflow (checked_mul value 16);
      sum ← ok_or PosOverflow (checked_add product digit);
      parse_digits sum digits
  end.

(** [usize::from_str_radix(_, 16)]: one leading [+] is allowed. *)
Definition from_str_radix (s : list Z) : outcome IntError Z :=
  match as_bytes s with
  | [] => Err Empty
  | [c] => if (c =? 43) || (c =? 45) then Err InvalidDigit else parse_digits 0 [c]
  | c :: digits =>
      if c =? 43 then parse_digits 0 digits else parse_digits 0 (c :: digits)
  end.

(** The [n] low hexadecimal digits of [z], most significant first. *)
Definition hex_digit (d : Z) : Z := if d <? 10 then 48 + d else 87 + d.
Fixpoint hex (n : nat) (z : Z) : list Z :=
  match n with
  | O => []
  | S n => hex_digit (z / 16 ^ Z.of_nat n) :: hex n (z mod 16 ^ Z.of_nat n)
  end.

(** ** Lossy decoding keeps lines and ASCII *)

Abbreviation ascii := (Forall (λ c, 0 ≤ c < 128)).

(** A line feed ends every sequence before it. *)
Lemma next_chunk_newline b l r :
  next_chunk b (l ++ 10 :: r) = next_chunk b l ∧ (chunk_more (next_chunk b l) ≤ length l)%nat.
Proof.
  unfold next_chunk, second_of_three, second_of_four, continuation.
  destruct l as [|x [|y [|z l]]]; simpl; split; repeat case_match; simpl; done || lia.
Qed.

Lemma lossy_newline k l r :
  (k ≤ length l)%nat → lossy k (l ++ 10 :: r) = lossy k l ++ 10 :: lossy 0 r.
Proof.
  revert k. induction l as [|b l IH]; intros k Hk; simpl in Hk.
  { by replace k with 0%nat by lia. }
  destruct k as [|k]; simpl; [|apply IH; lia].
  destruct (next_chunk_newline b l r) as [-> Hmore].
  destruct (next_chunk b l); simpl in *; by rewrite IH.
Qed.

Lemma from_utf8_lossy_line l r :
  from_utf8_lossy (l ++ 10 :: r) = from_utf8_lossy l ++ 10 :: from_utf8_lossy r.
Proof. apply lossy_newline. lia. Qed.

Lemma from_utf8_lossy_ascii l r :
  ascii l → from_utf8_lossy (l ++ r) = l ++ from_utf8_lossy r.
Proof.
  induction 1 as [|c l Hc _ IH]; [done|]. unfold from_utf8_lossy in *. simpl.
  unfold next_chunk. rewrite (proj2 (Z.ltb_lt c 0x80)) by lia. by rewrite IH.
Qed.

(** No character but the line feed decodes to one. *)
Lemma lossy_no_newline k l : 10 ∉ l → 10 ∉ lossy k l.
Proof.
  revert k. induction l as [|b l IH]; intros k Hl; [apply not_elem_of_nil|].
  apply not_elem_of_cons in Hl as [Hb Hl]. destruct k as [|k]; simpl; [|by apply IH].
  destruct (next_chunk b l) as [c n|n] eqn:Hn; apply not_elem_of_cons; (split; [|by apply IH]).
  2:{ done. }
  unfold next_chunk, second_of_three, second_of_four, continuation in Hn.
  repeat case_match; simplify_eq; lia.
Qed.

(** ** Splitting what was joined *)

Lemma split_lines_line line l r :
  10 ∉ l → split_lines line (l ++ 10 :: r) = strip_cr (line ++ l) :: split_lines [] r.
Proof.
  revert line. induction l as [|c l IH]; intros line Hl; simpl.
  { by rewrite app_nil_r. }
  apply not_elem_of_cons in Hl as [Hc Hl].
  rewrite (proj2 (Z.eqb_neq c 10)) by done. rewrite IH by done. by rewrite <-app_assoc.
Qed.

Lemma lines_line l r : 10 ∉ l → lines (l ++ 10 :: r) = strip_cr l :: lines r.
Proof. apply (split_lines_line []). Qed.

(** Only the end of a line can lose its carriage return. *)
Lemma strip_cr_app l c r : c ≠ 13 → ∃ r', strip_cr (l ++ c :: r) = l ++ c :: r'.
Proof.
  intros Hc. unfold strip_cr. rewrite last_app_cons.
  destruct r as [|d r]; simpl.
  - exists []. by repeat case_match.
  - assert (removelast (l ++ c :: d :: r) = l ++ c :: removelast (d :: r)) as Hrem.
    { by rewrite removelast_app. }
    repeat case_match; rewrite ?Hrem; eauto.
Qed.

Abbreviation word_chars := (Forall (λ c, is_whitespace c = false)).

Lemma split_words_word word w c s :
  word_chars w → is_whitespace c = true → word ++ w ≠ [] →
  split_words word (w ++ c :: s) = (word ++ w) :: split_words [] s.
Proof.
  revert word. induction w as [|d w IH]; intros word Hw Hc Hne; simpl.
  { rewrite Hc, app_nil_r in *. by destruct word. }
  apply Forall_cons in Hw as [Hd Hw]. rewrite Hd, IH; [by rewrite <-app_assoc|done..|].
  by destruct word.
Qed.

Lemma split_whitespace_word w c s :
  word_chars w → is_whitespace c = true → w ≠ [] →
  split_whitespace (w ++ c :: s) = w :: split_whitespace s.
Proof. intros. by apply (split_words_word []). Qed.

Lemma split_once_app separator l r :
  separator ∉ l → split_once separator (l ++ separator :: r) = Some (l, r).
Proof.
  induction l as [|c l IH]; intros Hl; simpl; [by rewrite Z.eqb_refl|].
  apply not_elem_of_cons in Hl as [Hc Hl].
  rewrite (proj2 (Z.eqb_neq c separator)) by done. by rewrite IH.
Qed.

Lemma as_bytes_ascii l : ascii l → as_bytes l = l.
Proof.
  induction 1 as [|c l Hc _ IH]; [done|].
  change (as_bytes (c :: l)) with (char_bytes c ++ as_bytes l). rewrite IH.
  unfold char_bytes. by rewrite (proj2 (Z.ltb_lt c 0x80)) by lia.
Qed.

(** ** Printing and parsing numbers *)

Lemma hex_digit_range d : 0 ≤ d < 16 → 48 ≤ hex_digit d ≤ 57 ∨ 97 ≤ hex_digit d ≤ 102.
Proof. unfold hex_digit. intros. destruct (Z.ltb_spec d 10); lia. Qed.

Lemma to_hex_digit d : 0 ≤ d < 16 → to_digit (hex_digit d) = Some d.
Proof.
  intros. unfold to_digit, hex_digit.
  repeat case_match; f_equal; lia.
Qed.

Lemma hex_chars n z :
  0 ≤ z < 16 ^ Z.of_nat n → Forall (λ c, 48 ≤ c ≤ 57 ∨ 97 ≤ c ≤ 102) (hex n z).
Proof.
  revert z. induction n as [|n IH]; intros z Hz; cbn [hex]; constructor.
  - apply hex_digit_range. rewrite Nat2Z.inj_succ, Z.pow_succ_r in Hz by lia.
    split; [apply Z.div_pos; lia|]. apply Z.div_lt_upper_bound; lia.
  - apply IH, Z.mod_pos_bound. lia.
Qed.

Lemma length_hex n z : length (hex n z) = n.
Proof. revert z. induction n; intros; simpl; [done|]. by f_equal. Qed.

Lemma parse_hex n value z :
  0 ≤ value → 0 ≤ z < 16 ^ Z.of_nat n → value * 16 ^ Z.of_nat n + z ≤ usize_max →
  parse_digits value (hex n z) = Ok (value * 16 ^ Z.of_nat n + z).
Proof.
  revert value z. induction n as [|n IH]; intros value z Hv Hz Hmax; cbn [hex parse_digits].
  { f_equal. change (16 ^ Z.of_nat 0) with 1 in *. lia. }
  rewrite Nat2Z.inj_succ, Z.pow_succ_r in * by lia. set (p := 16 ^ Z.of_nat n) in *.
  assert (0 < p) as Hp by (unfold p; lia).
  pose proof (Z.div_mod z p). pose proof (Z.mod_pos_bound z p Hp).
  assert (0 ≤ z / p < 16) as Hd.
  { split; [apply Z.div_pos; lia|]. apply Z.div_lt_upper_bound; lia. }
  rewrite to_hex_digit by done. simpl.
  assert (value * 16 + z / p ≤ value * 16 * p + z) as Hle by nia.
  unfold checked_mul. rewrite (proj2 (Z.leb_le _ _)) by nia. simpl.
  unfold checked_add. rewrite (proj2 (Z.leb_le _ _)) by nia. simpl.
  rewrite IH by nia. f_equal. nia.
Qed.

(** Parsing undoes printing. *)
Lemma from_str_radix_hex n z :
  (1 < n)%nat → 0 ≤ z < 16 ^ Z.of_nat n → z ≤ usize_max → from_str_radix (hex n z) = Ok z.
Proof.
  intros Hn Hz Hmax. pose proof (hex_chars n z Hz) as Hc. unfold from_str_radix.
  rewrite as_bytes_ascii by (eapply Forall_impl; [exact Hc|]; simpl; lia).
  assert (parse_digits 0 (hex n z) = Ok z) as Hp by (rewrite parse_hex; [f_equal|..]; lia).
  pose proof (length_hex n z) as Hl. destruct (hex n z) as [|c [|d l]]; simpl in Hl; [lia..|].
  apply Forall_cons in Hc as [Hc _]. rewrite (proj2 (Z.eqb_neq c 43)) by lia. done.
Qed.
