(* ===== verification/LinuxMemory.v ===== *)
(** * Linux memory ([src/src/memory/linux.rs], [src/src/memory/linux/maps.rs])

    The [platform] module of a Linux build: regions from [/proc/self/maps],
    [process_vm_readv], [sysconf] and [mprotect].  The system calls are the
    class [Linux], what they document is [LinuxLaws]; the module then has the
    laws [Memory] asks of a platform. *)

From S2P Require Import Prelude Errors Text Memory Executable UnixPages.

#[local] Open Scope Z_scope.
#[local] Set Default Proof Using "Type*".

Definition EINTR : Z := 4.

(** ** Parsing [/proc/self/maps] *)

Definition mapping_error {A} (r : outcome IntError A) : result A :=
  match r with
  | Ok a => Ok a
  | Err e => Err (Mapping (int_error_text e))
  | Panic message => Panic message
  | Abort => Abort
  end.

(** [matches!(c, a | b)]. *)
Definition either (c a b : Z) : bool := (c =? a) || (c =? b).

(** The loop of [parse_region] over the lines. *)
Fixpoint parse_lines (lines : list (list Z)) (address : Z) : result (option Region.t) :=
  match lines with
  | [] => Ok None
  | line :: lines =>
      let columns := split_whitespace line in
      let range := default [] (columns !! 0%nat) in
      let permissions := as_bytes (default [] (columns !! 1%nat)) in
      '(start, stop) ← ok_or (Mapping "missing mapping address range") (split_once 45 range);
      start ← mapping_error (from_str_radix start);
      stop ← mapping_error (from_str_radix stop);
      match permissions with
      | [r; w; x; s] =>
          if (stop <=? start) || negb (either r 114 45) || negb (either w 119 45)
             || negb (either x 120 45) || negb (either s 112 115)
          then Err (Mapping "invalid mapping permissions or range")
          else if (start <=? address) && (address <? stop) then
            let protection :=
              Z.lor (Z.lor (if r =? 114 then PROT_READ else 0)
                           (if w =? 119 then PROT_WRITE else 0))
                    (if x =? 120 then PROT_EXEC else 0) in
            Ok (Some (Region.Make start stop protection (r =? 114) (x =? 120)))
          else parse_lines lines address
      | _ => Err (Mapping "invalid mapping permissions or range")
      end
  end.

(** [parse_region]. *)
Definition parse_region (maps : list Z) (address : Z) : result (option Region.t) :=
  parse_lines (lines maps) address.

(** ** What the kernel prints

    One line per mapping, as [show_map_vma] of [fs/proc/task_mmu.c] does:
    both ends with at least eight hexadecimal digits, the four permission
    letters, and the offset, device, inode and path, any bytes but a line
    feed. *)
Module Mapping_.
Record t := Make {
  start : Z;
  stop : Z;
  readable : bool;
  writable : bool;
  executable : bool;
  shared : bool;
  rest : list Z }.

Definition protection (m : t) : Z :=
  Z.lor (Z.lor (if readable m then PROT_READ else 0) (if writable m then PROT_WRITE else 0))
        (if executable m then PROT_EXEC else 0).

Definition contains (a : Z) (m : t) : bool := (start m <=? a) && (a <? stop m).

Definition region (m : t) : Region.t :=
  Region.Make (start m) (stop m) (protection m) (readable m) (executable m).

Definition width (z : Z) : nat := Z.to_nat (Z.max 8 (Z.log2 z / 4 + 1)).
Definition number (z : Z) : list Z := hex (width z) z.
Definition range (m : t) : list Z := number (start m) ++ 45 :: number (stop m).
Definition letters (m : t) : list Z :=
  [if readable m then 114 else 45; if writable m then 119 else 45;
   if executable m then 120 else 45; if shared m then 115 else 112].
Definition line (m : t) : list Z := range m ++ 32 :: letters m ++ 32 :: rest m.
Definition render (ms : list t) : list Z := ms ≫= λ m, line m ++ [10].

Definition ok (m : t) : Prop :=
  0 ≤ start m < stop m ∧ stop m ≤ usize_max ∧ 10 ∉ rest m.
End Mapping_.

(** [Iterator::find] on the mappings. *)
Definition mapping_at (a : Z) (ms : list Mapping_.t) : option Mapping_.t :=
  List.find (Mapping_.contains a) ms.

(** ** The system calls *)

(** A call returns what C returns, with the bytes it stored in the caller's
    buffer; [arch_prctl] asks for the shadow-stack flags.  [interrupts] bounds
    how many more signals can interrupt a call, and [files] holds what is still to be read of the open descriptors; the
    loops take their fuel from them. *)
Class Linux (S : Type) := {
  linux_posix :: Posix S;
  openat_maps : S → Z * S;
  sys_read : Z → Z → S → (Z * list Z) * S;
  sys_close : Z → S → Z * S;
  process_vm_readv : Z → Z → S → (Z * list Z) * S;
  sysconf_page_size : S → Z * S;
  arch_prctl : S → (Z * Z) * S;
  poke : list Z → Z → S → S;
  strerror : Z → string;
  interrupts : S → nat;
  files : S → gmap Z (list Z);
  memory : S → Z → Z;
  mappings : S → list Mapping_.t;
  page_bytes : Z }.

Section platform.
Context {S : Type} `{!Linux S}.

(** [maps::retry]; an [Err] is the [errno] of the [io::Error]. *)
Fixpoint retry_loop {A} (fuel : nat) (call : S → (Z * A) * S) : M Z S (Z * A) :=
  match fuel with
  | O => panic "out of fuel"
  | Datatypes.S fuel => λ s,
      let '((result, a), s) := call s in
      if 0 <=? result then (Ok (result, a), s)
      else if negb (errno s =? EINTR) then (Err (errno s), s)
      else retry_loop fuel call s
  end.
Definition retry {A} (call : S → (Z * A) * S) : M Z S (Z * A) := λ s,
  retry_loop (Datatypes.S (interrupts s)) call s.

(** The loop of [maps::read]; the 4096 bytes of [buffer] keep what earlier
    reads stored. *)
Fixpoint read_loop (fuel : nat) (file : Z) (buffer bytes : list Z) : M Z S (list Z) :=
  match fuel with
  | O => panic "out of fuel"
  | Datatypes.S fuel =>
      '(count, stored) ← retry (sys_read file (Z.of_nat (length buffer)));
      let buffer := stored ++ drop (length stored) buffer in
      if count =? 0 then mret bytes else
      part ← lift (slice buffer 0 (Z.to_nat count));
      read_loop fuel file buffer (bytes ++ part)
  end.

(** [maps::read]; the descriptor is closed however the loop ends. *)
Definition read_maps : M Z S (list Z) :=
  '(file, _) ← retry (λ s, let '(r, s) := openat_maps s in ((r, tt), s));
  left ← gets (λ s, length (default [] (files s !! file)));
  r ← attempt (read_loop (Datatypes.S left) file (replicate 4096 0) []);
  modify (λ s, (sys_close file s).2);;
  bytes ← lift r;
  mret (from_utf8_lossy bytes).

(** [io::Error]'s text. *)
Definition io_error_text (code : Z) : string :=
  strerror code +:+ " (os error " +:+ pretty code +:+ ")".

Definition linux_region_at (address : Z) : M Error S (option Region.t) := λ s,
  match read_maps s with
  | (Ok maps, s) => (parse_region maps address, s)
  | (Err code, s) => (Err (Mapping (io_error_text code)), s)
  | (Panic message, s) => (Panic message, s)
  | (Abort, s) => (Abort, s)
  end.

Definition linux_read_bytes (address length : Z) : M Error S (list Z) := λ s,
  let '((copied, stored), s) := process_vm_readv address length s in
  if copied <? 0 then os_error "read memory" s
  else
    let bytes := stored ++ drop (List.length stored) (replicate (Z.to_nat length) 0) in
    (Ok (take (Z.to_nat copied) bytes), s).

Definition linux_page_size : M Error S Z := λ s,
  let '(size, s) := sysconf_page_size s in
  if size <? 0 then os_error "page size" s else (Ok size, s).

Definition linux_protect (page : PageRange.t) (writable : bool) : M Error S unit := λ s,
  let protection :=
    Z.lor (to_signed 32 (PageRange.protection page)) (if writable then PROT_WRITE else 0) in
  let '(result, s) := mprotect (PageRange.address page) (PageRange.length page) protection s in
  if negb (result =? 0) then os_error "protect memory" s else (Ok tt, s).

Definition linux_flush (address length : Z) : M Error S unit := modify (cache_flush address length).

#[global] Instance linux_platform : Platform S := {
  region_at := linux_region_at;
  read_bytes := linux_read_bytes;
  page_size := linux_page_size;
  protect := linux_protect;
  flush := linux_flush;
  copy bytes address := modify (poke bytes address);
  remap_pages := None }.

(** The bytes and permissions of the process; memory that is not mapped holds
    nothing. *)
#[global] Instance linux_view : View S := {
  byte_at s a := if mapping_at a (mappings s) then memory s a else 0;
  prot_at s a := Mapping_.protection <$> mapping_at a (mappings s);
  page := page_bytes;
  prot_ok p := 0 ≤ p < 8;
  with_write p := Z.lor p PROT_WRITE;
  can_write p := Z.testbit p 1;
  can_run p := Z.testbit p 0 && Z.testbit p 2 }.
End platform.

(** What the calls document.  Only [mprotect] changes permissions and only
    [poke] changes bytes; [quiet] is a step that changes neither. *)
Section laws.
Context {S : Type} `{!Linux S}.

Definition quiet (s s' : S) : Prop :=
  mappings s' = mappings s ∧ (∀ a, memory s' a = memory s a) ∧
  (interrupts s' ≤ interrupts s)%nat.

(** A call that was interrupted used up one of the signals. *)
Definition signalled (s s' : S) : Prop :=
  errno s' = EINTR → (interrupts s' < interrupts s)%nat.

Class LinuxLaws := {
  linux_posix_laws :: PosixLaws S;
  page_bytes_pos : 0 < page_bytes;
  mappings_ok s : Forall Mapping_.ok (mappings s);
  mappings_aligned s :
    Forall (λ m, (page_bytes | Mapping_.start m) ∧ (page_bytes | Mapping_.stop m)) (mappings s);
  mappings_sorted s :
    StronglySorted (λ m m', Mapping_.stop m ≤ Mapping_.start m') (mappings s);
  openat_law s r s' :
    openat_maps s = (r, s') → quiet s s' ∧
    if 0 <=? r then files s !! r = None ∧
      files s' = <[r := Mapping_.render (mappings s)]> (files s)
    else files s' = files s ∧ signalled s s';
  read_law file n text s r stored s' :
    0 < n → files s !! file = Some text → sys_read file n s = ((r, stored), s') → quiet s s' ∧
    if 0 <=? r then
      r = Z.of_nat (length stored) ∧ r ≤ n ∧ (r = 0 → text = []) ∧
      ∃ left, text = stored ++ left ∧ files s' = <[file := left]> (files s)
    else files s' = files s ∧ signalled s s';
  close_law file s r s' :
    sys_close file s = (r, s') → quiet s s' ∧ files s' = delete file (files s);
  readv_law a n s r stored s' :
    0 ≤ n → process_vm_readv a n s = ((r, stored), s') → quiet s s' ∧
    (0 ≤ r → r ≤ n ∧ r = Z.of_nat (length stored) ∧
      holds s a stored);
  sysconf_law s r s' : sysconf_page_size s = (r, s') → quiet s s' ∧ (0 ≤ r → r = page_bytes);
  poke_law bytes a s :
    (∀ k, (k < length bytes)%nat →
      ∃ p, prot_at s (a + Z.of_nat k) = Some p ∧ can_write (S:=S) p = true) →
    mappings (poke bytes a s) = mappings s ∧ written s (poke bytes a s) a bytes;
  arch_prctl_law s r s' : arch_prctl s = (r, s') → quiet s s' }.
End laws.
Arguments LinuxLaws : clear implicits.
Arguments LinuxLaws S {_}.

(** ** The parser undoes the kernel's printing *)

Section parsing.
Import Mapping_.

Lemma width_enough z : 0 ≤ z ≤ usize_max → 0 ≤ z < 16 ^ Z.of_nat (width z) ∧ (1 < width z)%nat.
Proof.
  intros Hz. unfold width. rewrite Z2Nat.id by lia. split; [|lia]. split; [lia|].
  destruct (decide (z = 0)) as [->|Hne]; [lia|].
  change 16 with (2 ^ 4). rewrite <-Z.pow_mul_r by lia. apply Z.log2_lt_pow2; [lia|].
  pose proof (Z.div_mod (Z.log2 z) 4). pose proof (Z.mod_pos_bound (Z.log2 z) 4). lia.
Qed.

Lemma number_chars z : 0 ≤ z ≤ usize_max → Forall (λ c, 48 ≤ c ≤ 57 ∨ 97 ≤ c ≤ 102) (number z).
Proof. intros. apply hex_chars. by apply width_enough. Qed.

Lemma number_parses z : 0 ≤ z ≤ usize_max → from_str_radix (number z) = Ok z.
Proof. intros Hz. destruct (width_enough z Hz). apply from_str_radix_hex; [done..|lia]. Qed.

(** The letters of a line, none of which is whitespace. *)
Definition plain (c : Z) : Prop := 33 ≤ c < 127.

Lemma plain_word l : Forall plain l → word_chars l.
Proof.
  intros Hl. eapply Forall_impl; [exact Hl|]. unfold plain, is_whitespace. intros c Hc.
  rewrite !orb_false_iff, !andb_false_iff. lia.
Qed.

Lemma plain_ascii l : Forall plain l → ascii l.
Proof. intros Hl. eapply Forall_impl; [exact Hl|]. unfold plain. lia. Qed.

Lemma number_plain z : 0 ≤ z ≤ usize_max → Forall plain (number z).
Proof. intros Hz. eapply Forall_impl; [by apply number_chars|]. unfold plain. lia. Qed.

Lemma range_plain m : ok m → Forall plain (range m).
Proof.
  intros (? & ? & _). unfold range. apply Forall_app. split; [apply number_plain; lia|].
  constructor; [unfold plain; lia|apply number_plain; lia].
Qed.

Lemma letters_plain m : Forall plain (letters m).
Proof.
  unfold letters, plain. destruct (readable m), (writable m), (executable m), (shared m);
    repeat constructor; lia.
Qed.

(** What is left of a mapping's line: its range, its letters and a tail. *)
Definition line_of (m : t) (l : list Z) : Prop :=
  ∃ tail, l = range m ++ 32 :: letters m ++ 32 :: tail.

Lemma render_cons m ms : render (m :: ms) = line m ++ 10 :: render ms.
Proof. unfold render. rewrite bind_cons, <-app_assoc. done. Qed.

Lemma plain_space l r : Forall plain l → from_utf8_lossy (l ++ 32 :: r) = l ++ 32 :: from_utf8_lossy r.
Proof. intros. by rewrite from_utf8_lossy_ascii by by apply plain_ascii. Qed.

Lemma plain_no_newline l : Forall plain l → 10 ∉ l.
Proof. intros Hl Hin. eapply Forall_forall in Hin; [|exact Hl]. unfold plain in Hin. lia. Qed.

Lemma rendered_lines ms :
  Forall ok ms → Forall2 line_of ms (lines (from_utf8_lossy (render ms))).
Proof.
  induction 1 as [|m ms Hm _ IH]; [constructor|].
  rewrite render_cons, from_utf8_lossy_line.
  pose proof (range_plain m Hm) as Hr. pose proof (letters_plain m) as Hl.
  unfold line. rewrite plain_space, plain_space by done.
  rewrite lines_line.
  - constructor; [|done].
    destruct (strip_cr_app (range m ++ 32 :: letters m) 32 (from_utf8_lossy (rest m)))
      as [tail Ht]; [done|].
    exists tail. by rewrite <-!app_assoc in Ht.
  - assert (10 ∉ from_utf8_lossy (rest m)) by (apply lossy_no_newline; apply Hm).
    pose proof (plain_no_newline _ Hr). pose proof (plain_no_newline _ Hl). set_solver.
Qed.

(** One line of the loop. *)
Lemma parse_line m l ls a :
  ok m → line_of m l →
  parse_lines (l :: ls) a = if contains a m then Ok (Some (region m)) else parse_lines ls a.
Proof.
  intros Hm [tail ->]. cbn [parse_lines].
  pose proof (range_plain m Hm) as Hr. pose proof (letters_plain m) as Hl.
  rewrite split_whitespace_word; [|by apply plain_word|done|by unfold range; intros [_ ?]%app_nil].
  rewrite split_whitespace_word; [|by apply plain_word|done|done].
  cbn [lookup list_lookup from_option id]. unfold range at 1.
  destruct Hm as (Hstart & Hstop & _).
  rewrite split_once_app.
  2:{ intros Hin. eapply Forall_forall in Hin; [|apply number_chars; lia]. simpl in Hin. lia. }
  cbn [mbind outcome_bind ok_or]. rewrite !number_parses by lia.
  cbn [mbind outcome_bind mapping_error].
  rewrite as_bytes_ascii by by apply plain_ascii.
  rewrite (proj2 (Z.leb_gt _ _)) by lia.
  unfold letters, contains, region, protection, either.
  by destruct (readable m), (writable m), (executable m), (shared m).
Qed.

Lemma parse_rendered ms a :
  Forall ok ms →
  parse_region (from_utf8_lossy (render ms)) a = Ok (region <$> mapping_at a ms).
Proof.
  intros Hms. pose proof (rendered_lines ms Hms) as Hl. unfold parse_region.
  induction Hl as [|m l ms ls Hline _ IH]; [done|].
  apply Forall_cons in Hms as [Hm Hms]. rewrite (parse_line m l ls a Hm Hline).
  unfold mapping_at. simpl. destruct (contains a m); [done|by apply IH].
Qed.
End parsing.

(** ** Reading the maps *)

Section kernel.
Context {S : Type} `{!Linux S, !LinuxLaws S}.
Implicit Types s : S.

#[local] Instance quiet_preorder : PreOrder (quiet (S:=S)).
Proof.
  split.
  - intros s. by split_and!.
  - intros s1 s2 s3 (Hm & Hb & Hi) (Hm' & Hb' & Hi'). split_and!; [congruence| |lia].
    intros a. by rewrite Hb', Hb.
Qed.

Lemma quiet_view s s' : quiet s s' → same_view s s'.
Proof. intros (Hm & Hb & _). split; intros a; simpl; [by rewrite Hm, Hb|by rewrite Hm]. Qed.

(** [retry] ends, since every [EINTR] uses up a signal: with the first result
    that is no error ([Q]), or the first other error, reached through
    interrupted calls only ([P]). *)
Lemma retry_run {A} (call : S → (Z * A) * S) (P : S → Prop) (Q : Z → A → S → Prop) s o s' :
  (∀ s r a s', P s → call s = ((r, a), s') →
    if 0 <=? r then Q r a s' else P s' ∧ signalled s s') →
  P s → retry call s = (o, s') →
  match o with
  | Ok (r, a) => 0 ≤ r ∧ Q r a s'
  | Err code => P s' ∧ code ≠ EINTR
  | _ => False
  end.
Proof.
  intros Hcall Hp. unfold retry. assert (interrupts s < Datatypes.S (interrupts s))%nat as Hf by lia.
  revert Hf Hp. generalize (Datatypes.S (interrupts s)) as fuel. intros fuel.
  revert s. induction fuel as [|fuel IH]; intros s Hf Hp; [lia|]. cbn [retry_loop].
  destruct (call s) as [[r a] s1] eqn:Hc. pose proof (Hcall _ _ _ _ Hp Hc) as Hq.
  destruct (Z.leb_spec 0 r) as [Hr|Hr]; [by intros [= <- <-]|]. destruct Hq as [Hp1 Hsig].
  destruct (Z.eqb_spec (errno s1) EINTR) as [He|He]; cbn [negb]; [|by intros [= <- <-]].
  apply IH; [|done]. specialize (Hsig He). lia.
Qed.

(** The state while the maps are read: only the descriptor changed. *)
Definition reading s0 file text s : Prop :=
  quiet s0 s ∧ files s = <[file := text]> (files s0).

Lemma reading_insert s0 file text text' s :
  files s = <[file := text]> (files s0) →
  <[file := text']> (files s) = <[file := text']> (files s0).
Proof. intros ->. apply insert_insert_eq. Qed.

Lemma read_loop_run fuel file buffer bytes text s0 s o s' :
  (length text < fuel)%nat → length buffer = 4096%nat → reading s0 file text s →
  read_loop fuel file buffer bytes s = (o, s') →
  match o with
  | Ok all => all = bytes ++ text ∧ reading s0 file [] s'
  | Err code => code ≠ EINTR ∧ ∃ left, reading s0 file left s'
  | _ => False
  end.
Proof.
  revert buffer bytes text s. induction fuel as [|fuel IH]; intros buffer bytes text s Hf Hb Hs Hrun;
    [lia|]. cbn [read_loop] in Hrun. unfold mbind at 1, M_bind at 1 in Hrun.
  destruct (retry _ s) as [o1 s1] eqn:Hretry.
  apply (retry_run _ (reading s0 file text)
    (λ r stored s1, r = Z.of_nat (length stored) ∧ r ≤ 4096 ∧ (r = 0 → text = []) ∧
       ∃ left, text = stored ++ left ∧ reading s0 file left s1)) in Hretry; [|clear Hrun|done].
  - destruct o1 as [[r stored]|code| |]; [|injection Hrun as <- <-; naive_solver|done..].
    destruct Hretry as (_ & -> & Hr & Hz & left & -> & Hs1).
    destruct (Z.eqb_spec (Z.of_nat (length stored)) 0) as [E|E].
    { injection Hrun as <- <-. specialize (Hz E). apply app_nil in Hz as [-> ->].
      by rewrite app_nil_r. }
    unfold mbind at 1, M_bind at 1, lift in Hrun.
    assert (slice (E:=Z) (stored ++ drop (length stored) buffer) 0 (Z.to_nat (Z.of_nat (length stored)))
            = Ok stored) as Hslice.
    { apply slice_Ok. rewrite length_app, length_drop. split_and!; [lia..|].
      rewrite drop_0, Nat.sub_0_r, Nat2Z.id. by rewrite take_app_length. }
    rewrite Hslice in Hrun. apply (IH _ _ left) in Hrun; [|..|done].
    + destruct o; [|done..]. by rewrite app_assoc.
    + rewrite length_app in Hf. lia.
    + rewrite length_app, length_drop. lia.
  - rewrite Hb. intros s2 r stored s3 [Hq Hfiles] Hread.
    apply (read_law _ _ text) in Hread as [Hq' Hr]; [|lia|by rewrite Hfiles, lookup_insert_eq].
    assert (quiet s0 s3) by (by etrans). case_match.
    + destruct Hr as (-> & ? & ? & left & -> & Hleft). split_and!; [done..|].
      exists left. split; [done|]. split; [done|]. rewrite Hleft. by eapply reading_insert.
    + destruct Hr as [Hr ?]. split; [|done]. split; [done|]. congruence.
Qed.

(** [maps::read] returns the text the kernel printed, or an error of one of
    its calls, and has closed its descriptor. *)
Lemma read_maps_run s o s' :
  read_maps s = (o, s') →
  quiet s s' ∧ files s' = files s ∧
  match o with
  | Ok maps => maps = from_utf8_lossy (Mapping_.render (mappings s))
  | Err code => code ≠ EINTR
  | _ => False
  end.
Proof.
  unfold read_maps. unfold mbind at 1, M_bind at 1. destruct (retry _ s) as [o1 s1] eqn:Hretry.
  apply (retry_run _ (λ s1, quiet s s1 ∧ files s1 = files s)
    (λ r _ s1, files s !! r = None ∧ reading s r (Mapping_.render (mappings s)) s1)) in Hretry;
    [| |by split].
  - destruct o1 as [[file []]|code| |]; [|by intros [= <- <-]; naive_solver|done..].
    destruct Hretry as (_ & Hnew & Hs1).
    unfold mbind at 1, M_bind at 1, gets at 1. unfold mbind at 1, M_bind at 1, attempt at 1.
    destruct (read_loop _ file _ _ s1) as [o2 s2] eqn:Hread.
    apply (read_loop_run _ _ _ _ (Mapping_.render (mappings s)) s) in Hread;
      [|by destruct Hs1 as [_ ->]; rewrite lookup_insert_eq; simpl; lia|apply length_replicate|done].
    unfold mbind at 1, M_bind at 1, modify at 1. unfold mbind at 1, M_bind at 1, lift at 1.
    destruct (sys_close file s2) as [r s3] eqn:Hclose. apply close_law in Hclose as [Hq3 Hf3]. simpl.
    assert (∀ left, reading s file left s2 → quiet s s3 ∧ files s3 = files s) as Hend.
    { intros left [Hq Hf]. split; [by etrans|]. rewrite Hf3, Hf, delete_insert_eq.
      by rewrite delete_id. }
    destruct o2 as [bytes|code| |]; [..|done|done]; simpl; intros [= <- <-].
    + destruct Hread as [-> Hr]. apply Hend in Hr as [? ?]. done.
    + destruct Hread as [Hcode [left Hr]]. apply Hend in Hr as [? ?]. done.
  - intros s2 r [] s3 [Hq Hf]. destruct (openat_maps s2) as [r' s3'] eqn:Hopen.
    intros [= -> ->]. apply openat_law in Hopen as [Hq' Hr]. case_match.
    + destruct Hr as [Hnone Hins]. rewrite Hf in *. split; [done|]. split; [by etrans|].
      destruct Hq as [<- _]. done.
    + destruct Hr as [Hr ?]. split; [|done]. split; [by etrans|congruence].
Qed.

Lemma linux_region_run a s o s' :
  linux_region_at a s = (o, s') →
  quiet s s' ∧ files s' = files s ∧
  match o with
  | Ok r => r = Mapping_.region <$> mapping_at a (mappings s)
  | Err e => ∃ code, code ≠ EINTR ∧ e = Mapping (io_error_text code)
  | _ => False
  end.
Proof.
  unfold linux_region_at. destruct (read_maps s) as [o1 s1] eqn:Hmaps.
  apply read_maps_run in Hmaps as (Hq & Hf & Ho1).
  destruct o1 as [maps|code| |]; [..|done|done]; intros [= <- <-].
  - subst maps. by rewrite parse_rendered by apply mappings_ok.
  - naive_solver.
Qed.

(** C18. [region_at] answers from the process's own mappings: whatever the calls
    do, it comes back with exactly the region that holds the address (none if
    there is none), or with the error of the system call that failed, never
    with a parse error of the kernel's text and never with [EINTR]; the
    descriptor it opened is closed, and memory and permissions are as
    before. *)
Theorem linux_region_at_correct a s o s' :
  linux_region_at a s = (o, s') →
  same_view s s' ∧ files s' = files s ∧
  match o with
  | Ok (Some r) => ∃ m, m ∈ mappings s ∧ Mapping_.start m ≤ a < Mapping_.stop m ∧
      r = Mapping_.region m
  | Ok None => ∀ m, m ∈ mappings s → ¬ Mapping_.start m ≤ a < Mapping_.stop m
  | Err e => ∃ code, code ≠ EINTR ∧ e = Mapping (io_error_text code)
  | _ => False
  end.
Proof.
  intros (Hq & Hf & Ho)%linux_region_run. split_and!; [by apply quiet_view|done|].
  destruct o as [r| | |]; [|done..]. subst r. unfold mapping_at.
  destruct (List.find (Mapping_.contains a) (mappings s)) as [m|] eqn:Hm; simpl.
  - apply find_some in Hm as [Hin Hc]. exists m. unfold Mapping_.contains in Hc.
    split_and!; [by apply list_elem_of_In|lia..|done].
  - intros m Hin%list_elem_of_In Ha. pose proof (find_none _ _ Hm m Hin) as Hc.
    unfold Mapping_.contains in Hc. lia.
Qed.

(** ** The module is a platform *)

(** A mapping is the only one at each of its addresses. *)
Lemma mapping_at_sorted ms m b :
  StronglySorted (λ m m', Mapping_.stop m ≤ Mapping_.start m') ms →
  m ∈ ms → Mapping_.start m ≤ b < Mapping_.stop m → mapping_at b ms = Some m.
Proof.
  unfold mapping_at. induction 1 as [|m' ms Hs IH Hall]; [by intros ?%not_elem_of_nil|].
  intros [->|Hin]%elem_of_cons Hb; simpl.
  - unfold Mapping_.contains. by rewrite (proj2 (Z.leb_le _ _)), (proj2 (Z.ltb_lt _ _)) by lia.
  - eapply Forall_forall in Hall; [|exact Hin]. unfold Mapping_.contains.
    rewrite (proj2 (Z.ltb_ge _ _)), andb_false_r by lia. by apply IH.
Qed.

Lemma protection_bits m :
  0 ≤ Mapping_.protection m < 8 ∧
  Mapping_.readable m && Mapping_.executable m = can_run (S:=S) (Mapping_.protection m).
Proof.
  unfold Mapping_.protection. simpl.
  by destruct (Mapping_.readable m), (Mapping_.writable m), (Mapping_.executable m).
Qed.

Lemma linux_region_ok a s m :
  mapping_at a (mappings s) = Some m → region_ok s a (Mapping_.region m).
Proof.
  intros [Hin Hc]%find_some. apply list_elem_of_In in Hin. unfold Mapping_.contains in Hc.
  pose proof (proj1 (Forall_forall _ _) (mappings_ok s) m Hin) as (? & ? & _).
  pose proof (proj1 (Forall_forall _ _) (mappings_aligned s) m Hin) as [? ?].
  destruct (protection_bits m) as [Hp Hr].
  split_and!; simpl; try lia; try done.
  intros b Hb. by rewrite (mapping_at_sorted _ m b (mappings_sorted s) Hin Hb).
Qed.

Lemma linux_protect_run p w s o s' :
  page_aligned (S:=S) p → linux_protect p w s = (o, s') →
  returns o ∧ same_bytes s s' ∧
  (∀ a, ¬ in_page p a → prot_at s' a = prot_at s a) ∧
  still_mapped s s' ∧
  (o = Ok tt → ∀ a, in_page p a →
    prot_at s' a = Some (if w then with_write (S:=S) (PageRange.protection p)
                         else PageRange.protection p)).
Proof.
  intros (Ha & Hl & Hok) Hrun. unfold linux_protect in Hrun. simpl in Hok.
  assert (to_signed 32 (PageRange.protection p) = PageRange.protection p) as Hs.
  { rewrite <-(Z.mod_small (PageRange.protection p) (2 ^ 32)) at 1 by lia. apply to_signed_id; lia. }
  rewrite Hs in Hrun.
  set (prot := Z.lor _ _) in Hrun.
  assert (prot = if w then with_write (S:=S) (PageRange.protection p) else PageRange.protection p)
    as Hprot by (destruct w; [done|apply Z.lor_0_r]).
  assert (0 ≤ prot < 8) as Hrange.
  { revert Hok. unfold prot. generalize (PageRange.protection p) as q. intros q Hq.
    assert (Forall (λ q, 0 ≤ Z.lor q (if w then PROT_WRITE else 0) < 8) [0; 1; 2; 3; 4; 5; 6; 7])
      as Hall by (destruct w; repeat constructor; done).
    eapply Forall_forall in Hall; [exact Hall|]. set_unfold. lia. }
  destruct (mprotect _ _ prot s) as [r s1] eqn:Hcall.
  apply mprotect_law in Hcall as (Hb & Hout & Hst & Hin); [|done..].
  destruct (Z.eqb_spec r 0) as [Hr|Hr]; injection Hrun as <- <-; (split_and!; [done..|]).
  - intros _ a Hp. rewrite Hin by done. by rewrite Hprot.
  - done.
Qed.

#[global] Instance linux_laws : PlatformLaws S.
Proof.
  split.
  - apply page_bytes_pos.
  - intros p _. change (Z.testbit (Z.lor p PROT_WRITE) 1 = true). rewrite Z.lor_spec. apply orb_true_r.
  - intros a s o s' (Hq & _ & Ho)%linux_region_run.
    split_and!; [by destruct o|by apply quiet_view|]. intros r -> Hflags.
    destruct (mapping_at a (mappings s)) as [m|] eqn:Hm; simplify_eq/=.
    split; [by apply linux_region_ok|]. etrans; [symmetry; apply (protection_bits m)|done].
  - intros a n s o s' Hn. simpl. unfold linux_read_bytes.
    destruct (process_vm_readv a n s) as [[r stored] s1] eqn:Hc.
    apply readv_law in Hc as [Hq Hr]; [|done].
    destruct (Z.ltb_spec r 0); intros [= <- <-].
    { split_and!; [done|by apply quiet_view|done]. }
    split_and!; [done|by apply quiet_view|]. intros bs [= <-].
    destruct Hr as (? & -> & Hh); [done|].
    rewrite Nat2Z.id, take_app_length. split; [lia|done].
  - intros s o s'. simpl. unfold linux_page_size.
    destruct (sysconf_page_size s) as [r s1] eqn:Hc. apply sysconf_law in Hc as [Hq Hr].
    destruct (Z.ltb_spec r 0); intros [= <- <-]; (split_and!; [done|by apply quiet_view|]).
    + done.
    + intros p [= <-]. by apply Hr.
  - apply linux_protect_run.
  - intros a n s o s' [= <- <-]. split; [done|]. apply cache_flush_law.
  - intros bs a s o s' Hw [= <- <-]. apply poke_law in Hw as [Hm Hw].
    split_and!; [done| |done]. intros b. simpl. by rewrite Hm.
  - discriminate.
Qed.
End kernel.

(** ** A small kernel: eight pages, one descriptor, and pending signals *)

Module Kernel.
Record t := Make {
  bytes : Z → Z;
  perms : nat → option (bool * bool * bool);
  opened : gmap Z (list Z);
  pending : nat;
  error : Z }.

Definition pages : nat := 8.
Definition text_of (i : nat) : list Z :=
  [48; 48; 32; 47; 255; 226; 130; 97; Z.of_nat (48 + i); 13].

Definition page_mapping (s : t) (i : nat) : option Mapping_.t :=
  '(r, w, x) ← perms s i;
  Some (Mapping_.Make (Z.of_nat i * 4096) (Z.of_nat i * 4096 + 4096) r w x false (text_of i)).

Definition set_error (e : Z) (s : t) : t := Make (bytes s) (perms s) (opened s) (pending s) e.
Definition set_opened (f : gmap Z (list Z)) (s : t) : t :=
  Make (bytes s) (perms s) f (pending s) (error s).
Definition interrupted (s : t) : t :=
  Make (bytes s) (perms s) (opened s) (pred (pending s)) EINTR.

Definition in_range (a n : Z) (i : nat) : bool :=
  (a <=? Z.of_nat i * 4096) && (Z.of_nat i * 4096 <? a + n).
Definition can_protect (a n prot : Z) (s : t) : bool :=
  (0 <=? a) && (a + n <=? 32768) && (0 <=? prot) && (prot <? 8)
  && forallb (λ i, negb (in_range a n i) || bool_decide (is_Some (perms s i))) (seq 0 pages).

#[global] Instance posix : Posix t := {
  mprotect a n prot s :=
    if negb (a mod 4096 =? 0) then (-1, set_error 22 s) else
    if can_protect a n prot s then
      (0, Make (bytes s)
            (λ i, if in_range a n i
                  then Some (Z.testbit prot 0, Z.testbit prot 1, Z.testbit prot 2)
                  else perms s i)
            (opened s) (pending s) (error s))
    else (-1, set_error 12 s);
  mmap hint n s :=
    if (0 <? n) && (n <=? 16384) && forallb (λ i, bool_decide (perms s i = None)) (seq 4 4) then
      (16384, Make (λ b, if (16384 <=? b) && (b <? 16384 + n) then 0 else bytes s b)
                (λ i, if in_range 16384 n i then Some (true, true, false) else perms s i)
                (opened s) (pending s) (error s))
    else (MAP_FAILED, set_error 12 s);
  munmap a n s :=
    if (0 <=? n) && (a mod 4096 =? 0) then
      (0, Make (bytes s) (λ i, if in_range a n i then None else perms s i)
            (opened s) (pending s) (error s))
    else (-1, set_error 22 s);
  cache_flush _ _ s := s;
  errno := error }.

#[global] Instance linux : Linux t := {
  linux_posix := posix;
  openat_maps s :=
    match pending s with
    | S _ => (-1, interrupted s)
    | O => if bool_decide (is_Some (opened s !! 3)) then (-1, set_error 24 s)
           else (3, set_opened (<[3 := Mapping_.render (omap (page_mapping s) (seq 0 pages))]>
                                  (opened s)) s)
    end;
  sys_read fd n s :=
    match pending s, opened s !! fd with
    | S _, _ => ((-1, []), interrupted s)
    | O, None => ((-1, []), set_error 9 s)
    | O, Some text =>
        let stored := take (Nat.min (Z.to_nat n) 100) text in
        ((Z.of_nat (length stored), stored),
         set_opened (<[fd := drop (Nat.min (Z.to_nat n) 100) text]> (opened s)) s)
    end;
  sys_close fd s := (0, set_opened (delete fd (opened s)) s);
  process_vm_readv a n s := ((n, (λ k, if mapping_at (a + k) (omap (page_mapping s) (seq 0 pages))
                                       then bytes s (a + k) else 0) <$> seqZ 0 n), s);
  sysconf_page_size s := (4096, s);
  arch_prctl s := ((-1, 0), set_error 22 s);
  poke bs a s :=
    Make (λ b, if (a <=? b) && (b <? a + Z.of_nat (length bs))
               then default 0 (bs !! Z.to_nat (b - a)) else bytes s b)
      (perms s) (opened s) (pending s) (error s);
  strerror code := "error";
  interrupts := pending;
  files := opened;
  memory := bytes;
  mappings s := omap (page_mapping s) (seq 0 pages);
  page_bytes := 4096 }.

Lemma page_mapping_Some s i m :
  page_mapping s i = Some m →
  ∃ r w x, perms s i = Some (r, w, x) ∧ Mapping_.start m = Z.of_nat i * 4096 ∧
    Mapping_.stop m = Z.of_nat i * 4096 + 4096 ∧ Mapping_.readable m = r ∧
    Mapping_.writable m = w ∧ Mapping_.executable m = x ∧ Mapping_.rest m = text_of i.
Proof.
  unfold page_mapping. destruct (perms s i) as [[[r w] x]|]; [|done].
  intros [= <-]. by exists r, w, x.
Qed.

Lemma mappings_in s m :
  m ∈ mappings s → ∃ i, (i < pages)%nat ∧ page_mapping s i = Some m.
Proof.
  intros (i & Hi & Hm)%list_elem_of_omap. apply elem_of_seq in Hi. exists i. split; [lia|done].
Qed.

Lemma mappings_sorted_from s k n :
  StronglySorted (λ m m', Mapping_.stop m ≤ Mapping_.start m') (omap (page_mapping s) (seq k n)).
Proof.
  revert k. induction n as [|n IH]; intros k; simpl; [constructor|].
  destruct (page_mapping s k) as [m|] eqn:Hm; [|apply IH]. constructor; [apply IH|].
  apply Forall_forall. intros m' (i & Hi & Hm')%list_elem_of_omap. apply elem_of_seq in Hi.
  apply page_mapping_Some in Hm as (? & ? & ? & _ & _ & -> & _).
  apply page_mapping_Some in Hm' as (? & ? & ? & _ & -> & _). lia.
Qed.

(** The permissions of an address are those of its page. *)
Lemma prot_at_page s b :
  prot_at s b = if (0 <=? b) && (b <? 32768)
                then Mapping_.protection <$> page_mapping s (Z.to_nat (b / 4096)) else None.
Proof.
  change (prot_at s b) with (Mapping_.protection <$> mapping_at b (mappings s)).
  set (q := b / 4096). pose proof (Z.div_mod b 4096 ltac:(lia)).
  pose proof (Z.mod_pos_bound b 4096 ltac:(lia)).
  destruct (mapping_at b _) as [m|] eqn:Hm.
  - pose proof Hm as [Hin Hc]%find_some. apply list_elem_of_In, mappings_in in Hin as (i & Hi & Hp).
    pose proof (page_mapping_Some _ _ _ Hp) as (? & ? & ? & _ & Hs & He & _).
    unfold Mapping_.contains in Hc. rewrite Hs, He in Hc.
    unfold pages in Hi. assert (q = Z.of_nat i) as -> by (unfold q in *; lia).
    rewrite (proj2 (Z.leb_le _ _)), (proj2 (Z.ltb_lt _ _)) by lia. cbn [andb].
    by rewrite Nat2Z.id, Hp.
  - destruct (_ && _) eqn:Hb; [|done]. destruct (page_mapping s (Z.to_nat q)) as [m|] eqn:Hp; [|done].
    exfalso. assert (m ∈ mappings s) as Hin.
    { apply list_elem_of_omap. exists (Z.to_nat q). split; [|done].
      apply elem_of_seq. unfold q, pages in *. lia. }
    apply page_mapping_Some in Hp as (? & ? & ? & _ & Hs & He & _).
    apply list_elem_of_In, (find_none _ _ Hm) in Hin. unfold Mapping_.contains in Hin.
    rewrite Hs, He in Hin. apply andb_true_iff in Hb as [Hb%Z.leb_le _].
    rewrite Z2Nat.id in Hin by (by apply Z.div_pos). apply andb_false_iff in Hin. unfold q in Hin. lia.
Qed.

(** The permissions a triple stands for. *)
Definition triple_prot (p : bool * bool * bool) : Z :=
  let '(r, w, x) := p in
  Z.lor (Z.lor (if r then PROT_READ else 0) (if w then PROT_WRITE else 0))
        (if x then PROT_EXEC else 0).

Lemma page_prot s i : Mapping_.protection <$> page_mapping s i = triple_prot <$> perms s i.
Proof. unfold page_mapping. by destruct (perms s i) as [[[r w] x]|]. Qed.

Lemma byte_at_prot s b : byte_at s b = if prot_at s b then bytes s b else 0.
Proof.
  change (byte_at s b) with (if mapping_at b (mappings s) then bytes s b else 0).
  change (prot_at s b) with (Mapping_.protection <$> mapping_at b (mappings s)).
  by destruct (mapping_at b (mappings s)).
Qed.

Lemma in_range_page a n b :
  (4096 | a) → (4096 | n) → 0 ≤ b → in_range a n (Z.to_nat (b / 4096)) = true ↔ a ≤ b < a + n.
Proof.
  intros [p ->] [q ->] Hb. unfold in_range. rewrite Z2Nat.id by (apply Z.div_pos; lia).
  pose proof (Z.div_mod b 4096 ltac:(lia)). pose proof (Z.mod_pos_bound b 4096 ltac:(lia)). lia.
Qed.

(** Giving the pages of a range new permissions. *)
Lemma prot_at_range s s' a n p b :
  (∀ i, perms s' i = if in_range a n i then p else perms s i) →
  (4096 | a) → (4096 | n) → p = None ∨ 0 ≤ a ∧ a + n ≤ 32768 →
  prot_at s' b = if decide (a ≤ b < a + n) then triple_prot <$> p else prot_at s b.
Proof.
  intros Hs Ha Hn Hp. rewrite !prot_at_page, !page_prot, Hs.
  destruct (Z.leb_spec 0 b) as [Hb|Hb]; simpl.
  - pose proof (in_range_page a n b Ha Hn Hb) as Hin.
    destruct (Z.ltb_spec b 32768); case_decide as Hd;
      [by rewrite (proj2 Hin Hd)| | |done].
    + destruct (in_range a n (Z.to_nat (b / 4096))); [|done]. by destruct Hd, Hin; auto.
    + destruct Hp as [->|?]; [done|lia].
  - case_decide; [|done]. destruct Hp as [->|?]; [done|lia].
Qed.

Lemma mprotect_ok a n prot s r s' :
  (4096 | a) → (4096 | n) → mprotect a n prot s = (r, s') →
  same_bytes s s' ∧
  (∀ b, ¬ a ≤ b < a + n → prot_at s' b = prot_at s b) ∧
  still_mapped s s' ∧
  (r = 0 → ∀ b, a ≤ b < a + n → prot_at s' b = Some prot).
Proof.
  intros Ha Hn. cbn [mprotect linux_posix linux posix].
  rewrite (proj2 (Z.eqb_eq (a mod 4096) 0)) by (by apply Z.mod_divide). cbn [negb].
  destruct (can_protect a n prot s) eqn:Hcan; intros [= <- <-].
  2:{ split_and!; [done|done| |done]. by intros b. }
  unfold can_protect in Hcan. rewrite !andb_true_iff in Hcan. destruct Hcan as [Hcan Hall].
  set (s' := Make _ _ _ _ _).
  assert (∀ b, prot_at s' b = if decide (a ≤ b < a + n) then Some prot else prot_at s b) as Hprot.
  { intros b. rewrite (prot_at_range s s' a n
      (Some (Z.testbit prot 0, Z.testbit prot 1, Z.testbit prot 2))); [|done..|right; lia].
    case_decide; [|done]. simpl. f_equal.
    assert (prot ∈ [0; 1; 2; 3; 4; 5; 6; 7]) as Hp by (clear -Hcan; set_unfold; lia).
    set_unfold. destruct_or! Hp; by subst prot. }
  assert (∀ b, a ≤ b < a + n → is_Some (prot_at s b)) as Hmapped.
  { intros b Hb. rewrite prot_at_page, page_prot.
    rewrite (proj2 (Z.leb_le _ _)), (proj2 (Z.ltb_lt _ _)) by lia. simpl. apply fmap_is_Some.
    rewrite forallb_forall in Hall. specialize (Hall (Z.to_nat (b / 4096))).
    rewrite (proj2 (in_range_page a n b Ha Hn ltac:(lia)) Hb) in Hall. cbn [negb orb] in Hall.
    destruct (bool_decide_reflect (is_Some (perms s (Z.to_nat (b / 4096))))) as [|]; [done|].
    discriminate Hall. apply in_seq.
    pose proof (Z.div_mod b 4096 ltac:(lia)). pose proof (Z.mod_pos_bound b 4096 ltac:(lia)).
    unfold pages in *. lia. }
  split_and!.
  - intros b. rewrite !byte_at_prot, Hprot. case_decide as Hd; [|done].
    by destruct (Hmapped b Hd) as [p ->].
  - intros b Hb. by rewrite Hprot, decide_False.
  - intros b Hb. rewrite Hprot. by case_decide.
  - intros _ b Hb. by rewrite Hprot, decide_True.
Qed.

Lemma mmap_ok hint n s r s' :
  0 < n → (4096 | n) → mmap hint n s = (r, s') →
  if r =? MAP_FAILED then same_view s s' else
    0 < r ∧ r + n ≤ isize_max ∧ (4096 | r) ∧
    (∀ b, r ≤ b < r + n → prot_at s b = None ∧ prot_at s' b = Some (Z.lor PROT_READ PROT_WRITE)) ∧
    ∀ b, ¬ r ≤ b < r + n → byte_at s' b = byte_at s b ∧ prot_at s' b = prot_at s b.
Proof.
  intros Hn Hd. cbn [mmap linux_posix linux posix].
  destruct (_ && _) eqn:Hc; intros [= <- <-]; [|by split].
  rewrite !andb_true_iff in Hc. destruct Hc as [Hc Hfree].
  set (s' := Make _ _ _ _ _).
  assert (∀ b, prot_at s' b = if decide (16384 ≤ b < 16384 + n) then Some 3 else prot_at s b) as Hprot.
  { intros b. rewrite (prot_at_range s s' 16384 n (Some (true, true, false)));
      [done|done|by exists 4|done|right; lia]. }
  simpl (16384 =? MAP_FAILED). split_and!; [lia|unfold isize_max; lia|by exists 4|..].
  - intros b Hb. rewrite Hprot, decide_True by done. split; [|done].
    rewrite prot_at_page, page_prot. rewrite forallb_forall in Hfree.
    specialize (Hfree (Z.to_nat (b / 4096))). rewrite bool_decide_eq_true in Hfree.
    rewrite Hfree; [by destruct (_ && _)|]. apply in_seq.
    pose proof (Z.div_mod b 4096 ltac:(lia)). pose proof (Z.mod_pos_bound b 4096 ltac:(lia)). lia.
  - intros b Hb. rewrite !byte_at_prot, Hprot, decide_False by done. split; [|done].
    unfold s'. simpl (bytes _). destruct (prot_at s b); [|done].
    destruct (_ && _) eqn:Hin; [lia|done].
Qed.

Lemma munmap_ok a n s r s' :
  (4096 | n) → munmap a n s = (r, s') →
  if r =? 0 then
    (∀ b, a ≤ b < a + n → prot_at s' b = None) ∧
    ∀ b, ¬ a ≤ b < a + n → byte_at s' b = byte_at s b ∧ prot_at s' b = prot_at s b
  else same_view s s'.
Proof.
  intros Hn. cbn [munmap linux_posix linux posix]. destruct (_ && _) eqn:Hc; intros [= <- <-]; [|by split].
  apply andb_true_iff in Hc as [_ Ha%Z.eqb_eq]. apply Z.mod_divide in Ha; [|done].
  set (s' := Make _ _ _ _ _).
  assert (∀ b, prot_at s' b = if decide (a ≤ b < a + n) then None else prot_at s b) as Hprot.
  { intros b. rewrite (prot_at_range s s' a n None); [done..|by left]. }
  cbn [Z.eqb]. split.
  - intros b Hb. by rewrite Hprot, decide_True.
  - intros b Hb. by rewrite !byte_at_prot, Hprot, decide_False.
Qed.

Lemma poke_ok bs a s :
  (∀ k, (k < length bs)%nat → ∃ p, prot_at s (a + Z.of_nat k) = Some p ∧ can_write (S:=t) p = true) →
  written s (poke bs a s) a bs.
Proof.
  intros Hw. split.
  - intros k b Hk. pose proof (lookup_lt_Some _ _ _ Hk) as Hlt.
    destruct (Hw k Hlt) as (p & Hp & _). rewrite byte_at_prot.
    change (prot_at (poke bs a s) (a + Z.of_nat k)) with (prot_at s (a + Z.of_nat k)).
    rewrite Hp. cbn [poke linux bytes].
    rewrite (proj2 (Z.leb_le _ _)), (proj2 (Z.ltb_lt _ _)) by lia. cbn [andb].
    replace (Z.to_nat (a + Z.of_nat k - a)) with k by lia. by rewrite Hk.
  - intros b Hb. rewrite !byte_at_prot.
    change (prot_at (poke bs a s) b) with (prot_at s b). destruct (prot_at s b); [|done].
    cbn [poke linux bytes]. case_match; [lia|done].
Qed.

#[global] Instance posix_laws : PosixLaws t.
Proof.
  split.
  - by exists 4.
  - done.
  - intros s b Hb. by rewrite byte_at_prot, Hb.
  - intros a n prot s r s' Ha Hn _. by apply mprotect_ok.
  - intros a n prot s r s' Ha. cbn [mprotect linux_posix linux posix].
    rewrite (proj2 (Z.eqb_neq (a mod 4096) 0)) by (by rewrite Z.mod_divide).
    intros [= <- <-]. by split.
  - intros a n s. reflexivity.
  - apply mmap_ok.
  - apply munmap_ok.
Qed.

#[global] Instance laws : LinuxLaws t.
Proof.
  split.
  - apply _.
  - done.
  - intros s. apply Forall_forall. intros m (i & Hi & Hm)%mappings_in.
    apply page_mapping_Some in Hm as (? & ? & ? & _ & Hs & He & _ & _ & _ & Hr).
    unfold Mapping_.ok. rewrite Hs, He, Hr. unfold usize_max, pages in *. split_and!; [lia..|].
    unfold text_of. set_unfold. lia.
  - intros s. apply Forall_forall. intros m (i & Hi & Hm)%mappings_in.
    apply page_mapping_Some in Hm as (? & ? & ? & _ & -> & -> & _).
    split; [apply Z.divide_factor_r|]. apply Z.divide_add_r; [apply Z.divide_factor_r|done].
  - intros s. apply mappings_sorted_from.
  - intros s r s'. simpl. unfold signalled, quiet. simpl. destruct (pending s) as [|k] eqn:Hp.
    + destruct (bool_decide_reflect (is_Some (opened s !! 3))) as [Ho|Ho]; intros [= <- <-]; simpl.
      * by split_and!; rewrite ?Hp.
      * split_and!; [done|done|lia| |done]. by apply eq_None_not_Some.
    + intros [= <- <-]. simpl. rewrite Hp. simpl. split_and!; try done; lia.
  - intros file n text s r stored s' Hn Hf. simpl in *. unfold signalled, quiet.
    rewrite Hf. destruct (pending s) as [|k] eqn:Hp; intros [= <- <- <-].
    + rewrite (proj2 (Z.leb_le 0 _)) by lia. rewrite length_take. simpl.
      split_and!; [done|done|lia|lia|lia| |].
      * intros. destruct text; [done|]. simpl in *. lia.
      * exists (drop (Nat.min (Z.to_nat n) 100) text). split; [|done]. by rewrite take_drop.
    + simpl. rewrite Hp. simpl. split_and!; try done; lia.
  - intros file s r s' [= <- <-]. by split_and!.
  - intros a n s r stored s' Hn. cbn [process_vm_readv linux]. intros [= <- <- <-].
    split; [by split_and!|]. intros _.
    rewrite length_fmap, length_seqZ. split_and!; [lia..|].
    intros k b (x & -> & [-> ?]%lookup_seqZ)%list_lookup_fmap_Some. done.
  - intros s r s' [= <- <-]. by split_and!.
  - intros bs a s Hw. split; [done|]. by apply poke_ok.
  - intros s r s' [= <- <-]. by split_and!.
Qed.

(** Three pages, the last two of them code, and two signals on their way. *)
Definition demo : t :=
  Make (λ a, a mod 256)
    (λ i, match i with
          | 1%nat => Some (true, true, false)
          | 2%nat | 3%nat => Some (true, false, true)
          | _ => None
          end) ∅ 2 0.
End Kernel.

Lemma linux_region_at_correct_witness :
  ∃ r s', linux_region_at 8200 Kernel.demo = (Ok (Some r), s') ∧
    Region.start r = 8192 ∧ files s' = files Kernel.demo ∧ same_view Kernel.demo s'.
Proof.
  destruct (linux_region_at 8200 Kernel.demo) as [o s'] eqn:Hrun.
  pose proof (linux_region_at_correct _ _ _ _ Hrun) as (Hv & Hf & Ho).
  pose proof (f_equal (λ p, Region.start <$> match p.1 with Ok r => r | _ => None end) Hrun) as Hr.
  vm_compute in Hr. destruct o as [[r|]| | |]; try discriminate Hr.
  exists r, s'. split_and!; [done| |done..]. by injection Hr.
Defined.
