(* ===== verification/LinuxPages.v ===== *)
(** * Trampoline pages on Linux ([src/src/executable/linux.rs])

    The page operations of [UnixPages] on the system calls of [LinuxMemory],
    and that they have the laws [Executable], [Routing] and [Session] ask of a
    platform. *)

From S2P Require Import Prelude Errors Memory Executable UnixPages LinuxMemory.

#[local] Open Scope Z_scope.
#[local] Set Default Proof Using "Type*".

Section operations.
Context {S : Type} `{!Linux S}.

(** [linux::shadow_stack]. *)
Definition linux_shadow_stack : M Error S bool := λ s,
  let '((result, flags), s) := arch_prctl s in
  (query_shadow_stack (result, flags, errno s), s).

(** The platform of an [x86_64] build. *)
#[global] Instance linux_pages : Pages S := {
  allocate := unix_allocate REACH_x86_64;
  seal := unix_seal;
  release := unix_release;
  shadow_stack := linux_shadow_stack }.

(** The platform of an [aarch64] build, where no function is entered through a
    call bridge and nothing asks for the shadow stack. *)
Definition linux_arm64_pages : Pages S := {|
  allocate := unix_allocate REACH_aarch64;
  seal := unix_seal;
  release := unix_release;
  shadow_stack := mret false |}.
End operations.

Section laws.
Context {S : Type} `{!Linux S, !LinuxLaws S}.
Implicit Types s : S.

#[global] Instance linux_pages_laws : PagesLaws S.
Proof.
  apply (unix_pages_laws REACH_x86_64); [by left|done..|].
  intros s o s'. simpl. unfold linux_shadow_stack.
  destruct (arch_prctl s) as [[r flags] s1] eqn:Ha. apply arch_prctl_law in Ha.
  intros [= <- <-]. split; [|by apply quiet_view].
  unfold query_shadow_stack. by repeat case_match.
Qed.

#[global] Instance linux_arm64_pages_laws : @PagesLaws S _ _ linux_arm64_pages.
Proof.
  apply (unix_pages_laws REACH_aarch64); [by left|done..|].
  intros s o s' [= <- <-]. by split; [|reflexivity].
Qed.

(** C24. [Executable::near] and [publish] on Linux.  The page is new, close enough
    to the function for a direct jump, and the only memory that changes; it
    is writable until it is published, and if publishing succeeds it starts
    with the code and may be read and executed but not written: no page is
    ever writable and executable. *)
Theorem linux_trampoline_page source bytes s page s1 page' r s2 :
  @Executable.near S linux_pages source s = (Ok page, s1) →
  @Executable.publish S linux_platform linux_pages page bytes s1 = (Ok (page', r), s2) →
  let a := Executable.address page in
  Z.abs (a - source) ≤ REACH_x86_64 - CAPACITY ∧ unmapped_page s a ∧ confined a s s2 ∧
  open_page s1 a ∧
  match r with
  | Ok _ => holds s2 a bytes ∧ sealed_page s2 a
  | Err _ => True
  | _ => False
  end.
Proof.
  intros Hnear Hpub. unfold Executable.near in Hnear. destruct (_ || _); [done|].
  unfold mbind, M_bind in Hnear. destruct (allocate source s) as [o1 s1'] eqn:Ha.
  pose proof (unix_allocate_run _ _ _ _ _ Ha) as Hrun.
  destruct o1 as [a|e| |]; try done. injection Hnear as <- <-. cbn [Executable.address].
  destruct Hrun as (Hreach & _ & _ & Hu & Ho & Hc).
  destruct (publish_run (Executable.Make a false) bytes s1') as
    (self' & r' & s' & Hp & Hret & _ & Hcp & Hok & _); [by apply open_page_writable|].
  rewrite Hpub in Hp. injection Hp as <- <- <-. cbn [Executable.address] in *.
  split_and!; [done|done| |done|].
  { intros b Hb. destruct (Hc b Hb) as [<- <-]. by apply Hcp. }
  destruct r as [[]|e| |]; try done. destruct (Hok eq_refl) as (_ & _ & _ & [Hh _] & _).
  split; [done|]. exact (publish_sealed (S:=S) (Executable.Make a false) bytes s1' page' s2 eq_refl Hpub).
Qed.
End laws.

Lemma linux_trampoline_page_witness :
  ∃ page s1 page' s2, Executable.near 8192 Kernel.demo = (Ok page, s1) ∧
    Executable.publish page [0xc3] s1 = (Ok (page', Ok tt), s2) ∧
    sealed_page s2 (Executable.address page) ∧ confined (Executable.address page) Kernel.demo s2.
Proof.
  destruct (Executable.near 8192 Kernel.demo) as [o s1] eqn:H1.
  assert (o = Ok (Executable.Make 16384 false)) as ->
    by (apply (f_equal fst) in H1; vm_compute in H1; symmetry; exact H1).
  destruct (Executable.publish (Executable.Make 16384 false) [0xc3] s1) as [o2 s2] eqn:H2.
  assert (o2 = Ok (Executable.Make 16384 true, Ok tt)) as ->.
  { assert (s1 = (Executable.near 8192 Kernel.demo).2) as -> by (by rewrite H1).
    apply (f_equal fst) in H2. vm_compute in H2. symmetry. exact H2. }
  destruct (linux_trampoline_page _ _ _ _ _ _ _ _ H1 H2) as (_ & _ & Hc & _ & _ & Hs).
  exists (Executable.Make 16384 false), s1, (Executable.Make 16384 true), s2.
  split; [reflexivity|]. split; [exact H2|]. split; [exact Hs|exact Hc].
Defined.
