(* ===== verification/MacosMemory.v ===== *)
(** * Memory on macOS ([src/src/memory/macos.rs])

    The platform operations over the Mach calls ([Mach]), and that they have
    the laws [Memory] asks of a platform. *)

From S2P Require Import Prelude Errors Memory Executable UnixPages.

#[local] Open Scope Z_scope.
#[local] Set Default Proof Using "Type*".

Definition SUCCESS : Z := 0.
Definition INVALID_ADDRESS : Z := 1.
Definition COPY : Z := 0x10.

Module RegionInfo.
Record t := Make {
  protection : Z;
  max_protection : Z;
  inheritance : Z;
  offset : Z;
  user_tag : Z;
  pages_resident : Z;
  pages_shared : Z;
  pages_swapped : Z;
  pages_dirtied : Z;
  references : Z;
  shadow_depth : Z;
  external_pager : Z;
  share_mode : Z;
  is_submap : Z;
  behavior : Z;
  object_id : Z;
  wired : Z;
  flags : Z }.
End RegionInfo.

(** The answer of [mach_vm_region_recurse]. *)
Record recursed := mkRecursed {
  rec_result : Z; rec_start : Z; rec_size : Z; rec_depth : Z; rec_info : RegionInfo.t }.

(** The calls, with the task left out; [mach_vm_remap] takes its target, size,
    mask, flags, source, copy flag and inheritance.  [mach_bytes] and
    [mach_prots] are the memory of the process, [nesting] bounds how deep
    submaps are nested. *)
Class Mach (S : Type) := {
  mach_posix :: Posix S;
  mach_vm_region_recurse : Z → Z → S → recursed * S;
  mach_vm_read_overwrite : Z → Z → S → (Z * list Z * Z) * S;
  mach_sysconf : S → Z * S;
  mach_vm_protect : Z → Z → Z → Z → S → Z * S;
  mach_vm_remap : Z → Z → Z → Z → Z → Z → Z → S → Z * S;
  mach_poke : list Z → Z → S → S;
  mach_bytes : S → Z → Z;
  mach_prots : S → Z → option Z;
  nesting : S → nat;
  mach_page : Z }.

Section platform.
Context {S : Type} `{!Mach S}.

(** [macos::check]. *)
Definition mach_check (operation : string) (code : Z) : result unit :=
  if code =? SUCCESS then Ok tt else Err (Os operation code).

(** The loop of [region_at]; every round that goes on is one submap deeper. *)
Fixpoint region_at_loop (fuel : nat) (address depth : Z) : M Error S (option Region.t) :=
  match fuel with
  | O => panic "out of fuel"
  | Datatypes.S fuel => λ s,
      let '(r, s) := mach_vm_region_recurse address depth s in
      let start := rec_start r in
      let info := rec_info r in
      if rec_result r =? INVALID_ADDRESS then (Ok None, s) else
      (lift (mach_check "query memory" (rec_result r));;
       if negb (RegionInfo.is_submap info =? 0) then
         if rec_depth r + 1 <=? 2 ^ 32 - 1 then region_at_loop fuel address (rec_depth r + 1)
         else throw InvalidRange
       else
       match checked_add start (rec_size r) with
       | None => throw InvalidRange
       | Some stop =>
           if (address <? start) || (stop <=? address) then mret None else
           mret (Some (Region.Make start stop (RegionInfo.protection info mod 2 ^ 32)
             (negb (Z.land (RegionInfo.protection info) PROT_READ =? 0))
             (negb (Z.land (RegionInfo.protection info) PROT_EXEC =? 0))))
       end) s
  end.
Definition macos_region_at (address : Z) : M Error S (option Region.t) := λ s,
  region_at_loop (Datatypes.S (nesting s)) address 0 s.

Definition macos_read_bytes (address length : Z) : M Error S (list Z) := λ s,
  let '((result, stored, copied), s) := mach_vm_read_overwrite address length s in
  (lift (mach_check "read memory" result);;
   let bytes := stored ++ drop (List.length stored) (replicate (Z.to_nat length) 0) in
   mret (take (Z.to_nat copied) bytes)) s.

Definition macos_page_size : M Error S Z := λ s,
  let '(size, s) := mach_sysconf s in
  if size <? 0 then os_error "page size" s else (Ok size, s).

(** [protect] of an [x86_64] build. *)
Definition macos_protect (page : PageRange.t) (writable : bool) : M Error S unit := λ s,
  let protection := Z.lor (to_signed 32 (PageRange.protection page))
    (if writable then Z.lor PROT_WRITE COPY else 0) in
  let '(result, s) :=
    mach_vm_protect (PageRange.address page) (PageRange.length page) 0 protection s in
  (mach_check "protect memory" result, s).

Definition macos_flush (address length : Z) : M Error S unit := λ s,
  (mach_check "flush instruction cache" SUCCESS, cache_flush address length s).

#[global] Instance macos_platform : Platform S := {
  region_at := macos_region_at;
  read_bytes := macos_read_bytes;
  page_size := macos_page_size;
  protect := macos_protect;
  flush := macos_flush;
  copy bytes address := modify (mach_poke bytes address);
  remap_pages := None }.

#[global] Instance macos_view : View S := {
  byte_at s a := if mach_prots s a then mach_bytes s a else 0;
  prot_at s a := mach_prots s a;
  page := mach_page;
  prot_ok p := 0 ≤ p < 8;
  with_write p := Z.lor p PROT_WRITE;
  can_write p := Z.testbit p 1;
  can_run p := Z.testbit p 0 && Z.testbit p 2 }.
End platform.

(** ** What the calls document

    [mach_vm_region_recurse] finds the first region that ends behind the
    address, at most as deep as asked, and reports a submap only at the depth
    that was asked for.  [mach_vm_protect] ignores [VM_PROT_COPY] in the
    permission it sets.  [mach_vm_remap] maps the source pages over the
    target, or fails and may have changed the target pages only; source and
    target then share memory, which nothing can write, as they are not
    writable. *)
Section laws.
Context {S : Type} `{!Mach S}.

(** Only bytes and permissions where [P] holds differ. *)
Definition changes (P : Z → Prop) (s s' : S) : Prop :=
  ∀ b, ¬ P b → byte_at s' b = byte_at s b ∧ prot_at s' b = prot_at s b.

Class MachLaws := {
  mach_posix_laws :: PosixLaws S;
  mach_page_pos : 0 < mach_page;
  nesting_bound s : Z.of_nat (nesting s) ≤ 2 ^ 32 - 1;
  region_recurse_law a depth s r s' :
    0 ≤ depth → mach_vm_region_recurse a depth s = (r, s') →
    same_view s s' ∧ nesting s' = nesting s ∧
    (rec_result r = INVALID_ADDRESS → ∀ b, a ≤ b → prot_at s b = None) ∧
    (rec_result r = SUCCESS →
      let start := rec_start r in
      let stop := start + rec_size r in
      if RegionInfo.is_submap (rec_info r) =? 0 then
        0 ≤ start ∧ a < stop ≤ usize_max ∧ start < stop ∧
        (mach_page | start) ∧ (mach_page | stop) ∧
        0 ≤ RegionInfo.protection (rec_info r) < 8 ∧
        (∀ b, start ≤ b < stop → prot_at s b = Some (RegionInfo.protection (rec_info r))) ∧
        (∀ b, a ≤ b < start → prot_at s b = None)
      else rec_depth r = depth ∧ depth < Z.of_nat (nesting s));
  read_overwrite_law a n s r stored copied s' :
    0 ≤ n → mach_vm_read_overwrite a n s = ((r, stored, copied), s') → same_view s s' ∧
    (r = SUCCESS → copied ≤ n ∧ copied = Z.of_nat (length stored) ∧ holds s a stored);
  mach_sysconf_law s r s' : mach_sysconf s = (r, s') → same_view s s' ∧ (0 ≤ r → r = mach_page);
  vm_protect_law a n prot s r s' :
    (mach_page | a) → (mach_page | n) → mach_vm_protect a n 0 prot s = (r, s') →
    same_bytes s s' ∧ (∀ b, ¬ a ≤ b < a + n → prot_at s' b = prot_at s b) ∧ still_mapped s s' ∧
    (r = SUCCESS → ∀ b, a ≤ b < a + n → prot_at s' b = Some (Z.land prot 7));
  remap_law target n source s r s' :
    (mach_page | target) → (mach_page | n) → (mach_page | source) →
    source + n ≤ target ∨ target + n ≤ source →
    mach_vm_remap target n 0 0x4000 source 0 1 s = (r, s') →
    changes (λ b, target ≤ b < target + n) s s' ∧
    (r = SUCCESS → ∀ k, 0 ≤ k < n →
      byte_at s' (target + k) = byte_at s (source + k) ∧
      prot_at s' (target + k) = prot_at s (source + k));
  mach_poke_law bytes a s :
    (∀ k, (k < length bytes)%nat →
      ∃ p, prot_at s (a + Z.of_nat k) = Some p ∧ can_write (S:=S) p = true) →
    same_prot s (mach_poke bytes a s) ∧ written s (mach_poke bytes a s) a bytes }.
End laws.
Arguments MachLaws : clear implicits.
Arguments MachLaws S {_}.

(** ** The laws of a platform *)

Lemma mach_check_Ok operation code : mach_check operation code = Ok tt ↔ code = SUCCESS.
Proof. unfold mach_check. destruct (Z.eqb_spec code SUCCESS); naive_solver. Qed.

Lemma mach_check_returns operation code : returns (mach_check operation code).
Proof. unfold mach_check. by destruct (_ =? _). Qed.

(** A permission of three bits. *)
Lemma small_prot (P : Z → Prop) p :
  0 ≤ p < 8 → Forall P [0; 1; 2; 3; 4; 5; 6; 7] → P p.
Proof. intros Hp. rewrite Forall_forall. intros Hall. apply Hall. set_unfold. lia. Qed.

Lemma prot_flags p :
  0 ≤ p < 8 →
  negb (Z.land p PROT_READ =? 0) = Z.testbit p 0 ∧ negb (Z.land p PROT_EXEC =? 0) = Z.testbit p 2.
Proof. intros Hp. pattern p. by apply small_prot; [|repeat constructor]. Qed.

(** The permission [macos_protect] sets. *)
Lemma protect_bits p (w : bool) :
  0 ≤ p < 8 →
  Z.land (Z.lor (to_signed 32 p) (if w then Z.lor PROT_WRITE COPY else 0)) 7 =
  if w then Z.lor p PROT_WRITE else p.
Proof. intros Hp. destruct w; pattern p; (apply small_prot; [done|by repeat constructor]). Qed.

Section macos.
Context {S : Type} `{!Mach S, !MachLaws S}.
Implicit Types s : S.

Lemma region_at_loop_run fuel a depth s0 s o s' :
  0 ≤ depth ≤ Z.of_nat (nesting s0) →
  Z.of_nat (nesting s0) - depth < Z.of_nat fuel →
  same_view s0 s → nesting s = nesting s0 →
  region_at_loop fuel a depth s = (o, s') →
  same_view s0 s' ∧
  match o with
  | Ok (Some r) =>
      region_ok s0 a r ∧ Region.readable r = Z.testbit (Region.protection r) 0 ∧
      Region.executable r = Z.testbit (Region.protection r) 2
  | Ok None => prot_at s0 a = None
  | Err e => ∃ code, e = Os "query memory" code
  | _ => False
  end.
Proof.
  revert depth s. induction fuel as [|fuel IH]; intros depth s Hd Hf Hv Hn;
    cbn [region_at_loop]; [lia|].
  destruct (mach_vm_region_recurse a depth s) as [r s1] eqn:Hr.
  apply region_recurse_law in Hr as (Hv1 & Hn1 & Hinv & Hok); [|lia].
  assert (same_view s0 s1) as Hv01 by (by etrans). destruct Hv as [_ Hp].
  destruct (Z.eqb_spec (rec_result r) INVALID_ADDRESS) as [Hi|Hi].
  { intros [= <- <-]. split; [done|]. rewrite <-Hp. apply (Hinv Hi). lia. }
  unfold mbind, M_bind, lift.
  destruct (mach_check "query memory" (rec_result r)) as [[]|e| |] eqn:Hc;
    try (by unfold mach_check in Hc; destruct (rec_result r =? SUCCESS)).
  2:{ intros [= <- <-]. split; [done|]. unfold mach_check in Hc.
      destruct (rec_result r =? SUCCESS); [done|]. injection Hc as <-. eauto. }
  apply mach_check_Ok in Hc. specialize (Hok Hc).
  destruct (RegionInfo.is_submap (rec_info r) =? 0); cbn [negb].
  - clear IH. destruct Hok as (? & ? & ? & ? & ? & Hprot & Hin & Hout).
    unfold checked_add. rewrite (proj2 (Z.leb_le _ _)) by lia.
    destruct (Z.ltb_spec a (rec_start r)), (Z.leb_spec (rec_start r + rec_size r) a); try lia;
      cbn [orb]; intros [= <- <-]; (split; [done|]).
    { rewrite <-Hp. apply Hout. lia. }
    rewrite Z.mod_small by lia. destruct (prot_flags _ Hprot) as [Hr Hx].
    split; [|by split]. unfold region_ok. cbn [Region.protection Region.start Region.stop].
    split; [lia|]. split; [lia|]. split_and!; [done..|]. intros b Hb. rewrite <-Hp. by apply Hin.
  - destruct Hok as [-> Hlt]. pose proof (nesting_bound s).
    rewrite (proj2 (Z.leb_le _ _)) by lia. apply IH; [lia|lia|done|congruence].
Qed.
Lemma macos_region_run a s o s' :
  macos_region_at a s = (o, s') →
  same_view s s' ∧
  match o with
  | Ok (Some r) =>
      region_ok s a r ∧ Region.readable r = Z.testbit (Region.protection r) 0 ∧
      Region.executable r = Z.testbit (Region.protection r) 2
  | Ok None => prot_at s a = None
  | Err e => ∃ code, e = Os "query memory" code
  | _ => False
  end.
Proof. apply region_at_loop_run; [lia|lia|reflexivity|done]. Qed.

Lemma macos_read_run a n s o s' :
  0 ≤ n → macos_read_bytes a n s = (o, s') →
  returns o ∧ same_view s s' ∧ ∀ bs, o = Ok bs → Z.of_nat (length bs) ≤ n ∧ holds s a bs.
Proof.
  intros Hn. unfold macos_read_bytes.
  destruct (mach_vm_read_overwrite a n s) as [[[r stored] copied] s1] eqn:Hr.
  apply read_overwrite_law in Hr as [Hv Hok]; [|done]. unfold mbind, M_bind, lift.
  destruct (mach_check "read memory" r) as [[]|e| |] eqn:Hc;
    try (pose proof (mach_check_returns "read memory" r) as Hret; by rewrite Hc in Hret);
    intros [= <- <-]; [|done].
  apply mach_check_Ok in Hc. destruct (Hok Hc) as (Hle & -> & Hh).
  split_and!; [done..|]. intros bs [= <-]. by rewrite Nat2Z.id, take_app_length.
Qed.

#[global] Instance macos_laws : PlatformLaws S.
Proof.
  split.
  - apply mach_page_pos.
  - intros p _. change (Z.testbit (Z.lor p PROT_WRITE) 1 = true). rewrite Z.lor_spec. apply orb_true_r.
  - intros a s o s' [Hv Ho]%macos_region_run. split_and!; [by destruct o|done|].
    intros r -> [Hr Hx]%andb_true_iff. destruct Ho as (Hok & Hread & Hexec).
    split; [done|]. change (Z.testbit (Region.protection r) 0 && Z.testbit (Region.protection r) 2 = true).
    by rewrite <-Hread, <-Hexec, Hr, Hx.
  - apply macos_read_run.
  - intros s o s'. simpl. unfold macos_page_size. destruct (mach_sysconf s) as [r s1] eqn:Hr.
    apply mach_sysconf_law in Hr as [Hv Hp].
    destruct (Z.ltb_spec r 0); intros [= <- <-]; split_and!; try done.
    intros p [= <-]. by apply Hp.
  - intros p w s o s' (Ha & Hl & Hok). simpl. unfold macos_protect.
    pose proof (protect_bits (PageRange.protection p) w Hok) as Hbits.
    destruct (mach_vm_protect _ _ _ _ s) as [r s1] eqn:Hr.
    apply vm_protect_law in Hr as (Hb & Hout & Hm & Hin); [|done..].
    intros [= <- <-]. split_and!; [apply mach_check_returns|done..|].
    intros Hc%mach_check_Ok b Hb'. etrans; [exact (Hin Hc b Hb')|]. rewrite Hbits. by destruct w.
  - intros a n s o s' [= <- <-]. split; [done|]. apply cache_flush_law.
  - intros bs a s o s' Hw [= <- <-]. split; [done|]. exact (mach_poke_law bs a s Hw).
  - discriminate.
Qed.
End macos.

(** [region_at] on macOS: it follows submaps to their end and comes back with
    the region that holds the address, whose pages all have its permission
    and whose flags are those of that permission; with nothing, if the
    address is not mapped; or with the error of the call.  Memory is as
    before. *)
Theorem macos_region_at_correct {S : Type} `{!Mach S, !MachLaws S} a (s : S) o s' :
  macos_region_at a s = (o, s') →
  same_view s s' ∧
  match o with
  | Ok (Some r) =>
      Region.start r ≤ a < Region.stop r ∧
      (∀ b, Region.start r ≤ b < Region.stop r → prot_at s b = Some (Region.protection r)) ∧
      Region.readable r = Z.testbit (Region.protection r) 0 ∧
      Region.executable r = Z.testbit (Region.protection r) 2
  | Ok None => prot_at s a = None
  | Err e => ∃ code, e = Os "query memory" code
  | _ => False
  end.
Proof.
  intros [Hv Ho]%macos_region_run. split; [done|]. destruct o as [[r|]| | |]; try done.
  destruct Ho as ((? & ? & _ & _ & _ & Hr) & ? & ?). split_and!; try done; lia.
Qed.

(** ** A small task: pages of 64 bytes inside one submap, and scripted failures
    of [mach_vm_remap] *)

Module Task.
Record t := Make { bytes : Z → Z; perms : Z → option Z; faults : list bool }.

Definition size : Z := 64.
Abbreviation set_range := (PageTable.set size).
Abbreviation all_pages := (PageTable.all size).
Abbreviation aligned_range := (PageTable.aligned size).

Definition info (protection is_submap : Z) : RegionInfo.t :=
  RegionInfo.Make protection 7 1 0 0 0 0 0 0 0 0 0 0 is_submap 0 0 0 0.
Definition set_perms (p : Z → option Z) (s : t) : t := Make (bytes s) p (faults s).

(** Where new mappings go. *)
Definition slots : list Z := (λ i, 2 ^ 30 + i * 2 ^ 20) <$> seqZ 0 8.
Definition free_slot (n : Z) (s : t) : option Z :=
  if (n <=? 2 ^ 20) && (n mod size =? 0)
  then List.find (λ a, all_pages (negb ∘ PageTable.mapped) a n (perms s)) slots
  else None.

#[global] Instance posix : Posix t := {
  mmap hint n s :=
    match free_slot n s with
    | Some a => (a, Make (λ b, if (a <=? b) && (b <? a + n) then 0 else bytes s b)
                      (set_range a n (Some 3) (perms s)) (faults s))
    | None => (MAP_FAILED, s)
    end;
  mprotect a n prot s :=
    if aligned_range a n && all_pages PageTable.mapped a n (perms s)
    then (0, set_perms (set_range a n (Some prot) (perms s)) s) else (-1, s);
  munmap a n s :=
    if aligned_range a n then (0, set_perms (set_range a n None (perms s)) s) else (-1, s);
  cache_flush _ _ s := s;
  errno _ := 12 }.

#[global] Instance mach : Mach t := {
  mach_posix := posix;
  mach_vm_region_recurse a depth s :=
    let start := a / size * size in
    (match perms s (a / size) with
     | Some p =>
         if (0 <=? a) && (start + size <=? usize_max) && (0 <=? p) && (p <? 8) then
           if depth =? 0 then mkRecursed SUCCESS 0 (2 ^ 40) 0 (info 7 1)
           else mkRecursed SUCCESS start size 1 (info p 0)
         else mkRecursed 5 0 0 0 (info 0 0)
     | None => mkRecursed 5 0 0 0 (info 0 0)
     end, s);
  mach_vm_read_overwrite a n s :=
    ((SUCCESS, (λ k, if perms s ((a + k) / size) then bytes s (a + k) else 0) <$> seqZ 0 n, n), s);
  mach_sysconf s := (size, s);
  mach_vm_protect a n maximum prot s :=
    if aligned_range a n && all_pages PageTable.mapped a n (perms s)
    then (SUCCESS, set_perms (set_range a n (Some (Z.land prot 7)) (perms s)) s) else (2, s);
  mach_vm_remap target n mask flags source copy inheritance s :=
    match faults s with
    | true :: faults =>
        (3, Make (bytes s) (set_range target n None (perms s)) faults)
    | _ =>
        (SUCCESS, Make
          (λ b, if (target <=? b) && (b <? target + n) then bytes s (b - target + source) else bytes s b)
          (λ q, if PageTable.in_range size target n q
                then perms s (q - target / size + source / size) else perms s q)
          (tail (faults s)))
    end;
  mach_poke bs a s :=
    Make (λ b, if (a <=? b) && (b <? a + Z.of_nat (length bs))
               then default 0 (bs !! Z.to_nat (b - a)) else bytes s b) (perms s) (faults s);
  mach_bytes := bytes;
  mach_prots s a := perms s (a / size);
  nesting _ := 1%nat;
  mach_page := size }.

Lemma size_pos : 0 < size.
Proof. done. Qed.

Lemma set_prot a n p s :
  (size | a) → (size | n) →
  (∀ b, a ≤ b < a + n → prot_at (set_perms (set_range a n p (perms s)) s) b = p) ∧
  ∀ b, ¬ a ≤ b < a + n → prot_at (set_perms (set_range a n p (perms s)) s) b = prot_at s b.
Proof.
  intros Ha Hn. split; intros b Hb; simpl;
    [by apply (PageTable.set_in _ size_pos)|by apply (PageTable.set_out _ size_pos)].
Qed.

(** Setting the permission of mapped pages. *)
Lemma protect_pages a n p s :
  (size | a) → (size | n) → all_pages PageTable.mapped a n (perms s) = true →
  let s' := set_perms (set_range a n (Some p) (perms s)) s in
  same_bytes s s' ∧ (∀ b, ¬ a ≤ b < a + n → prot_at s' b = prot_at s b) ∧ still_mapped s s' ∧
  ∀ b, a ≤ b < a + n → prot_at s' b = Some p.
Proof.
  intros Ha Hn Hall s'. destruct (set_prot a n (Some p) s Ha Hn) as [Hin Hout]. fold s' in Hin, Hout.
  assert (∀ b, is_Some (prot_at s' b) ↔ is_Some (prot_at s b)) as Hm.
  { intros b. destruct (decide (a ≤ b < a + n)) as [Hb|Hb]; [|by rewrite Hout].
    rewrite Hin by done. pose proof (PageTable.all_spec _ size_pos _ _ _ _ _ Ha Hn Hall Hb) as Hs.
    simpl. destruct (perms s (b / size)); split; intros; eauto. done. }
  split_and!; [|done|by intros b ?%Hm|done].
  intros b. specialize (Hm b). simpl in Hm |- *.
  destruct (set_range a n (Some p) (perms s) (b / size)), (perms s (b / size)); try done;
    exfalso; destruct Hm as [H1 H2]; [by destruct H1 as [? ?]|by destruct H2 as [? ?]].
Qed.

Lemma slots_ok a : a ∈ slots → 0 < a ∧ a + 2 ^ 20 ≤ isize_max ∧ (size | a) ∧ a ≠ MAP_FAILED.
Proof.
  intros (i & -> & Hi%elem_of_seqZ)%list_elem_of_fmap.
  unfold isize_max, MAP_FAILED, usize_max. split_and!; [lia|lia| |lia].
  exists (2 ^ 24 + i * 2 ^ 14). unfold size. lia.
Qed.

#[global] Instance posix_laws : PosixLaws t.
Proof.
  split.
  - by exists 256.
  - done.
  - intros s b Hb. simpl in Hb |- *. by rewrite Hb.
  - intros a n prot s r s' Ha Hn _. simpl.
    destruct (aligned_range a n && all_pages PageTable.mapped a n (perms s)) eqn:Hc;
      intros [= <- <-].
    + apply andb_true_iff in Hc as [_ Hall].
      destruct (protect_pages a n prot s Ha Hn Hall) as (? & ? & ? & ?).
      split_and!; [done..|by intros _].
    + split_and!; try done; by intros b.
  - intros a n prot s r s' Ha. simpl. destruct (aligned_range a n) eqn:Hc.
    { by apply (PageTable.aligned_spec _ size_pos) in Hc as [? _]. }
    intros [= <- <-]. split; [done|reflexivity].
  - intros a n s. reflexivity.
  - intros hint n s r s' Hpos Hn. cbn [mmap mach_posix mach posix]. unfold free_slot.
    rewrite (proj2 (Z.mod_divide n size ltac:(done)) Hn).
    destruct (Z.leb_spec n (2 ^ 20)) as [Hle|]; cbn [andb];
      [destruct (List.find _ slots) as [a|] eqn:Hf|]; intros [= <- <-]; try (rewrite Z.eqb_refl; reflexivity).
    apply find_some in Hf as [Hin%list_elem_of_In Hfree].
    destruct (slots_ok a Hin) as (? & ? & Ha & Hne). rewrite (proj2 (Z.eqb_neq a MAP_FAILED)) by done.
    split_and!; [done|lia|done|..].
    + intros b Hb. split; [|by apply (PageTable.set_in _ size_pos)].
      pose proof (PageTable.all_spec _ size_pos _ _ _ _ _ Ha Hn Hfree Hb) as Hs. simpl in Hs |- *.
      by destruct (perms s (b / size)).
    + intros b Hb. pose proof (PageTable.set_out _ size_pos a n (Some 3) (perms s) b Ha Hn Hb) as Hs.
      simpl. rewrite Hs. replace ((a <=? b) && (b <? a + n)) with false by lia. done.
  - intros a n s r s' Hn. simpl. destruct (aligned_range a n) eqn:Hc; intros [= <- <-]; [|change (same_view s s); reflexivity].
    apply (PageTable.aligned_spec _ size_pos) in Hc as [Ha _].
    destruct (set_prot a n None s Ha Hn) as [Hin Hout]. simpl (0 =? 0). split; [done|].
    intros b Hb. specialize (Hout b Hb). split; [|done]. simpl in Hout |- *. by rewrite Hout.
Qed.

(** The page that is mapped at [target + k]. *)
Lemma remapped_page target source k :
  (size | target) → (size | source) →
  (target + k) / size - target / size + source / size = (source + k) / size.
Proof.
  intros [q ->] [m ->]. rewrite !(Z.add_comm _ k), !Z.div_add, !Z.div_mul by done. lia.
Qed.

Lemma remap_ok target n source s r s' :
  (size | target) → (size | n) → (size | source) →
  mach_vm_remap target n 0 0x4000 source 0 1 s = (r, s') →
  changes (λ b, target ≤ b < target + n) s s' ∧
  (r = SUCCESS → ∀ k, 0 ≤ k < n →
    byte_at s' (target + k) = byte_at s (source + k) ∧
    prot_at s' (target + k) = prot_at s (source + k)).
Proof.
  intros Ht Hn Hs. cbn [mach_vm_remap mach].
  assert (∀ b, PageTable.in_range size target n (b / size) = true ↔ target ≤ b < target + n) as Hin.
  { intros b. by apply (PageTable.in_range_spec _ size_pos). }
  destruct (faults s) as [|[] rest]; intros [= <- <-]; (split; [intros b Hb|]); try done.
  all: try (rewrite <-Hin, not_true_iff_false in Hb; simpl; unfold PageTable.set; rewrite Hb;
    replace ((target <=? b) && (b <? target + n)) with false
      by (symmetry; apply not_true_iff_false; intros H; apply not_true_iff_false in Hb;
          apply Hb, Hin; lia); done).
  all: intros _ k Hk; simpl; rewrite (proj2 (Hin (target + k))) by lia;
    rewrite (remapped_page target source k Ht Hs);
    replace ((target <=? target + k) && (target + k <? target + n)) with true by lia;
    replace (target + k - target + source) with (source + k) by lia; done.
Qed.

#[global] Instance laws : MachLaws t.
Proof.
  split.
  - apply _.
  - done.
  - done.
  - intros a depth s r s' Hd [= <- <-]. split_and!; [reflexivity|done|..].
    + intros Hr. exfalso. revert Hr. by repeat case_match.
    + pose proof (PageTable.page_of size size_pos a) as Hpage.
      destruct (perms s (a / size)) as [p|] eqn:Hp; [|done].
      destruct (_ && _ && _ && _) eqn:Hc; [|done]. rewrite !andb_true_iff in Hc.
      destruct Hc as (((? & ?) & ?) & ?).
      destruct (Z.eqb_spec depth 0) as [->|]; [done|]. intros _.
      cbn [rec_result rec_start rec_size rec_info info RegionInfo.is_submap RegionInfo.protection Z.eqb].
      assert (0 ≤ a / size) by (apply Z.div_pos; [lia|done]).
      assert (∀ b, a / size * size ≤ b < a / size * size + size → perms s (b / size) = Some p) as Hb.
      { intros b Hb. by rewrite (PageTable.same_page _ size_pos a b Hb). }
      assert (0 ≤ a / size * size) by (apply Z.mul_nonneg_nonneg; done).
      split; [done|]. split; [lia|]. split; [unfold size; lia|].
      split; [apply Z.divide_factor_r|].
      split; [apply Z.divide_add_r; [apply Z.divide_factor_r|done]|].
      split; [lia|]. split; [done|]. intros b Hb'. lia.
  - intros a n s r stored copied s' Hn [= <- <- <- <-]. split; [reflexivity|]. intros _.
    rewrite length_fmap, length_seqZ. split_and!; [lia|lia|].
    intros k b (x & -> & [-> ?]%lookup_seqZ)%list_lookup_fmap_Some. done.
  - intros s r s' [= <- <-]. by split; [reflexivity|].
  - intros a n prot s r s' Ha Hn. simpl.
    destruct (aligned_range a n && all_pages PageTable.mapped a n (perms s)) eqn:Hc;
      intros [= <- <-].
    + apply andb_true_iff in Hc as [_ Hall].
      destruct (protect_pages a n (Z.land prot 7) s Ha Hn Hall) as (? & ? & ? & ?).
      split_and!; [done..|by intros _].
    + split_and!; try done; by intros b.
  - intros target n source s r s' Ht Hn Hs _. by apply remap_ok.
  - intros bs a s Hw. split; [by intros b|]. split.
    + intros k b Hk. pose proof (lookup_lt_Some _ _ _ Hk).
      destruct (Hw k) as (p & Hp & _); [done|]. simpl in Hp |- *. rewrite Hp.
      replace ((a <=? a + Z.of_nat k) && (a + Z.of_nat k <? a + Z.of_nat (length bs))) with true by lia.
      replace (Z.to_nat (a + Z.of_nat k - a)) with k by lia. by rewrite Hk.
    + intros b Hb. simpl. replace ((a <=? b) && (b <? a + Z.of_nat (length bs))) with false by lia.
      done.
Qed.

(** Two pages of code at [128]. *)
Definition demo (faults : list bool) : t :=
  Make (λ b, b mod 256) (λ q, if (q =? 2) || (q =? 3) then Some 5 else None) faults.
End Task.

Lemma macos_region_at_correct_witness :
  ∃ r, macos_region_at 130 (Task.demo []) = (Ok (Some r), Task.demo []) ∧
    Region.start r ≤ 130 < Region.stop r ∧ Region.executable r = true.
Proof.
  destruct (macos_region_at 130 (Task.demo [])) as [o s'] eqn:H.
  pose proof (macos_region_at_correct _ _ _ _ H) as [_ Hr].
  vm_compute in H. injection H as <- <-.
  eexists. split; [reflexivity|]. split; [exact (proj1 Hr)|reflexivity].
Defined.
