(* ===== verification/MacosRemap.v ===== *)
(** * Patching code on Apple Silicon ([src/src/memory/macos/remap.rs])

    Code pages are never writable there: a patch is staged in images of the
    pages, which are then mapped over them ([replace_pages]).  The write is a
    transaction. *)

From S2P Require Import Prelude Errors Memory Executable UnixPages MacosMemory.

#[local] Open Scope Z_scope.
#[local] Set Default Proof Using "Type*".

Module Image.
Record t := Make { address : Z; length : Z }.
End Image.

Section remap.
Context {S : Type} `{!Mach S}.

(** [Image::release], [Drop for Image]. *)
Definition image_release (image : Image.t) : M Error S unit := λ s,
  let '(result, s) := munmap (Image.address image) (Image.length image) s in
  if negb (result =? 0) then os_error "release patch" s else (Ok tt, s).
Definition image_drop (image : Image.t) : M Error S unit := finish (image_release image).

(** [Image::new]. *)
Definition image_new (bytes : list Z) (protection : Z) : M Error S Image.t := λ s,
  let len := Z.of_nat (length bytes) in
  let '(pointer, s) := mmap 0 len s in
  if pointer =? MAP_FAILED then os_error "allocate patch" s else
  let image := Image.Make pointer len in
  let s := mach_poke bytes pointer s in
  let '(result, s) := mprotect pointer len (to_signed 32 protection) s in
  if negb (result =? 0) then
    (error ← attempt (os_error "seal patch"); image_drop image;; lift error) s
  else (Ok image, cache_flush (Image.address image) (Image.length image) s).

(** [Image::install]: [VM_FLAGS_OVERWRITE], no copy, [VM_INHERIT_COPY]. *)
Definition image_install (image : Image.t) (address : Z) : M Error S unit := λ s,
  let '(result, s) :=
    mach_vm_remap address (Image.length image) 0 0x4000 (Image.address image) 0 1 s in
  (mach_check "protect memory" result, s).

(** Images that go out of scope. *)
Fixpoint drop_images (images : list Image.t) : M Error S unit :=
  match images with
  | [] => mret tt
  | image :: images => image_drop image;; drop_images images
  end.

(** [m?] while [images] are in scope. *)
Definition or_drop_images {A} (images : list Image.t) (m : M Error S A) : M Error S A :=
  r ← attempt m;
  match r with
  | Ok x => mret x
  | Err error => drop_images images;; throw error
  | Panic message => drop_images images;; panic message
  | Abort => abort
  end.

(** The page with the part of the replacement that lies in it. *)
Definition splice (address : Z) (replacement : list Z) (stop : Z) (page : PageRange.t)
    (bytes : list Z) : result (list Z) :=
  let start := Z.max address (PageRange.address page) in
  page_stop ← expect "attempt to add with overflow"
    (checked_add (PageRange.address page) (PageRange.length page));
  let limit := Z.min stop page_stop in
  i ← sub start (PageRange.address page);
  j ← sub limit (PageRange.address page);
  _ ← slice bytes (Z.to_nat i) (Z.to_nat j);
  k ← sub start address;
  l ← sub limit address;
  part ← slice replacement (Z.to_nat k) (Z.to_nat l);
  if negb (Z.of_nat (length part) =? j - i)
  then Panic "copy_from_slice: source slice length does not match destination slice length"
  else store_slice bytes (Z.to_nat i) part.

Definition entry : Type := Z * Image.t * Image.t.
Definition entry_images (e : entry) : list Image.t := let '(_, original, updated) := e in [original; updated].

(** The loop that stages the pages, one round and all; [held] are the images
    of the rounds before. *)
Definition stage_page (address : Z) (replacement : list Z) (stop : Z) (held : list Image.t)
    (page : PageRange.t) : M Error S entry :=
  bytes ← or_drop_images held (macos_read_bytes (PageRange.address page) (PageRange.length page));
  if negb (Z.of_nat (length bytes) =? PageRange.length page)
  then drop_images held;; throw InvalidRange else
  original ← or_drop_images held (image_new bytes (PageRange.protection page));
  updated ← or_drop_images (original :: held)
    (bytes ← lift (splice address replacement stop page bytes);
     image_new bytes (PageRange.protection page));
  mret (PageRange.address page, original, updated).

Fixpoint stage (address : Z) (replacement : list Z) (stop : Z) (images : list entry)
    (pages : list PageRange.t) : M Error S (list entry) :=
  match pages with
  | [] => mret images
  | page :: pages =>
      e ← stage_page address replacement stop (images ≫= entry_images) page;
      stage address replacement stop (images ++ [e]) pages
  end.

(** One image is mapped over its page. *)
Definition swap (image : Image.t) (page : Z) : M Error S unit :=
  image_install image page;; macos_flush page (Image.length image).

(** The rollback: the originals go back, the last first. *)
Fixpoint restore_images (images : list entry) : M Error S unit :=
  match images with
  | [] => mret tt
  | (page, original, _) :: images => or_fatal (swap original page);; restore_images images
  end.

(** The loop that installs; [done] is [images[..index]]. *)
Fixpoint install_images (done images : list entry) : M Error S unit :=
  match images with
  | [] => mret tt
  | (page, original, updated) :: images =>
      r ← attempt (swap updated page);
      match r with
      | Ok _ => install_images (done ++ [(page, original, updated)]) images
      | Err error => restore_images (reverse (done ++ [(page, original, updated)]));; throw error
      | Panic message => panic message
      | Abort => abort
      end
  end.

(** [stage_and_install]. *)
Definition stage_and_install (address : Z) (replacement : list Z) (pages : list PageRange.t)
  : M Error S unit :=
  stop ← lift (expect "attempt to add with overflow"
    (checked_add address (Z.of_nat (length replacement))));
  images ← stage address replacement stop [] pages;
  r ← attempt (install_images [] images);
  match r with
  | Abort => abort
  | r => drop_images (images ≫= entry_images);; lift r
  end.

(** [replace_pages]. *)
Definition replace_pages (address : Z) (replacement : list Z) (pages : list PageRange.t)
  : M Error S unit := stage_and_install address replacement pages.

(** The platform of an [aarch64] build: [replace_pages] ends [replace], and
    [protect] and [flush], which that build leaves out, are not called. *)
Definition macos_arm64_platform : Platform S := {|
  region_at := macos_region_at;
  read_bytes := macos_read_bytes;
  page_size := macos_page_size;
  protect := macos_protect;
  flush := macos_flush;
  copy := copy;
  remap_pages := Some replace_pages |}.

(** [memory::write] on Apple Silicon. *)
Definition macos_arm64_write : Z → list Z → list Z → M Error S unit :=
  @write S macos_arm64_platform.
End remap.

(** ** Images *)

Definition in_image (i : Image.t) (b : Z) : Prop :=
  Image.address i ≤ b < Image.address i + Image.length i.
Definition claimed (images : list Image.t) (b : Z) : Prop := Exists (λ i, in_image i b) images.

#[local] Instance in_image_dec i b : Decision (in_image i b).
Proof. unfold in_image. apply _. Defined.
#[local] Instance claimed_dec images b : Decision (claimed images b).
Proof. unfold claimed. apply _. Defined.

Lemma claimed_cons i l b : claimed (i :: l) b ↔ in_image i b ∨ claimed l b.
Proof. apply Exists_cons. Qed.

Section images.
Context {S : Type} `{!Mach S, !MachLaws S}.
Implicit Types s : S.

(** At [b], [s'] is as [s]. *)
Definition alike (s s' : S) (b : Z) : Prop :=
  byte_at s' b = byte_at s b ∧ prot_at s' b = prot_at s b.

Lemma alike_trans s1 s2 s3 b : alike s1 s2 b → alike s2 s3 b → alike s1 s3 b.
Proof. intros [] []. split; congruence. Qed.

Lemma same_view_at s s' b : same_view s s' → alike s s' b.
Proof. intros [Hb Hp]. split; [apply Hb|apply Hp]. Qed.

Lemma alike_view s s' : (∀ b, alike s s' b) → same_view s s'.
Proof. intros Ha. split; intros b; apply Ha. Qed.

Lemma unmapped_alike s s' b : prot_at s b = None → prot_at s' b = None → alike s s' b.
Proof. intros H1 H2. split; [by rewrite !unmapped_byte|by rewrite H1, H2]. Qed.

(** An image made of whole pages. *)
Definition whole (i : Image.t) : Prop := (mach_page | Image.address i) ∧ (mach_page | Image.length i).

Lemma image_drop_run i s o s' :
  whole i → image_drop i s = (o, s') →
  o = Abort ∨ o = Ok tt ∧ changes (in_image i) s s' ∧ ∀ b, in_image i b → prot_at s' b = None.
Proof.
  intros [_ Hl]. unfold image_drop, finish, or_fatal, mbind, M_bind, attempt, image_release.
  destruct (munmap _ _ s) as [r s1] eqn:Hm. apply munmap_law in Hm; [|done].
  destruct (Z.eqb_spec r 0); intros [= <- <-]; [right|by left]. by destruct Hm.
Qed.

(** A new image: fresh memory with the bytes and the permission, or nothing
    changed. *)
Lemma image_new_run bytes p s o s' :
  bytes ≠ [] → (mach_page | Z.of_nat (length bytes)) → 0 ≤ p < 8 →
  image_new bytes p s = (o, s') →
  match o with
  | Ok i =>
      Image.length i = Z.of_nat (length bytes) ∧ whole i ∧
      (∀ b, in_image i b → prot_at s b = None) ∧ changes (in_image i) s s' ∧
      holds s' (Image.address i) bytes ∧ ∀ b, in_image i b → prot_at s' b = Some p
  | Err _ => same_view s s'
  | Panic _ => False
  | Abort => True
  end.
Proof.
  intros Hne Hl Hp. unfold image_new. set (len := Z.of_nat (length bytes)) in *.
  assert (0 < len) as Hpos by (destruct bytes; [done|subst len; simpl; lia]).
  destruct (mmap 0 len s) as [a s1] eqn:Hm. apply mmap_law in Hm; [|done..].
  destruct (a =? MAP_FAILED); [by intros [= <- <-]|]. destruct Hm as (? & ? & Ha & Hin & Hout).
  destruct (mach_poke_law bytes a s1) as [Hp2 [Hh2 Hb2]].
  { intros k Hk. eexists. split; [apply Hin; lia|done]. }
  set (s2 := mach_poke bytes a s1) in *.
  assert (to_signed 32 p = p) as -> by (pattern p; apply small_prot; [done|by repeat constructor]).
  destruct (mprotect a len p s2) as [r s3] eqn:Hr.
  apply mprotect_law in Hr as (Hb3 & Hout3 & _ & Hin3); [|done..].
  assert (changes (λ b, a ≤ b < a + len) s s3) as Hc.
  { intros b Hb. rewrite Hb3, Hout3, Hb2, Hp2 by done. by apply Hout. }
  destruct (Z.eqb_spec r 0) as [->|Hr]; cbn [negb].
  - intros [= <- <-]. destruct (cache_flush_law a len s3) as [Hb4 Hp4]. cbn [Image.address Image.length].
    split_and!; [done|done|by intros b Hb; apply Hin|..].
    + intros b Hb. rewrite Hb4, Hp4. by apply Hc.
    + intros k x Hk. rewrite Hb4, Hb3. by apply Hh2.
    + intros b Hb. rewrite Hp4. by apply Hin3.
  - unfold mbind, M_bind, attempt, os_error. destruct (image_drop _ s3) as [o4 s4] eqn:H4.
    apply image_drop_run in H4 as [->|(-> & Hc4 & Hn4)]; [by intros [= <- <-]| |done].
    intros [= <- <-]. apply alike_view. intros b.
    destruct (decide (in_image (Image.Make a len) b)) as [Hb|Hb].
    + apply unmapped_alike; [by apply Hin|by apply Hn4].
    + eapply alike_trans; [by apply Hc|by apply Hc4].
Qed.

(** ** Held images *)

(** Images of memory that was free in [s0], none of which overlap. *)
Record held (s0 : S) (images : list Image.t) : Prop := {
  held_whole i : i ∈ images → whole i;
  held_new i b : i ∈ images → in_image i b → prot_at s0 b = None;
  held_apart i j b : i ∈ images → j ∈ images → in_image i b → in_image j b → i = j;
  held_nodup : NoDup images }.

Lemma held_perm s0 l l' : l ≡ₚ l' → held s0 l → held s0 l'.
Proof.
  intros Hl [H1 H2 H3 H4]. split; [..|by rewrite <-Hl]; intros *; rewrite <-!Hl; eauto.
Qed.

Lemma held_cons s0 i l :
  held s0 (i :: l) → whole i ∧ held s0 l ∧ ∀ b, in_image i b → ¬ claimed l b.
Proof.
  intros [H1 H2 H3 [Hi H4]%NoDup_cons]. split_and!; [apply H1; by left|..].
  - split; [..|done]; intros *; eauto using list_elem_of_further.
  - intros b Hb (j & Hj & Hbj)%Exists_exists. apply Hi.
    by rewrite (H3 i j b ltac:(by left) ltac:(by right) Hb Hbj).
Qed.

(** Dropping them gives their memory back. *)
Lemma drop_images_run s0 l s o s' :
  held s0 l → drop_images l s = (o, s') →
  o = Abort ∨ o = Ok tt ∧ changes (claimed l) s s' ∧ ∀ b, claimed l b → alike s0 s' b.
Proof.
  revert s. induction l as [|i l IH]; intros s Hh.
  { intros [= <- <-]. right. split_and!; [done|done|by intros b ?%Exists_nil]. }
  pose proof (held_cons _ _ _ Hh) as (Hw & Hl & Hap).
  cbn [drop_images]. unfold mbind, M_bind.
  destruct (image_drop i s) as [o1 s1] eqn:H1.
  apply image_drop_run in H1 as [->|(-> & Hc1 & Hn1)]; [intros [= <- <-]; by left| |done].
  intros H2. apply IH in H2 as [->|(-> & Hc2 & Ha2)]; [by left|right|done].
  split_and!; [done|..].
  - intros b Hb. rewrite claimed_cons in Hb.
    eapply alike_trans; [apply Hc1; naive_solver|apply Hc2; naive_solver].
  - intros b Hb. destruct (decide (claimed l b)) as [Hl'|Hl']; [by apply Ha2|].
    apply claimed_cons in Hb as [Hb|]; [|done]. destruct (Hc2 b Hl') as [_ Hp2].
    apply unmapped_alike; [apply (held_new _ _ Hh i); [by left|done]|by rewrite Hp2, Hn1].
Qed.
End images.

(** ** Staging *)

Section staging.
Context {S : Type} `{!Mach S, !MachLaws S}.
Implicit Types s : S.
Context (s0 : S) (a : Z) (replacement : list Z).
Abbreviation n := (Z.of_nat (length replacement)).

(** The byte at [b] after the write. *)
Definition patched (b : Z) : Z :=
  if decide (a ≤ b < a + n) then default 0 (replacement !! Z.to_nat (b - a)) else byte_at s0 b.

(** A page range of the write. *)
Definition page_good (p : PageRange.t) : Prop :=
  page_aligned (S:=S) p ∧ (∀ b, in_page p b → prot_at s0 b = Some (PageRange.protection p)) ∧
  meets a n p.

(** The page with its part of the replacement; no index is out of bounds. *)
Lemma splice_run p bytes :
  page_good p → length bytes = Z.to_nat (PageRange.length p) →
  holds s0 (PageRange.address p) bytes →
  ∃ bytes', splice a replacement (a + n) p bytes = Ok bytes' ∧ length bytes' = length bytes ∧
    ∀ k x, bytes' !! k = Some x → x = patched (PageRange.address p + Z.of_nat k).
Proof.
  intros (_ & _ & Hpos & Hmax & x & Hx & Hin) Hlen Hh. unfold in_page in Hin. unfold splice.
  set (pa := PageRange.address p) in *. set (pl := PageRange.length p) in *.
  set (start := Z.max a pa). set (limit := Z.min (a + n) (pa + pl)).
  assert (start ≤ x < limit) as Hsl by lia.
  unfold checked_add. rewrite (proj2 (Z.leb_le _ _)) by lia. cbn [expect mbind outcome_bind].
  fold limit. rewrite !sub_run by lia. cbn [mbind outcome_bind].
  unfold slice. rewrite !(proj2 (Nat.leb_le _ _)) by lia. cbn [andb mbind outcome_bind].
  set (part := take _ (drop _ replacement)).
  assert (length part = Z.to_nat (limit - start)) as Hpart.
  { unfold part. rewrite length_take, length_drop. lia. }
  replace (Z.of_nat (length part) =? limit - pa - (start - pa)) with true by lia. cbn [negb].
  unfold store_slice. rewrite (proj2 (Nat.leb_le _ _)) by lia.
  eexists. split; [done|].
  split; [apply length_inserts|]. intros k y Hk. unfold patched.
  assert (k < length bytes)%nat as Hlt by (rewrite <-(length_inserts _ (Z.to_nat (start - pa)) part);
    by eapply lookup_lt_Some).
  destruct (decide (a ≤ pa + Z.of_nat k < a + n)) as [Hb|Hb].
  - rewrite list_lookup_inserts in Hk by lia. unfold part in Hk.
    rewrite lookup_take_lt, lookup_drop in Hk by lia.
    replace (Z.to_nat (start - a) + (k - Z.to_nat (start - pa)))%nat
      with (Z.to_nat (pa + Z.of_nat k - a)) in Hk by lia. by rewrite Hk.
  - destruct (decide (k < Z.to_nat (start - pa))%nat) as [Hl|Hl];
      [rewrite list_lookup_inserts_lt in Hk by lia|rewrite list_lookup_inserts_ge in Hk by lia];
      by rewrite (Hh _ _ Hk).
Qed.

(** The images that are held, all of them mapped; nothing else changed. *)
Record holding s (l : list Image.t) : Prop := {
  holding_held : held s0 l;
  holding_rest : changes (claimed l) s0 s;
  holding_live i b : i ∈ l → in_image i b → is_Some (prot_at s b) }.

Lemma holding_nil s : same_view s0 s → holding s [].
Proof.
  intros Hv. split; [|by intros b _; apply same_view_at|by intros ? ? ?%not_elem_of_nil].
  split; [set_solver..|constructor].
Qed.

Lemma holding_perm s l l' : l ≡ₚ l' → holding s l → holding s l'.
Proof.
  intros Hl [Hh Hr Hm]. split; [by eapply held_perm|..].
  - intros b Hb. apply Hr. unfold claimed in *. by rewrite Hl.
  - intros i b Hi. apply Hm. by rewrite Hl.
Qed.

Lemma holding_view s s' l : same_view s s' → holding s l → holding s' l.
Proof.
  intros Hv [Hh Hr Hm]. split; [done|..].
  - intros b Hb. eapply alike_trans; [by apply Hr|by apply same_view_at].
  - intros i b Hi Hb. destruct Hv as [_ Hv]. rewrite Hv. eauto.
Qed.

Lemma holding_drop s l o s' :
  holding s l → drop_images l s = (o, s') → o = Abort ∨ o = Ok tt ∧ same_view s0 s'.
Proof.
  intros [Hh Hr _] [->|(-> & Hc & Ha)]%(drop_images_run s0); [by left|right|done].
  split; [done|]. apply alike_view. intros b.
  destruct (decide (claimed l b)); [by apply Ha|].
  eapply alike_trans; [by apply Hr|by apply Hc].
Qed.

(** A new image is apart from those that are held. *)
Lemma holding_add s s' i l :
  holding s l → whole i → 0 < Image.length i → (∀ b, in_image i b → prot_at s b = None) →
  changes (in_image i) s s' → (∀ b, in_image i b → is_Some (prot_at s' b)) → holding s' (i :: l).
Proof.
  intros [[Hw Hn Ha Hd] Hr Hm] Hi Hpos Hfree Hc Hlive.
  assert (∀ b, in_image i b → ¬ claimed l b) as Hap.
  { intros b Hb (j & Hj & Hbj)%Exists_exists. destruct (Hm j b Hj Hbj) as [p Hp].
    by rewrite Hfree in Hp. }
  split; [split|..].
  - intros j [->|Hj]%elem_of_cons; eauto.
  - intros j b [->|Hj]%elem_of_cons Hb; [|by eauto].
    destruct (Hr b (Hap b Hb)) as [_ <-]. by apply Hfree.
  - intros j k b [->|Hj]%elem_of_cons [->|Hk]%elem_of_cons Hbj Hbk; [done|..|by eauto];
      exfalso; eapply (Hap b); try done; apply Exists_exists; eauto.
  - constructor; [|done]. intros Hin.
    apply (Hap (Image.address i)); [unfold in_image; lia|].
    apply Exists_exists. exists i. split; [done|unfold in_image; lia].
  - intros b Hb. rewrite claimed_cons in Hb.
    eapply alike_trans; [apply Hr; naive_solver|apply Hc; naive_solver].
  - intros j b [->|Hj]%elem_of_cons Hb; [by apply Hlive|].
    destruct (decide (in_image i b)) as [Hbi|Hbi]; [by apply Hlive|].
    destruct (Hc b Hbi) as [_ ->]. eauto.
Qed.

(** An image of the page [p] with the bytes [f]. *)
Definition shows s (i : Image.t) (p : PageRange.t) (f : Z → Z) : Prop :=
  whole i ∧ Image.length i = PageRange.length p ∧
  ∀ k, 0 ≤ k < PageRange.length p →
    byte_at s (Image.address i + k) = f (PageRange.address p + k) ∧
    prot_at s (Image.address i + k) = Some (PageRange.protection p).

Definition entry_ok s (p : PageRange.t) (e : entry) : Prop :=
  let '(address, original, updated) := e in
  address = PageRange.address p ∧ shows s original p (byte_at s0) ∧ shows s updated p patched.

Lemma shows_stable s s' (P : Z → Prop) i p f :
  shows s i p f → changes P s s' → (∀ b, in_image i b → ¬ P b) → shows s' i p f.
Proof.
  intros (Hw & Hl & Hs) Hc Hap. split_and!; [done..|]. intros k Hk.
  destruct (Hc (Image.address i + k)) as [-> ->]; [|by apply Hs].
  apply Hap. unfold in_image. lia.
Qed.

Lemma shows_new s s' i p f j :
  shows s i p f → changes (in_image j) s s' → (∀ b, in_image j b → prot_at s b = None) →
  shows s' i p f.
Proof.
  intros Hs Hc Hfree. eapply shows_stable; [done..|]. intros b Hb Hj.
  destruct Hs as (_ & Hl & Hs). unfold in_image in Hb.
  destruct (Hs (b - Image.address i)) as [_ Hp]; [lia|].
  replace (Image.address i + (b - Image.address i)) with b in Hp by lia. by rewrite Hfree in Hp.
Qed.

(** Staging one image of a page. *)
Lemma image_new_shows s l bytes p f o s' :
  holding s l → page_good p → length bytes = Z.to_nat (PageRange.length p) →
  (∀ k x, bytes !! k = Some x → x = f (PageRange.address p + Z.of_nat k)) →
  image_new bytes (PageRange.protection p) s = (o, s') →
  match o with
  | Ok i => holding s' (i :: l) ∧ shows s' i p f ∧
      ∀ j q g, shows s j q g → shows s' j q g
  | Err _ => same_view s s'
  | Panic _ => False
  | Abort => True
  end.
Proof.
  intros Hh ((_ & Hal & Hok) & _ & Hpos & _ & x & _ & Hin) Hlen Hf Hrun. unfold in_page in Hin.
  apply image_new_run in Hrun; [|by intros ->; simpl in Hlen; lia|rewrite Hlen, Z2Nat.id by lia; done|done].
  destruct o as [i|e| |]; [|done..]. destruct Hrun as (Hl & Hw & Hfree & Hc & Hb & Hp).
  split_and!.
  - apply (holding_add s); [done|done|lia|done|done|]. intros b Hbi. by rewrite Hp.
  - split_and!; [done|lia|]. intros k Hk. split; [|apply Hp; unfold in_image; lia].
    destruct (lookup_lt_is_Some_2 bytes (Z.to_nat k)) as [y Hy]; [lia|].
    pose proof (Hb _ _ Hy) as Hby. rewrite Z2Nat.id in Hby by lia.
    rewrite Hby, (Hf _ _ Hy). by rewrite Z2Nat.id by lia.
  - intros j q g Hj. by eapply shows_new.
Qed.

Lemma or_drop_images_run {A} l (m : M Error S A) s o s' :
  (∀ e s1, m s = (Err e, s1) → holding s1 l) → (∀ message, (m s).1 ≠ Panic message) →
  or_drop_images l m s = (o, s') →
  (∃ x, m s = (Ok x, s') ∧ o = Ok x) ∨ o = Abort ∨ ∃ e, o = Err e ∧ same_view s0 s'.
Proof.
  intros Herr Hpanic. unfold or_drop_images, mbind, M_bind, attempt.
  destruct (m s) as [o1 s1] eqn:Hm. destruct o1 as [x|e|message|]; simpl.
  - intros [= <- <-]. eauto.
  - destruct (drop_images l s1) as [o2 s2] eqn:Hd.
    apply holding_drop in Hd as [->|[-> Hv]]; [..|by eapply Herr]; intros [= <- <-]; eauto.
  - by destruct (Hpanic message).
  - intros [= <- <-]. auto.
Qed.

Lemma entries_kept s s' done images :
  (∀ j q g, shows s j q g → shows s' j q g) →
  Forall2 (entry_ok s) done images → Forall2 (entry_ok s') done images.
Proof.
  intros Hkeep Hall. eapply Forall2_impl; [exact Hall|].
  intros p [[? original] updated] (? & ? & ?). split_and!; eauto.
Qed.

Lemma shows_view s s' j q g : same_view s s' → shows s j q g → shows s' j q g.
Proof.
  intros Hv Hs. eapply (shows_stable s s' (λ _, False)); [done| |by intros b _ []].
  intros b _. by apply same_view_at.
Qed.

(** What one round of the loop stages. *)
Lemma stage_page_run l p s o s' :
  holding s l → page_good p → stage_page a replacement (a + n) l p s = (o, s') →
  match o with
  | Ok e => holding s' (entry_images e ++ l) ∧ entry_ok s' p e ∧
      ∀ j q g, shows s j q g → shows s' j q g
  | Err _ => same_view s0 s'
  | Panic _ => False
  | Abort => True
  end.
Proof.
  intros Hh Hp. unfold stage_page.
  pose proof Hp as (_ & Hprot & _ & _ & x & _ & Hin). unfold in_page in Hin.
  unfold mbind at 1, M_bind at 1.
  destruct (or_drop_images l (macos_read_bytes _ _) s) as [o1 s1] eqn:H1.
  destruct (macos_read_bytes (PageRange.address p) (PageRange.length p) s) as [ob sb] eqn:Hb.
  destruct (macos_read_run (PageRange.address p) (PageRange.length p) s ob sb ltac:(lia) Hb) as (Hret & Hv & Hok).
  apply or_drop_images_run in H1 as [(bytes & Hbytes & ->)|[->|(e & -> & ?)]];
    [|by intros [= <- <-]..|rewrite Hb; intros e s2 [= -> <-]; by eapply holding_view
     |intros m; rewrite Hb; by destruct ob].
  rewrite Hb in Hbytes. injection Hbytes as -> ->. destruct (Hok _ eq_refl) as [_ Hhold].
  assert (holding s1 l) as Hh1 by (by eapply holding_view).
  destruct (Z.eqb_spec (Z.of_nat (length bytes)) (PageRange.length p)) as [Hlen|]; cbn [negb].
  2:{ unfold mbind, M_bind. destruct (drop_images l s1) as [o2 s2] eqn:H2.
      apply holding_drop in H2 as [->|[-> ?]]; [by intros [= <- <-]..|done]. }
  assert (holds s0 (PageRange.address p) bytes) as Hbytes.
  { intros k y Hk. rewrite <-(Hhold _ _ Hk). symmetry. apply (holding_rest _ _ Hh).
    intros (i & Hi & Hbi)%Exists_exists. pose proof (lookup_lt_Some _ _ _ Hk).
    pose proof (held_new _ _ (holding_held _ _ Hh) i _ Hi Hbi) as Hnone.
    rewrite Hprot in Hnone; [done|]. unfold in_page. lia. }
  assert (∀ k y, bytes !! k = Some y → y = byte_at s0 (PageRange.address p + Z.of_nat k)) as Hsame.
  { intros k y Hk. symmetry. by apply Hbytes. }
  unfold mbind at 1, M_bind at 1.
  destruct (or_drop_images l (image_new bytes _) s1) as [o2 s2] eqn:H2.
  destruct (image_new bytes (PageRange.protection p) s1) as [oi si] eqn:Hi.
  pose proof (image_new_shows s1 l bytes p _ oi si Hh1 Hp ltac:(lia) Hsame Hi) as Hnew.
  apply or_drop_images_run in H2 as [(original & Ho & ->)|[->|(e & -> & ?)]];
    [|by intros [= <- <-]..|rewrite Hi; intros e s3 [= -> <-]; by eapply holding_view
     |intros m; rewrite Hi; by destruct oi].
  rewrite Hi in Ho. injection Ho as -> ->. destruct Hnew as (Hh2 & Hs2 & Hk2).
  destruct (splice_run p bytes Hp ltac:(lia) Hbytes) as (bytes' & Hsplice & Hlen' & Hnewb).
  unfold mbind at 1, M_bind at 1.
  destruct (or_drop_images (original :: l) _ s2) as [o3 s3] eqn:H3.
  set (m := bytes ← lift _; image_new bytes _) in H3.
  assert (m s2 = image_new bytes' (PageRange.protection p) s2) as Hm.
  { unfold m, mbind, M_bind, lift. by rewrite Hsplice. }
  destruct (image_new bytes' (PageRange.protection p) s2) as [ou su] eqn:Hu.
  pose proof (image_new_shows s2 (original :: l) bytes' p _ ou su Hh2 Hp ltac:(lia) Hnewb Hu) as Hnew.
  apply or_drop_images_run in H3 as [(updated & Ho & ->)|[->|(e & -> & ?)]];
    [|by intros [= <- <-]..|rewrite Hm; intros e s4 [= -> <-]; by eapply holding_view
     |intros m'; rewrite Hm; by destruct ou].
  rewrite Hm in Ho. injection Ho as -> ->. destruct Hnew as (Hh3 & Hs3 & Hk3).
  intros [= <- <-]. split_and!.
  - eapply holding_perm; [|exact Hh3]. simpl. by constructor.
  - split_and!; [done|by apply Hk3|done].
  - intros j q g Hj. apply Hk3, Hk2. by eapply shows_view.
Qed.

Lemma stage_run done images pages s o s' :
  holding s (images ≫= entry_images) → Forall2 (entry_ok s) done images →
  Forall page_good pages → stage a replacement (a + n) images pages s = (o, s') →
  match o with
  | Ok images' =>
      holding s' (images' ≫= entry_images) ∧ Forall2 (entry_ok s') (done ++ pages) images'
  | Err _ => same_view s0 s'
  | Panic _ => False
  | Abort => True
  end.
Proof.
  revert done images s. induction pages as [|p pages IH]; intros done images s Hh Hall Hgood.
  { intros [= <- <-]. by rewrite app_nil_r. }
  apply Forall_cons in Hgood as [Hp Hgood]. cbn [stage]. unfold mbind at 1, M_bind at 1.
  destruct (stage_page a replacement (a + n) (images ≫= entry_images) p s) as [o1 s1] eqn:H1.
  apply stage_page_run in H1; [|done..].
  destruct o1 as [e|e| |]; try done; [|by intros [= <- <-]|by intros [= <- <-]].
  destruct H1 as (Hh1 & He & Hkeep). intros Hrun.
  replace (done ++ p :: pages) with ((done ++ [p]) ++ pages) by (by rewrite <-app_assoc).
  eapply IH; [| |done|exact Hrun].
  - eapply holding_perm; [|exact Hh1]. rewrite bind_app. simpl. rewrite app_nil_r.
    apply Permutation_app_comm.
  - apply Forall2_app; [by eapply entries_kept|by constructor].
Qed.

(** ** Installing *)

#[local] Instance page_dec p b : Decision (in_page p b).
Proof using Type. unfold in_page. apply _. Defined.
#[local] Instance pages_dec pages b : Decision (covered pages b).
Proof using Type. unfold covered. apply _. Defined.

Lemma swap_run i p f s o s' :
  shows s i p f → page_good p → (∀ b, in_image i b → ¬ in_page p b) →
  swap i (PageRange.address p) s = (o, s') →
  returns o ∧ changes (in_page p) s s' ∧
  (o = Ok tt → ∀ b, in_page p b → byte_at s' b = f b ∧ prot_at s' b = Some (PageRange.protection p)).
Proof.
  intros ([Hwa Hwl] & Hl & Hs) ((Hpa & _ & _) & _ & _ & _ & x & _ & Hx) Hap.
  assert (Image.address i + PageRange.length p ≤ PageRange.address p ∨
    PageRange.address p + PageRange.length p ≤ Image.address i) as Hdis.
  { pose proof (Hap (Z.max (Image.address i) (PageRange.address p))) as H.
    unfold in_image, in_page in *. lia. }
  unfold swap, mbind, M_bind, image_install. rewrite Hl in *.
  destruct (mach_vm_remap _ _ _ _ _ _ _ s) as [r s1] eqn:Hr.
  apply remap_law in Hr as [Hc Hok]; [|done..].
  destruct (mach_check "protect memory" r) as [[]|e| |] eqn:Hcheck;
    try (pose proof (mach_check_returns "protect memory" r) as Hret; by rewrite Hcheck in Hret).
  2:{ intros [= <- <-]. by split_and!. }
  apply mach_check_Ok in Hcheck. intros [= <- <-].
  destruct (cache_flush_law (PageRange.address p) (PageRange.length p) s1) as [Hfb Hfp].
  split_and!; [done|..].
  - intros b Hb. rewrite Hfb, Hfp. by apply Hc.
  - intros _ b Hb. rewrite Hfb, Hfp. unfold in_page in Hb.
    destruct (Hok Hcheck (b - PageRange.address p)) as [Hb1 Hp1]; [lia|].
    destruct (Hs (b - PageRange.address p)) as [Hb2 Hp2]; [lia|].
    replace (PageRange.address p + (b - PageRange.address p)) with b in * by lia.
    split; congruence.
Qed.

Section install.
Context (l : list Image.t) (Hheld : held s0 l).

(** Images never lie in the pages of the write. *)
Lemma image_apart i p b : i ∈ l → page_good p → in_image i b → ¬ in_page p b.
Proof.
  intros Hi (_ & Hprot & _) Hb Hp. pose proof (held_new _ _ Hheld i b Hi Hb) as Hn.
  by rewrite Hprot in Hn.
Qed.

Lemma page_unclaimed p b : page_good p → in_page p b → ¬ claimed l b.
Proof. intros Hp Hb (i & Hi & Hbi)%Exists_exists. by eapply image_apart. Qed.

(** Entries whose images are held. *)
Definition ours s (p : PageRange.t) (e : entry) : Prop :=
  page_good p ∧ entry_ok s p e ∧ ∀ i, i ∈ entry_images e → i ∈ l.

Lemma ours_kept s s' q pages images :
  page_good q → changes (in_page q) s s' →
  Forall2 (ours s) pages images → Forall2 (ours s') pages images.
Proof.
  intros Hq Hc Hall. eapply Forall2_impl; [exact Hall|].
  intros p [[? original] updated] (Hp & (? & Ho & Hu) & Hin).
  assert (∀ i, i ∈ l → ∀ b, in_image i b → ¬ in_page q b) as Hap
    by (intros; by eapply image_apart).
  split_and!; try done; (split_and!; [done|..]); eapply shows_stable; try done; apply Hap, Hin;
    set_solver.
Qed.

(** Putting the originals back over the pages that may have changed. *)
Lemma restore_images_run dirty images s o s' :
  Forall2 (ours s) dirty images →
  (∀ b, ¬ claimed l b → ¬ covered dirty b → alike s0 s b) →
  restore_images images s = (o, s') →
  o = Abort ∨ o = Ok tt ∧ ∀ b, ¬ claimed l b → alike s0 s' b.
Proof.
  revert dirty s. induction images as [|[[page original] updated] images IH]; intros dirty s Hall Hd.
  { apply Forall2_nil_inv_r in Hall as ->. intros [= <- <-]. right. split; [done|].
    intros b Hb. apply Hd; [done|]. apply covered_nil. }
  apply Forall2_cons_inv_r in Hall as (p & dirty' & (Hp & (-> & Ho & _) & Hin) & Hall & ->).
  cbn [restore_images]. unfold or_fatal, mbind, M_bind, attempt.
  destruct (swap original (PageRange.address p) s) as [o1 s1] eqn:H1.
  eapply swap_run in H1 as (Hret & Hc & Hok);
    [|done|done|intros b; apply image_apart; [apply Hin; set_solver|done]].
  destruct o1 as [[]|e| |]; try done; [|intros [= <- <-]; by left].
  intros Hrun. eapply IH; [by eapply ours_kept| |exact Hrun].
  intros b Hb Hnd. destruct (decide (in_page p b)) as [Hbp|Hbp].
  - destruct (Hok eq_refl b Hbp) as [Hb1 Hp1]. destruct Hp as (_ & Hprot & _).
    split; [done|]. by rewrite Hprot.
  - eapply alike_trans; [|by apply Hc]. apply Hd; [done|].
    rewrite covered_cons. naive_solver.
Qed.

(** The pages of [done] hold the patched bytes, everything else is as
    before. *)
Definition installed_pages s (done : list PageRange.t) : Prop :=
  ∀ b, ¬ claimed l b →
    byte_at s b = (if decide (covered done b) then patched b else byte_at s0 b) ∧
    prot_at s b = prot_at s0 b.

Lemma install_images_run done todo before images s o s' :
  Forall2 (ours s) done before → Forall2 (ours s) todo images → installed_pages s done →
  install_images before images s = (o, s') →
  match o with
  | Ok _ => installed_pages s' (done ++ todo)
  | Err _ => ∀ b, ¬ claimed l b → alike s0 s' b
  | Panic _ => False
  | Abort => True
  end.
Proof.
  revert done todo before s. induction images as [|[[page original] updated] images IH];
    intros done todo before s Hdone Htodo Hin.
  { apply Forall2_nil_inv_r in Htodo as ->. intros [= <- <-]. by rewrite app_nil_r. }
  apply Forall2_cons_inv_r in Htodo as (p & todo' & Hours & Htodo & ->).
  pose proof Hours as (Hp & (-> & Ho & Hu) & Hl).
  cbn [install_images]. unfold mbind, M_bind, attempt.
  destruct (swap updated (PageRange.address p) s) as [o1 s1] eqn:H1.
  eapply swap_run in H1 as (Hret & Hc & Hok);
    [|done|done|intros b; apply image_apart; [apply Hl; set_solver|done]].
  assert (Forall2 (ours s1) (done ++ [p]) (before ++ [(PageRange.address p, original, updated)])) as Hdone1.
  { eapply ours_kept; [done..|]. apply Forall2_app; [done|by constructor]. }
  assert (∀ b, covered (done ++ [p]) b ↔ covered done b ∨ in_page p b) as Hcov.
  { intros b. by rewrite covered_app, covered_one. }
  destruct o1 as [[]|e| |]; try done.
  - replace (done ++ p :: todo') with ((done ++ [p]) ++ todo') by (by rewrite <-app_assoc).
    apply IH; [done|by eapply ours_kept|]. intros b Hb. specialize (Hcov b).
    destruct (decide (in_page p b)) as [Hbp|Hbp].
    + destruct (Hok eq_refl b Hbp) as [-> ->]. destruct Hp as (_ & Hprot & _).
      rewrite Hprot by done. rewrite decide_True by naive_solver. done.
    + destruct (Hc b Hbp) as [-> ->]. destruct (Hin b Hb) as [-> ->]. split; [|done].
      repeat case_decide; naive_solver.
  - destruct (restore_images _ s1) as [o2 s2] eqn:H2.
    eapply (restore_images_run (reverse (done ++ [p]))) in H2 as [->|[-> Hback]];
      [by intros [= <- <-]|by intros [= <- <-]|by apply Forall2_reverse|].
    intros b Hb Hnc. unfold covered in Hnc. rewrite reverse_Permutation in Hnc.
    change (¬ covered (done ++ [p]) b) in Hnc. rewrite Hcov in Hnc.
    eapply alike_trans; [|apply Hc; naive_solver]. destruct (Hin b Hb) as [Hb1 Hp1].
    split; [|done]. rewrite decide_False in Hb1 by naive_solver. done.
Qed.
End install.
End staging.

(** ** The transaction *)

Section write.
Context {S : Type} `{!Mach S, !MachLaws S}.
Implicit Types s : S.

(** Holding the patched bytes everywhere is having written the replacement. *)
Lemma patched_written a replacement s s' :
  (∀ b, byte_at s' b = patched s a replacement b ∧ prot_at s' b = prot_at s b) →
  written s s' a replacement ∧ same_prot s s'.
Proof.
  intros Hfinal. split; [split|].
  - intros k x Hk. destruct (Hfinal (a + Z.of_nat k)) as [-> _]. unfold patched.
    pose proof (lookup_lt_Some _ _ _ Hk). rewrite decide_True by lia.
    replace (Z.to_nat (a + Z.of_nat k - a)) with k by lia. by rewrite Hk.
  - intros b Hb. destruct (Hfinal b) as [-> _]. unfold patched. by rewrite decide_False.
  - intros b. apply Hfinal.
Qed.

Lemma stage_and_install_run a replacement pages s s1 o s' :
  pages_for s a (Z.of_nat (length replacement)) pages → same_view s s1 →
  stage_and_install a replacement pages s1 = (o, s') →
  match o with
  | Ok _ => written s s' a replacement ∧ same_prot s s'
  | Err _ => same_view s s'
  | Panic _ => False
  | Abort => True
  end.
Proof.
  intros (Hal & Hprot & Hcov & Hmeet & Hmax) Hv.
  assert (Forall (page_good s a replacement) pages) as Hgood.
  { rewrite !Forall_forall in *. intros p Hp. split_and!; eauto. }
  unfold stage_and_install, checked_add. rewrite (proj2 (Z.leb_le _ _)) by lia.
  unfold mbind, M_bind, lift. cbn [expect].
  destruct (stage a replacement (a + Z.of_nat (length replacement)) [] pages s1) as [o2 s2] eqn:H2.
  apply (stage_run s a replacement []) in H2;
    [|by apply holding_nil|constructor|done].
  destruct o2 as [images|e| |]; try done; [|by intros [= <- <-]|by intros [= <- <-]].
  destruct H2 as [[Hheld Hrest _] Hall]. simpl in Hall.
  set (l := images ≫= entry_images) in *.
  assert (Forall2 (ours s a replacement l s2) pages images) as Hours.
  { apply Forall2_same_length_lookup_2; [by eapply Forall2_length|].
    intros k p e Hp He. split_and!.
    - rewrite Forall_forall in Hgood. apply Hgood. by eapply list_elem_of_lookup_2.
    - by eapply Forall2_lookup_lr.
    - intros i Hi. apply list_elem_of_bind. exists e. split; [done|]. by eapply list_elem_of_lookup_2. }
  unfold attempt. destruct (install_images [] images s2) as [o3 s3] eqn:H3.
  apply (install_images_run s a replacement l Hheld [] pages) in H3; [|by constructor|done|].
  2:{ intros b Hb. destruct (Hrest b Hb) as [-> ->]. rewrite decide_False by apply covered_nil. done. }
  change (list_bind entry Image.t entry_images images) with l.
  assert (∀ b, ¬ claimed l b → alike s s3 b → ∀ s4, changes (claimed l) s3 s4 → alike s s4 b) as Hkeep.
  { intros b Hb Ha s4 Hc. eapply alike_trans; [exact Ha|by apply Hc]. }
  destruct o3 as [[]|e| |]; try done; [..|by intros [= <- <-]];
    destruct (drop_images l s3) as [o4 s4] eqn:H4;
    (apply (drop_images_run s) in H4; [|done]); destruct H4 as [->|(-> & Hc & Ha)];
    intros [= <- <-]; try done.
  - assert (∀ b, ¬ claimed l b → byte_at s4 b = byte_at s3 b ∧ prot_at s4 b = prot_at s3 b) as Hc4
      by exact Hc.
    apply patched_written. intros b. destruct (decide (claimed l b)) as [Hb|Hb].
    + destruct (Ha b Hb) as [-> ->]. split; [|done]. unfold patched. case_decide as Hin; [|done].
      destruct (Hcov b Hin) as (p & Hp & Hbp & _). rewrite Forall_forall in Hgood.
      by destruct (page_unclaimed _ _ _ _ Hheld p b (Hgood p Hp) Hbp).
    + destruct (Hc4 b Hb) as [-> ->]. destruct (H3 b Hb) as [-> ->]. split; [|done].
      case_decide as Hd; [done|]. unfold patched. case_decide as Hin; [|done].
      destruct (Hcov b Hin) as (p & Hp & Hbp & _). destruct Hd. apply Exists_exists. eauto.
  - apply alike_view. intros b. destruct (decide (claimed l b)) as [Hb|Hb]; [by apply Ha|].
    apply Hkeep; auto.
Qed.

(** The laws of [Memory] hold on Apple Silicon: what is not remapped is as on
    Intel, and the staged replacement is a transaction. *)
#[global] Instance macos_arm64_laws : @PlatformLaws S macos_arm64_platform _.
Proof.
  destruct macos_laws as [H1 H2 H3 H4 H5 H6 H7 H8 _].
  refine (Build_PlatformLaws _ macos_arm64_platform _ H1 H2 H3 H4 H5 H6 H7 H8 _).
  intros f a bs pages s s1 o s' [= <-] Hpages Hv Hrun. by eapply stage_and_install_run.
Qed.

(** C12. [memory::write] on Apple Silicon is a transaction.  [Ok]: the range held
    the expected bytes and now holds the replacement, no other byte and no
    permission changed, and no image is left.  [Err]: bytes and permissions
    are exactly as before, even when the system refused to map a page or a
    page was mapped already.  Otherwise the process is aborted, because a page
    could not be put back or an image not be given back; it never panics. *)
Theorem macos_write_transaction a expected replacement s o s' :
  macos_arm64_write a expected replacement s = (o, s') →
  match o with
  | Ok _ =>
      holds s a expected ∧ length expected = length replacement ∧
      written s s' a replacement ∧ same_prot s s'
  | Err _ => same_view s s'
  | Panic _ => False
  | Abort => True
  end.
Proof.
  unfold macos_arm64_write, write, replace. unfold mbind at 1, M_bind at 1.
  destruct (@prepare S macos_arm64_platform a expected replacement s) as [o1 s1] eqn:H1.
  apply (prepare_correct (Platform0:=macos_arm64_platform)) in H1 as (Hret & Hv & Hok).
  destruct o1 as [[original pages]|e| |]; try done; [|by intros [= <- <-]].
  destruct (Hok _ _ eq_refl) as (-> & Hlen & Hh & Hpages). rewrite Hlen in Hpages.
  intros Hrun. eapply stage_and_install_run in Hrun; [|done..]. destruct o; try done.
Qed.
End write.

(** A write over two pages; and one whose second page cannot be mapped. *)
Lemma macos_write_transaction_witness :
  (∃ s', macos_arm64_write 190 [190; 191; 192; 193] [1; 2; 3; 4] (Task.demo []) = (Ok tt, s') ∧
     written (Task.demo []) s' 190 [1; 2; 3; 4]) ∧
  (∃ e s', macos_arm64_write 190 [190; 191; 192; 193] [1; 2; 3; 4] (Task.demo [false; true]) =
     (Err e, s') ∧ same_view (Task.demo [false; true]) s').
Proof.
  split.
  - destruct (macos_arm64_write 190 [190; 191; 192; 193] [1; 2; 3; 4] (Task.demo [])) as [o s'] eqn:H.
    pose proof (macos_write_transaction _ _ _ _ _ _ H) as Ht.
    assert (o = Ok tt) as -> by (apply (f_equal fst) in H; vm_compute in H; symmetry; exact H).
    exists s'. split; [reflexivity|]. exact (proj1 (proj2 (proj2 Ht))).
  - destruct (macos_arm64_write 190 [190; 191; 192; 193] [1; 2; 3; 4] (Task.demo [false; true]))
      as [o s'] eqn:H.
    pose proof (macos_write_transaction _ _ _ _ _ _ H) as Ht.
    assert (o = Err (Os "protect memory" 3)) as ->
      by (apply (f_equal fst) in H; vm_compute in H; symmetry; exact H).
    exists (Os "protect memory" 3), s'. split; [reflexivity|exact Ht].
Defined.
