(* ===== verification/MacosPages.v ===== *)
(** * Trampoline pages on macOS ([src/src/executable/macos.rs])

    The page operations of [UnixPages] on the calls of [MacosMemory]: the
    platform of an Intel build has the laws of [Executable]; on Apple Silicon,
    which cannot map pages near the shared cache, a function may get a distant
    page. *)

From S2P Require Import Prelude Errors Memory Executable UnixPages MacosMemory MacosRemap.

#[local] Open Scope Z_scope.
#[local] Set Default Proof Using "Type*".

Section operations.
Context {S : Type} `{!Mach S}.

(** [macos::shadow_stack]. *)
Definition macos_shadow_stack : M Error S bool := mret false.

(** The platform of an [x86_64] build. *)
#[global] Instance macos_pages : Pages S := {
  allocate := unix_allocate REACH_x86_64;
  seal := unix_seal;
  release := unix_release;
  shadow_stack := macos_shadow_stack }.

(** The platform of an [aarch64] build, where no function is entered through a
    call bridge and nothing asks for the shadow stack. *)
Definition macos_arm64_pages : Pages S := {|
  allocate := unix_allocate_far REACH_aarch64;
  seal := unix_seal;
  release := unix_release;
  shadow_stack := mret false |}.

(** [Executable::near] on Apple Silicon. *)
Definition macos_arm64_near : Z → M Error S Executable.t :=
  @Executable.near S macos_arm64_pages.
End operations.

Section laws.
Context {S : Type} `{!Mach S, !MachLaws S}.
Implicit Types s : S.

#[global] Instance macos_pages_laws : PagesLaws S.
Proof.
  apply (unix_pages_laws REACH_x86_64); [by left|done..|].
  intros s o s' [= <- <-]. by split; [|reflexivity].
Qed.

#[global] Instance macos_arm64_pages_laws :
  @PagesLaws S macos_arm64_platform _ macos_arm64_pages.
Proof.
  apply (unix_pages_laws REACH_aarch64); [by right|done..|].
  intros s o s' [= <- <-]. by split; [|reflexivity].
Qed.

(** [Executable::near] on Apple Silicon hands out a new page, open for
    writing, and changes nothing else; the page is within reach of the
    function unless every page near it was refused, and then it may be
    anywhere in user space.  When it fails, nothing that was mapped changed. *)
Theorem macos_arm64_near_correct source s o s' :
  macos_arm64_near source s = (o, s') →
  match o with
  | Ok page =>
      let a := Executable.address page in
      0 < a ∧ a + CAPACITY ≤ isize_max ∧ unmapped_page s a ∧ open_page s' a ∧ confined a s s' ∧
      (Z.abs (a - source) ≤ REACH_aarch64 - CAPACITY ∨
       (unix_allocate REACH_aarch64 source s).1 = Err InsufficientSpace)
  | Err _ => keeps s s'
  | _ => False
  end.
Proof.
  unfold macos_arm64_near, Executable.near. destruct (_ || _); [by intros [= <- <-]|].
  cbn [allocate macos_arm64_pages]. unfold mbind, M_bind. destruct (unix_allocate_far _ source s) as [o1 s1] eqn:H1.
  apply unix_allocate_far_run in H1. destruct o1; try done; by intros [= <- <-].
Qed.
End laws.

Lemma macos_arm64_near_correct_witness :
  ∃ page s', macos_arm64_near 0x10000 (Task.demo []) = (Ok page, s') ∧
    open_page s' (Executable.address page) ∧
    confined (Executable.address page) (Task.demo []) s'.
Proof.
  destruct (macos_arm64_near 0x10000 (Task.demo [])) as [o s'] eqn:H.
  pose proof (macos_arm64_near_correct _ _ _ _ H) as Hn.
  assert (o = Ok (Executable.Make (2 ^ 30) false)) as ->
    by (apply (f_equal fst) in H; vm_compute in H; symmetry; exact H).
  eexists _, s'. split; [reflexivity|]. destruct Hn as (_ & _ & _ & Ho & Hc & _).
  split; [exact Ho|exact Hc].
Defined.
