(* ===== verification/WindowsMemory.v ===== *)
(** * Memory on Windows ([src/src/memory/windows.rs],
      [src/src/memory/windows/api.rs])

    The platform operations of a Windows build over the functions of
    [kernel32] ([Kernel32]), and that they have the laws [Memory] asks of a
    platform. *)

From S2P Require Import Prelude Errors Memory.

#[local] Open Scope Z_scope.
#[local] Set Default Proof Using "Type*".

(** ** [api.rs] *)

Definition MEM_COMMIT : Z := 0x1000.
Definition PAGE_READONLY : Z := 0x02.
Definition PAGE_READWRITE : Z := 0x04.
Definition PAGE_WRITECOPY : Z := 0x08.
Definition PAGE_EXECUTE_READ : Z := 0x20.
Definition PAGE_EXECUTE_READWRITE : Z := 0x40.
Definition PAGE_EXECUTE_WRITECOPY : Z := 0x80.
Definition PAGE_GUARD : Z := 0x100.

Module MemoryInfo.
Record t := Make {
  BaseAddress : Z;
  AllocationBase : Z;
  AllocationProtect : Z;
  PartitionId : Z;
  RegionSize : Z;
  State : Z;
  Protect : Z;
  Type_ : Z }.
End MemoryInfo.

Module SystemInfo.
Record t := Make {
  ProcessorArchitecture : Z;
  dwPageSize : Z;
  MinimumApplicationAddress : Z;
  MaximumApplicationAddress : Z;
  ActiveProcessorMask : Z;
  NumberOfProcessors : Z;
  ProcessorType : Z;
  AllocationGranularity : Z;
  ProcessorLevel : Z;
  ProcessorRevision : Z }.
End SystemInfo.

(** The functions the sources declare, with the process handle left out: each
    returns its result and what it stored through its pointers.  [poke] is
    [ptr::copy] to raw memory.  [contents] are the bytes of the process,
    [committed] the protection of a committed page, [allocated] the size of
    every live allocation by its base. *)
Class Kernel32 (S : Type) := {
  VirtualQuery : Z → S → (Z * MemoryInfo.t) * S;
  ReadProcessMemory : Z → Z → S → (Z * list Z * Z) * S;
  GetSystemInfo : S → SystemInfo.t * S;
  VirtualProtect : Z → Z → Z → S → (Z * Z) * S;
  FlushInstructionCache : Z → Z → S → Z * S;
  VirtualAlloc : Z → Z → Z → Z → S → Z * S;
  VirtualFree : Z → Z → Z → S → Z * S;
  GetProcessMitigationPolicy : Z → Z → S → (Z * Z) * S;
  GetLastError : S → Z;
  win_poke : list Z → Z → S → S;
  contents : S → Z → Z;
  committed : S → Z → option Z;
  allocated : S → gmap Z Z;
  page_length : Z }.

(** [matches!] on the low byte of a protection. *)
Definition is_readable (protection : Z) : bool :=
  bool_decide (protection ∈ [PAGE_READONLY; PAGE_READWRITE; PAGE_WRITECOPY;
    PAGE_EXECUTE_READ; PAGE_EXECUTE_READWRITE; PAGE_EXECUTE_WRITECOPY]).
Definition is_executable (protection : Z) : bool :=
  bool_decide (protection ∈ [PAGE_EXECUTE_READ; PAGE_EXECUTE_READWRITE; PAGE_EXECUTE_WRITECOPY]).

Section platform.
Context {S : Type} `{!Kernel32 S}.

(** [memory::os_error]. *)
Definition win_error {A} (operation : string) : M Error S A := λ s,
  (Err (Os operation (to_signed 32 (GetLastError s))), s).

Definition windows_region_at (address : Z) : M Error S (option Region.t) := λ s,
  let '((queried, information), s) := VirtualQuery address s in
  if queried =? 0 then win_error "query memory" s else
  let start := MemoryInfo.BaseAddress information in
  match checked_add start (MemoryInfo.RegionSize information) with
  | None => (Err InvalidRange, s)
  | Some stop =>
      let accessible := (MemoryInfo.State information =? MEM_COMMIT)
        && (Z.land (MemoryInfo.Protect information) PAGE_GUARD =? 0) in
      let protection := Z.land (MemoryInfo.Protect information) 0xff in
      (Ok (Some (Region.Make start stop (MemoryInfo.Protect information)
        (accessible && is_readable protection)
        (accessible && is_executable protection))), s)
  end.

Definition windows_read_bytes (address length : Z) : M Error S (list Z) := λ s,
  let '((result, stored, copied), s) := ReadProcessMemory address length s in
  if result =? 0 then win_error "read memory" s
  else
    let bytes := stored ++ drop (List.length stored) (replicate (Z.to_nat length) 0) in
    (Ok (take (Z.to_nat copied) bytes), s).

Definition windows_page_size : M Error S Z := λ s,
  let '(information, s) := GetSystemInfo s in (Ok (SystemInfo.dwPageSize information), s).

(** [!0xff] on [u32] is [0xffffff00]. *)
Definition windows_protect (page : PageRange.t) (writable : bool) : M Error S unit := λ s,
  let protection :=
    if writable then Z.lor (Z.land (PageRange.protection page) 0xffffff00) PAGE_EXECUTE_READWRITE
    else PageRange.protection page in
  let '((result, original), s) :=
    VirtualProtect (PageRange.address page) (PageRange.length page) protection s in
  if result =? 0 then win_error "protect memory" s else (Ok tt, s).

Definition windows_flush (address length : Z) : M Error S unit := λ s,
  let '(result, s) := FlushInstructionCache address length s in
  if result =? 0 then win_error "flush instruction cache" s else (Ok tt, s).

#[global] Instance windows_platform : Platform S := {
  region_at := windows_region_at;
  read_bytes := windows_read_bytes;
  page_size := windows_page_size;
  protect := windows_protect;
  flush := windows_flush;
  copy bytes address := modify (win_poke bytes address);
  remap_pages := None }.

(** Bytes and protections of the committed pages. *)
Definition unguarded (p : Z) : bool := Z.land p PAGE_GUARD =? 0.

#[global] Instance windows_view : View S := {
  byte_at s a := if committed s a then contents s a else 0;
  prot_at s a := committed s a;
  page := page_length;
  prot_ok p := 0 ≤ p < 2 ^ 32 ∧ unguarded p && is_executable (Z.land p 0xff) = true;
  with_write p := Z.lor (Z.land p 0xffffff00) PAGE_EXECUTE_READWRITE;
  can_write p := unguarded p && bool_decide (Z.land p 0xff ∈
    [PAGE_READWRITE; PAGE_WRITECOPY; PAGE_EXECUTE_READWRITE; PAGE_EXECUTE_WRITECOPY]);
  can_run p := unguarded p && is_executable (Z.land p 0xff) }.
End platform.

(** ** What the functions document

    A page has a protection exactly while it is committed.  [VirtualQuery]
    reports pages in one state with one protection, in user space; a range
    of whole pages is protected as a whole or, when the call fails, not
    outside itself; [VirtualAlloc] with [MEM_COMMIT | MEM_RESERVE] at an
    aligned address takes free pages there or none; [VirtualFree] with
    [MEM_RELEASE] gives back the whole allocation that starts at the
    address. *)
Section laws.
Context {S : Type} `{!Kernel32 S}.

Definition win_quiet (s s' : S) : Prop := same_view s s' ∧ allocated s' = allocated s.

Definition outside (a n : Z) (s s' : S) : Prop :=
  ∀ b, ¬ a ≤ b < a + n → byte_at s' b = byte_at s b ∧ prot_at s' b = prot_at s b.

Class Kernel32Laws := {
  page_length_pos : 0 < page_length;
  query_law a s r info s' :
    VirtualQuery a s = ((r, info), s') → win_quiet s s' ∧
    (r ≠ 0 →
      let start := MemoryInfo.BaseAddress info in
      let stop := start + MemoryInfo.RegionSize info in
      0 ≤ start ≤ a ∧ a < stop ≤ isize_max + 1 ∧
      (page_length | start) ∧ (page_length | stop) ∧
      0 ≤ MemoryInfo.Protect info < 2 ^ 32 ∧
      ∀ b, start ≤ b < stop → prot_at s b =
        if MemoryInfo.State info =? MEM_COMMIT then Some (MemoryInfo.Protect info) else None);
  read_memory_law a n s r stored copied s' :
    0 ≤ n → ReadProcessMemory a n s = ((r, stored, copied), s') → win_quiet s s' ∧
    (r ≠ 0 → copied ≤ n ∧ copied = Z.of_nat (length stored) ∧ holds s a stored);
  system_info_law s info s' :
    GetSystemInfo s = (info, s') → win_quiet s s' ∧ SystemInfo.dwPageSize info = page_length;
  virtual_protect_law a n prot s r old s' :
    (page_length | a) → (page_length | n) → prot_ok (S:=S) prot →
    VirtualProtect a n prot s = ((r, old), s') →
    same_bytes s s' ∧ allocated s' = allocated s ∧ still_mapped s s' ∧ outside a n s s' ∧
    (r ≠ 0 → ∀ b, a ≤ b < a + n → prot_at s' b = Some prot);
  flush_cache_law a n s r s' : FlushInstructionCache a n s = (r, s') → win_quiet s s';
  virtual_alloc a n s r s' :
    0 < a → (65536 | a) → 0 < n → (page_length | n) → VirtualAlloc a n 0x3000 0x04 s = (r, s') →
    if r =? 0 then win_quiet s s' else
      r = a ∧ a + n ≤ isize_max ∧ allocated s !! a = None ∧
      allocated s' = <[a := n]> (allocated s) ∧
      (∀ b, a ≤ b < a + n → prot_at s b = None ∧ prot_at s' b = Some PAGE_READWRITE) ∧
      outside a n s s';
  virtual_free a n s r s' :
    allocated s !! a = Some n → VirtualFree a 0 0x8000 s = (r, s') →
    if r =? 0 then win_quiet s s' else
      allocated s' = delete a (allocated s) ∧
      (∀ b, a ≤ b < a + n → prot_at s' b = None) ∧ outside a n s s';
  mitigation_policy_law policy n s r s' :
    GetProcessMitigationPolicy policy n s = (r, s') → win_quiet s s';
  win_poke_law bytes a s :
    (∀ k, (k < length bytes)%nat →
      ∃ p, prot_at s (a + Z.of_nat k) = Some p ∧ can_write (S:=S) p = true) →
    same_prot s (win_poke bytes a s) ∧ allocated (win_poke bytes a s) = allocated s ∧
    written s (win_poke bytes a s) a bytes }.
End laws.
Arguments Kernel32Laws : clear implicits.
Arguments Kernel32Laws S {_}.

(** ** The laws of a platform *)

Section windows.
Context {S : Type} `{!Kernel32 S, !Kernel32Laws S}.
Implicit Types s : S.

(** Setting [PAGE_EXECUTE_READWRITE] keeps the modifier bits. *)
Lemma with_write_byte p : Z.land (with_write (S:=S) p) 0xff = PAGE_EXECUTE_READWRITE.
Proof.
  simpl. rewrite Z.land_lor_distr_l, <-Z.land_assoc. change (Z.land 0xffffff00 0xff) with 0.
  by rewrite Z.land_0_r.
Qed.

Lemma with_write_guard p : Z.land (with_write (S:=S) p) PAGE_GUARD = Z.land p PAGE_GUARD.
Proof.
  simpl. rewrite Z.land_lor_distr_l, <-Z.land_assoc.
  change (Z.land 0xffffff00 PAGE_GUARD) with PAGE_GUARD. by rewrite Z.lor_0_r.
Qed.

Lemma with_write_range p : 0 ≤ p < 2 ^ 32 → 0 ≤ with_write (S:=S) p < 2 ^ 32.
Proof.
  intros Hp. simpl. split.
  - apply Z.lor_nonneg. split; [apply Z.land_nonneg; lia|done].
  - apply Z.log2_lt_cancel. rewrite Z.log2_pow2 by lia. rewrite Z.log2_lor.
    + pose proof (Z.log2_land p 0xffffff00 ltac:(lia) ltac:(lia)) as Hl.
      change (Z.log2 0xffffff00) with 31 in Hl. change (Z.log2 PAGE_EXECUTE_READWRITE) with 6. lia.
    + apply Z.land_nonneg. lia.
    + done.
Qed.

Lemma with_write_ok p : prot_ok (S:=S) p → prot_ok (S:=S) (with_write (S:=S) p).
Proof.
  intros [Hr Hp]. split; [by apply with_write_range|]. apply andb_true_iff in Hp as [Hg _].
  unfold unguarded in *. by rewrite with_write_guard, with_write_byte, Hg.
Qed.

(** The region of a query, and its flags. *)
Lemma windows_region_run a s o s' :
  windows_region_at a s = (o, s') →
  win_quiet s s' ∧
  match o with
  | Ok (Some r) =>
      0 ≤ Region.start r ≤ a ∧ a < Region.stop r ≤ isize_max + 1 ∧
      (page_length | Region.start r) ∧ (page_length | Region.stop r) ∧
      0 ≤ Region.protection r < 2 ^ 32 ∧
      ∃ commit : bool,
        (∀ b, Region.start r ≤ b < Region.stop r →
           prot_at s b = if commit then Some (Region.protection r) else None) ∧
        Region.readable r = commit && unguarded (Region.protection r) &&
          is_readable (Z.land (Region.protection r) 0xff) ∧
        Region.executable r = commit && unguarded (Region.protection r) &&
          is_executable (Z.land (Region.protection r) 0xff)
  | Err e => ∃ code, e = Os "query memory" code
  | _ => False
  end.
Proof.
  unfold windows_region_at. destruct (VirtualQuery a s) as [[r info] s1] eqn:Hq.
  apply query_law in Hq as [Hquiet Hinfo].
  destruct (Z.eqb_spec r 0) as [->|Hr]; [intros [= <- <-]; eauto|].
  destruct (Hinfo Hr) as (? & ? & ? & ? & ? & Hprot).
  unfold checked_add. rewrite (proj2 (Z.leb_le _ _)) by (unfold usize_max, isize_max in *; lia).
  intros [= <- <-]. split; [done|]. split_and!; try done; try (simpl; lia).
  exists (MemoryInfo.State info =? MEM_COMMIT). by split_and!.
Qed.

#[global] Instance windows_laws : PlatformLaws S.
Proof.
  split.
  - apply page_length_pos.
  - intros p [_ Hp]%with_write_ok. apply andb_true_iff in Hp as [Hg _].
    change (can_write (with_write (S:=S) p)) with (unguarded (with_write (S:=S) p) &&
      bool_decide (Z.land (with_write (S:=S) p) 0xff ∈
        [PAGE_READWRITE; PAGE_WRITECOPY; PAGE_EXECUTE_READWRITE; PAGE_EXECUTE_WRITECOPY])).
    by rewrite Hg, with_write_byte.
  - intros a s o s' [[Hv _] Ho]%windows_region_run.
    split_and!; [by destruct o|done|]. intros r -> [Hread Hexec]%andb_true_iff.
    destruct Ho as (? & ? & ? & ? & ? & commit & Hprot & _ & Hx). rewrite Hexec in Hx.
    destruct commit; [|done]. simpl in Hx.
    split; [|by symmetry]. split_and!; try done; try (unfold usize_max, isize_max in *; lia).
  - intros a n s o s' Hn. simpl. unfold windows_read_bytes.
    destruct (ReadProcessMemory a n s) as [[[r stored] copied] s1] eqn:Hr.
    apply read_memory_law in Hr as [[Hv _] Hok]; [|done].
    destruct (Z.eqb_spec r 0) as [->|Hne]; intros [= <- <-]; [done|].
    split_and!; [done..|]. intros bs [= <-]. destruct (Hok Hne) as (? & -> & Hh).
    rewrite Nat2Z.id, take_app_length. done.
  - intros s o s'. simpl. unfold windows_page_size.
    destruct (GetSystemInfo s) as [info s1] eqn:Hi. apply system_info_law in Hi as [[Hv _] Hp].
    intros [= <- <-]. split_and!; [done..|]. by intros p [= <-].
  - intros p w s o s' (Ha & Hl & Hok). simpl. unfold windows_protect.
    assert (prot_ok (S:=S) (if w then with_write (S:=S) (PageRange.protection p)
      else PageRange.protection p)) as Hok' by (destruct w; [by apply with_write_ok|done]).
    destruct (VirtualProtect _ _ _ s) as [[r old] s1] eqn:Hp.
    apply virtual_protect_law in Hp as (Hb & _ & Hm & Hout & Hin); [|done..].
    destruct (Z.eqb_spec r 0) as [->|Hne]; intros [= <- <-]; split_and!; try done.
    + intros b Hnb. by apply Hout.
    + intros b Hnb. by apply Hout.
    + intros _ b Hib. by apply Hin.
  - intros a n s o s'. simpl. unfold windows_flush.
    destruct (FlushInstructionCache a n s) as [r s1] eqn:Hf.
    apply flush_cache_law in Hf as [Hv _]. destruct (r =? 0); by intros [= <- <-].
  - intros bs a s o s' Hw [= <- <-]. destruct (win_poke_law bs a s Hw) as (? & _ & ?). done.
  - discriminate.
Qed.

(** [region_at] on Windows: it changes nothing; it comes back with the error
    of the query or with a region around the address, in which every page has
    the region's protection or none has one, and which is marked readable
    (executable) exactly when its pages are committed, carry no guard and
    their protection allows reading (executing and reading). *)
Theorem windows_region_at_correct a s o s' :
  windows_region_at a s = (o, s') →
  win_quiet s s' ∧
  match o with
  | Ok (Some r) =>
      Region.start r ≤ a < Region.stop r ∧
      ∃ commit : bool,
        (∀ b, Region.start r ≤ b < Region.stop r →
           prot_at s b = if commit then Some (Region.protection r) else None) ∧
        Region.readable r = commit && unguarded (Region.protection r) &&
          is_readable (Z.land (Region.protection r) 0xff) ∧
        Region.executable r = commit && can_run (S:=S) (Region.protection r)
  | Err e => ∃ code, e = Os "query memory" code
  | _ => False
  end.
Proof.
  intros [Hq Ho]%windows_region_run. split; [done|].
  destruct o as [[r|]| | |]; try done.
  destruct Ho as (? & ? & _ & _ & _ & commit & Hprot & Hr & Hx). split; [lia|].
  exists commit. split_and!; [done|done|]. by rewrite Hx, <-andb_assoc.
Qed.
End windows.

(** ** A small Windows process *)

Module Process.
Record t := Make { bytes : Z → Z; perms : Z → option Z; allocs : gmap Z Z }.

Abbreviation set_range := (PageTable.set 4096).
Abbreviation all_pages := (PageTable.all 4096).
Abbreviation aligned_range := (PageTable.aligned 4096).
Abbreviation some := PageTable.mapped.

Definition info (q size state protect : Z) : MemoryInfo.t :=
  MemoryInfo.Make (q * 4096) 0 0 0 size state protect 0.
Definition valid (p : Z) : bool := (0 <=? p) && (p <? 2 ^ 32).

#[global] Instance kernel32 : Kernel32 t := {
  VirtualQuery a s :=
    let q := a / 4096 in
    let fail := ((0, info 0 0 0 0), s) in
    if (0 <=? a) && (a <? 2 ^ 47) then
      match perms s q with
      | Some p => if valid p then ((48, info q 4096 MEM_COMMIT p), s) else fail
      | None =>
          let size := if all_pages (negb ∘ some) (q * 4096) 16384 (perms s) then 16384 else 4096 in
          ((48, info q size 0x10000 0), s)
      end
    else fail;
  ReadProcessMemory a n s :=
    ((1, (λ k, if perms s ((a + k) / 4096) then bytes s (a + k) else 0) <$> seqZ 0 n, n), s);
  GetSystemInfo s := (SystemInfo.Make 9 4096 0 0 1 1 0 65536 6 0, s);
  VirtualProtect a n prot s :=
    if aligned_range a n && all_pages some a n (perms s) then
      ((1, default 0 (perms s (a / 4096))), Make (bytes s) (set_range a n (Some prot) (perms s)) (allocs s))
    else ((0, 0), s);
  FlushInstructionCache a n s := (1, s);
  VirtualAlloc a n kind prot s :=
    if aligned_range a n && (a + n <=? isize_max) && all_pages (negb ∘ some) a n (perms s)
       && negb (bool_decide (is_Some (allocs s !! a))) && negb (a =? 0) then
      (a, Make (λ b, if (a <=? b) && (b <? a + n) then 0 else bytes s b)
            (set_range a n (Some prot) (perms s)) (<[a := n]> (allocs s)))
    else (0, s);
  VirtualFree a size kind s :=
    match allocs s !! a with
    | Some n => if aligned_range a n then
                  (1, Make (bytes s) (set_range a n None (perms s)) (delete a (allocs s)))
                else (0, s)
    | None => (0, s)
    end;
  GetProcessMitigationPolicy policy n s := ((1, 0), s);
  GetLastError s := 487;
  win_poke bs a s :=
    Make (λ b, if (a <=? b) && (b <? a + Z.of_nat (length bs))
               then default 0 (bs !! Z.to_nat (b - a)) else bytes s b) (perms s) (allocs s);
  contents := bytes;
  committed s a := perms s (a / 4096);
  allocated := allocs;
  page_length := 4096 }.

(** Changing the protection of a range of whole pages. *)
Lemma set_range_prot a n p s f l :
  (4096 | a) → (4096 | n) →
  (∀ b, a ≤ b < a + n → prot_at (Make f (set_range a n p (perms s)) l) b = p) ∧
  ∀ b, ¬ a ≤ b < a + n → prot_at (Make f (set_range a n p (perms s)) l) b = prot_at s b.
Proof. intros Ha Hn. split; intros b Hb; simpl; [by apply PageTable.set_in|by apply PageTable.set_out]. Qed.

(** The page of an address is reported with its protection, free pages four at a time. *)
Lemma process_query a s r i s' :
  VirtualQuery a s = ((r, i), s') → win_quiet s s' ∧
  (r ≠ 0 →
    let start := MemoryInfo.BaseAddress i in
    let stop := start + MemoryInfo.RegionSize i in
    0 ≤ start ≤ a ∧ a < stop ≤ isize_max + 1 ∧
    (page_length | start) ∧ (page_length | stop) ∧
    0 ≤ MemoryInfo.Protect i < 2 ^ 32 ∧
    ∀ b, start ≤ b < stop → prot_at s b =
      if MemoryInfo.State i =? MEM_COMMIT then Some (MemoryInfo.Protect i) else None).
Proof.
  intros Hq. simpl in Hq. unfold valid in Hq.
  destruct ((0 <=? a) && (a <? 2 ^ 47)) eqn:Ha;
    [|injection Hq as <- <- <-; split; [by split; [reflexivity|]|done]].
  assert (∀ b, a / 4096 * 4096 ≤ b < a / 4096 * 4096 + 4096 →
    prot_at s b = perms s (a / 4096)) as Hpage.
  { intros b Hb. simpl. f_equal. by apply PageTable.same_page. }
  assert (0 ≤ a / 4096 * 4096 ≤ a ∧ a < a / 4096 * 4096 + 4096 ≤ isize_max - 16384) as [? ?].
  { apply andb_true_iff in Ha as [?%Z.leb_le ?%Z.ltb_lt]. unfold isize_max.
    Z.to_euclidean_division_equations. lia. }
  destruct (perms s (a / 4096)) as [p|] eqn:Hp;
    [destruct ((0 <=? p) && (p <? 2 ^ 32)) eqn:Hv
    |destruct (all_pages (negb ∘ some) (a / 4096 * 4096) 16384 (perms s)) eqn:Hall];
    injection Hq as <- <- <-; (split; [by split; [reflexivity|]|]); try done; intros _.
  all: split_and!; simpl; try lia; try apply Z.divide_factor_r;
    try (apply Z.divide_add_r; [apply Z.divide_factor_r|]); try done; try exact Hpage.
  - by exists 4.
  - intros b Hb. apply PageTable.all_spec with (b := b) in Hall;
      [|done|apply Z.divide_factor_r|by exists 4|lia].
    simpl in Hall. by destruct (perms s (b / 4096)).
Qed.

(** Committed pages change their protection and keep their bytes. *)
Lemma process_protect a n prot s r old s' :
  (page_length | a) → (page_length | n) → prot_ok (S:=t) prot →
  VirtualProtect a n prot s = ((r, old), s') →
  same_bytes s s' ∧ allocated s' = allocated s ∧ still_mapped s s' ∧ outside a n s s' ∧
  (r ≠ 0 → ∀ b, a ≤ b < a + n → prot_at s' b = Some prot).
Proof.
  intros Ha Hn _ Hp. simpl in Hp.
  destruct (aligned_range a n && all_pages some a n (perms s)) eqn:Hc; injection Hp as <- <- <-.
  - apply andb_true_iff in Hc as [_ Hall].
    destruct (set_range_prot a n (Some prot) s (bytes s) (allocs s) Ha Hn) as [Hin Hout].
    assert (∀ b, a ≤ b < a + n → is_Some (perms s (b / 4096))) as Hm.
    { intros b Hb. pose proof (PageTable.all_spec 4096 ltac:(done) _ _ _ _ _ Ha Hn Hall Hb) as Hs.
      by destruct (perms s (b / 4096)). }
    assert (same_bytes s (Make (bytes s) (set_range a n (Some prot) (perms s)) (allocs s))) as Hbytes.
    { intros b. destruct (decide (a ≤ b < a + n)) as [Hb|Hb].
      - specialize (Hin b Hb). simpl in Hin |- *. rewrite Hin. by destruct (Hm b Hb) as [p ->].
      - specialize (Hout b Hb). simpl in Hout |- *. by rewrite Hout. }
    split_and!; [done|done| |by split; [|auto]|by intros _].
    intros b Hb. destruct (decide (a ≤ b < a + n)); [by rewrite Hin|by rewrite Hout].
  - split_and!; [by intros b|done|by intros b|by intros b|done].
Qed.

(** An allocation takes free pages. *)
Lemma process_alloc a n s r s' :
  0 < a → (65536 | a) → 0 < n → (page_length | n) → VirtualAlloc a n 0x3000 0x04 s = (r, s') →
  if r =? 0 then win_quiet s s' else
    r = a ∧ a + n ≤ isize_max ∧ allocated s !! a = None ∧
    allocated s' = <[a := n]> (allocated s) ∧
    (∀ b, a ≤ b < a + n → prot_at s b = None ∧ prot_at s' b = Some PAGE_READWRITE) ∧
    outside a n s s'.
Proof.
  intros Hpos Hal Hn Hdn Hv. simpl in Hv.
  destruct (_ && _ && _ && _ && _) eqn:Hc; injection Hv as <- <-;
    [|by split; [reflexivity|]].
  rewrite !andb_true_iff in Hc. destruct Hc as ((((Hall & Hmax) & Hfree) & Hnone) & Hne).
  rewrite (proj2 (Z.eqb_neq a 0)) by lia. apply PageTable.aligned_spec in Hall as [Ha Hn']; [|done].
  destruct (set_range_prot a n (Some 4) s
    (λ b, if (a <=? b) && (b <? a + n) then 0 else bytes s b) (<[a:=n]> (allocs s)) Ha Hn')
    as [Hin Hout].
  split_and!; [done|lia|simpl; by apply negb_true_iff, bool_decide_eq_false, eq_None_not_Some in Hnone|done| |].
  - intros b Hb. split; [|by apply Hin].
    pose proof (PageTable.all_spec 4096 ltac:(done) _ _ _ _ _ Ha Hn' Hfree Hb) as Hs. simpl in *.
    by destruct (perms s (b / 4096)).
  - intros b Hb. split; [|by apply Hout]. specialize (Hout b Hb). simpl in Hout |- *.
    rewrite Hout. replace ((a <=? b) && (b <? a + n)) with false by lia. done.
Qed.

(** A release gives back the pages of the allocation. *)
Lemma process_free a n s r s' :
  allocated s !! a = Some n → VirtualFree a 0 0x8000 s = (r, s') →
  if r =? 0 then win_quiet s s' else
    allocated s' = delete a (allocated s) ∧
    (∀ b, a ≤ b < a + n → prot_at s' b = None) ∧ outside a n s s'.
Proof.
  intros Hal Hv. simpl in Hv, Hal. rewrite Hal in Hv.
  destruct (aligned_range a n) eqn:Hc; injection Hv as <- <-; simpl;
    [|by split; [reflexivity|]].
  apply PageTable.aligned_spec in Hc as [Ha Hn]; [|done].
  destruct (set_range_prot a n None s (bytes s) (delete a (allocs s)) Ha Hn) as [Hin Hout].
  split_and!; [done|done|]. intros b Hb. split; [|by apply Hout].
  specialize (Hout b Hb). simpl in Hout |- *. by rewrite Hout.
Qed.

(** A copy to writable pages writes its bytes there. *)
Lemma process_poke bs a s :
  (∀ k, (k < length bs)%nat →
    ∃ p, prot_at s (a + Z.of_nat k) = Some p ∧ can_write (S:=t) p = true) →
  same_prot s (win_poke bs a s) ∧ allocated (win_poke bs a s) = allocated s ∧
  written s (win_poke bs a s) a bs.
Proof.
  intros Hw. split_and!; [by intros b|done|]. split.
  - intros k b Hk. pose proof (lookup_lt_Some _ _ _ Hk).
    destruct (Hw k) as (p & Hp & _); [done|]. simpl in Hp |- *. rewrite Hp.
    rewrite (proj2 (Z.leb_le _ _)), (proj2 (Z.ltb_lt _ _)) by lia. simpl.
    replace (Z.to_nat (a + Z.of_nat k - a)) with k by lia. by rewrite Hk.
  - intros b Hb. simpl. replace ((a <=? b) && (b <? a + Z.of_nat (length bs))) with false by lia.
    done.
Qed.

#[global] Instance laws : Kernel32Laws t.
Proof.
  split.
  - done.
  - apply process_query.
  - intros a n s r stored copied s' Hn [= <- <- <- <-]. split; [by split; [reflexivity|]|].
    intros _. rewrite length_fmap, length_seqZ. split_and!; [lia|lia|].
    intros k b (x & -> & [-> ?]%lookup_seqZ)%list_lookup_fmap_Some. done.
  - intros s i s' [= <- <-]. split; [by split; [reflexivity|]|done].
  - apply process_protect.
  - intros a n s r s' [= <- <-]. by split; [reflexivity|].
  - apply process_alloc.
  - apply process_free.
  - intros policy n s r s' [= <- <-]. by split; [reflexivity|].
  - apply process_poke.
Qed.

(** One page of code at [0x1000]. *)
Definition demo : t :=
  Make (λ b, b mod 256) (λ q, if q =? 1 then Some PAGE_EXECUTE_READ else None) ∅.
End Process.

Lemma windows_region_at_correct_witness :
  ∃ r, windows_region_at 0x1234 Process.demo = (Ok (Some r), Process.demo) ∧
    Region.executable r = true ∧ Region.start r ≤ 0x1234 < Region.stop r.
Proof.
  destruct (windows_region_at 0x1234 Process.demo) as [o s'] eqn:H.
  pose proof (windows_region_at_correct _ _ _ _ H) as [_ Hr].
  vm_compute in H. injection H as <- <-.
  eexists. split; [reflexivity|]. split; [reflexivity|exact (proj1 Hr)].
Defined.
