(* ===== verification/WindowsPages.v ===== *)
(** * Trampoline pages on Windows ([src/src/executable/windows.rs])

    The page operations of a Windows build on the functions of [kernel32],
    and the life of a page: reserved near the function, filled, sealed and
    given back. *)

From S2P Require Import Prelude Errors Memory Executable WindowsMemory.

#[local] Open Scope Z_scope.
#[local] Set Default Proof Using "Type*".

Section operations.
Context {S : Type} `{!Kernel32 S}.

(** [region]. *)
Definition windows_region (address : Z) : M Error S (Z * bool) := λ s,
  let '((result, info), s) := VirtualQuery address s in
  if result =? 0 then win_error "query trampoline memory" s else
  (Ok (saturating_add (MemoryInfo.BaseAddress info) (MemoryInfo.RegionSize info),
       MemoryInfo.State info =? 0x10000), s).

(** [reserve]. *)
Definition windows_reserve (address : Z) : M Error S (option Z) := λ s,
  let '(page, s) := VirtualAlloc address CAPACITY 0x3000 0x04 s in
  (Ok (if page =? 0 then None else Some page), s).

(** [allocate]. *)
Definition windows_allocate (REACH source : Z) : M Error S Z :=
  Windows.search REACH windows_region windows_reserve source.

(** [seal]. *)
Definition windows_seal (address : Z) : M Error S unit := λ s,
  let '((result, old), s) := VirtualProtect address CAPACITY 0x20 s in
  if result =? 0 then win_error "protect trampoline" s else
  let '(result, s) := FlushInstructionCache address CAPACITY s in
  if result =? 0 then win_error "flush trampoline" s else (Ok tt, s).

(** [release]. *)
Definition windows_release (address : Z) : M Error S unit := λ s,
  let '(result, s) := VirtualFree address 0 0x8000 s in
  if result =? 0 then win_error "free trampoline" s else (Ok tt, s).

(** [shadow_stack]. *)
Definition windows_shadow_stack : M Error S bool := λ s,
  let '((result, flags), s) := GetProcessMitigationPolicy 15 4 s in
  if result =? 0 then
    let code := to_signed 32 (GetLastError s) in
    if (code =? 87) || (code =? 50) then (Ok false, s)
    else (Err (Os "query shadow stack" code), s)
  else (Ok (negb (Z.land flags 1 =? 0)), s).

(** The platform of an [x86_64] build. *)
#[global] Instance windows_pages : Pages S := {
  allocate := windows_allocate REACH_x86_64;
  seal := windows_seal;
  release := windows_release;
  shadow_stack := windows_shadow_stack }.
End operations.

(** An allocation is made of whole pages. *)
Class WholeAllocation (S : Type) `{!Kernel32 S} := whole_allocation : (page_length | CAPACITY).

Section pages.
Context {S : Type} `{!Kernel32 S, !Kernel32Laws S, !WholeAllocation S}.
Implicit Types s : S.

Definition protected (s : S) (a protection : Z) : Prop :=
  ∀ b, owned_range a b → prot_at s b = Some protection.

(** [a] is a new page of [s'], open for writing; [s] is otherwise as before. *)
Definition reserved s s' (a : Z) : Prop :=
  unmapped_page s a ∧ protected s' a PAGE_READWRITE ∧ confined a s s' ∧
  allocated s !! a = None ∧ allocated s' = <[a := CAPACITY]> (allocated s).

#[local] Instance win_quiet_preorder : PreOrder (win_quiet (S:=S)).
Proof.
  split; [by split; [reflexivity|]|]. intros s1 s2 s3 [] []. split; [by etrans|congruence].
Qed.

Lemma windows_region_quiet a s o s' :
  windows_region a s = (o, s') →
  win_quiet s s' ∧
  match o with Ok (stop, _) => stop ≤ isize_max + 1 | Err _ => True | _ => False end.
Proof.
  unfold windows_region. destruct (VirtualQuery a s) as [[r info] s1] eqn:Hq.
  apply query_law in Hq as [Hquiet Hinfo].
  destruct (Z.eqb_spec r 0); intros [= <- <-]; [done|]. split; [done|].
  destruct Hinfo as (_ & ? & _); [done|]. unfold saturating_add. lia.
Qed.

Lemma windows_reserve_run a s o s' :
  0 < a → (Windows.GRANULARITY | a) → windows_reserve a s = (o, s') →
  match o with
  | Ok (Some a') => a' = a ∧ reserved s s' a
  | Ok None => win_quiet s s'
  | _ => False
  end.
Proof.
  intros Ha Hal. unfold windows_reserve.
  destruct (VirtualAlloc a CAPACITY 0x3000 0x04 s) as [r s1] eqn:Hv. intros [= <- <-].
  apply virtual_alloc in Hv; [|done|done|done|exact whole_allocation].
  destruct (r =? 0); [done|]. destruct Hv as (-> & _ & Hnone & Hall & Hin & Hout).
  split; [done|]. split_and!; [by intros b Hb; apply Hin|by intros b Hb; apply Hin|done..].
Qed.

#[global] Instance windows_memory : VirtualMemory S windows_region windows_reserve.
Proof.
  split.
  - intros a s. destruct (windows_region a s) as [o s'] eqn:H1.
    by apply windows_region_quiet in H1 as [_ H1].
  - intros a s Ha Hal. destruct (windows_reserve a s) as [o s'] eqn:H1.
    apply windows_reserve_run in H1; [|done..]. by destruct o as [[]| | |]; [destruct H1|..].
Qed.

Lemma windows_loop_run fuel upper cursor s0 s o s' :
  win_quiet s0 s → 0 < cursor → (Windows.GRANULARITY | cursor) →
  Windows.search_loop windows_region windows_reserve fuel upper cursor s = (o, s') →
  match o with Ok a => reserved s0 s' a | _ => win_quiet s0 s' end.
Proof.
  revert cursor s. induction fuel as [|fuel IH]; intros cursor s Hq Hc Hal;
    cbn [Windows.search_loop]; destruct (negb _); try (by intros [= <- <-]).
  unfold mbind, M_bind. destruct (windows_region cursor s) as [o1 s1] eqn:H1.
  apply windows_region_quiet in H1 as [Hq1 _].
  assert (win_quiet s0 s1) as Hq01 by (by etrans).
  destruct o1 as [[stop free]| | |]; try (by intros [= <- <-]).
  destruct (Z.leb_spec stop cursor); [by intros [= <- <-]|].
  destruct (free && _).
  - destruct (windows_reserve cursor s1) as [o2 s2] eqn:H2.
    apply windows_reserve_run in H2; [|done..].
    destruct o2 as [[a|]| | |]; try done.
    + destruct H2 as [-> (Hu & Hp & Hcf & Hn & Hall)]. intros [= <- <-].
      destruct Hq01 as [[Hb Hp0] Ha]. split_and!; [|done| |by rewrite <-Ha|by rewrite <-Ha].
      * intros b Hb'. by rewrite <-Hp0, Hu.
      * intros b Hb'. destruct (Hcf b Hb') as [-> ->]. by rewrite Hb, Hp0.
    + assert (win_quiet s0 s2) as Hq02 by (by etrans).
      unfold lift, Windows.plus, checked_add. destruct (_ <=? usize_max); [|by intros [= <- <-]].
      apply IH; [done|unfold Windows.GRANULARITY; lia|by apply Z.divide_add_r].
  - unfold lift, Windows.mul. destruct (_ <=? usize_max); [|by intros [= <- <-]].
    apply IH; [done| |apply Z.divide_factor_r].
    pose proof (div_ceil_mul stop Windows.GRANULARITY ltac:(done)). lia.
Qed.

Lemma windows_search_run REACH source s o s' :
  windows_allocate REACH source s = (o, s') →
  match o with Ok a => reserved s s' a | _ => win_quiet s s' end.
Proof.
  unfold windows_allocate, Windows.search, mbind, M_bind, lift, Windows.mul.
  destruct (_ <=? usize_max); [|by intros [= <- <-]].
  apply windows_loop_run; [reflexivity| |apply Z.divide_factor_r].
  pose proof (div_ceil_mul (Windows.lower REACH source) Windows.GRANULARITY ltac:(done)).
  unfold Windows.lower, Windows.GRANULARITY in *. lia.
Qed.

Lemma windows_seal_run a s o s' :
  (Windows.GRANULARITY | a) → windows_seal a s = (o, s') →
  returns o ∧ same_bytes s s' ∧ confined a s s' ∧ allocated s' = allocated s ∧
  (o = Ok tt → protected s' a PAGE_EXECUTE_READ).
Proof.
  intros Hal. assert (page_length | a) as Ha.
  { etrans; [exact whole_allocation|]. etrans; [|exact Hal]. by exists 4. }
  unfold windows_seal. destruct (VirtualProtect a CAPACITY 0x20 s) as [[r old] s1] eqn:Hp.
  apply virtual_protect_law in Hp as (Hb & Hall & _ & Hout & Hin);
    [|done|exact whole_allocation|done].
  destruct (Z.eqb_spec r 0) as [->|Hr]; [by intros [= <- <-]|].
  destruct (FlushInstructionCache a CAPACITY s1) as [r2 s2] eqn:Hf.
  apply flush_cache_law in Hf as [[Hb2 Hp2] Hall2].
  assert (same_bytes s s2 ∧ confined a s s2 ∧ allocated s2 = allocated s) as (? & ? & ?).
  { split_and!; [|intros b Hnb; by rewrite Hb2, Hp2; apply Hout|congruence].
    intros b. by rewrite Hb2. }
  destruct (r2 =? 0); intros [= <- <-]; split_and!; try done.
  intros _ b Hin'. rewrite Hp2. by apply Hin.
Qed.

Lemma protected_writable s a : protected s a PAGE_READWRITE → writable_page s a.
Proof. intros Hp b Hb. exists PAGE_READWRITE. split; [by apply Hp|done]. Qed.

Lemma windows_seals a : (Windows.GRANULARITY | a) → seals (S:=S) a.
Proof.
  intros Hal s o s' (? & ? & ? & _ & Hok)%windows_seal_run; [|done].
  split_and!; [done..|]. intros Ho b Hb. exists PAGE_EXECUTE_READ. split; [by apply Hok|done].
Qed.

(** Publishing leaves the allocations alone; what it published is sealed. *)
Lemma windows_publish_run page bytes s page' r s' :
  (Windows.GRANULARITY | Executable.address page) →
  writable_page s (Executable.address page) →
  Executable.publish page bytes s = (Ok (page', r), s') →
  allocated s' = allocated s ∧ (r = Ok tt → protected s' (Executable.address page) PAGE_EXECUTE_READ).
Proof.
  intros Hal Hw. unfold Executable.publish. destruct (_ || _ || _) eqn:Hbad.
  { by intros [= _ <- <-]. }
  apply orb_false_iff in Hbad as [_ Hlen%Z.ltb_ge].
  unfold mbind, M_bind. destruct (copy bytes (Executable.address page) s) as [o1 s1] eqn:H1.
  injection H1 as <- <-. destruct (win_poke_law bytes (Executable.address page) s) as (_ & Hall & _).
  { intros k Hk. apply Hw. unfold owned_range. lia. }
  unfold attempt. cbn [Executable.address]. destruct (seal _ _) as [o2 s2] eqn:H2.
  apply windows_seal_run in H2 as (_ & _ & _ & Hall2 & Hok); [|done].
  intros [= _ <- <-]. split; [congruence|]. intros ->. by apply Hok.
Qed.

(** Giving the page back: the process aborts, or memory is as it was before
    the page was reserved. *)
Lemma windows_drop_run page s s1 s2 o s3 :
  reserved s s1 (Executable.address page) →
  confined (Executable.address page) s1 s2 → allocated s2 = allocated s1 →
  Executable.drop page s2 = (o, s3) →
  o = Abort ∨ o = Ok tt ∧ win_quiet s s3.
Proof.
  intros (Hu & Hp & Hc & Hnone & Hall) Hc2 Hall2.
  unfold Executable.drop, finish, or_fatal, mbind, M_bind, attempt. simpl. unfold windows_release.
  destruct (VirtualFree (Executable.address page) 0 0x8000 s2) as [r s'] eqn:Hf.
  apply (virtual_free _ CAPACITY) in Hf; [|by rewrite Hall2, Hall, lookup_insert_eq].
  destruct (Z.eqb_spec r 0) as [->|Hr]; intros [= <- <-]; [by left|right]. split; [done|].
  destruct Hf as (Hall3 & Hin & Hout).
  assert (∀ b, prot_at s' b = prot_at s b ∧ (¬ owned_range (Executable.address page) b →
    byte_at s' b = byte_at s b)) as Hback.
  { intros b. destruct (decide (owned_range (Executable.address page) b)) as [Hb|Hb].
    - split; [|done]. by rewrite Hu, Hin.
    - destruct (Hout b Hb) as [-> ->]. destruct (Hc2 b Hb) as [-> ->].
      destruct (Hc b Hb) as [-> ->]. done. }
  split.
  - split; intros b; destruct (Hback b) as [Hpb Hbb]; [|done].
    destruct (decide (owned_range (Executable.address page) b)) as [Hb|Hb]; [|by apply Hbb].
    simpl in Hpb |- *. specialize (Hu b Hb). simpl in Hu. by rewrite Hpb, Hu.
  - by rewrite Hall3, Hall2, Hall, delete_insert_id.
Qed.

(** C25. The life of a trampoline page on Windows: [Executable::near], [publish]
    and [Drop].  The page is a new allocation whose every byte is within
    reach of the function; nothing else changes while it lives; it is
    writable before it is published and, if publishing succeeds, holds the
    code and may be read and executed but not written.  Dropping it gives
    back exactly that allocation, so bytes, protections and allocations are
    those of before, or the process ends. *)
Theorem windows_trampoline_page source bytes s page s1 page' r s2 o s3 :
  0 ≤ source → Executable.near source s = (Ok page, s1) →
  Executable.publish page bytes s1 = (Ok (page', r), s2) →
  Executable.drop page' s2 = (o, s3) →
  let a := Executable.address page in
  source - REACH_x86_64 ≤ a ∧ a + CAPACITY ≤ source + REACH_x86_64 ∧
  unmapped_page s a ∧ confined a s s2 ∧ protected s1 a PAGE_READWRITE ∧
  match r with
  | Ok _ => holds s2 a bytes ∧ protected s2 a PAGE_EXECUTE_READ
  | Err _ => True
  | _ => False
  end ∧
  (o = Abort ∨ o = Ok tt ∧ win_quiet s s3).
Proof.
  intros Hpos Hnear Hpub Hdrop. unfold Executable.near in Hnear.
  destruct (_ || _) eqn:Hs; [done|]. apply orb_false_iff in Hs as [_ Hs%Z.ltb_ge].
  unfold mbind, M_bind in Hnear. destruct (allocate source s) as [o1 s1'] eqn:Ha.
  destruct o1 as [a|e| |]; try done. injection Hnear as <- <-. cbn [Executable.address].
  pose proof (windows_search_run _ _ _ _ _ Ha) as Hres. pose proof Hres as (Hu & Hp & Hc & _).
  pose proof (windows_search_correct REACH_x86_64 source s ltac:(lia) ltac:(done)) as Hreach.
  change (Windows.search _ _ _ source s) with (allocate source s) in Hreach.
  rewrite Ha in Hreach. destruct Hreach as (? & ? & _ & _ & Hal).
  set (page := Executable.Make a false) in *.
  destruct (windows_publish_run page bytes s1' page' r s2) as [Hall Hsealed];
    [done|by apply protected_writable|done|].
  destruct (publish_sealing page bytes s1') as (p2 & r2 & s2' & Hpub2 & Hret & Haddr & Hc2 & Hok & _);
    [by apply windows_seals|by apply protected_writable|].
  rewrite Hpub in Hpub2. injection Hpub2 as <- <- <-.
  split_and!; [done|done|done| |done| |].
  - intros b Hb. destruct (Hc b Hb) as [<- <-]. by apply Hc2.
  - destruct r as [[]|e| |]; try done. destruct (Hok eq_refl) as (_ & _ & _ & [Hh _] & _).
    split; [done|]. by apply Hsealed.
  - eapply (windows_drop_run page' s s1' s2); [by rewrite Haddr|by rewrite Haddr|done|done].
Qed.
End pages.

#[export] Instance process_whole : WholeAllocation Process.t.
Proof. by exists 4. Qed.

Lemma windows_trampoline_page_witness :
  ∃ page s1 page' s2 s3, Executable.near 0x1000 Process.demo = (Ok page, s1) ∧
    Executable.publish page [0xc3] s1 = (Ok (page', Ok tt), s2) ∧
    protected s2 (Executable.address page) PAGE_EXECUTE_READ ∧
    Executable.drop page' s2 = (Ok tt, s3) ∧ win_quiet Process.demo s3.
Proof.
  destruct (Executable.near 0x1000 Process.demo) as [o s1] eqn:H1.
  assert (o = Ok (Executable.Make 65536 false)) as ->
    by (apply (f_equal fst) in H1; vm_compute in H1; symmetry; exact H1).
  destruct (Executable.publish (Executable.Make 65536 false) [0xc3] s1) as [o2 s2] eqn:H2.
  assert (s1 = (Executable.near 0x1000 Process.demo).2) as E1 by (rewrite H1; reflexivity).
  assert (o2 = Ok (Executable.Make 65536 true, Ok tt)) as ->.
  { apply (f_equal fst) in H2. rewrite E1 in H2. vm_compute in H2. symmetry. exact H2. }
  destruct (Executable.drop (Executable.Make 65536 true) s2) as [o3 s3] eqn:H3.
  destruct (windows_trampoline_page 0x1000 _ _ _ _ _ _ _ _ _ ltac:(lia) H1 H2 H3)
    as (_ & _ & _ & _ & _ & [_ Hs] & Hd).
  assert (s2 = (Executable.publish (Executable.Make 65536 false) [0xc3]
    (Executable.near 0x1000 Process.demo).2).2) as E2 by (rewrite <-E1, H2; reflexivity).
  assert (o3 = Ok tt) as ->.
  { apply (f_equal fst) in H3. rewrite E2 in H3. vm_compute in H3. symmetry. exact H3. }
  eexists _, _, _, _, _. split; [reflexivity|]. split; [exact H2|]. split; [exact Hs|].
  split; [exact H3|]. destruct Hd as [Hd|[_ Hd]]; [discriminate Hd|exact Hd].
Defined.
