(* ===== verification/Routing.v ===== *)
(** * Routes from dispatchers to replacements ([src/src/routing.rs])

    A patched function jumps to its dispatcher, which asks [route] where to
    go: the replacement of this thread, else the global one, else the saved
    original.  Entries are leaked boxes, so a pointer is an index into the
    list of all entries ever allocated; [HEAD] and [next] link the published
    ones.  The state holds the process memory, the two statics and the
    thread-local route list of every thread. *)

From S2P Require Import Prelude Errors Memory Executable X86 Code.

#[local] Open Scope Z_scope.

Module Patch.
(** [Patch] of [lib.rs]. *)
Record t := Make {
  entry : Z;
  address : Z;
  original : list Z;
  replacement : list Z;
  relay : option Executable.t }.

(** [patch.address + patch.original.len()]. *)
Definition stop (p : t) : Z := address p + Z.of_nat (length (original p)).
End Patch.

Module Entry.
Record t := Make {
  patch : Patch.t;
  dispatcher : Z;
  original : Executable.t;
  call_bridge : bool;
  global : Z;
  next : option nat }.

Definition set_global (x : Z) (e : t) : t :=
  Make (patch e) (dispatcher e) (original e) (call_bridge e) x (next e).
End Entry.

Module Record_.
(** [Record]; [entry] points to a leaked entry. *)
Record t := Make { entry : nat; sites : list Z }.
End Record_.

Module Local.
Record t := Make { source : Z; dispatcher : Z; target : Z }.
End Local.

(** The process: memory, leaked entries, [HEAD], [ENTRIES], and [LOCAL] of
    the threads; a thread that is not in the map has an empty list, [None] is
    a thread whose locals were destroyed. *)
Record process (P : Type) := mkProcess {
  os : P;
  leaked : list Entry.t;
  HEAD : option nat;
  ENTRIES : list Record_.t;
  LOCAL : gmap nat (option (list Local.t)) }.
Arguments mkProcess {P}. Arguments os {P}. Arguments leaked {P}.
Arguments HEAD {P}. Arguments ENTRIES {P}. Arguments LOCAL {P}.

Section operations.
Context {P : Type} `{!Platform P, !Pages P, !Code}.
Implicit Types w : process P.

Definition set_os (s : P) w : process P := mkProcess s (leaked w) (HEAD w) (ENTRIES w) (LOCAL w).
Definition set_leaked (l : list Entry.t) w : process P :=
  mkProcess (os w) l (HEAD w) (ENTRIES w) (LOCAL w).
Definition set_head (h : option nat) w : process P :=
  mkProcess (os w) (leaked w) h (ENTRIES w) (LOCAL w).
Definition set_entries (l : list Record_.t) w : process P :=
  mkProcess (os w) (leaked w) (HEAD w) l (LOCAL w).
Definition set_local (thread : nat) (l : list Local.t) w : process P :=
  mkProcess (os w) (leaked w) (HEAD w) (ENTRIES w) (<[thread := Some l]> (LOCAL w)).

(** Run an operation on the process memory. *)
Definition in_os {A} (m : M Error P A) : M Error (process P) A := λ w,
  let '(o, s) := m (os w) in (o, set_os s w).

(** The routes of a thread; [None] when they cannot be accessed. *)
Definition local_routes (thread : nat) w : option (list Local.t) :=
  match LOCAL w !! thread with
  | Some l => l
  | None => Some []
  end.

(** [LOCAL.with]. *)
Definition with_local (thread : nat) : M Error (process P) (list Local.t) := λ w,
  (expect "cannot access a Thread Local Storage value during or after destruction"
     (local_routes thread w), w).

(** The target of a published entry whose dispatcher was reached. *)
Definition entry_target (e : Entry.t) : M Error (process P) Z :=
  if Entry.global e =? 0 then
    (if Entry.call_bridge e then
       r ← attempt (in_os check_call_bridge);
       match r with
       | Ok _ => mret tt
       | Err _ => panic "original call is not supported with shadow stacks"
       | Panic message => panic message
       | Abort => abort
       end
     else mret tt);;
    mret (Executable.address (Entry.original e))
  else mret (Entry.global e).

(** The loop of [fallback]; entries link to older ones, so their number
    bounds the walk. *)
Fixpoint fallback_loop (fuel : nat) (dispatcher : Z) (cursor : option nat)
  : M Error (process P) (option Z) :=
  match cursor with
  | None => mret None
  | Some p =>
      match fuel with
      | O => panic "out of fuel"
      | S fuel =>
          es ← gets leaked;
          e ← lift (expect "dangling entry" (es !! p));
          if Entry.dispatcher e =? dispatcher then
            target ← entry_target e; mret (Some target)
          else fallback_loop fuel dispatcher (Entry.next e)
      end
  end.

(** [fallback]. *)
Definition fallback (dispatcher : Z) : M Error (process P) (option Z) :=
  cursor ← gets HEAD;
  es ← gets leaked;
  fallback_loop (length es) dispatcher cursor.

(** [route]. *)
Definition route (thread : nat) (dispatcher : Z) : M Error (process P) (option Z) :=
  routes ← gets (local_routes thread);
  let local := routes ← routes;
               Local.target <$> (find (λ r, Local.dispatcher r =? dispatcher) routes) in
  match local with
  | Some target => if target =? dispatcher then fallback dispatcher else mret (Some target)
  | None => fallback dispatcher
  end.

(** The patch of a record. *)
Definition patch_of w (r : Record_.t) : option Patch.t :=
  Entry.patch <$> leaked w !! Record_.entry r.

(** The patches of [ENTRIES]. *)
Definition patches w : list Patch.t := omap (patch_of w) (ENTRIES w).

(** [patch.entry <= x && x < end]. *)
Definition within (x : Z) (p : Patch.t) : bool :=
  (Patch.entry p <=? x) && (x <? Patch.stop p).

(** [address < patch.address + len && patch.address < end]. *)
Definition overlap (address stop : Z) (p : Patch.t) : bool :=
  (address <? Patch.stop p) && (Patch.address p <? stop).

(** The test of [install_replacement] against one record. *)
Definition conflicts w (source dispatcher target : Z) (r : Record_.t) : bool :=
  match patch_of w r with
  | Some p =>
      within target p ||
      (negb (source =? Patch.entry p) &&
       (within source p || bool_decide (dispatcher ∈ Record_.sites r)))
  | None => false
  end.

(** A failing step drops the page. *)
Definition or_drop {A} (page : Executable.t) (m : M Error (process P) A)
  : M Error (process P) A :=
  r ← attempt m;
  match r with
  | Ok a => mret a
  | Err e => in_os (Executable.drop page);; throw e
  | Panic message => in_os (Executable.drop page);; panic message
  | Abort => abort
  end.

(** The steps between allocating the page and leaking the entry. *)
Definition build (source dispatcher : Z) (bytes : list Z) (page : Executable.t)
  : M Error (process P) (Patch.t * Executable.t * bool) :=
  let relay := Executable.address page + 512 in
  plan ← lift (code_plan source relay bytes);
  address ← lift (ok_or InvalidRange (checked_add source (Z.of_nat (offset plan))));
  stop ← lift (ok_or InvalidRange (checked_add address (Z.of_nat (length (original plan)))));
  ps ← gets patches;
  if existsb (overlap address stop) ps then throw Overlap else
  saved ← lift (code_trampoline address (Executable.address page) (original plan));
  call_bridge ← lift (code_needs_call_bridge (original plan));
  (if call_bridge : bool then in_os check_call_bridge else mret tt);;
  jump ← lift (code_jump relay dispatcher);
  '(page, r) ← in_os (Executable.publish page (resize 512 0xcc saved ++ jump));
  lift r;;
  mret (Patch.Make source address (original plan) (replacement plan) None, page, call_bridge).

(** The branch of [install_replacement] for a function that has no entry. *)
Definition new_entry (source dispatcher : Z) : M Error (process P) nat :=
  bytes ← in_os (Memory.read source (Z.of_nat max_prefix));
  page ← in_os (Executable.near source);
  '(patch, page, call_bridge) ← or_drop page (build source dispatcher bytes page);
  previous ← gets HEAD;
  es ← gets leaked;
  let p := length es in
  let entry := Entry.Make patch dispatcher page call_bridge 0 previous in
  modify (set_leaked (es ++ [entry]));;
  modify (set_head (Some p));;
  r ← attempt (in_os (Memory.write (Patch.address patch) (Patch.original patch)
                                   (Patch.replacement patch)));
  match r with
  | Ok _ =>
      records ← gets ENTRIES;
      modify (set_entries (records ++ [Record_.Make p [dispatcher]]));;
      mret p
  | Err error => modify (set_head previous);; throw error
  | Panic message => panic message
  | Abort => abort
  end.

(** The branch for a function that has one: the site is remembered. *)
Definition add_site (dispatcher : Z) (i : nat) (r : Record_.t) : M Error (process P) nat :=
  records ← gets ENTRIES;
  (if bool_decide (dispatcher ∈ Record_.sites r) then mret tt
   else modify (set_entries (<[i := Record_.Make (Record_.entry r)
                                      (Record_.sites r ++ [dispatcher])]> records)));;
  mret (Record_.entry r).

(** [entries.iter().find(|record| record.entry.patch.entry == source)]. *)
Definition is_entry w (source : Z) (r : Record_.t) : Prop :=
  Patch.entry <$> patch_of w r = Some source.

#[global] Instance is_entry_dec w source r : Decision (is_entry w source r).
Proof. unfold is_entry. apply _. Defined.

Definition find_entry (source : Z) w : option (nat * Record_.t) :=
  list_find (is_entry w source) (ENTRIES w).

(** The end of an installation: the thread's route to the entry [p]. *)
Definition push_route (thread : nat) (source target : Z) (p : nat) : M Error (process P) unit :=
  es ← gets leaked;
  e ← lift (expect "dangling entry" (es !! p));
  routes ← with_local thread;
  modify (set_local thread (routes ++ [Local.Make source (Entry.dispatcher e) target])).

(** [install_replacement]. *)
Definition install_replacement (thread : nat) (source dispatcher target : Z)
  : M Error (process P) unit :=
  if source =? target then throw SameAddress else
  routes ← with_local thread;
  if existsb (λ r, Local.source r =? source) routes then throw Overlap else
  records ← gets ENTRIES;
  conflict ← gets (λ w, existsb (conflicts w source dispatcher target) records);
  if conflict : bool then throw Overlap else
  in_os (Memory.read target 1);;
  in_os (Memory.read dispatcher 1);;
  found ← gets (find_entry source);
  p ← match found with
      | Some (i, r) => add_site dispatcher i r
      | None => new_entry source dispatcher
      end;
  push_route thread source target p.

(** [install]. *)
Definition install (thread : nat) (source target : Z) : M Error (process P) unit :=
  install_replacement thread source target target.

(** [remove]. *)
Definition remove (thread : nat) (source : Z) : M Error (process P) unit :=
  routes ← with_local thread;
  modify (set_local thread (filter (λ r, Local.source r ≠ source) routes)).

(** [global]. *)
Definition global (source target : Z) : M Error (process P) bool :=
  if source =? target then throw SameAddress else
  ps ← gets patches;
  if existsb (λ p, within target p || (negb (source =? Patch.entry p) && within source p)) ps
  then throw Overlap else
  found ← gets (find_entry source);
  match found with
  | None => mret false
  | Some (_, r) =>
      in_os (Memory.read target 1);;
      es ← gets leaked;
      e ← lift (expect "dangling entry" (es !! Record_.entry r));
      if negb (Entry.global e =? 0) then throw Overlap else
      modify (set_leaked (<[Record_.entry r := Entry.set_global target e]> es));;
      mret true
  end.

(** [overlaps]. *)
Definition overlaps (address length : Z) : M Error (process P) bool :=
  ps ← gets patches;
  mret (existsb (overlap address (address + length)) ps).

(** [remove_global]. *)
Definition remove_global (source : Z) : M Error (process P) unit :=
  found ← gets (find_entry source);
  '(_, r) ← lift (expect "global route is missing" found);
  es ← gets leaked;
  e ← lift (expect "dangling entry" (es !! Record_.entry r));
  modify (set_leaked (<[Record_.entry r := Entry.set_global 0 e]> es)).
End operations.

(** ** The invariant *)

#[local] Set Default Proof Using "Type*".

Section invariant.
Context {P : Type} `{!Platform P, !View P, !PlatformLaws P, !Pages P, !PagesLaws P,
                     !Code, !CodeLaws}.
Implicit Types (w : process P) (s : P).

Lemma keeps_holds s s' a bs :
  keeps s s' → (∀ k, (k < length bs)%nat → is_Some (prot_at s (a + Z.of_nat k))) →
  holds s a bs → holds s' a bs.
Proof.
  intros Hk Hm Hh k x Hx. pose proof (lookup_lt_Some _ _ _ Hx).
  destruct (Hk (a + Z.of_nat k)) as [-> _]; auto.
Qed.

Definition in_patch (p : Patch.t) (b : Z) : Prop := Patch.address p ≤ b < Patch.stop p.

(** The code behind an entry: the function jumps to the relay in the page,
    the relay to the dispatcher, and the page starts with the saved entry. *)
Record code_ok s (e : Entry.t) : Prop := {
  code_length : length (Patch.original (Entry.patch e)) = length (Patch.replacement (Entry.patch e));
  code_nonempty : Patch.original (Entry.patch e) ≠ [];
  code_start : Patch.entry (Entry.patch e) ≤ Patch.address (Entry.patch e);
  code_stop : Patch.stop (Entry.patch e) ≤ usize_max;
  code_patched : holds s (Patch.address (Entry.patch e)) (Patch.replacement (Entry.patch e));
  code_mapped b : in_patch (Entry.patch e) b → is_Some (prot_at s b);
  code_page b : owned_range (Executable.address (Entry.original e)) b → is_Some (prot_at s b);
  code_lands : lands (Patch.address (Entry.patch e)) (Patch.replacement (Entry.patch e))
                 (Executable.address (Entry.original e) + 512);
  code_saved : ∃ saved jump,
    code_trampoline (Patch.address (Entry.patch e)) (Executable.address (Entry.original e))
      (Patch.original (Entry.patch e)) = Ok saved ∧
    code_jump (Executable.address (Entry.original e) + 512) (Entry.dispatcher e) = Ok jump ∧
    Z.of_nat (length (resize 512 0xcc saved ++ jump)) ≤ CAPACITY ∧
    holds s (Executable.address (Entry.original e)) (resize 512 0xcc saved ++ jump) }.

(** The bytes an entry depends on. *)
Definition footprint (e : Entry.t) (b : Z) : Prop :=
  in_patch (Entry.patch e) b ∨ owned_range (Executable.address (Entry.original e)) b.

Lemma code_footprint s e b : code_ok s e → footprint e b → is_Some (prot_at s b).
Proof. intros [] [Hb|Hb]; eauto. Qed.

Lemma code_ok_on s s' e :
  (∀ b, footprint e b → byte_at s' b = byte_at s b ∧ is_Some (prot_at s' b)) →
  code_ok s e → code_ok s' e.
Proof.
  intros Hk []. split; try done.
  - intros k x Hx. pose proof (lookup_lt_Some _ _ _ Hx).
    destruct (Hk (Patch.address (Entry.patch e) + Z.of_nat k)) as [-> _]; [|by apply code_patched0].
    left. unfold in_patch, Patch.stop. lia.
  - intros b Hb. apply Hk. by left.
  - intros b Hb. apply Hk. by right.
  - destruct code_saved0 as (saved & jump & ? & ? & Hlen & Hh). exists saved, jump.
    split_and!; try done. intros k x Hx. pose proof (lookup_lt_Some _ _ _ Hx).
    destruct (Hk (Executable.address (Entry.original e) + Z.of_nat k)) as [-> _]; [|by apply Hh].
    right. unfold owned_range. lia.
Qed.

Lemma code_ok_keeps s s' e : keeps s s' → code_ok s e → code_ok s' e.
Proof. intros Hk Hc. eapply code_ok_on; [|done]. intros b Hb. by eapply Hk, code_footprint. Qed.

(** A write elsewhere. *)
Lemma code_ok_written s s' a bs e :
  written s s' a bs → still_mapped s s' →
  (∀ b, a ≤ b < a + Z.of_nat (length bs) → ¬ footprint e b) →
  code_ok s e → code_ok s' e.
Proof.
  intros [_ Hout] Hm Hd Hc. eapply code_ok_on; [|done]. intros b Hb. split.
  - apply Hout. intros Hin. by apply (Hd b Hin).
  - by eapply Hm, code_footprint.
Qed.

(** [HEAD] links the entries [l]. *)
Fixpoint linked (es : list Entry.t) (cursor : option nat) (l : list nat) : Prop :=
  match l with
  | [] => cursor = None
  | p :: l => cursor = Some p ∧ ∃ e, es !! p = Some e ∧ linked es (Entry.next e) l
  end.

(** [r] is a record of the entry [e]. *)
Definition recorded w (i : nat) (r : Record_.t) (e : Entry.t) : Prop :=
  ENTRIES w !! i = Some r ∧ leaked w !! Record_.entry r = Some e.

Record routing_ok w : Prop := {
  ok_links : linked (leaked w) (HEAD w) (reverse (Record_.entry <$> ENTRIES w));
  ok_older p e q : leaked w !! p = Some e → Entry.next e = Some q → (q < p)%nat;
  ok_records i r : ENTRIES w !! i = Some r → ∃ e, leaked w !! Record_.entry r = Some e;
  ok_code i r e : recorded w i r e →
    code_ok (os w) e ∧ Entry.dispatcher e ∈ Record_.sites r;
  ok_apart i j r r' e e' b :
    recorded w i r e → recorded w j r' e' → i ≠ j →
    in_patch (Entry.patch e) b → in_patch (Entry.patch e') b → False;
  ok_sources i j r r' e e' :
    recorded w i r e → recorded w j r' e' →
    Patch.entry (Entry.patch e) = Patch.entry (Entry.patch e') → i = j;
  ok_sites i j r r' d :
    ENTRIES w !! i = Some r → ENTRIES w !! j = Some r' →
    d ∈ Record_.sites r → d ∈ Record_.sites r' → i = j;
  ok_locals thread l :
    LOCAL w !! thread = Some (Some l) →
    NoDup (Local.source <$> l) ∧
    ∀ x, x ∈ l → Local.target x ≠ Local.source x ∧
      ∃ i r e, recorded w i r e ∧ Patch.entry (Entry.patch e) = Local.source x ∧
        Entry.dispatcher e = Local.dispatcher x }.

Definition process_start s : process P := mkProcess s [] None [] ∅.

(** Only the code of the recorded entries depends on memory. *)
Lemma routing_ok_code w s :
  routing_ok w → (∀ i r e, recorded w i r e → code_ok s e) → routing_ok (set_os s w).
Proof.
  intros Hw Hc. destruct Hw. split; try done.
  intros i r e Hr. split; [by eapply Hc|by eapply ok_code0].
Qed.

Lemma routing_ok_start s : routing_ok (process_start s).
Proof.
  split; unfold recorded; cbn; intros; destruct_and?; try done;
    match goal with
    | H : [] !! _ = Some _ |- _ => by rewrite lookup_nil in H
    | H : ∅ !! _ = Some _ |- _ => by rewrite lookup_empty in H
    end.
Qed.

Lemma linked_app es es' cursor l : linked es cursor l → linked (es ++ es') cursor l.
Proof.
  revert cursor. induction l as [|p l IH]; intros cursor; [done|].
  intros (-> & e & He & Hl). split; [done|]. exists e.
  split; [by apply lookup_app_l_Some|by apply IH].
Qed.

Lemma linked_next es cursor l (f : Entry.t → Entry.t) p :
  (∀ e, Entry.next (f e) = Entry.next e) → linked es cursor l → linked (alter f p es) cursor l.
Proof.
  intros Hf. revert cursor. induction l as [|q l IH]; intros cursor; [done|].
  intros (-> & e & He & Hl). split; [done|].
  destruct (decide (p = q)) as [->|Hne].
  - exists (f e). rewrite list_lookup_alter_eq, He. split; [done|]. rewrite Hf. by apply IH.
  - exists e. rewrite list_lookup_alter_ne by done. split; [done|by apply IH].
Qed.

(** Memory that keeps what is mapped, and entries that were leaked but never
    published, do not matter. *)
Lemma routing_ok_frame w s' es' :
  routing_ok w → keeps (os w) s' →
  Forall (λ e, Entry.next e = HEAD w) es' → (length es' ≤ 1)%nat →
  routing_ok (mkProcess s' (leaked w ++ es') (HEAD w) (ENTRIES w) (LOCAL w)).
Proof.
  intros Hw Hk Hnext Hone. pose proof (ok_links w Hw) as Hl.
  assert (∀ i r e, recorded (mkProcess s' (leaked w ++ es') (HEAD w) (ENTRIES w) (LOCAL w)) i r e
    ↔ recorded w i r e) as Hrec.
  { intros i r e. unfold recorded. simpl. split; intros [Hi He]; (split; [done|]).
    - destruct (ok_records w Hw _ _ Hi) as [e' He']. rewrite (lookup_app_l_Some _ _ _ _ He') in He.
      congruence.
    - by apply lookup_app_l_Some. }
  split; simpl.
  - by apply linked_app.
  - intros p e q He Hq. apply lookup_app_Some in He as [He|[Hge He]]; [by eapply ok_older|].
    rewrite Forall_forall in Hnext. rewrite (Hnext e) in Hq by (by eapply list_elem_of_lookup_2).
    destruct (reverse (Record_.entry <$> ENTRIES w)) as [|p' l]; simpl in Hl; [congruence|].
    destruct Hl as (Hh & e' & He' & _). rewrite Hh in Hq. injection Hq as <-.
    apply lookup_lt_Some in He'. lia.
  - intros i r Hi. destruct (ok_records w Hw _ _ Hi) as [e He]. exists e.
    by apply lookup_app_l_Some.
  - intros i r e Hr%Hrec. destruct (ok_code w Hw _ _ _ Hr) as [Hc ?].
    split; [by eapply code_ok_keeps|done].
  - intros i j r r' e e' b Hi%Hrec Hj%Hrec. by apply (ok_apart w Hw i j r r' e e').
  - intros i j r r' e e' Hi%Hrec Hj%Hrec. by apply (ok_sources w Hw i j r r' e e').
  - apply (ok_sites w Hw).
  - intros thread l Hth. destruct (ok_locals w Hw _ _ Hth) as [Hnd Hx]. split; [done|].
    intros x Hin. destruct (Hx x Hin) as (? & i & r & e & Hr & ?). split; [done|].
    exists i, r, e. by rewrite Hrec.
Qed.

(** *** Building an entry *)

Lemma in_os_run {A} (m : M Error P A) w o s :
  m (os w) = (o, s) → in_os m w = (o, set_os s w).
Proof. unfold in_os. by intros ->. Qed.

Lemma set_os_id w : set_os (os w) w = w.
Proof. by destruct w. Qed.

Lemma set_os_os s w : os (set_os s w) = s.
Proof. done. Qed.

(** What [build] hands to [new_entry]. *)
Record built w (source dispatcher : Z) (bytes : list Z) (patch : Patch.t) (page : Executable.t) : Prop := {
  built_source : Patch.entry patch = source;
  built_length : length (Patch.original patch) = length (Patch.replacement patch);
  built_nonempty : Patch.original patch ≠ [];
  built_bytes : ∃ off, Patch.address patch = source + Z.of_nat off ∧
    bytes_at bytes off (Patch.original patch);
  built_stop : Patch.stop patch ≤ usize_max;
  built_apart : Forall (λ p, overlap (Patch.address patch) (Patch.stop patch) p = false) (patches w);
  built_page : runnable_page (os w) (Executable.address page);
  built_lands : lands (Patch.address patch) (Patch.replacement patch)
                  (Executable.address page + 512);
  built_saved : ∃ saved jump,
    code_trampoline (Patch.address patch) (Executable.address page) (Patch.original patch) = Ok saved ∧
    code_jump (Executable.address page + 512) dispatcher = Ok jump ∧
    Z.of_nat (length (resize 512 0xcc saved ++ jump)) ≤ CAPACITY ∧
    holds (os w) (Executable.address page) (resize 512 0xcc saved ++ jump) }.

Lemma check_call_bridge_run s o s' :
  check_call_bridge s = (o, s') → returns o ∧ same_view s s'.
Proof.
  unfold check_call_bridge, mbind, M_bind. destruct (shadow_stack s) as [o1 s1] eqn:H1.
  destruct (shadow_stack_law _ _ _ H1) as [Hret Hv].
  destruct o1 as [[]|e| |]; try done; by intros [= <- <-].
Qed.

(** The check of [build] for code that calls out of the trampoline. *)
Lemma bridge_check_run (bridge : bool) w o w' :
  (if bridge then in_os check_call_bridge else mret tt) w = (o, w') →
  returns o ∧ w' = set_os (os w') w ∧ same_view (os w) (os w').
Proof.
  destruct bridge; [|intros [= <- <-]; rewrite set_os_id; split_and!; done || reflexivity].
  unfold in_os. destruct (check_call_bridge (os w)) as [o1 s1] eqn:Hc. intros [= <- <-].
  destruct (check_call_bridge_run _ _ _ Hc). split_and!; done.
Qed.

Lemma build_correct w source dispatcher bytes page o w' :
  Executable.sealed page = false → writable_page (os w) (Executable.address page) →
  0 < Executable.address page → Executable.address page + CAPACITY ≤ isize_max →
  build source dispatcher bytes page w = (o, w') →
  returns o ∧ w' = set_os (os w') w ∧ confined (Executable.address page) (os w) (os w') ∧
  ∀ patch page' bridge, o = Ok (patch, page', bridge) →
    Executable.address page' = Executable.address page ∧
    built w' source dispatcher bytes patch page.
Proof.
  intros Hsealed Hw Ha Hmax. unfold build, mbind, M_bind, lift, gets.
  set (a := Executable.address page) in *.
  assert (∀ s, same_view (os w) s → confined a (os w) s) as Hconf.
  { intros s [Hb Hp] b _. split; [apply Hb|apply Hp]. }
  assert (∀ s, set_os (os (set_os s w)) w = set_os s w) as Hset by done.
  assert (confined a (os w) (os w)) as Hrefl by (by apply Hconf).
  pose proof (plan_returns_law source (a + 512) bytes) as Hret.
  destruct (code_plan source (a + 512) bytes) as [plan|e| |] eqn:Hplan; try done;
    [|intros [= <- <-]; by rewrite set_os_id].
  destruct (plan_law source (a + 512) bytes plan ltac:(unfold usize_max, isize_max, CAPACITY in *; lia)
    Hplan) as (Hlands & Hlen & Hne & Hbytes & _).
  destruct (checked_add source (Z.of_nat (offset plan))) as [addr|] eqn:H1; simpl;
    [|intros [= <- <-]; by rewrite set_os_id].
  apply checked_add_Some in H1 as [Haddr0 _]. rewrite <-Haddr0 in Hlands.
  destruct (checked_add addr (Z.of_nat (length (original plan)))) as [stop|] eqn:H2; simpl;
    [|intros [= <- <-]; by rewrite set_os_id].
  apply checked_add_Some in H2 as [-> H2].
  destruct (existsb _ (patches w)) eqn:Hov; [intros [= <- <-]; by rewrite set_os_id|].
  pose proof (trampoline_returns_law addr a (original plan)) as Hret2.
  destruct (code_trampoline addr a (original plan)) as [saved|e| |] eqn:Htr; try done;
    [|intros [= <- <-]; by rewrite set_os_id].
  destruct (needs_call_bridge_law _ _ _ _ Htr) as [bridge ->].
  destruct ((if bridge then in_os check_call_bridge else mret tt) w) as [o3 w3] eqn:H3.
  destruct (bridge_check_run _ _ _ _ H3) as (Hret3 & Hw3 & Hv3).
  destruct o3 as [[]|e| |]; try done; [|intros [= <- <-]; split_and!; auto; done].
  pose proof (jump_returns_law (a + 512) dispatcher) as Hret4.
  destruct (code_jump (a + 512) dispatcher) as [jump|e| |] eqn:Hj; try done;
    [|intros [= <- <-]; split_and!; auto; done].
  destruct (publish_run page (resize 512 0xcc saved ++ jump) (os w3))
    as (page' & r & s4 & H4 & Hret5 & Haddr & Hc4 & Hok & _).
  { intros b Hb. destruct (Hw b Hb) as (p & Hp & ?). destruct Hv3 as [_ Hp3].
    exists p. by rewrite Hp3. }
  rewrite (in_os_run _ w3 _ _ H4).
  assert (set_os s4 w3 = set_os s4 w) as -> by (rewrite Hw3; done).
  assert (confined a (os w) s4) as Hc.
  { intros b Hb. destruct (Hc4 b Hb) as [-> ->]. by apply (Hconf (os w3) Hv3). }
  destruct r as [[]|e| |]; try done; intros [= <- <-]; [|done].
  split_and!; [done..|]. intros patch0 page0 bridge0 [= <- <- <-]. split; [done|].
  destruct (Hok eq_refl) as (_ & _ & Hcap & [Hh _] & Hrun).
  split; simpl; try done.
  - by exists (offset plan).
  - unfold patches, patch_of in *. simpl in *. apply Forall_forall. intros p Hp.
    destruct (overlap _ _ p) eqn:Ho; [|done]. rewrite <-Hov. symmetry. apply existsb_exists.
    exists p. split; [by apply list_elem_of_In|done].
  - exists saved, jump. done.
Qed.

(** *** Publishing an entry *)

(** The function does not lie in a page of the crate itself. *)
Definition outside_pages w (source : Z) : Prop :=
  ∀ i r e b, recorded w i r e → source ≤ b < source + Z.of_nat max_prefix →
    ¬ owned_range (Executable.address (Entry.original e)) b.

(** No record is about this function or uses this dispatcher. *)
Definition unused w (source dispatcher : Z) : Prop :=
  ∀ i r e, recorded w i r e →
    Patch.entry (Entry.patch e) ≠ source ∧ dispatcher ∉ Record_.sites r.

Lemma keeps_confined a s s' : unmapped_page s a → confined a s s' → keeps s s'.
Proof.
  intros Hu Hc b [p Hp]. destruct (decide (owned_range a b)) as [Hb|Hb].
  - rewrite (Hu b Hb) in Hp. done.
  - destruct (Hc b Hb) as [-> ->]. eauto.
Qed.

Lemma recorded_patch w i r e : recorded w i r e → Entry.patch e ∈ patches w.
Proof.
  intros [Hi He]. unfold patches. apply list_elem_of_omap. exists r.
  split; [by eapply list_elem_of_lookup_2|]. unfold patch_of. by rewrite He.
Qed.

(** The process with a new entry, and the new record. *)
Definition publish_entry (s : P) (e : Entry.t) w : process P :=
  mkProcess s (leaked w ++ [e]) (Some (length (leaked w)))
    (ENTRIES w ++ [Record_.Make (length (leaked w)) [Entry.dispatcher e]]) (LOCAL w).

Lemma recorded_publish w s e i r e' :
  routing_ok w → recorded (publish_entry s e w) i r e' →
  recorded w i r e' ∨
  (i = length (ENTRIES w) ∧ r = Record_.Make (length (leaked w)) [Entry.dispatcher e] ∧ e' = e).
Proof.
  intros Hw [Hi He]. simpl in *. apply lookup_app_Some in Hi as [Hi|[Hge Hi]].
  - left. destruct (ok_records w Hw _ _ Hi) as [e0 He0].
    rewrite (lookup_app_l_Some _ _ _ _ He0) in He. split; congruence.
  - right. apply list_lookup_singleton_Some in Hi as [Hz <-]. simpl in He.
    rewrite list_lookup_middle in He by done. split_and!; [lia|done|congruence].
Qed.

Lemma recorded_publish_old w s e i r e' :
  recorded w i r e' → recorded (publish_entry s e w) i r e'.
Proof. intros [Hi He]. split; simpl; by apply lookup_app_l_Some. Qed.

Lemma routing_ok_publish w s e :
  routing_ok w → unused w (Patch.entry (Entry.patch e)) (Entry.dispatcher e) →
  Entry.next e = HEAD w → code_ok s e →
  (∀ i r e', recorded w i r e' → code_ok s e') →
  Forall (λ p, overlap (Patch.address (Entry.patch e)) (Patch.stop (Entry.patch e)) p = false)
    (patches w) →
  routing_ok (publish_entry s e w).
Proof.
  intros Hw Hun Hnext He Hold Hov. rewrite Forall_forall in Hov.
  assert (∀ i r e' b, recorded w i r e' → in_patch (Entry.patch e) b →
    in_patch (Entry.patch e') b → False) as Hapart.
  { intros i r e' b Hr Hb Hb'. specialize (Hov _ (recorded_patch _ _ _ _ Hr)).
    unfold overlap, in_patch in *. lia. }
  split.
  - simpl. rewrite fmap_app, reverse_app. simpl. split; [done|]. exists e.
    rewrite list_lookup_middle by done. split; [done|]. rewrite Hnext. apply linked_app, Hw.
  - intros p e' q. simpl. rewrite lookup_app_Some. intros [Hp|[Hge Hp]] Hq;
      [by eapply (ok_older w Hw)|].
    apply list_lookup_singleton_Some in Hp as [Hz <-]. rewrite Hnext in Hq.
    pose proof (ok_links w Hw) as Hl.
    destruct (reverse (Record_.entry <$> ENTRIES w)) as [|p' l]; simpl in Hl; [congruence|].
    destruct Hl as (Hh & e' & He' & _). rewrite Hh in Hq. injection Hq as <-.
    apply lookup_lt_Some in He'. lia.
  - intros i r. simpl. rewrite lookup_app_Some. intros [Hi|[_ Hi]].
    + destruct (ok_records w Hw _ _ Hi) as [e' He']. exists e'. by apply lookup_app_l_Some.
    + apply list_lookup_singleton_Some in Hi as [_ <-]. exists e. by apply list_lookup_middle.
  - intros i r e' [Hr|(-> & -> & ->)]%recorded_publish; [|simpl; set_solver|done].
    split; [by eapply Hold|by eapply (ok_code w Hw)].
  - intros i j r r' e1 e2 b [Hr|(-> & -> & ->)]%recorded_publish
      [Hr'|(-> & -> & ->)]%recorded_publish; try done; intros Hne Hb Hb';
      first [exact (ok_apart w Hw _ _ _ _ _ _ _ Hr Hr' Hne Hb Hb')|by eapply Hapart|done].
  - intros i j r r' e1 e2 [Hr|(-> & -> & ->)]%recorded_publish
      [Hr'|(-> & -> & ->)]%recorded_publish; try done; intros Heq;
      first [exact (ok_sources w Hw _ _ _ _ _ _ Hr Hr' Heq)|by destruct (Hun _ _ _ Hr)
            |by destruct (Hun _ _ _ Hr')].
  - intros i j r r' d. simpl. rewrite !lookup_app_Some.
    intros [Hi|[Hgi Hi]] [Hj|[Hgj Hj]] Hd Hd'; [exact (ok_sites w Hw _ _ _ _ _ Hi Hj Hd Hd')|..];
      repeat match goal with
      | H : [_] !! _ = Some _ |- _ => apply list_lookup_singleton_Some in H as [? <-]
      end; simpl in *; try lia; exfalso.
    + destruct (ok_records w Hw _ _ Hi) as [e' He']. apply list_elem_of_singleton in Hd' as ->.
      by destruct (Hun i r e' (conj Hi He')).
    + destruct (ok_records w Hw _ _ Hj) as [e' He']. apply list_elem_of_singleton in Hd as ->.
      by destruct (Hun j r' e' (conj Hj He')).
  - intros thread l Hth. destruct (ok_locals w Hw _ _ Hth) as [Hnd Hx]. split; [done|].
    intros x Hin. destruct (Hx x Hin) as (? & i & r & e' & Hr & ?). split; [done|].
    exists i, r, e'. split; [by apply recorded_publish_old|done].
Qed.

(** [near] then a failed or successful [build], with the page dropped on
    failure: what was mapped before stays as it was. *)
Lemma near_run source s o s' :
  Executable.near source s = (o, s') →
  match o with
  | Ok page => Executable.sealed page = false ∧ 0 < Executable.address page ∧
      Executable.address page + CAPACITY ≤ isize_max ∧
      unmapped_page s (Executable.address page) ∧
      writable_page s' (Executable.address page) ∧ confined (Executable.address page) s s'
  | Err _ => keeps s s'
  | _ => False
  end.
Proof.
  unfold Executable.near. destruct (_ || _); [by intros [= <- <-]|].
  unfold mbind, M_bind. destruct (allocate source s) as [o1 s1] eqn:H1.
  pose proof (allocate_law _ _ _ _ H1) as Hl.
  destruct o1 as [a|e| |]; try done; intros [= <- <-]; [|done]. simpl. by destruct Hl as (?&?&?&?&?).
Qed.

Lemma drop_run page s o s' :
  Executable.drop page s = (o, s') →
  o = Abort ∨ o = Ok tt ∧ confined (Executable.address page) s s'.
Proof.
  unfold Executable.drop, finish, or_fatal, attempt, mbind, M_bind.
  destruct (release (Executable.address page) s) as [o1 s1] eqn:H1.
  pose proof (page_release_law _ _ _ _ H1) as Hl.
  destruct o1 as [[]|e| |]; try done; intros [= <- <-]; [|by left].
  right. by destruct Hl.
Qed.

Lemma confined_trans a s1 s2 s3 : confined a s1 s2 → confined a s2 s3 → confined a s1 s3.
Proof.
  intros H1 H2 b Hb. destruct (H1 b Hb) as [<- <-]. by apply H2.
Qed.

Lemma or_drop_build w source dispatcher bytes page o w' :
  Executable.sealed page = false → writable_page (os w) (Executable.address page) →
  0 < Executable.address page → Executable.address page + CAPACITY ≤ isize_max →
  or_drop page (build source dispatcher bytes page) w = (o, w') →
  o = Abort ∨
  returns o ∧ w' = set_os (os w') w ∧ confined (Executable.address page) (os w) (os w') ∧
  ∀ patch page' bridge, o = Ok (patch, page', bridge) →
    Executable.address page' = Executable.address page ∧
    built w' source dispatcher bytes patch page.
Proof.
  intros Hs Hw Ha Hm. unfold or_drop, attempt, mbind, M_bind.
  destruct (build source dispatcher bytes page w) as [o1 w1] eqn:H1.
  destruct (build_correct _ _ _ _ _ _ _ Hs Hw Ha Hm H1) as (Hret & Hw1 & Hc & Hok).
  destruct o1 as [[[patch page'] bridge]|e| |]; try done.
  { intros [= <- <-]. right. done. }
  unfold in_os. destruct (Executable.drop page (os w1)) as [o2 s2] eqn:H2.
  destruct (drop_run _ _ _ _ H2) as [->|[-> Hc2]]; intros [= <- <-]; [by left|right].
  split_and!; [done|rewrite Hw1; done|by eapply confined_trans|done].
Qed.

(** The code is in place once the write went through. *)
Lemma code_ok_new s0 s s' source dispatcher bytes patch page page' bridge head w3 :
  os w3 = s → keeps s0 s → built w3 source dispatcher bytes patch page →
  Executable.address page' = Executable.address page →
  unmapped_page s0 (Executable.address page) →
  (∀ k, (k < length bytes)%nat → is_Some (prot_at s0 (source + Z.of_nat k))) →
  written s s' (Patch.address patch) (Patch.replacement patch) → same_prot s s' →
  code_ok s' (Entry.Make patch dispatcher page' bridge 0 head).
Proof.
  intros Hs Hk [] Hpa Hunm Hm Hwr Hp. subst s.
  destruct built_bytes0 as (off & Haddr & Hat).
  pose proof (bytes_at_length _ _ _ Hat built_nonempty0) as Hlen.
  assert (∀ b, in_patch patch b → is_Some (prot_at s0 b)) as Hmap.
  { intros b Hb. unfold in_patch, Patch.stop in Hb.
    replace b with (source + Z.of_nat (Z.to_nat (b - source))) by lia. apply Hm. lia. }
  destruct Hwr as [Hin Hout]. split; simpl; try done.
  - lia.
  - intros b Hb. rewrite Hp. by apply Hk, Hmap.
  - rewrite Hpa. intros b Hb. rewrite Hp. destruct (built_page0 b Hb) as (p & -> & _). eauto.
  - by rewrite Hpa.
  - rewrite Hpa. destruct built_saved0 as (saved & jump & Ht & Hj & Hcap & Hh).
    exists saved, jump. split_and!; try done.
    intros k x Hx. pose proof (lookup_lt_Some _ _ _ Hx) as Hkl. rewrite Hout; [by apply Hh|].
    rewrite <-built_length0. intros Hb.
    destruct (Hmap (Executable.address page + Z.of_nat k)) as [p Hp'].
    { unfold in_patch, Patch.stop. lia. }
    rewrite Hunm in Hp'; [done|]. unfold owned_range. lia.
Qed.

(** Publishing an entry whose patch was written: the code of the others is
    untouched. *)
Lemma publish_written w s3 s4 entry source dispatcher bytes page :
  routing_ok w → unused w source dispatcher → outside_pages w source → keeps (os w) s3 →
  Z.of_nat (length bytes) ≤ Z.of_nat max_prefix →
  built (set_os s3 w) source dispatcher bytes (Entry.patch entry) page →
  written s3 s4 (Patch.address (Entry.patch entry)) (Patch.replacement (Entry.patch entry)) →
  same_prot s3 s4 → code_ok s4 entry → Entry.dispatcher entry = dispatcher →
  Entry.global entry = 0 → Entry.next entry = HEAD w →
  routing_ok (publish_entry s4 entry w).
Proof.
  intros Hw Hun Hout Hk3 Hlen Hb Hwritten Hprot Hnew Hd Hg Hnext.
  pose proof (built_bytes _ _ _ _ _ _ Hb) as (off & Haddr & Hat).
  pose proof (bytes_at_length _ _ _ Hat (built_nonempty _ _ _ _ _ _ Hb)) as Hfit.
  pose proof (built_apart _ _ _ _ _ _ Hb) as Hapart.
  change (patches (set_os s3 w)) with (patches w) in Hapart.
  pose proof (built_source _ _ _ _ _ _ Hb) as Hsource.
  pose proof (built_length _ _ _ _ _ _ Hb) as Hlen'.
  apply routing_ok_publish; simpl; try done.
  - by rewrite Hsource, Hd.
  - intros i r e' Hr. destruct (ok_code w Hw _ _ _ Hr) as [Hc _].
    eapply code_ok_written; [exact Hwritten|by apply same_prot_mapped| |by eapply code_ok_keeps].
    intros b Hbin Hfoot. rewrite <-Hlen' in Hbin. destruct Hfoot as [Hf|Hf].
    + rewrite Forall_forall in Hapart.
      specialize (Hapart _ (recorded_patch _ _ _ _ Hr)).
      unfold overlap, in_patch, Patch.stop in *. lia.
    + apply (Hout i r e' b); [done|lia|done].
Qed.

(** The end of [new_entry]: the entry is linked and its patch written, or the
    entry is left unlinked and the code as it was. *)
Lemma new_entry_written w s1 s2 source dispatcher bytes patch page page' bridge o :
  routing_ok w → unused w source dispatcher → outside_pages w source →
  Z.of_nat (length bytes) ≤ Z.of_nat max_prefix → keeps (os w) s1 →
  unmapped_page (os w) (Executable.address page) →
  (∀ k, (k < length bytes)%nat → is_Some (prot_at (os w) (source + Z.of_nat k))) →
  Executable.address page' = Executable.address page →
  built (set_os s1 w) source dispatcher bytes patch page →
  Memory.write (Patch.address patch) (Patch.original patch) (Patch.replacement patch) s1 = (o, s2) →
  let e := Entry.Make patch dispatcher page' bridge 0 (HEAD w) in
  match o with
  | Ok _ => routing_ok (publish_entry s2 e w) ∧ code_ok s2 e ∧ Patch.entry patch = source ∧
      ∀ b, is_Some (prot_at (os w) b) → ¬ in_patch patch b → byte_at s2 b = byte_at (os w) b
  | Err _ => keeps (os w) s2 ∧
      routing_ok (mkProcess s2 (leaked w ++ [e]) (HEAD w) (ENTRIES w) (LOCAL w))
  | Panic _ => False
  | Abort => True
  end.
Proof.
  intros Hw Hun Hout Hlen Hk Hunm Hm Hpa Hb Hwrite e.
  pose proof (replace_transaction _ _ _ _ _ _ Hwrite) as Ht.
  destruct o as [[]|x| |]; try done; simpl in Ht.
  - destruct Ht as (_ & _ & Hwritten & Hprot).
    assert (code_ok s2 e) as Hnew
      by by apply (code_ok_new (os w) s1 s2 source dispatcher bytes patch page page' bridge _ (set_os s1 w)).
    split_and!; [by eapply (publish_written w s1 s2 e source dispatcher bytes page)|done| |].
    + by apply (built_source _ _ _ _ _ _ Hb).
    + intros b Hbm Hnp. destruct Hwritten as [_ Hno]. rewrite Hno; [by apply Hk|].
      rewrite <-(built_length _ _ _ _ _ _ Hb). exact Hnp.
  - destruct Ht as (Hsb & Hsm & _).
    assert (keeps (os w) s2) as Hk2.
    { etrans; [exact Hk|]. intros b Hbm. split; [apply Hsb|by apply Hsm]. }
    split; [done|]. apply (routing_ok_frame w s2 [e] Hw Hk2); [by constructor|simpl; lia].
Qed.

(** What [new_entry] does to the process. *)
Lemma new_entry_correct w source dispatcher o w' :
  routing_ok w → unused w source dispatcher → outside_pages w source →
  new_entry source dispatcher w = (o, w') →
  match o with
  | Ok p => routing_ok w' ∧ p = length (leaked w) ∧
      ∃ e, w' = publish_entry (os w') e w ∧ code_ok (os w') e ∧
        Patch.entry (Entry.patch e) = source ∧ Entry.dispatcher e = dispatcher ∧
        Entry.global e = 0 ∧
        ∀ b, is_Some (prot_at (os w) b) → ¬ in_patch (Entry.patch e) b →
          byte_at (os w') b = byte_at (os w) b
  | Err _ => routing_ok w' ∧ keeps (os w) (os w') ∧
      ∃ es, w' = mkProcess (os w') (leaked w ++ es) (HEAD w) (ENTRIES w) (LOCAL w)
  | Panic _ => False
  | Abort => True
  end.
Proof.
  intros Hw Hun Hout. unfold new_entry.
  assert (∀ s', keeps (os w) s' → routing_ok (set_os s' w) ∧ keeps (os w) s' ∧
    ∃ es, set_os s' w = mkProcess s' (leaked w ++ es) (HEAD w) (ENTRIES w) (LOCAL w)) as Hkeep.
  { intros s' Hk. pose proof (routing_ok_frame w s' [] Hw Hk) as Hf. rewrite app_nil_r in Hf.
    split_and!; [apply Hf; [done|simpl; lia]|done|]. exists []. by rewrite app_nil_r. }
  unfold mbind at 1, M_bind at 1.
  destruct (Memory.read source (Z.of_nat max_prefix) (os w)) as [o1 s1] eqn:H1.
  destruct (read_run source (Z.of_nat max_prefix) (os w) o1 s1 ltac:(lia) H1)
    as (Hret1 & Hv1 & Hbytes).
  rewrite (in_os_run _ w _ _ H1).
  destruct o1 as [bytes|e| |]; try done;
    [|intros [= <- <-]; by apply Hkeep, same_view_keeps].
  destruct (Hbytes _ eq_refl) as (Hlen & Hholds & Hrun). clear Hbytes.
  unfold mbind at 1, M_bind at 1.
  destruct (Executable.near source s1) as [o2 s2] eqn:H2.
  pose proof (near_run _ _ _ _ H2) as Hn.
  rewrite (in_os_run _ (set_os s1 w) _ _ H2).
  destruct o2 as [page|e| |]; try done;
    [|intros [= <- <-]; apply (Hkeep s2); etrans; [by apply same_view_keeps|done]].
  destruct Hn as (Hsealed & Hpos & Hmax & Hunm & Hwr & Hc2).
  unfold mbind at 1, M_bind at 1.
  destruct (or_drop page (build source dispatcher bytes page) (set_os s2 (set_os s1 w)))
    as [o3 w3] eqn:H3.
  destruct (or_drop_build (set_os s2 (set_os s1 w)) _ _ _ _ _ _ Hsealed Hwr Hpos Hmax H3)
    as [->|(Hret3 & Hw3 & Hc3 & Hok)]; [by intros [= <- <-]|].
  assert (keeps (os w) (os w3)) as Hk3.
  { etrans; [by apply same_view_keeps|].
    apply (keeps_confined (Executable.address page)); [done|by eapply confined_trans]. }
  assert (w3 = set_os (os w3) w) as Hw3'. { rewrite Hw3. done. }
  destruct o3 as [[[patch page'] bridge]|e| |]; try done.
  2:{ intros [= <- <-]. rewrite Hw3'. apply (Hkeep (os w3) Hk3). }
  destruct (Hok _ _ _ eq_refl) as [Hpa Hb]. clear Hok.
  assert (∃ s3, w3 = set_os s3 w) as [s3 ->] by eauto. clear Hw3 Hw3' H3. simpl in Hk3.
  set (entry := Entry.Make patch dispatcher page' bridge 0 (HEAD w)).
  unfold mbind, M_bind, gets, modify, attempt, in_os. simpl. fold entry.
  destruct (Memory.write (Patch.address patch) (Patch.original patch) (Patch.replacement patch)
    s3) as [o4 s4] eqn:H4. simpl.
  assert (unmapped_page (os w) (Executable.address page)) as Hunm'.
  { intros b Hin. destruct Hv1 as [_ Hp1]. rewrite <-Hp1. by apply Hunm. }
  assert (∀ k, (k < length bytes)%nat → is_Some (prot_at (os w) (source + Z.of_nat k))) as Hm.
  { intros k Hkl. destruct (Hrun k Hkl) as (p & -> & _). eauto. }
  pose proof (new_entry_written w s3 s4 source dispatcher bytes patch page page' bridge o4
    Hw Hun Hout Hlen Hk3 Hunm' Hm Hpa Hb H4) as Ht.
  destruct o4 as [[]|e| |]; try done; intros [= <- <-]; simpl in Ht.
  - destruct Ht as (Hrok & Hnew & Hsource & Hrest). split_and!; [exact Hrok|done|].
    by exists entry.
  - destruct Ht as [Hk4 Hrok]. split_and!; [exact Hrok|done|by exists [entry]].
  - exact I.
Qed.

(** ** Looking up a route *)

(** The replacement of a function on a thread. *)
Definition local_target w (thread : nat) (source : Z) : option Z :=
  l ← local_routes thread w;
  Local.target <$> find (λ x, Local.source x =? source) l.

Lemma find_ext_in {A} (f g : A → bool) l :
  (∀ x, x ∈ l → f x = g x) → find f l = find g l.
Proof.
  induction l as [|x l IH]; intros Hext; [done|]. simpl.
  rewrite (Hext x) by (by left). rewrite IH by (intros; apply Hext; by right). done.
Qed.

(** The record a published dispatcher belongs to is unique. *)
Lemma recorded_unique w i j r r' e e' :
  routing_ok w → recorded w i r e → recorded w j r' e' →
  Entry.dispatcher e = Entry.dispatcher e' ∨
    Patch.entry (Entry.patch e) = Patch.entry (Entry.patch e') →
  i = j ∧ r = r' ∧ e = e'.
Proof.
  intros Hw Hr Hr' Hd.
  assert (i = j) as ->.
  { destruct Hd as [Hd|Hd]; [|by eapply (ok_sources w Hw _ _ _ _ _ _ Hr Hr')].
    destruct (ok_code w Hw _ _ _ Hr) as [_ Hs], (ok_code w Hw _ _ _ Hr') as [_ Hs'].
    rewrite Hd in Hs. destruct Hr as [Hi _], Hr' as [Hj _].
    by eapply (ok_sites w Hw _ _ _ _ _ Hi Hj). }
  destruct Hr as [Hi He], Hr' as [Hj He']. split_and!; congruence.
Qed.

Lemma local_by_dispatcher w thread l i r e :
  routing_ok w → local_routes thread w = Some l → recorded w i r e →
  find (λ x, Local.dispatcher x =? Entry.dispatcher e) l =
  find (λ x, Local.source x =? Patch.entry (Entry.patch e)) l.
Proof.
  intros Hw Hl Hr. apply find_ext_in. intros x Hx.
  unfold local_routes in Hl. destruct (LOCAL w !! thread) as [l'|] eqn:Hth; simplify_eq;
    [|by apply not_elem_of_nil in Hx].
  destruct (ok_locals w Hw _ _ Hth) as [_ Hloc].
  destruct (Hloc x Hx) as (_ & j & r' & e' & Hr' & Hs & Hd).
  destruct (Z.eqb_spec (Local.dispatcher x) (Entry.dispatcher e)) as [Heq|Hne],
    (Z.eqb_spec (Local.source x) (Patch.entry (Entry.patch e))) as [Heq'|Hne']; try done.
  - destruct (recorded_unique w _ _ _ _ _ _ Hw Hr Hr') as (_ & _ & <-); [left; congruence|done].
  - destruct (recorded_unique w _ _ _ _ _ _ Hw Hr Hr') as (_ & _ & <-); [right; congruence|done].
Qed.

(** What the dispatcher of [e] reaches when the thread has no route. *)
Definition shared_target (e : Entry.t) (o : outcome Error (option Z)) : Prop :=
  if decide (Entry.global e = 0) then
    o = Ok (Some (Executable.address (Entry.original e))) ∨
    (Entry.call_bridge e = true ∧
     o = Panic "original call is not supported with shadow stacks")
  else o = Ok (Some (Entry.global e)).

Lemma entry_target_run w e o w' :
  (t ← entry_target e; mret (Some t)) w = (o, w') →
  shared_target e o ∧ w' = set_os (os w') w ∧ same_view (os w) (os w').
Proof.
  unfold shared_target, entry_target.
  destruct (Z.eqb_spec (Entry.global e) 0) as [He|He].
  2:{ intros [= <- <-]. rewrite decide_False, set_os_id by done. split_and!; done || reflexivity. }
  rewrite decide_True by done. destruct (Entry.call_bridge e).
  2:{ intros [= <- <-]. rewrite set_os_id. split_and!; [by left|done|reflexivity]. }
  unfold mbind, M_bind, attempt, in_os.
  destruct (check_call_bridge (os w)) as [o1 s1] eqn:H1.
  destruct (check_call_bridge_run _ _ _ H1) as [Hret Hv].
  destruct o1 as [[]|err| |]; try done; intros [= <- <-]; (split_and!; [by auto|done|done]).
Qed.

Lemma fallback_loop_run fuel w d cursor l :
  linked (leaked w) cursor l →
  (∀ p e q, leaked w !! p = Some e → Entry.next e = Some q → (q < p)%nat) →
  (∀ p, cursor = Some p → (p < fuel)%nat) →
  (∃ p e, p ∈ l ∧ leaked w !! p = Some e ∧ Entry.dispatcher e = d ∧
     fallback_loop fuel d cursor w = (t ← entry_target e; mret (Some t)) w) ∨
  (∀ p e, p ∈ l → leaked w !! p = Some e → Entry.dispatcher e ≠ d) ∧
  fallback_loop fuel d cursor w = (Ok None, w).
Proof.
  intros Hl Hold. revert fuel cursor Hl. induction l as [|p l IH]; intros fuel cursor Hl Hf.
  { simpl in Hl. subst cursor. right. split; [by intros ? ? ?%not_elem_of_nil|by destruct fuel]. }
  destruct Hl as (-> & e & He & Hl). specialize (Hf _ eq_refl) as Hp.
  destruct fuel as [|fuel]; [lia|].
  assert (fallback_loop (S fuel) d (Some p) w =
    (if Entry.dispatcher e =? d then t ← entry_target e; mret (Some t)
     else fallback_loop fuel d (Entry.next e)) w) as ->.
  { cbn [fallback_loop]. unfold mbind at 1, M_bind at 1, gets.
    unfold mbind at 1, M_bind at 1, lift. by rewrite He. }
  destruct (Z.eqb_spec (Entry.dispatcher e) d) as [Hd|Hd].
  { left. exists p, e. split_and!; [by left|done..]. }
  destruct (IH fuel (Entry.next e) Hl) as [(p' & e' & Hp' & ?)|[Hno Hrun]].
  - intros q Hq. specialize (Hold _ _ _ He Hq). lia.
  - left. exists p', e'. split; [by right|done].
  - right. split; [|done]. intros p' e' [->|Hp']%elem_of_cons He'; [congruence|by eauto].
Qed.

Lemma linked_recorded w p :
  routing_ok w → p ∈ reverse (Record_.entry <$> ENTRIES w) →
  ∃ i r e, Record_.entry r = p ∧ recorded w i r e.
Proof.
  intros Hw Hp. rewrite elem_of_reverse in Hp.
  apply list_elem_of_fmap in Hp as (r & -> & [i Hi]%list_elem_of_lookup).
  destruct (ok_records w Hw _ _ Hi) as [e He]. by exists i, r, e.
Qed.

Lemma fallback_run w d :
  routing_ok w →
  (∃ i r e, recorded w i r e ∧ Entry.dispatcher e = d ∧
     fallback d w = (t ← entry_target e; mret (Some t)) w) ∨
  (∀ i r e, recorded w i r e → Entry.dispatcher e ≠ d) ∧ fallback d w = (Ok None, w).
Proof.
  intros Hw. assert (fallback d w = fallback_loop (length (leaked w)) d (HEAD w) w) as -> by done.
  destruct (fallback_loop_run (length (leaked w)) w d (HEAD w) _ (ok_links w Hw) (ok_older w Hw))
    as [(p & e & Hp & He & Hd & Hrun)|[Hno Hrun]].
  - intros p Hp. pose proof (ok_links w Hw) as Hl.
    destruct (reverse (Record_.entry <$> ENTRIES w)) as [|p' l]; simpl in Hl; [congruence|].
    destruct Hl as (Hh & e & He & _). rewrite Hh in Hp. injection Hp as <-.
    by eapply lookup_lt_Some.
  - left. destruct (linked_recorded w p Hw Hp) as (i & r & e' & <- & Hr).
    exists i, r, e. split_and!; [|done..]. destruct Hr as [? _]. done.
  - right. split; [|done]. intros i r e [Hi He]. apply (Hno (Record_.entry r)); [|done].
    rewrite elem_of_reverse. apply list_elem_of_fmap. exists r.
    split; [done|by eapply list_elem_of_lookup_2].
Qed.

(** ** Installing a route *)

(** Adding a dispatcher to the sites of a record. *)
Definition with_site (i : nat) (d : Z) w : process P :=
  set_entries (alter (λ r, Record_.Make (Record_.entry r) (Record_.sites r ++ [d])) i (ENTRIES w)) w.

Lemma recorded_with_site w i d j r e :
  recorded (with_site i d w) j r e ↔
  ∃ r0, recorded w j r0 e ∧ Record_.entry r = Record_.entry r0 ∧
    Record_.sites r = Record_.sites r0 ++ (if decide (i = j) then [d] else []).
Proof.
  unfold recorded, with_site. simpl. destruct (decide (i = j)) as [->|Hne].
  - rewrite list_lookup_alter_eq. split.
    + intros [Hj He]. apply fmap_Some in Hj as (r0 & Hj & ->). eauto.
    + intros (r0 & [Hj He] & Hre & Hrs). rewrite Hj. destruct r, r0. simpl in *. naive_solver.
  - rewrite list_lookup_alter_ne by done. split; [intros [Hj He]; exists r|].
    + by rewrite app_nil_r.
    + intros (r0 & [Hj He] & Hre & Hrs). rewrite app_nil_r in Hrs.
      destruct r, r0. simpl in *. naive_solver.
Qed.

Lemma routing_ok_with_site w i d r e :
  routing_ok w → recorded w i r e →
  (∀ j r', ENTRIES w !! j = Some r' → d ∈ Record_.sites r' → j = i) →
  routing_ok (with_site i d w).
Proof.
  intros Hw Hr Hd.
  assert (∀ j r', ENTRIES (with_site i d w) !! j = Some r' →
    ∃ r0, ENTRIES w !! j = Some r0 ∧ Record_.entry r' = Record_.entry r0 ∧
      ∀ x, x ∈ Record_.sites r' → x ∈ Record_.sites r0 ∨ i = j ∧ x = d) as Hback.
  { intros j r' Hj. unfold with_site in Hj. simpl in Hj.
    destruct (decide (i = j)) as [<-|Hne].
    - rewrite list_lookup_alter_eq in Hj. apply fmap_Some in Hj as (r0 & Hj & ->).
      exists r0. split_and!; [done..|]. simpl. intros x. rewrite elem_of_app, list_elem_of_singleton.
      naive_solver.
    - rewrite list_lookup_alter_ne in Hj by done. exists r'. naive_solver. }
  split.
  - assert (Record_.entry <$> ENTRIES (with_site i d w) = Record_.entry <$> ENTRIES w) as ->.
    { unfold with_site. simpl. apply list_eq. intros j. rewrite !list_lookup_fmap.
      destruct (decide (i = j)) as [<-|Hne].
      - rewrite list_lookup_alter_eq. by destruct (ENTRIES w !! i).
      - by rewrite list_lookup_alter_ne. }
    apply (ok_links w Hw).
  - apply (ok_older w Hw).
  - intros j r' (r0 & Hj & -> & _)%Hback. by apply (ok_records w Hw j).
  - intros j r' e' (r0 & Hr0 & Hre & Hrs)%recorded_with_site.
    destruct (ok_code w Hw _ _ _ Hr0) as [Hc Hin]. split; [done|].
    rewrite Hrs. apply elem_of_app. by left.
  - intros j k r1 r2 e1 e2 b (? & H1 & _)%recorded_with_site (? & H2 & _)%recorded_with_site.
    exact (ok_apart w Hw _ _ _ _ _ _ b H1 H2).
  - intros j k r1 r2 e1 e2 (? & H1 & _)%recorded_with_site (? & H2 & _)%recorded_with_site.
    exact (ok_sources w Hw _ _ _ _ _ _ H1 H2).
  - intros j k r1 r2 x (r3 & Hj & _ & Hs1)%Hback (r4 & Hk & _ & Hs2)%Hback Hx1 Hx2.
    destruct (Hs1 _ Hx1) as [Hx1'|[E1 F1]], (Hs2 _ Hx2) as [Hx2'|[E2 F2]].
    + by eapply (ok_sites w Hw _ _ _ _ _ Hj Hk).
    + rewrite <-E2. rewrite F2 in Hx1'. by eapply Hd.
    + rewrite <-E1. symmetry. rewrite F1 in Hx2'. by eapply Hd.
    + congruence.
  - intros thread l Hth. destruct (ok_locals w Hw _ _ Hth) as [Hnd Hx]. split; [done|].
    intros x Hin. destruct (Hx x Hin) as (? & j & r' & e' & Hr' & ?). split; [done|].
    exists j, (Record_.Make (Record_.entry r')
      (Record_.sites r' ++ (if decide (i = j) then [d] else []))), e'.
    split; [|done]. rewrite recorded_with_site. by exists r'.
Qed.

Lemma find_entry_Some w source i r :
  routing_ok w → find_entry source w = Some (i, r) →
  ∃ e, recorded w i r e ∧ Patch.entry (Entry.patch e) = source.
Proof.
  intros Hw (Hi & He & _)%list_find_Some. destruct (ok_records w Hw _ _ Hi) as [e Hl].
  exists e. unfold is_entry, patch_of in He. rewrite Hl in He. simpl in He.
  split; [done|congruence].
Qed.

Lemma find_entry_None w source i r e :
  find_entry source w = None → recorded w i r e → Patch.entry (Entry.patch e) ≠ source.
Proof.
  intros Hn [Hi He] Hs. apply list_find_None in Hn. rewrite Forall_forall in Hn.
  apply (Hn r); [by eapply list_elem_of_lookup_2|]. unfold is_entry, patch_of.
  rewrite He. simpl. by rewrite Hs.
Qed.

(** Pushing a route of a recorded function. *)
Lemma routing_ok_push w thread l source target i r e :
  routing_ok w → local_routes thread w = Some l → recorded w i r e →
  Patch.entry (Entry.patch e) = source → target ≠ source →
  existsb (λ x, Local.source x =? source) l = false →
  routing_ok (set_local thread (l ++ [Local.Make source (Entry.dispatcher e) target]) w).
Proof.
  intros Hw Hl Hr Hs Ht Hno. destruct (Hw). split; try done. simpl.
  intros thread' l'. rewrite lookup_insert_Some. intros [[<- [= <-]]|[Hne Hth]];
    [|by apply (ok_locals w Hw thread')].
  assert (NoDup (Local.source <$> l) ∧ ∀ x, x ∈ l → Local.target x ≠ Local.source x ∧
    ∃ i r e, recorded w i r e ∧ Patch.entry (Entry.patch e) = Local.source x ∧
      Entry.dispatcher e = Local.dispatcher x) as [Hnd Hx].
  { unfold local_routes in Hl. destruct (LOCAL w !! thread) as [l'|] eqn:Hth; simplify_eq.
    - exact (ok_locals w Hw _ _ Hth).
    - split; [constructor|by intros x ?%not_elem_of_nil]. }
  split.
  - rewrite fmap_app. apply NoDup_app. split_and!; [done| |apply NoDup_singleton].
    intros x Hin Hx'. apply list_elem_of_singleton in Hx' as ->. simpl in Hin.
    apply list_elem_of_fmap in Hin as (y & Hy & Hin).
    assert (existsb (λ x, Local.source x =? source) l = true) as Hex; [|congruence].
    apply existsb_exists. exists y. split; [by apply list_elem_of_In|]. apply Z.eqb_eq. done.
  - intros x [Hin| ->%list_elem_of_singleton]%elem_of_app; [by apply Hx|]. simpl.
    split; [done|]. by exists i, r, e.
Qed.

Lemma local_target_push w thread l x thread' source' :
  local_routes thread w = Some l →
  existsb (λ y, Local.source y =? Local.source x) l = false →
  local_target (set_local thread (l ++ [x]) w) thread' source' =
  if decide (thread' = thread ∧ source' = Local.source x) then Some (Local.target x)
  else local_target w thread' source'.
Proof.
  intros Hl Hno. unfold local_target, local_routes. simpl.
  destruct (decide (thread' = thread)) as [->|Hne].
  - rewrite lookup_insert_eq. simpl. change (match LOCAL w !! thread with Some l => l | None => Some [] end)
      with (local_routes thread w). rewrite Hl. simpl.
    assert (find (λ y, Local.source y =? source') (l ++ [x]) =
      match find (λ y, Local.source y =? source') l with
      | Some y => Some y
      | None => if Local.source x =? source' then Some x else None
      end) as ->.
    { clear. induction l as [|y l IH]; [done|]. simpl.
      by destruct (Local.source y =? source'). }
    destruct (decide (source' = Local.source x)) as [->|Hs].
    + rewrite decide_True by done. rewrite Z.eqb_refl.
      destruct (find _ l) as [y|] eqn:Hf; [|done].
      apply find_some in Hf as [Hin Hy].
      assert (existsb (λ y, Local.source y =? Local.source x) l = true); [|congruence].
      apply existsb_exists. eauto.
    + rewrite decide_False by naive_solver. destruct (find _ l); [done|].
      destruct (Z.eqb_spec (Local.source x) source'); [congruence|done].
  - rewrite lookup_insert_ne by done. by rewrite decide_False by naive_solver.
Qed.

(** What a successful installation means. *)
Record installed w w' (thread : nat) (source dispatcher target : Z) (e : Entry.t) : Prop := {
  installed_entry : ∃ i r, recorded w' i r e ∧ dispatcher ∈ Record_.sites r;
  installed_source : Patch.entry (Entry.patch e) = source;
  installed_fresh : local_target w thread source = None;
  installed_target : target ≠ source;
  installed_locals thread' source' :
    local_target w' thread' source' =
    if decide (thread' = thread ∧ source' = source) then Some target
    else local_target w thread' source';
  installed_access thread' : is_Some (local_routes thread' w) → is_Some (local_routes thread' w');
  installed_others j r e' : recorded w j r e' → ∃ r', recorded w' j r' e';
  installed_new : (∃ i r, recorded w i r e) ∨
    (∀ i r e', recorded w i r e' → Patch.entry (Entry.patch e') ≠ source) ∧
    Entry.dispatcher e = dispatcher ∧ Entry.global e = 0;
  installed_only j r e' : recorded w' j r e' → e' ≠ e → ∃ r', recorded w j r' e';
  installed_bytes b :
    is_Some (prot_at (os w) b) → ¬ in_patch (Entry.patch e) b →
    byte_at (os w') b = byte_at (os w) b;
  installed_patched : (∃ i r, recorded w i r e) → keeps (os w) (os w') }.

(** A failed installation: only unmapped memory and unpublished entries. *)
Definition not_installed w w' : Prop :=
  keeps (os w) (os w') ∧
  ∃ es, w' = mkProcess (os w') (leaked w ++ es) (HEAD w) (ENTRIES w) (LOCAL w).

Lemma routing_ok_os w s : routing_ok w → keeps (os w) s → routing_ok (set_os s w).
Proof.
  intros Hw Hk. pose proof (routing_ok_frame w s [] Hw Hk) as Hf. rewrite app_nil_r in Hf.
  apply Hf; [done|simpl; lia].
Qed.

Lemma not_installed_os w s : keeps (os w) s → not_installed w (set_os s w).
Proof. intros Hk. split; [done|]. exists []. by rewrite app_nil_r. Qed.

(** The last step: the route is pushed. *)
Lemma push_installed w0 w w' thread l source dispatcher target i r e :
  routing_ok w → local_routes thread w = Some l → LOCAL w = LOCAL w0 →
  recorded w i r e → dispatcher ∈ Record_.sites r →
  Patch.entry (Entry.patch e) = source → target ≠ source →
  existsb (λ x, Local.source x =? source) l = false →
  (∀ j r e', recorded w0 j r e' → ∃ r', recorded w j r' e') →
  ((∃ i r, recorded w0 i r e) ∨
    (∀ i r e', recorded w0 i r e' → Patch.entry (Entry.patch e') ≠ source) ∧
    Entry.dispatcher e = dispatcher ∧ Entry.global e = 0) →
  (∀ j r e', recorded w j r e' → e' ≠ e → ∃ r', recorded w0 j r' e') →
  (∀ b, is_Some (prot_at (os w0) b) → ¬ in_patch (Entry.patch e) b →
    byte_at (os w) b = byte_at (os w0) b) →
  ((∃ i r, recorded w0 i r e) → keeps (os w0) (os w)) →
  w' = set_local thread (l ++ [Local.Make source (Entry.dispatcher e) target]) w →
  routing_ok w' ∧ installed w0 w' thread source dispatcher target e.
Proof.
  intros Hw Hl Hlocal Hr Hsite Hs Ht Hno Hothers Hnew Honly Hbytes Hkeeps ->.
  assert (∀ th, local_routes th w = local_routes th w0) as Hlr.
  { intros th. unfold local_routes. by rewrite Hlocal. }
  assert (∀ th src, local_target w th src = local_target w0 th src) as Hlt.
  { intros th src. unfold local_target. by rewrite Hlr. }
  split; [by eapply routing_ok_push|]. split; try done.
  - exists i, r. done.
  - rewrite <-Hlt. unfold local_target. rewrite Hl. simpl.
    destruct (find _ l) as [y|] eqn:Hf; [|done]. apply find_some in Hf as [Hin Hy].
    assert (existsb (λ x, Local.source x =? source) l = true); [|congruence].
    apply existsb_exists. eauto.
  - intros th src. rewrite (local_target_push w thread l) by done. simpl. by rewrite Hlt.
  - intros th. rewrite <-Hlr. unfold local_routes. simpl.
    destruct (decide (th = thread)) as [->|Hne]; [rewrite lookup_insert_eq; eauto|].
    by rewrite lookup_insert_ne.
Qed.

(** Without a conflict the dispatcher is a site of no other function. *)
Lemma no_conflict_sites w source dispatcher target i r e :
  existsb (conflicts w source dispatcher target) (ENTRIES w) = false →
  recorded w i r e → Patch.entry (Entry.patch e) ≠ source → dispatcher ∉ Record_.sites r.
Proof.
  intros Hconf [Hi He] Hne Hin.
  assert (existsb (conflicts w source dispatcher target) (ENTRIES w) = true); [|congruence].
  apply existsb_exists. exists r. split; [by eapply list_elem_of_In, list_elem_of_lookup_2|].
  unfold conflicts, patch_of. rewrite He. simpl.
  rewrite (proj2 (Z.eqb_neq _ _)) by congruence. rewrite bool_decide_true by done.
  by rewrite !orb_true_r.
Qed.

(** Remembering a site of a function that has an entry. *)
Lemma add_site_run w dispatcher i r e :
  routing_ok w → recorded w i r e →
  (∀ j r' e', recorded w j r' e' → Patch.entry (Entry.patch e') ≠ Patch.entry (Entry.patch e) →
    dispatcher ∉ Record_.sites r') →
  ∃ w' r', add_site dispatcher i r w = (Ok (Record_.entry r), w') ∧ routing_ok w' ∧
    recorded w' i r' e ∧ dispatcher ∈ Record_.sites r' ∧
    Record_.entry r' = Record_.entry r ∧ LOCAL w' = LOCAL w ∧
    os w' = os w ∧ leaked w' = leaked w ∧
    (∀ j r' e', recorded w j r' e' → ∃ r'', recorded w' j r'' e') ∧
    ∀ j r' e', recorded w' j r' e' → ∃ r'', recorded w j r'' e'.
Proof.
  intros Hw Hr Hsites. unfold add_site, mbind, M_bind, gets.
  destruct (bool_decide_reflect (dispatcher ∈ Record_.sites r)) as [Hin|Hnin].
  { exists w, r. split_and!; try done; intros j r' e' ?; by exists r'. }
  exists (with_site i dispatcher w), (Record_.Make (Record_.entry r) (Record_.sites r ++ [dispatcher])).
  split_and!; try done.
  - unfold modify, with_site. simpl. destruct Hr as [Hi _].
    by rewrite (list_alter_insert _ _ _ _ Hi).
  - eapply routing_ok_with_site; [done..|]. intros j r' Hj Hd.
    destruct (decide (j = i)) as [|Hne]; [done|exfalso].
    destruct (ok_records w Hw _ _ Hj) as [e' He'].
    apply (Hsites j r' e' (conj Hj He')); [|done]. intros Hs'. apply Hne.
    by apply (ok_sources w Hw j i r' r e' e).
  - rewrite recorded_with_site. exists r. by rewrite decide_True.
  - simpl. apply elem_of_app. right. by left.
  - intros j r' e' Hr'. eexists. rewrite recorded_with_site. exists r'.
    split; [exact Hr'|]. instantiate (1 := Record_.Make _ _). done.
  - intros j r' e' (r0 & Hr' & _)%recorded_with_site. by exists r0.
Qed.

Lemma push_route_run w thread source target p e l :
  leaked w !! p = Some e → local_routes thread w = Some l →
  push_route thread source target p w =
    (Ok tt, set_local thread (l ++ [Local.Make source (Entry.dispatcher e) target]) w).
Proof.
  intros He Hl. unfold push_route, mbind, M_bind, gets, lift, with_local, modify.
  rewrite He. cbn [expect]. rewrite Hl. done.
Qed.

(** Installation for a function that has an entry. *)
Lemma install_known w w2 thread l source dispatcher target i r :
  routing_ok w2 → w2 = set_os (os w2) w → keeps (os w) (os w2) →
  local_routes thread w = Some l → source ≠ target →
  existsb (λ x, Local.source x =? source) l = false →
  existsb (conflicts w source dispatcher target) (ENTRIES w) = false →
  find_entry source w2 = Some (i, r) →
  ∃ w', (p ← add_site dispatcher i r; push_route thread source target p) w2 = (Ok tt, w') ∧
    routing_ok w' ∧ ∃ e, installed w w' thread source dispatcher target e.
Proof.
  intros Hw2 E Hk Hl Hst Hno Hconf Hf. rewrite E in *. clear E.
  destruct (find_entry_Some _ _ _ _ Hw2 Hf) as (e & Hr & Hs).
  destruct (add_site_run _ dispatcher i r e Hw2 Hr) as
    (w3 & r3 & Hrun & Hw3 & Hr3 & Hsite & Hre & Hloc & Hos & Hleak & Hoth & Hback).
  { intros j r' e' Hr' Hne. eapply (no_conflict_sites w); [done|exact Hr'|congruence]. }
  unfold mbind, M_bind. rewrite Hrun. destruct Hr3 as [Hi3 He3]. rewrite Hre in He3.
  rewrite (push_route_run w3 thread source target _ e l)
    by (try done; unfold local_routes in *; by rewrite Hloc).
  eexists. split; [done|].
  destruct (push_installed w w3 (set_local thread (l ++ [Local.Make source (Entry.dispatcher e) target]) w3)
    thread l source dispatcher target i r3 e) as [? ?]; try done.
  - unfold local_routes in *. by rewrite Hloc.
  - split; [done|by rewrite Hre].
  - left. by exists i, r.
  - intros j r' e' Hr' _. by eapply Hback.
  - intros b Hb _. rewrite Hos. by apply Hk.
  - intros _. by rewrite Hos.
  - split; [done|]. by exists e.
Qed.

(** Installation for a function without one. *)
Lemma install_fresh w w2 thread l source dispatcher target o w' :
  routing_ok w2 → w2 = set_os (os w2) w → keeps (os w) (os w2) →
  local_routes thread w = Some l → source ≠ target → outside_pages w source →
  existsb (λ x, Local.source x =? source) l = false →
  existsb (conflicts w source dispatcher target) (ENTRIES w) = false →
  find_entry source w2 = None →
  (p ← new_entry source dispatcher; push_route thread source target p) w2 = (o, w') →
  match o with
  | Ok _ => routing_ok w' ∧ ∃ e, installed w w' thread source dispatcher target e
  | Err _ => routing_ok w' ∧ not_installed w w'
  | Panic _ => False
  | Abort => True
  end.
Proof.
  intros Hw2 E Hk Hl Hst Hout Hno Hconf Hf.
  assert (unused w2 source dispatcher) as Hun.
  { intros i r e Hr. pose proof (find_entry_None w2 source i r e Hf Hr) as Hne.
    split; [done|]. rewrite E in Hr. by eapply (no_conflict_sites w). }
  unfold mbind, M_bind. destruct (new_entry source dispatcher w2) as [o3 w3] eqn:H3.
  assert (outside_pages w2 source) as Hout2 by (by rewrite E).
  pose proof (new_entry_correct w2 source dispatcher o3 w3 Hw2 Hun Hout2 H3) as Hnew.
  destruct o3 as [p|err| |]; try done; [|intros [= <- <-]; try done..].
  2:{ destruct Hnew as (? & Hk3 & es & E3). split; [done|]. split; [by etrans|].
      exists es. rewrite E3, E. done. }
  destruct Hnew as (Hw3 & -> & e & E3 & Hc & Hs & Hd & Hg & Hb).
  assert (∃ s3, w3 = publish_entry s3 e w2) as [s3 ->] by eauto. clear E3.
  rewrite (push_route_run _ thread source target _ e l);
    [|by apply list_lookup_middle|by rewrite E]. intros [= <- <-].
  destruct (push_installed w (publish_entry s3 e w2)
    (set_local thread (l ++ [Local.Make source (Entry.dispatcher e) target]) (publish_entry s3 e w2))
    thread l source dispatcher target (length (ENTRIES w2)) (Record_.Make (length (leaked w2)) [Entry.dispatcher e])
    e) as [? ?]; try done.
  - by rewrite E.
  - by rewrite E.
  - split; simpl; by apply list_lookup_middle.
  - simpl. rewrite Hd. by left.
  - intros j r e' Hr. exists r. apply recorded_publish_old. by rewrite E.
  - right. split; [|done]. intros i r e' Hr. rewrite E in Hun. by destruct (Hun i r e' Hr).
  - intros j r e' Hr Hne. apply recorded_publish in Hr as [Hr|(_ & _ & ->)]; [|done..].
    exists r. by rewrite E in Hr.
  - simpl. intros b Hm Hnp. destruct (Hk b Hm) as [<- Hm2]. by apply Hb.
  - intros (i & r & Hr). rewrite E in Hun. by destruct (Hun i r e Hr).
  - split; [done|]. by exists e.
Qed.

Lemma install_replacement_run w thread source dispatcher target o w' :
  routing_ok w → is_Some (local_routes thread w) → outside_pages w source →
  install_replacement thread source dispatcher target w = (o, w') →
  match o with
  | Ok _ => routing_ok w' ∧ ∃ e, installed w w' thread source dispatcher target e
  | Err _ => routing_ok w' ∧ not_installed w w'
  | Panic _ => False
  | Abort => True
  end.
Proof.
  intros Hw [l Hl] Hout. unfold install_replacement.
  assert (not_installed w w) as Hrefl.
  { rewrite <-(set_os_id w) at 2. apply not_installed_os. reflexivity. }
  destruct (Z.eqb_spec source target) as [|Hst]; [by intros [= <- <-]|].
  unfold mbind at 1, M_bind at 1, with_local at 1. rewrite Hl. cbn [expect].
  destruct (existsb (λ r, Local.source r =? source) l) eqn:Hno; [by intros [= <- <-]|].
  unfold mbind at 1, M_bind at 1, gets at 1. unfold mbind at 1, M_bind at 1, gets at 1.
  destruct (existsb (conflicts w source dispatcher target) (ENTRIES w)) eqn:Hconf;
    [by intros [= <- <-]|].
  unfold mbind at 1, M_bind at 1.
  destruct (Memory.read target 1 (os w)) as [o1 s1] eqn:H1.
  destruct (read_run target 1 (os w) o1 s1 ltac:(lia) H1) as (Hret1 & Hv1 & _).
  rewrite (in_os_run _ w _ _ H1).
  destruct o1 as [bs1|e1| |]; try done;
    [|intros [= <- <-]; split; [apply routing_ok_os|apply not_installed_os]; by try apply same_view_keeps].
  unfold mbind at 1, M_bind at 1.
  destruct (Memory.read dispatcher 1 s1) as [o2 s2] eqn:H2.
  destruct (read_run dispatcher 1 s1 o2 s2 ltac:(lia) H2) as (Hret2 & Hv2 & _).
  rewrite (in_os_run _ (set_os s1 w) _ _ H2).
  change (set_os s2 (set_os s1 w)) with (set_os s2 w).
  assert (keeps (os w) s2) as Hk2 by (apply same_view_keeps; by etrans).
  pose proof (routing_ok_os w s2 Hw Hk2) as Hw2.
  destruct o2 as [bs2|e2| |]; try done;
    [|intros [= <- <-]; split; [done|by apply not_installed_os]].
  clear H1 H2. set (w2 := set_os s2 w) in *.
  unfold mbind at 1, M_bind at 1, gets at 1.
  destruct (find_entry source w2) as [[i r]|] eqn:Hf.
  - destruct (install_known w w2 thread l source dispatcher target i r) as (w3 & Hrun & ? & ?); try done.
    rewrite Hrun. by intros [= <- <-].
  - by apply (install_fresh w w2 thread l source dispatcher target).
Qed.

(** ** Removing routes, and global routes *)

Lemma find_filter l source source' :
  find (λ x, Local.source x =? source') (filter (λ x, Local.source x ≠ source) l) =
  if decide (source' = source) then None else find (λ x, Local.source x =? source') l.
Proof.
  induction l as [|x l IH]; [by case_decide|]. simpl. rewrite filter_cons.
  destruct (decide (Local.source x ≠ source)) as [Hne|He]; simpl; rewrite IH;
    destruct (Z.eqb_spec (Local.source x) source') as [<-|]; repeat case_decide;
    try done; by apply dec_stable in He.
Qed.

Lemma remove_run w thread source :
  routing_ok w → is_Some (local_routes thread w) →
  ∃ l, remove thread source w = (Ok tt, set_local thread l w) ∧
    routing_ok (set_local thread l w) ∧
    ∀ thread' source', local_target (set_local thread l w) thread' source' =
      if decide (thread' = thread ∧ source' = source) then None
      else local_target w thread' source'.
Proof.
  intros Hw [l Hl]. exists (filter (λ r, Local.source r ≠ source) l).
  unfold remove, mbind, M_bind, with_local. rewrite Hl. split_and!; [done|..].
  - destruct (Hw). split; try done. simpl. intros thread' l'. rewrite lookup_insert_Some.
    intros [[<- [= <-]]|[Hne Hth]]; [|by apply (ok_locals w Hw thread')].
    unfold local_routes in Hl. destruct (LOCAL w !! thread) as [l'|] eqn:Hth; simplify_eq.
    + destruct (ok_locals w Hw _ _ Hth) as [Hnd Hx]. split.
      * eapply sublist_NoDup; [exact Hnd|]. apply fmap_sublist, sublist_filter.
      * intros x [_ Hin]%list_elem_of_filter. by apply Hx.
    + split; [constructor|by intros x ?%not_elem_of_nil].
  - intros thread' source'. unfold local_target, local_routes. simpl.
    destruct (decide (thread' = thread)) as [->|Hne].
    + rewrite lookup_insert_eq.
      change (match LOCAL w !! thread with Some l => l | None => Some [] end)
        with (local_routes thread w). rewrite Hl. simpl. rewrite find_filter.
      destruct (decide (source' = source)); [by rewrite decide_True|].
      by rewrite decide_False by naive_solver.
    + rewrite lookup_insert_ne by done. by rewrite decide_False by naive_solver.
Qed.

Definition with_global (p : nat) (x : Z) w : process P :=
  set_leaked (alter (Entry.set_global x) p (leaked w)) w.

Lemma recorded_with_global w p x i r e :
  recorded (with_global p x w) i r e ↔
  ∃ e0, recorded w i r e0 ∧ e = if decide (Record_.entry r = p) then Entry.set_global x e0 else e0.
Proof.
  unfold recorded, with_global. simpl. destruct (decide (Record_.entry r = p)) as [->|Hne].
  - rewrite list_lookup_alter_eq, fmap_Some. naive_solver.
  - rewrite list_lookup_alter_ne by done. naive_solver.
Qed.

Lemma code_ok_global s x e : code_ok s e → code_ok s (Entry.set_global x e).
Proof. by intros []. Qed.

Lemma routing_ok_global w p x : routing_ok w → routing_ok (with_global p x w).
Proof.
  intros Hw.
  assert (∀ i r e, recorded (with_global p x w) i r e → ∃ e0, recorded w i r e0 ∧
    Entry.patch e = Entry.patch e0 ∧ Entry.dispatcher e = Entry.dispatcher e0 ∧
    (code_ok (os w) e0 → code_ok (os w) e)) as Hback.
  { intros i r e (e0 & Hr & ->)%recorded_with_global. exists e0.
    case_decide; split_and!; try done. by apply code_ok_global. }
  split.
  - apply linked_next; [done|]. apply (ok_links w Hw).
  - intros q e n. unfold with_global. simpl. destruct (decide (p = q)) as [->|Hne].
    + rewrite list_lookup_alter_eq, fmap_Some. intros (e0 & He & ->). by apply (ok_older w Hw q e0).
    + rewrite list_lookup_alter_ne by done. by apply (ok_older w Hw).
  - intros i r Hi. destruct (ok_records w Hw _ _ Hi) as [e He]. eexists.
    apply (recorded_with_global w p x i r). by exists e.
  - intros i r e (e0 & Hr & _ & -> & Hc)%Hback. destruct (ok_code w Hw _ _ _ Hr). auto.
  - intros i j r r' e e' b (e0 & Hr & -> & _)%Hback (e1 & Hr' & -> & _)%Hback.
    exact (ok_apart w Hw _ _ _ _ _ _ b Hr Hr').
  - intros i j r r' e e' (e0 & Hr & -> & _)%Hback (e1 & Hr' & -> & _)%Hback.
    exact (ok_sources w Hw _ _ _ _ _ _ Hr Hr').
  - apply (ok_sites w Hw).
  - intros thread l Hth. destruct (ok_locals w Hw _ _ Hth) as [Hnd Hx]. split; [done|].
    intros y Hin. destruct (Hx y Hin) as (? & i & r & e & Hr & Hs & Hd). split; [done|].
    exists i, r, (if decide (Record_.entry r = p) then Entry.set_global x e else e).
    split; [apply recorded_with_global; eauto|]. by case_decide.
Qed.

Lemma global_run w source target o w' :
  routing_ok w → global source target w = (o, w') →
  match o with
  | Ok true => ∃ i r e s, recorded w i r e ∧ Patch.entry (Entry.patch e) = source ∧
      Entry.global e = 0 ∧ same_view (os w) s ∧
      w' = with_global (Record_.entry r) target (set_os s w)
  | Ok false => w' = w ∧ ∀ i r e, recorded w i r e → Patch.entry (Entry.patch e) ≠ source
  | Err _ => ∃ s, same_view (os w) s ∧ w' = set_os s w
  | _ => False
  end.
Proof.
  intros Hw. unfold global.
  assert (∃ s, same_view (os w) s ∧ w = set_os s w) as Hrefl.
  { exists (os w). by rewrite set_os_id. }
  destruct (source =? target); [by intros [= <- <-]|].
  unfold mbind at 1, M_bind at 1, gets at 1.
  destruct (existsb _ (patches w)); [by intros [= <- <-]|].
  unfold mbind at 1, M_bind at 1, gets at 1.
  destruct (find_entry source w) as [[i r]|] eqn:Hf.
  2:{ intros [= <- <-]. split; [done|]. intros i r e Hr. by eapply find_entry_None. }
  destruct (find_entry_Some _ _ _ _ Hw Hf) as (e & Hr & Hs).
  unfold mbind at 1, M_bind at 1.
  destruct (Memory.read target 1 (os w)) as [o1 s1] eqn:H1.
  destruct (read_run target 1 (os w) o1 s1 ltac:(lia) H1) as (Hret1 & Hv1 & _).
  rewrite (in_os_run _ w _ _ H1).
  destruct o1 as [bs|err| |]; try done; [|intros [= <- <-]; by exists s1].
  unfold mbind, M_bind, gets, lift, modify. simpl. destruct Hr as [Hi He]. rewrite He. cbn [expect].
  destruct (Z.eqb_spec (Entry.global e) 0) as [Hg|Hg]; simpl; intros [= <- <-].
  - exists i, r, e, s1. split_and!; try done. unfold with_global. simpl.
    by rewrite (list_alter_insert _ _ _ _ He).
  - by exists s1.
Qed.

Lemma remove_global_run w i r e :
  routing_ok w → recorded w i r e →
  remove_global (Patch.entry (Entry.patch e)) w = (Ok tt, with_global (Record_.entry r) 0 w).
Proof.
  intros Hw Hr. unfold remove_global, mbind, M_bind, gets, lift, modify.
  destruct (find_entry (Patch.entry (Entry.patch e)) w) as [[j r']|] eqn:Hf.
  - destruct (find_entry_Some _ _ _ _ Hw Hf) as (e' & Hr' & Hs).
    destruct (recorded_unique w _ _ _ _ _ _ Hw Hr Hr') as (<- & <- & <-); [by right|].
    destruct Hr as [Hi He]. simpl. rewrite He. cbn [expect]. unfold with_global.
    by rewrite (list_alter_insert _ _ _ _ He).
  - by destruct (find_entry_None w _ _ _ _ Hf Hr).
Qed.
End invariant.

(** ** Theorems *)

Section theorems.
Context {P : Type} `{!Platform P, !View P, !PlatformLaws P, !Pages P, !PagesLaws P,
                     !Code, !CodeLaws}.
Implicit Types w : process P.

(** Where the dispatcher of [e] leads on a thread. *)
Definition routed w (thread : nat) (e : Entry.t) (o : outcome Error (option Z)) : Prop :=
  match local_target w thread (Patch.entry (Entry.patch e)) with
  | Some t => if decide (t = Entry.dispatcher e) then shared_target e o else o = Ok (Some t)
  | None => shared_target e o
  end.

Lemma route_run w thread d o w' :
  routing_ok w → is_Some (local_routes thread w) → route thread d w = (o, w') →
  w' = set_os (os w') w ∧ same_view (os w) (os w') ∧
  ((∀ i r e, recorded w i r e → Entry.dispatcher e ≠ d) → o = Ok None) ∧
  ∀ i r e, recorded w i r e → Entry.dispatcher e = d → routed w thread e o.
Proof.
  unfold routed. intros Hw [l Hl] Hrun. unfold route, mbind at 1, M_bind at 1, gets in Hrun. rewrite Hl in Hrun.
  assert (∀ o w', fallback d w = (o, w') →
    w' = set_os (os w') w ∧ same_view (os w) (os w') ∧
    ((∀ i r e, recorded w i r e → Entry.dispatcher e ≠ d) → o = Ok None) ∧
    ∀ i r e, recorded w i r e → Entry.dispatcher e = d → shared_target e o) as Hfall.
  { intros o1 w1 Hf. destruct (fallback_run w d Hw) as [(i & r & e & Hr & Hd & Hf')|[Hno Hf']];
      rewrite Hf in Hf'.
    - destruct (entry_target_run w e o1 w1 (eq_sym Hf')) as (Hs & Hw1 & Hv). split_and!; [done..| |].
      + intros Hno. by destruct (Hno _ _ _ Hr).
      + intros j r' e' Hr' Hd'.
        destruct (recorded_unique w _ _ _ _ _ _ Hw Hr Hr') as (_ & _ & <-); [left; congruence|done].
    - injection Hf' as -> ->. rewrite set_os_id. split_and!; try done.
      intros i r e Hr Hd. by destruct (Hno _ _ _ Hr). }
  assert (∀ i r e, recorded w i r e → Entry.dispatcher e = d →
    local_target w thread (Patch.entry (Entry.patch e)) =
    Local.target <$> find (λ x, Local.dispatcher x =? d) l) as Hlt.
  { intros i r e Hr Hd. unfold local_target. rewrite Hl. simpl. rewrite <-Hd.
    by rewrite (local_by_dispatcher w thread l i r e Hw Hl Hr). }
  simpl in Hrun. destruct (find (λ r, Local.dispatcher r =? d) l) as [x|] eqn:Hfind; simpl in Hrun.
  2:{ destruct (Hfall _ _ Hrun) as (? & ? & ? & Hs). split_and!; [done..|].
      intros i r e Hr Hd. rewrite (Hlt _ _ _ Hr Hd). by eapply Hs. }
  apply find_some in Hfind as [Hx%list_elem_of_In Hxd%Z.eqb_eq].
  assert (∃ i r e, recorded w i r e ∧ Entry.dispatcher e = d) as (i0 & r0 & e0 & Hr0 & Hd0).
  { unfold local_routes in Hl. destruct (LOCAL w !! thread) as [l'|] eqn:Hth; simplify_eq;
      [|by apply not_elem_of_nil in Hx].
    destruct (ok_locals w Hw _ _ Hth) as [_ Hloc].
    destruct (Hloc x Hx) as (_ & i & r & e & Hr & _ & Hd). eauto. }
  destruct (Z.eqb_spec (Local.target x) d) as [He|Hne].
  - destruct (Hfall _ _ Hrun) as (? & ? & ? & Hs). split_and!; [done..|].
    intros i r e Hr Hd. rewrite (Hlt _ _ _ Hr Hd), Hd. simpl. rewrite decide_True by done. by eapply Hs.
  - injection Hrun as <- <-. rewrite set_os_id. split_and!; [done|done|..].
    + intros Hno. by destruct (Hno _ _ _ Hr0).
    + intros i r e Hr Hd. rewrite (Hlt _ _ _ Hr Hd), Hd. simpl. by rewrite decide_False.
Qed.

(** Without a route of the thread and of the process, and without shadow
    stacks, the dispatcher leads to the saved original. *)
Lemma route_original w thread i r e :
  routing_ok w → is_Some (local_routes thread w) → recorded w i r e →
  local_target w thread (Patch.entry (Entry.patch e)) = None → Entry.global e = 0 →
  (∀ s, (shadow_stack s).1 = Ok false) →
  ∃ s, route thread (Entry.dispatcher e) w =
    (Ok (Some (Executable.address (Entry.original e))), set_os s w) ∧ same_view (os w) s.
Proof.
  intros Hw Hl Hr Hlt Hg Hno.
  destruct (route thread (Entry.dispatcher e) w) as [o w'] eqn:Hrun.
  destruct (route_run _ _ _ _ _ Hw Hl Hrun) as (Hs & Hv & _ & Hroute).
  specialize (Hroute i r e Hr eq_refl). unfold routed, shared_target in Hroute.
  rewrite Hlt, decide_True in Hroute by done. exists (os w'). rewrite <-Hs. split; [|done].
  destruct Hroute as [->|[Hb ->]]; [done|exfalso].
  destruct Hl as [l Hl]. unfold local_target in Hlt. rewrite Hl in Hlt. simpl in Hlt.
  rewrite <-(local_by_dispatcher w thread l i r e Hw Hl Hr) in Hlt.
  unfold route, mbind at 1, M_bind at 1, gets in Hrun. rewrite Hl in Hrun. simpl in Hrun.
  rewrite Hlt in Hrun. destruct (fallback_run w (Entry.dispatcher e) Hw) as [(j & r' & e' & Hr' & Hd & Hf)|[Hnone _]];
    [|by destruct (Hnone _ _ _ Hr)].
  destruct (recorded_unique w _ _ _ _ _ _ Hw Hr Hr') as (_ & _ & <-); [by left|].
  rewrite Hf in Hrun. unfold entry_target in Hrun. rewrite Hg, Hb in Hrun. simpl in Hrun.
  unfold mbind, M_bind, attempt, in_os, check_call_bridge in Hrun. unfold mbind, M_bind in Hrun.
  specialize (Hno (os w)). destruct (shadow_stack (os w)) as [so s1]. simpl in Hno. by subst so.
Qed.

(** The dispatcher of an entry goes to the target on the thread. *)
Lemma installed_route w w' thread source dispatcher target e :
  routing_ok w' → is_Some (local_routes thread w) → installed w w' thread source dispatcher target e →
  installed w w' thread source dispatcher target e ∧ code_ok (os w') e ∧
  (target ≠ Entry.dispatcher e →
   (route thread (Entry.dispatcher e) w').1 = Ok (Some target)).
Proof.
  intros Hw' Hl Hinst. destruct (installed_entry _ _ _ _ _ _ _ Hinst) as (i & r & Hr & _).
  destruct (ok_code w' Hw' _ _ _ Hr) as [Hc _]. split_and!; [done..|]. intros Hne.
  destruct (installed_access _ _ _ _ _ _ _ Hinst thread Hl) as [l Hl'].
  pose proof (installed_locals _ _ _ _ _ _ _ Hinst thread source) as Ht.
  rewrite decide_True in Ht by done. unfold local_target in Ht. rewrite Hl' in Ht. simpl in Ht.
  rewrite <-(installed_source _ _ _ _ _ _ _ Hinst) in Ht.
  rewrite <-(local_by_dispatcher w' thread l i r e Hw' Hl' Hr) in Ht.
  unfold route, mbind, M_bind, gets. rewrite Hl'. simpl.
  rewrite Ht. by rewrite (proj2 (Z.eqb_neq _ _)).
Qed.

(** On other threads the dispatcher leads where it did. *)
Lemma installed_elsewhere w w' thread source dispatcher target e th o w1 :
  routing_ok w' → installed w w' thread source dispatcher target e → th ≠ thread →
  is_Some (local_routes th w) → route th (Entry.dispatcher e) w' = (o, w1) → routed w th e o.
Proof.
  intros Hw' Hinst Hne Hl Hrun. destruct (installed_entry _ _ _ _ _ _ _ Hinst) as (i & r & Hr & _).
  destruct (route_run w' th _ o w1 Hw' (installed_access _ _ _ _ _ _ _ Hinst th Hl) Hrun)
    as (_ & _ & _ & Hroute).
  specialize (Hroute i r e Hr eq_refl). unfold routed in *.
  rewrite (installed_locals _ _ _ _ _ _ _ Hinst) in Hroute. rewrite decide_False in Hroute by naive_solver.
  done.
Qed.

(** C4. Installing a replacement on a thread.  [Ok]: a function that had no entry
    now jumps through its relay to the given dispatcher; one that had an entry
    keeps it, and the dispatcher is one of its sites.  The route of the
    entry's dispatcher on this thread is the target; on every other thread it
    leads where it would have led before, which for a new entry is the saved
    original.  Every other route is as before, every mapped byte outside the
    patch is unchanged, and code is only written for a function that had no
    entry.  [Err]: no route and no mapped byte changed.  It never panics, and
    the invariant of the routing state is kept. *)
Theorem install_replacement_correct w thread source dispatcher target o w' :
  routing_ok w → is_Some (local_routes thread w) → outside_pages w source →
  install_replacement thread source dispatcher target w = (o, w') →
  match o with
  | Ok _ => routing_ok w' ∧ ∃ e, installed w w' thread source dispatcher target e ∧
      code_ok (os w') e ∧
      (target ≠ Entry.dispatcher e →
       (route thread (Entry.dispatcher e) w').1 = Ok (Some target)) ∧
      (∀ th o1 w1, th ≠ thread → is_Some (local_routes th w) →
       route th (Entry.dispatcher e) w' = (o1, w1) → routed w th e o1)
  | Err _ => routing_ok w' ∧ not_installed w w' ∧
      ∀ thread' source', local_target w' thread' source' = local_target w thread' source'
  | Panic _ => False
  | Abort => True
  end.
Proof.
  intros Hw Hl Hout Hrun. pose proof (install_replacement_run _ _ _ _ _ _ _ Hw Hl Hout Hrun) as Hi.
  destruct o as [[]|e| |]; try done.
  - destruct Hi as (Hw' & e & Hinst). split; [done|]. exists e.
    destruct (installed_route _ _ _ _ _ _ _ Hw' Hl Hinst) as (? & ? & ?). split_and!; [done..|].
    intros th o1 w1 Hne Hth. by apply (installed_elsewhere w w' thread source dispatcher target).
  - destruct Hi as (Hw' & Hni). split_and!; [done..|]. destruct Hni as (_ & es & ->). done.
Qed.

(** C27. A dispatcher reaches the replacement of the calling thread if it has one
    other than the dispatcher itself, else the global replacement, else the
    saved original; a saved original that relocated a call panics where
    shadow stacks are on.  A dispatcher that was never published has no
    route.  The lookup ends and changes nothing. *)
Theorem route_correct w thread d o w' :
  routing_ok w → is_Some (local_routes thread w) → route thread d w = (o, w') →
  w' = set_os (os w') w ∧ same_view (os w) (os w') ∧
  ((∀ i r e, recorded w i r e → Entry.dispatcher e ≠ d) → o = Ok None) ∧
  ∀ i r e, recorded w i r e → Entry.dispatcher e = d →
    match local_target w thread (Patch.entry (Entry.patch e)) with
    | Some t => if decide (t = d) then shared_target e o else o = Ok (Some t)
    | None => shared_target e o
    end.
Proof.
  intros Hw Hl Hrun. destruct (route_run w thread d o w' Hw Hl Hrun) as (? & ? & ? & Hr).
  split_and!; [done..|]. intros i r e He <-. by apply (Hr i r e).
Qed.

(** Removing a route takes back exactly what installing it did: all routes of
    all threads are as they were before. *)
Theorem install_remove_roundtrip w thread source dispatcher target w1 :
  routing_ok w → is_Some (local_routes thread w) → outside_pages w source →
  install_replacement thread source dispatcher target w = (Ok tt, w1) →
  ∃ w2, remove thread source w1 = (Ok tt, w2) ∧ routing_ok w2 ∧ os w2 = os w1 ∧
    ∀ thread' source', local_target w2 thread' source' = local_target w thread' source'.
Proof.
  intros Hw Hl Hout Hrun.
  destruct (install_replacement_run _ _ _ _ _ _ _ Hw Hl Hout Hrun) as (Hw1 & e & Hinst).
  pose proof (installed_access _ _ _ _ _ _ _ Hinst thread Hl) as Hl1.
  destruct (remove_run w1 thread source Hw1 Hl1) as (l & Hrm & Hw2 & Hlt).
  exists (set_local thread l w1). split_and!; [done..|]. intros thread' source'.
  rewrite Hlt, (installed_locals _ _ _ _ _ _ _ Hinst).
  destruct (decide (thread' = thread ∧ source' = source)) as [[-> ->]|]; [|done].
  by rewrite (installed_fresh _ _ _ _ _ _ _ Hinst).
Qed.

(** C39. A global route: [global] claims the entry of a function that has one and
    is free, without touching code or thread routes; [remove_global] then
    gives back exactly the state before.  It answers [false] exactly when the
    function has no entry, and an [Err] changes nothing. *)
Theorem global_roundtrip w source target o w' :
  routing_ok w → global source target w = (o, w') →
  match o with
  | Ok true => routing_ok w' ∧ same_view (os w) (os w') ∧ LOCAL w' = LOCAL w ∧
      (∃ i r e, recorded w i r e ∧ Patch.entry (Entry.patch e) = source ∧
         recorded w' i r (Entry.set_global target e)) ∧
      remove_global source w' = (Ok tt, set_os (os w') w)
  | Ok false => w' = w ∧ ∀ i r e, recorded w i r e → Patch.entry (Entry.patch e) ≠ source
  | Err _ => ∃ s, same_view (os w) s ∧ w' = set_os s w
  | _ => False
  end.
Proof.
  intros Hw Hrun. pose proof (global_run _ _ _ _ _ Hw Hrun) as Hg.
  destruct o as [[]|e| |]; try done.
  destruct Hg as (i & r & e & s & Hr & Hs & Hz & Hv & ->).
  pose proof (routing_ok_os w s Hw (same_view_keeps _ _ Hv)) as Hw1.
  pose proof (routing_ok_global _ (Record_.entry r) target Hw1) as Hw2.
  assert (recorded (with_global (Record_.entry r) target (set_os s w)) i r
    (Entry.set_global target e)) as Hr2.
  { apply recorded_with_global. exists e. split; [exact Hr|]. by rewrite decide_True. }
  split_and!; try done.
  - by exists i, r, e.
  - rewrite <-Hs.
    change (Patch.entry (Entry.patch e)) with (Patch.entry (Entry.patch (Entry.set_global target e))).
    rewrite (remove_global_run _ i r _ Hw2 Hr2). do 2 f_equal. unfold with_global, set_leaked. simpl.
    unfold set_os. f_equal. rewrite list_alter_alter_eq. destruct Hr as [_ He].
    rewrite (list_alter_insert _ _ _ _ He). simpl.
    rewrite list_insert_id; [done|]. rewrite He. destruct e; simpl in *. by subst.
Qed.
End theorems.

(** ** A small run on the example machine: two pages of NOPs *)

Module RouteDemo.
Definition start : process Machine.t :=
  process_start (Machine.Make (λ _, 0x90)
    (λ q, if (q =? 1) || (q =? 2) then Some 5 else None) []).

Definition function : Z := 4096.
Definition handler : Z := 8192.
Definition fake : Z := 8200.

Lemma start_outside : outside_pages start function.
Proof. intros i r e b [Hi _]. discriminate Hi. Qed.

(** The state after the installation. *)
Definition patched : process Machine.t :=
  (install_replacement 0 function handler fake start).2.

Lemma patched_run : install_replacement 0 function handler fake start = (Ok tt, patched).
Proof.
  assert (is_ok (install_replacement 0 function handler fake start).1 = true) as Hok
    by (vm_compute; reflexivity).
  unfold patched. by destruct (install_replacement 0 function handler fake start) as [[[]| | |] ?].
Qed.

Lemma patched_ok : routing_ok patched ∧ is_Some (local_routes 0 patched).
Proof.
  destruct (install_replacement_run start 0 function handler fake (Ok tt) patched
    (routing_ok_start _) (ex_intro _ [] eq_refl) start_outside patched_run) as (Hw & e & Hi).
  split; [exact Hw|]. exact (installed_access _ _ _ _ _ _ _ Hi 0%nat (ex_intro _ [] eq_refl)).
Qed.
End RouteDemo.

Lemma install_replacement_correct_witness :
  ∃ w' e, install_replacement 0 RouteDemo.function RouteDemo.handler RouteDemo.fake
      RouteDemo.start = (Ok tt, w') ∧
    installed RouteDemo.start w' 0 RouteDemo.function RouteDemo.handler RouteDemo.fake e ∧
    Entry.dispatcher e = RouteDemo.handler ∧ code_ok (os w') e ∧
    (route 0 RouteDemo.handler w').1 = Ok (Some RouteDemo.fake) ∧
    routed RouteDemo.start 1 e (route 1 RouteDemo.handler w').1.
Proof.
  destruct (install_replacement 0 RouteDemo.function RouteDemo.handler RouteDemo.fake
    RouteDemo.start) as [o w'] eqn:H.
  pose proof (install_replacement_correct RouteDemo.start 0 _ _ _ _ _
    (routing_ok_start _) (ex_intro _ [] eq_refl) RouteDemo.start_outside H) as Hi.
  destruct o as [[]|e|m|].
  - destruct Hi as (_ & e & H1 & H2 & H3 & H4). exists w', e. split; [reflexivity|].
    assert (Entry.dispatcher e = RouteDemo.handler) as Hd.
    { destruct (installed_new _ _ _ _ _ _ _ H1) as [(i & r & Hi & _)|(_ & Hd & _)];
        [discriminate Hi|exact Hd]. }
    rewrite Hd in H3, H4. split; [exact H1|]. split; [exact Hd|]. split; [exact H2|].
    split; [apply H3; discriminate|].
    destruct (route 1 RouteDemo.handler w') as [o1 w1] eqn:Hr.
    exact (H4 1%nat o1 w1 ltac:(discriminate) (ex_intro _ [] eq_refl) Hr).
  - apply (f_equal (is_ok ∘ fst)) in H. vm_compute in H. discriminate H.
  - destruct Hi.
  - apply (f_equal (is_ok ∘ fst)) in H. vm_compute in H. discriminate H.
Defined.

Lemma route_correct_witness :
  ∃ w', route 0 RouteDemo.handler RouteDemo.patched = (Ok (Some RouteDemo.fake), w') ∧
    same_view (os RouteDemo.patched) (os w').
Proof.
  destruct (route 0 RouteDemo.handler RouteDemo.patched) as [o w'] eqn:H.
  destruct (route_correct RouteDemo.patched 0 RouteDemo.handler o w') as (_ & Hv & _).
  - exact (proj1 RouteDemo.patched_ok).
  - exact (proj2 RouteDemo.patched_ok).
  - exact H.
  - exists w'. split; [|exact Hv]. apply (f_equal fst) in H. vm_compute in H.
    rewrite <-H. reflexivity.
Defined.

Lemma install_remove_roundtrip_witness :
  ∃ w2, remove 0 RouteDemo.function RouteDemo.patched = (Ok tt, w2) ∧
    local_target w2 0 RouteDemo.function = None.
Proof.
  destruct (install_remove_roundtrip RouteDemo.start 0 RouteDemo.function RouteDemo.handler
    RouteDemo.fake RouteDemo.patched (routing_ok_start _) (ex_intro _ [] eq_refl)
    RouteDemo.start_outside RouteDemo.patched_run) as (w2 & H & _ & _ & Hl).
  exists w2. split; [exact H|]. rewrite Hl. reflexivity.
Defined.

Lemma global_roundtrip_witness :
  ∃ w', global RouteDemo.function 8208 RouteDemo.patched = (Ok true, w') ∧
    remove_global RouteDemo.function w' = (Ok tt, set_os (os w') RouteDemo.patched).
Proof.
  destruct (global RouteDemo.function 8208 RouteDemo.patched) as [o w'] eqn:H.
  pose proof (global_roundtrip _ _ _ _ _ (proj1 RouteDemo.patched_ok) H) as Hg.
  destruct o as [[]|e|m|]; [|apply (f_equal fst) in H; vm_compute in H; discriminate H..].
  exists w'. split; [reflexivity|]. apply Hg.
Defined.
