(* ===== verification/Session.v ===== *)
(** * Sessions ([src/src/lib.rs])

    Opening a session under the global lock, installing raw replacements and
    mocks, and giving everything back: [restore], [Drop].  A session runs on
    one thread; its [scope] is the session value, the process of [Routing] and
    the mocks of [Expectations]. *)

From S2P Require Import Prelude Errors Memory Executable X86 Code Routing Expectations.

#[local] Open Scope Z_scope.
#[local] Set Default Proof Using "Type*".

(** ** The session lock

    [SESSION] is a read-write lock: local sessions read, a global one
    writes.  [SESSION_ACTIVE] marks the threads that have a session. *)

Inductive SessionLock := Global | Local.

#[export] Instance SessionLock_eq_dec : EqDecision SessionLock.
Proof. solve_decision. Defined.

(** [waiting]: the threads that sleep in [read] or [write], with the kind of
    session they ask for. *)
Record locks := mkLocks {
  readers : nat;
  writer : bool;
  waiting : gmap nat SessionLock;
  SESSION_ACTIVE : gset nat }.

(** The sessions that are open leave room for one of the kind. *)
Definition compatible (kind : SessionLock) (w : locks) : bool :=
  match kind with
  | Local => negb (writer w)
  | Global => negb (writer w) && (readers w =? 0)%nat
  end.

(** Whom [std::sync::RwLock] lets in first is left to the system: a thread
    that waits to write may keep out new readers. *)
Class Priority := admits (thread : nat) (kind : SessionLock) (w : locks) : bool.

(** What is documented: a thread that no other waits beside is let in as soon
    as the holders allow it, and when nobody holds the lock one of the waiting
    threads gets it. *)
Class PriorityLaws `{!Priority} : Prop := {
  admits_alone thread kind w :
    (∀ t k, waiting w !! t = Some k → t = thread) → admits thread kind w = true;
  admits_next w : compatible Global w = true → waiting w ≠ ∅ →
    ∃ t k, waiting w !! t = Some k ∧ admits t k w = true }.

Section lock_operations.
Context `{!Priority}.

(** [Session::open].  [Ok None]: the thread waits for the lock and calls again
    when it wakes.  Poisoning is ignored, as the code does. *)
Definition open (thread : nat) (local wait : bool) : M Error locks (option SessionLock) := λ w,
  if bool_decide (thread ∈ SESSION_ACTIVE w) then (Err Busy, w) else
  let kind := if local then Local else Global in
  if negb (compatible kind w && admits thread kind w) then
    if wait then
      (Ok None, mkLocks (readers w) (writer w) (<[thread := kind]> (waiting w)) (SESSION_ACTIVE w))
    else (Err Busy, w)
  else
  let waiting := delete thread (waiting w) in
  let active := {[thread]} ∪ SESSION_ACTIVE w in
  if local then (Ok (Some Local), mkLocks (S (readers w)) (writer w) waiting active)
  else (Ok (Some Global), mkLocks (readers w) true waiting active).

(** [new_global], [new_local]: they wait,
    and panic when the thread has a session; [new] is [new_local]. *)
Definition new_global (thread : nat) : M Error locks (option SessionLock) := λ w,
  let '(o, w') := open thread false true w in (check o, w').
Definition new_local (thread : nat) : M Error locks (option SessionLock) := λ w,
  let '(o, w') := open thread true true w in (check o, w').
Definition new : nat → M Error locks (option SessionLock) := new_local.

(** [try_new_local], [try_new_global]. *)
Definition try_new_local (thread : nat) : M Error locks (option SessionLock) :=
  open thread true false.
Definition try_new_global (thread : nat) : M Error locks (option SessionLock) :=
  open thread false false.
End lock_operations.

(** [Drop for SessionLock], then the guard in it. *)
Definition lock_drop (thread : nat) (lock : SessionLock) : M Error locks unit := λ w,
  let active := SESSION_ACTIVE w ∖ {[thread]} in
  (Ok tt, match lock with
          | Local => mkLocks (pred (readers w)) (writer w) (waiting w) active
          | Global => mkLocks (readers w) false (waiting w) active
          end).

(** ** Sessions *)

Module OwnedMock.
(** The expectation state of the mock, and its detach closure. *)
Record t (X : Type) := Make { control : nat; detach : X → X }.
Arguments Make {X}. Arguments control {X}. Arguments detach {X}.
End OwnedMock.

Module Session.
Record t (X : Type) := Make {
  patches : list Patch.t;
  mocks : list (OwnedMock.t X);
  local_patches : list Z;
  global_routes : list Z;
  lock : SessionLock }.
Arguments Make {X}. Arguments patches {X}. Arguments mocks {X}.
Arguments local_patches {X}. Arguments global_routes {X}. Arguments lock {X}.

(** The value [open] returns with the lock it took. *)
Definition opened {X} (lock : SessionLock) : t X := Make [] [] [] [] lock.
End Session.

(** The session, the thread it belongs to, the process, the mocks and the
    registries the detach closures clear. *)
Record scope (P R X : Type) := mkScope {
  self : Session.t X;
  thread : nat;
  proc : process P;
  world : World R;
  slots : X }.
Arguments mkScope {P R X}. Arguments self {P R X}. Arguments thread {P R X}.
Arguments proc {P R X}. Arguments world {P R X}. Arguments slots {P R X}.

Section operations.
Context {P R X : Type} `{!Platform P, !Pages P, !Code, !Rule R}.
Abbreviation T := (M Error (scope P R X)).

Definition set_self (s : Session.t X) (c : scope P R X) : scope P R X :=
  mkScope s (thread c) (proc c) (world c) (slots c).
Definition set_patches (l : list Patch.t) (c : scope P R X) : scope P R X :=
  let s := self c in
  set_self (Session.Make l (Session.mocks s) (Session.local_patches s)
    (Session.global_routes s) (Session.lock s)) c.
Definition set_mocks (l : list (OwnedMock.t X)) (c : scope P R X) : scope P R X :=
  let s := self c in
  set_self (Session.Make (Session.patches s) l (Session.local_patches s)
    (Session.global_routes s) (Session.lock s)) c.
Definition set_local_patches (l : list Z) (c : scope P R X) : scope P R X :=
  let s := self c in
  set_self (Session.Make (Session.patches s) (Session.mocks s) l
    (Session.global_routes s) (Session.lock s)) c.
Definition set_global_routes (l : list Z) (c : scope P R X) : scope P R X :=
  let s := self c in
  set_self (Session.Make (Session.patches s) (Session.mocks s) (Session.local_patches s)
    l (Session.lock s)) c.

Definition in_proc {A} (m : M Error (process P) A) : T A := λ c,
  let '(o, p) := m (proc c) in (o, mkScope (self c) (thread c) p (world c) (slots c)).
Definition in_world {A} (m : M Error (World R) A) : T A := λ c,
  let '(o, w) := m (world c) in (o, mkScope (self c) (thread c) (proc c) w (slots c)).
Definition in_memory {A} (m : M Error P A) : T A := in_proc (in_os m).

(** [error::check] on a run. *)
Definition checked {A} (m : T A) : T A := λ c,
  let '(o, c') := m c in (check o, c').

(** [Session::__thread]: a local session is bound to its thread. *)
Definition is_local (c : scope P R X) : bool :=
  bool_decide (Session.lock (self c) = Local).

(** [Session::__replace_local]. *)
Definition replace_local (source dispatcher target : Z) : T unit :=
  th ← gets thread;
  in_proc (install_replacement th source dispatcher target);;
  l ← gets (λ c, Session.local_patches (self c));
  modify (set_local_patches (l ++ [source])).

(** A failing step drops the relay, if there is one. *)
Definition or_drop_relay {A} (relay : option Executable.t) (m : T A) : T A :=
  r ← attempt m;
  match r with
  | Ok a => mret a
  | Err e =>
      match relay with
      | Some page => in_memory (Executable.drop page)
      | None => mret tt
      end;; throw e
  | Panic message =>
      match relay with
      | Some page => in_memory (Executable.drop page)
      | None => mret tt
      end;; panic message
  | Abort => abort
  end.

(** The relay of [install_raw] on [aarch64]. *)
Definition make_relay (source target : Z) : T (option Executable.t) :=
  if code_relay then
    page ← in_memory (Executable.near source);
    or_drop_relay (Some page)
      (bytes ← lift (code_jump (Executable.address page) target);
       '(page, r) ← in_memory (Executable.publish page bytes);
       lift r;;
       mret (Some page))
  else mret None.

(** The end of [install_raw]: plan, checks, write, push. *)
Definition patch_raw (source target : Z) (bytes : list Z) (relay : option Executable.t) : T unit :=
  let target := match relay with Some page => Executable.address page | None => target end in
  plan ← lift (code_plan source target bytes);
  address ← lift (ok_or InvalidRange (checked_add source (Z.of_nat (offset plan))));
  stop ← lift (ok_or InvalidRange (checked_add address (Z.of_nat (length (original plan)))));
  ps ← gets (λ c, Session.patches (self c));
  routed ← in_proc (overlaps address (stop - address));
  if existsb (overlap address stop) ps || routed then throw Overlap else
  in_memory (Memory.write address (original plan) (replacement plan));;
  modify (set_patches (ps ++ [Patch.Make source address (original plan) (replacement plan) relay])).

(** [Session::install_raw]. *)
Definition install_raw (source target : Z) : T unit :=
  local ← gets is_local;
  if local : bool then throw (error "use mock! or mock_async in a local session") else
  if source =? target then throw SameAddress else
  ps ← gets (λ c, Session.patches (self c));
  if existsb (λ p, within source p || within target p) ps then throw Overlap else
  routed ← in_proc (global source target);
  if routed : bool then
    l ← gets (λ c, Session.global_routes (self c));
    modify (set_global_routes (l ++ [source]))
  else
    in_memory (Memory.read target 1);;
    bytes ← in_memory (Memory.read source (Z.of_nat max_prefix));
    relay ← make_relay source target;
    or_drop_relay relay (patch_raw source target bytes relay).

(** [Session::replace_raw]. *)
Definition replace_raw (source target : Z) : T unit := checked (install_raw source target).

(** The loop of [check_expectations]. *)
Fixpoint check_mocks (mocks : list (OwnedMock.t X)) : T unit :=
  match mocks with
  | [] => mret tt
  | mock :: mocks => in_world (state_verify (OwnedMock.control mock));; check_mocks mocks
  end.

(** [Session::check_expectations]. *)
Definition check_expectations : T unit :=
  mocks ← gets (λ c, Session.mocks (self c)); check_mocks mocks.

(** [Session::verify]. *)
Definition session_verify : T unit := checked check_expectations.

(** [Drop for OwnedMock]. *)
Definition mock_drop (mock : OwnedMock.t X) : T unit :=
  modify (λ c, mkScope (self c) (thread c) (proc c) (world c) (OwnedMock.detach mock (slots c)));;
  in_world (deactivate (OwnedMock.control mock)).

(** [Session::__install]: a failed installation drops the mock. *)
Definition install_mock (source target : Z) (mock : OwnedMock.t X) : T unit :=
  local ← gets is_local;
  r ← attempt
    (if local : bool then
       th ← gets thread;
       in_proc (Routing.install th source target);;
       l ← gets (λ c, Session.local_patches (self c));
       modify (set_local_patches (l ++ [source]))
     else install_raw source target);
  match r with
  | Ok _ =>
      ms ← gets (λ c, Session.mocks (self c));
      modify (set_mocks (ms ++ [mock]))
  | Err e => mock_drop mock;; throw e
  | Panic message => mock_drop mock;; panic message
  | Abort => abort
  end.

(** [mocks.clear()]: the elements are dropped in order. *)
Fixpoint drop_mocks (mocks : list (OwnedMock.t X)) : T unit :=
  match mocks with
  | [] => mret tt
  | mock :: mocks => mock_drop mock;; drop_mocks mocks
  end.

(** [Session::detach]. *)
Definition detach : T unit :=
  mocks ← gets (λ c, Session.mocks (self c));
  modify (set_mocks []);;
  drop_mocks mocks.

(** The three loops of [restore_patches], over the list from its end. *)
Fixpoint restore_locals (sources : list Z) : T unit :=
  match sources with
  | [] => mret tt
  | source :: rest =>
      th ← gets thread;
      in_proc (remove th source);;
      modify (set_local_patches (reverse rest));;
      restore_locals rest
  end.

Fixpoint restore_globals (sources : list Z) : T unit :=
  match sources with
  | [] => mret tt
  | source :: rest =>
      modify (set_global_routes (reverse rest));;
      in_proc (remove_global source);;
      restore_globals rest
  end.

Fixpoint restore_code (ps : list Patch.t) : T unit :=
  match ps with
  | [] => mret tt
  | patch :: rest =>
      in_memory (Memory.write (Patch.address patch) (Patch.replacement patch)
                              (Patch.original patch));;
      modify (set_patches (reverse rest));;
      match Patch.relay patch with
      | Some page => in_memory (Executable.drop page)
      | None => mret tt
      end;;
      restore_code rest
  end.

(** [Session::restore_patches]. *)
Definition restore_patches : T unit :=
  l ← gets (λ c, reverse (Session.local_patches (self c)));
  restore_locals l;;
  g ← gets (λ c, reverse (Session.global_routes (self c)));
  restore_globals g;;
  p ← gets (λ c, reverse (Session.patches (self c)));
  restore_code p.

(** [Session::restore]. *)
Definition restore : T unit :=
  checked restore_patches;;
  r ← attempt check_expectations;
  detach;;
  checked (lift r).

(** [Drop for Session]; [panicking] is [std::thread::panicking()]. *)
Definition session_drop (panicking : bool) : T unit :=
  finish restore_patches;;
  r ← attempt check_expectations;
  detach;;
  match r with
  | Err e => if panicking then mret tt else panic (display e)
  | r => lift r
  end.
End operations.

(** ** Exclusion

    The live sessions of all threads beside the lock; opening and dropping
    sessions in any order and on any threads. *)

Definition live : Type := locks * gmap nat SessionLock.

Section exclusion.
Context `{!Priority}.

(** A thread that waits does nothing but take up its call again. *)
Definition calls_open (thread : nat) (local wait : bool) (w : locks) : Prop :=
  waiting w !! thread = None ∨
  wait = true ∧ waiting w !! thread = Some (if local then Local else Global).

Inductive lock_step : live → live → Prop :=
| step_open w ss thread local wait o w' :
    calls_open thread local wait w → open thread local wait w = (Ok (Some o), w') →
    lock_step (w, ss) (w', <[thread := o]> ss)
| step_refused w ss thread local wait o w' :
    calls_open thread local wait w → open thread local wait w = (o, w') →
    (∀ k, o ≠ Ok (Some k)) → lock_step (w, ss) (w', ss)
| step_close w ss thread k w' :
    ss !! thread = Some k → lock_drop thread k w = (Ok tt, w') →
    lock_step (w, ss) (w', delete thread ss).

Definition live_start : live := (mkLocks 0 false ∅ ∅, ∅).
Definition live_reachable : live → Prop := rtc lock_step live_start.

Definition locals (ss : gmap nat SessionLock) : gmap nat SessionLock :=
  filter (λ kv, kv.2 = Local) ss.

Record live_ok (l : live) : Prop := {
  live_active : SESSION_ACTIVE l.1 = dom l.2;
  live_readers : readers l.1 = size (locals l.2);
  live_writer : writer l.1 = true ↔ ∃ thread, l.2 !! thread = Some Global;
  live_alone thread : l.2 !! thread = Some Global → l.2 = {[thread := Global]};
  live_waiting thread : is_Some (waiting l.1 !! thread) → l.2 !! thread = None }.

Lemma locals_none ss : size (locals ss) = 0%nat → ∀ thread, ss !! thread ≠ Some Local.
Proof.
  intros Hs thread Ht. apply map_size_empty_inv in Hs.
  assert (locals ss !! thread = Some Local) as Hl by (by apply map_lookup_filter_Some).
  by rewrite Hs, lookup_empty in Hl.
Qed.

Lemma live_no_global l : live_ok l → writer l.1 = false → ∀ t, l.2 !! t ≠ Some Global.
Proof.
  intros Hok Hw t Ht. assert (writer l.1 = true) by (apply (live_writer l Hok); eauto). congruence.
Qed.

(** The lock has room for a local session when no global one is open, and for
    a global one when none is. *)
Lemma compatible_local w ss :
  live_ok (w, ss) → compatible Local w = true ↔ ∀ t, ss !! t ≠ Some Global.
Proof.
  intros Hok. unfold compatible. rewrite negb_true_iff. split; [by apply (live_no_global (w, ss))|].
  intros Hno. destruct (writer w) eqn:Hw; [|done].
  apply (live_writer _ Hok) in Hw as [t Ht]. by destruct (Hno t).
Qed.

Lemma compatible_global w ss : live_ok (w, ss) → compatible Global w = true ↔ ss = ∅.
Proof.
  intros Hok. unfold compatible. rewrite andb_true_iff, negb_true_iff, Nat.eqb_eq. split.
  - intros [Hw H0]. pose proof (live_no_global _ Hok Hw) as Hno. pose proof (live_readers _ Hok) as Hr.
    simpl in *. apply map_eq. intros t. rewrite lookup_empty.
    destruct (ss !! t) as [[]|] eqn:Ht; [by destruct (Hno t)| |done].
    rewrite Hr in H0. by destruct (locals_none _ H0 t).
  - intros ->. split; [|apply (live_readers _ Hok)]. destruct (writer w) eqn:Hw; [|done].
    apply (live_writer _ Hok) in Hw as [t Ht]. simpl in Ht. by rewrite lookup_empty in Ht.
Qed.

(** The thread that opened a session no longer waits. *)
Lemma waiting_opened (wt ss : gmap nat SessionLock) th k :
  (∀ t, is_Some (wt !! t) → ss !! t = None) →
  ∀ t, is_Some (delete th wt !! t) → <[th:=k]> ss !! t = None.
Proof.
  intros Hwt t [k' [Hne Ht]%lookup_delete_Some]. rewrite lookup_insert_ne by done. eauto.
Qed.

(** A local session opens beside local sessions only. *)
Lemma live_ok_local w ss th :
  live_ok (w, ss) → ss !! th = None → compatible Local w = true →
  live_ok (mkLocks (S (readers w)) (writer w) (delete th (waiting w)) ({[th]} ∪ SESSION_ACTIVE w),
           <[th:=Local]> ss).
Proof.
  intros Hok Hnone Hc. pose proof (proj1 (compatible_local _ _ Hok) Hc) as Hng.
  unfold compatible in Hc. apply negb_true_iff in Hc as ->.
  destruct Hok as [Ha Hr Hw Hone Hwt]. simpl in *.
  assert (∀ t, <[th:=Local]> ss !! t ≠ Some Global) as Hng'.
  { intros t Ht. apply lookup_insert_Some in Ht as [[_ ?]|[_ Ht]]; [done|by destruct (Hng t)]. }
  split; simpl; [| | | |by apply waiting_opened].
  - by rewrite Ha, dom_insert_L.
  - unfold locals. rewrite map_filter_insert_True by done.
    rewrite map_size_insert_None; [by rewrite Hr|]. apply map_lookup_filter_None. by left.
  - split; [done|]. intros [t Ht]. by destruct (Hng' t).
  - intros t Ht. by destruct (Hng' t).
Qed.

(** A global session opens alone. *)
Lemma live_ok_global w ss th :
  live_ok (w, ss) → compatible Global w = true →
  live_ok (mkLocks (readers w) true (delete th (waiting w)) ({[th]} ∪ SESSION_ACTIVE w),
           <[th:=Global]> ss).
Proof.
  intros Hok Hc. pose proof (proj1 (compatible_global _ _ Hok) Hc) as ->.
  destruct Hok as [Ha Hr Hw Hone Hwt]. simpl in *.
  split; simpl; [| | | |by apply waiting_opened].
  - by rewrite Ha, dom_insert_L.
  - rewrite Hr. unfold locals. rewrite map_filter_insert_False by done. by rewrite delete_empty.
  - split; [|done]. intros _. exists th. by rewrite lookup_insert_eq.
  - intros t Ht. rewrite insert_empty in *. apply lookup_singleton_Some in Ht as [<- _]. done.
Qed.

Lemma live_ok_close w ss th k w' :
  live_ok (w, ss) → ss !! th = Some k → lock_drop th k w = (Ok tt, w') →
  live_ok (w', delete th ss).
Proof.
  intros [Ha Hr Hw Hone Hwt] Hk [= <-]. simpl in *.
  assert (∀ t, is_Some (waiting w !! t) → delete th ss !! t = None) as Hwt'
    by (intros t Ht; apply lookup_delete_None; auto). destruct k.
  - pose proof (Hone _ Hk) as ->. split; simpl; rewrite ?delete_singleton_eq.
    + by rewrite Ha, dom_singleton_L, difference_diag_L, dom_empty_L.
    + rewrite Hr. unfold locals. by rewrite map_filter_singleton_False, map_filter_empty.
    + split; [done|]. intros [t Ht]. by rewrite lookup_empty in Ht.
    + intros t Ht. by rewrite lookup_empty in Ht.
    + done.
  - assert (∀ t, ss !! t ≠ Some Global) as Hng.
    { intros t Ht. pose proof (Hone _ Ht) as ->. apply lookup_singleton_Some in Hk as [_ [=]]. }
    split; simpl; [| | | |done].
    + by rewrite Ha, dom_delete_L.
    + rewrite Hr. unfold locals. rewrite map_filter_delete, map_size_delete.
      assert (filter (λ kv : nat * SessionLock, kv.2 = Local) ss !! th = Some Local) as ->
        by (by apply map_lookup_filter_Some). simpl. lia.
    + rewrite Hw. split; intros [t Ht]; [by destruct (Hng t)|].
      apply lookup_delete_Some in Ht as [_ Ht]. by destruct (Hng t).
    + intros t Ht. apply lookup_delete_Some in Ht as [_ Ht]. by destruct (Hng t).
Qed.

(** A thread without a session asks for one: the four constructors by cases. *)
Definition opens (thread : nat) (kind : SessionLock) (w : locks) : bool :=
  compatible kind w && admits thread kind w.

Lemma open_fresh thread local wait w ss :
  live_ok (w, ss) → ss !! thread = None →
  let kind := if local : bool then Local else Global in
  open thread local wait w =
    if opens thread kind w then
      (Ok (Some kind), mkLocks (if local then S (readers w) else readers w)
        (if local then writer w else true) (delete thread (waiting w)) ({[thread]} ∪ SESSION_ACTIVE w))
    else if wait then
      (Ok None, mkLocks (readers w) (writer w) (<[thread := kind]> (waiting w)) (SESSION_ACTIVE w))
    else (Err Busy, w).
Proof.
  intros Hok Hnone. unfold open, opens. rewrite bool_decide_false.
  - destruct local, (compatible _ w), (admits _ _ w); done.
  - pose proof (live_active _ Hok) as Ha. simpl in Ha. rewrite Ha. by apply not_elem_of_dom.
Qed.

(** Waiting for a session. *)
Lemma live_ok_wait w ss th k :
  live_ok (w, ss) → ss !! th = None →
  live_ok (mkLocks (readers w) (writer w) (<[th:=k]> (waiting w)) (SESSION_ACTIVE w), ss).
Proof.
  intros [? ? ? ? Hwt] Hnone. split; simpl in *; try done.
  intros t [k' [[-> _]|[_ Ht]]%lookup_insert_Some]; eauto.
Qed.

(** Whatever a call of [open] does, the live sessions are as the lock says. *)
Lemma live_ok_open w ss th local wait o w' :
  live_ok (w, ss) → open th local wait w = (o, w') →
  live_ok (w', match o with Ok (Some k) => <[th:=k]> ss | _ => ss end).
Proof.
  intros Hok Ho. destruct (ss !! th) as [k|] eqn:Hs.
  - unfold open in Ho. rewrite bool_decide_true in Ho; [by injection Ho as <- <-|].
    pose proof (live_active _ Hok) as Ha. simpl in Ha. rewrite Ha. by apply elem_of_dom.
  - rewrite (open_fresh _ _ _ _ _ Hok Hs) in Ho. destruct (opens _ _ w) eqn:Hop.
    + apply andb_true_iff in Hop as [Hc _].
      destruct local; injection Ho as <- <-; [by apply live_ok_local|by apply live_ok_global].
    + destruct wait; injection Ho as <- <-; [by apply live_ok_wait|done].
Qed.

Lemma live_ok_step l l' : live_ok l → lock_step l l' → live_ok l'.
Proof.
  intros Hok Hst. destruct Hst as [w ss th local wait k w' _ Ho|
    w ss th local wait o w' _ Ho Hno|w ss th k w' Hk Hd]; [..|by eapply live_ok_close].
  - by apply (live_ok_open _ _ _ _ _ _ _ Hok Ho).
  - pose proof (live_ok_open _ _ _ _ _ _ _ Hok Ho) as Hl.
    destruct o as [[k|]|e|m|]; try done. by destruct (Hno k).
Qed.

Lemma live_ok_reachable l : live_reachable l → live_ok l.
Proof.
  assert (live_ok live_start) as H0.
  { split; simpl; try done. split; [done|]. intros [t Ht]. by rewrite lookup_empty in Ht. }
  unfold live_reachable. generalize live_start H0. intros l0 Hl0 Hs.
  induction Hs; eauto using live_ok_step.
Qed.

(** A refused thread finds no room, or another thread waits. *)
Lemma refused `{!PriorityLaws} thread kind w :
  opens thread kind w = false →
  compatible kind w = false ∨ ∃ t, t ≠ thread ∧ is_Some (waiting w !! t).
Proof.
  intros [?|Ha]%andb_false_iff; [by left|right].
  destruct (decide (map_Forall (λ t _, t = thread) (waiting w))) as [Hall|Hex].
  - by rewrite (admits_alone thread kind w Hall) in Ha.
  - apply map_not_Forall in Hex as (t & k & Ht & Hne); [|apply _]. eauto.
Qed.

(** C20. Sessions exclude each other as documented, however threads open and drop
    them and whomever the lock lets in first: each thread has at most one (the
    blocking constructors panic, the others return [Busy]) and a global
    session is the only session of the process.  A thread without a session
    gets a local one only while no global one is open, a global one only when
    none is, and it does get it when no other thread waits; otherwise the
    blocking constructor waits and the other returns [Busy].  Once all
    sessions are gone, one of the waiting threads gets its session. *)
Theorem session_exclusion `{!PriorityLaws} w ss :
  live_reachable (w, ss) →
  (∀ thread, ss !! thread = Some Global → ss = {[thread := Global]}) ∧
  (∀ thread, is_Some (ss !! thread) →
     new_local thread w = (Panic (display Busy), w) ∧
     new_global thread w = (Panic (display Busy), w) ∧
     try_new_local thread w = (Err Busy, w) ∧ try_new_global thread w = (Err Busy, w)) ∧
  (∀ thread, ss !! thread = None →
     (∃ w', new_local thread w = (Ok (Some Local), w') ∧
            try_new_local thread w = (Ok (Some Local), w') ∧ ∀ t, ss !! t ≠ Some Global) ∨
     (∃ w', new_local thread w = (Ok None, w') ∧ waiting w' = <[thread := Local]> (waiting w) ∧
            try_new_local thread w = (Err Busy, w) ∧
            ((∃ t, ss !! t = Some Global) ∨ ∃ t, t ≠ thread ∧ is_Some (waiting w !! t)))) ∧
  (∀ thread, ss !! thread = None →
     (∃ w', new_global thread w = (Ok (Some Global), w') ∧
            try_new_global thread w = (Ok (Some Global), w') ∧ ss = ∅) ∨
     (∃ w', new_global thread w = (Ok None, w') ∧ waiting w' = <[thread := Global]> (waiting w) ∧
            try_new_global thread w = (Err Busy, w) ∧
            (ss ≠ ∅ ∨ ∃ t, t ≠ thread ∧ is_Some (waiting w !! t)))) ∧
  (ss = ∅ → waiting w ≠ ∅ → ∃ thread kind w',
     waiting w !! thread = Some kind ∧
     match kind with Local => new_local | Global => new_global end thread w = (Ok (Some kind), w')).
Proof.
  intros Hok%live_ok_reachable. split_and!; [apply (live_alone _ Hok)|..].
  - intros thread Hs. unfold new_local, new_global, try_new_local, try_new_global, open.
    rewrite bool_decide_true; [done|]. pose proof (live_active _ Hok) as Ha. simpl in Ha.
    rewrite Ha. by apply elem_of_dom.
  - intros thread Hs. unfold new_local, try_new_local. rewrite !(open_fresh _ _ _ _ _ Hok Hs).
    destruct (opens thread Local w) eqn:Ho; [left|right]; eexists; split_and!; try done.
    + apply andb_true_iff in Ho as [Hc _]. by apply (compatible_local _ _ Hok).
    + destruct (refused _ _ _ Ho) as [Hc|Hw]; [left|by right].
      apply (live_writer _ Hok). by apply negb_false_iff in Hc.
  - intros thread Hs. unfold new_global, try_new_global. rewrite !(open_fresh _ _ _ _ _ Hok Hs).
    destruct (opens thread Global w) eqn:Ho; [left|right]; eexists; split_and!; try done.
    + apply andb_true_iff in Ho as [Hc _]. by apply (compatible_global _ _ Hok).
    + destruct (refused _ _ _ Ho) as [Hc|Hw]; [left|by right]. intros He.
      apply (compatible_global _ _ Hok) in He. congruence.
  - intros He Hw. pose proof (proj2 (compatible_global _ _ Hok) He) as Hc.
    destruct (admits_next w Hc Hw) as (t & k & Ht & Ha).
    assert (ss !! t = None) as Hn by (by apply (live_waiting _ Hok); exists k).
    exists t, k. destruct k; eexists; (split; [done|]);
      unfold new_local, new_global; rewrite (open_fresh _ _ _ _ _ Hok Hn); unfold opens; rewrite Ha.
    + by rewrite Hc.
    + rewrite (proj2 (compatible_local _ _ Hok)); [done|]. intros t'. by rewrite He.
Qed.
End exclusion.

(** ** Undoing patches *)

Section undo.
Context {P : Type} `{!Platform P, !View P, !PlatformLaws P, !Pages P, !PagesLaws P,
                     !Code, !CodeLaws}.
Implicit Types s : P.

(** What was mapped at the start [s0] did not change from [s] to [s']. *)
Definition keeps_on s0 s s' : Prop :=
  ∀ b, is_Some (prot_at s0 b) →
    byte_at s' b = byte_at s b ∧ (is_Some (prot_at s b) → is_Some (prot_at s' b)).

Lemma keeps_keeps_on s0 s s' : still_mapped s0 s → keeps s s' → keeps_on s0 s s'.
Proof. intros Hm Hk b Hb. destruct (Hk b (Hm b Hb)). done. Qed.

Lemma keeps_on_trans s0 s1 s2 s3 :
  keeps_on s0 s1 s2 → keeps_on s0 s2 s3 → keeps_on s0 s1 s3.
Proof. intros H1 H2 b Hb. destruct (H1 b Hb) as [<- ?], (H2 b Hb) as [<- ?]. auto. Qed.

(** [s] is the start with the patches [ps] in place. *)
Record undo s0 (ps : list Patch.t) s : Prop := {
  undo_length p : p ∈ ps → length (Patch.original p) = length (Patch.replacement p);
  undo_nonempty p : p ∈ ps → Patch.original p ≠ [];
  undo_original p : p ∈ ps → holds s0 (Patch.address p) (Patch.original p);
  undo_patched p : p ∈ ps → holds s (Patch.address p) (Patch.replacement p);
  undo_mapped p b : p ∈ ps → in_patch p b → is_Some (prot_at s0 b);
  undo_relay p page : p ∈ ps → Patch.relay p = Some page →
    unmapped_page s0 (Executable.address page);
  undo_apart i j p q b : ps !! i = Some p → ps !! j = Some q → i ≠ j →
    in_patch p b → in_patch q b → False;
  undo_still : still_mapped s0 s;
  undo_rest b : is_Some (prot_at s0 b) → (∀ p, p ∈ ps → ¬ in_patch p b) →
    byte_at s b = byte_at s0 b }.

Lemma undo_start s0 : undo s0 [] s0.
Proof.
  split; try done; [..|by intros b]; intros;
    match goal with H : _ ∈ [] |- _ => by apply not_elem_of_nil in H end.
Qed.

Lemma undo_done s0 s : undo s0 [] s → keeps s0 s.
Proof.
  intros Hu b Hb. split; [|by apply (undo_still _ _ _ Hu)].
  apply (undo_rest _ _ _ Hu); [done|]. by intros p ?%not_elem_of_nil.
Qed.

Lemma undo_keeps_on s0 ps s s' : undo s0 ps s → keeps_on s0 s s' → undo s0 ps s'.
Proof.
  intros [] Hk. split; try done.
  - intros p Hp k x Hx. pose proof (lookup_lt_Some _ _ _ Hx).
    destruct (Hk (Patch.address p + Z.of_nat k)) as [-> _]; [|by apply undo_patched0].
    eapply undo_mapped0; [done|]. unfold in_patch, Patch.stop. rewrite undo_length0 by done. lia.
  - intros b Hb. by apply Hk, undo_still0.
  - intros b Hb Hn. destruct (Hk b Hb) as [-> _]. auto.
Qed.

(** A new patch on bytes no other patch covers. *)
Lemma undo_push s0 ps s s' p :
  undo s0 ps s → length (Patch.original p) = length (Patch.replacement p) →
  Patch.original p ≠ [] → holds s (Patch.address p) (Patch.original p) →
  (∀ b, in_patch p b → is_Some (prot_at s0 b)) →
  (∀ page, Patch.relay p = Some page → unmapped_page s0 (Executable.address page)) →
  (∀ q b, q ∈ ps → in_patch p b → in_patch q b → False) →
  written s s' (Patch.address p) (Patch.replacement p) → same_prot s s' →
  undo s0 (ps ++ [p]) s'.
Proof.
  intros [] Hl Hne Hh Hm Hrel Hap [Hin Hout] Hprot.
  assert (∀ b, ¬ in_patch p b → byte_at s' b = byte_at s b) as Hsame.
  { intros b Hb. apply Hout. rewrite <-Hl. exact Hb. }
  split.
  - intros q [Hq| ->%list_elem_of_singleton]%elem_of_app; auto.
  - intros q [Hq| ->%list_elem_of_singleton]%elem_of_app; auto.
  - intros q [Hq| ->%list_elem_of_singleton]%elem_of_app; [auto|].
    intros k x Hx. pose proof (lookup_lt_Some _ _ _ Hx).
    rewrite <-(undo_rest0 (Patch.address p + Z.of_nat k)).
    + by apply Hh.
    + apply Hm. unfold in_patch, Patch.stop. lia.
    + intros q Hq Hb. eapply Hap; [done| |done]. unfold in_patch, Patch.stop. lia.
  - intros q [Hq| ->%list_elem_of_singleton]%elem_of_app; [|done].
    intros k x Hx. pose proof (lookup_lt_Some _ _ _ Hx).
    rewrite Hsame; [by eapply undo_patched0|]. intros Hb. eapply Hap; [done..|].
    unfold in_patch, Patch.stop. rewrite undo_length0 by done. lia.
  - intros q b [Hq| ->%list_elem_of_singleton]%elem_of_app; eauto.
  - intros q page [Hq| ->%list_elem_of_singleton]%elem_of_app; eauto.
  - intros i j q r b. rewrite !lookup_app_Some.
    intros [Hi|[Hgi Hi]] [Hj|[Hgj Hj]] Hne'; [by eauto|..];
      repeat match goal with
      | H : [_] !! _ = Some _ |- _ => apply list_lookup_singleton_Some in H as [? <-]
      end; intros Hb1 Hb2.
    + eapply Hap; [by eapply list_elem_of_lookup_2|done..].
    + eapply Hap; [by eapply list_elem_of_lookup_2|done..].
    + lia.
  - intros b Hb. rewrite Hprot. auto.
  - intros b Hb Hn. rewrite Hsame; [apply undo_rest0; [done|]|].
    + intros q Hq. apply Hn, elem_of_app. by left.
    + apply Hn, elem_of_app. right. by left.
Qed.

(** Writing the original bytes of the last patch back. *)
Lemma undo_pop s0 ps s s' p :
  undo s0 (ps ++ [p]) s → written s s' (Patch.address p) (Patch.original p) → same_prot s s' →
  undo s0 ps s'.
Proof.
  intros [] [Hin Hout] Hprot.
  assert (∀ q, q ∈ ps → q ∈ ps ++ [p]) as Hsub by (intros; apply elem_of_app; by left).
  assert (p ∈ ps ++ [p]) as Hp by (apply elem_of_app; right; by left).
  assert (∀ q b, q ∈ ps → in_patch p b → in_patch q b → False) as Hap.
  { intros q b [i Hi]%list_elem_of_lookup Hb Hb'. pose proof (lookup_lt_Some _ _ _ Hi).
    apply (undo_apart0 i (length ps) q p b); [by apply lookup_app_l_Some| |lia|done..].
    by apply list_lookup_middle. }
  split; eauto.
  - intros q Hq k x Hx. pose proof (lookup_lt_Some _ _ _ Hx).
    rewrite Hout; [by eapply undo_patched0; [apply Hsub|]|]. intros Hb.
    eapply (Hap q); [done|exact Hb|]. unfold in_patch, Patch.stop.
    rewrite undo_length0 by auto. lia.
  - intros i j q r b Hi Hj. apply (undo_apart0 i j); by apply lookup_app_l_Some.
  - intros b Hb. rewrite Hprot. auto.
  - intros b Hb Hn. destruct (decide (Patch.address p ≤ b < Patch.stop p)) as [Hbp|Hbp].
    + destruct (lookup_lt_is_Some_2 (Patch.original p) (Z.to_nat (b - Patch.address p))) as [x Hx].
      { unfold Patch.stop in Hbp. lia. }
      replace b with (Patch.address p + Z.of_nat (Z.to_nat (b - Patch.address p)))
        by (unfold Patch.stop in Hbp; lia).
      rewrite (Hin _ _ Hx). symmetry. by apply undo_original0.
    + rewrite Hout by exact Hbp. apply undo_rest0; [done|].
      intros q [Hq| ->%list_elem_of_singleton]%elem_of_app; [by apply Hn|exact Hbp].
Qed.
End undo.

(** ** A global session gives everything back *)

Section global_session.
Context {P R X : Type} `{!Platform P, !View P, !PlatformLaws P, !Pages P, !PagesLaws P,
                         !Code, !CodeLaws, !Rule R}.
Implicit Types (c : scope P R X) (w : process P) (s : P).

(** The entries of [w] are those of the start [w0], but for the global
    targets of the functions in [routes]. *)
Record same_entries w0 w (routes : list Z) : Prop := {
  same_head : HEAD w = HEAD w0;
  same_records : ENTRIES w = ENTRIES w0;
  same_local : LOCAL w = LOCAL w0;
  same_count : length (leaked w) = length (leaked w0);
  same_leaked q e0 : leaked w0 !! q = Some e0 →
    ∃ x, leaked w !! q = Some (Entry.set_global x e0) ∧
      (x = Entry.global e0 ∨
       ∃ i r, ENTRIES w0 !! i = Some r ∧ Record_.entry r = q ∧
         Patch.entry (Entry.patch e0) ∈ routes);
  same_routes source : source ∈ routes →
    ∃ i r e0, recorded w0 i r e0 ∧ Patch.entry (Entry.patch e0) = source }.

Lemma set_global_id e : Entry.set_global (Entry.global e) e = e.
Proof. by destruct e. Qed.

Lemma same_recorded w0 w routes i r e :
  same_entries w0 w routes → recorded w i r e →
  ∃ e0 x, recorded w0 i r e0 ∧ e = Entry.set_global x e0.
Proof.
  intros Hs [Hi He]. rewrite (same_records _ _ _ Hs) in Hi.
  assert (is_Some (leaked w0 !! Record_.entry r)) as [e0 He0].
  { apply lookup_lt_is_Some. rewrite <-(same_count _ _ _ Hs). by eapply lookup_lt_Some. }
  destruct (same_leaked _ _ _ Hs _ _ He0) as (x & Hx & _). exists e0, x.
  split; [done|congruence].
Qed.

Lemma same_entries_refl w0 : same_entries w0 w0 [].
Proof.
  split; try done; [|by intros ? ?%not_elem_of_nil].
  intros q e0 He. exists (Entry.global e0). rewrite set_global_id. auto.
Qed.

Lemma same_entries_nil w0 w : same_entries w0 w [] → w = set_os (os w) w0.
Proof.
  intros []. destruct w as [s es h rs ls]. simpl in *. unfold set_os. f_equal; try done.
  apply list_eq. intros q. destruct (leaked w0 !! q) as [e0|] eqn:He.
  - destruct (same_leaked0 _ _ He) as (x & -> & [->|(? & ? & ? & ? & ?%not_elem_of_nil)]); [|done].
    by rewrite set_global_id.
  - apply lookup_ge_None_2. rewrite same_count0. by apply lookup_ge_None.
Qed.

Lemma same_entries_os w0 w routes s : same_entries w0 w routes → same_entries w0 (set_os s w) routes.
Proof. by intros []. Qed.

(** The invariant of a global session opened in [w0]. *)
Record session_ok w0 c : Prop := {
  ses_lock : Session.lock (self c) = Global;
  ses_locals : Session.local_patches (self c) = [];
  ses_routing : routing_ok (proc c);
  ses_same : same_entries w0 (proc c) (Session.global_routes (self c));
  ses_undo : undo (os w0) (Session.patches (self c)) (os (proc c));
  ses_apart p i r e b : p ∈ Session.patches (self c) → recorded w0 i r e →
    in_patch p b → ¬ footprint e b }.

(** The function was there when the session was opened, and does not lie in
    a page of the crate. *)
Definition usable w0 c (source : Z) : Prop :=
  outside_pages w0 source ∧
  ∀ b, source ≤ b < source + Z.of_nat max_prefix →
    is_Some (prot_at (os (proc c)) b) → is_Some (prot_at (os w0) b).

Lemma recorded_footprint w0 w routes i r e b :
  routing_ok w0 → same_entries w0 w routes → recorded w i r e → footprint e b →
  is_Some (prot_at (os w0) b).
Proof.
  intros Hw0 Hs Hr Hb. destruct (same_recorded _ _ _ _ _ _ Hs Hr) as (e0 & x & Hr0 & ->).
  destruct (ok_code w0 Hw0 _ _ _ Hr0) as [Hc _]. eapply code_footprint; [done|]. exact Hb.
Qed.

(** Running an operation on memory. *)
Definition set_proc w c : scope P R X := mkScope (self c) (thread c) w (world c) (slots c).

Lemma in_proc_run {A} (m : M Error (process P) A) c o w :
  m (proc c) = (o, w) → in_proc m c = (o, set_proc w c).
Proof. unfold in_proc. by intros ->. Qed.

Lemma in_memory_run {A} (m : M Error P A) c o s :
  m (os (proc c)) = (o, s) → in_memory m c = (o, set_proc (set_os s (proc c)) c).
Proof. intros Hm. unfold in_memory. apply in_proc_run. by apply in_os_run. Qed.

Lemma session_ok_os w0 c s :
  routing_ok w0 → session_ok w0 c → keeps_on (os w0) (os (proc c)) s →
  session_ok w0 (set_proc (set_os s (proc c)) c).
Proof.
  intros Hw0 [] Hk. split; simpl; try done.
  - apply routing_ok_code; [done|]. intros i r e Hr.
    destruct (ok_code (proc c) ses_routing0 _ _ _ Hr) as [Hc _].
    eapply code_ok_on; [|done]. intros b Hb.
    destruct (Hk b) as [-> Hm]; [by eapply recorded_footprint|]. split; [done|].
    apply Hm. by eapply code_footprint.
  - by apply same_entries_os.
  - by eapply undo_keeps_on.
Qed.

Lemma session_ok_keeps w0 c s :
  routing_ok w0 → session_ok w0 c → keeps (os (proc c)) s →
  session_ok w0 (set_proc (set_os s (proc c)) c).
Proof.
  intros Hw0 Hok Hk. apply session_ok_os; [done..|]. apply keeps_keeps_on; [|done].
  apply (undo_still _ _ _ (ses_undo _ _ Hok)).
Qed.

Lemma confined_keeps_on s0 a s s' : unmapped_page s0 a → confined a s s' → keeps_on s0 s s'.
Proof.
  intros Hu Hc b [p Hp]. destruct (Hc b) as [-> ->]; [|done].
  intros Hb. by rewrite (Hu b Hb) in Hp.
Qed.

(** Dropping a relay page that was not there at the start. *)
Lemma drop_relay w0 c page o c' :
  routing_ok w0 → session_ok w0 c → unmapped_page (os w0) (Executable.address page) →
  in_memory (Executable.drop page) c = (o, c') →
  o = Abort ∨ o = Ok tt ∧ session_ok w0 c' ∧ self c' = self c ∧ world c' = world c.
Proof.
  intros Hw0 Hok Hu Hrun. unfold in_memory, in_proc, in_os in Hrun.
  destruct (Executable.drop page (os (proc c))) as [o1 s1] eqn:H1.
  injection Hrun as <- <-. destruct (drop_run _ _ _ _ H1) as [->|[-> Hc]]; [by left|right].
  split_and!; [done| |done|done]. eapply session_ok_os; [done..|]. by eapply confined_keeps_on.
Qed.

(** What remains of a failed installation: the memory may differ where
    nothing was mapped. *)
Definition only_memory c c' : Prop :=
  ∃ s, c' = set_proc (set_os s (proc c)) c ∧ keeps (os (proc c)) s.

Lemma only_memory_refl c : only_memory c c.
Proof. exists (os (proc c)). split; [by destruct c as [? ? []]|done]. Qed.

Lemma only_memory_trans c1 c2 c3 : only_memory c1 c2 → only_memory c2 c3 → only_memory c1 c3.
Proof. intros (s2 & -> & H2) (s3 & -> & H3). exists s3. split; [done|]. by etrans. Qed.

Lemma only_memory_ok w0 c c' :
  routing_ok w0 → session_ok w0 c → only_memory c c' → session_ok w0 c'.
Proof. intros ? ? (s & -> & ?). by apply session_ok_keeps. Qed.

(** The relay, if there is one, is dropped. *)
Definition dropped (relay : option Executable.t) c c' : Prop :=
  ∃ s, c' = set_proc (set_os s (proc c)) c ∧
    match relay with
    | Some page => confined (Executable.address page) (os (proc c)) s
    | None => s = os (proc c)
    end.

Lemma or_drop_relay_run {A} relay (m : M Error (scope P R X) A) c o1 c1 o c' :
  m c = (o1, c1) → or_drop_relay relay m c = (o, c') →
  o = Abort ∨ o = o1 ∧ match o1 with Ok _ => c' = c1 | _ => dropped relay c1 c' end.
Proof.
  intros Hm. unfold or_drop_relay, attempt, mbind, M_bind. rewrite Hm.
  assert (dropped None c1 c1) as Hnone. { exists (os (proc c1)). by destruct c1 as [? ? []]. }
  destruct o1 as [a|e|msg|]; [by intros [= <- <-]; right| | |intros [= <- <-]; by left];
    (destruct relay as [page|]; [|intros [= <- <-]; by right]);
    unfold in_memory, in_proc, in_os;
    destruct (Executable.drop page (os (proc c1))) as [o2 s2] eqn:H2;
    (destruct (drop_run _ _ _ _ H2) as [->|[-> Hc]]; intros [= <- <-]; [by left|right]);
    (split; [done|by exists s2]).
Qed.

(** The page a patch goes through, and where it jumps to. *)
Definition relay_ok s (relay : option Executable.t) (target : Z) : Prop :=
  match relay with
  | None => code_relay = false
  | Some page => 0 < Executable.address page ∧ Executable.address page + CAPACITY ≤ isize_max ∧
      runnable_page s (Executable.address page) ∧
      ∃ bytes, code_jump (Executable.address page) target = Ok bytes ∧
        Z.of_nat (length bytes) ≤ CAPACITY ∧ holds s (Executable.address page) bytes
  end.

Definition fresh_relay s (relay : option Executable.t) : Prop :=
  ∀ page, relay = Some page → unmapped_page s (Executable.address page).

Lemma make_relay_run source target c o c' :
  make_relay source target c = (o, c') →
  o = Abort ∨ returns o ∧ only_memory c c' ∧
    ∀ relay, o = Ok relay →
      relay_ok (os (proc c')) relay target ∧ fresh_relay (os (proc c)) relay.
Proof.
  unfold make_relay. destruct code_relay eqn:Hrel.
  2:{ intros [= <- <-]. right. split_and!; [done|apply only_memory_refl|].
      intros relay [= <-]. split; [done|]. by intros page [=]. }
  unfold mbind at 1, M_bind at 1.
  destruct (Executable.near source (os (proc c))) as [o1 s1] eqn:H1.
  pose proof (near_run _ _ _ _ H1) as Hn. rewrite (in_memory_run _ c _ _ H1).
  destruct o1 as [page|e| |]; try done.
  2:{ intros [= <- <-]. right. split_and!; [done| |done]. exists s1. done. }
  destruct Hn as (Hse & Hpos & Hmax & Hunm & Hwr & Hc1).
  set (c1 := set_proc (set_os s1 (proc c)) c).
  match goal with |- or_drop_relay _ ?m _ = _ → _ => destruct (m c1) as [o2 c2] eqn:H2 end.
  intros Hrun. destruct (or_drop_relay_run _ _ _ _ _ _ _ H2 Hrun) as [->|[-> Hd]]; [by left|right].
  assert (returns o2 ∧ ∃ s2, c2 = set_proc (set_os s2 (proc c)) c ∧
    confined (Executable.address page) (os (proc c)) s2 ∧
    ∀ relay, o2 = Ok relay → relay_ok s2 relay target ∧ fresh_relay (os (proc c)) relay) as Hbody.
  { unfold mbind at 1, M_bind at 1, lift at 1 in H2.
    pose proof (jump_returns_law (Executable.address page) target) as Hjr.
    destruct (code_jump (Executable.address page) target) as [bytes|e| |] eqn:Hj; try done;
      [|injection H2 as <- <-; by split; [|exists s1]].
    unfold mbind at 1, M_bind at 1 in H2.
    destruct (publish_run page bytes s1 Hwr) as (page' & r & s2 & Hp & Hret & Ha & Hc2 & Hok & _).
    rewrite (in_memory_run _ c1 _ _ Hp) in H2. simpl in H2.
    assert (confined (Executable.address page) (os (proc c)) s2) as Hc
      by (by eapply confined_trans).
    unfold mbind, M_bind, lift in H2. destruct r as [[]|e| |]; try done; injection H2 as <- <-;
      (split; [done|exists s2; split_and!; [done|done|]; intros relay [= <-]]).
    destruct (Hok eq_refl) as (_ & Hne & Hcap & [Hin _] & Hrunp). rewrite <-Ha in *. split.
    - simpl. split_and!; [lia|lia|done|]. by exists bytes.
    - intros p [= <-]. done. }
  destruct Hbody as (Hret & s2 & -> & Hc & Hok). split; [done|].
  assert (∃ s3, c' = set_proc (set_os s3 (proc c)) c ∧
    confined (Executable.address page) (os (proc c)) s3 ∧ (∀ a, o2 = Ok a → s3 = s2)) as Hend.
  { destruct o2 as [a|e| |]; try done.
    - exists s2. by rewrite Hd.
    - destruct Hd as (s3 & -> & Hc3). exists s3. split_and!; [done|by eapply confined_trans|done]. }
  destruct Hend as (s3 & -> & Hc3 & Heq). split.
  - exists s3. split; [done|]. by eapply keeps_confined.
  - intros relay ->. rewrite (Heq _ eq_refl). by apply Hok.
Qed.

Lemma same_recorded_patch w0 w routes i r e :
  same_entries w0 w routes → recorded w0 i r e → Entry.patch e ∈ patches w.
Proof.
  intros Hs [Hi He]. destruct (same_leaked _ _ _ Hs _ _ He) as (x & Hx & _).
  change (Entry.patch e) with (Entry.patch (Entry.set_global x e)).
  apply (recorded_patch w i r). split; [by rewrite (same_records _ _ _ Hs)|done].
Qed.

(** The session with one more patch. *)
Lemma session_ok_push w0 c s p :
  routing_ok w0 → session_ok w0 c → length (Patch.original p) = length (Patch.replacement p) →
  Patch.original p ≠ [] → holds (os (proc c)) (Patch.address p) (Patch.original p) →
  (∀ b, in_patch p b → is_Some (prot_at (os w0) b)) →
  fresh_relay (os w0) (Patch.relay p) →
  (∀ q, q ∈ Session.patches (self c) → overlap (Patch.address p) (Patch.stop p) q = false) →
  (∀ q, q ∈ patches (proc c) → overlap (Patch.address p) (Patch.stop p) q = false) →
  (∀ i r e b, recorded w0 i r e → in_patch p b →
     ¬ owned_range (Executable.address (Entry.original e)) b) →
  written (os (proc c)) s (Patch.address p) (Patch.replacement p) → same_prot (os (proc c)) s →
  session_ok w0 (set_patches (Session.patches (self c) ++ [p]) (set_proc (set_os s (proc c)) c)).
Proof.
  intros Hw0 [] Hlen Hne Hh Hm Hrel Hps Hrs Hpages Hwr Hprot.
  assert (∀ q b, overlap (Patch.address p) (Patch.stop p) q = false →
    in_patch p b → in_patch q b → False) as Hdis.
  { intros q b. unfold overlap, in_patch, Patch.stop. lia. }
  assert (∀ i r e b, recorded w0 i r e → in_patch p b → ¬ footprint e b) as Hap.
  { intros i r e b Hr Hb [Hf|Hf]; [|by eapply Hpages].
    eapply (Hdis (Entry.patch e)); [|done..]. by eapply Hrs, same_recorded_patch. }
  split; simpl; try done.
  - apply routing_ok_code; [done|]. intros i r e Hr.
    destruct (ok_code (proc c) ses_routing0 _ _ _ Hr) as [Hc _].
    eapply code_ok_written; [done|by apply same_prot_mapped| |done]. rewrite <-Hlen.
    intros b Hb Hf. destruct (same_recorded _ _ _ _ _ _ ses_same0 Hr) as (e0 & x & Hr0 & ->).
    by apply (Hap _ _ _ b Hr0).
  - by apply same_entries_os.
  - eapply undo_push; try done. intros q b Hq. by apply Hdis, Hps.
  - intros q i r e b [Hq| ->%list_elem_of_singleton]%elem_of_app Hr; [by eapply ses_apart0|].
    by apply (Hap i r).
Qed.

Lemma existsb_false_elem {A} (f : A → bool) l x : existsb f l = false → x ∈ l → f x = false.
Proof.
  intros Hf Hx. apply not_true_iff_false. intros Ht. apply not_true_iff_false in Hf.
  apply Hf, existsb_exists. exists x. by rewrite <-list_elem_of_In.
Qed.

(** What a patch of the session looks like right after it was written. *)
Definition patch_live s (p : Patch.t) (source target : Z) : Prop :=
  Patch.entry p = source ∧ holds s (Patch.address p) (Patch.replacement p) ∧
  source ≤ Patch.address p ∧
  match Patch.relay p with
  | None => lands (Patch.address p) (Patch.replacement p) target
  | Some page => lands (Patch.address p) (Patch.replacement p) (Executable.address page) ∧
      relay_ok s (Some page) target
  end.

(** The state after the write of [patch_raw]: the patch is on the session's
    list and control reaches the target through it. *)
Lemma patch_written w0 c s1 source target (bytes : list Z) relay off old new :
  let p := Patch.Make source (source + Z.of_nat off) old new relay in
  routing_ok w0 → session_ok w0 c → outside_pages w0 source →
  (off + length old ≤ length bytes)%nat → (length bytes ≤ max_prefix)%nat →
  length old = length new → old ≠ [] → holds (os (proc c)) (Patch.address p) old →
  (∀ k, (k < length bytes)%nat → is_Some (prot_at (os w0) (source + Z.of_nat k))) →
  existsb (overlap (Patch.address p) (Patch.stop p)) (Session.patches (self c)) = false →
  existsb (overlap (Patch.address p) (Patch.stop p)) (patches (proc c)) = false →
  lands (Patch.address p) new
    (match relay with Some page => Executable.address page | None => target end) →
  relay_ok (os (proc c)) relay target → fresh_relay (os w0) relay →
  written (os (proc c)) s1 (Patch.address p) new → same_prot (os (proc c)) s1 →
  session_ok w0 (set_patches (Session.patches (self c) ++ [p]) (set_proc (set_os s1 (proc c)) c)) ∧
  patch_live s1 p source target.
Proof.
  intros p Hw0 Hok Hout Hfit Hmax Hlen Hne Hho Hm Hps Hrs Hlands Hrelay Hfresh Hwr Hprot.
  assert (∀ b, in_patch p b → source ≤ b < source + Z.of_nat (length bytes)) as Hin.
  { intros b. unfold in_patch, Patch.stop, p. simpl. lia. }
  split.
  - apply (session_ok_push w0 c s1 p); try done.
    + intros b Hb%Hin. replace b with (source + Z.of_nat (Z.to_nat (b - source))) by lia.
      apply Hm. lia.
    + intros q Hq. eapply (existsb_false_elem (overlap _ _)); [exact Hps|done].
    + intros q Hq. eapply (existsb_false_elem (overlap _ _)); [exact Hrs|done].
    + intros i r e b Hr Hb%Hin. eapply Hout; [done|]. lia.
  - unfold patch_live, p; simpl. split_and!; [done|apply Hwr|lia|].
    destruct relay as [page|]; [|done]. split; [done|].
    destruct Hrelay as (Hp1 & Hp2 & Hp3 & js & Hj & Hjl & Hjh). split_and!; [done|done|..].
    + intros b Hb. rewrite Hprot. by apply Hp3.
    + exists js. split_and!; [done|done|]. intros k x Hx. pose proof (lookup_lt_Some _ _ _ Hx).
      destruct Hwr as [_ Hno]. rewrite Hno; [by apply Hjh|]. simpl. rewrite <-Hlen. intros Hb.
      destruct (Hm (Z.to_nat (Executable.address page + Z.of_nat k - source))) as [q Hq]; [lia|].
      rewrite Z2Nat.id in Hq by lia.
      rewrite (Hfresh _ eq_refl) in Hq; [done|]. unfold owned_range. lia.
Qed.

Lemma patch_raw_run w0 c source target bytes relay o c' :
  routing_ok w0 → session_ok w0 c → outside_pages w0 source → 0 ≤ target ≤ usize_max →
  holds (os (proc c)) source bytes → (length bytes ≤ max_prefix)%nat →
  (∀ k, (k < length bytes)%nat → is_Some (prot_at (os w0) (source + Z.of_nat k))) →
  relay_ok (os (proc c)) relay target → fresh_relay (os w0) relay →
  patch_raw source target bytes relay c = (o, c') →
  match o with
  | Ok _ => session_ok w0 c' ∧
      ∃ p, patch_live (os (proc c')) p source target ∧
        self c' = self (set_patches (Session.patches (self c) ++ [p]) c) ∧
        proc c' = set_os (os (proc c')) (proc c) ∧ world c' = world c ∧ slots c' = slots c
  | Err _ => only_memory c c'
  | Panic _ => False
  | Abort => True
  end.
Proof.
  intros Hw0 Hok Hout Ht Hh Hmax Hm Hrelay Hfresh. unfold patch_raw.
  set (target' := match relay with Some page => Executable.address page | None => target end).
  assert (0 ≤ target' ≤ usize_max) as Ht'.
  { subst target'. destruct relay as [page|]; [|done]. destruct Hrelay as (? & ? & _).
    unfold CAPACITY, isize_max, usize_max in *. lia. }
  unfold mbind at 1, M_bind at 1, lift at 1.
  pose proof (plan_returns_law source target' bytes) as Hpr.
  destruct (code_plan source target' bytes) as [plan|e| |] eqn:Hplan; try done;
    [|intros [= <- <-]; apply only_memory_refl].
  destruct (plan_law _ _ _ _ Ht' Hplan) as (Hlands & Hlen & Hne & Hat & _).
  pose proof (bytes_at_length _ _ _ Hat Hne) as Hfit.
  unfold mbind at 1, M_bind at 1, lift at 1.
  destruct (checked_add source (Z.of_nat (offset plan))) as [address|] eqn:Ha; simpl;
    [|intros [= <- <-]; apply only_memory_refl].
  unfold mbind at 1, M_bind at 1, lift at 1.
  destruct (checked_add address (Z.of_nat (length (original plan)))) as [stop|] eqn:Hs; simpl;
    [|intros [= <- <-]; apply only_memory_refl].
  apply checked_add_Some in Ha as [-> Ha], Hs as [-> Hs].
  unfold mbind at 1, M_bind at 1, gets at 1. unfold mbind at 1, M_bind at 1.
  set (address := source + Z.of_nat (offset plan)) in *.
  rewrite (in_proc_run (overlaps address
    (address + Z.of_nat (length (original plan)) - address)) c
    (Ok (existsb (overlap address (address + Z.of_nat (length (original plan)))) (patches (proc c))))
    (proc c)).
  2:{ unfold overlaps, mbind, M_bind, gets. by rewrite Zplus_minus. }
  assert (set_proc (proc c) c = c) as -> by (by destruct c).
  destruct (existsb _ (Session.patches (self c))) eqn:Hps;
    [intros [= <- <-]; apply only_memory_refl|].
  destruct (existsb _ (patches (proc c))) eqn:Hrs; [intros [= <- <-]; apply only_memory_refl|].
  cbn [orb]. unfold mbind, M_bind, modify.
  destruct (Memory.write address (original plan) (replacement plan) (os (proc c)))
    as [o1 s1] eqn:H1.
  rewrite (in_memory_run _ c _ _ H1). pose proof (replace_transaction _ _ _ _ _ _ H1) as Htr.
  destruct o1 as [[]|e| |]; try done; intros [= <- <-]; [|exists s1; split; [done|]|done].
  2:{ destruct Htr as (Hsb & Hsm & _). intros b Hb. split; [apply Hsb|by apply Hsm]. }
  destruct Htr as (Hho & _ & Hwr & Hprot).
  destruct (patch_written w0 c s1 source target bytes relay (offset plan) (original plan)
    (replacement plan)) as [Hok' Hlive]; try done.
  split; [done|]. by eexists.
Qed.

(** Claiming and giving back the global route of an entry. *)
Lemma same_entries_claim w0 w routes i r e x :
  same_entries w0 w routes → recorded w i r e →
  same_entries w0 (with_global (Record_.entry r) x w)
    (routes ++ [Patch.entry (Entry.patch e)]).
Proof.
  intros Hs Hr. destruct (same_recorded _ _ _ _ _ _ Hs Hr) as (e1 & y & Hr1 & ->).
  simpl. destruct Hs. split; try done; simpl.
  - by rewrite length_alter.
  - intros q e0 He. destruct (same_leaked0 _ _ He) as (z & Hz & Hd).
    destruct (decide (q = Record_.entry r)) as [->|Hne].
    + exists x. rewrite list_lookup_alter_eq, Hz. split; [done|]. right. exists i, r.
      destruct Hr1 as [Hi He1]. split_and!; [done..|]. apply elem_of_app. right.
      apply list_elem_of_singleton. congruence.
    + exists z. rewrite list_lookup_alter_ne by done. split; [done|].
      destruct Hd as [->|(j & r' & ? & ? & ?)]; [by left|right]. exists j, r'.
      split_and!; try done. apply elem_of_app. by left.
  - intros source [Hin| ->%list_elem_of_singleton]%elem_of_app; [by apply same_routes0|].
    by exists i, r, e1.
Qed.

Definition globals_free w0 : Prop := ∀ i r e, recorded w0 i r e → Entry.global e = 0.

Lemma same_entries_release w0 w routes i r e :
  routing_ok w0 → globals_free w0 → recorded w0 i r e →
  same_entries w0 w (routes ++ [Patch.entry (Entry.patch e)]) →
  same_entries w0 (with_global (Record_.entry r) 0 w) routes.
Proof.
  intros Hw0 Hfree Hr []. split; try done; simpl.
  - by rewrite length_alter.
  - intros q e0 He. destruct (same_leaked0 _ _ He) as (z & Hz & Hd).
    destruct (decide (q = Record_.entry r)) as [->|Hne].
    + exists 0. rewrite list_lookup_alter_eq, Hz. split; [done|]. left. symmetry.
      apply (Hfree i r). destruct Hr. by split.
    + exists z. rewrite list_lookup_alter_ne by done. split; [done|].
      destruct Hd as [->|(j & r' & Hj & <- & Hin)]; [by left|right]. exists j, r'.
      split_and!; try done. apply elem_of_app in Hin as [Hin|Hin%list_elem_of_singleton]; [done|].
      destruct Hne. assert (j = i) as ->.
      { eapply (ok_sources w0 Hw0 j i r' r e0 e); [by split|done..]. }
      destruct Hr as [Hi _]. congruence.
  - intros source Hin. apply same_routes0, elem_of_app. by left.
Qed.

(** How an installation came about: through the entry the function has, or
    as a patch of the session. *)
Inductive raw_installed c c' (source target : Z) : Prop :=
| by_route i r e s :
    recorded (proc c) i r e → Patch.entry (Entry.patch e) = source → Entry.global e = 0 →
    same_view (os (proc c)) s →
    proc c' = with_global (Record_.entry r) target (set_os s (proc c)) →
    self c' = self (set_global_routes (Session.global_routes (self c) ++ [source]) c) →
    raw_installed c c' source target
| by_patch p :
    (∀ i r e, recorded (proc c) i r e → Patch.entry (Entry.patch e) ≠ source) →
    patch_live (os (proc c')) p source target →
    proc c' = set_os (os (proc c')) (proc c) →
    self c' = self (set_patches (Session.patches (self c) ++ [p]) c) →
    raw_installed c c' source target.

Lemma keeps_unmapped s s' a : keeps s s' → unmapped_page s' a → unmapped_page s a.
Proof.
  intros Hk Hu b Hb. destruct (prot_at s b) eqn:Hp; [|done].
  destruct (Hk b) as [_ [? Hs]]; [by eexists|]. by rewrite Hu in Hs.
Qed.

Lemma still_unmapped s s' a : still_mapped s s' → unmapped_page s' a → unmapped_page s a.
Proof.
  intros Hk Hu b Hb. destruct (prot_at s b) eqn:Hp; [|done].
  destruct (Hk b) as [? Hs]; [by eexists|]. by rewrite Hu in Hs.
Qed.

Lemma dropped_only_memory c c1 c2 relay :
  fresh_relay (os (proc c)) relay → only_memory c c1 → dropped relay c1 c2 → only_memory c c2.
Proof.
  intros Hf (s1 & -> & Hk) (s2 & -> & Hd). exists s2. split; [done|]. destruct relay as [page|].
  - intros b Hb. destruct (Hk b Hb) as [<- Hs]. destruct (Hd b) as [-> ->]; [|done].
    intros Hin. destruct Hb as [? Hb]. by rewrite (Hf _ eq_refl) in Hb.
  - simpl in Hd. by subst s2.
Qed.

Lemma read_bytes_run a n c o c' :
  0 ≤ n → in_memory (Memory.read a n) c = (o, c') →
  returns o ∧ only_memory c c' ∧ same_view (os (proc c)) (os (proc c')) ∧
  ∀ bs, o = Ok bs → Z.of_nat (length bs) ≤ n ∧ holds (os (proc c)) a bs ∧
    ∀ k, (k < length bs)%nat → is_Some (prot_at (os (proc c)) (a + Z.of_nat k)).
Proof.
  intros Hn Hrun. destruct (Memory.read a n (os (proc c))) as [o1 s1] eqn:H1.
  rewrite (in_memory_run _ _ _ _ H1) in Hrun. injection Hrun as <- <-.
  destruct (read_run a n _ _ _ Hn H1) as (Hret & Hv & Hok). split_and!; [done| |done|].
  - exists s1. split; [done|]. by apply same_view_keeps.
  - intros bs Hbs. destruct (Hok bs Hbs) as (? & ? & Hp). split_and!; [done..|].
    intros k Hk. destruct (Hp k Hk) as (p & -> & _). eauto.
Qed.

(** The part of [install_raw] for a source that has no entry of its own. *)
Lemma install_unrouted w0 c source target o c' :
  routing_ok w0 → session_ok w0 c → usable w0 c source → 0 ≤ target ≤ usize_max →
  (∀ i r e, recorded (proc c) i r e → Patch.entry (Entry.patch e) ≠ source) →
  (in_memory (Memory.read target 1);;
   bytes ← in_memory (Memory.read source (Z.of_nat max_prefix));
   relay ← make_relay source target;
   or_drop_relay relay (patch_raw source target bytes relay)) c = (o, c') →
  match o with
  | Ok _ => session_ok w0 c' ∧ raw_installed c c' source target ∧ world c' = world c
  | Err _ => only_memory c c'
  | Panic _ => False
  | Abort => True
  end.
Proof.
  intros Hw0 Hok [Hout Hold] Ht Hnone.
  unfold mbind at 1, M_bind at 1.
  destruct (in_memory (Memory.read target 1) c) as [o2 c2] eqn:H2.
  destruct (read_bytes_run target 1 _ _ _ ltac:(lia) H2) as (Hret2 & Hm2 & Hv2 & _).
  destruct o2 as [bs|e| |]; try done; [|by intros [= <- <-]].
  unfold mbind at 1, M_bind at 1.
  destruct (in_memory (Memory.read source (Z.of_nat max_prefix)) c2) as [o3 c3] eqn:H3.
  destruct (read_bytes_run source (Z.of_nat max_prefix) _ _ _ ltac:(lia) H3)
    as (Hret3 & Hm3 & Hv3 & Hbytes).
  pose proof (only_memory_trans _ _ _ Hm2 Hm3) as Hm13.
  destruct o3 as [bytes|e| |]; try done; [|by intros [= <- <-]].
  destruct (Hbytes _ eq_refl) as (Hlen & Hh & Hmap). clear Hbytes.
  unfold mbind at 1, M_bind at 1.
  destruct (make_relay source target c3) as [o4 c4] eqn:H4.
  destruct (make_relay_run _ _ _ _ _ H4) as [->|(Hret4 & Hm4 & Hrel)]; [by intros [= <- <-]|].
  pose proof (only_memory_trans _ _ _ Hm13 Hm4) as Hm14.
  destruct o4 as [relay|e| |]; try done; [|by intros [= <- <-]].
  destruct (Hrel _ eq_refl) as [Hro Hfr]. clear Hrel.
  assert (fresh_relay (os (proc c)) relay) as Hfr0.
  { destruct Hm13 as (s3 & -> & Hk3). intros page Hp. by eapply keeps_unmapped, Hfr. }
  assert (fresh_relay (os w0) relay) as Hfrw.
  { intros page Hp. eapply still_unmapped; [|by apply Hfr0].
    apply (undo_still _ _ _ (ses_undo _ _ Hok)). }
  destruct (patch_raw source target bytes relay c4) as [o5 c5] eqn:H5.
  intros Hrun. destruct (or_drop_relay_run _ _ _ _ _ _ _ H5 Hrun) as [->|[-> Hd]]; [done|].
  pose proof (only_memory_ok _ _ _ Hw0 Hok Hm14) as Hok4.
  assert (∀ k, (k < length bytes)%nat → is_Some (prot_at (os w0) (source + Z.of_nat k))) as Hmw.
  { intros k Hk. apply Hold; [lia|]. destruct Hv2 as [_ Hp2]. rewrite <-Hp2. by apply Hmap. }
  assert (holds (os (proc c4)) source bytes) as Hh4.
  { destruct (only_memory_trans _ _ _ Hm3 Hm4) as (s4 & -> & Hk4).
    by eapply keeps_holds. }
  pose proof (patch_raw_run w0 c4 source target bytes relay o5 c5 Hw0 Hok4 Hout Ht Hh4
    ltac:(lia) Hmw Hro Hfrw H5) as Hp.
  destruct Hm14 as (s4 & -> & Hk4).
  destruct o5 as [[]|e| |]; try done.
  - subst c'. destruct Hp as (Hok5 & p & Hlive & Hself & Hproc & Hworld & _).
    split_and!; [done| |done]. eapply by_patch; try done.
  - eapply dropped_only_memory; [exact Hfr0| |done].
    eapply only_memory_trans; [|exact Hp]. by exists s4.
Qed.

Lemma install_raw_run w0 c source target o c' :
  routing_ok w0 → session_ok w0 c → usable w0 c source → 0 ≤ target ≤ usize_max →
  install_raw source target c = (o, c') →
  match o with
  | Ok _ => session_ok w0 c' ∧ raw_installed c c' source target ∧ world c' = world c
  | Err _ => only_memory c c'
  | Panic _ => False
  | Abort => True
  end.
Proof.
  intros Hw0 Hok Hus Ht. unfold install_raw.
  unfold mbind at 1, M_bind at 1, gets at 1, is_local at 1.
  rewrite bool_decide_false by (by rewrite (ses_lock _ _ Hok)).
  destruct (source =? target); [intros [= <- <-]; apply only_memory_refl|].
  unfold mbind at 1, M_bind at 1, gets at 1.
  destruct (existsb _ (Session.patches (self c))); [intros [= <- <-]; apply only_memory_refl|].
  unfold mbind at 1, M_bind at 1.
  destruct (global source target (proc c)) as [o1 w1] eqn:H1.
  rewrite (in_proc_run _ _ _ _ H1).
  pose proof (global_run _ _ _ _ _ (ses_routing _ _ Hok) H1) as Hg.
  destruct o1 as [[]|e| |]; try done.
  - destruct Hg as (i & r & e & s & Hr & Hs & Hz & Hv & ->).
    unfold mbind, M_bind, gets, modify. intros [= <- <-].
    split_and!; [|by eapply by_route|done].
    pose proof (session_ok_keeps w0 c s Hw0 Hok (same_view_keeps _ _ Hv)) as [].
    split; simpl in *; try done.
    + by apply routing_ok_global.
    + rewrite <-Hs. by eapply same_entries_claim.
  - destruct Hg as [-> Hnone]. assert (set_proc (proc c) c = c) as -> by (by destruct c).
    by apply (install_unrouted w0).
  - destruct Hg as (s & Hv & ->). intros [= <- <-]. exists s. split; [done|].
    by apply same_view_keeps.
Qed.

(** ** Restoring *)

(** Restoring touches nothing but the lists of the session and the process. *)
Definition same_mocks c c' : Prop :=
  thread c' = thread c ∧ world c' = world c ∧ slots c' = slots c ∧
  Session.mocks (self c') = Session.mocks (self c) ∧
  Session.lock (self c') = Session.lock (self c).

#[global] Instance same_mocks_preorder : PreOrder same_mocks.
Proof.
  split; [by intros c; split_and!|]. intros c1 c2 c3 (? & ? & ? & ? & ?) (? & ? & ? & ? & ?).
  split_and!; congruence.
Qed.

Lemma restore_globals_run w0 l c :
  routing_ok w0 → globals_free w0 → session_ok w0 c →
  Session.global_routes (self c) = reverse l →
  ∃ c', restore_globals l c = (Ok tt, c') ∧ session_ok w0 c' ∧ same_mocks c c' ∧
    Session.global_routes (self c') = [] ∧ Session.patches (self c') = Session.patches (self c).
Proof.
  intros Hw0 Hfree. revert c. induction l as [|source l IH]; intros c Hok Hl.
  { exists c. by split_and!. }
  cbn [restore_globals]. unfold mbind at 1, M_bind at 1, modify at 1.
  set (c1 := set_global_routes (reverse l) c).
  rewrite reverse_cons in Hl.
  destruct (same_routes _ _ _ (ses_same _ _ Hok) source) as (i & r & e & Hr & Hs).
  { rewrite Hl. apply elem_of_app. right. by left. }
  assert (∃ x, recorded (proc c) i r (Entry.set_global x e)) as [x Hrx].
  { destruct Hr as [Hi He].
    destruct (same_leaked _ _ _ (ses_same _ _ Hok) _ _ He) as (x & Hx & _). exists x.
    split; [by rewrite (same_records _ _ _ (ses_same _ _ Hok))|done]. }
  pose proof (remove_global_run _ _ _ _ (ses_routing _ _ Hok) Hrx) as Hrm. simpl in Hrm.
  rewrite Hs in Hrm. unfold mbind at 1, M_bind at 1.
  rewrite (in_proc_run (remove_global source) c1 _ _ Hrm).
  set (c2 := set_proc (with_global (Record_.entry r) 0 (proc c)) c1).
  assert (session_ok w0 c2) as Hok2.
  { destruct Hok. split; simpl; try done.
    - by apply routing_ok_global.
    - rewrite Hl, <-Hs in ses_same0. by eapply same_entries_release. }
  destruct (IH c2 Hok2) as (c' & Hrun & Hok' & Hsame & Hg & Hp); [done|].
  exists c'. split_and!; [exact Hrun|done|by etrans; [|done]|done|by rewrite Hp].
Qed.

Lemma session_ok_pop w0 c s ps p :
  routing_ok w0 → session_ok w0 c → Session.patches (self c) = ps ++ [p] →
  written (os (proc c)) s (Patch.address p) (Patch.original p) → same_prot (os (proc c)) s →
  session_ok w0 (set_patches ps (set_proc (set_os s (proc c)) c)).
Proof.
  intros Hw0 [] Hps Hwr Hprot. rewrite Hps in *.
  assert (p ∈ ps ++ [p]) as Hp by (apply elem_of_app; right; by left).
  split; simpl; try done.
  - apply routing_ok_code; [done|]. intros i r e Hr.
    destruct (ok_code (proc c) ses_routing0 _ _ _ Hr) as [Hc _].
    eapply code_ok_written; [done|by apply same_prot_mapped| |done].
    intros b Hb Hf. destruct (same_recorded _ _ _ _ _ _ ses_same0 Hr) as (e0 & x & Hr0 & ->).
    by apply (ses_apart0 p _ _ _ b Hp Hr0).
  - by apply same_entries_os.
  - by eapply undo_pop.
  - intros q i r e b Hq. apply ses_apart0, elem_of_app. by left.
Qed.

Lemma restore_code_run w0 l c o c' :
  routing_ok w0 → session_ok w0 c → Session.patches (self c) = reverse l →
  restore_code l c = (o, c') →
  match o with
  | Ok _ => session_ok w0 c' ∧ same_mocks c c' ∧ Session.patches (self c') = [] ∧
      Session.global_routes (self c') = Session.global_routes (self c)
  | Err _ => session_ok w0 c' ∧ same_mocks c c' ∧ Session.patches (self c') ≠ [] ∧
      Session.patches (self c') `prefix_of` Session.patches (self c)
  | Panic _ => False
  | Abort => True
  end.
Proof.
  intros Hw0. revert c. induction l as [|p l IH]; intros c Hok Hl.
  { intros [= <- <-]. rewrite Hl. done. }
  cbn [restore_code]. rewrite reverse_cons in Hl. unfold mbind at 1, M_bind at 1.
  destruct (Memory.write (Patch.address p) (Patch.replacement p) (Patch.original p)
    (os (proc c))) as [o1 s1] eqn:H1.
  rewrite (in_memory_run _ c _ _ H1). pose proof (replace_transaction _ _ _ _ _ _ H1) as Htr.
  destruct o1 as [[]|e| |]; try done; [..|by intros [= <- <-]].
  2:{ intros [= <- <-]. destruct Htr as (Hsb & Hsm & _). split_and!.
      - apply session_ok_keeps; [done..|]. intros b Hb. split; [apply Hsb|by apply Hsm].
      - done.
      - simpl. rewrite Hl. by destruct (reverse l).
      - done. }
  destruct Htr as (_ & _ & Hwr & Hprot).
  unfold mbind at 1, M_bind at 1, modify at 1.
  pose proof (session_ok_pop w0 c s1 (reverse l) p Hw0 Hok Hl Hwr Hprot) as Hok1.
  set (c1 := set_patches (reverse l) (set_proc (set_os s1 (proc c)) c)) in *.
  assert (∀ c2, session_ok w0 c2 → self c2 = self c1 → same_mocks c c2 →
    restore_code l c2 = (o, c') →
    match o with
    | Ok _ => session_ok w0 c' ∧ same_mocks c c' ∧ Session.patches (self c') = [] ∧
        Session.global_routes (self c') = Session.global_routes (self c)
    | Err _ => session_ok w0 c' ∧ same_mocks c c' ∧ Session.patches (self c') ≠ [] ∧
        Session.patches (self c') `prefix_of` Session.patches (self c)
    | Panic _ => False
    | Abort => True
    end) as Hnext.
  { intros c2 Hok2 Hself Hsame Hrun. specialize (IH c2 Hok2 ltac:(by rewrite Hself) Hrun).
    destruct o as [[]|e| |]; try done; destruct IH as (? & ? & ? & Hlast);
      (split_and!; [done|by etrans|done|]).
    - by rewrite Hlast, Hself.
    - rewrite Hself in Hlast. rewrite Hl. simpl in Hlast. by apply prefix_app_r. }
  destruct (Patch.relay p) as [page|] eqn:Hrel.
  2:{ unfold mbind at 1, M_bind at 1. simpl. by apply Hnext. }
  unfold mbind at 1, M_bind at 1.
  destruct (in_memory (Executable.drop page) c1) as [o2 c2] eqn:H2.
  assert (unmapped_page (os w0) (Executable.address page)) as Hu.
  { eapply (undo_relay _ _ _ (ses_undo _ _ Hok)); [|done]. rewrite Hl. apply elem_of_app.
    right. by left. }
  pose proof H2 as H2'. unfold in_memory, in_proc in H2'.
  destruct (in_os (Executable.drop page) (proc c1)) as [o3 w3] eqn:H3. injection H2' as <- <-.
  destruct (drop_relay _ _ _ _ _ Hw0 Hok1 Hu H2) as [->|(-> & Hok2 & _ & _)];
    [by intros [= <- <-]|].
  by apply Hnext.
Qed.

(** [restore_patches] on a global session. *)
Lemma restore_patches_run w0 c o c' :
  routing_ok w0 → globals_free w0 → session_ok w0 c → restore_patches c = (o, c') →
  match o with
  | Ok _ => session_ok w0 c' ∧ same_mocks c c' ∧ Session.patches (self c') = [] ∧
      Session.global_routes (self c') = []
  | Err _ => session_ok w0 c' ∧ same_mocks c c' ∧ Session.patches (self c') ≠ [] ∧
      Session.patches (self c') `prefix_of` Session.patches (self c)
  | Panic _ => False
  | Abort => True
  end.
Proof.
  intros Hw0 Hfree Hok. unfold restore_patches. unfold mbind at 1, M_bind at 1, gets at 1.
  rewrite (ses_locals _ _ Hok). unfold mbind at 1, M_bind at 1. simpl.
  unfold mbind at 1, M_bind at 1, gets at 1. unfold mbind at 1, M_bind at 1.
  destruct (restore_globals_run w0 (reverse (Session.global_routes (self c))) c Hw0 Hfree Hok)
    as (c1 & -> & Hok1 & Hsame & Hg & Hp); [by rewrite reverse_involutive|].
  unfold mbind at 1, M_bind at 1, gets at 1. intros Hrun.
  pose proof (restore_code_run w0 _ _ _ _ Hw0 Hok1
    (eq_sym (reverse_involutive _)) Hrun) as Hr.
  destruct o as [[]|e| |]; try done; destruct Hr as (? & ? & ? & Hlast);
    (split_and!; [done|by etrans|done|]); [by rewrite Hlast|by rewrite <-Hp].
Qed.

Lemma session_ok_frame w0 c c' :
  session_ok w0 c → proc c' = proc c → Session.lock (self c') = Session.lock (self c) →
  Session.local_patches (self c') = Session.local_patches (self c) →
  Session.global_routes (self c') = Session.global_routes (self c) →
  Session.patches (self c') = Session.patches (self c) → session_ok w0 c'.
Proof. intros [] Hp Hl Hlp Hg Hps. split; rewrite ?Hp, ?Hl, ?Hlp, ?Hg, ?Hps; done. Qed.

Lemma mock_drop_frame mock c o c' :
  mock_drop mock c = (o, c') → proc c' = proc c ∧ self c' = self c.
Proof.
  unfold mock_drop, in_world, mbind, M_bind, modify. simpl.
  by destruct (deactivate (OwnedMock.control mock) (world c)) as [o1 w1]; intros [= <- <-].
Qed.

(** [__install] in a global session. *)
Lemma install_mock_run w0 c source target mock o c' :
  routing_ok w0 → session_ok w0 c → usable w0 c source → 0 ≤ target ≤ usize_max →
  install_mock source target mock c = (o, c') → o ≠ Abort → session_ok w0 c'.
Proof.
  intros Hw0 Hok Hu Ht. unfold install_mock. unfold mbind at 1, M_bind at 1, gets at 1.
  unfold is_local at 1. rewrite bool_decide_false by (by rewrite (ses_lock _ _ Hok)).
  unfold mbind at 1, M_bind at 1, attempt.
  destruct (install_raw source target c) as [o1 c1] eqn:H1.
  pose proof (install_raw_run _ _ _ _ _ _ Hw0 Hok Hu Ht H1) as Hr.
  destruct o1 as [[]|e|msg|]; try done; [..|by intros [= <- <-]].
  - unfold mbind, M_bind, gets, modify. intros [= <- <-] _. destruct Hr as [Hok1 _].
    by eapply session_ok_frame.
  - pose proof (only_memory_ok _ _ _ Hw0 Hok Hr) as Hok1.
    unfold mbind, M_bind. destruct (mock_drop mock c1) as [o2 c2] eqn:H2.
    destruct (mock_drop_frame _ _ _ _ H2) as [Hp Hs]. intros Hrun _.
    assert (c' = c2) as -> by (destruct o2; by injection Hrun).
    apply (session_ok_frame w0 c1); rewrite ?Hp, ?Hs; done.
Qed.

(** The life of a global session: replacements and mocks are installed,
    restoring is tried, and the program runs, which may change the mocks and
    map new memory. *)
Inductive session_step w0 : scope P R X → scope P R X → Prop :=
| step_replace c source target o c' :
    usable w0 c source → 0 ≤ target ≤ usize_max →
    install_raw source target c = (o, c') → o ≠ Abort → session_step w0 c c'
| step_mock c source target mock o c' :
    usable w0 c source → 0 ≤ target ≤ usize_max →
    install_mock source target mock c = (o, c') → o ≠ Abort → session_step w0 c c'
| step_restore c o c' :
    restore_patches c = (o, c') → o ≠ Abort → session_step w0 c c'
| step_program c s wd x :
    keeps_on (os w0) (os (proc c)) s →
    session_step w0 c (mkScope (self c) (thread c) (set_os s (proc c)) wd x).

(** A global session as [open] makes it. *)
Definition session_start th w0 wd x : scope P R X :=
  mkScope (Session.opened Global) th w0 wd x.

Lemma session_ok_start th w0 wd x : routing_ok w0 → session_ok w0 (session_start th w0 wd x).
Proof.
  intros Hw0. split; simpl; try done; [apply same_entries_refl|apply undo_start|].
  by intros p i r e b ?%not_elem_of_nil.
Qed.

Lemma session_ok_step w0 c c' :
  routing_ok w0 → globals_free w0 → session_ok w0 c → session_step w0 c c' → session_ok w0 c'.
Proof.
  intros Hw0 Hfree Hok Hst. destruct Hst as [c source target o c' Hu Ht Hrun Hna|
    c source target mock o c' Hu Ht Hrun Hna|c o c' Hrun Hna|c s wd x Hk].
  - pose proof (install_raw_run _ _ _ _ _ _ Hw0 Hok Hu Ht Hrun) as Hr.
    destruct o as [[]|e| |]; try done; [by destruct Hr|by eapply only_memory_ok].
  - by eapply install_mock_run.
  - pose proof (restore_patches_run _ _ _ _ Hw0 Hfree Hok Hrun) as Hr.
    destruct o as [[]|e| |]; try done; by destruct Hr.
  - eapply session_ok_frame; [by eapply (session_ok_os w0 c s)|done..].
Qed.

Lemma session_ok_steps w0 c c' :
  routing_ok w0 → globals_free w0 → session_ok w0 c → rtc (session_step w0) c c' →
  session_ok w0 c'.
Proof. intros Hw0 Hfree Hok Hs. induction Hs; eauto using session_ok_step. Qed.

Lemma restored w0 c :
  session_ok w0 c → Session.patches (self c) = [] → Session.global_routes (self c) = [] →
  proc c = set_os (os (proc c)) w0 ∧ keeps (os w0) (os (proc c)).
Proof.
  intros [] Hp Hg. rewrite Hp in *. rewrite Hg in *.
  split; [by apply same_entries_nil|by apply undo_done].
Qed.

Lemma install_raw_reached w0 th wd x c source target o c' :
  routing_ok w0 → globals_free w0 → rtc (session_step w0) (session_start th w0 wd x) c →
  usable w0 c source → 0 ≤ target ≤ usize_max →
  install_raw source target c = (o, c') →
  match o with
  | Ok _ => raw_installed c c' source target ∧ world c' = world c
  | Err _ => only_memory c c'
  | Panic _ => False
  | Abort => True
  end.
Proof.
  intros Hw0 Hfree Hs Hu Ht Hrun.
  pose proof (session_ok_steps _ _ _ Hw0 Hfree (session_ok_start th w0 wd x Hw0) Hs) as Hok.
  pose proof (install_raw_run _ _ _ _ _ _ Hw0 Hok Hu Ht Hrun) as Hr.
  destruct o as [[]|e| |]; try done. by destruct Hr.
Qed.

(** C11. [install_raw] at any time in a global session.  [Ok]: the function goes
    to the target, through the route of the entry it has or through a jump
    written at its start (by way of the relay page where there is one).
    [Err]: every byte that was mapped, every route and the session are as
    before.  It never panics. *)
Theorem install_raw_correct w0 th wd x c source target o c' :
  routing_ok w0 → globals_free w0 → rtc (session_step w0) (session_start th w0 wd x) c →
  usable w0 c source → 0 ≤ target ≤ usize_max →
  install_raw source target c = (o, c') →
  match o with
  | Ok _ => raw_installed c c' source target ∧ world c' = world c
  | Err _ => only_memory c c'
  | Panic _ => False
  | Abort => True
  end.
Proof. apply install_raw_reached. Qed.

Lemma restore_reached w0 th wd x c o c' :
  routing_ok w0 → globals_free w0 → rtc (session_step w0) (session_start th w0 wd x) c →
  restore_patches c = (o, c') →
  match o with
  | Ok _ => Session.patches (self c') = [] ∧ Session.global_routes (self c') = [] ∧
      Session.local_patches (self c') = [] ∧ same_mocks c c' ∧
      ∃ s, proc c' = set_os s w0 ∧ keeps (os w0) s
  | Err _ => Session.patches (self c') ≠ [] ∧
      Session.patches (self c') `prefix_of` Session.patches (self c) ∧ same_mocks c c' ∧
      undo (os w0) (Session.patches (self c')) (os (proc c'))
  | Panic _ => False
  | Abort => True
  end.
Proof.
  intros Hw0 Hfree Hs Hrun.
  pose proof (session_ok_steps _ _ _ Hw0 Hfree (session_ok_start th w0 wd x Hw0) Hs) as Hok.
  pose proof (restore_patches_run _ _ _ _ Hw0 Hfree Hok Hrun) as Hr.
  destruct o as [[]|e| |]; try done; destruct Hr as (Hok' & Hsame & Hp & Hg).
  - destruct (restored _ _ Hok' Hp Hg) as [He Hk]. split_and!; try done.
    + apply (ses_locals _ _ Hok').
    + by exists (os (proc c')).
  - split_and!; try done. apply (ses_undo _ _ Hok').
Qed.

(** C1. Whatever a global session installed and however its calls went, restoring
    gives the process back as it was when the session was opened: all routing
    state equal, every byte mapped then the same.  When a patch cannot be
    undone, it and the ones before it stay in the session, with the memory
    still the start plus exactly those patches, so a later call retries. *)
Theorem global_session_restores w0 th wd x c o c' :
  routing_ok w0 → globals_free w0 → rtc (session_step w0) (session_start th w0 wd x) c →
  restore_patches c = (o, c') →
  match o with
  | Ok _ => Session.patches (self c') = [] ∧ Session.global_routes (self c') = [] ∧
      Session.local_patches (self c') = [] ∧ same_mocks c c' ∧
      ∃ s, proc c' = set_os s w0 ∧ keeps (os w0) s
  | Err _ => Session.patches (self c') ≠ [] ∧
      Session.patches (self c') `prefix_of` Session.patches (self c) ∧ same_mocks c c' ∧
      undo (os w0) (Session.patches (self c')) (os (proc c'))
  | Panic _ => False
  | Abort => True
  end.
Proof. apply restore_reached. Qed.
End global_session.

(** ** Dropping the mocks *)

Section drop_session.
Context {P R X : Type} `{!Platform P, !View P, !PlatformLaws P, !Pages P, !PagesLaws P,
                         !Code, !CodeLaws, !Rule R}.
Implicit Types (c : scope P R X) (w : process P) (mock : OwnedMock.t X).

(** A mock after [deactivate]: it refuses calls, and its rules are gone. *)
Definition deactivated (s : State.t R) : State.t R :=
  State.set_rules [] (State.set_active false s).

(** The mocks of the world after the ones in [l] were dropped. *)
Definition all_deactivated (l : list (OwnedMock.t X)) (wd wd' : World R) : Prop :=
  metas wd' = metas wd ∧ sequences wd' = sequences wd ∧
  ∀ k, mocks wd' !! k =
    if bool_decide (k ∈ OwnedMock.control <$> l) then deactivated <$> mocks wd !! k
    else mocks wd !! k.

Definition mocks_live (l : list (OwnedMock.t X)) (wd : World R) : Prop :=
  ∀ mock, mock ∈ l → is_Some (mocks wd !! OwnedMock.control mock).

(** Checking only reads the world. *)
Lemma check_mocks_run l c :
  world_ok (world c) → mocks_live l (world c) →
  ∃ o, returns o ∧ (∀ c', world c' = world c → check_mocks l c' = (o, c')) ∧
    (o = Ok tt ↔ ∀ mock, mock ∈ l →
       (state_verify (OwnedMock.control mock) (world c)).1 = Ok tt).
Proof.
  intros Hw. induction l as [|mock l IH]; intros Hlive.
  { exists (Ok tt). split_and!; [done..|]. split; [|done]. by intros _ mock ?%not_elem_of_nil. }
  destruct IH as (o & Hret & Hrun & Hiff); [intros m Hm; apply Hlive; by right|].
  destruct (Hlive mock ltac:(by left)) as [s Hs].
  assert (∃ r, returns r ∧ state_verify (OwnedMock.control mock) (world c) = (r, world c))
    as (r & Hr & Hv).
  { destruct (verify_rules_run _ _ _ Hw Hs) as (He & _ & Hr). exists (verify_inner s (world c)).1.
    split; [done|]. unfold state_verify. by rewrite (deref_bind _ _ _ _ _ Hs). }
  assert (∀ c', world c' = world c → in_world (state_verify (OwnedMock.control mock)) c' = (r, c'))
    as Hin. { intros [? ? ? wd ?] Hwd. simpl in Hwd. subst wd. unfold in_world. simpl. by rewrite Hv. }
  destruct r as [[]|e| |]; try done.
  - exists o. split_and!; [done|..].
    + intros c' Hc'. cbn [check_mocks]. unfold mbind, M_bind. rewrite Hin by done. by apply Hrun.
    + rewrite Hiff. split; intros Hall m Hm; [|apply Hall; by right].
      apply elem_of_cons in Hm as [->|Hm]; [by rewrite Hv|by apply Hall].
  - exists (Err e). split_and!; [done|..].
    + intros c' Hc'. cbn [check_mocks]. unfold mbind, M_bind. by rewrite Hin.
    + split; [done|]. intros Hall. specialize (Hall mock ltac:(by left)). by rewrite Hv in Hall.
Qed.

Lemma deactivated_idem s : deactivated (deactivated s) = deactivated s.
Proof. by destruct s. Qed.

Lemma drop_mocks_run l c :
  mocks_live l (world c) →
  ∃ wd, drop_mocks l c = (Ok tt, mkScope (self c) (thread c) (proc c) wd
      (foldl (λ x mock, OwnedMock.detach mock x) (slots c) l)) ∧
    all_deactivated l (world c) wd.
Proof.
  revert c. induction l as [|mock l IH]; intros c Hlive.
  { exists (world c). split; [by destruct c|]. done. }
  destruct (Hlive mock ltac:(by left)) as [s Hs].
  set (wd1 := at_mocks (<[OwnedMock.control mock := deactivated s]>) (world c)).
  set (c1 := mkScope (self c) (thread c) (proc c) wd1 (OwnedMock.detach mock (slots c))).
  destruct (IH c1) as (wd & Hrun & Hm & Hq & Hd).
  { intros m Hm. simpl. destruct (decide (OwnedMock.control m = OwnedMock.control mock)) as [->|Hne].
    - rewrite list_lookup_insert_eq by (by eapply lookup_lt_Some). eauto.
    - rewrite list_lookup_insert_ne by done. apply Hlive. by right. }
  exists wd. split.
  - cbn [drop_mocks]. unfold mbind at 1, M_bind at 1.
    assert (mock_drop mock c = (Ok tt, c1)) as ->; [|exact Hrun].
    unfold mock_drop, in_world, mbind at 1, M_bind at 1, modify. simpl.
    unfold deactivate. by rewrite (deref_bind _ _ _ _ _ Hs).
  - split_and!; [by rewrite Hm|by rewrite Hq|]. intros k. rewrite Hd. simpl.
    destruct (decide (k = OwnedMock.control mock)) as [->|Hne].
    + rewrite list_lookup_insert_eq by (by eapply lookup_lt_Some). rewrite Hs. simpl.
      rewrite deactivated_idem.
      assert (OwnedMock.control mock ∈ OwnedMock.control mock :: (OwnedMock.control <$> l)) as Hin
        by (by left). rewrite (bool_decide_true _ Hin). by case_bool_decide.
    + rewrite list_lookup_insert_ne by done.
      assert (k ∈ OwnedMock.control mock :: (OwnedMock.control <$> l) ↔
        k ∈ OwnedMock.control <$> l) as Hiff by (rewrite elem_of_cons; naive_solver).
      by rewrite (bool_decide_ext _ _ Hiff).
Qed.

(** The common end of [restore] and [Drop]. *)
Lemma close_run {A} (k : result unit → M Error (scope P R X) A) c :
  world_ok (world c) → mocks_live (Session.mocks (self c)) (world c) →
  ∃ r wd, returns r ∧
    (r = Ok tt ↔ ∀ mock, mock ∈ Session.mocks (self c) →
       (state_verify (OwnedMock.control mock) (world c)).1 = Ok tt) ∧
    (r ← attempt check_expectations; detach;; k r) c =
      k r (mkScope (self (set_mocks [] c)) (thread c) (proc c) wd
        (foldl (λ x mock, OwnedMock.detach mock x) (slots c) (Session.mocks (self c)))) ∧
    all_deactivated (Session.mocks (self c)) (world c) wd.
Proof.
  intros Hw Hlive. destruct (check_mocks_run _ _ Hw Hlive) as (r & Hret & Hrun & Hiff).
  destruct (drop_mocks_run (Session.mocks (self c)) (set_mocks [] c) Hlive) as (wd & Hd & Hall).
  exists r, wd. split_and!; [done|done| |apply Hall..].
  unfold mbind at 1, M_bind at 1, attempt, check_expectations.
  unfold mbind at 1, M_bind at 1, gets at 1. rewrite (Hrun c eq_refl).
  unfold mbind at 1, M_bind at 1, detach. unfold mbind at 1, M_bind at 1, gets at 1.
  unfold mbind at 1, M_bind at 1, modify at 1. by rewrite Hd.
Qed.

(** C9. Dropping a global session, at any time and also while panicking: the
    process ends, or everything is given back, every mock is detached and
    refuses further calls, and a missed expectation panics unless the thread
    is panicking already. *)
Theorem session_drop_correct w0 th wd x c panicking o c' :
  routing_ok w0 → globals_free w0 → rtc (session_step w0) (session_start th w0 wd x) c →
  world_ok (world c) → mocks_live (Session.mocks (self c)) (world c) →
  session_drop panicking c = (o, c') →
  o = Abort ∨
  (∃ s, proc c' = set_os s w0 ∧ keeps (os w0) s) ∧
  self c' = Session.opened Global ∧
  all_deactivated (Session.mocks (self c)) (world c) (world c') ∧
  slots c' = foldl (λ x mock, OwnedMock.detach mock x) (slots c) (Session.mocks (self c)) ∧
  (o = Ok tt ∨ panicking = false ∧ ∃ e, o = Panic (display e)) ∧
  (panicking = false → o = Ok tt ↔ ∀ mock, mock ∈ Session.mocks (self c) →
     (state_verify (OwnedMock.control mock) (world c)).1 = Ok tt).
Proof.
  intros Hw0 Hfree Hs Hw Hlive.
  pose proof (session_ok_steps _ _ _ Hw0 Hfree (session_ok_start th w0 wd x Hw0) Hs) as Hok.
  unfold session_drop. unfold mbind at 1, M_bind at 1, finish, or_fatal, attempt at 1.
  unfold mbind at 1, M_bind at 1.
  destruct (restore_patches c) as [o1 c1] eqn:H1.
  pose proof (restore_patches_run _ _ _ _ Hw0 Hfree Hok H1) as Hr.
  destruct o1 as [[]|e| |]; try done; [|intros [= <- <-]; by left..].
  destruct Hr as (Hok1 & (Hth & Hwd & Hsl & Hms & Hlk) & Hp & Hg).
  destruct (close_run (λ r, match r with
      | Err e => if panicking then mret tt else panic (display e) | r => lift r end) c1)
    as (r & wd' & Hret & Hiff & Hrun & Hall); [by rewrite Hwd|by rewrite Hwd, Hms|].
  rewrite Hwd, Hms in Hiff. rewrite Hwd, Hms in Hall.
  cbn [mret M_ret]. rewrite Hrun. clear Hrun. rewrite Hms, Hsl. intros Hend. right.
  assert (self (set_mocks [] c1) = Session.opened Global) as Hself.
  { simpl. by rewrite Hp, Hg, (ses_lock _ _ Hok1), (ses_locals _ _ Hok1). }
  destruct (restored _ _ Hok1 Hp Hg) as [He Hk].
  assert (∃ s, proc c1 = set_os s w0 ∧ keeps (os w0) s) as Hback by eauto.
  destruct r as [[]|e| |]; try done; [|destruct panicking]; injection Hend as <- <-;
    split_and!; try done; try by left.
  - right. split; [done|]. by exists e.
  - intros _. split; [done|]. intros Hv. by apply Hiff in Hv.
Qed.
End drop_session.

(** ** Local sessions *)

Section local_session.
Context {P R X : Type} `{!Platform P, !View P, !PlatformLaws P, !Pages P, !PagesLaws P,
                         !Code, !CodeLaws, !Rule R}.
Implicit Types (c : scope P R X) (w : process P).

(** Code that asks [route] where to go: the dispatchers the macros generate. *)
Context (dispatches : Z → Prop).

(** Every function with an entry jumps to such code. *)
Definition entries_dispatch w : Prop :=
  ∀ i r e, recorded w i r e → dispatches (Entry.dispatcher e).

(** What a thread notices of a step of another one: nothing.  Its routes and
    the entries are the same; the dispatcher of a function leads it where it
    led before; the functions that got an entry in the step jump to a
    dispatcher that leads it to the saved original; all other code it may run
    is unchanged. *)
Record calls_kept (th : nat) w w' : Prop := {
  kept_locals source : local_target w' th source = local_target w th source;
  kept_entries i r e : recorded w i r e → ∃ r', recorded w' i r' e;
  kept_routes i r e o w1 : recorded w' i r e →
    route th (Entry.dispatcher e) w' = (o, w1) → routed w th e o;
  kept_new i r e : recorded w' i r e → (∃ j r', recorded w j r' e) ∨
    (Entry.global e = 0 ∧ local_target w th (Patch.entry (Entry.patch e)) = None);
  kept_bytes b : is_Some (prot_at (os w) b) →
    (∀ i r e, recorded w' i r e → in_patch (Entry.patch e) b → ∃ j r', recorded w j r' e) →
    byte_at (os w') b = byte_at (os w) b }.

Lemma calls_kept_same th w w' :
  routing_ok w' → is_Some (local_routes th w') →
  (∀ source, local_target w' th source = local_target w th source) →
  (∀ i r e, recorded w' i r e ↔ recorded w i r e) → keeps (os w) (os w') → calls_kept th w w'.
Proof.
  intros Hw' Hl Hlt Hrec Hk. split; [done|intros i r e Hr; exists r; by apply Hrec| | |].
  - intros i r e o w1 Hr Hrun. destruct (route_run w' th _ o w1 Hw' Hl Hrun) as (_ & _ & _ & Hroute).
    specialize (Hroute i r e Hr eq_refl). unfold routed in *. by rewrite <-Hlt.
  - intros i r e Hr%Hrec. left. eauto.
  - intros b Hb _. by apply Hk.
Qed.

(** A function without an entry has no route. *)
Lemma no_entry_no_route w th source :
  routing_ok w → (∀ i r e, recorded w i r e → Patch.entry (Entry.patch e) ≠ source) →
  local_target w th source = None.
Proof.
  intros Hw Hno. unfold local_target, local_routes.
  destruct (LOCAL w !! th) as [[l|]|] eqn:Hth; simpl; [|done..].
  destruct (find _ l) as [x|] eqn:Hf; [exfalso|done].
  apply find_some in Hf as [Hx%list_elem_of_In Hs%Z.eqb_eq].
  destruct (ok_locals w Hw _ _ Hth) as [_ Hloc].
  destruct (Hloc x Hx) as (_ & i & r & e & Hr & He & _). apply (Hno i r e Hr). congruence.
Qed.

Lemma not_installed_recorded w w' i r e :
  routing_ok w → not_installed w w' → recorded w' i r e ↔ recorded w i r e.
Proof.
  intros Hw (_ & es & ->). unfold recorded. simpl. split; intros [Hi He]; (split; [done|]).
  - destruct (ok_records w Hw _ _ Hi) as [e' He']. rewrite (lookup_app_l_Some _ _ _ _ He') in He.
    congruence.
  - by apply lookup_app_l_Some.
Qed.

Lemma calls_kept_installed w w' th source dispatcher target e th' :
  routing_ok w → routing_ok w' → installed w w' th source dispatcher target e →
  th' ≠ th → is_Some (local_routes th' w) → calls_kept th' w w'.
Proof.
  intros Hw Hw' Hinst Hne Hl.
  assert (∀ source', local_target w' th' source' = local_target w th' source') as Hlt.
  { intros source'. rewrite (installed_locals _ _ _ _ _ _ _ Hinst).
    by rewrite decide_False by naive_solver. }
  pose proof (installed_source _ _ _ _ _ _ _ Hinst) as Hs.
  assert (∀ i r e', recorded w' i r e' → e' = e ∨ ∃ r', recorded w i r' e') as Hold.
  { intros i r e' Hr. destruct (installed_entry _ _ _ _ _ _ _ Hinst) as (k & rk & Hk & _).
    destruct (decide (Patch.entry (Entry.patch e') = Patch.entry (Entry.patch e))) as [He|He].
    - left. by destruct (recorded_unique w' _ _ _ _ _ _ Hw' Hr Hk (or_intror He)) as (_ & _ & ->).
    - right. eapply (installed_only _ _ _ _ _ _ _ Hinst); [done|congruence]. }
  split; [done|apply Hinst| | |].
  - intros i r e' o w1 Hr Hrun.
    destruct (route_run w' th' _ o w1 Hw' (installed_access _ _ _ _ _ _ _ Hinst th' Hl) Hrun)
      as (_ & _ & _ & Hroute).
    specialize (Hroute i r e' Hr eq_refl). unfold routed in *. by rewrite <-Hlt.
  - intros i r e' Hr. destruct (Hold i r e' Hr) as [->|[r' Hr']]; [|by eauto].
    destruct (installed_new _ _ _ _ _ _ _ Hinst) as [(j & r' & Hr')|(Hno & _ & Hg)]; [by eauto|].
    right. split; [done|]. rewrite Hs. by apply no_entry_no_route.
  - intros b Hb Hpatch. destruct (installed_new _ _ _ _ _ _ _ Hinst) as [Hr|(Hno & _)].
    { by apply (installed_patched _ _ _ _ _ _ _ Hinst Hr). }
    apply (installed_bytes _ _ _ _ _ _ _ Hinst); [done|]. intros Hin.
    destruct (installed_entry _ _ _ _ _ _ _ Hinst) as (k & rk & Hk & _).
    destruct (Hpatch k rk e Hk Hin) as (j & r' & Hr'). by apply (Hno j r' e Hr').
Qed.

Lemma local_install_effect w th source dispatcher target o w' :
  routing_ok w → is_Some (local_routes th w) → outside_pages w source →
  install_replacement th source dispatcher target w = (o, w') → o ≠ Abort →
  returns o ∧ routing_ok w' ∧
  (∀ th', is_Some (local_routes th' w) → is_Some (local_routes th' w')) ∧
  (∀ th' source', local_target w' th' source' =
    if decide (o = Ok tt ∧ th' = th ∧ source' = source) then Some target
    else local_target w th' source') ∧
  (dispatches dispatcher → entries_dispatch w → entries_dispatch w') ∧
  ∀ th', th' ≠ th → is_Some (local_routes th' w) → calls_kept th' w w'.
Proof.
  intros Hw Hl Hout Hrun Hna. pose proof (install_replacement_run _ _ _ _ _ _ _ Hw Hl Hout Hrun) as Hi.
  destruct o as [[]|e| |]; try done.
  - destruct Hi as (Hw' & e & Hinst). split_and!; [done..|apply Hinst| | |].
    + intros th' source'. rewrite (installed_locals _ _ _ _ _ _ _ Hinst).
      apply decide_ext. naive_solver.
    + intros Hd Hall i r e' Hr. destruct (decide (Entry.dispatcher e' = Entry.dispatcher e)) as [->|Hne].
      * destruct (installed_new _ _ _ _ _ _ _ Hinst) as [(j & r' & Hr')|(_ & -> & _)]; [by eapply Hall|done].
      * destruct (installed_only _ _ _ _ _ _ _ Hinst i r e' Hr) as [r' Hr']; [congruence|by eapply Hall].
    + intros th' Hne Hl'. by eapply calls_kept_installed.
  - destruct Hi as (Hw' & Hni). pose proof Hni as (Hk & es & Heq).
    assert (LOCAL w' = LOCAL w) as Hlo by (by rewrite Heq).
    assert (∀ th' source', local_target w' th' source' = local_target w th' source') as Hlt
      by (intros; unfold local_target, local_routes; by rewrite Hlo).
    split_and!; [done|done|intros th'; unfold local_routes; by rewrite Hlo| | |].
    + intros th' source'. by rewrite decide_False by naive_solver.
    + intros _ Hall i r e' Hr. eapply Hall. by apply (not_installed_recorded w w').
    + intros th' _ Hl'. apply calls_kept_same; [done| |done| |done].
      * unfold local_routes. by rewrite Hlo.
      * intros i r e'. by apply not_installed_recorded.
Qed.

(** The steps of the session itself, on its own thread. *)
Inductive own_step : scope P R X → scope P R X → Prop :=
| own_replace c source dispatcher target o c' :
    outside_pages (proc c) source → dispatches dispatcher →
    replace_local source dispatcher target c = (o, c') → o ≠ Abort → own_step c c'
| own_mock c source target mock o c' :
    outside_pages (proc c) source → dispatches target →
    install_mock source target mock c = (o, c') → o ≠ Abort → own_step c c'
| own_restore c o c' : restore_patches c = (o, c') → own_step c c'
| own_program c wd x : own_step c (mkScope (self c) (thread c) (proc c) wd x).

(** What happens meanwhile: other threads install and remove local routes,
    and the program runs. *)
Inductive other_step : scope P R X → scope P R X → Prop :=
| other_install c th source dispatcher target o w' :
    th ≠ thread c → is_Some (local_routes th (proc c)) → outside_pages (proc c) source →
    dispatches dispatcher →
    install_replacement th source dispatcher target (proc c) = (o, w') → o ≠ Abort →
    other_step c (set_proc w' c)
| other_remove c th source o w' :
    th ≠ thread c → is_Some (local_routes th (proc c)) →
    remove th source (proc c) = (o, w') → other_step c (set_proc w' c)
| other_program c s :
    keeps (os (proc c)) s → other_step c (set_proc (set_os s (proc c)) c).

Definition local_start th w wd x : scope P R X :=
  mkScope (Session.opened Local) th w wd x.

(** Every route of the thread was installed by the session. *)
Record local_ok (th : nat) c : Prop := {
  loc_lock : Session.lock (self c) = Local;
  loc_thread : thread c = th;
  loc_patches : Session.patches (self c) = [];
  loc_globals : Session.global_routes (self c) = [];
  loc_routing : routing_ok (proc c);
  loc_dispatch : entries_dispatch (proc c);
  loc_access : is_Some (local_routes th (proc c));
  loc_routes source : is_Some (local_target (proc c) th source) →
    source ∈ Session.local_patches (self c) }.

(** What the other threads notice. *)
Definition others_kept (th : nat) w w' : Prop :=
  (∀ th' source, th' ≠ th → local_target w' th' source = local_target w th' source) ∧
  ∀ th', th' ≠ th → is_Some (local_routes th' w) → calls_kept th' w w'.

(** One installation on the thread of the session. *)
Lemma local_ok_install th c source dispatcher target o w' :
  local_ok th c → outside_pages (proc c) source → dispatches dispatcher →
  install_replacement th source dispatcher target (proc c) = (o, w') → o ≠ Abort →
  returns o ∧
  local_ok th (match o with
    | Ok _ => set_local_patches (Session.local_patches (self c) ++ [source]) (set_proc w' c)
    | _ => set_proc w' c end) ∧ others_kept th (proc c) w'.
Proof.
  intros [] Hout Hdis Hrun Hna.
  destruct (local_install_effect _ _ _ _ _ _ _ loc_routing0 loc_access0 Hout Hrun Hna)
    as (Hret & Hw' & Hacc & Hlt & Hall & Hkept). split_and!; [done|..].
  - specialize (Hall Hdis loc_dispatch0).
    destruct o as [[]|e| |]; try done; split; simpl; try done; try (by apply Hacc);
      intros source'; rewrite Hlt; destruct (decide (_ ∧ _ ∧ _)) as [Hd|Hd]; try by destruct Hd as [? _].
    + intros _. destruct Hd as (_ & _ & ->). apply elem_of_app. right. by left.
    + intros Hs. apply elem_of_app. left. auto.
    + auto.
  - split; [|done]. intros th' source' Hne. rewrite Hlt. by rewrite decide_False by naive_solver.
Qed.

Lemma restore_locals_run th l c :
  local_ok th c → Session.local_patches (self c) = reverse l →
  ∃ c', restore_locals l c = (Ok tt, c') ∧ local_ok th c' ∧ same_mocks c c' ∧
    Session.local_patches (self c') = [] ∧ os (proc c') = os (proc c) ∧
    ENTRIES (proc c') = ENTRIES (proc c) ∧ leaked (proc c') = leaked (proc c) ∧
    (∀ th', th' ≠ th → is_Some (local_routes th' (proc c)) → is_Some (local_routes th' (proc c'))) ∧
    ∀ th' source, th' ≠ th → local_target (proc c') th' source = local_target (proc c) th' source.
Proof.
  revert c. induction l as [|source l IH]; intros c Hok Hl.
  { exists c. by split_and!. }
  rewrite reverse_cons in Hl. cbn [restore_locals]. unfold mbind at 1, M_bind at 1, gets at 1.
  rewrite (loc_thread _ _ Hok).
  destruct (remove_run _ th source (loc_routing _ _ Hok) (loc_access _ _ Hok))
    as (rs & Hrm & Hw' & Hlt).
  unfold mbind at 1, M_bind at 1. rewrite (in_proc_run _ _ _ _ Hrm).
  unfold mbind at 1, M_bind at 1, modify at 1.
  set (c1 := set_local_patches (reverse l) (set_proc (set_local th rs (proc c)) c)).
  assert (local_ok th c1) as Hok1.
  { destruct Hok. split; simpl; try done.
    - unfold local_routes. simpl. rewrite lookup_insert_eq. eauto.
    - intros source'. rewrite Hlt. destruct (decide (_ ∧ _)) as [Hd|Hd]; [by intros []|].
      intros Hs%loc_routes0.
      rewrite Hl in Hs. apply elem_of_app in Hs as [Hs|Hs%list_elem_of_singleton]; [done|].
      by destruct Hd. }
  destruct (IH c1 Hok1 eq_refl) as (c' & Hrun & Hok' & Hsame & Hlp & Hos & Hen & Hle & Hacc & Hoth).
  exists c'. split; [exact Hrun|]. split; [done|]. split; [by etrans; [|exact Hsame]|].
  split; [done|]. rewrite Hos, Hen, Hle. split_and!; [done..| |].
  { intros th' Hne Hth. apply Hacc; [done|]. unfold local_routes. simpl. by rewrite lookup_insert_ne. }
  intros th' source' Hne. rewrite Hoth by done. simpl. rewrite Hlt.
  by rewrite decide_False by naive_solver.
Qed.

Lemma restore_patches_local th c :
  local_ok th c →
  ∃ c', restore_patches c = (Ok tt, c') ∧ local_ok th c' ∧ same_mocks c c' ∧
    Session.local_patches (self c') = [] ∧ os (proc c') = os (proc c) ∧
    ENTRIES (proc c') = ENTRIES (proc c) ∧ leaked (proc c') = leaked (proc c) ∧
    (∀ th', th' ≠ th → is_Some (local_routes th' (proc c)) → is_Some (local_routes th' (proc c'))) ∧
    ∀ th' source, th' ≠ th → local_target (proc c') th' source = local_target (proc c) th' source.
Proof.
  intros Hok. destruct (restore_locals_run th (reverse (Session.local_patches (self c))) c Hok)
    as (c' & Hrun & Hok' & Hrest); [by rewrite reverse_involutive|].
  exists c'. split; [|by split].
  unfold restore_patches. unfold mbind at 1, M_bind at 1, gets at 1.
  unfold mbind at 1, M_bind at 1. rewrite Hrun. unfold mbind at 1, M_bind at 1, gets at 1.
  rewrite (loc_globals _ _ Hok'). unfold mbind at 1, M_bind at 1. simpl.
  unfold mbind at 1, M_bind at 1, gets at 1. by rewrite (loc_patches _ _ Hok').
Qed.

Lemma local_ok_frame th c c' :
  local_ok th c → proc c' = proc c → thread c' = thread c →
  Session.lock (self c') = Session.lock (self c) →
  Session.local_patches (self c') = Session.local_patches (self c) →
  Session.global_routes (self c') = Session.global_routes (self c) →
  Session.patches (self c') = Session.patches (self c) → local_ok th c'.
Proof.
  intros [] Hp Ht Hl Hlp Hg Hps. split; rewrite ?Hp, ?Ht, ?Hl, ?Hlp, ?Hg, ?Hps; done.
Qed.

Lemma mock_drop_thread mock c o c' : mock_drop mock c = (o, c') → thread c' = thread c.
Proof.
  unfold mock_drop, in_world, mbind, M_bind, modify. simpl.
  by destruct (deactivate (OwnedMock.control mock) (world c)) as [o1 w1]; intros [= <- <-].
Qed.

Lemma others_kept_same th w w' :
  routing_ok w' → os w' = os w → ENTRIES w' = ENTRIES w → leaked w' = leaked w →
  (∀ th', th' ≠ th → is_Some (local_routes th' w) → is_Some (local_routes th' w')) →
  (∀ th' source, th' ≠ th → local_target w' th' source = local_target w th' source) →
  others_kept th w w'.
Proof.
  intros Hw' Hos He Hl Hacc Hlt. split; [done|]. intros th' Hne Hth.
  apply calls_kept_same; auto.
  - intros i r e. unfold recorded. by rewrite He, Hl.
  - by rewrite Hos.
Qed.

(** The session keeps its invariant, and leaves other threads alone. *)
Lemma own_step_ok th c c' :
  local_ok th c → own_step c c' → local_ok th c' ∧ others_kept th (proc c) (proc c').
Proof.
  intros Hok Hst. destruct Hst as [c source dispatcher target o c' Hout Hdis Hrun Hna|
    c source target mock o c' Hout Hdis Hrun Hna|c o c' Hrun|c wd x].
  - unfold replace_local, mbind, M_bind, gets, modify in Hrun. rewrite (loc_thread _ _ Hok) in Hrun.
    destruct (install_replacement th source dispatcher target (proc c)) as [o1 w1] eqn:H1.
    rewrite (in_proc_run _ _ _ _ H1) in Hrun.
    assert (o1 ≠ Abort) as Hna1 by (intros ->; injection Hrun as <- _; done).
    destruct (local_ok_install _ _ _ _ _ _ _ Hok Hout Hdis H1 Hna1) as (Hret & Hok1 & Hoth).
    destruct o1 as [[]|e| |]; try done; injection Hrun as <- <-; done.
  - unfold install_mock in Hrun. unfold mbind at 1, M_bind at 1, gets at 1, is_local at 1 in Hrun.
    rewrite bool_decide_true in Hrun by apply (loc_lock _ _ Hok).
    unfold mbind at 1, M_bind at 1, attempt in Hrun.
    unfold mbind at 1, M_bind at 1, gets at 1 in Hrun. rewrite (loc_thread _ _ Hok) in Hrun.
    unfold mbind at 1, M_bind at 1 in Hrun. unfold Routing.install in Hrun.
    destruct (install_replacement th source target target (proc c)) as [o1 w1] eqn:H1.
    rewrite (in_proc_run _ _ _ _ H1) in Hrun.
    assert (o1 ≠ Abort) as Hna1 by (intros ->; injection Hrun as <- _; done).
    destruct (local_ok_install _ _ _ _ _ _ _ Hok Hout Hdis H1 Hna1) as (Hret & Hok1 & Hoth).
    destruct o1 as [[]|e| |]; try done.
    + injection Hrun as <- <-. split; [|done]. by eapply local_ok_frame.
    + unfold mbind, M_bind in Hrun.
      destruct (mock_drop mock (set_proc w1 c)) as [o2 c2] eqn:H2.
      destruct (mock_drop_frame _ _ _ _ H2) as [Hp Hs]. pose proof (mock_drop_thread _ _ _ _ H2) as Ht.
      assert (c' = c2) as -> by (destruct o2; by injection Hrun).
      split; [|by rewrite Hp]. apply (local_ok_frame th (set_proc w1 c)); rewrite ?Hp, ?Hs; done.
  - destruct (restore_patches_local _ _ Hok) as (c1 & Hr & Hok1 & _ & _ & Hos & Hen & Hle & Hacc & Hoth).
    rewrite Hr in Hrun. injection Hrun as <- <-. split; [done|].
    apply others_kept_same; try done. by apply (loc_routing _ _ Hok1).
  - split; [by eapply local_ok_frame|]. apply others_kept_same; try done. by apply (loc_routing _ _ Hok).
Qed.

(** Other threads leave this one alone. *)
Lemma other_step_ok th c c' :
  local_ok th c → other_step c c' →
  local_ok th c' ∧ calls_kept th (proc c) (proc c').
Proof.
  intros [] Hst. destruct Hst as [c th' source dispatcher target o w' Hne Hl Hout Hdis Hrun Hna|
    c th' source o w' Hne Hl Hrun|c s Hk].
  - destruct (local_install_effect _ _ _ _ _ _ _ loc_routing0 Hl Hout Hrun Hna)
      as (Hret & Hw' & Hacc & Hlt & Hall & Hkept).
    assert (∀ source', local_target w' th source' = local_target (proc c) th source') as Hsame.
    { intros source'. rewrite Hlt. by rewrite decide_False by naive_solver. }
    split; [|apply Hkept; [naive_solver|done]].
    split; simpl; try done; [by apply Hall|by apply Hacc|]. intros source'. rewrite Hsame. auto.
  - destruct (remove_run _ th' source loc_routing0 Hl) as (rs & Hrm & Hw' & Hlt).
    rewrite Hrm in Hrun. injection Hrun as <- <-.
    assert (∀ source', local_target (set_local th' rs (proc c)) th source' =
      local_target (proc c) th source') as Hsame.
    { intros source'. rewrite Hlt. by rewrite decide_False by naive_solver. }
    assert (is_Some (local_routes th (set_local th' rs (proc c)))) as Hacc.
    { unfold local_routes. simpl. rewrite lookup_insert_ne by naive_solver. done. }
    split; [split; simpl; try done; intros source'; rewrite Hsame; auto|].
    by apply calls_kept_same.
  - split; [split; simpl; try done; by apply routing_ok_os|].
    apply calls_kept_same; try done. by apply routing_ok_os.
Qed.

Definition local_step c c' : Prop := own_step c c' ∨ other_step c c'.

Lemma local_ok_steps th c c' : local_ok th c → rtc local_step c c' → local_ok th c'.
Proof.
  intros Hok Hs. induction Hs as [|c c1 c' [Hst|Hst] _ IH]; [done|..]; apply IH.
  - by eapply own_step_ok.
  - by eapply other_step_ok.
Qed.

(** The routes of a thread are empty. *)
Definition no_routes th w : Prop := ∀ source, local_target w th source = None.

Lemma local_ok_start th w wd x :
  routing_ok w → entries_dispatch w → is_Some (local_routes th w) → no_routes th w →
  local_ok th (local_start th w wd x).
Proof.
  intros Hw Hd Hl Hno. split; simpl; try done. intros source. rewrite Hno. by intros [].
Qed.

(** C17. A local session and the rest of the process do not disturb each other,
    however their steps interleave.  In every state, each function with an
    entry jumps to a generated dispatcher.  What the session does no other
    thread notices: the dispatchers lead it where they led before, a function
    that was patched in the step leads it to the saved original, and no other
    mapped byte changed.  And the session's thread notices nothing of what the
    others do. *)
Theorem local_session_isolated th w wd x c c' :
  routing_ok w → entries_dispatch w → is_Some (local_routes th w) → no_routes th w →
  rtc local_step (local_start th w wd x) c →
  (∀ i r e, recorded (proc c) i r e → dispatches (Entry.dispatcher e) ∧ code_ok (os (proc c)) e) ∧
  (own_step c c' → ∀ th', th' ≠ th → is_Some (local_routes th' (proc c)) →
     calls_kept th' (proc c) (proc c')) ∧
  (other_step c c' → calls_kept th (proc c) (proc c')).
Proof.
  intros Hw Hd Hl Hno Hs.
  pose proof (local_ok_steps _ _ _ (local_ok_start th w wd x Hw Hd Hl Hno) Hs) as Hok.
  split_and!; [intros i r e Hr|intros Hst|intros Hst; by eapply other_step_ok].
  - split; [by eapply (loc_dispatch _ _ Hok)|by eapply (ok_code _ (loc_routing _ _ Hok))].
  - by destruct (own_step_ok _ _ _ Hok Hst) as [_ [_ Hkept]].
Qed.
End local_session.

Section local_session_end.
Context {P R X : Type} `{!Platform P, !View P, !PlatformLaws P, !Pages P, !PagesLaws P,
                         !Code, !CodeLaws, !Rule R}.
Implicit Types (c : scope P R X) (w : process P).

(** Code of any kind: the replacements need not be generated dispatchers. *)
Definition any_code (_ : Z) : Prop := True.

(** C28. Restoring a local session always succeeds, whatever was installed and
    whatever other threads did: its thread has no routes left, no code and no
    entry is touched, and every other thread keeps its routes. *)
Theorem local_session_restores th w wd x c :
  routing_ok w → is_Some (local_routes th w) → no_routes th w →
  rtc (local_step any_code) (local_start th w wd x) c →
  ∃ c', restore_patches c = (Ok tt, c') ∧ no_routes th (proc c') ∧
    Session.local_patches (self c') = [] ∧ same_mocks c c' ∧
    os (proc c') = os (proc c) ∧ ENTRIES (proc c') = ENTRIES (proc c) ∧
    leaked (proc c') = leaked (proc c) ∧
    ∀ th' source, th' ≠ th → local_target (proc c') th' source = local_target (proc c) th' source.
Proof.
  intros Hw Hl Hno Hs.
  pose proof (local_ok_steps any_code _ _ _
    (local_ok_start any_code th w wd x Hw (λ _ _ _ _, I) Hl Hno) Hs) as Hok.
  destruct (restore_patches_local any_code _ _ Hok) as (c' & Hrun & Hok' & Hsame & Hlp & Hrest).
  exists c'. split_and!; try done; try apply Hrest; try apply Hsame.
  intros source. destruct (local_target (proc c') th source) eqn:Ht; [|done].
  assert (source ∈ Session.local_patches (self c')) as Hin by (apply (loc_routes any_code _ _ Hok'); eauto).
  rewrite Hlp in Hin. by apply not_elem_of_nil in Hin.
Qed.
End local_session_end.

(** ** Runs on the example machine *)

(** Two policies of the lock: new readers pass threads that wait to write, or
    they do not. *)
#[local] Instance readers_first : Priority := λ _ _ _, true.

Lemma readers_first_laws : @PriorityLaws readers_first.
Proof.
  split; [done|]. intros w _ (t & k & Ht)%map_choose. eauto.
Qed.

#[local] Instance writers_first : Priority := λ thread kind w,
  match kind with
  | Global => true
  | Local => bool_decide (map_Forall (λ t k, t = thread ∨ k = Local) (waiting w))
  end.

#[local] Instance writers_first_laws : @PriorityLaws writers_first.
Proof.
  split.
  - intros thread [] w Hw; [done|]. apply bool_decide_true. intros t k Ht. left. by eapply Hw.
  - intros w _ Hne. destruct (decide (map_Forall (λ _ k, k = Local) (waiting w))) as [Hall|Hex].
    + apply map_choose in Hne as (t & k & Ht). exists t, k. split; [done|].
      pose proof (Hall _ _ Ht) as ->. apply bool_decide_true. intros t' k' Ht'. right. by eapply Hall.
    + apply map_not_Forall in Hex as (t & k & Ht & Hk); [|apply _]. exists t, k. by destruct k.
Qed.

Module SessionDemo.
#[local] Instance rule_nat : Rule nat := λ r, r.

(** One mock without rules. *)
Definition wd : World nat := (state_new "f" world_empty).2.
Definition mock : OwnedMock.t nat := OwnedMock.Make 0%nat (λ _, 0%nat).

Definition opened : scope Machine.t nat nat := session_start 0 RouteDemo.start wd 1%nat.
Definition mocked : scope Machine.t nat nat :=
  (install_mock RouteDemo.function RouteDemo.fake mock opened).2.

Definition opened_local : scope Machine.t nat nat := local_start 0 RouteDemo.start wd 1%nat.
Definition mocked_local : scope Machine.t nat nat :=
  (install_mock RouteDemo.function RouteDemo.fake mock opened_local).2.

Lemma free : globals_free RouteDemo.start.
Proof. intros i r e [Hi _]. discriminate Hi. Qed.

Lemma usable_start : usable RouteDemo.start opened RouteDemo.function.
Proof. split; [apply RouteDemo.start_outside|done]. Qed.

Lemma mocked_run : install_mock RouteDemo.function RouteDemo.fake mock opened = (Ok tt, mocked).
Proof.
  assert (is_ok (install_mock RouteDemo.function RouteDemo.fake mock opened).1 = true) as Hok
    by (vm_compute; reflexivity).
  unfold mocked. by destruct (install_mock _ _ _ opened) as [[[]| | |] ?].
Qed.

Lemma mocked_steps : rtc (session_step RouteDemo.start) opened mocked.
Proof.
  apply rtc_once. eapply step_mock; [apply usable_start| |apply mocked_run|done].
  split; vm_compute; discriminate.
Qed.

Lemma mocked_local_run :
  install_mock RouteDemo.function RouteDemo.fake mock opened_local = (Ok tt, mocked_local).
Proof.
  assert (is_ok (install_mock RouteDemo.function RouteDemo.fake mock opened_local).1 = true) as Hok
    by (vm_compute; reflexivity).
  unfold mocked_local. by destruct (install_mock _ _ _ opened_local) as [[[]| | |] ?].
Qed.

Lemma mocked_local_step dispatches :
  dispatches RouteDemo.fake → own_step dispatches opened_local mocked_local.
Proof.
  intros Hd. by eapply own_mock; [apply RouteDemo.start_outside|exact Hd|apply mocked_local_run|].
Qed.

Lemma mocked_local_steps : rtc (local_step any_code) opened_local mocked_local.
Proof. apply rtc_once. left. by apply mocked_local_step. Qed.

Lemma mocked_live : world_ok (world mocked) ∧ mocks_live (Session.mocks (self mocked)) (world mocked).
Proof.
  assert (world mocked = wd) as -> by (vm_compute; reflexivity).
  assert (Session.mocks (self mocked) = [mock]) as -> by (vm_compute; reflexivity). split.
  - apply reachable_ok, rtc_once, step_state_new.
  - intros m ->%list_elem_of_singleton. vm_compute. eauto.
Qed.
End SessionDemo.

#[local] Existing Instance SessionDemo.rule_nat.

(** Thread 7 has a local session and thread 8 waits for a global one.  Thread 3
    then waits, although no global session is open. *)
Lemma session_exclusion_witness :
  ∃ w, live_reachable (w, {[7%nat := Local]}) ∧ waiting w = {[8%nat := Global]} ∧
    new_local 7 w = (Panic (display Busy), w) ∧ try_new_local 3 w = (Err Busy, w) ∧
    (new_local 3 w).1 = Ok None.
Proof.
  set (w := mkLocks 1 false {[8%nat := Global]} {[7%nat]}).
  assert (live_reachable (w, {[7%nat := Local]})) as Hr.
  { eapply rtc_l; [|apply rtc_once].
    - eapply (step_open _ _ 7 true true); [left; reflexivity|vm_compute; reflexivity].
    - eapply (step_refused _ _ 8 false true (Ok None)); [left; reflexivity|vm_compute; reflexivity|].
      discriminate. }
  exists w. split; [exact Hr|]. split; [reflexivity|].
  destruct (session_exclusion _ _ Hr) as (_ & Hbusy & Hlocal & _).
  split; [apply (Hbusy 7%nat); eexists; reflexivity|].
  destruct (Hlocal 3%nat eq_refl) as [(w' & Hn & _)|(w' & Hn & _ & Ht & _)].
  - vm_compute in Hn. discriminate Hn.
  - split; [exact Ht|rewrite Hn; reflexivity].
Defined.

Lemma install_raw_correct_witness :
  ∃ c', install_raw RouteDemo.function RouteDemo.fake SessionDemo.opened = (Ok tt, c') ∧
    raw_installed SessionDemo.opened c' RouteDemo.function RouteDemo.fake.
Proof.
  destruct (install_raw RouteDemo.function RouteDemo.fake SessionDemo.opened) as [o c'] eqn:H.
  pose proof (install_raw_correct RouteDemo.start 0 SessionDemo.wd 1%nat SessionDemo.opened
    RouteDemo.function RouteDemo.fake o c' (routing_ok_start _) SessionDemo.free (rtc_refl _ _)
    SessionDemo.usable_start ltac:(split; vm_compute; discriminate) H) as Hi.
  destruct o as [[]|e|m|];
    [|apply (f_equal (is_ok ∘ fst)) in H; vm_compute in H; discriminate H..].
  exists c'. split; [reflexivity|apply Hi].
Defined.

Lemma global_session_restores_witness :
  ∃ c' s, restore_patches SessionDemo.mocked = (Ok tt, c') ∧
    proc c' = set_os s RouteDemo.start ∧ keeps (os RouteDemo.start) s.
Proof.
  destruct (restore_patches SessionDemo.mocked) as [o c'] eqn:H.
  pose proof (global_session_restores RouteDemo.start 0 SessionDemo.wd 1%nat SessionDemo.mocked
    o c' (routing_ok_start _) SessionDemo.free SessionDemo.mocked_steps H) as Hr.
  destruct o as [[]|e|m|];
    [|apply (f_equal (is_ok ∘ fst)) in H; vm_compute in H; discriminate H..].
  destruct Hr as (_ & _ & _ & _ & s & H1 & H2). exists c', s. split; [reflexivity|].
  split; [exact H1|exact H2].
Defined.

Lemma session_drop_correct_witness :
  ∃ c' s, session_drop false SessionDemo.mocked = (Ok tt, c') ∧
    proc c' = set_os s RouteDemo.start ∧ slots c' = 0%nat.
Proof.
  destruct (session_drop false SessionDemo.mocked) as [o c'] eqn:H.
  destruct (session_drop_correct RouteDemo.start 0 SessionDemo.wd 1%nat SessionDemo.mocked false
    o c' (routing_ok_start _) SessionDemo.free SessionDemo.mocked_steps
    (proj1 SessionDemo.mocked_live) (proj2 SessionDemo.mocked_live) H) as [->|Hr];
    [apply (f_equal (is_ok ∘ fst)) in H; vm_compute in H; discriminate H|].
  destruct Hr as ((s & Hp & _) & _ & _ & Hslots & _ & _).
  destruct o as [[]|e|m|];
    [|apply (f_equal (is_ok ∘ fst)) in H; vm_compute in H; discriminate H..].
  exists c', s. split; [reflexivity|]. split; [exact Hp|]. rewrite Hslots. vm_compute. reflexivity.
Defined.

Lemma local_session_isolated_witness :
  own_step (eq RouteDemo.fake) SessionDemo.opened_local SessionDemo.mocked_local ∧
  local_target (proc SessionDemo.mocked_local) 0 RouteDemo.function = Some RouteDemo.fake ∧
  calls_kept 1 (proc SessionDemo.opened_local) (proc SessionDemo.mocked_local).
Proof.
  assert (own_step (eq RouteDemo.fake) SessionDemo.opened_local SessionDemo.mocked_local) as Hst
    by (apply SessionDemo.mocked_local_step; reflexivity).
  split; [exact Hst|]. split; [vm_compute; reflexivity|].
  destruct (local_session_isolated (eq RouteDemo.fake) 0 RouteDemo.start SessionDemo.wd 1%nat
    SessionDemo.opened_local SessionDemo.mocked_local (routing_ok_start _)
    ltac:(intros i r e [Hi _]; discriminate Hi) (ex_intro _ [] eq_refl) (λ _, eq_refl)
    (rtc_refl _ _)) as (_ & Hown & _).
  exact (Hown Hst 1%nat ltac:(discriminate) (ex_intro _ [] eq_refl)).
Defined.

Lemma local_session_restores_witness :
  local_target (proc SessionDemo.mocked_local) 0 RouteDemo.function = Some RouteDemo.fake ∧
  ∃ c', restore_patches SessionDemo.mocked_local = (Ok tt, c') ∧ no_routes 0 (proc c').
Proof.
  split; [vm_compute; reflexivity|].
  destruct (local_session_restores 0 RouteDemo.start SessionDemo.wd 1%nat SessionDemo.mocked_local
    (routing_ok_start _) (ex_intro _ [] eq_refl) (λ _, eq_refl) SessionDemo.mocked_local_steps)
    as (c' & Hrun & Hno & _). exists c'. split; [exact Hrun|exact Hno].
Defined.
