(* ===== verification/Calls.v ===== *)
(** * Mock calls and installations

    What every mocked function shares, whether [mock!] generated it
    ([src/macros/src/lib.rs]) or [mock_async] patched it
    ([src/src/asynchronous.rs]): a call enters the mock's guard, selects a
    rule and runs its action; an installation touches neither the mocks nor
    their registries before it succeeded. *)

From S2P Require Import Prelude Errors Memory Executable X86 Code Routing Expectations Session.

#[local] Open Scope Z_scope.
#[local] Set Default Proof Using "Type*".

Section operations.
Context {P R X : Type} `{!Platform P, !Pages P, !Code, !Rule R}.
Abbreviation C := (scope P R X).
Abbreviation T := (M Error C).

(** A step on the statics of the mocks. *)
Definition in_slots {A} (m : M Error X A) : T A := λ c,
  let '(o, x) := m (slots c) in (o, mkScope (self c) (thread c) (proc c) (world c) x).

(** The guard is dropped however the body ends. *)
Definition with_guard {A} (th guard : nat) (m : T A) : T A :=
  r ← attempt m;
  match r with
  | Abort => abort
  | r => in_world (guard_drop th guard);; lift r
  end.

(** A call of a mocked function: [state.enter()], [state.select(..)], the
    action of the rule. *)
Definition mocked_call {V} (th state : nat) (matches : R → bool) (respond : R → M Error X V)
  : T V :=
  guard ← in_world (enter th state);
  with_guard th guard
    (rule ← in_world (select state matches);
     in_slots (respond rule)).
End operations.

(** ** A call *)

Section call.
Context {P R X V : Type} `{!Platform P, !Pages P, !Code, !Rule R}.
Implicit Types (c : scope P R X) (wd : World R).

Lemma selects_active wd k s f o wd' :
  selects wd k s f o wd' → active_calls wd' = active_calls wd.
Proof.
  assert (∀ i m, active_calls (count_call i m wd) = active_calls wd) as Hcount.
  { intros i m. unfold count_call, advance. simpl. by repeat case_match. }
  destruct 1 as [| pre r post m e wd' _ _ _ _ _ Hc|]; [apply Hcount|simpl|done].
  by inversion Hc; subst.
Qed.

(** The world with the mock [k] marked as running on [th]. *)
Definition entered (th k : nat) wd : World R :=
  at_active (<[th := calls_of th wd ++ [k]]>) wd.

(** What a call of the mock [k] on [th] does: a rule takes it and answers, or
    the rejection is recorded and the call panics. *)
Inductive answers c (k : nat) (s : State.t R) (th : nat) (matches : R → bool)
    (respond : R → M Error X V) : result V → World R → X → Prop :=
| answers_taken r wd1 o x :
    selects (entered th k (world c)) k s matches (Ok r) wd1 →
    respond r (slots c) = (o, x) →
    answers c k s th matches respond o wd1 x
| answers_rejected message wd1 :
    selects (entered th k (world c)) k s matches (Panic message) wd1 →
    answers c k s th matches respond (Panic message) wd1 (slots c).

Lemma answers_active c k s th matches respond o wd1 x :
  answers c k s th matches respond o wd1 x →
  active_calls wd1 = active_calls (entered th k (world c)).
Proof. destruct 1; by eapply selects_active. Qed.

Lemma guard_restores th k wd wd1 :
  k ∉ calls_of th wd → active_calls wd1 = active_calls (entered th k wd) →
  ∀ th', calls_of th' (guard_drop th k wd1).2 = calls_of th' wd.
Proof.
  intros Hk Ha th'. unfold guard_drop, modify, calls_of. simpl. rewrite Ha. simpl.
  destruct (decide (th' = th)) as [->|Hne].
  - rewrite !lookup_insert_eq. simpl. rewrite filter_app, filter_cons_False by naive_solver.
    rewrite filter_nil, app_nil_r. apply list_filter_all, Forall_forall.
    unfold calls_of in Hk. naive_solver.
  - by rewrite !lookup_insert_ne.
Qed.

Lemma enter_run th k s wd :
  mocks wd !! k = Some s → k ∉ calls_of th wd → enter th k wd = (Ok k, entered th k wd).
Proof.
  intros Hs Hk. unfold enter, try_enter, mbind, M_bind, attempt, gets.
  by rewrite bool_decide_false.
Qed.

Lemma in_world_run {A} (m : M Error (World R) A) c o wd :
  m (world c) = (o, wd) →
  in_world m c = (o, mkScope (self c) (thread c) (proc c) wd (slots c)).
Proof. unfold in_world. by intros ->. Qed.

(** The guard is released on every path but an abort. *)
Lemma mocked_call_run th k s matches respond c :
  world_ok (world c) → mocks (world c) !! k = Some s → State.active s = true →
  k ∉ calls_of th (world c) →
  ∃ o wd1 x, answers c k s th matches respond o wd1 x ∧
    mocked_call th k matches respond c =
    (o, mkScope (self c) (thread c) (proc c)
          (match o with Abort => wd1 | _ => (guard_drop th k wd1).2 end) x).
Proof.
  intros Hw Hs Ha Hk. unfold mocked_call. unfold mbind at 1, M_bind at 1.
  rewrite (in_world_run _ c _ _ (enter_run th k s (world c) Hs Hk)).
  destruct (select_run (entered th k (world c)) k s matches) as (so & wd1 & Hrun & Hsel);
    [by apply world_ok_active|done|done|].
  unfold with_guard. unfold mbind at 1, M_bind at 1, attempt. unfold mbind at 1, M_bind at 1.
  match goal with |- context [in_world (select k matches) ?c1] =>
    rewrite (in_world_run _ c1 _ _ Hrun) end.
  destruct so as [r|e|message|]; [|by inversion Hsel| |by inversion Hsel].
  - unfold in_slots. simpl. destruct (respond r (slots c)) as [o x] eqn:Hr.
    exists o, wd1, x. split; [by eapply answers_taken|]. by destruct o.
  - exists (Panic message), wd1, (slots c). split; [by apply answers_rejected|]. done.
Qed.
(** A call while the mock runs on the same thread. *)
Lemma mocked_call_reentrant th k s matches (respond : R → M Error X V) c :
  mocks (world c) !! k = Some s → k ∈ calls_of th (world c) →
  let e := error (State.name s +:+ ": a mock called itself recursively") in
  mocked_call th k matches respond c =
    (Panic (display e),
     mkScope (self c) (thread c) (proc c) (fail_mock k e s (world c)) (slots c)).
Proof.
  intros Hs Hk e. unfold mocked_call. unfold mbind at 1, M_bind at 1.
  rewrite (in_world_run _ c (Panic (display e)) (fail_mock k e s (world c))); [done|].
  unfold enter, try_enter, mbind, M_bind, attempt, gets. rewrite bool_decide_true by done. simpl.
  rewrite Hs. simpl. by rewrite (state_fail_run _ _ s).
Qed.

(** A call of a mock whose session ended. *)
Lemma mocked_call_inactive th k s matches (respond : R → M Error X V) c :
  mocks (world c) !! k = Some s → State.active s = false → k ∉ calls_of th (world c) →
  let e := no_longer_active (State.name s) in
  mocked_call th k matches respond c =
    (Panic (display e),
     mkScope (self c) (thread c) (proc c)
       (guard_drop th k (fail_mock k e s (entered th k (world c)))).2 (slots c)).
Proof.
  intros Hs Ha Hk e. unfold mocked_call. unfold mbind at 1, M_bind at 1.
  rewrite (in_world_run _ c _ _ (enter_run th k s (world c) Hs Hk)).
  unfold with_guard. unfold mbind at 1, M_bind at 1, attempt. unfold mbind at 1, M_bind at 1.
  match goal with |- context [in_world (select k matches) ?c1] =>
    rewrite (in_world_run _ c1 (Panic (display e)) (fail_mock k e s (entered th k (world c)))) end;
    [done|].
  unfold select. simpl. rewrite (deref_bind _ _ _ _ _ (Hs : mocks (entered th k (world c)) !! k = Some s)). rewrite Ha. simpl.
  by rewrite (state_fail_run _ _ s).
Qed.
End call.

(** ** An installation *)

Section install.
Context {P R X : Type} `{!Platform P, !Pages P, !Code, !Rule R}.
Abbreviation C := (scope P R X).
Implicit Types c : C.

(** The steps of an installation leave mocks and registries alone. *)
Definition frames {A} (m : M Error C A) : Prop :=
  ∀ c, world (m c).2 = world c ∧ slots (m c).2 = slots c ∧
    Session.mocks (self (m c).2) = Session.mocks (self c).

Lemma frames_ret {A} (a : A) : frames (mret a).
Proof. by intros c. Qed.
Lemma frames_lift {A} (r : result A) : frames (lift r).
Proof. by intros c. Qed.
Lemma frames_throw {A} e : frames (throw (A:=A) e).
Proof. by intros c. Qed.
Lemma frames_panic {A} message : frames (panic (A:=A) message).
Proof. by intros c. Qed.
Lemma frames_abort {A} : frames (abort (A:=A)).
Proof. by intros c. Qed.
Lemma frames_gets {A} (f : C → A) : frames (gets f).
Proof. by intros c. Qed.
Lemma frames_in_proc {A} (m : M Error (process P) A) : frames (in_proc m).
Proof. intros c. unfold in_proc. by destruct (m (proc c)). Qed.
Lemma frames_in_memory {A} (m : M Error P A) : frames (in_memory m).
Proof. apply frames_in_proc. Qed.
Lemma frames_patches l : frames (modify (set_patches l)).
Proof. by intros c. Qed.
Lemma frames_locals l : frames (modify (set_local_patches l)).
Proof. by intros c. Qed.
Lemma frames_globals l : frames (modify (set_global_routes l)).
Proof. by intros c. Qed.

Lemma frames_bind {A B} (m : M Error C A) (f : A → M Error C B) :
  frames m → (∀ a, frames (f a)) → frames (m ≫= f).
Proof.
  intros Hm Hf c. unfold mbind, M_bind. destruct (Hm c) as (Hw & Hs & Hms).
  destruct (m c) as [[a|e|msg|] c1]; simpl in *; try done.
  destruct (Hf a c1) as (Hw' & Hs' & Hms'). split_and!; congruence.
Qed.

Lemma frames_attempt {A} (m : M Error C A) : frames m → frames (attempt m).
Proof. intros Hm c. unfold attempt. specialize (Hm c). by destruct (m c). Qed.

#[local] Hint Resolve frames_ret frames_lift frames_throw frames_panic frames_abort frames_gets
  frames_in_proc frames_in_memory frames_patches frames_locals frames_globals frames_attempt
  : frames.

Ltac frame :=
  repeat match goal with
  | |- frames (_ ≫= _) => apply frames_bind; [auto with frames|intros ?]
  | |- frames (if ?b then _ else _) => destruct b
  | |- frames (match ?x with _ => _ end) => destruct x
  end; auto with frames.

Lemma frames_or_drop {A} relay (m : M Error C A) : frames m → frames (or_drop_relay relay m).
Proof.
  intros Hm. unfold or_drop_relay. frame; apply frames_bind; try (intros; by frame);
    destruct relay; auto with frames.
Qed.

Lemma frames_patch_raw source target bytes relay : frames (patch_raw source target bytes relay).
Proof. unfold patch_raw. frame. Qed.

Lemma frames_make_relay source target : frames (make_relay source target).
Proof. unfold make_relay. frame. apply frames_or_drop. frame. Qed.

#[local] Hint Resolve frames_or_drop frames_patch_raw frames_make_relay : frames.

Lemma frames_install_raw source target : frames (install_raw source target).
Proof.
  unfold install_raw. frame.
Qed.

Lemma install_mock_slots source target (mock : OwnedMock.t X) c o c' :
  install_mock source target mock c = (o, c') →
  match o with
  | Ok _ => world c' = world c ∧ slots c' = slots c ∧
      Session.mocks (self c') = Session.mocks (self c) ++ [mock]
  | Abort => True
  | _ => slots c' = OwnedMock.detach mock (slots c) ∧
      Session.mocks (self c') = Session.mocks (self c)
  end.
Proof.
  unfold install_mock. unfold mbind at 1, M_bind at 1, gets at 1.
  set (m := if is_local c then _ else install_raw source target).
  assert (frames m) as Hm.
  { subst m. destruct (is_local c); [frame|apply frames_install_raw]. }
  unfold mbind at 1, M_bind at 1, attempt. destruct (Hm c) as (Hw & Hs & Hms).
  destruct (m c) as [[[]|e|msg|] c1]; simpl in *.
  - unfold mbind, M_bind, gets, modify. intros [= <- <-]. simpl. by rewrite Hw, Hs, Hms.
  - unfold mock_drop, in_world, mbind, M_bind, modify. simpl.
    destruct (deactivate (OwnedMock.control mock) (world c1)) as [[[]|?|?|] wd]; simpl;
      intros [= <- <-]; simpl; by rewrite ?Hs, ?Hms.
  - unfold mock_drop, in_world, mbind, M_bind, modify. simpl.
    destruct (deactivate (OwnedMock.control mock) (world c1)) as [[[]|?|?|] wd]; simpl;
      intros [= <- <-]; simpl; by rewrite ?Hs, ?Hms.
  - by intros [= <- <-].
Qed.
End install.
