(* ===== verification/Async.v ===== *)
(** * Mocks of futures ([src/src/asynchronous.rs])

    [mock_async] patches the poll function of one future type and registers
    the mock under its address, for all threads or for the thread of a local
    session; [poll_mock], the replacement, looks the mock up and answers from
    its expectations, or goes on to the original.  The registries are the
    part of a session's [scope] that its mocks clear when they are dropped. *)

From S2P Require Import Prelude Errors Memory Executable X86 Code Routing Expectations Session Calls.

#[local] Open Scope Z_scope.
#[local] Set Default Proof Using "Type*".

(** [AsyncRule]; [action] points to the closure behind its mutex. *)
Module AsyncRule.
Record t := Make { meta : nat; action : nat }.
End AsyncRule.

#[export] Instance async_rule : Rule AsyncRule.t := AsyncRule.meta.

(** A boxed [FnMut() -> R]: its responses in turn, and how many were used. *)
Module Action.
Record t (V : Type) := Make { response : nat → result V; used : nat }.
Arguments Make {V}. Arguments response {V}. Arguments used {V}.
End Action.

(** [AsyncExpectation] and its builder methods. *)
Module AsyncExpectation.
Record t := Make { state : nat; config : Config.t }.

Definition set_config (config : Config.t) (e : t) : t := Make (state e) config.
Definition times (count : CallCount.bounds) (e : t) : t :=
  set_config (Config.times (config e) count) e.
Definition once (e : t) : t := set_config (Config.once (config e)) e.
Definition in_sequence (s : Sequence) (e : t) : t :=
  set_config (Config.in_sequence (config e) s) e.
End AsyncExpectation.

(** [AsyncMock]. *)
Module AsyncMock.
Record t := Make { state : nat }.
Definition expect (mock : t) : AsyncExpectation.t :=
  AsyncExpectation.Make (state mock) Config.default.
End AsyncMock.

(** [RegistryEntry]: the address of the poll function, the mock, and the
    [TypeId] its [dyn Any] carries. *)
Module RegistryEntry.
Record t := Make { address : Z; state : nat; output : nat }.
End RegistryEntry.

(** [RegistryKey]. *)
Definition RegistryKey : Type := Z * option nat.

(** The statics, [LOCAL_REGISTRY] of every thread, and the closures. *)
Record registries (V : Type) := mkRegistries {
  REGISTRY : list RegistryEntry.t;
  LOCAL_REGISTRY : gmap nat (list RegistryEntry.t);
  GLOBAL_ACTIVE : bool;
  actions : list (Action.t V) }.
Arguments mkRegistries {V}. Arguments REGISTRY {V}. Arguments LOCAL_REGISTRY {V}.
Arguments GLOBAL_ACTIVE {V}. Arguments actions {V}.

Section registry.
Context {V : Type}.
Implicit Types x : registries V.

Definition local_registry (thread : nat) x : list RegistryEntry.t :=
  default [] (LOCAL_REGISTRY x !! thread).
Definition set_local_registry (thread : nat) (l : list RegistryEntry.t) x : registries V :=
  mkRegistries (REGISTRY x) (<[thread := l]> (LOCAL_REGISTRY x)) (GLOBAL_ACTIVE x) (actions x).
Definition set_registry (l : list RegistryEntry.t) (active : bool) x : registries V :=
  mkRegistries l (LOCAL_REGISTRY x) active (actions x).

Definition same_address (address : Z) (e : RegistryEntry.t) : bool :=
  RegistryEntry.address e =? address.

(** [insert]. *)
Definition insert_entry (registry : list RegistryEntry.t) (e : RegistryEntry.t)
  : result (list RegistryEntry.t) :=
  if existsb (same_address (RegistryEntry.address e)) registry
  then Err (error "this future is already mocked")
  else Ok (registry ++ [e]).

(** [register]. *)
Definition register (key : RegistryKey) (state output : nat) : M Error (registries V) unit :=
  let e := RegistryEntry.Make key.1 state output in
  match key.2 with
  | Some thread =>
      l ← gets (local_registry thread);
      l ← lift (insert_entry l e);
      modify (set_local_registry thread l)
  | None =>
      l ← gets REGISTRY;
      l ← lift (insert_entry l e);
      modify (set_registry l true)
  end.

(** [registry.retain(|entry| entry.0 != key.0)]. *)
Definition retain (address : Z) (l : list RegistryEntry.t) : list RegistryEntry.t :=
  filter (λ e, RegistryEntry.address e ≠ address) l.

(** [remove]. *)
Definition unregister (key : RegistryKey) x : registries V :=
  match key.2 with
  | Some thread => set_local_registry thread (retain key.1 (local_registry thread x)) x
  | None =>
      let l := retain key.1 (REGISTRY x) in
      set_registry l (negb (bool_decide (l = []))) x
  end.

(** [find]. *)
Definition find_state (registry : list RegistryEntry.t) (address : Z) : option RegistryEntry.t :=
  find (same_address address) registry.

(** [registered]. *)
Definition registered (thread : nat) (address : Z) x : option RegistryEntry.t :=
  match find_state (local_registry thread x) address with
  | Some e => Some e
  | None => if GLOBAL_ACTIVE x then find_state (REGISTRY x) address else None
  end.

(** [lookup]: the downcast fails when the output type is another one. *)
Definition lookup_mock (thread : nat) (address : Z) (output : nat) : M Error (registries V) (option nat) := λ x,
  match registered thread address x with
  | None => (Ok None, x)
  | Some e =>
      if (RegistryEntry.output e =? output)%nat then (Ok (Some (RegistryEntry.state e)), x)
      else (Panic "async mock output type changed", x)
  end.

(** A new closure. *)
Definition action_new (response : nat → result V) : M Error (registries V) nat := λ x,
  (Ok (length (actions x)),
   mkRegistries (REGISTRY x) (LOCAL_REGISTRY x) (GLOBAL_ACTIVE x)
     (actions x ++ [Action.Make response 0])).

(** [(lock(&rule.action))()]; a closure that panics was used. *)
Definition invoke (action : nat) : M Error (registries V) V := λ x,
  match actions x !! action with
  | Some a =>
      (Action.response a (Action.used a),
       mkRegistries (REGISTRY x) (LOCAL_REGISTRY x) (GLOBAL_ACTIVE x)
         (<[action := Action.Make (Action.response a) (S (Action.used a))]> (actions x)))
  | None => (Panic "dangling closure", x)
  end.
End registry.

Section operations.
Context {P V : Type} `{!Platform P, !Pages P, !Code}.
Abbreviation C := (scope P AsyncRule.t (registries V)).
Abbreviation T := (M Error C).

(** [Session::mock_async]: [source] is [F::poll], [target] is [poll_mock::<F>],
    [output] the type of the future's output. *)
Definition mock_async (source target : Z) (name : string) (output : nat) : T AsyncMock.t :=
  state ← in_world (state_new name);
  local ← gets is_local;
  th ← gets thread;
  let key := (source, if local : bool then Some th else None) in
  checked (in_slots (register key state output));;
  checked (install_mock source target (OwnedMock.Make state (unregister key)));;
  mret (AsyncMock.Make state).

(** What a poll does: it is ready at once, or the saved poll function runs. *)
Inductive Poll := Ready (v : V) | Original (target : Z).

(** [poll_mock] on the thread [th]; [dispatcher] is its own address. *)
Definition poll_mock (th : nat) (source dispatcher : Z) (output : nat) : T Poll :=
  state ← in_slots (lookup_mock th source output);
  match state with
  | None =>
      target ← in_proc (route th dispatcher);
      target ← lift (expect "async mock is no longer active" target);
      mret (Original target)
  | Some state =>
      v ← mocked_call th state (λ _, true) (λ rule, invoke (AsyncRule.action rule));
      mret (Ready v)
  end.

(** [AsyncMock::verify], [AsyncMock::checkpoint]. *)
Definition async_verify (mock : AsyncMock.t) : T unit :=
  checked (in_world (state_verify (AsyncMock.state mock))).
Definition async_checkpoint (mock : AsyncMock.t) : T unit :=
  checked (in_world (checkpoint (AsyncMock.state mock))).

(** [AsyncExpectation::returning]. *)
Definition returning (e : AsyncExpectation.t) (response : nat → result V) : T nat :=
  action ← in_slots (action_new response);
  checked (in_world (add (AsyncExpectation.state e) (AsyncExpectation.config e)
                         (λ meta, AsyncRule.Make meta action))).

(** [AsyncExpectation::returning_once]. *)
Definition once_response (action : result V) (n : nat) : result V :=
  match n with O => action | S _ => Panic "one-time response was already used" end.
Definition returning_once (e : AsyncExpectation.t) (action : result V) : T nat :=
  config ← lift (check (Config.for_once (AsyncExpectation.config e)));
  returning (AsyncExpectation.set_config config e) (once_response action).

(** [AsyncExpectation::returns], [return_once], [returns_default], [panics],
    [never]. *)
Definition async_returns (e : AsyncExpectation.t) (value : V) : T nat :=
  returning e (λ _, Ok value).
Definition return_once (e : AsyncExpectation.t) (value : V) : T nat :=
  returning_once e (Ok value).
Definition returns_default (e : AsyncExpectation.t) (default : V) : T nat :=
  returning e (λ _, Ok default).
Definition panics (e : AsyncExpectation.t) (message : string) : T nat :=
  returning e (λ _, Panic message).
Definition never (e : AsyncExpectation.t) : T nat :=
  panics (AsyncExpectation.times (CallCount.Exact 0) e) "poll is forbidden".
End operations.

(** ** The registries *)

Section registry_proofs.
Context {V : Type}.
Implicit Types (x : registries V) (l : list RegistryEntry.t).

(** No address twice, and the flag says whether there is a global mock. *)
Record registry_ok x : Prop := {
  reg_global : NoDup (RegistryEntry.address <$> REGISTRY x);
  reg_local thread : NoDup (RegistryEntry.address <$> local_registry thread x);
  reg_active : GLOBAL_ACTIVE x = negb (bool_decide (REGISTRY x = [])) }.

Lemma insert_entry_run l e :
  match insert_entry l e with
  | Ok l' => l' = l ++ [e] ∧ find_state l (RegistryEntry.address e) = None ∧
      Forall (λ e', RegistryEntry.address e' ≠ RegistryEntry.address e) l
  | Err _ => is_Some (find_state l (RegistryEntry.address e))
  | _ => False
  end.
Proof.
  unfold insert_entry, find_state. destruct (existsb _ l) eqn:He.
  - apply existsb_exists in He as (e' & Hin & Hs).
    destruct (find (same_address (RegistryEntry.address e)) l) eqn:Hf; [by eexists|].
    by rewrite (find_none _ _ Hf _ Hin) in Hs.
  - assert (Forall (λ e', RegistryEntry.address e' ≠ RegistryEntry.address e) l) as Hall.
    { apply Forall_forall. intros e' Hin Heq.
      pose proof (existsb_false_elem _ _ _ He Hin) as Hs. unfold same_address in Hs.
      rewrite Heq, Z.eqb_refl in Hs. done. }
    split_and!; [done| |done]. clear He. induction Hall as [|e' l Hne _ IH]; [done|]. simpl.
    unfold same_address. rewrite (proj2 (Z.eqb_neq _ _) Hne). exact IH.
Qed.

Lemma find_state_app l l' a :
  find_state (l ++ l') a =
  match find_state l a with Some e => Some e | None => find_state l' a end.
Proof. unfold find_state. induction l as [|e l IH]; simpl; [done|]. by destruct (same_address a e). Qed.

Lemma find_state_one e a :
  find_state [e] a = if decide (a = RegistryEntry.address e) then Some e else None.
Proof.
  unfold find_state, same_address. simpl. destruct (Z.eqb_spec (RegistryEntry.address e) a);
    case_decide; congruence.
Qed.

Lemma retain_fresh l e :
  Forall (λ e', RegistryEntry.address e' ≠ RegistryEntry.address e) l →
  retain (RegistryEntry.address e) (l ++ [e]) = l.
Proof.
  intros Hall. unfold retain. rewrite filter_app, filter_cons_False by naive_solver.
  rewrite filter_nil, app_nil_r. by apply list_filter_all.
Qed.

Lemma NoDup_push l e :
  NoDup (RegistryEntry.address <$> l) →
  Forall (λ e', RegistryEntry.address e' ≠ RegistryEntry.address e) l →
  NoDup (RegistryEntry.address <$> (l ++ [e])).
Proof.
  intros Hn Hall. rewrite fmap_app. apply NoDup_app. split_and!; [done| |apply NoDup_singleton].
  intros a (e' & -> & Hin)%list_elem_of_fmap ?%list_elem_of_singleton.
  rewrite Forall_forall in Hall. by eapply Hall.
Qed.

Lemma local_registry_set th th' l x :
  local_registry th' (set_local_registry th l x) =
  if decide (th' = th) then l else local_registry th' x.
Proof.
  unfold local_registry. simpl. destruct (decide (th' = th)) as [->|Hne].
  - by rewrite lookup_insert_eq.
  - by rewrite lookup_insert_ne.
Qed.

(** The global registry counts only when it is not empty. *)
Lemma registered_ok x th a :
  registry_ok x →
  registered th a x =
  match find_state (local_registry th x) a with
  | Some e => Some e
  | None => find_state (REGISTRY x) a
  end.
Proof.
  intros [_ _ Ha]. unfold registered. rewrite Ha.
  destruct (find_state (local_registry th x) a); [done|].
  case_bool_decide as He; [|done]. by rewrite He.
Qed.

(** What registering changes, seen from every thread. *)
Definition seen (key : RegistryKey) (e : RegistryEntry.t) x (th : nat) (a : Z)
  : option RegistryEntry.t :=
  match find_state (local_registry th x) a with
  | Some e' => Some e'
  | None =>
      if decide (a = key.1 ∧ (key.2 = Some th ∨ key.2 = None)) then Some e
      else registered th a x
  end.

(** In the registry of a thread. *)
Lemma register_local x a0 t0 state output o x' :
  registry_ok x → register (a0, Some t0) state output x = (o, x') →
  let e := RegistryEntry.Make a0 state output in
  match o with
  | Ok _ => registry_ok x' ∧ actions x' = actions x ∧
      (∀ th a, registered th a x' = seen (a0, Some t0) e x th a) ∧
      registry_ok (unregister (a0, Some t0) x') ∧
      (∀ th a, registered th a (unregister (a0, Some t0) x') = registered th a x)
  | Err _ => x' = x ∧ is_Some (find_state (local_registry t0 x) a0)
  | _ => False
  end.
Proof.
  intros Hok; unfold register, mbind, M_bind, gets, lift, modify;
    cbn [fst snd]; set (e := RegistryEntry.Make a0 state output).
  pose proof (insert_entry_run (local_registry t0 x) e) as Hi.
  destruct (insert_entry (local_registry t0 x) e) as [l|err| |] eqn:He; try done; intros [= <- <-].
  2:{ done. }
  destruct Hi as (-> & Hnone & Hall). simpl in Hnone.
  assert (registry_ok (set_local_registry t0 (local_registry t0 x ++ [e]) x)) as Hok'.
  { destruct Hok. split; try done. intros th. rewrite local_registry_set. case_decide; [|done].
    by apply NoDup_push. }
  set (x' := set_local_registry t0 (local_registry t0 x ++ [e]) x) in *.
  assert (∀ th, local_registry th (unregister (a0, Some t0) x') = local_registry th x) as Hback.
  { intros th. unfold unregister. simpl. rewrite local_registry_set. unfold x'.
    rewrite !local_registry_set. case_decide as Hth; [|done]. rewrite decide_True by done.
    rewrite Hth. by apply (retain_fresh _ e). }
  assert (registry_ok (unregister (a0, Some t0) x')) as Hok2.
  { destruct Hok. split; try done. intros th. by rewrite Hback. }
  split_and!; [done|done| |done|].
  - intros th a. rewrite registered_ok by done. unfold seen, x'. rewrite local_registry_set.
    cbn [fst snd]. destruct (decide (th = t0)) as [->|Hne].
    + rewrite find_state_app, find_state_one. simpl.
      destruct (find_state (local_registry t0 x) a) eqn:Hf; [done|].
      destruct (decide (a = a0)) as [->|Hna]; [by rewrite decide_True by auto|].
      rewrite decide_False by naive_solver. rewrite registered_ok, Hf by done. done.
    + destruct (find_state (local_registry th x) a) eqn:Hf; [done|].
      rewrite decide_False by naive_solver. by rewrite registered_ok, Hf.
  - intros th a. rewrite !registered_ok by done. by rewrite Hback.
Qed.

(** In the registry of the process. *)
Lemma register_global x a0 state output o x' :
  registry_ok x → register (a0, None) state output x = (o, x') →
  let e := RegistryEntry.Make a0 state output in
  match o with
  | Ok _ => registry_ok x' ∧ actions x' = actions x ∧
      (∀ th a, registered th a x' = seen (a0, None) e x th a) ∧
      registry_ok (unregister (a0, None) x') ∧
      (∀ th a, registered th a (unregister (a0, None) x') = registered th a x)
  | Err _ => x' = x ∧ is_Some (find_state (REGISTRY x) a0)
  | _ => False
  end.
Proof.
  intros Hok; unfold register, mbind, M_bind, gets, lift, modify;
    cbn [fst snd]; set (e := RegistryEntry.Make a0 state output).
  pose proof (insert_entry_run (REGISTRY x) e) as Hi.
  destruct (insert_entry (REGISTRY x) e) as [l|err| |] eqn:He; try done; intros [= <- <-].
  2:{ done. }
  destruct Hi as (-> & Hnone & Hall). simpl in Hnone.
  assert (registry_ok (set_registry (REGISTRY x ++ [e]) true x)) as Hok'.
  { destruct Hok. split; try done; simpl; [by apply NoDup_push|].
    rewrite bool_decide_false; [done|]. by destruct (REGISTRY x). }
  set (x' := set_registry (REGISTRY x ++ [e]) true x) in *.
  assert (unregister (a0, None) x' = x) as Hback.
  { unfold unregister, x'. simpl. rewrite (retain_fresh _ e) by done.
    destruct x as [r lr g acts]. unfold set_registry. simpl. f_equal.
    symmetry. apply (reg_active _ Hok). }
  rewrite Hback. split_and!; [done|done| |done|done].
  intros th a. rewrite registered_ok by done. unfold seen. cbn [fst snd].
  change (local_registry th x') with (local_registry th x).
  destruct (find_state (local_registry th x) a) eqn:Hf; [done|]. unfold x'. simpl REGISTRY.
  rewrite find_state_app, find_state_one. simpl.
  rewrite registered_ok, Hf by done. destruct (decide (a = a0)) as [->|Hna].
  - rewrite Hnone. by rewrite decide_True by auto.
  - rewrite decide_False by naive_solver. by destruct (find_state (REGISTRY x) a).
Qed.

Lemma register_run x key state output o x' :
  registry_ok x → register key state output x = (o, x') →
  let e := RegistryEntry.Make key.1 state output in
  match o with
  | Ok _ => registry_ok x' ∧ actions x' = actions x ∧
      (∀ th a, registered th a x' = seen key e x th a) ∧
      registry_ok (unregister key x') ∧
      (∀ th a, registered th a (unregister key x') = registered th a x)
  | Err _ => x' = x ∧
      is_Some (find_state (match key.2 with Some th => local_registry th x | None => REGISTRY x end)
                 key.1)
  | _ => False
  end.
Proof.
  destruct key as [a0 [t0|]]; [apply register_local|apply register_global].
Qed.

(** Registering a mock makes it the answer for its address, on every thread
    that has no mock of its own for it, or, for a local session, on the
    session's thread only; an address that is taken is refused and nothing
    changes; and unregistering takes back exactly that. *)
Theorem async_registry_roundtrip x key state output o x' :
  registry_ok x → register key state output x = (o, x') →
  let e := RegistryEntry.Make key.1 state output in
  match o with
  | Ok _ => registry_ok x' ∧ actions x' = actions x ∧
      (∀ th a, registered th a x' = seen key e x th a) ∧
      registry_ok (unregister key x') ∧
      (∀ th a, registered th a (unregister key x') = registered th a x)
  | Err _ => x' = x ∧
      is_Some (find_state (match key.2 with Some th => local_registry th x | None => REGISTRY x end)
                 key.1)
  | _ => False
  end.
Proof. apply register_run. Qed.
End registry_proofs.

(** ** Polling *)

Section poll.
Context {P V : Type} `{!Platform P, !Pages P, !Code}.
Implicit Types (c : scope P AsyncRule.t (registries V)) (wd : World AsyncRule.t).

(** The closure of a rule answers once more. *)
Definition answered (h : nat) (a : Action.t V) (x : registries V) : registries V :=
  mkRegistries (REGISTRY x) (LOCAL_REGISTRY x) (GLOBAL_ACTIVE x)
    (<[h := Action.Make (Action.response a) (S (Action.used a))]> (actions x)).

(** A poll of a mocked future on [th]: an expectation takes it and its
    closure answers, or the rejection is recorded and the poll panics. *)
Inductive polls c (k : nat) (s : State.t AsyncRule.t) (th : nat)
  : result Poll → World AsyncRule.t → registries V → Prop :=
| polls_answer r a wd1 :
    selects (entered th k (world c)) k s (λ _, true) (Ok r) wd1 →
    actions (slots c) !! AsyncRule.action r = Some a →
    polls c k s th (Ready <$> Action.response a (Action.used a)) wd1
      (answered (AsyncRule.action r) a (slots c))
| polls_reject message wd1 :
    selects (entered th k (world c)) k s (λ _, true) (Panic message) wd1 →
    polls c k s th (Panic message) wd1 (slots c).

Lemma polls_run th k s c :
  world_ok (world c) → mocks (world c) !! k = Some s → State.active s = true →
  k ∉ calls_of th (world c) →
  (∀ r, r ∈ State.rules s → is_Some (actions (slots c) !! AsyncRule.action r)) →
  ∃ o wd1 x, polls c k s th o wd1 x ∧ active_calls wd1 = active_calls (entered th k (world c)) ∧
    (v ← mocked_call th k (λ _, true) (λ rule, invoke (AsyncRule.action rule));
     mret (Ready v)) c =
    (o, mkScope (self c) (thread c) (proc c)
          (match o with Abort => wd1 | _ => (guard_drop th k wd1).2 end) x).
Proof.
  intros Hw Hs Ha Hk Hacts.
  destruct (mocked_call_run th k s (λ _, true) (λ rule, invoke (AsyncRule.action rule)) c)
    as (o & wd1 & x & Hans & Hrun); [done..|].
  exists (Ready <$> o), wd1, x.
  split_and!; [|by eapply answers_active|unfold mbind, M_bind; rewrite Hrun; by destruct o].
  destruct Hans as [r wd1 o x Hsel Hr|message wd1 Hsel]; [|by apply polls_reject].
  assert (r ∈ State.rules s) as Hin.
  { inversion Hsel as [pre r' post m Hrules| |]; subst. rewrite Hrules. apply elem_of_app.
    right. by left. }
  destruct (Hacts r Hin) as [a Hact]. unfold invoke in Hr. rewrite Hact in Hr.
  injection Hr as <- <-. by eapply polls_answer.
Qed.
End poll.

Section poll_correct.
Context {P V : Type} `{!Platform P, !View P, !PlatformLaws P, !Pages P, !PagesLaws P, !Code, !CodeLaws}.
Implicit Types (c : scope P AsyncRule.t (registries V)) (wd : World AsyncRule.t).

(** Where a poll goes on, as an outcome of [route]. *)
Definition poll_target (o : result (Poll (V:=V))) (r : result (option Z)) : Prop :=
  match o with
  | Ok (Original target) => r = Ok (Some target)
  | Panic message => r = Panic message
  | _ => False
  end.

(** No mock of the future on this thread: the poll function that the entry of
    the dispatcher stands for on this thread runs, and the process is as
    before. *)
Definition polls_original c (th : nat) (dispatcher : Z) (o : result Poll) c' : Prop :=
  (∃ s, c' = mkScope (self c) (thread c) (set_os s (proc c)) (world c) (slots c) ∧
        same_view (os (proc c)) s) ∧
  ((∀ i r e, recorded (proc c) i r e → Entry.dispatcher e ≠ dispatcher) →
   o = Panic "async mock is no longer active") ∧
  ∀ i r e, recorded (proc c) i r e → Entry.dispatcher e = dispatcher →
    ∃ out, poll_target o out ∧ routed (proc c) th e out.

Lemma polls_original_run c th dispatcher o c' :
  routing_ok (proc c) → is_Some (local_routes th (proc c)) →
  (target ← in_proc (route th dispatcher);
   target ← lift (expect "async mock is no longer active" target);
   mret (Original target)) c = (o, c') → polls_original c th dispatcher o c'.
Proof.
  intros Hw Hl. unfold mbind at 1, M_bind at 1, in_proc.
  destruct (route th dispatcher (proc c)) as [r w'] eqn:Hr.
  destruct (route_run _ _ _ _ _ Hw Hl Hr) as (Hs & Hv & Hno & Hyes). intros Hrun.
  assert (c' = mkScope (self c) (thread c) w' (world c) (slots c)) as ->
    by (destruct r as [[t|]|err|m|]; by injection Hrun as <- <-).
  split_and!.
  - exists (os w'). by rewrite <-Hs.
  - intros Hnone. rewrite (Hno Hnone) in Hrun. by injection Hrun as <-.
  - intros i r' e He Hd. pose proof (Hyes _ _ _ He Hd) as Hrt. exists r. split; [|done].
    destruct r as [[t|]|err|m|]; injection Hrun as <-; try done;
      revert Hrt; unfold routed, shared_target; repeat case_match; naive_solver.
Qed.

(** The mock [k] on [th] with the state [s] that the future is registered
    with: what a poll returns, and what it leaves. *)
Definition polls_mock c (k : nat) (s : State.t AsyncRule.t) (th : nat) (o : result Poll) c' : Prop :=
  self c' = self c ∧ proc c' = proc c ∧
  (∀ th', calls_of th' (world c') = calls_of th' (world c)) ∧
  if bool_decide (k ∈ calls_of th (world c)) then
    let e := error (State.name s +:+ ": a mock called itself recursively") in
    o = Panic (display e) ∧ mocks (world c') !! k = Some (State.insert_failure e s) ∧
    slots c' = slots c
  else if negb (State.active s) then
    let e := no_longer_active (State.name s) in
    o = Panic (display e) ∧ mocks (world c') !! k = Some (State.insert_failure e s) ∧
    slots c' = slots c
  else ∃ wd1, polls c k s th o wd1 (slots c') ∧ world c' = (guard_drop th k wd1).2.

Lemma polls_mock_run c k s th o c' :
  world_ok (world c) → mocks (world c) !! k = Some s →
  (∀ r, r ∈ State.rules s → is_Some (actions (slots c) !! AsyncRule.action r)) →
  (v ← mocked_call th k (λ _, true) (λ rule, invoke (AsyncRule.action rule));
   mret (Ready v)) c = (o, c') → o = Abort ∨ polls_mock c k s th o c'.
Proof.
  intros Hw Hs Hacts Hrun. assert (k < length (mocks (world c)))%nat as Hlt by (by eapply lookup_lt_Some).
  unfold polls_mock. case_bool_decide as Hk.
  { unfold mbind, M_bind in Hrun. rewrite (mocked_call_reentrant _ _ _ _ _ _ Hs Hk) in Hrun.
    injection Hrun as <- <-. right. simpl. rewrite list_lookup_insert_eq by done. done. }
  destruct (State.active s) eqn:Ha; simpl.
  - destruct (polls_run th k s c Hw Hs Ha Hk Hacts) as (o1 & wd1 & x & Hp & Hact & Hbody).
    rewrite Hbody in Hrun. injection Hrun as <- <-. simpl.
    destruct o1 as [v|err|m|]; [right..|by left];
      (split_and!; [done|done|by apply guard_restores|]); by exists wd1.
  - unfold mbind, M_bind in Hrun. rewrite (mocked_call_inactive _ _ _ _ _ _ Hs Ha Hk) in Hrun.
    injection Hrun as <- <-. right. simpl. rewrite list_lookup_insert_eq by done.
    split_and!; try done. by apply guard_restores.
Qed.

(** C19. [poll_mock], on every path.  A future without a mock on this thread goes
    on to the poll function that the entry of the dispatcher stands for there:
    a replacement of the thread or of the process if there is one, else the
    saved original; if no entry was ever published the poll panics; and
    nothing changes.  A mock registered with another output type panics.  A
    mock that is running on this thread already, or whose session has ended,
    panics and records it.  Otherwise an expectation of the mock decides as
    for any call: its closure answers and the poll is ready, or the rejection
    is recorded and the poll panics.  With a mock the original never runs, the
    process is untouched, and the lists of running mocks of all threads are as
    before. *)
Theorem poll_mock_correct th source dispatcher output c o c' :
  routing_ok (proc c) → is_Some (local_routes th (proc c)) → world_ok (world c) →
  poll_mock th source dispatcher output c = (o, c') →
  match registered th source (slots c) with
  | None => polls_original c th dispatcher o c'
  | Some e =>
      if (RegistryEntry.output e =? output)%nat then
        ∀ s, mocks (world c) !! RegistryEntry.state e = Some s →
          (∀ r, r ∈ State.rules s → is_Some (actions (slots c) !! AsyncRule.action r)) →
          o = Abort ∨ polls_mock c (RegistryEntry.state e) s th o c'
      else o = Panic "async mock output type changed" ∧ c' = c
  end.
Proof.
  intros Hr Hl Hw. unfold poll_mock. unfold mbind at 1, M_bind at 1, in_slots at 1, lookup_mock.
  assert (mkScope (self c) (thread c) (proc c) (world c) (slots c) = c) as Hc by (by destruct c).
  destruct (registered th source (slots c)) as [e|]; [destruct (_ =? _)%nat|]; rewrite Hc.
  - intros Hrun s Hs Hacts. by apply polls_mock_run.
  - by intros [= <- <-].
  - by apply polls_original_run.
Qed.
End poll_correct.

(** ** Installing a mock of a future *)

Section install.
Context {P V : Type} `{!Platform P, !Pages P, !Code}.
Abbreviation C := (scope P AsyncRule.t (registries V)).
Implicit Types c : C.

(** The registry key of a session. *)
Definition session_key (source : Z) c : RegistryKey :=
  (source, if is_local c then Some (thread c) else None).

(** [mock_async] leaves a registered mock that the session owns and will
    unregister, or panics with every lookup and the session's mocks as
    before. *)
Theorem mock_async_correct source target name output c o c' :
  registry_ok (slots c) → mock_async source target name output c = (o, c') →
  match o with
  | Ok mock =>
      let k := AsyncMock.state mock in
      k = length (mocks (world c)) ∧ registry_ok (slots c') ∧
      (∀ th a, registered th a (slots c') =
         seen (session_key source c) (RegistryEntry.Make source k output) (slots c) th a) ∧
      Session.mocks (self c') =
        Session.mocks (self c) ++ [OwnedMock.Make k (unregister (session_key source c))]
  | Err _ => False
  | Panic _ => registry_ok (slots c') ∧
      (∀ th a, registered th a (slots c') = registered th a (slots c)) ∧
      Session.mocks (self c') = Session.mocks (self c)
  | Abort => True
  end.
Proof.
  intros Hok. unfold mock_async. unfold mbind at 1, M_bind at 1, in_world at 1. simpl.
  set (k := length (mocks (world c))). set (wd := at_mocks _ (world c)).
  set (c1 := mkScope (self c) (thread c) (proc c) wd (slots c)).
  unfold mbind at 1, M_bind at 1, gets at 1. unfold mbind at 1, M_bind at 1, gets at 1.
  change (is_local c1) with (is_local c). change (thread c1) with (thread c).
  fold (session_key source c). set (key := session_key source c).
  unfold mbind at 1, M_bind at 1, checked at 1, in_slots at 1.
  destruct (register key k output (slots c1)) as [o1 x1] eqn:H1.
  pose proof (register_run _ _ _ _ _ _ Hok H1) as Hr.
  destruct o1 as [[]|e| |]; try done; simpl.
  2:{ destruct Hr as [-> _]. intros [= <- <-]. simpl. done. }
  destruct Hr as (Hok1 & _ & Hseen & Hok2 & Hback).
  unfold mbind at 1, M_bind at 1, checked at 1.
  match goal with |- context [install_mock source target ?m ?c2] =>
    destruct (install_mock source target m c2) as [o2 c3] eqn:H2 end.
  pose proof (install_mock_slots _ _ _ _ _ _ H2) as Hi. simpl in Hi.
  destruct o2 as [[]|e|msg|]; simpl; intros [= <- <-].
  - destruct Hi as (_ & -> & ->). done.
  - destruct Hi as [-> ->]. done.
  - destruct Hi as [-> ->]. done.
  - done.
Qed.
End install.

Section local_install.
Context {P V : Type} `{!Platform P, !View P, !PlatformLaws P, !Pages P, !PagesLaws P, !Code, !CodeLaws}.
Implicit Types c : scope P AsyncRule.t (registries V).

(** [mock_async] in a local session keeps its invariant. *)
Lemma mock_async_local_ok th source target name output c o c' :
  local_ok any_code th c → outside_pages (proc c) source →
  mock_async source target name output c = (o, c') → o ≠ Abort → local_ok any_code th c'.
Proof.
  intros Hok Hout. unfold mock_async. unfold mbind at 1, M_bind at 1, in_world at 1. simpl.
  unfold mbind at 1, M_bind at 1, gets at 1. unfold mbind at 1, M_bind at 1, gets at 1.
  unfold mbind at 1, M_bind at 1, checked at 1, in_slots at 1.
  destruct (register _ _ output _) as [o1 x1].
  destruct o1 as [[]|e|m|]; simpl; intros Hrun Hna; try (injection Hrun as <- <-; by eapply local_ok_frame).
  revert Hrun. unfold mbind at 1, M_bind at 1, checked at 1.
  match goal with |- context [install_mock source target ?m ?c2] =>
    assert (local_ok any_code th c2) as Hok2 by (by eapply local_ok_frame);
    destruct (install_mock source target m c2) as [o2 c3] eqn:H2 end.
  intros Hrun. assert (o2 ≠ Abort) as Hna2 by (intros ->; by injection Hrun as <- _).
  assert (c' = c3) as -> by (destruct o2; by injection Hrun).
  refine (proj1 (own_step_ok any_code th _ _ Hok2 _)). by eapply (own_mock any_code).
Qed.
End local_install.

(** ** A run on the example machine *)

Module AsyncDemo.
Definition empty : registries Z := mkRegistries [] ∅ false [].
Definition opened : scope Machine.t AsyncRule.t (registries Z) :=
  session_start 0 RouteDemo.start world_empty empty.

(** A future mocked to answer 5. *)
Definition mocked : scope Machine.t AsyncRule.t (registries Z) :=
  (mock_async RouteDemo.function RouteDemo.fake "future" 0 opened).2.
Definition expecting : scope Machine.t AsyncRule.t (registries Z) :=
  (return_once (AsyncMock.expect (AsyncMock.Make 0)) 5 mocked).2.

Lemma empty_ok : registry_ok empty.
Proof. split; simpl; [constructor|intros; constructor|done]. Qed.

Lemma expecting_ok : world_ok (world expecting).
Proof.
  assert (world expecting = (add 0 (Config.Make (Some (CallCount.from_usize 1)) None)
    (λ meta, AsyncRule.Make meta 0) (state_new "future" world_empty).2).2) as ->
    by (vm_compute; reflexivity).
  apply world_ok_add; [apply world_ok_state_new, world_ok_empty| |done|done].
  apply (Config.built_for_once Config.default); [constructor|reflexivity].
Qed.

(** The same in a local session of thread 0. *)
Definition opened_local : scope Machine.t AsyncRule.t (registries Z) :=
  local_start 0 RouteDemo.start world_empty empty.
Definition mocked_local : scope Machine.t AsyncRule.t (registries Z) :=
  (mock_async RouteDemo.function RouteDemo.fake "future" 0 opened_local).2.
Definition expecting_local : scope Machine.t AsyncRule.t (registries Z) :=
  (return_once (AsyncMock.expect (AsyncMock.Make 0)) 5 mocked_local).2.

Lemma mocked_local_ok : local_ok any_code 0 mocked_local.
Proof.
  assert (is_ok (mock_async RouteDemo.function RouteDemo.fake "future" 0 opened_local).1 = true) as Hok
    by (vm_compute; reflexivity).
  destruct (mock_async RouteDemo.function RouteDemo.fake "future" 0 opened_local) as [o c] eqn:H.
  replace mocked_local with c by (unfold mocked_local; by rewrite H).
  refine (mock_async_local_ok 0 _ _ _ _ opened_local o c _ RouteDemo.start_outside H _); [|by destruct o].
  exact (local_ok_start any_code 0 RouteDemo.start world_empty empty (routing_ok_start _)
    (λ _ _ _ _, I) (ex_intro _ [] eq_refl) (λ _, eq_refl)).
Qed.

Lemma expecting_local_proc : proc expecting_local = proc mocked_local.
Proof.
  unfold expecting_local, return_once, returning_once, returning, in_slots, in_world, checked.
  unfold mbind, M_bind, lift. simpl. by destruct (add _ _ _ _) as [[]].
Qed.

Lemma expecting_local_ok : routing_ok (proc expecting_local).
Proof. rewrite expecting_local_proc. apply (loc_routing _ _ _ mocked_local_ok). Qed.

Lemma expecting_local_world : world_ok (world expecting_local).
Proof.
  assert (world expecting_local = world expecting) as -> by (vm_compute; reflexivity).
  apply expecting_ok.
Qed.
End AsyncDemo.

Lemma async_registry_roundtrip_witness :
  ∃ x', register (4096, Some 2%nat) 7 0 AsyncDemo.empty = (Ok tt, x') ∧
    registered 2 4096 x' = Some (RegistryEntry.Make 4096 7 0) ∧ registered 1 4096 x' = None.
Proof.
  destruct (register (4096, Some 2%nat) 7 0 AsyncDemo.empty) as [o x'] eqn:H.
  pose proof (async_registry_roundtrip _ _ _ _ _ _ AsyncDemo.empty_ok H) as Hr.
  destruct o as [[]|e|m|]; [|apply (f_equal (is_ok ∘ fst)) in H; vm_compute in H; discriminate H..].
  destruct Hr as (_ & _ & Hs & _ & _). exists x'. split; [reflexivity|].
  split; rewrite Hs; vm_compute; reflexivity.
Defined.

Lemma mock_async_correct_witness :
  ∃ c', mock_async RouteDemo.function RouteDemo.fake "future" 0 AsyncDemo.opened =
      (Ok (AsyncMock.Make 0), c') ∧
    registered 3 RouteDemo.function (slots c') = Some (RegistryEntry.Make RouteDemo.function 0 0).
Proof.
  destruct (mock_async RouteDemo.function RouteDemo.fake "future" 0 AsyncDemo.opened)
    as [o c'] eqn:H.
  pose proof (mock_async_correct _ _ _ _ AsyncDemo.opened _ _ AsyncDemo.empty_ok H) as Hm.
  destruct o as [[k]|e|m|]; [|apply (f_equal (is_ok ∘ fst)) in H; vm_compute in H; discriminate H..].
  destruct Hm as (Hk & _ & Hs & _). cbn [AsyncMock.state] in Hk, Hs. subst k. exists c'. split; [reflexivity|]. rewrite Hs.
  vm_compute. reflexivity.
Defined.

(** A poll that the mock of thread 0 answers; and one on thread 1, which has no
    mock and goes to the saved original. *)
Lemma poll_mock_correct_witness :
  (∃ c', poll_mock 0 RouteDemo.function RouteDemo.fake 0 AsyncDemo.expecting_local =
      (Ok (Ready 5), c') ∧ proc c' = proc AsyncDemo.expecting_local) ∧
  ∃ o c', poll_mock 1 RouteDemo.function RouteDemo.fake 0 AsyncDemo.expecting_local = (o, c') ∧
    is_ok o = true ∧ polls_original AsyncDemo.expecting_local 1 RouteDemo.fake o c'.
Proof.
  assert (∀ th, (th < 2)%nat → is_Some (local_routes th (proc AsyncDemo.expecting_local))) as Hl.
  { intros th Hth. assert (bool_decide (is_Some (local_routes th (proc AsyncDemo.expecting_local))) = true)
      as Hb by (destruct th as [|[|]]; [vm_compute; reflexivity..|lia]).
    exact (bool_decide_eq_true_1 _ Hb). }
  split.
  - destruct (poll_mock 0 RouteDemo.function RouteDemo.fake 0 AsyncDemo.expecting_local)
      as [o c'] eqn:H.
    pose proof (poll_mock_correct _ _ _ _ _ _ _ AsyncDemo.expecting_local_ok (Hl 0%nat ltac:(lia))
      AsyncDemo.expecting_local_world H) as Hp.
    assert (registered 0 RouteDemo.function (slots AsyncDemo.expecting_local) =
      Some (RegistryEntry.Make RouteDemo.function 0 0)) as Hreg by (vm_compute; reflexivity).
    rewrite Hreg in Hp. cbn [RegistryEntry.output RegistryEntry.state Nat.eqb] in Hp.
    assert (mocks (world AsyncDemo.expecting_local) !! 0%nat =
      Some (State.Make "future" true [AsyncRule.Make 0 0] None)) as Hs by (vm_compute; reflexivity).
    assert (o = Ok (Ready 5)) as -> by (apply (f_equal fst) in H; vm_compute in H; symmetry; exact H).
    destruct (Hp _ Hs) as [Ho|(_ & Hproc & _)].
    + intros r Hr. apply list_elem_of_singleton in Hr as ->. eexists. vm_compute. reflexivity.
    + discriminate Ho.
    + exists c'. split; [reflexivity|exact Hproc].
  - destruct (poll_mock 1 RouteDemo.function RouteDemo.fake 0 AsyncDemo.expecting_local)
      as [o c'] eqn:H.
    pose proof (poll_mock_correct _ _ _ _ _ _ _ AsyncDemo.expecting_local_ok (Hl 1%nat ltac:(lia))
      AsyncDemo.expecting_local_world H) as Hp.
    assert (registered 1 RouteDemo.function (slots AsyncDemo.expecting_local) = None) as Hreg
      by (vm_compute; reflexivity).
    rewrite Hreg in Hp. exists o, c'. split; [reflexivity|]. split; [|exact Hp].
    apply (f_equal (is_ok ∘ fst)) in H. vm_compute in H. symmetry. exact H.
Defined.
