(* ===== verification/Mock.v ===== *)
(** * The code [mock!] and [replace!] expand to ([src/macros/src/lib.rs],
      [src/src/lib.rs])

    One use of [mock!] expands to a site: the statics that point to its mock,
    the function the patch jumps to ([__shimforge_call]), the builder of
    expectations, and the installation.  The function arguments are one value
    of type [A], its result is of type [V]. *)

From S2P Require Import Prelude Errors Memory Executable X86 Code Routing Expectations Session Calls.

#[local] Open Scope Z_scope.
#[local] Set Default Proof Using "Type*".

(** [__ShimforgeRule]; [action] points to the [__ShimforgeAction] behind its
    mutex. *)
Module ShimforgeRule.
Record t (A : Type) := Make { meta : nat; matcher : A → bool; action : nat }.
Arguments Make {A}. Arguments meta {A}. Arguments matcher {A}. Arguments action {A}.
End ShimforgeRule.

#[export] Instance shimforge_rule {A} : Rule (ShimforgeRule.t A) := ShimforgeRule.meta.

(** [__ShimforgeAction].  A boxed [FnMut] answers from its arguments and from
    the calls it had before; a boxed [FnOnce] is taken by its call. *)
Inductive ShimforgeAction (A V : Type) :=
| Repeat (respond : list A → A → result V) (history : list A)
| Once (action : option (A → result V)).
Arguments Repeat {A V}. Arguments Once {A V}.

(** The statics of a site, [__SHIMFORGE_LOCAL] of every thread, and the
    actions of its rules. *)
Record site (A V : Type) := mkSite {
  SHIMFORGE_LOCAL : gmap nat nat;
  SHIMFORGE_GLOBAL : option nat;
  SHIMFORGE_GLOBAL_ACTIVE : bool;
  mock_actions : list (ShimforgeAction A V) }.
Arguments mkSite {A V}. Arguments SHIMFORGE_LOCAL {A V}. Arguments SHIMFORGE_GLOBAL {A V}.
Arguments SHIMFORGE_GLOBAL_ACTIVE {A V}. Arguments mock_actions {A V}.

Section statics.
Context {A V : Type}.
Implicit Types x : site A V.

Definition set_local_slot (thread : nat) (slot : option nat) x : site A V :=
  mkSite (partial_alter (λ _, slot) thread (SHIMFORGE_LOCAL x)) (SHIMFORGE_GLOBAL x)
    (SHIMFORGE_GLOBAL_ACTIVE x) (mock_actions x).
Definition set_global_slot (slot : option nat) (active : bool) x : site A V :=
  mkSite (SHIMFORGE_LOCAL x) slot active (mock_actions x).
Definition set_actions (l : list (ShimforgeAction A V)) x : site A V :=
  mkSite (SHIMFORGE_LOCAL x) (SHIMFORGE_GLOBAL x) (SHIMFORGE_GLOBAL_ACTIVE x) l.

(** The mock [__shimforge_call] finds on a thread. *)
Definition site_state (thread : nat) x : option nat :=
  match SHIMFORGE_LOCAL x !! thread with
  | Some state => Some state
  | None => if SHIMFORGE_GLOBAL_ACTIVE x then SHIMFORGE_GLOBAL x else None
  end.

(** [__shimforge_set]. *)
Definition shimforge_set (state : nat) (slot : option nat) : result (option nat) :=
  match slot with
  | Some _ => Err (error "mock site is already active")
  | None => Ok (Some state)
  end.

(** Filling the slot of the session's thread, or the one of all threads. *)
Definition activate (owner : option nat) (state : nat) : M Error (site A V) unit :=
  match owner with
  | Some thread =>
      slot ← gets (λ x, SHIMFORGE_LOCAL x !! thread);
      slot ← lift (shimforge_set state slot);
      modify (set_local_slot thread slot)
  | None =>
      slot ← gets SHIMFORGE_GLOBAL;
      slot ← lift (shimforge_set state slot);
      active ← gets SHIMFORGE_GLOBAL_ACTIVE;
      modify (set_global_slot slot active);;
      modify (λ x, set_global_slot (SHIMFORGE_GLOBAL x) true x)
  end.

(** [__shimforge_detach]. *)
Definition shimforge_detach (owner : option nat) x : site A V :=
  match owner with
  | Some thread => set_local_slot thread None x
  | None => set_global_slot None false x
  end.

(** A boxed action. *)
Definition mock_action_new (action : ShimforgeAction A V) : M Error (site A V) nat := λ x,
  (Ok (length (mock_actions x)), set_actions (mock_actions x ++ [action]) x).

(** The end of [__shimforge_call]: the action of the rule, under its lock. *)
Definition run_action (args : A) (rule : ShimforgeRule.t A) : M Error (site A V) V := λ x,
  match mock_actions x !! ShimforgeRule.action rule with
  | Some (Repeat respond history) =>
      (respond history args,
       set_actions (<[ShimforgeRule.action rule := Repeat respond (history ++ [args])]>
         (mock_actions x)) x)
  | Some (Once None) => (Panic "one-use return was already used", x)
  | Some (Once (Some action)) =>
      (action args,
       set_actions (<[ShimforgeRule.action rule := Once None]> (mock_actions x)) x)
  | None => (Panic "dangling closure", x)
  end.
End statics.

(** [__ShimforgeBuilder]. *)
Module Builder.
Record t (A : Type) := Make { state : nat; config : Config.t; matcher : A → bool }.
Arguments Make {A}. Arguments state {A}. Arguments config {A}. Arguments matcher {A}.

Definition set_config {A} (config : Config.t) (b : t A) : t A :=
  Make (state b) config (matcher b).

(** [__ShimforgeMock::expect]. *)
Definition expect {A} (state : nat) : t A := Make state Config.default (λ _, true).

(** [with], [times], [once], [in_sequence]. *)
Definition with_matcher {A} (f : A → bool) (b : t A) : t A := Make (state b) (config b) f.
Definition times {A} (count : CallCount.bounds) (b : t A) : t A :=
  set_config (Config.times (config b) count) b.
Definition once {A} (b : t A) : t A := set_config (Config.once (config b)) b.
Definition in_sequence {A} (s : Sequence) (b : t A) : t A :=
  set_config (Config.in_sequence (config b) s) b.
End Builder.

Section operations.
Context {P A V : Type} `{!Platform P, !Pages P, !Code}.
Abbreviation C := (scope P (ShimforgeRule.t A) (site A V)).
Abbreviation T := (M Error C).

(** What a call ends with: an answer of the mock, or a call of the function
    at an address with the same arguments ([__invoke!]). *)
Inductive Called := Answer (v : V) | Invoke (target : Z).

(** [__shimforge_call] on the thread [th]; [dispatcher] is its own address. *)
Definition shimforge_call (th : nat) (dispatcher : Z) (args : A) : T Called :=
  state ← gets (λ c, site_state th (slots c));
  match state with
  | None =>
      target ← in_proc (route th dispatcher);
      target ← lift (expect "mock is not active" target);
      mret (Invoke target)
  | Some state =>
      v ← mocked_call th state (λ rule, ShimforgeRule.matcher rule args) (run_action args);
      mret (Answer v)
  end.

(** The block [mock!] expands to; [name] is [stringify!(source)]. *)
Definition mock (source target : Z) (name : string) : T nat :=
  checked
    (local ← gets is_local;
     th ← gets thread;
     let owner := if local : bool then Some th else None in
     state ← in_world (state_new name);
     in_slots (activate owner state);;
     install_mock source target (OwnedMock.Make state (shimforge_detach owner));;
     mret state).

(** [__ShimforgeMock::verify], [checkpoint]. *)
Definition mock_verify (state : nat) : T unit := checked (in_world (state_verify state)).
Definition mock_checkpoint (state : nat) : T unit := checked (in_world (checkpoint state)).

(** [returning] and [returning_once]: the rule of the builder with an
    action. *)
Definition add_action (b : Builder.t A) (config : Config.t) (action : ShimforgeAction A V)
  : T nat :=
  h ← in_slots (mock_action_new action);
  checked (in_world (add (Builder.state b) config
    (λ meta, ShimforgeRule.Make meta (Builder.matcher b) h))).
Definition mock_returning (respond : list A → A → result V) (b : Builder.t A) : T nat :=
  add_action b (Builder.config b) (Repeat respond []).
Definition mock_returning_once (action : A → result V) (b : Builder.t A) : T nat :=
  config ← lift (check (Config.for_once (Builder.config b)));
  add_action b config (Once (Some action)).

(** [panics], [never], and, for outputs that borrow nothing, [returns],
    [return_once], [returns_default]. *)
Definition mock_panics (message : string) (b : Builder.t A) : T nat :=
  mock_returning (λ _ _, Panic message) b.
Definition mock_never (b : Builder.t A) : T nat :=
  mock_panics "forbidden mock call" (Builder.times (CallCount.Exact 0) b).
Definition mock_returns (value : V) (b : Builder.t A) : T nat :=
  mock_returning (λ _ _, Ok value) b.
Definition mock_return_once (value : V) (b : Builder.t A) : T nat :=
  mock_returning_once (λ _, Ok value) b.
Definition mock_returns_default (default : V) (b : Builder.t A) : T nat :=
  mock_returning (λ _ _, Ok default) b.
End operations.

(** ** [replace!] *)

Section replace.
Context {P R X : Type} `{!Platform P, !Pages P, !Code, !Rule R}.
Abbreviation T := (M Error (scope P R X)).

(** [__replace_local!]: install the generated [__dispatch]. *)
Definition macro_replace_local (source dispatcher target : Z) : T unit :=
  checked (replace_local source dispatcher target).

(** [replace!]. *)
Definition macro_replace (source dispatcher target : Z) : T unit :=
  local ← gets is_local;
  if local : bool then macro_replace_local source dispatcher target
  else replace_raw source target.

(** [__dispatch] on the thread [th]: the address it calls. *)
Definition dispatch (th : nat) (dispatcher : Z) : T Z :=
  target ← in_proc (route th dispatcher);
  lift (expect "replacement is not active" target).
End replace.

(** ** The statics *)

Section statics_proofs.
Context {A V : Type}.
Implicit Types x : site A V.

(** The flag says whether the global slot is filled. *)
Definition site_ok x : Prop :=
  SHIMFORGE_GLOBAL_ACTIVE x = bool_decide (is_Some (SHIMFORGE_GLOBAL x)).

(** What a thread finds after [state] was put into the slot of [owner]. *)
Definition site_seen (owner : option nat) (state : nat) x (th : nat) : option nat :=
  match owner with
  | Some owner => if decide (th = owner) then Some state else site_state th x
  | None => match SHIMFORGE_LOCAL x !! th with Some k => Some k | None => Some state end
  end.

Lemma activate_run x owner state o x' :
  site_ok x → activate owner state x = (o, x') →
  match o with
  | Ok _ => site_ok x' ∧ mock_actions x' = mock_actions x ∧
      (∀ th, site_state th x' = site_seen owner state x th) ∧
      shimforge_detach owner x' = x
  | Err _ => x' = x ∧
      is_Some (match owner with Some th => SHIMFORGE_LOCAL x !! th | None => SHIMFORGE_GLOBAL x end)
  | _ => False
  end.
Proof.
  intros Hok. destruct x as [local global active actions]. unfold site_ok in Hok. simpl in Hok.
  unfold activate, mbind, M_bind, gets, lift, modify. destruct owner as [owner|]; simpl.
  - destruct (local !! owner) as [k|] eqn:Hl; simpl; intros [= <- <-]; [split; [done|by eauto]|].
    unfold set_local_slot. simpl. split_and!; [done|done| |].
    + intros th. unfold site_state. simpl. destruct (decide (th = owner)) as [->|Hne].
      * by rewrite lookup_partial_alter_eq.
      * by rewrite lookup_partial_alter_ne.
    + rewrite partial_alter_partial_alter_eq. f_equal. apply partial_alter_id. by rewrite Hl.
  - destruct global as [k|]; simpl; intros [= <- <-]; [split; [done|by eauto]|].
    split_and!; [done|done|done|]. unfold set_global_slot. simpl. by rewrite Hok.
Qed.
End statics_proofs.

(** ** Calls and installation *)

Section mock.
Context {P A V : Type} `{!Platform P, !Pages P, !Code}.
Abbreviation C := (scope P (ShimforgeRule.t A) (site A V)).
Implicit Types c : C.

(** A call of a mocked function.  A thread without a mock goes where the
    dispatcher is routed, with nothing changed.  With one, the expectations
    decide: the first rule whose matcher accepts the arguments and that is
    not used up answers with its action, or the rejection is recorded and the
    call panics; the original never runs, routes and session are untouched,
    and the list of running mocks is restored on every thread. *)
Theorem mock_call_correct th dispatcher args c o c' :
  world_ok (world c) → shimforge_call th dispatcher args c = (o, c') →
  match site_state th (slots c) with
  | None => ∃ r w', route th dispatcher (proc c) = (r, w') ∧
      c' = mkScope (self c) (thread c) w' (world c) (slots c) ∧
      o = (r ← r; Invoke <$> expect "mock is not active" r)
  | Some k =>
      ∀ s, mocks (world c) !! k = Some s → State.active s = true →
        k ∉ calls_of th (world c) →
        o = Abort ∨
        ∃ v wd1, o = Answer <$> v ∧
          answers c k s th (λ r, ShimforgeRule.matcher r args) (run_action args) v wd1 (slots c') ∧
          world c' = (guard_drop th k wd1).2 ∧
          self c' = self c ∧ proc c' = proc c ∧
          ∀ th', calls_of th' (world c') = calls_of th' (world c)
  end.
Proof.
  intros Hw. unfold shimforge_call. unfold mbind at 1, M_bind at 1, gets at 1.
  destruct (site_state th (slots c)) as [k|].
  - unfold mbind at 1, M_bind at 1. intros Hrun s Hs Ha Hk.
    destruct (mocked_call_run th k s (λ r, ShimforgeRule.matcher r args) (run_action args) c)
      as (v & wd1 & x & Hans & Hcall); [done..|].
    rewrite Hcall in Hrun. pose proof (answers_active _ _ _ _ _ _ _ _ _ Hans) as Hact.
    destruct v as [v|e|m|]; injection Hrun as <- <-; [right..|by left];
      (eexists _, wd1; split_and!; [|exact Hans|done|done|done|by apply guard_restores]; done).
  - unfold mbind at 1, M_bind at 1, in_proc. destruct (route th dispatcher (proc c)) as [r w'] eqn:Hr.
    intros Hrun. exists r, w'. split; [done|].
    destruct r as [[t|]|err|m|]; by injection Hrun as <- <-.
Qed.

(** The owner of a session's mocks. *)
Definition session_owner c : option nat := if is_local c then Some (thread c) else None.

(** The run of [mock!]. *)
Lemma mock_run source target name c o c' :
  site_ok (slots c) → mock source target name c = (o, c') →
  match o with
  | Ok k => (k = length (mocks (world c)) ∧ world c' = (state_new name (world c)).2) ∧ site_ok (slots c') ∧
      mock_actions (slots c') = mock_actions (slots c) ∧
      (∀ th, site_state th (slots c') = site_seen (session_owner c) k (slots c) th) ∧
      shimforge_detach (session_owner c) (slots c') = slots c ∧
      Session.mocks (self c') =
        Session.mocks (self c) ++ [OwnedMock.Make k (shimforge_detach (session_owner c))]
  | Err _ => False
  | Panic _ => slots c' = slots c ∧ Session.mocks (self c') = Session.mocks (self c)
  | Abort => True
  end.
Proof.
  intros Hok. unfold mock, checked. unfold mbind at 1, M_bind at 1, gets at 1.
  unfold mbind at 1, M_bind at 1, gets at 1. fold (session_owner c).
  set (owner := session_owner c). unfold mbind at 1, M_bind at 1, in_world at 1. simpl.
  set (k := length (mocks (world c))). unfold mbind at 1, M_bind at 1, in_slots at 1. simpl.
  destruct (activate owner k (slots c)) as [o1 x1] eqn:H1.
  apply activate_run in H1; [|done].
  destruct o1 as [[]|e| |]; try done; simpl.
  2:{ destruct H1 as [-> _]. by intros [= <- <-]. }
  destruct H1 as (Hok1 & Ha1 & Hseen & Hback). unfold mbind at 1, M_bind at 1.
  match goal with |- context [install_mock source target ?m ?c2] =>
    destruct (install_mock source target m c2) as [o2 c3] eqn:H2 end.
  apply install_mock_slots in H2. simpl in H2.
  destruct o2 as [[]|e|msg|]; simpl; intros [= <- <-]; try done.
  - destruct H2 as (-> & -> & ->). done.
  - destruct H2 as [-> ->]. done.
  - destruct H2 as [-> ->]. done.
Qed.
(** C29. [mock!] leaves an active site whose mock the session owns: the threads
    the session is for find the mock, the others what they found before, and
    the closure the session will run takes exactly that back.  A failed
    installation panics and leaves the statics and the session's mocks as
    they were; in particular a site that is active already keeps its mock. *)
Theorem mock_site_correct source target name c o c' :
  site_ok (slots c) → mock source target name c = (o, c') →
  match o with
  | Ok k => k = length (mocks (world c)) ∧ site_ok (slots c') ∧
      mock_actions (slots c') = mock_actions (slots c) ∧
      (∀ th, site_state th (slots c') = site_seen (session_owner c) k (slots c) th) ∧
      shimforge_detach (session_owner c) (slots c') = slots c ∧
      Session.mocks (self c') =
        Session.mocks (self c) ++ [OwnedMock.Make k (shimforge_detach (session_owner c))]
  | Err _ => False
  | Panic _ => slots c' = slots c ∧ Session.mocks (self c') = Session.mocks (self c)
  | Abort => True
  end.
Proof.
  intros Hok Hrun. pose proof (mock_run _ _ _ _ _ _ Hok Hrun) as Hm.
  destruct o; try done. by destruct Hm as ([-> _] & Hm).
Qed.
End mock.

(** ** One-shot responses

    Calls on different threads interleave between taking an expectation
    ([Meta::claim]) and running its action: [pending] holds the rules that
    were taken and whose action has not run yet, [made] the rules that were
    ever added.  Everything else that runs meanwhile leaves the call counts
    alone. *)

Section once.
Context {P A V : Type} `{!Platform P, !Pages P, !Code}.
Abbreviation C := (scope P (ShimforgeRule.t A) (site A V)).
Abbreviation rule := (ShimforgeRule.t A).
Abbreviation running := (C * list rule * list rule)%type.
Implicit Types (c : C) (r : rule).

Definition in_world_of (w : World rule) c : C :=
  mkScope (self c) (thread c) (proc c) w (slots c).
Definition in_slots_of (x : site A V) c : C :=
  mkScope (self c) (thread c) (proc c) (world c) x.

(** A configuration a test can write. *)
Definition config_ok c (config : Config.t) : Prop :=
  Config.built config ∧
  ∀ sq, Config.sequence config = Some sq → is_Some (sequences (world c) !! sq).

(** The rules after an expectation was added. *)
Definition added (b : Builder.t A) c (o : result nat) (made : list rule) : list rule :=
  match o with
  | Ok i => made ++ [ShimforgeRule.Make i (Builder.matcher b) (length (mock_actions (slots c)))]
  | _ => made
  end.

Inductive run_step : running → running → Prop :=
| run_returning c made pending b respond o c' :
    config_ok c (Builder.config b) → mock_returning respond b c = (o, c') →
    run_step (c, made, pending) (c', added b c o made, pending)
| run_returning_once c made pending b action o c' :
    config_ok c (Builder.config b) → mock_returning_once action b c = (o, c') →
    run_step (c, made, pending) (c', added b c o made, pending)
| run_claim c made pending r o w :
    r ∈ made → claim (meta r) (world c) = (o, w) →
    run_step (c, made, pending)
      (in_world_of w c, made, match o with Ok Taken => r :: pending | _ => pending end)
| run_act c made pre r post args o x :
    run_action args r (slots c) = (o, x) →
    run_step (c, made, pre ++ r :: post) (in_slots_of x c, made, pre ++ post)
| run_other c made pending w s p th :
    step (world c) w → metas w = metas (world c) →
    run_step (c, made, pending) (mkScope s th p w (slots c), made, pending).

(** How many taken calls of a rule have yet to run its action. *)
Definition waiting r (pending : list rule) : nat :=
  length (filter (λ q, ShimforgeRule.action q = ShimforgeRule.action r) pending).

(** A one-shot action: its expectation admits one call, and the calls that
    were taken pay for the ones that wait and for the response that is
    gone. *)
Definition action_ok (w : World rule) (pending : list rule) r (a : ShimforgeAction A V) : Prop :=
  match a with
  | Repeat _ _ => True
  | Once f => ∃ m k, metas w !! meta r = Some m ∧ CallCount.max (Meta.count m) = Some k ∧ k ≤ 1 ∧
      Z.of_nat (waiting r pending) + (if f then 0 else 1) ≤ Meta.calls m
  end.

Record run_ok (s : running) : Prop := {
  run_world : world_ok (world s.1.1);
  run_metas r : r ∈ s.1.2 → is_Some (metas (world s.1.1) !! meta r);
  run_actions r : r ∈ s.1.2 → ∃ a, mock_actions (slots s.1.1) !! ShimforgeRule.action r = Some a ∧
    action_ok (world s.1.1) s.2 r a;
  run_same_action r r' : r ∈ s.1.2 → r' ∈ s.1.2 →
    ShimforgeRule.action r = ShimforgeRule.action r' → r = r';
  run_same_meta r r' : r ∈ s.1.2 → r' ∈ s.1.2 → meta r = meta r' → r = r';
  run_pending r : r ∈ s.2 → r ∈ s.1.2 }.

Lemma waiting_cons_ne r q pending :
  ShimforgeRule.action q ≠ ShimforgeRule.action r → waiting r (q :: pending) = waiting r pending.
Proof. intros Hne. unfold waiting. by rewrite filter_cons_False. Qed.

Lemma waiting_cons_eq r pending : waiting r (r :: pending) = S (waiting r pending).
Proof. unfold waiting. by rewrite filter_cons_True. Qed.

Lemma waiting_fresh r pending :
  (∀ q, q ∈ pending → ShimforgeRule.action q ≠ ShimforgeRule.action r) → waiting r pending = 0%nat.
Proof.
  induction pending as [|q pending IH]; [done|]. intros Hq.
  rewrite waiting_cons_ne by (apply Hq; by left). apply IH. intros. apply Hq. by right.
Qed.

Lemma waiting_middle r pre q post :
  waiting r (pre ++ q :: post) = waiting r (q :: pre ++ post).
Proof.
  unfold waiting. rewrite filter_app, !filter_cons, filter_app.
  case_decide; rewrite ?length_app; simpl; rewrite ?length_app; lia.
Qed.

Lemma action_ok_grows w w' pending r a :
  grows w w' → action_ok w pending r a → action_ok w' pending r a.
Proof.
  intros Hg. destruct a as [|f]; [done|]. intros (m & k & Hm & Hk & Hle & Hc).
  destruct (grows_metas _ _ Hg _ _ Hm) as (m' & Hm' & Hcnt & Hcalls).
  exists m', k. split_and!; [done|congruence|done|lia].
Qed.

(** Anything that only lets the world grow keeps the rest. *)
Lemma run_ok_grows c made pending s th p w :
  run_ok (c, made, pending) → world_ok w → grows (world c) w →
  run_ok (mkScope s th p w (slots c), made, pending).
Proof.
  intros [Hw Hm Ha Hsa Hsm Hp] Hw' Hg. split; simpl in *; [done| |..|done|done|done].
  - intros r Hr. destruct (Hm r Hr) as [m Hi].
    destruct (grows_metas _ _ Hg _ _ Hi) as (m' & Hi' & _). eauto.
  - intros r Hr. destruct (Ha r Hr) as (a & Hi & Hok). exists a.
    split; [done|by eapply action_ok_grows].
Qed.

(** A new rule with a new action. *)
Lemma run_ok_add c made pending b config action o c' :
  run_ok (c, made, pending) → config_ok c config →
  (∀ f, action = Once f → ∃ x, f = Some x) →
  (∀ f, action = Once f → ∃ n m, Config.count config = Some (CallCount.Make n (Some m)) ∧ m ≤ 1) →
  add_action b config action c = (o, c') → run_ok (c', added b c o made, pending).
Proof.
  intros Hok [Hb Hsq] Hsome Honce. unfold add_action, checked.
  unfold mbind at 1, M_bind at 1, in_slots at 1. simpl.
  set (h := length (mock_actions (slots c))).
  set (x := set_actions _ (slots c)). set (c1 := mkScope (self c) (thread c) (proc c) (world c) x).
  set (make := λ meta, ShimforgeRule.Make meta (Builder.matcher b) h).
  assert (run_ok (c1, made, pending)) as Hok1.
  { destruct Hok as [Hw Hm Ha Hsa Hsm Hp]. split; simpl in *; try done.
    intros r Hr. destruct (Ha r Hr) as (a & Hi & ?). exists a.
    split; [by apply lookup_app_l_Some|done]. }
  assert (∀ r, r ∈ made → (ShimforgeRule.action r < h)%nat) as Hold.
  { intros r Hr. destruct (run_actions _ Hok r Hr) as (a & Hi & _). by eapply lookup_lt_Some. }
  unfold in_world. change (world c1) with (world c).
  destruct (add (Builder.state b) config make (world c)) as [o1 w1] eqn:Hadd.
  pose proof (world_ok_add (world c) (Builder.state b) config make (run_world _ Hok) Hb
    (λ _, eq_refl) Hsq) as Hw1. rewrite Hadd in Hw1. simpl in Hw1.
  pose proof (grows_add (world c) (Builder.state b) config make Hsq) as Hg.
  rewrite Hadd in Hg. simpl in Hg.
  pose proof (run_ok_grows c1 made pending (self c1) (thread c1) (proc c1) w1 Hok1 Hw1 Hg) as Hok2.
  destruct o1 as [i|e|m|]; intros [= <- <-]; try exact Hok2. unfold added. fold h.
  destruct (add_new _ _ _ _ _ _ Hsq Hadd) as (-> & count & m & Hv & Hm & Hcm & Hcalls).
  set (r0 := ShimforgeRule.Make (length (metas (world c))) (Builder.matcher b) h).
  assert (∀ r, r ∈ made → (meta r < length (metas (world c)))%nat) as Hmold.
  { intros r Hr. destruct (run_metas _ Hok r Hr). by eapply lookup_lt_Some. }
  assert (∀ r, r ∈ pending → r ∈ made) as Hp by apply Hok.
  destruct Hok2 as [_ Hm2 Ha2 Hsa2 Hsm2 _]. split; cbn [fst snd world slots] in *; [done|..].
  - intros r [Hr| ->%list_elem_of_singleton]%elem_of_app; [by apply Hm2|]. by exists m.
  - intros r [Hr| ->%list_elem_of_singleton]%elem_of_app; [by apply Ha2|].
    exists action. split; [by apply list_lookup_middle|]. destruct action as [|f]; [done|].
    destruct (Hsome f eq_refl) as [g ->].
    destruct (Honce _ eq_refl) as (n & x0 & Hc & Hx).
    destruct (Config.config_validate_Ok _ _ Hv) as [Hcount _]. rewrite Hc in Hcount.
    exists m, x0. rewrite Hcm, Hcount, Hcalls. split_and!; [done|done|done|].
    assert (waiting r0 pending = 0%nat) as ->; [|done].
    apply waiting_fresh. intros q Hq%Hp%Hold. simpl. lia.
  - intros r r' [Hr| ->%list_elem_of_singleton]%elem_of_app
      [Hr'| ->%list_elem_of_singleton]%elem_of_app; [by apply Hsa2|..|done]; simpl; intros E.
    + specialize (Hold r Hr). lia.
    + specialize (Hold r' Hr'). lia.
  - intros r r' [Hr| ->%list_elem_of_singleton]%elem_of_app
      [Hr'| ->%list_elem_of_singleton]%elem_of_app; [by apply Hsm2|..|done]; intros E.
    + specialize (Hmold r Hr). unfold meta, shimforge_rule in *. simpl in *. lia.
    + specialize (Hmold r' Hr'). unfold meta, shimforge_rule in *. simpl in *. lia.
  - intros r Hr. apply elem_of_app. left. by apply Hp.
Qed.

(** Taking a call: it is counted for the rule that waits from now on. *)
Lemma run_ok_claim c made pending r o w :
  run_ok (c, made, pending) → r ∈ made → claim (meta r) (world c) = (o, w) →
  run_ok (in_world_of w c, made, match o with Ok Taken => r :: pending | _ => pending end).
Proof.
  intros Hok Hr Hclaim. destruct (run_metas _ Hok r Hr) as [m Hm]. simpl in Hm.
  pose proof (run_world _ Hok) as Hw. simpl in Hw.
  destruct (claim_correct _ _ _ Hw Hm) as (o' & w' & Hrun & Hspec). rewrite Hclaim in Hrun.
  injection Hrun as <- <-.
  pose proof (world_ok_claim _ _ Hw (ex_intro _ m Hm)) as Hw1. rewrite Hclaim in Hw1. simpl in Hw1.
  pose proof (grows_claim _ _ _ _ _ Hw Hm Hspec) as Hg.
  pose proof (run_ok_grows c made pending (self c) (thread c) (proc c) w Hok Hw1 Hg) as Hok1.
  destruct o as [[]|e|msg|]; try exact Hok1.
  assert (w = count_call (meta r) m (world c)) as -> by (by inversion Hspec).
  destruct Hok1 as [_ Hm1 Ha1 Hsa Hsm Hp]. split; simpl in *; [done|done| |done|done|].
  2:{ intros q [->|Hq]%elem_of_cons; [done|by apply Hp]. }
  intros q Hq. destruct (run_actions _ Hok q Hq) as (a & Hi & Ha). simpl in Hi, Ha.
  exists a. split; [done|]. destruct (decide (ShimforgeRule.action r = ShimforgeRule.action q)) as [E|E].
  - assert (q = r) as -> by (symmetry; by apply Hsa). destruct a as [|f]; [done|].
    destruct Ha as (m0 & k & Hm0 & Hk & Hle & Hc). simplify_eq.
    exists (Meta.set_calls (Meta.calls m + 1) m), k. rewrite waiting_cons_eq. simpl.
    split_and!; [|done|done|lia]. apply metas_count_call. left. split_and!; [done|done|].
    by eapply lookup_lt_Some.
  - eapply (action_ok_grows _ _ _ _ _ Hg) in Ha. destruct a as [|f]; [done|].
    unfold action_ok. by rewrite waiting_cons_ne.
Qed.

(** The response of a rule that was taken is there. *)
Lemma waiting_response c made pre r post :
  run_ok (c, made, pre ++ r :: post) →
  ∃ a, mock_actions (slots c) !! ShimforgeRule.action r = Some a ∧ a ≠ Once None.
Proof.
  intros Hok. assert (r ∈ made) as Hr.
  { apply (run_pending _ Hok). simpl. apply elem_of_app. right. by left. }
  destruct (run_actions _ Hok r Hr) as (a & Hi & Ha). simpl in Hi, Ha. exists a.
  split; [done|]. intros ->. destruct Ha as (m & k & Hm & Hk & Hle & Hc).
  destruct (ok_metas _ (run_world _ Hok) _ _ Hm) as (_ & _ & Hmax). specialize (Hmax _ Hk).
  rewrite waiting_middle, waiting_cons_eq in Hc. lia.
Qed.

Lemma run_ok_act c made pre r post args o x :
  run_ok (c, made, pre ++ r :: post) → run_action args r (slots c) = (o, x) →
  run_ok (in_slots_of x c, made, pre ++ post).
Proof.
  intros Hok Hrun. destruct (waiting_response _ _ _ _ _ Hok) as (a & Hi & Hne).
  assert (∃ a', x = set_actions (<[ShimforgeRule.action r := a']> (mock_actions (slots c))) (slots c) ∧
    match a with Repeat _ _ => ∃ f h, a' = Repeat f h | Once _ => a' = Once None end)
    as (a' & -> & Ha').
  { unfold run_action in Hrun. rewrite Hi in Hrun.
    destruct a as [f h|[f|]]; [..|done]; injection Hrun as _ <-; eauto. }
  destruct Hok as [Hw Hm Ha Hsa Hsm Hp]. simpl in *.
  assert (r ∈ made) as Hr by (apply Hp, elem_of_app; right; by left).
  split; simpl; [done|done| |done|done|].
  2:{ intros q Hq. apply Hp. apply elem_of_app in Hq as [?|?]; apply elem_of_app; [by left|].
      right. by right. }
  intros q Hq. destruct (Ha q Hq) as (b & Hb & Hok).
  destruct (decide (ShimforgeRule.action r = ShimforgeRule.action q)) as [E|E].
  - assert (q = r) as -> by (symmetry; by apply Hsa). rewrite Hi in Hb. injection Hb as <-. exists a'.
    split; [apply list_lookup_insert_eq; by eapply lookup_lt_Some|].
    destruct a as [f h|[f|]]; [|subst a'|done]; [by destruct Ha' as (? & ? & ->)|].
    destruct Hok as (m & k & Hm0 & Hk & Hle & Hc). exists m, k. split_and!; [done..|].
    rewrite waiting_middle, waiting_cons_eq in Hc. lia.
  - exists b. rewrite list_lookup_insert_ne by done. split; [done|]. destruct b as [|f]; [done|].
    destruct Hok as (m & k & Hm0 & Hk & Hle & Hc). exists m, k. split_and!; [done..|].
    by rewrite waiting_middle, waiting_cons_ne in Hc.
Qed.

Lemma run_ok_step s s' : run_ok s → run_step s s' → run_ok s'.
Proof.
  intros Hok Hst. destruct Hst as [c made pending b respond o c' Hc Hrun|
    c made pending b action o c' Hc Hrun|c made pending r o w Hr Hrun|
    c made pre r post args o x Hrun|c made pending w s p th Hstep Hm].
  - by eapply run_ok_add; [..|exact Hrun].
  - unfold mock_returning_once in Hrun. unfold mbind at 1, M_bind at 1, lift at 1 in Hrun.
    destruct (Config.for_once (Builder.config b)) as [config|e|msg|] eqn:Ho; simpl in Hrun;
      [|by injection Hrun as <- <-..].
    destruct (Config.for_once_Ok _ _ Ho) as (n & m & Hcount & Hle & Hseq & _).
    destruct Hc as [Hb Hsq].
    eapply run_ok_add; [exact Hok| | | |exact Hrun].
    + split; [by eapply Config.built_for_once|]. by rewrite Hseq.
    + intros f [= <-]. eauto.
    + intros f _. exists n, m. split; [done|lia].
  - by apply run_ok_claim.
  - by eapply run_ok_act.
  - apply run_ok_grows; [done| |].
    + by eapply world_ok_step; [apply (run_world _ Hok)|].
    + apply grows_step; [apply (run_world _ Hok)|done].
Qed.

Lemma run_ok_start c : world_ok (world c) → run_ok (c, [], []).
Proof. intros Hw. split; simpl; [done|intros *; by intros ?%not_elem_of_nil..]. Qed.

Lemma run_ok_steps s s' : run_ok s → rtc run_step s s' → run_ok s'.
Proof. intros Hok Hs. induction Hs; eauto using run_ok_step. Qed.

(** A whole call is made of these steps. *)
Lemma mock_call_steps c made pending th dispatcher args k s o c' :
  world_ok (world c) → site_state th (slots c) = Some k →
  mocks (world c) !! k = Some s → State.active s = true → k ∉ calls_of th (world c) →
  (∀ r, r ∈ State.rules s → r ∈ made) →
  shimforge_call th dispatcher args c = (o, c') → o ≠ Abort →
  rtc run_step (c, made, pending) (c', made, pending).
Proof.
  intros Hw Hst Hs Ha Hk Hmade Hrun Hna. unfold shimforge_call in Hrun.
  unfold mbind at 1, M_bind at 1, gets at 1 in Hrun. rewrite Hst in Hrun.
  unfold mbind at 1, M_bind at 1 in Hrun.
  destruct (mocked_call_run th k s (λ r, ShimforgeRule.matcher r args) (run_action args) c)
    as (v & wd1 & x & Hans & Hcall); [done..|]. rewrite Hcall in Hrun.
  assert (c' = mkScope (self c) (thread c) (proc c) (guard_drop th k wd1).2 x) as ->.
  { destruct v; by injection Hrun as <- <-. }
  clear Hcall Hrun Hna.
  set (c1 := in_world_of (entered th k (world c)) c).
  assert (run_step (c, made, pending) (c1, made, pending)) as H1.
  { apply run_other; [|done].
    pose proof (step_try_enter (world c) th k) as Htry. unfold try_enter in Htry.
    unfold mbind at 1, M_bind at 1, gets in Htry. by rewrite bool_decide_false in Htry. }
  assert (∀ c2, world c2 = wd1 → slots c2 = x → self c2 = self c → thread c2 = thread c →
    proc c2 = proc c → run_step (c2, made, pending)
      (mkScope (self c) (thread c) (proc c) (guard_drop th k wd1).2 x, made, pending)) as Hdrop.
  { intros c2 <- <- <- <- <-. apply run_other; [apply step_guard_drop|done]. }
  eapply rtc_l; [exact H1|].
  destruct Hans as [r wd1 v x Hsel Hact|message wd1 Hsel].
  - inversion Hsel as [pre r' post m Hrules _ _ Hm Hclaim _| |]; subst.
    assert (r ∈ made) as Hr by (apply Hmade; rewrite Hrules; apply elem_of_app; right; by left).
    eapply rtc_l; [exact (run_claim c1 made pending r _ _ Hr Hclaim)|].
    eapply rtc_l; [exact (run_act (in_world_of _ c1) made [] r pending args _ _ Hact)|].
    apply rtc_once. by apply Hdrop.
  - inversion Hsel as [|pre r' post m e w' Hrules _ _ Hm Hclaim Hspec|Hall e]; subst.
    + assert (r' ∈ made) as Hr
        by (apply Hmade; rewrite Hrules; apply elem_of_app; right; by left).
      eapply rtc_l; [exact (run_claim c1 made pending r' _ _ Hr Hclaim)|].
      assert (mocks w' !! k = Some s) as Hs' by (by rewrite (claim_mocks _ _ _ _ _ Hspec)).
      pose proof (step_fail w' k e) as Hf. rewrite (state_fail_run w' k s e Hs') in Hf.
      eapply rtc_l;
        [exact (run_other (in_world_of w' c1) made pending _ (self c) (proc c) (thread c) Hf eq_refl)|].
      apply rtc_once. by apply Hdrop.
    + pose proof (step_fail (world c1) k e) as Hf.
      rewrite (state_fail_run (world c1) k s e Hs) in Hf.
      eapply rtc_l;
        [exact (run_other c1 made pending _ (self c) (proc c) (thread c) Hf eq_refl)|].
      apply rtc_once. by apply Hdrop.
Qed.

(** C16. However calls on any threads interleave with each other and with new
    expectations: when a call that an expectation took comes to run its
    action, a one-shot response is still there, so the
    [expect("one-use return was already used")] in the generated function
    never panics; and every call of a mocked function is made of the steps
    that were interleaved. *)
Theorem one_shot_response_available c0 c made pending :
  world_ok (world c0) → rtc run_step (c0, [], []) (c, made, pending) →
  (∀ pre r post, pending = pre ++ r :: post →
     ∃ a, mock_actions (slots c) !! ShimforgeRule.action r = Some a ∧ a ≠ Once None) ∧
  (∀ th dispatcher args k s o c',
     site_state th (slots c) = Some k → mocks (world c) !! k = Some s → State.active s = true →
     k ∉ calls_of th (world c) → (∀ r, r ∈ State.rules s → r ∈ made) →
     shimforge_call th dispatcher args c = (o, c') → o ≠ Abort →
     rtc run_step (c, made, pending) (c', made, pending)).
Proof.
  intros Hw Hsteps. assert (run_ok (c, made, pending)) as Hok.
  { eapply run_ok_steps; [by apply run_ok_start|exact Hsteps]. }
  split.
  - intros pre r post ->. by eapply waiting_response.
  - intros. eapply mock_call_steps; try done. apply (run_world _ Hok).
Qed.
End once.

(** ** [replace!] in a local session *)

Section replace_correct.
Context {P R X : Type} `{!Platform P, !View P, !PlatformLaws P, !Pages P, !PagesLaws P,
                         !Code, !CodeLaws, !Rule R}.
Implicit Types c : scope P R X.

(** [__dispatch] on another thread. *)
Lemma dispatch_routed w w' th source dispatcher target e th' c o c' :
  proc c = w' → routing_ok w' → installed w w' th source dispatcher target e → th' ≠ th →
  is_Some (local_routes th' w) → dispatch th' (Entry.dispatcher e) c = (o, c') →
  routed w th' e (Some <$> o).
Proof.
  intros <- Hw' Hi Hne Hl. unfold dispatch, mbind, M_bind, in_proc.
  destruct (route th' (Entry.dispatcher e) (proc c)) as [r w1] eqn:Hr.
  pose proof (installed_elsewhere _ _ _ _ _ _ _ _ _ _ Hw' Hi Hne Hl Hr) as Hrt.
  destruct r as [[t|]|err|m|]; intros [= <- <-]; try done. exfalso. revert Hrt.
  unfold routed, shared_target. repeat case_match; naive_solver.
Qed.

(** C23. [replace!] in a local session, whatever its thread and the other threads
    did before.  If it returns, a function that had no entry jumps through its
    relay to the generated [__dispatch], and one that had an entry keeps it.
    On the session's thread [__dispatch] calls the target; on every other
    thread it calls what it would have called before, which for a new entry is
    the saved original.  Every other function keeps its routes, and the
    session will take the route back.  If it panics, no route, no mapped byte
    and nothing of the session changed. *)
Theorem macro_replace_correct th w wd x c source dispatcher target o c' :
  routing_ok w → is_Some (local_routes th w) → no_routes th w →
  rtc (local_step any_code) (local_start th w wd x) c → outside_pages (proc c) source →
  macro_replace source dispatcher target c = (o, c') →
  match o with
  | Ok _ => ∃ e, installed (proc c) (proc c') th source dispatcher target e ∧
      code_ok (os (proc c')) e ∧
      (target ≠ Entry.dispatcher e → (dispatch th (Entry.dispatcher e) c').1 = Ok target) ∧
      (∀ th' o1 c1, th' ≠ th → is_Some (local_routes th' (proc c)) →
       dispatch th' (Entry.dispatcher e) c' = (o1, c1) → routed (proc c) th' e (Some <$> o1)) ∧
      self c' = self (set_local_patches (Session.local_patches (self c) ++ [source]) c)
  | Err _ => False
  | Panic _ => not_installed (proc c) (proc c') ∧ self c' = self c
  | Abort => True
  end.
Proof.
  intros Hw Hl Hno Hsteps Hout Hrun.
  pose proof (local_ok_steps any_code th _ c
    (local_ok_start any_code th w wd x Hw (λ _ _ _ _, I) Hl Hno) Hsteps) as Hok.
  unfold macro_replace in Hrun. unfold mbind at 1, M_bind at 1, gets at 1, is_local in Hrun.
  rewrite bool_decide_true in Hrun by apply (loc_lock _ _ _ Hok).
  unfold macro_replace_local, checked, replace_local in Hrun.
  unfold mbind at 1, M_bind at 1, gets at 1 in Hrun. rewrite (loc_thread _ _ _ Hok) in Hrun.
  unfold mbind at 1, M_bind at 1 in Hrun.
  destruct (install_replacement th source dispatcher target (proc c)) as [o1 w1] eqn:H1.
  rewrite (in_proc_run _ _ _ _ H1) in Hrun.
  pose proof (install_replacement_run _ _ _ _ _ _ _ (loc_routing _ _ _ Hok) (loc_access _ _ _ Hok)
    Hout H1) as Hi.
  destruct o1 as [[]|e|m|]; try done; injection Hrun as <- <-.
  - destruct Hi as (Hw1 & e & Hinst). exists e.
    destruct (installed_route _ _ _ _ _ _ _ Hw1 (loc_access _ _ _ Hok) Hinst) as (_ & Hc & Hroute).
    split_and!; [done|done|..|done].
    + intros Hne. specialize (Hroute Hne).
      unfold dispatch, mbind, M_bind, in_proc, modify. simpl.
      destruct (route th (Entry.dispatcher e) w1) as [r w2]. simpl in Hroute. by subst r.
    + intros th' o1 c1 Hne Hl'. by eapply dispatch_routed.
  - by destruct Hi as [_ Hni].
  - done.
Qed.
End replace_correct.

(** ** Runs on the example machine *)

Module MockDemo.
Definition site0 : site Z Z := mkSite ∅ None false [].
Definition opened : scope Machine.t (ShimforgeRule.t Z) (site Z Z) :=
  session_start 0 RouteDemo.start world_empty site0.
Definition opened_local : scope Machine.t (ShimforgeRule.t Z) (site Z Z) :=
  local_start 0 RouteDemo.start world_empty site0.

(** [mock!] of a function, then an answer for arguments above 10, once. *)
Definition mocked : scope Machine.t (ShimforgeRule.t Z) (site Z Z) :=
  (mock RouteDemo.function RouteDemo.fake "read" opened).2.
Definition above : Builder.t Z := Builder.with_matcher (λ n, 10 <? n) (Builder.expect 0).
Definition expecting : scope Machine.t (ShimforgeRule.t Z) (site Z Z) :=
  (mock_return_once 5 above mocked).2.

Lemma expecting_run : mock_return_once 5 above mocked = (Ok 0%nat, expecting).
Proof.
  assert ((mock_return_once 5 above mocked).1 = Ok 0%nat) as Hok by (vm_compute; reflexivity).
  unfold expecting. destruct (mock_return_once 5 above mocked). simpl in Hok. by subst.
Qed.

Lemma mocked_world : world mocked = (state_new "read" world_empty).2.
Proof. vm_compute. reflexivity. Qed.

Lemma mocked_ok : world_ok (world mocked).
Proof. rewrite mocked_world. apply world_ok_state_new, world_ok_empty. Qed.

Definition rule : ShimforgeRule.t Z := ShimforgeRule.Make 0 (Builder.matcher above) 0.

Lemma expecting_steps : rtc run_step (mocked, [], []) (expecting, [rule], []).
Proof.
  assert (added above mocked (Ok 0%nat) [] = [rule]) as <-.
  { unfold added. assert (length (mock_actions (slots mocked)) = 0%nat) as -> by (vm_compute; reflexivity).
    reflexivity. }
  apply rtc_once. eapply (run_returning_once mocked [] [] above).
  - split; [constructor|]. intros sq Hsq. discriminate Hsq.
  - exact expecting_run.
Qed.

Lemma expecting_world_ok : world_ok (world expecting).
Proof.
  exact (run_world _ (run_ok_steps _ _ (run_ok_start _ mocked_ok) expecting_steps)).
Qed.
End MockDemo.

Lemma mock_site_correct_witness :
  ∃ c', mock RouteDemo.function RouteDemo.fake "read" MockDemo.opened = (Ok 0%nat, c') ∧
    site_state 3 (slots c') = Some 0%nat ∧ shimforge_detach None (slots c') = MockDemo.site0.
Proof.
  destruct (mock RouteDemo.function RouteDemo.fake "read" MockDemo.opened) as [o c'] eqn:H.
  pose proof (mock_site_correct _ _ _ MockDemo.opened _ _ (eq_refl : site_ok MockDemo.site0) H) as Hm.
  destruct o as [k|e|m|]; [|apply (f_equal (is_ok ∘ fst)) in H; vm_compute in H; discriminate H..].
  destruct Hm as (-> & _ & _ & Hs & Hd & _). exists c'. split; [reflexivity|]. split.
  - rewrite Hs. vm_compute. reflexivity.
  - exact Hd.
Defined.

Lemma mock_call_correct_witness :
  ∃ c', shimforge_call 1 RouteDemo.fake 12 MockDemo.expecting = (Ok (Answer 5), c') ∧
    proc c' = proc MockDemo.expecting.
Proof.
  destruct (shimforge_call 1 RouteDemo.fake 12 MockDemo.expecting) as [o c'] eqn:H.
  pose proof (mock_call_correct _ _ _ _ _ _ MockDemo.expecting_world_ok H) as Hp.
  assert (site_state 1 (slots MockDemo.expecting) = Some 0%nat) as Hsite by (vm_compute; reflexivity).
  rewrite Hsite in Hp.
  destruct (mocks (world MockDemo.expecting) !! 0%nat) as [s|] eqn:Hs;
    [|vm_compute in Hs; discriminate Hs].
  assert (State.active s = true) as Ha.
  { pose proof (f_equal (fmap State.active) Hs) as Ha. vm_compute in Ha. by injection Ha. }
  assert (o = Ok (Answer 5)) as -> by (apply (f_equal fst) in H; vm_compute in H; symmetry; exact H).
  destruct (Hp s eq_refl Ha) as [Ho|(v & wd1 & _ & _ & _ & _ & Hproc & _)].
  - vm_compute. intros Hin. inversion Hin.
  - discriminate Ho.
  - exists c'. split; [reflexivity|exact Hproc].
Defined.

Lemma one_shot_response_available_witness :
  ∃ c r, rtc run_step (MockDemo.mocked, [], []) (c, [r], [r]) ∧
    ∃ a, mock_actions (slots c) !! ShimforgeRule.action r = Some a ∧ a ≠ Once None.
Proof.
  set (r := MockDemo.rule).
  destruct (claim (meta r) (world MockDemo.expecting)) as [o w] eqn:Hc.
  assert (o = Ok Taken) as -> by (apply (f_equal fst) in Hc; vm_compute in Hc; symmetry; exact Hc).
  assert (rtc run_step (MockDemo.mocked, [], []) (in_world_of w MockDemo.expecting, [r], [r])) as Hs.
  { eapply rtc_r; [exact MockDemo.expecting_steps|].
    exact (run_claim MockDemo.expecting [r] [] r (Ok Taken) w ltac:(by left) Hc). }
  exists (in_world_of w MockDemo.expecting), r. split; [exact Hs|].
  destruct (one_shot_response_available _ _ _ _ MockDemo.mocked_ok Hs) as [Hr _].
  exact (Hr [] r [] eq_refl).
Defined.

Lemma macro_replace_correct_witness :
  ∃ c' e, macro_replace RouteDemo.function RouteDemo.handler RouteDemo.fake
      MockDemo.opened_local = (Ok tt, c') ∧
    installed RouteDemo.start (proc c') 0 RouteDemo.function RouteDemo.handler RouteDemo.fake e ∧
    Entry.dispatcher e = RouteDemo.handler.
Proof.
  destruct (macro_replace RouteDemo.function RouteDemo.handler RouteDemo.fake MockDemo.opened_local)
    as [o c'] eqn:H.
  pose proof (macro_replace_correct 0 RouteDemo.start world_empty MockDemo.site0
    MockDemo.opened_local _ _ _ _ _ (routing_ok_start _) (ex_intro _ [] eq_refl) (λ _, eq_refl)
    (rtc_refl _ _) RouteDemo.start_outside H) as Hm.
  destruct o as [[]|e|m|]; [|apply (f_equal (is_ok ∘ fst)) in H; vm_compute in H; discriminate H..].
  destruct Hm as (e & Hi & _). exists c', e. split; [reflexivity|]. split; [exact Hi|].
  destruct (installed_new _ _ _ _ _ _ _ Hi) as [(i & r & Hr & _)|(_ & Hd & _)];
    [discriminate Hr|exact Hd].
Defined.
