(* ===== verification/Typing.v ===== *)
(** * Types of the functions that are called through routes

    A dispatcher finds the function to go on with by its address and casts
    the address to a function pointer ([__invoke!] of [src/src/lib.rs], used
    by [__dispatch] and [__shimforge_call]): "routing stores only targets with
    this checked signature".  [signature] gives the functions of the program
    their types; [mock!], [mock_async] and [replace!] only compile when the
    source, its dispatcher and the target have one type, and this file shows
    that then every address a dispatcher is given has its own type. *)

From S2P Require Import Prelude Errors Memory Executable X86 Code Routing Expectations Session Calls Mock.

#[local] Open Scope Z_scope.
#[local] Set Default Proof Using "Type*".

(** ** The invariant *)

Section typing.
Context {P Σ : Type} `{!Platform P, !Pages P, !Code} (signature : Z → option Σ).
Implicit Types w : process P.

(** The type of the function behind an entry. *)
Abbreviation entry_type e := (signature (Patch.entry (Entry.patch e))).

Record well_typed w : Prop := {
  typed_dispatcher p e : leaked w !! p = Some e →
    signature (Entry.dispatcher e) = entry_type e;
  typed_global p e : leaked w !! p = Some e → Entry.global e ≠ 0 →
    signature (Entry.global e) = entry_type e;
  typed_local thread l x : LOCAL w !! thread = Some (Some l) → x ∈ l →
    signature (Local.dispatcher x) = signature (Local.source x) ∧
    signature (Local.target x) = signature (Local.source x) }.

Lemma well_typed_start s : well_typed (process_start s).
Proof. split; intros *; simpl; [done..|]. by rewrite lookup_empty. Qed.

(** Only the tables matter. *)
Lemma well_typed_tables w w' :
  leaked w' = leaked w → LOCAL w' = LOCAL w → well_typed w → well_typed w'.
Proof. intros Hl Hc []. split; rewrite ?Hl, ?Hc; eauto. Qed.

Lemma well_typed_os w s : well_typed w → well_typed (set_os s w).
Proof. by apply well_typed_tables. Qed.

Lemma wp_in_os {A} (m : M Error P A) Q w :
  (∀ o s, Q o (set_os s w)) → wp (in_os m) Q w.
Proof. unfold wp, in_os. intros HQ. destruct (m (os w)). apply HQ. Qed.

(** A new entry. *)
Lemma well_typed_push w e :
  well_typed w → signature (Entry.dispatcher e) = entry_type e → Entry.global e = 0 →
  well_typed (set_leaked (leaked w ++ [e]) w).
Proof.
  intros [Hd Hg Hl] He H0. split; simpl; [| |done].
  - intros p e' [?|[_ [_ <-]%list_lookup_singleton_Some]]%lookup_app_Some; [eauto|done].
  - intros p e' [?|[_ [_ <-]%list_lookup_singleton_Some]]%lookup_app_Some; [eauto|done].
Qed.

(** The global target of an entry. *)
Lemma well_typed_alter w p e x :
  well_typed w → leaked w !! p = Some e → (x ≠ 0 → signature x = entry_type e) →
  well_typed (set_leaked (<[p := Entry.set_global x e]> (leaked w)) w).
Proof.
  intros [Hd Hg Hl] Hp Hx. split; simpl; [| |done].
  - intros q e' [(<- & <- & _)|[_ ?]]%list_lookup_insert_Some; simpl; eauto.
  - intros q e' [(<- & <- & _)|[_ ?]]%list_lookup_insert_Some; simpl; eauto.
Qed.

Lemma well_typed_local w thread l :
  well_typed w →
  (∀ x, x ∈ l → signature (Local.dispatcher x) = signature (Local.source x) ∧
     signature (Local.target x) = signature (Local.source x)) →
  well_typed (set_local thread l w).
Proof.
  intros [Hd Hg Hl] Hall. split; simpl; [done..|].
  intros th l' x [[_ [= <-]]|[_ ?]]%lookup_insert_Some; eauto.
Qed.

(** The routes of a thread. *)
Lemma local_routes_typed w thread l x :
  well_typed w → local_routes thread w = Some l → x ∈ l →
  signature (Local.dispatcher x) = signature (Local.source x) ∧
  signature (Local.target x) = signature (Local.source x).
Proof.
  intros Hw. unfold local_routes. destruct (LOCAL w !! thread) as [l'|] eqn:Hl.
  - intros -> Hx. by eapply typed_local.
  - intros [= <-] []%elem_of_nil.
Qed.

(** *** The operations of [routing.rs] *)

(** The tables are those of [w]. *)
Definition same_tables w w' : Prop := leaked w' = leaked w ∧ LOCAL w' = LOCAL w.

Lemma build_patch source dispatcher bytes page w :
  wp (build source dispatcher bytes page) (λ o w', same_tables w w' ∧
    ∀ patch page' bridge, o = Ok (patch, page', bridge) → Patch.entry patch = source) w.
Proof.
  unfold build.
  repeat first [wp_step | apply wp_in_os; intros ? ?; cbv beta iota
    | match goal with |- context [match ?x with _ => _ end] => destruct x end];
    (split; [done|]); intros; simplify_eq; done.
Qed.

Lemma or_drop_patch source dispatcher bytes page w :
  wp (or_drop page (build source dispatcher bytes page)) (λ o w', same_tables w w' ∧
    ∀ patch page' bridge, o = Ok (patch, page', bridge) → Patch.entry patch = source) w.
Proof.
  unfold or_drop. do 2 wp_step. eapply wp_mono; [apply build_patch|]. cbv beta.
  intros o w' [[Hl Hc] Hp]. destruct o as [[[patch page'] bridge]|e|message|]; [by wp_step| | |by wp_step];
    wp_step; apply wp_in_os; intros [[]|?|?|] s; cbv beta iota; repeat wp_step; done.
Qed.

(** The entry a pointer points to belongs to [source]. *)
Definition points_to source w (p : nat) : Prop :=
  ∃ e, leaked w !! p = Some e ∧ Patch.entry (Entry.patch e) = source.

Lemma new_entry_typed source dispatcher w :
  well_typed w → signature dispatcher = signature source →
  wp (new_entry source dispatcher)
    (λ o w', well_typed w' ∧ ∀ p, o = Ok p → points_to source w' p) w.
Proof.
  intros Hw Hd. unfold new_entry.
  assert (∀ s, well_typed (set_os s w)) as Hos by (intros s; by apply well_typed_os).
  wp_step. apply wp_in_os. intros [bytes|?|?|] s1; cbv beta iota; try done.
  wp_step. apply wp_in_os. intros [page|?|?|] s2; cbv beta iota; try (by split; [apply (Hos s2)|]).
  wp_step. eapply wp_mono; [apply or_drop_patch|]. cbv beta.
  intros o w3 [[Hl3 Hc3] Hp].
  assert (well_typed w3) as Hw3 by (by eapply (well_typed_tables w)).
  destruct o as [[[patch page'] bridge]|e|message|]; try done.
  specialize (Hp _ _ _ eq_refl).
  do 4 wp_step.
  set (entry := Entry.Make patch dispatcher page' bridge 0 (HEAD w3)).
  assert (well_typed (set_leaked (leaked w3 ++ [entry]) w3)) as Hpush.
  { apply well_typed_push; [done| |done]. simpl. by rewrite Hp. }
  assert (∀ s records head, well_typed (mkProcess s (leaked w3 ++ [entry]) head records (LOCAL w3)))
    as Hnew by (intros; by eapply (well_typed_tables (set_leaked (leaked w3 ++ [entry]) w3))).
  do 6 wp_step. apply wp_in_os. intros [[]|?|?|] s3; cbv beta iota; repeat wp_step;
    (split; [by apply Hnew|]); try done.
  intros p [= <-]. exists entry. split; [|done]. simpl. by apply list_lookup_middle.
Qed.

Lemma add_site_typed source dispatcher i r w :
  well_typed w → points_to source w (Record_.entry r) →
  wp (add_site dispatcher i r)
    (λ o w', well_typed w' ∧ ∀ p, o = Ok p → points_to source w' p) w.
Proof.
  intros Hw Hp. unfold add_site. do 3 wp_step. case_bool_decide; repeat wp_step;
    (split; [by apply (well_typed_tables w)|]); by intros p [= <-].
Qed.

Lemma push_route_typed thread source target p w :
  well_typed w → points_to source w p → signature target = signature source →
  wp (push_route thread source target p) (λ _ w', well_typed w') w.
Proof.
  intros Hw (e & He & Hs) Ht. unfold push_route. do 4 wp_step. rewrite He. cbn [expect].
  wp_step. unfold with_local, wp. destruct (local_routes thread w) as [l|] eqn:Hl; simpl; [|done].
  apply well_typed_local; [done|].
  intros x [Hx| ->%list_elem_of_singleton]%elem_of_app; [by eapply local_routes_typed|]. simpl.
  split; [|done]. rewrite <-Hs. by eapply typed_dispatcher.
Qed.

(** Installing a target of the right type. *)
Lemma install_replacement_typed thread source dispatcher target w :
  well_typed w → signature dispatcher = signature source →
  signature target = signature source →
  wp (install_replacement thread source dispatcher target) (λ _ w', well_typed w') w.
Proof.
  intros Hw Hd Ht. unfold install_replacement. destruct (source =? target); [by wp_step|].
  wp_step. unfold with_local at 1, wp at 1. simpl.
  destruct (local_routes thread w) as [l|]; simpl; [|done].
  destruct (existsb _ l); [by wp_step|]. do 4 wp_step. destruct (existsb _ _); [by wp_step|].
  assert (∀ s, well_typed (set_os s w)) as Hos by (intros s; by apply well_typed_os).
  wp_step. apply wp_in_os. intros [bs|?|?|] s1; cbv beta iota; try done.
  wp_step. apply wp_in_os. intros [bs'|?|?|] s2; cbv beta iota; try by apply (Hos s2).
  set (w2 := set_os s2 (set_os s1 w)). assert (well_typed w2) as Hw2 by (by apply (Hos s2)).
  do 2 wp_step. wp_step.
  apply (wp_mono _ (λ o w', well_typed w' ∧ ∀ p, o = Ok p → points_to source w' p)).
  - destruct (find_entry source w2) as [[i r]|] eqn:Hf; [|by apply new_entry_typed].
    apply add_site_typed; [done|]. apply list_find_Some in Hf as (_ & He & _).
    unfold is_entry, patch_of in He. unfold points_to.
    destruct (leaked w2 !! Record_.entry r) as [e|]; [|done]. injection He as He. by exists e.
  - intros [p|?|?|] w' [Hw' Hp]; try done. apply push_route_typed; auto.
Qed.

Lemma remove_typed thread source w :
  well_typed w → wp (remove thread source) (λ _ w', well_typed w') w.
Proof.
  intros Hw. unfold remove. wp_step. unfold with_local, wp.
  destruct (local_routes thread w) as [l|] eqn:Hl; simpl; [|done].
  apply well_typed_local; [done|]. intros x [_ Hx]%list_elem_of_filter. by eapply local_routes_typed.
Qed.

Lemma found_entry w source i r e :
  find_entry source w = Some (i, r) → leaked w !! Record_.entry r = Some e →
  Patch.entry (Entry.patch e) = source.
Proof.
  intros (_ & Hs & _)%list_find_Some He. unfold is_entry, patch_of in Hs. rewrite He in Hs.
  by injection Hs.
Qed.

Lemma global_typed source target w :
  well_typed w → signature target = signature source →
  wp (global source target) (λ _ w', well_typed w') w.
Proof.
  intros Hw Ht. unfold global. destruct (source =? target); [by wp_step|]. do 2 wp_step.
  destruct (existsb _ _); [by wp_step|]. do 2 wp_step.
  destruct (find_entry source w) as [[i r]|] eqn:Hf; [|by wp_step].
  wp_step. apply wp_in_os. intros o s. assert (well_typed (set_os s w)) as Hw' by (by apply well_typed_os).
  destruct o as [bs|?|?|]; cbv beta iota; try done. do 4 wp_step.
  change (leaked (set_os s w)) with (leaked w).
  destruct (leaked w !! Record_.entry r) as [e|] eqn:He; [|done]. cbn [expect].
  simpl. destruct (negb _); [by wp_step|]. do 2 wp_step. wp_step.
  change (leaked w) with (leaked (set_os s w)). apply well_typed_alter; [done|done|].
  intros _. by rewrite (found_entry _ _ _ _ _ Hf He).
Qed.

Lemma remove_global_typed source w :
  well_typed w → wp (remove_global source) (λ _ w', well_typed w') w.
Proof.
  intros Hw. unfold remove_global. do 4 wp_step.
  destruct (find_entry source w) as [[i r]|] eqn:Hf; [|done]. cbn [expect].
  do 4 wp_step.
  destruct (leaked w !! Record_.entry r) as [e|] eqn:He; [|done]. cbn [expect].
  wp_step. by apply well_typed_alter.
Qed.

(** *** Calls *)

(** The target has the type of the dispatcher: it is a function of that type,
    or the saved entry of one. *)
Definition callable w (dispatcher target : Z) : Prop :=
  signature target = signature dispatcher ∨
  ∃ p e, leaked w !! p = Some e ∧ target = Executable.address (Entry.original e) ∧
    Entry.global e = 0 ∧ entry_type e = signature dispatcher.

Lemma fallback_loop_typed fuel d cursor w :
  well_typed w →
  wp (fallback_loop fuel d cursor) (λ o w', ∀ t, o = Ok (Some t) → callable w d t) w.
Proof.
  intros Hw. revert cursor. induction fuel as [|fuel IH]; intros [p|]; cbn [fallback_loop];
    try (by wp_step). do 4 wp_step.
  destruct (leaked w !! p) as [e|] eqn:He; [|done]. cbn [expect]. simpl.
  destruct (Z.eqb_spec (Entry.dispatcher e) d) as [Hd|]; [|apply IH].
  wp_step. unfold entry_target. destruct (Z.eqb_spec (Entry.global e) 0) as [Hg|Hg].
  - wp_step. eapply (wp_mono _ (λ _ _, True)); [done|]. intros [[]|?|?|] w1 _; try done.
    repeat wp_step. intros t [= <-]. right. exists p, e. split_and!; [done..|].
    by rewrite <-Hd, (typed_dispatcher _ Hw _ _ He).
  - repeat wp_step. intros t [= <-]. left.
    by rewrite <-Hd, (typed_dispatcher _ Hw _ _ He), (typed_global _ Hw _ _ He).
Qed.

Lemma route_typed thread d w :
  well_typed w → wp (route thread d) (λ o w', ∀ t, o = Ok (Some t) → callable w d t) w.
Proof.
  intros Hw. unfold route. do 2 wp_step.
  assert (wp (fallback d) (λ o w', ∀ t, o = Ok (Some t) → callable w d t) w) as Hfall.
  { unfold fallback. do 4 wp_step. by apply fallback_loop_typed. }
  destruct (local_routes thread w) as [l|] eqn:Hl; simpl; [|done].
  destruct (find _ l) as [x|] eqn:Hf; simpl; [|done].
  destruct (_ =? d); [done|]. wp_step. intros t [= <-]. left.
  apply find_some in Hf as [Hin%list_elem_of_In Hd%Z.eqb_eq].
  destruct (local_routes_typed w thread l x Hw Hl Hin) as [H1 H2]. by rewrite H2, <-H1, Hd.
Qed.
End typing.

(** ** Sessions *)

Section sessions.
Context {P R X Σ : Type} `{!Platform P, !Pages P, !Code, !Rule R} (signature : Z → option Σ).
Abbreviation C := (scope P R X).
Implicit Types c : C.
Abbreviation typed c := (well_typed signature (proc c)).

(** The step keeps the tables of the process well typed. *)
Definition preserves {A} (m : M Error C A) : Prop := ∀ c, typed c → typed (m c).2.

Lemma preserves_step {A} (m : M Error C A) : (∀ c, proc (m c).2 = proc c) → preserves m.
Proof. intros Hm c. by rewrite Hm. Qed.

Lemma preserves_in_proc {A} (m : M Error (process P) A) :
  (∀ w, well_typed signature w → wp m (λ _ w', well_typed signature w') w) →
  preserves (in_proc m).
Proof.
  intros Hm c Hc. specialize (Hm _ Hc). unfold wp in Hm. unfold in_proc.
  by destruct (m (proc c)).
Qed.

Lemma preserves_in_memory {A} (m : M Error P A) : preserves (in_memory m).
Proof. apply preserves_in_proc. intros w Hw. apply wp_in_os. intros. by apply well_typed_os. Qed.

Lemma preserves_in_world {A} (m : M Error (World R) A) : preserves (in_world m).
Proof. apply preserves_step. intros c. unfold in_world. by destruct (m (world c)). Qed.

Lemma preserves_bind {A B} (m : M Error C A) (f : A → M Error C B) :
  preserves m → (∀ a, preserves (f a)) → preserves (m ≫= f).
Proof.
  intros Hm Hf c Hc. unfold mbind, M_bind. specialize (Hm c Hc).
  destruct (m c) as [[a|e|msg|] c1]; simpl in *; [by apply Hf|done..].
Qed.

Lemma preserves_attempt {A} (m : M Error C A) : preserves m → preserves (attempt m).
Proof. intros Hm c Hc. specialize (Hm c Hc). unfold attempt. by destruct (m c). Qed.

Lemma preserves_checked {A} (m : M Error C A) : preserves m → preserves (checked m).
Proof. intros Hm c Hc. specialize (Hm c Hc). unfold checked. by destruct (m c). Qed.

#[local] Hint Resolve preserves_in_memory preserves_in_world preserves_attempt preserves_checked
  : preserves.

Ltac preserve :=
  repeat match goal with
  | |- preserves (_ ≫= _) => apply preserves_bind; [|intros ?]
  | |- preserves (if ?b then _ else _) => destruct b
  | |- preserves (match ?x with _ => _ end) => destruct x
  end; auto with preserves; try (by apply preserves_step).

Lemma preserves_or_drop_relay {A} relay (m : M Error C A) :
  preserves m → preserves (or_drop_relay relay m).
Proof. intros Hm. unfold or_drop_relay. preserve. Qed.

Lemma preserves_make_relay source target : preserves (make_relay source target).
Proof. unfold make_relay. preserve. apply preserves_or_drop_relay. preserve. Qed.

Lemma preserves_patch_raw source target bytes relay :
  preserves (patch_raw source target bytes relay).
Proof. unfold patch_raw. preserve. Qed.

#[local] Hint Resolve preserves_or_drop_relay preserves_make_relay preserves_patch_raw : preserves.

Lemma preserves_install_raw source target :
  signature target = signature source → preserves (install_raw source target).
Proof.
  intros Ht. unfold install_raw. preserve. apply preserves_in_proc. intros w Hw.
  by apply global_typed.
Qed.

Lemma preserves_replace_local source dispatcher target :
  signature dispatcher = signature source → signature target = signature source →
  preserves (replace_local source dispatcher target).
Proof.
  intros Hd Ht. unfold replace_local. preserve. apply preserves_in_proc. intros w Hw.
  by apply install_replacement_typed.
Qed.

Lemma preserves_mock_drop mock : preserves (mock_drop mock).
Proof. unfold mock_drop. preserve. Qed.

#[local] Hint Resolve preserves_mock_drop preserves_install_raw preserves_replace_local : preserves.

Lemma preserves_install_mock source target mock :
  signature target = signature source → preserves (install_mock source target mock).
Proof.
  intros Ht. unfold install_mock. preserve. apply preserves_attempt. preserve.
  apply preserves_in_proc. intros w Hw. by apply install_replacement_typed.
Qed.

Lemma preserves_macro_replace source dispatcher target :
  signature dispatcher = signature source → signature target = signature source →
  preserves (macro_replace source dispatcher target).
Proof. intros Hd Ht. unfold macro_replace, macro_replace_local, replace_raw. preserve. Qed.

Lemma preserves_restore_patches : preserves restore_patches.
Proof.
  unfold restore_patches. preserve.
  - rename a into l. induction l as [|source l IH]; cbn [restore_locals]; preserve.
    apply preserves_in_proc. intros w. apply remove_typed.
  - rename a1 into l. induction l as [|source l IH]; cbn [restore_globals]; preserve.
    apply preserves_in_proc. intros w. apply remove_global_typed.
  - rename a3 into l. induction l as [|source l IH]; cbn [restore_code]; preserve.
Qed.

Lemma preserves_check_expectations : preserves check_expectations.
Proof.
  unfold check_expectations. preserve. induction a as [|mock l IH]; cbn [check_mocks]; preserve.
Qed.

Lemma preserves_detach : preserves detach.
Proof. unfold detach. preserve. induction a as [|mock l IH]; cbn [drop_mocks]; preserve. Qed.

#[local] Hint Resolve preserves_restore_patches preserves_check_expectations preserves_detach
  : preserves.

Lemma preserves_restore : preserves restore.
Proof. unfold restore. preserve. Qed.

Lemma preserves_session_drop panicking : preserves (session_drop panicking).
Proof.
  unfold session_drop, finish, or_fatal. preserve.
Qed.

Lemma preserves_run {A} (m : M Error C A) c o c' :
  preserves m → typed c → m c = (o, c') → typed c'.
Proof. intros Hm Hc Hr. specialize (Hm c Hc). by rewrite Hr in Hm. Qed.

(** What happens in a process whose replacements and mocks were compiled by
    the macros, so that source, dispatcher and target of each have one type:
    sessions of any thread install, restore and end, in any order and with
    any outcome, and the program runs in between. *)
Inductive client_step : C → C → Prop :=
| client_replace c source dispatcher target o c' :
    signature dispatcher = signature source → signature target = signature source →
    macro_replace source dispatcher target c = (o, c') → client_step c c'
| client_mock c source target mock o c' :
    signature target = signature source →
    install_mock source target mock c = (o, c') → client_step c c'
| client_restore c o c' : restore c = (o, c') → client_step c c'
| client_drop c panicking o c' : session_drop panicking c = (o, c') → client_step c c'
| client_program c session th s wd x :
    client_step c (mkScope session th (set_os s (proc c)) wd x).

Lemma client_step_typed c c' : typed c → client_step c c' → typed c'.
Proof.
  intros Hc Hs. destruct Hs as [c s d t o c' Hd Ht Hr|c s t mock o c' Ht Hr|c o c' Hr|c p o c' Hr|].
  - by apply (preserves_run _ _ _ _ (preserves_macro_replace _ _ _ Hd Ht) Hc Hr).
  - by apply (preserves_run _ _ _ _ (preserves_install_mock _ _ _ Ht) Hc Hr).
  - by apply (preserves_run _ _ _ _ (preserves_restore) Hc Hr).
  - by apply (preserves_run _ _ _ _ (preserves_session_drop _) Hc Hr).
  - by apply well_typed_os.
Qed.

Lemma client_steps_typed c c' : typed c → rtc client_step c c' → typed c'.
Proof. intros Hc Hs. induction Hs; eauto using client_step_typed. Qed.

Lemma routed_callable th d c o c' t :
  typed c → in_proc (route th d) c = (o, c') → o = Ok (Some t) →
  callable signature (proc c) d t.
Proof.
  intros Hc Hrun Ho. pose proof (route_typed signature th d _ Hc) as Hr. unfold wp in Hr.
  unfold in_proc in Hrun. destruct (route th d (proc c)) as [o1 w1]. injection Hrun as -> _.
  by apply Hr.
Qed.
End sessions.

(** C15. Whatever sessions were opened, installed, restored and dropped before, on
    whatever threads: when the dispatcher of [replace!] or the function of
    [mock!] casts the address it got from [route] to its own function type
    and calls it, there is a function of that type, or the saved entry of
    one. *)
Theorem invoked_target_typed {P A V Σ : Type} `{!Platform P, !Pages P, !Code}
    (signature : Z → option Σ) s session th0 wd x (c c' : scope P (ShimforgeRule.t A) (site A V))
    th dispatcher args target :
  rtc (client_step signature) (mkScope session th0 (process_start s) wd x) c →
  (dispatch th dispatcher c = (Ok target, c') ∨
   shimforge_call th dispatcher args c = (Ok (Invoke target), c')) →
  callable signature (proc c) dispatcher target.
Proof.
  intros Hs Hcall. assert (well_typed signature (proc c)) as Hc.
  { eapply client_steps_typed; [|done]. apply well_typed_start. }
  destruct Hcall as [H1|H1].
  - apply M_bind_Ok_inv in H1 as (o & c1 & H1 & H2). eapply routed_callable; [done|done|].
    unfold lift in H2. destruct o; [|done]. by injection H2 as ->.
  - apply M_bind_Ok_inv in H1 as (state & c0 & [= Hst <-] & H1). destruct state as [k|].
    + apply M_bind_Ok_inv in H1 as (v & c1 & _ & [= ? _]).
    + apply M_bind_Ok_inv in H1 as (o & c1 & H1 & H2). eapply routed_callable; [done|done|].
      apply M_bind_Ok_inv in H2 as (t & c2 & H2 & [= <- _]).
      unfold lift in H2. destruct o; [|done]. by injection H2 as ->.
Qed.

(** ** A run on the example machine *)

Lemma invoked_target_typed_witness :
  ∃ (c c' : scope Machine.t (ShimforgeRule.t Z) (site Z Z)) t,
    dispatch 0 RouteDemo.handler c = (Ok t, c') ∧ t = RouteDemo.fake ∧
    callable (λ a, if a <? 4096 then None else Some tt) (proc c) RouteDemo.handler t.
Proof.
  destruct (macro_replace RouteDemo.function RouteDemo.handler RouteDemo.fake MockDemo.opened_local)
    as [o c] eqn:H.
  assert (c = (macro_replace RouteDemo.function RouteDemo.handler RouteDemo.fake
    MockDemo.opened_local).2) as Hc by (by rewrite H).
  destruct (dispatch 0 RouteDemo.handler c) as [o' c'] eqn:Hd.
  assert (o' = Ok RouteDemo.fake) as ->.
  { rewrite Hc in Hd. apply (f_equal fst) in Hd. vm_compute in Hd. symmetry. exact Hd. }
  exists c, c', RouteDemo.fake. split; [exact Hd|]. split; [reflexivity|].
  apply (invoked_target_typed _ (os RouteDemo.start) (self MockDemo.opened_local) 0%nat world_empty
    MockDemo.site0 c c' 0%nat RouteDemo.handler 0); [|left; exact Hd].
  apply rtc_once. refine (client_replace _ _ _ _ _ _ _ _ _ H); reflexivity.
Defined.
