(* ===== verification/Syntax.v ===== *)
(** * The input of the macros ([src/macros/src/lib.rs])

    Token streams, the part of the syntax trees of [syn] the crate looks at,
    its three [Parse] instances, [source_item] and the [Borrowed] visitor.
    How [syn] parses a path, an expression and a function type, and how it
    reports errors, is a parameter ([Syn]). *)

From S2P Require Import Prelude.
From Stdlib Require Import Ascii.

#[local] Set Default Proof Using "Type*".

(** ** Tokens *)

Inductive Delimiter := Parenthesis | Brace | Bracket | Invisible.

(** An identifier, a punctuation mark, a lifetime or a literal is its text;
    [Mixed] is an identifier made with [Span::mixed_site()], which the names of
    the caller do not capture and which does not capture theirs. *)
Inductive TokenTree :=
| Tok (text : string)
| Mixed (text : string)
| Group (delimiter : Delimiter) (trees : list TokenTree).
Abbreviation Tokens := (list TokenTree).

(** The words of a line of code, as tokens. *)
Fixpoint words_loop (s word : string) : list string :=
  match s with
  | EmptyString => if bool_decide (word = "") then [] else [word]
  | String c s =>
      if bool_decide (c = " "%char) then
        if bool_decide (word = "") then words_loop s "" else word :: words_loop s ""
      else words_loop s (word ++ String c "")
  end.
Definition code (line : string) : Tokens := Tok <$> words_loop line "".

(** A string literal. *)
Definition literal (s : string) : TokenTree :=
  let quote := String "034"%char "" in Tok (quote ++ s ++ quote).

Definition paren (ts : Tokens) : TokenTree := Group Parenthesis ts.
Definition brace (ts : Tokens) : TokenTree := Group Brace ts.

(** [#(#items sep)*], [#(#items),*]. *)
Definition each (sep : string) (items : list Tokens) : Tokens :=
  concat ((λ ts, ts ++ [Tok sep]) <$> items).
Fixpoint separated (sep : string) (items : list Tokens) : Tokens :=
  match items with
  | [] => []
  | [ts] => ts
  | ts :: items => ts ++ Tok sep :: separated sep items
  end.

(** ** Syntax trees *)

(** [syn::Expr]: the forms [source_item] distinguishes. *)
Inductive Expr :=
| Expr_Path (path : Tokens)
| Expr_Paren (expr : Expr)
| Expr_Group (expr : Expr)
| Expr_Other (tokens : Tokens).

Fixpoint expr_tokens (e : Expr) : Tokens :=
  match e with
  | Expr_Path path => path
  | Expr_Paren e => [paren (expr_tokens e)]
  | Expr_Group e => [Group Invisible (expr_tokens e)]
  | Expr_Other ts => ts
  end.

(** [syn::Type]: a reference, or any other type with the lifetimes and the
    types that occur directly in it. *)
Inductive Type_ :=
| Type_Reference (lifetime : option string) (mutability : bool) (elem : Type_)
| Type_Other (lifetimes : list string) (types : list Type_) (tokens : Tokens).

Fixpoint type_tokens (t : Type_) : Tokens :=
  match t with
  | Type_Reference lifetime mutability elem =>
      Tok "&" :: match lifetime with Some lt => [Tok ("'" ++ lt)] | None => [] end ++
      (if mutability then [Tok "mut"] else []) ++ type_tokens elem
  | Type_Other _ _ ts => ts
  end.

(** [syn::BareFnArg], [syn::TypeBareFn]; [abi] is [extern], with its name if
    it has one. *)
Module BareFnArg.
Record t := Make { name : option string; ty : Type_ }.
End BareFnArg.

Module TypeBareFn.
Record t := Make {
  lifetimes : option (list string);
  unsafety : bool;
  abi : option (option string);
  inputs : list BareFnArg.t;
  variadic : bool;
  output : option Type_ }.
End TypeBareFn.

Definition lifetimes_tokens (ls : list string) : Tokens :=
  separated "," ((λ lt, [Tok ("'" ++ lt)]) <$> ls).
Definition binder_tokens (b : option (list string)) : Tokens :=
  match b with
  | Some ls => code "for <" ++ lifetimes_tokens ls ++ [Tok ">"]
  | None => []
  end.
Definition unsafety_tokens (b : bool) : Tokens := if b then [Tok "unsafe"] else [].
Definition abi_tokens (a : option (option string)) : Tokens :=
  match a with
  | Some name => Tok "extern" :: match name with Some name => [literal name] | None => [] end
  | None => []
  end.
Definition arg_tokens (a : BareFnArg.t) : Tokens :=
  match BareFnArg.name a with Some name => [Tok name; Tok ":"] | None => [] end ++
  type_tokens (BareFnArg.ty a).
Definition bare_fn_tokens (f : TypeBareFn.t) : Tokens :=
  binder_tokens (TypeBareFn.lifetimes f) ++ unsafety_tokens (TypeBareFn.unsafety f) ++
  abi_tokens (TypeBareFn.abi f) ++
  [Tok "fn"; paren (separated "," ((arg_tokens <$> TypeBareFn.inputs f) ++
     (if TypeBareFn.variadic f then [[Tok "..."]] else [])))] ++
  match TypeBareFn.output f with Some ty => Tok "->" :: type_tokens ty | None => [] end.

(** ** Parsing *)

Class Syn := {
  SynError : Type;
  new_spanned : Tokens → string → SynError;
  expected : string → Tokens → SynError;
  unexpected : Tokens → SynError;
  into_compile_error : SynError → Tokens;
  parse_path : Tokens → outcome SynError (Tokens * Tokens);
  parse_expr : Tokens → outcome SynError (Expr * Tokens);
  parse_bare_fn : Tokens → outcome SynError (TypeBareFn.t * Tokens) }.

Module Input.
Record t := Make { root : Tokens; session : Expr; source : Expr; signature : TypeBareFn.t }.
End Input.

Module Replacement.
Record t := Make { mock : Input.t; target : Expr }.
End Replacement.

Module SignatureCheck.
Record t := Make { source : Expr; value : Expr; target : Expr; signature : TypeBareFn.t }.
End SignatureCheck.

Section parsing.
Context {syn : Syn}.
Abbreviation Parsed A := (outcome SynError (A * Tokens)).

(** [input.parse::<Token![,]>()], [input.peek(Token![,])]. *)
Definition parse_comma (ts : Tokens) : Parsed unit :=
  match ts with
  | Tok "," :: ts => Ok (tt, ts)
  | _ => Err (expected "," ts)
  end.
Definition peek_comma (ts : Tokens) : bool :=
  match ts with Tok "," :: _ => true | _ => false end.

(** [Parse for Input]. *)
Definition parse_input (ts : Tokens) : Parsed Input.t :=
  '(root, ts) ← parse_path ts; '(_, ts) ← parse_comma ts;
  '(session, ts) ← parse_expr ts; '(_, ts) ← parse_comma ts;
  '(source, ts) ← parse_expr ts; '(_, ts) ← parse_comma ts;
  '(signature, ts) ← parse_bare_fn ts;
  if TypeBareFn.variadic signature
  then Err (new_spanned (bare_fn_tokens signature) "mock! does not support variadic functions") else
  '(_, ts) ← if peek_comma ts then parse_comma ts else Ok (tt, ts);
  Ok (Input.Make root session source signature, ts).

(** [Parse for Replacement]. *)
Definition parse_replacement (ts : Tokens) : Parsed Replacement.t :=
  '(root, ts) ← parse_path ts; '(_, ts) ← parse_comma ts;
  '(session, ts) ← parse_expr ts; '(_, ts) ← parse_comma ts;
  '(source, ts) ← parse_expr ts; '(_, ts) ← parse_comma ts;
  '(target, ts) ← parse_expr ts; '(_, ts) ← parse_comma ts;
  '(signature, ts) ← parse_bare_fn ts;
  Ok (Replacement.Make (Input.Make root session source signature) target, ts).

(** [Parse for SignatureCheck]. *)
Definition parse_signature_check (ts : Tokens) : Parsed SignatureCheck.t :=
  '(source, ts) ← parse_expr ts; '(_, ts) ← parse_comma ts;
  '(value, ts) ← parse_expr ts; '(_, ts) ← parse_comma ts;
  '(target, ts) ← parse_expr ts; '(_, ts) ← parse_comma ts;
  '(signature, ts) ← parse_bare_fn ts;
  Ok (SignatureCheck.Make source value target signature, ts).

(** [syn::parse]: all tokens are used. *)
Definition parse {A} (p : Tokens → Parsed A) (ts : Tokens) : outcome SynError A :=
  '(a, rest) ← p ts;
  match rest with
  | [] => Ok a
  | rest => Err (unexpected rest)
  end.
End parsing.

(** [source_item]. *)
Fixpoint source_item (source value : Expr) : Expr :=
  match source with
  | Expr_Path _ => source
  | Expr_Paren e => source_item e value
  | Expr_Group e => source_item e value
  | Expr_Other _ => value
  end.

(** ** The [Borrowed] visitor *)

(** [visit_lifetime]. *)
Definition visit_lifetime (lifetime : string) (b : bool) : bool :=
  b || negb (bool_decide (lifetime = "static")).

(** [visit_type_reference], and the traversal of [syn::visit]. *)
Fixpoint visit_type (t : Type_) (b : bool) : bool :=
  match t with
  | Type_Reference lifetime _ elem =>
      let b := b || match lifetime with
                    | Some lt => negb (bool_decide (lt = "static"))
                    | None => true
                    end in
      let b := match lifetime with Some lt => visit_lifetime lt b | None => b end in
      visit_type elem b
  | Type_Other lifetimes types _ =>
      let b := foldl (λ b lt, visit_lifetime lt b) b lifetimes in
      foldl (λ b t, visit_type t b) b types
  end.
Definition borrowed (t : Type_) : bool := visit_type t false.

(** ** What the parsers accept *)

(** The tokens of one element: the parser takes them and stops at a comma or
    at the end. *)
Definition stops (rest : Tokens) : Prop := rest = [] ∨ ∃ ts, rest = Tok "," :: ts.

Section accepted.
Context {syn : Syn}.
Abbreviation Parsed A := (outcome SynError (A * Tokens)).

Definition parses {A} (p : Tokens → Parsed A) (ts : Tokens) (a : A) : Prop :=
  ∀ rest, stops rest → p (ts ++ rest) = Ok (a, rest).

Lemma stops_end : stops [].
Proof. by left. Qed.
Lemma stops_comma ts : stops (Tok "," :: ts).
Proof. right. by eexists. Qed.

(** One element and the comma behind it. *)
Lemma parse_element {A B} (p : Tokens → Parsed A) ts a rest (k : A → Tokens → Parsed B) :
  parses p ts a →
  ('(x, ts) ← p (ts ++ Tok "," :: rest); '(_, ts) ← parse_comma ts; k x ts) = k a rest.
Proof. intros Hp. by rewrite Hp by apply stops_comma. Qed.

(** The inversion of the same step. *)
Lemma parse_element_inv {A B} (p : Tokens → Parsed A) ts (k : A → Tokens → Parsed B) b :
  ('(x, ts) ← p ts; '(_, ts) ← parse_comma ts; k x ts) = Ok b →
  ∃ a rest, p ts = Ok (a, Tok "," :: rest) ∧ k a rest = Ok b.
Proof.
  intros ([a r] & Hp & H)%bind_Ok_inv. apply bind_Ok_inv in H as ([[] r'] & Hc & Hk).
  exists a, r'. split; [|done]. rewrite Hp. f_equal. f_equal. unfold parse_comma in Hc.
  repeat case_match; simplify_eq. done.
Qed.

(** [parse] on a stream that is used up. *)
Lemma parse_all_inv {A} (p : Tokens → Parsed A) ts a : parse p ts = Ok a → p ts = Ok (a, []).
Proof.
  unfold parse. intros ([a' [|t rest]] & Hp & H)%bind_Ok_inv; [|done]. injection H as ->. done.
Qed.

(** [__mock!] gets exactly its four parts back, with or without a comma at the
    end, unless the signature is variadic. *)
Lemma parse_input_complete root session source signature proot psession psource psig last :
  parses parse_path proot root → parses parse_expr psession session →
  parses parse_expr psource source → parses parse_bare_fn psig signature →
  last = [] ∨ last = [Tok ","] →
  parse parse_input (separated "," [proot; psession; psource; psig] ++ last) =
  if TypeBareFn.variadic signature
  then Err (new_spanned (bare_fn_tokens signature) "mock! does not support variadic functions")
  else Ok (Input.Make root session source signature).
Proof.
  intros Hr Hse Hso Hsig Hlast. unfold parse, parse_input. cbn [separated].
  rewrite <-!app_assoc. cbn [app]. rewrite (parse_element _ _ _ _ _ Hr).
  rewrite <-!app_assoc. cbn [app]. rewrite (parse_element _ _ _ _ _ Hse).
  rewrite <-!app_assoc. cbn [app]. rewrite (parse_element _ _ _ _ _ Hso).
  rewrite Hsig by (destruct Hlast as [->| ->]; [apply stops_end|apply stops_comma]). simpl.
  destruct (TypeBareFn.variadic signature); [done|]. by destruct Hlast as [->| ->].
Qed.

(** What is left of the input must be nothing. *)
Definition at_end {A} (a : A) (rest : Tokens) : outcome SynError A :=
  match rest with [] => Ok a | rest => Err (unexpected rest) end.

Lemma parse_replacement_complete root session source target signature
    proot psession psource ptarget psig last :
  parses parse_path proot root → parses parse_expr psession session →
  parses parse_expr psource source → parses parse_expr ptarget target →
  parses parse_bare_fn psig signature → stops last →
  parse parse_replacement (separated "," [proot; psession; psource; ptarget; psig] ++ last) =
  at_end (Replacement.Make (Input.Make root session source signature) target) last.
Proof.
  intros Hr Hse Hso Ht Hsig Hlast. unfold parse, parse_replacement. cbn [separated].
  rewrite <-!app_assoc. cbn [app]. rewrite (parse_element _ _ _ _ _ Hr).
  rewrite <-!app_assoc. cbn [app]. rewrite (parse_element _ _ _ _ _ Hse).
  rewrite <-!app_assoc. cbn [app]. rewrite (parse_element _ _ _ _ _ Hso).
  rewrite <-!app_assoc. cbn [app]. rewrite (parse_element _ _ _ _ _ Ht).
  by rewrite (Hsig _ Hlast).
Qed.

Lemma parse_signature_check_complete source value target signature psource pvalue ptarget psig last :
  parses parse_expr psource source → parses parse_expr pvalue value →
  parses parse_expr ptarget target → parses parse_bare_fn psig signature → stops last →
  parse parse_signature_check (separated "," [psource; pvalue; ptarget; psig] ++ last) =
  at_end (SignatureCheck.Make source value target signature) last.
Proof.
  intros Hso Hv Ht Hsig Hlast. unfold parse, parse_signature_check. cbn [separated].
  rewrite <-!app_assoc. cbn [app]. rewrite (parse_element _ _ _ _ _ Hso).
  rewrite <-!app_assoc. cbn [app]. rewrite (parse_element _ _ _ _ _ Hv).
  rewrite <-!app_assoc. cbn [app]. rewrite (parse_element _ _ _ _ _ Ht).
  by rewrite (Hsig _ Hlast).
Qed.

(** What [__mock!] accepts: four parts with commas between them, a signature
    that is not variadic, and at most one comma behind it. *)
Lemma parse_input_sound ts i :
  parse parse_input ts = Ok i →
  ∃ r1 r2 r3 r4, parse_path ts = Ok (Input.root i, Tok "," :: r1) ∧
    parse_expr r1 = Ok (Input.session i, Tok "," :: r2) ∧
    parse_expr r2 = Ok (Input.source i, Tok "," :: r3) ∧
    parse_bare_fn r3 = Ok (Input.signature i, r4) ∧
    TypeBareFn.variadic (Input.signature i) = false ∧ (r4 = [] ∨ r4 = [Tok ","]).
Proof.
  intros H%parse_all_inv. unfold parse_input in H.
  apply parse_element_inv in H as (root & r1 & H1 & H).
  apply parse_element_inv in H as (session & r2 & H2 & H).
  apply parse_element_inv in H as (source & r3 & H3 & H).
  apply bind_Ok_inv in H as ([signature r4] & H4 & H).
  destruct (TypeBareFn.variadic signature) eqn:Hv; [done|].
  apply bind_Ok_inv in H as ([[] r5] & Hc & [= <- ->]).
  exists r1, r2, r3, r4. split_and!; try done.
  destruct (peek_comma r4); [right|left]; [|by injection Hc].
  unfold parse_comma in Hc. repeat case_match; simplify_eq. done.
Qed.
End accepted.

(** ** The source of a check *)

(** The expression below the parentheses and the groups a macro makes. *)
Fixpoint inner (e : Expr) : Expr :=
  match e with Expr_Paren e | Expr_Group e => inner e | e => e end.

Definition is_path (e : Expr) : bool := match e with Expr_Path _ => true | _ => false end.

Lemma source_item_inner source value :
  source_item source value = if is_path (inner source) then inner source else value.
Proof. by induction source. Qed.

(** ** The visitor *)

(** A type borrows when it has a reference without a lifetime, or names a
    lifetime other than ['static], anywhere in it. *)
Inductive borrows : Type_ → Prop :=
| borrows_elided m elem : borrows (Type_Reference None m elem)
| borrows_named lt m elem : lt ≠ "static" → borrows (Type_Reference (Some lt) m elem)
| borrows_elem lt m elem : borrows elem → borrows (Type_Reference lt m elem)
| borrows_lifetime lt lts ts tokens : lt ∈ lts → lt ≠ "static" → borrows (Type_Other lts ts tokens)
| borrows_part t lts ts tokens : t ∈ ts → borrows t → borrows (Type_Other lts ts tokens).

(** The visitor never forgets. *)
Lemma visit_lifetimes_run lts b :
  foldl (λ b lt, visit_lifetime lt b) b lts = true ↔
  b = true ∨ ∃ lt, lt ∈ lts ∧ lt ≠ "static".
Proof.
  revert b. induction lts as [|lt lts IH]; intros b; simpl; [set_solver|].
  rewrite IH. unfold visit_lifetime.
  rewrite orb_true_iff, negb_true_iff, bool_decide_eq_false. set_solver.
Qed.

(** Induction over types with a hypothesis for every part. *)
Section induction.
Context (Q : Type_ → Prop).
Context (Hreference : ∀ lt m elem, Q elem → Q (Type_Reference lt m elem)).
Context (Hother : ∀ lts ts tokens, Forall Q ts → Q (Type_Other lts ts tokens)).

Fixpoint Type_induction (t : Type_) : Q t :=
  match t with
  | Type_Reference lt m elem => Hreference lt m elem (Type_induction elem)
  | Type_Other lts ts tokens => Hother lts ts tokens
      ((fix parts ts : Forall Q ts := match ts with
                        | [] => Forall_nil_2 Q
                        | t :: ts => Forall_cons_2 Q t ts (Type_induction t) (parts ts)
                        end) ts)
  end.
End induction.

Lemma visit_types_run ts b :
  Forall (λ t, ∀ b, visit_type t b = true ↔ b = true ∨ borrows t) ts →
  foldl (λ b t, visit_type t b) b ts = true ↔ b = true ∨ ∃ t, t ∈ ts ∧ borrows t.
Proof.
  intros Hts. revert b. induction Hts as [|t ts Ht _ IH]; intros b; simpl; [set_solver|].
  rewrite IH, Ht. set_solver.
Qed.

Lemma visit_type_run t b : visit_type t b = true ↔ b = true ∨ borrows t.
Proof.
  revert b. induction t as [lt m elem IH|lts ts tokens IH] using Type_induction; intros b; simpl.
  - rewrite IH. destruct lt as [lt|]; unfold visit_lifetime;
      rewrite ?orb_true_iff, ?negb_true_iff, ?bool_decide_eq_false; split.
    + intros [[[?|?]|?]|?]; eauto using borrows.
    + intros [?|Hb]; [tauto|]. inversion Hb; subst; auto.
    + intros [[?|?]|?]; eauto using borrows.
    + intros [?|Hb]; auto.
  - rewrite visit_types_run, visit_lifetimes_run by done. split.
    + intros [[?|(lt & ? & ?)]|(t & ? & ?)]; eauto using borrows.
    + intros [?|Hb]; [tauto|]. inversion Hb; subst; eauto 6.
Qed.

(** The [Borrowed] visitor finds exactly the types that borrow: those for
    which a value cannot be kept by an expectation and handed out later. *)
Lemma borrowed_spec t : borrowed t = true ↔ borrows t.
Proof. unfold borrowed. rewrite visit_type_run. naive_solver. Qed.
