(* ===== verification/Expansion.v ===== *)
(** * What the macros expand to ([src/macros/src/signature.rs],
      [src/macros/src/lib.rs])

    The tokens of the signature check, of [__replace_local!] and of [__mock!],
    item by item as the [quote!]s of the source give them, and the entry
    points.  What the expanded code does when it runs is modelled in [Mock]. *)

From S2P Require Import Prelude Syntax.
From Stdlib Require Import Ascii.

#[local] Set Default Proof Using "Type*".

(** [format_ident!("name{index}")]. *)
Definition format_ident (name : string) (index : nat) : string := name ++ pretty index.

(** [(0..n).map(|index| format_ident!("name{index}"))]. *)
Definition idents (name : string) (n : nat) : list string := format_ident name <$> seq 0 n.

Definition tok (text : string) : Tokens := [Tok text].
Definition mixed (text : string) : Tokens := [Mixed text].

(** ** [signature::check] *)

(** An ABI other than Rust's. *)
Definition native (abi : option (option string)) : bool :=
  match abi with
  | Some (Some name) => negb (bool_decide (name = "Rust"))
  | Some None => true
  | None => false
  end.

(** [format_ident!("name{index}{}", usize::from(mutable))]. *)
Definition probe_ident (name : string) (index : nat) (mutable : bool) : string :=
  format_ident name index ++ (if mutable then "1" else "0").

(** The closure [borrowed]: the inputs, with a reference to [__Pointee] in the
    place of [index]. *)
Definition borrowed_inputs (types : list string) (index : nat) (mutability : Tokens)
    (lifetime : string) : list Tokens :=
  imap (λ i ty, if (i =? index)%nat then code "&" ++ tok lifetime ++ mutability ++ code "__Pointee"
                else tok ty) types.

(** [other]. *)
Definition other_types (types : list string) (index : nat) : list Tokens :=
  tok <$> omap (λ '(i, ty), if (i =? index)%nat then None else Some ty) (imap pair types).

Definition target_name : Tokens := mixed "__target".
Definition local : Tokens := mixed "borrowed_inputs_must_accept_any_lifetime".

(** What one turn of the inner loop adds to [probes]. *)
Definition probe (types : list string) (index : nat) (mutable : bool) : Tokens :=
  let name := tok (probe_ident "__Input" index mutable) in
  let method := tok (probe_ident "__input" index mutable) in
  let fallback := tok (probe_ident "__Fallback" index mutable) in
  let other := other_types types index in
  let mutability := if mutable then code "mut" else [] in
  let shape_args := borrowed_inputs types index mutability "'__shape" in
  let local_args := borrowed_inputs types index mutability "'__local" in
  code "trait" ++ name ++ code "< '__shape , __Pointee : ? Sized ," ++ separated "," other ++
  code ">" ++ [brace (code "fn" ++ method ++ code "< '__local , __Target >" ++
      [paren (code "& self , target : __Target , local : & '__local" ++ [paren []])] ++
      code "where __Pointee : '__local , __Target : __Signature <" ++
      [paren (each "," local_args)] ++ code "> ;")] ++
  code "impl < '__shape , __Shape , __Pointee : ? Sized + '__shape ," ++ separated "," other ++
  code ">" ++ name ++ code "< '__shape , __Pointee ," ++ separated "," other ++
  code "> for __Declared < __Shape > where __Shape : __Signature <" ++
  [paren (each "," shape_args)] ++ code ">" ++ [brace (code "fn" ++ method ++
      code "< '__local , __Target >" ++ [paren (code "& self , _ : __Target , _ : & '__local" ++
          [paren []])] ++ code "where __Pointee : '__local , __Target : __Signature <" ++
      [paren (each "," local_args)] ++ code ">" ++ [brace []])] ++ code "trait" ++ fallback ++
  [brace (code "fn" ++ method ++ code "< __Target >" ++
      [paren (code "& self , target : __Target , local : &" ++ [paren []])] ++ code ";")] ++
  code "impl < __Shape >" ++ fallback ++ code "for & __Declared < __Shape >" ++ [brace (code "fn" ++
      method ++ code "< __Target >" ++ [paren (code "& self , _ : __Target , _ : &" ++ [paren []]);
        brace []]); paren (code "& __Declared" ++ [paren target_name])] ++ code "." ++ method ++
  [paren (target_name ++ code ", &" ++ local)] ++ code ";".

(** The two loops. *)
Definition probes (types : list string) : Tokens :=
  concat ((λ index, concat (probe types index <$> [false; true])) <$> seq 0 (length types)).

(** The block of the check. *)
Definition check_block (source : Expr) (signature : TypeBareFn.t) (target : Expr) : Tokens :=
  let args := (λ arg, type_tokens (BareFnArg.ty arg)) <$> TypeBareFn.inputs signature in
  let idents_ := idents "__Arg" (length args) in
  let types := tok <$> idents_ in
  let names := mixed <$> idents "__arg" (length args) in
  let probes := probes idents_ in
  let local_value := if bool_decide (args = []) then [] else code "let" ++ local ++ code "=" ++ [paren []] ++ code ";" in
  [brace (code "trait __Signature < __Args >" ++ [brace (code "type Output ;")] ++
      code "impl < __Function , __Output ," ++ separated "," types ++ code "> __Signature <" ++
      [paren (each "," types)] ++
      code "> for __Function where __Function : :: std :: ops :: FnOnce" ++
      [paren (separated "," types)] ++ code "-> __Output" ++
      [brace (code "type Output = __Output ;")] ++ code "struct __Declared < __Shape >" ++
      [paren (code "__Shape")] ++ code "; fn __same_output < __Source , __Target ," ++
      separated "," types ++ code ">" ++ [paren (code "_ : __Source , _ : __Target , _ :" ++
          [paren (concat ((λ t, code "& mut" ++ t ++ code ",") <$> types))])] ++
      code "where __Source : __Signature <" ++ [paren (each "," types)] ++
      code "> , __Target : __Signature <" ++ [paren (each "," types)] ++
      code ", Output = < __Source as __Signature <" ++ [paren (each "," types)] ++
      code "> > :: Output >" ++ [brace []] ++ code "#" ++ [Group Bracket (code "allow" ++
          [paren (code "clippy :: type_complexity")])] ++ code "let _ : & mut dyn" ++
      binder_tokens (TypeBareFn.lifetimes signature) ++ code ":: std :: ops :: FnMut" ++
      [paren (separated "," args)] ++ code "= & mut |" ++ separated "," ((λ n, code "mut" ++
          n) <$> names) ++ code "|" ++ [brace (code "let" ++ target_name ++ code ":" ++
          bare_fn_tokens signature ++ code "=" ++ expr_tokens target ++ code ";" ++ local_value ++
          probes ++ code "__same_output" ++ [paren (expr_tokens source ++ code "," ++ target_name ++
              code "," ++ [paren (concat ((λ n, code "& mut" ++ n ++ code ",") <$> names))])] ++
          code ";")] ++ code ";")].

(** [check]. *)
Definition check (source : Expr) (signature : TypeBareFn.t) (target : Expr) : Tokens :=
  if TypeBareFn.unsafety signature || native (TypeBareFn.abi signature) then []
  else check_block source signature target.

(** ** [__replace_local!] *)

(** [expand_replacement] on a parsed input. *)
Definition replacement_tokens (r : Replacement.t) : Tokens :=
  let '(Input.Make root session source signature) := Replacement.mock r in
  let target := Replacement.target r in
  let abi := abi_tokens (TypeBareFn.abi signature) in
  let unsafety := unsafety_tokens (TypeBareFn.unsafety signature) in
  let types := tok <$> idents "__Arg" (length (TypeBareFn.inputs signature)) in
  let names := tok <$> idents "__arg" (length (TypeBareFn.inputs signature)) in
  [brace (code "struct __Site ; #" ++ [Group Bracket (code "allow" ++
          [paren (code "clippy :: too_many_arguments")])] ++ abi ++
      code "fn __dispatch < __Marker ," ++ each "," types ++ code "__Return >" ++
      [paren (separated "," (zip_with (λ n t, n ++ code ":" ++ t) names types))] ++
      code "-> __Return" ++ [brace (code "let address = __dispatch :: < __Marker ," ++
          each "," types ++ code "__Return > as * const" ++ [paren []] ++
          code "as usize ; let target =" ++ root ++ code ":: __private :: route" ++
          [paren (code "address")] ++ code ". expect" ++
          [paren ([literal "replacement is not active"])] ++ code ";" ++ root ++
          code ":: __invoke !" ++ [paren (code "target ," ++ abi ++ code "fn" ++
              [paren (separated "," types)] ++ code "-> __Return ," ++
              [paren (separated "," names)])])] ++ code "fn __install <" ++ each "," types ++
      code "__Return >" ++ [paren (code "session : & mut" ++ root ++ code ":: Session , source :" ++
          unsafety ++ abi ++ code "fn" ++ [paren (separated "," types)] ++
          code "-> __Return , target :" ++ unsafety ++ abi ++ code "fn" ++
          [paren (separated "," types)] ++ code "-> __Return ,")] ++
      code "-> :: std :: result :: Result <" ++ [paren []] ++ code "," ++ root ++
      code ":: Error >" ++ [brace (root ++ code ":: __install_replacement !" ++
          [paren (code "session , source as * const" ++ [paren []] ++
              code ", __dispatch :: < __Site ," ++ each "," types ++ code "__Return > as * const" ++
              [paren []] ++ code ", target as * const" ++ [paren []])])] ++ root ++
      code ":: __private :: check" ++ [paren (code "__install" ++ [paren (expr_tokens session ++
              code "," ++ expr_tokens source ++ code "," ++ expr_tokens target)])])].

(** ** [__mock!] *)

Section items.
Context (root : Tokens) (args names infer : list Tokens)
  (session source signature unsafety abi binder generics callable : Tokens)
  (output builder_output signature_check : Tokens).

(** [__ShimforgeRule], [__ShimforgeAction]. *)
Definition rule_item : Tokens :=
  code "struct __ShimforgeRule" ++ [brace (code "meta : :: std :: sync :: Arc <" ++ root ++
      code ":: __private :: Meta > , matcher : :: std :: boxed :: Box < dyn" ++ binder ++
      code ":: std :: ops :: Fn" ++ [paren (separated "," ((λ a, code "&" ++ a) <$> args))] ++
      code "-> bool + :: std :: marker :: Send + :: std :: marker :: Sync + 'static > , action : :: std :: sync :: Mutex < __ShimforgeAction > ,")].
Definition action_item : Tokens :=
  code "enum __ShimforgeAction" ++ [brace (code "Repeat" ++
      [paren (code ":: std :: boxed :: Box < dyn" ++ binder ++ code ":: std :: ops :: FnMut" ++
          [paren (separated "," args)] ++ code "->" ++ output ++
          code "+ :: std :: marker :: Send + 'static >")] ++ code ", Once" ++
      [paren (code ":: std :: option :: Option < :: std :: boxed :: Box < dyn" ++ binder ++
          code ":: std :: ops :: FnOnce" ++ [paren (separated "," args)] ++ code "->" ++ output ++
          code "+ :: std :: marker :: Send + 'static > >")] ++ code ",")].
Definition rule_impl : Tokens :=
  code "impl" ++ root ++ code ":: __private :: Rule for __ShimforgeRule" ++
  [brace (code "fn meta" ++ [paren (code "& self")] ++ code "-> & :: std :: sync :: Arc <" ++
      root ++ code ":: __private :: Meta >" ++ [brace (code "& self . meta")])].

(** The statics. *)
Definition statics : Tokens :=
  code ":: std :: thread_local !" ++
  [brace (code "static __SHIMFORGE_LOCAL : :: std :: cell :: RefCell < :: std :: option :: Option < :: std :: sync :: Arc <" ++
      root ++ code ":: __private :: State < __ShimforgeRule > > > > = const" ++
      [brace (code ":: std :: cell :: RefCell :: new" ++
          [paren (code ":: std :: option :: Option :: None")])] ++ code ";")] ++
  code "static __SHIMFORGE_GLOBAL : :: std :: sync :: Mutex < :: std :: option :: Option < :: std :: sync :: Arc <" ++
  root ++ code ":: __private :: State < __ShimforgeRule > > > > = :: std :: sync :: Mutex :: new" ++
  [paren (code ":: std :: option :: Option :: None")] ++
  code "; static __SHIMFORGE_GLOBAL_ACTIVE : :: std :: sync :: atomic :: AtomicBool = :: std :: sync :: atomic :: AtomicBool :: new" ++
  [paren (code "false")] ++ code ";".

(** [__shimforge_call]. *)
Definition call_item : Tokens :=
  code "#" ++ [Group Bracket (code "allow" ++ [paren (code "clippy :: too_many_arguments")])] ++
  abi ++ code "fn __shimforge_call" ++ generics ++ [paren (separated "," (zip_with (λ n a, n ++
          code ":" ++ a) names args))] ++ code "->" ++ output ++
  [brace (code "let state = __SHIMFORGE_LOCAL . try_with" ++
      [paren (code "| slot | slot . try_borrow" ++ [paren []] ++ code ". ok" ++ [paren []] ++
          code ". and_then" ++ [paren (code "| state | state . clone" ++ [paren []])])] ++
      code ". ok" ++ [paren []] ++ code ". flatten" ++ [paren []] ++ code ". or_else" ++
      [paren (code "||" ++ [brace (code "if __SHIMFORGE_GLOBAL_ACTIVE . load" ++
              [paren (code ":: std :: sync :: atomic :: Ordering :: Acquire"); brace (root ++
                  code ":: __private :: lock" ++ [paren (code "& __SHIMFORGE_GLOBAL")] ++
                  code ". clone" ++ [paren []])] ++ code "else" ++
              [brace (code ":: std :: option :: Option :: None")])])] ++
      code "; let state = match state" ++ [brace (code ":: std :: option :: Option :: Some" ++
          [paren (code "state")] ++ code "=> state , :: std :: option :: Option :: None =>" ++
          [brace (code "let address = __shimforge_call as * const" ++ [paren []] ++
              code "as usize ; let target =" ++ root ++ code ":: __private :: route" ++
              [paren (code "address")] ++ code ". expect" ++
              [paren ([literal "mock is not active"])] ++ code "; return" ++ root ++
              code ":: __invoke !" ++ [paren (code "target ," ++ callable ++ code "," ++
                  [paren (separated "," names)])] ++ code ";")])] ++
      code "; let _call = state . enter" ++ [paren []] ++ code "; let rule = state . select" ++
      [paren (code "& | rule |" ++ [paren (code "rule . matcher");
            paren (separated "," ((λ n, code "&" ++ n) <$> names))])] ++
      code "; let mut action =" ++ root ++ code ":: __private :: lock" ++
      [paren (code "& rule . action")] ++ code "; match & mut * action" ++
      [brace (code "__ShimforgeAction :: Repeat" ++ [paren (code "action")] ++ code "=> action" ++
          [paren (separated "," names)] ++ code ", __ShimforgeAction :: Once" ++
          [paren (code "action")] ++ code "=> action . take" ++ [paren []] ++ code ". expect" ++
          [paren ([literal "one-use return was already used"]); paren (separated "," names)] ++
          code ",")])].

(** [__ShimforgeMock]. *)
Definition mock_item : Tokens :=
  code "struct __ShimforgeMock" ++ [brace (code "state : :: std :: sync :: Arc <" ++ root ++
      code ":: __private :: State < __ShimforgeRule > > ,")] ++ code "impl __ShimforgeMock" ++
  [brace (code "pub fn expect" ++ [paren (code "& self")] ++ code "-> __ShimforgeBuilder <" ++
      builder_output ++ code ">" ++ [brace (code "__ShimforgeBuilder" ++
          [brace (code "state : self . state . clone" ++ [paren []] ++ code ", config :" ++ root ++
              code ":: __private :: Config :: default" ++ [paren []] ++
              code ", matcher : :: std :: boxed :: Box :: new" ++ [paren (code "|" ++
                  separated "," names ++ code "|" ++ [brace (code "let _ =" ++
                      [paren (separated "," names)] ++ code "; true")])] ++
              code ", output : :: std :: marker :: PhantomData ,")])] ++ code "#" ++
      [Group Bracket (code "track_caller")] ++ code "pub fn verify" ++ [paren (code "& self");
        brace (root ++ code ":: __private :: check" ++ [paren (code "self . state . verify" ++
              [paren []])])] ++ code "#" ++ [Group Bracket (code "track_caller")] ++
      code "pub fn checkpoint" ++ [paren (code "& self"); brace (root ++
          code ":: __private :: check" ++ [paren (code "self . state . checkpoint" ++
              [paren []])])])].

(** [__ShimforgeBuilder] and its methods. *)
Definition builder_item : Tokens :=
  code "struct __ShimforgeBuilder < __Output >" ++ [brace (code "state : :: std :: sync :: Arc <" ++
      root ++ code ":: __private :: State < __ShimforgeRule > > , config :" ++ root ++
      code ":: __private :: Config , matcher : :: std :: boxed :: Box < dyn" ++ binder ++
      code ":: std :: ops :: Fn" ++ [paren (separated "," ((λ a, code "&" ++ a) <$> args))] ++
      code "-> bool + :: std :: marker :: Send + :: std :: marker :: Sync + 'static > , output : :: std :: marker :: PhantomData < fn" ++
      [paren []] ++ code "-> __Output > ,")].
Definition with_item : Tokens :=
  code "pub fn with < __Matcher >" ++ [paren (code "mut self , matcher : __Matcher")] ++
  code "-> Self where __Matcher :" ++ binder ++ code ":: std :: ops :: Fn" ++
  [paren (separated "," ((λ a, code "&" ++ a) <$> args))] ++
  code "-> bool + :: std :: marker :: Send + :: std :: marker :: Sync + 'static" ++
  [brace (code "self . matcher = :: std :: boxed :: Box :: new" ++ [paren (code "matcher")] ++
      code "; self")].
Definition setter_items : Tokens :=
  code "pub fn times" ++ [paren (code "mut self , count : impl :: std :: convert :: Into <" ++
      root ++ code ":: CallCount >")] ++ code "-> Self" ++
  [brace (code "self . config = self . config . times" ++ [paren (code "count")] ++
      code "; self")] ++ code "pub fn once" ++ [paren (code "mut self")] ++ code "-> Self" ++
  [brace (code "self . config = self . config . once" ++ [paren []] ++ code "; self")] ++
  code "pub fn in_sequence" ++ [paren (code "mut self , sequence : &" ++ root ++
      code ":: Sequence")] ++ code "-> Self" ++
  [brace (code "self . config = self . config . in_sequence" ++ [paren (code "sequence")] ++
      code "; self")].
Definition returning_item : Tokens :=
  code "#" ++ [Group Bracket (code "track_caller")] ++ code "pub fn returning < __Action >" ++
  [paren (code "self , action : __Action")] ++ code "->" ++ root ++
  code ":: Expectation where __Action :" ++ binder ++ code ":: std :: ops :: FnMut" ++
  [paren (separated "," args)] ++ code "->" ++ output ++
  code "+ :: std :: marker :: Send + 'static" ++ [brace (root ++ code ":: __private :: check" ++
      [paren (code "self . state . add" ++
          [paren (code "self . config , | meta | __ShimforgeRule" ++
              [brace (code "meta , matcher : self . matcher , action : :: std :: sync :: Mutex :: new" ++
                  [paren (code "__ShimforgeAction :: Repeat" ++
                      [paren (code ":: std :: boxed :: Box :: new" ++ [paren (code "action")])])] ++
                  code ",")])])])].
Definition returning_once_item : Tokens :=
  code "#" ++ [Group Bracket (code "track_caller")] ++ code "pub fn returning_once < __Action >" ++
  [paren (code "self , action : __Action")] ++ code "->" ++ root ++
  code ":: Expectation where __Action :" ++ binder ++ code ":: std :: ops :: FnOnce" ++
  [paren (separated "," args)] ++ code "->" ++ output ++
  code "+ :: std :: marker :: Send + 'static" ++ [brace (code "let config =" ++ root ++
      code ":: __private :: check" ++ [paren (code "self . config . for_once" ++ [paren []])] ++
      code ";" ++ root ++ code ":: __private :: check" ++ [paren (code "self . state . add" ++
          [paren (code "config , | meta | __ShimforgeRule" ++
              [brace (code "meta , matcher : self . matcher , action : :: std :: sync :: Mutex :: new" ++
                  [paren (code "__ShimforgeAction :: Once" ++
                      [paren (code ":: std :: option :: Option :: Some" ++
                          [paren (code ":: std :: boxed :: Box :: new" ++
                              [paren (code "action")])])])] ++ code ",")])])])].
Definition never_item : Tokens :=
  code "#" ++ [Group Bracket (code "track_caller")] ++ code "pub fn never" ++
  [paren (code "self")] ++ code "->" ++ root ++ code ":: Expectation" ++
  [brace (code "self . times" ++ [paren (code "0usize")] ++ code ". panics" ++
      [paren ([literal "forbidden mock call"])])].
Definition panics_item : Tokens :=
  code "#" ++ [Group Bracket (code "track_caller")] ++ code "pub fn panics" ++
  [paren (code "self , message : impl :: std :: convert :: Into < :: std :: string :: String >")] ++
  code "->" ++ root ++ code ":: Expectation" ++ [brace (code "let message = message . into" ++
      [paren []] ++ code "; self . returning" ++ [paren (code "move |" ++ separated "," names ++
          code "|" ++ [brace (code "let _ =" ++ [paren (separated "," names)] ++
              code "; :: std :: panic !" ++ [paren ([literal "{}"] ++ code ", message")])])])].
Definition builder_impl : Tokens :=
  code "impl < __Output > __ShimforgeBuilder < __Output >" ++
  [brace (with_item ++ setter_items ++ returning_item ++ returning_once_item ++ never_item ++ panics_item)].

(** [constants]: the helpers for outputs that borrow nothing. *)
Definition constants_tokens : Tokens :=
  code "impl < __Output > __ShimforgeBuilder < __Output > where __Output : :: std :: marker :: Send + 'static + :: std :: convert :: Into <" ++
  output ++ code ">" ++ [brace (code "#" ++ [Group Bracket (code "track_caller")] ++
      code "pub fn returns" ++ [paren (code "self , value : __Output")] ++ code "->" ++ root ++
      code ":: Expectation where __Output : :: std :: clone :: Clone" ++
      [brace (code "self . returning" ++ [paren (code "move |" ++ separated "," names ++ code "|" ++
              [brace (code "let _ =" ++ [paren (separated "," names)] ++ code "; value . clone" ++
                  [paren []] ++ code ". into" ++ [paren []])])])] ++ code "#" ++
      [Group Bracket (code "track_caller")] ++ code "pub fn return_once" ++
      [paren (code "self , value : __Output")] ++ code "->" ++ root ++ code ":: Expectation" ++
      [brace (code "self . returning_once" ++ [paren (code "move |" ++ separated "," names ++
              code "|" ++ [brace (code "let _ =" ++ [paren (separated "," names)] ++
                  code "; value . into" ++ [paren []])])])] ++ code "#" ++
      [Group Bracket (code "track_caller")] ++ code "pub fn returns_default" ++
      [paren (code "self")] ++ code "->" ++ root ++
      code ":: Expectation where __Output : :: std :: default :: Default" ++
      [brace (code "self . returning" ++ [paren (code "|" ++ separated "," names ++ code "|" ++
              [brace (code "let _ =" ++ [paren (separated "," names)] ++
                  code "; __Output :: default" ++ [paren []] ++ code ". into" ++ [paren []])])])])].

(** The installation. *)
Definition checked_source : Tokens :=
  code "let __shimforge_original =" ++ source ++ code ";" ++ signature_check ++
  code "let __shimforge_source = __shimforge_original as" ++ unsafety ++ abi ++ code "fn" ++
  [paren (separated "," infer)] ++ code "-> _ ; #" ++ [Group Bracket (code "allow" ++
      [paren (code "clippy :: type_complexity")])] ++ code "let __shimforge_target :" ++
  signature ++ code "= __shimforge_call ; fn __shimforge_checked < T >" ++
  [paren (code "source : T , _ : T")] ++ code "-> T" ++ [brace (code "source")] ++
  code "let __shimforge_source = __shimforge_checked" ++
  [paren (code "__shimforge_source , __shimforge_target")] ++ code ";".
Definition slot_block : Tokens :=
  code "let __shimforge_session =" ++ [paren session] ++ code ". __borrow" ++ [paren []] ++
  code "; let __shimforge_thread = __shimforge_session . __thread" ++ [paren []] ++
  code "; let __shimforge_state =" ++ root ++ code ":: __private :: State :: new" ++
  [paren (code ":: std :: stringify !" ++ [paren source])] ++
  code "; let __shimforge_set = | slot : & mut :: std :: option :: Option < :: std :: sync :: Arc <" ++
  root ++ code ":: __private :: State < __ShimforgeRule > > > |" ++
  [brace (code "if slot . is_some" ++ [paren [];
        brace (code "return :: std :: result :: Result :: Err" ++ [paren (root ++
              code ":: Error :: Expectation" ++ [paren ([literal "mock site is already active"] ++
                  code ". into" ++ [paren []])])] ++ code ";")] ++
      code "* slot = :: std :: option :: Option :: Some" ++
      [paren (code "__shimforge_state . clone" ++ [paren []])] ++
      code "; :: std :: result :: Result :: Ok" ++ [paren ([paren []])])] ++
  code "; if __shimforge_thread . is_some" ++ [paren []; brace (code "__SHIMFORGE_LOCAL . with" ++
      [paren (code "| slot | __shimforge_set" ++ [paren (code "& mut slot . borrow_mut" ++
              [paren []])])] ++ code "? ;")] ++ code "else" ++ [brace (code "__shimforge_set" ++
      [paren (code "& mut" ++ root ++ code ":: __private :: lock" ++
          [paren (code "& __SHIMFORGE_GLOBAL")])] ++ code "? ; __SHIMFORGE_GLOBAL_ACTIVE . store" ++
      [paren (code "true , :: std :: sync :: atomic :: Ordering :: Release")] ++ code ";")].
Definition detach_block : Tokens :=
  code "let __shimforge_detach = :: std :: boxed :: Box :: new" ++ [paren (code "move ||" ++
      [brace (code "let state = if __shimforge_thread . is_some" ++ [paren [];
            brace (code "__SHIMFORGE_LOCAL . with" ++ [paren (code "| slot | slot . borrow_mut" ++
                  [paren []] ++ code ". take" ++ [paren []])])] ++ code "else" ++
          [brace (code "__SHIMFORGE_GLOBAL_ACTIVE . store" ++
              [paren (code "false , :: std :: sync :: atomic :: Ordering :: Release")] ++
              code ";" ++ root ++ code ":: __private :: lock" ++
              [paren (code "& __SHIMFORGE_GLOBAL")] ++ code ". take" ++ [paren []])] ++
          code "; :: std :: mem :: drop" ++ [paren (code "state")] ++ code ";")])] ++ code ";".
Definition install_block : Tokens :=
  root ++ code ":: __install !" ++
  [paren (code "__shimforge_session , __shimforge_source as * const" ++ [paren []] ++
      code ", __shimforge_target as * const" ++ [paren []] ++ code ", __shimforge_state . clone" ++
      [paren []] ++ code ", __shimforge_detach")] ++ code "? ; :: std :: result :: Result :: Ok" ++
  [paren (code "__ShimforgeMock" ++ [brace (code "state : __shimforge_state")])].
Definition installation : Tokens :=
  root ++ code ":: __private :: check" ++ [paren ([paren (
    code "|| -> :: std :: result :: Result < __ShimforgeMock ," ++ root ++ code ":: Error >" ++
    [brace (checked_source ++ slot_block ++ detach_block ++ install_block)]); paren []])].
End items.

(** The type of the values the function returns. *)
Definition output_type (signature : TypeBareFn.t) : Type_ :=
  match TypeBareFn.output signature with
  | None => Type_Other [] [] [paren []]
  | Some ty => ty
  end.

(** [generate]. *)
Definition generate (input : Input.t) : Tokens :=
  let '(Input.Make root session source signature) := input in
  let args := (λ arg, type_tokens (BareFnArg.ty arg)) <$> TypeBareFn.inputs signature in
  let saved_source := Expr_Path (code "__shimforge_original") in
  let signature_check :=
    check (source_item source saved_source) signature (Expr_Path (code "__shimforge_call")) in
  let names := tok <$> idents "__shimforge_arg_" (length args) in
  let infer := (λ _, code "_") <$> args in
  let output := type_tokens (output_type signature) in
  let builder_output := if borrowed (output_type signature) then [paren []] else output in
  let constants := if borrowed (output_type signature) then [] else constants_tokens root names output in
  let binder := binder_tokens (TypeBareFn.lifetimes signature) in
  let unsafety := unsafety_tokens (TypeBareFn.unsafety signature) in
  let abi := abi_tokens (TypeBareFn.abi signature) in
  let callable := bare_fn_tokens (TypeBareFn.Make None false (TypeBareFn.abi signature)
    (TypeBareFn.inputs signature) (TypeBareFn.variadic signature) (TypeBareFn.output signature)) in
  let generics :=
    match TypeBareFn.lifetimes signature with
    | Some parameters => code "<" ++ lifetimes_tokens parameters ++ code ">"
    | None => []
    end in
  [brace (
    rule_item root args binder ++ action_item args binder output ++ rule_impl root ++ statics root ++
    call_item root args names abi generics callable output ++
    mock_item root names builder_output ++
    builder_item root args binder ++
    builder_impl root args names binder output ++
    constants ++
    installation root infer (expr_tokens session) (expr_tokens source) (bare_fn_tokens signature)
      unsafety abi signature_check)].

(** ** The entry points *)

Section entry.
Context {syn : Syn}.

Definition expand_with {A} (f : A → Tokens) (input : outcome SynError A)
  : outcome SynError Tokens :=
  match input with
  | Ok a => Ok (f a)
  | Err e => Ok (into_compile_error e)
  | Panic message => Panic message
  | Abort => Abort
  end.

(** [expand], [expand_check], [expand_replacement]. *)
Definition expand : outcome SynError Input.t → outcome SynError Tokens := expand_with generate.
Definition expand_check : outcome SynError SignatureCheck.t → outcome SynError Tokens :=
  expand_with (λ c,
    check (source_item (SignatureCheck.source c) (SignatureCheck.value c))
      (SignatureCheck.signature c) (SignatureCheck.target c)).
Definition expand_replacement : outcome SynError Replacement.t → outcome SynError Tokens :=
  expand_with replacement_tokens.

(** [__mock], [__check_signature], [__replace_local]. *)
Definition mock_macro (input : Tokens) : outcome SynError Tokens :=
  expand (parse parse_input input).
Definition check_signature_macro (input : Tokens) : outcome SynError Tokens :=
  expand_check (parse parse_signature_check input).
Definition replace_local_macro (input : Tokens) : outcome SynError Tokens :=
  expand_replacement (parse parse_replacement input).

(** [mock!] of [src/src/lib.rs]. *)
Definition mock_rules (crate input : Tokens) : outcome SynError Tokens :=
  mock_macro (crate ++ code "," ++ input).
End entry.

(** ** Names *)

Lemma app_char_inj (s s' : string) (c c' : ascii) :
  s +:+ String c "" = s' +:+ String c' "" → s = s' ∧ c = c'.
Proof.
  revert s'. induction s as [|x s IH]; intros [|x' s']; simpl; intros H.
  - by injection H.
  - exfalso. injection H as _ H. by destruct s'.
  - exfalso. injection H as _ H. by destruct s.
  - injection H as -> H. apply IH in H as [-> ->]. done.
Qed.

#[export] Instance format_ident_inj name : Inj (=) (=) (format_ident name).
Proof. intros i j H. unfold format_ident in H. by apply (inj (String.append name)), (inj pretty) in H. Qed.

Lemma probe_ident_inj name i j m m' :
  probe_ident name i m = probe_ident name j m' → i = j ∧ m = m'.
Proof.
  unfold probe_ident. intros H.
  assert (∀ b : bool, (if b then "1" else "0") = String (if b then "1" else "0")%char "") as Hc
    by (by intros []).
  rewrite !Hc in H. apply app_char_inj in H as [Hi Hm]. split; [by apply (inj (format_ident name))|].
  by destruct m, m'.
Qed.

Lemma idents_NoDup name n : NoDup (idents name n).
Proof. apply NoDup_fmap_2; [apply _|apply NoDup_seq]. Qed.

(** ** Items *)

Definition item_keyword (s : string) : bool :=
  String.eqb s "trait" || String.eqb s "struct" || String.eqb s "fn".

(** The items a stream declares at its top level. *)
Fixpoint items (ts : Tokens) : list string :=
  match ts with
  | [] => []
  | Tok k :: rest =>
      match rest with
      | Tok n :: _ => if item_keyword k then n :: items rest else items rest
      | _ => items rest
      end
  | _ :: rest => items rest
  end.

Definition plain (t : TokenTree) : bool :=
  match t with Tok s => negb (item_keyword s) | _ => true end.

Lemma items_plain ts rest : forallb plain ts = true → items (ts ++ rest) = items rest.
Proof.
  induction ts as [|t ts IH]; [done|]. simpl. intros [Ht Hts]%andb_true_iff.
  destruct t as [k|k|d l]; simpl; [|by apply IH..]. apply negb_true_iff in Ht.
  rewrite Ht, IH by done. by destruct (ts ++ rest) as [|[]].
Qed.

Lemma items_declare k n ts :
  item_keyword k = true → items (Tok k :: Tok n :: ts) = n :: items (Tok n :: ts).
Proof. intros Hk. simpl. by rewrite Hk. Qed.

Lemma plain_separated sep items :
  plain (Tok sep) = true → Forall (λ ts, forallb plain ts = true) items →
  forallb plain (separated sep items) = true.
Proof.
  intros Hs Hi. induction Hi as [|ts items Hts Hi IH]; [done|]. simpl.
  destruct items; [done|]. rewrite forallb_app, Hts. simpl. simpl in Hs. by rewrite Hs.
Qed.

(** The names the check makes up begin with an underscore. *)
Lemma other_plain n index : forallb plain (separated "," (other_types (idents "__Arg" n) index)) = true.
Proof.
  apply plain_separated; [done|]. apply Forall_forall.
  intros ts (ty & -> & Hty)%list_elem_of_fmap. apply list_elem_of_omap in Hty as ([i ty'] & Hin & Hty).
  destruct (i =? index)%nat; [done|]. injection Hty as ->.
  apply elem_of_lookup_imap in Hin as (k & x & [= -> ->] & Hx).
  apply list_lookup_fmap_Some in Hx as (z & -> & _). done.
Qed.

Lemma items_trait n ts : items (code "trait" ++ tok n ++ ts) = n :: items (tok n ++ ts).
Proof. done. Qed.

(** Skip the tokens that declare nothing. *)
Ltac skip_plain := repeat (rewrite items_plain by (assumption || reflexivity)).

Lemma probe_items n index mutable rest :
  items (probe (idents "__Arg" n) index mutable ++ rest) =
  probe_ident "__Input" index mutable :: probe_ident "__Fallback" index mutable :: items rest.
Proof.
  unfold probe. rewrite <-!app_assoc. pose proof (other_plain n index) as Ho.
  rewrite items_trait. f_equal. skip_plain. rewrite items_trait. f_equal. by skip_plain.
Qed.

(** The traits of the probes. *)
Definition probe_names (n : nat) : list string :=
  index ← seq 0 n; m ← [false; true];
  [probe_ident "__Input" index m; probe_ident "__Fallback" index m].

Lemma probes_items n rest : items (probes (idents "__Arg" n) ++ rest) = probe_names n ++ items rest.
Proof.
  unfold probes, probe_names. unfold idents at 2. rewrite length_fmap, length_seq.
  induction (seq 0 n) as [|index l IH]; [done|]. cbn [fmap list_fmap concat].
  rewrite <-!app_assoc, !probe_items. cbn [app mbind list_bind]. do 4 f_equal. exact IH.
Qed.

Lemma elem_of_probe_names n s :
  s ∈ probe_names n ↔ ∃ index m, (index < n)%nat ∧
    (s = probe_ident "__Input" index m ∨ s = probe_ident "__Fallback" index m).
Proof.
  unfold probe_names. rewrite list_elem_of_bind. setoid_rewrite list_elem_of_bind.
  setoid_rewrite elem_of_seq. split.
  - intros (i & (m & Hs & _) & Hi). exists i, m. split; [lia|set_solver].
  - intros (i & m & Hi & Hs). exists i. split; [|lia]. exists m.
    split; [destruct Hs; set_solver|destruct m; set_solver].
Qed.

Lemma probe_names_NoDup n : NoDup (probe_names n).
Proof.
  unfold probe_names. rewrite <-(app_nil_l (seq 0 n ≫= _)).
  assert (∀ l, NoDup l → NoDup (l ≫= λ index, m ← [false; true];
    [probe_ident "__Input" index m; probe_ident "__Fallback" index m])) as Hl; [|apply Hl, NoDup_seq].
  induction 1 as [|index l Hin _ IH]; [constructor|]. cbn [mbind list_bind].
  assert (∀ i j m m', probe_ident "__Input" i m ≠ probe_ident "__Fallback" j m') as Hne by done.
  assert (∀ s, s ∈ (l ≫= λ index, m ← [false; true];
    [probe_ident "__Input" index m; probe_ident "__Fallback" index m]) →
    ∃ j m, j ∈ l ∧ (s = probe_ident "__Input" j m ∨ s = probe_ident "__Fallback" j m)) as Hs.
  { intros s (j & (m & Hs & _)%list_elem_of_bind & Hj)%list_elem_of_bind. exists j, m. set_solver. }
  assert (∀ s, s ∈ (m ← [false; true];
    [probe_ident "__Input" index m; probe_ident "__Fallback" index m]) →
    ∃ m, s = probe_ident "__Input" index m ∨ s = probe_ident "__Fallback" index m) as Hi.
  { intros s (m & Hs' & _)%list_elem_of_bind. exists m. set_solver. }
  apply NoDup_app. split_and!; [| |done].
  - cbn. repeat (apply NoDup_cons; split); try apply NoDup_nil_2; intros H;
      repeat (apply elem_of_cons in H as [H|H]); try (by apply elem_of_nil in H); try done;
      by apply probe_ident_inj in H as [_ [=]].
  - intros s (m & Hm)%Hi (j & m' & Hj & Hm')%Hs.
    destruct Hm as [->| ->], Hm' as [H|H];
      [by apply probe_ident_inj in H as [-> _]|by apply Hne in H|by symmetry in H; apply Hne in H
      |by apply probe_ident_inj in H as [-> _]].
Qed.

(** The probes of a function with [n] inputs declare two traits for every
    input and mutability, all with different names, so that every input is
    probed on its own: the generated block has no name twice, however many
    inputs there are. *)
Theorem probes_distinct n :
  items (probes (idents "__Arg" n)) = probe_names n ∧
  length (probe_names n) = (4 * n)%nat ∧
  NoDup (["__Signature"; "__Declared"; "__same_output"] ++ probe_names n) ∧
  NoDup (["__Shape"; "__Pointee"; "__Function"; "__Output"; "__Source"; "__Target"] ++ idents "__Arg" n).
Proof.
  split_and!.
  - pose proof (probes_items n []) as H. by rewrite !app_nil_r in H.
  - unfold probe_names. rewrite <-(length_seq n 0) at 2.
    induction (seq 0 n) as [|i l IH]; [done|]. cbn in *. lia.
  - apply NoDup_app. split_and!; [apply (bool_decide_unpack _); vm_compute; exact I| |apply probe_names_NoDup].
    intros s Hs (i & m & _ & [->| ->])%elem_of_probe_names; set_solver.
  - apply NoDup_app. split_and!; [apply (bool_decide_unpack _); vm_compute; exact I| |apply idents_NoDup].
    intros s Hs (i & -> & _)%list_elem_of_fmap. set_solver.
Qed.

(** ** The names an expansion uses *)

Fixpoint mentions (x : string) (t : TokenTree) : bool :=
  match t with
  | Tok s | Mixed s => String.eqb s x
  | Group _ ts => existsb (mentions x) ts
  end.
Definition uses (x : string) (ts : Tokens) : bool := existsb (mentions x) ts.

Section uses.
Context (x : string).

Lemma uses_app ts ts' : uses x (ts ++ ts') = uses x ts || uses x ts'.
Proof. apply existsb_app. Qed.










End uses.
















Lemma uses_app_r x ts ts' : uses x ts' = true → uses x (ts ++ ts') = true.
Proof. rewrite uses_app. intros ->. apply orb_true_r. Qed.
Lemma uses_app_l x ts ts' : uses x ts = true → uses x (ts ++ ts') = true.
Proof. rewrite uses_app. by intros ->. Qed.






(** ** From the user's macros to the expansion *)

Definition name_expr (name : string) : Expr := Expr_Path (code name).

(** C37. The procedural macros read back exactly what they are given.  [mock!]
    with a session, a function and a signature, with or without a comma at
    the end, expands to the mock of that function, or to a compile error when
    the signature is variadic.  [__check_signature!] with a source, its saved
    value, a target and a signature expands to the check of the source
    without the groups around it when it is a path, and of the saved value
    otherwise; [__replace_local!] with a session, a source, a target and a
    signature expands to the dispatcher for exactly these.  Both take no comma
    at the end: it is a compile error. *)
Theorem macro_inputs_roundtrip {syn : Syn} crate session source value target signature
    pcrate psession psource pvalue ptarget psig last :
  parses parse_path pcrate crate → parses parse_expr psession session →
  parses parse_expr psource source → parses parse_expr pvalue value →
  parses parse_expr ptarget target → parses parse_bare_fn psig signature →
  last = [] ∨ last = code "," →
  mock_rules pcrate (separated "," [psession; psource; psig] ++ last) =
    Ok (if TypeBareFn.variadic signature
        then into_compile_error
          (new_spanned (bare_fn_tokens signature) "mock! does not support variadic functions")
        else generate (Input.Make crate session source signature)) ∧
  check_signature_macro (separated "," [psource; pvalue; ptarget; psig] ++ last) =
    Ok (if bool_decide (last = [])
        then check (if is_path (inner source) then inner source else value) signature target
        else into_compile_error (unexpected last)) ∧
  replace_local_macro (separated "," [pcrate; psession; psource; ptarget; psig] ++ last) =
    Ok (if bool_decide (last = [])
        then replacement_tokens
               (Replacement.Make (Input.Make crate session source signature) target)
        else into_compile_error (unexpected last)).
Proof.
  intros Hc Hse Hso Hv Ht Hsig Hlast.
  assert (stops last) as Hstop by (destruct Hlast as [->| ->]; [apply stops_end|apply stops_comma]).
  split_and!.
  - unfold mock_rules, mock_macro. change (code ",") with [Tok ","] in *. cbn [app].
    pose proof (parse_input_complete _ _ _ _ _ _ _ _ last Hc Hse Hso Hsig Hlast) as Hp.
    cbn [separated] in Hp |- *. rewrite <-app_assoc in Hp. cbn [app] in Hp. rewrite Hp.
    by destruct (TypeBareFn.variadic signature).
  - unfold check_signature_macro.
    rewrite (parse_signature_check_complete source value target signature) by done.
    destruct Hlast as [->| ->]; [|done]. simpl. unfold expand_check, expand_with. simpl.
    by rewrite source_item_inner.
  - unfold replace_local_macro.
    rewrite (parse_replacement_complete crate session source target signature) by done.
    by destruct Hlast as [->| ->].
Qed.

(** ** A small parser *)

(** One token per path and name, a group of one token, and functions without
    arguments. *)
Module SynDemo.
Definition unit_fn (variadic : bool) : TypeBareFn.t :=
  TypeBareFn.Make None false None [] variadic None.

#[global] Instance demo : Syn := {
  SynError := string;
  new_spanned _ message := message;
  expected what _ := what;
  unexpected _ := "unexpected token";
  into_compile_error message := code "compile_error !" ++ [paren [literal message]];
  parse_path ts := match ts with t :: ts => Ok ([t], ts) | [] => Err "path" end;
  parse_expr ts := match ts with
                   | Group Invisible l :: ts => Ok (Expr_Group (Expr_Path l), ts)
                   | t :: ts => Ok (Expr_Path [t], ts)
                   | [] => Err "expression"
                   end;
  parse_bare_fn ts := match ts with
                      | Tok "fn" :: Group Parenthesis [] :: ts => Ok (unit_fn false, ts)
                      | Tok "fn" :: Group Parenthesis [Tok "..."] :: ts => Ok (unit_fn true, ts)
                      | _ => Err "function type"
                      end }.
End SynDemo.

(** [mock!(my_session, now, fn(),)] and [replace!(my_session, now => fake, fn())]. *)
Lemma macro_inputs_roundtrip_witness :
  mock_rules (code "$crate") (separated "," [code "my_session"; [Group Invisible (code "now")];
      [Tok "fn"; paren []]] ++ code ",") =
    Ok (generate (Input.Make (code "$crate") (name_expr "my_session") (Expr_Group (name_expr "now"))
      (SynDemo.unit_fn false))) ∧
  check_signature_macro (separated "," [[Group Invisible (code "now")]; code "original";
      code "fake"; [Tok "fn"; paren []]]) =
    Ok (check (name_expr "now") (SynDemo.unit_fn false) (name_expr "fake")).
Proof.
  split.
  - edestruct (macro_inputs_roundtrip (code "$crate") (name_expr "my_session")
      (Expr_Group (name_expr "now")) (name_expr "original") (name_expr "fake") (SynDemo.unit_fn false)
      (code "$crate") (code "my_session") [Group Invisible (code "now")] (code "original")
      (code "fake") [Tok "fn"; paren []] (code ",")) as (H1 & _);
      [intros rest _; reflexivity..|right; reflexivity|exact H1].
  - edestruct (macro_inputs_roundtrip (code "$crate") (name_expr "my_session")
      (Expr_Group (name_expr "now")) (name_expr "original") (name_expr "fake") (SynDemo.unit_fn false)
      (code "$crate") (code "my_session") [Group Invisible (code "now")] (code "original")
      (code "fake") [Tok "fn"; paren []] []) as (_ & H2 & _);
      [intros rest _; reflexivity..|left; reflexivity|exact H2].
Defined.

