(* ===== verification/Behaviour.v ===== *)
(** * What a mock promises to a test

    The interface of [mock!] as a test sees it: [Spec] is a mock without
    heap, locks, tickets or closures behind mutexes, a list of expectations
    with the calls each has seen.  [mock_refines_spec] shows that the code
    [mock!] expands to ([src/macros/src/lib.rs]), over expectations
    ([src/src/expectation.rs]) and sessions ([src/src/lib.rs]), behaves like
    it on every script of expectations, calls, verifications and checkpoints,
    outcome by outcome. *)

From S2P Require Import Prelude Errors Memory Executable X86 Code Routing Expectations Session Calls Mock.

#[local] Open Scope Z_scope.
#[local] Set Default Proof Using "Type*".

(** ** The abstract mock *)

Module Spec.
(** An expectation: the arguments it is for, how often, what it answers, and
    the calls it has seen. *)
Record rule (A V : Type) := Rule {
  accepts : A → bool;
  least : Z;
  most : option Z;
  respond : list A → A → result V;
  seen : list A }.
Arguments Rule {A V}. Arguments accepts {A V}. Arguments least {A V}. Arguments most {A V}.
Arguments respond {A V}. Arguments seen {A V}.

(** A mock: its expectations in the order they were added, and the first
    failure. *)
Record mock (A V : Type) := Mock {
  name : string;
  rules : list (rule A V);
  failed : option Error }.
Arguments Mock {A V}. Arguments name {A V}. Arguments rules {A V}. Arguments failed {A V}.

(** What a test does with a mock. *)
Inductive op (A V : Type) :=
| Call (thread : nat) (args : A)
| Expect (count : option CallCount.bounds) (accepts : A → bool) (respond : list A → A → result V)
| ExpectOnce (count : option CallCount.bounds) (accepts : A → bool) (respond : A → result V)
| Verify
| Checkpoint.
Arguments Call {A V}. Arguments Expect {A V}. Arguments ExpectOnce {A V}. Arguments Verify {A V}.
Arguments Checkpoint {A V}.

Section spec.
Context {A V : Type}.
Implicit Types (r : rule A V) (m : mock A V).

Definition calls r : Z := Z.of_nat (length (seen r)).
Definition used_up r : bool :=
  match most r with Some n => (0 <? n) && (n <=? calls r) | None => false end.
Definition saw (args : A) r : rule A V :=
  Rule (accepts r) (least r) (most r) (respond r) (seen r ++ [args]).

(** The expectation that decides about a call: the first one that is for its
    arguments and not used up. *)
Fixpoint serve (args : A) (rs : list (rule A V))
  : option (list (rule A V) * rule A V * list (rule A V)) :=
  match rs with
  | [] => None
  | r :: rs =>
      if accepts r args && negb (used_up r) then Some ([], r, rs)
      else '(pre, q, post) ← serve args rs; Some (r :: pre, q, post)
  end.

Definition reject (reason : string) m : result V * mock A V :=
  let e := error (name m +:+ ": " +:+ reason) in
  (Panic (display e), Mock (name m) (rules m) (Some (default e (failed m)))).

Definition call (args : A) m : result V * mock A V :=
  match serve args (rules m) with
  | None =>
      reject (if existsb (λ r, accepts r args) (rules m)
              then "matching expectations are exhausted"
              else "no expectation matched this call") m
  | Some (pre, r, post) =>
      if bool_decide (most r = Some 0) then reject "a forbidden call was made" m
      else if calls r =? usize_max then reject "call count overflow" m
      else (respond r (seen r) args, Mock (name m) (pre ++ saw args r :: post) (failed m))
  end.

(** The first failure, or the first expectation with calls missing. *)
Fixpoint missing (nm : string) (rs : list (rule A V)) : result unit :=
  match rs with
  | [] => Ok tt
  | r :: rs =>
      if calls r <? least r
      then Err (error (nm +:+ ": expected at least " +:+ pretty (least r) +:+
                       " calls, observed " +:+ pretty (calls r)))
      else missing nm rs
  end.
Definition verify m : result unit :=
  match failed m with Some e => Err e | None => missing (name m) (rules m) end.

Definition push (count : result CallCount.t) (f : A → bool) (g : list A → A → result V) m
  : result unit * mock A V :=
  match count with
  | Ok n =>
      (Ok tt, Mock (name m) (rules m ++ [Rule f (CallCount.min n) (CallCount.max n) g []]) (failed m))
  | Err e => (Err e, m)
  | Panic message => (Panic message, m)
  | Abort => (Abort, m)
  end.

(** The configuration of an expectation without a sequence. *)
Definition config (count : option CallCount.bounds) : Config.t :=
  Config.Make (CallCount.from <$> count) None.

(** One step of a test: a call gives its answer, the others nothing. *)
Definition step (o : op A V) m : result (option V) * mock A V :=
  match o with
  | Call _ args => let '(r, m') := call args m in (Some <$> r, m')
  | Expect count f g =>
      let '(r, m') := push (Config.validate (config count)) f g m in
      (r ← check r; Ok None, m')
  | ExpectOnce count f g =>
      let '(r, m') :=
        push (c ← Config.for_once (config count); Config.validate c) f (λ _, g) m in
      (r ← check r; Ok None, m')
  | Verify => (r ← check (verify m); Ok None, m)
  | Checkpoint =>
      match verify m with
      | Ok _ => (Ok None, Mock (name m) [] (failed m))
      | r => (r ← check r; Ok None, m)
      end
  end.

Fixpoint trace (ops : list (op A V)) m : list (result (option V)) * mock A V :=
  match ops with
  | [] => ([], m)
  | o :: ops =>
      let '(r, m) := step o m in
      let '(rs, m) := trace ops m in
      (r :: rs, m)
  end.

Lemma serve_first args pre r post :
  Forall (λ q, accepts q args = true → used_up q = true) pre →
  accepts r args = true → used_up r = false →
  serve args (pre ++ r :: post) = Some (pre, r, post).
Proof.
  intros Hpre Ha Hu. induction Hpre as [|q pre Hq _ IH]; simpl; [by rewrite Ha, Hu|].
  rewrite IH. destruct (accepts q args); [|done]. by rewrite Hq.
Qed.

Lemma serve_nobody args rs :
  Forall (λ q, accepts q args = true → used_up q = true) rs → serve args rs = None.
Proof.
  induction 1 as [|q rs Hq _ IH]; simpl; [done|]. rewrite IH.
  destruct (accepts q args); [|done]. by rewrite Hq.
Qed.
End spec.
End Spec.

(** ** The script on the generated code *)

Section script.
Context {P A V : Type} `{!Platform P, !Pages P, !Code}.
Abbreviation C := (scope P (ShimforgeRule.t A) (site A V)).
Abbreviation T := (M Error C).

(** [mock.expect().with(accepts).times(count)]. *)
Definition builder (k : nat) (count : option CallCount.bounds) (accepts : A → bool) : Builder.t A :=
  let b := Builder.with_matcher accepts (Builder.expect k) in
  match count with Some n => Builder.times n b | None => b end.

Definition perform (dispatcher : Z) (k : nat) (o : Spec.op A V) : T (option V) :=
  match o with
  | Spec.Call th args =>
      r ← shimforge_call th dispatcher args;
      mret (match r with Answer v => Some v | Invoke _ => None end)
  | Spec.Expect count f g => mock_returning g (builder k count f);; mret None
  | Spec.ExpectOnce count f g => mock_returning_once g (builder k count f);; mret None
  | Spec.Verify => mock_verify k;; mret None
  | Spec.Checkpoint => mock_checkpoint k;; mret None
  end.

(** A test that goes on after a panic. *)
Fixpoint perform_all (dispatcher : Z) (k : nat) (ops : list (Spec.op A V)) (c : C)
  : list (result (option V)) * C :=
  match ops with
  | [] => ([], c)
  | o :: ops =>
      let '(r, c) := perform dispatcher k o c in
      let '(rs, c) := perform_all dispatcher k ops c in
      (r :: rs, c)
  end.
End script.

(** ** The refinement relation *)

Section refinement.
Context {P A V : Type} `{!Platform P, !Pages P, !Code}.
Abbreviation C := (scope P (ShimforgeRule.t A) (site A V)).
Implicit Types (c : C) (r : ShimforgeRule.t A) (a : Spec.rule A V) (m : Spec.mock A V).

(** The action of an expectation: a closure that saw the same calls, or a
    one-use response that is there until the first call. *)
Inductive action_rep a : option (ShimforgeAction A V) → Prop :=
| rep_repeat : action_rep a (Some (Repeat (Spec.respond a) (Spec.seen a)))
| rep_once f n :
    Spec.most a = Some n → n ≤ 1 → Spec.respond a = (λ _, f) → Spec.seen a = [] →
    action_rep a (Some (Once (Some f)))
| rep_gone n :
    Spec.most a = Some n → n ≤ 1 → Spec.seen a ≠ [] → action_rep a (Some (Once None)).

Definition meta_rep (nm : string) (failed : option Error) a (x : Meta.t) : Prop :=
  Meta.name x = nm ∧ Meta.count x = CallCount.Make (Spec.least a) (Spec.most a) ∧
  Meta.calls x = Spec.calls a ∧ Meta.ticket x = None ∧
  (failed = None → Meta.failure x = None).

Record rule_rep (ms : list Meta.t) (acts : list (ShimforgeAction A V)) nm failed r a : Prop := {
  rep_matcher : ShimforgeRule.matcher r = Spec.accepts a;
  rep_meta : ∃ x, ms !! meta r = Some x ∧ meta_rep nm failed a x;
  rep_action : action_rep a (acts !! ShimforgeRule.action r) }.

(** In the heap [w], with the actions [acts], the mock [k] is [m]. *)
Record holds (w : World (ShimforgeRule.t A)) (acts : list (ShimforgeAction A V)) (k : nat) m : Prop := {
  h_world : world_ok w;
  h_mock : ∃ s, mocks w !! k = Some s ∧ State.active s = true ∧
    State.name s = Spec.name m ∧ State.failure s = Spec.failed m ∧
    Forall2 (rule_rep (metas w) acts (Spec.name m) (Spec.failed m)) (State.rules s) (Spec.rules m) ∧
    NoDup (meta <$> State.rules s) ∧ NoDup (ShimforgeRule.action <$> State.rules s) }.

(** The mock [k] of the state [c] is [m], and no call of it is running. *)
Definition promises c (k : nat) m : Prop :=
  holds (world c) (mock_actions (slots c)) k m ∧ ∀ th, k ∉ calls_of th (world c).

(** A step of the test keeps the session, the routes and who sees the mock. *)
Definition same_site c c' : Prop :=
  self c' = self c ∧ thread c' = thread c ∧ proc c' = proc c ∧
  slots c' = set_actions (mock_actions (slots c')) (slots c).

Lemma same_site_refl c : same_site c c.
Proof. destruct c as [? ? ? ? []]. done. Qed.
Lemma same_site_world c w : same_site c (mkScope (self c) (thread c) (proc c) w (slots c)).
Proof. destruct c as [? ? ? ? []]. done. Qed.
Lemma same_site_state c c' th : same_site c c' → site_state th (slots c') = site_state th (slots c).
Proof. by intros (_ & _ & _ & ->). Qed.
Lemma same_site_trans c1 c2 c3 : same_site c1 c2 → same_site c2 c3 → same_site c1 c3.
Proof.
  intros (? & ? & ? & Hs) (? & ? & ? & Hs'). split_and!; try congruence. by rewrite Hs', Hs.
Qed.

(** Expectations that stay as they are. *)
Lemma rule_rep_frame ms ms' acts acts' nm failed failed' r a :
  ms' !! meta r = ms !! meta r →
  acts' !! ShimforgeRule.action r = acts !! ShimforgeRule.action r →
  (failed' = None → failed = None) →
  rule_rep ms acts nm failed r a → rule_rep ms' acts' nm failed' r a.
Proof.
  intros Hm Ha Hf [Hma (x & Hx & Hn & Hc & Hk & Ht & Hfail) Hac]. split; [done| |by rewrite Ha].
  exists x. rewrite Hm. unfold meta_rep. naive_solver.
Qed.

Lemma rules_rep_frame ms ms' acts acts' nm failed failed' rs rs' :
  (∀ r, r ∈ rs → ms' !! meta r = ms !! meta r) →
  (∀ r, r ∈ rs → acts' !! ShimforgeRule.action r = acts !! ShimforgeRule.action r) →
  (failed' = None → failed = None) →
  Forall2 (rule_rep ms acts nm failed) rs rs' → Forall2 (rule_rep ms' acts' nm failed') rs rs'.
Proof.
  intros Hm Ha Hf Hall. induction Hall as [|r a rs rs' Hr Hall IH]; constructor.
  - eapply rule_rep_frame; [apply Hm; by left|apply Ha; by left|done|done].
  - apply IH; intros; [apply Hm|apply Ha]; by right.
Qed.

(** [Exhausted] is [used_up]. *)
Lemma rep_exhausted (w : World (ShimforgeRule.t A)) acts nm failed r a :
  rule_rep (metas w) acts nm failed r a → exhausted w (meta r) ↔ Spec.used_up a = true.
Proof.
  intros [_ (x & Hx & _ & Hc & Hk & _) _]. unfold exhausted, Spec.used_up.
  assert (CallCount.max (Meta.count x) = Spec.most a) as Hmax by (by rewrite Hc).
  split.
  - intros (x' & n & Hx' & Hn & Hle). simplify_eq. rewrite <-Hmax, Hn, <-Hk.
    apply andb_true_iff. rewrite Z.ltb_lt, Z.leb_le. lia.
  - destruct (Spec.most a) as [n|] eqn:Hn; [|done].
    intros [?%Z.ltb_lt ?%Z.leb_le]%andb_true_iff. exists x, n. rewrite Hk. split_and!; [done..|lia|lia].
Qed.

Lemma rep_passed (w : World (ShimforgeRule.t A)) acts nm failed args rs rs' :
  Forall2 (rule_rep (metas w) acts nm failed) rs rs' →
  Forall (passed_over w (λ r, ShimforgeRule.matcher r args)) rs →
  Forall (λ a, Spec.accepts a args = true → Spec.used_up a = true) rs'.
Proof.
  intros Hall Hp. induction Hall as [|r a rs rs' Hr Hall IH]; [constructor|].
  apply Forall_cons in Hp as [Hp Hps]. constructor; [|by apply IH].
  intros Ha. eapply rep_exhausted; [done|]. apply Hp. by rewrite (rep_matcher _ _ _ _ _ _ Hr).
Qed.

Lemma rep_matched (w : World (ShimforgeRule.t A)) acts nm failed args rs rs' :
  Forall2 (rule_rep (metas w) acts nm failed) rs rs' →
  existsb (λ r, ShimforgeRule.matcher r args) rs = existsb (λ a, Spec.accepts a args) rs'.
Proof.
  induction 1 as [|r a rs rs' Hr Hall IH]; [done|]. simpl.
  by rewrite IH, (rep_matcher _ _ _ _ _ _ Hr).
Qed.

(** *** A call *)

(** A failure that is recorded changes nothing else. *)
Lemma holds_rejected w w' acts k s m reason :
  holds w acts k m → mocks w !! k = Some s →
  world_ok w' → mocks w' = mocks w →
  (∀ r a, rule_rep (metas w) acts (Spec.name m) (Spec.failed m) r a →
     rule_rep (metas w') acts (Spec.name m) (Some (default (error reason) (Spec.failed m))) r a) →
  holds (fail_mock k (error reason) s w') acts k
    (Spec.Mock (Spec.name m) (Spec.rules m) (Some (default (error reason) (Spec.failed m)))).
Proof.
  intros [_ (s' & Hk & Ha & Hn & Hf & Hall & Hd1 & Hd2)] Hs Hw' Hmk Hrep.
  rewrite Hk in Hs. injection Hs as ->.
  assert (k < length (mocks w'))%nat as Hlen by (rewrite Hmk; by eapply lookup_lt_Some).
  split.
  - apply world_ok_mock; [done|]. intros r Hr. apply (ok_rules _ Hw' k s); [by rewrite Hmk|done].
  - eexists. simpl. rewrite list_lookup_insert_eq by done. split; [done|].
    split_and!; [done|done| |by eapply Forall2_impl|done|done]. simpl. rewrite Hf.
    by destruct (Spec.failed m).
Qed.

(** The expectation that takes a call, among the others. *)
Lemma holds_taken w acts k s m pre r post pre' a post' x act v args :
  holds w acts k m → mocks w !! k = Some s →
  State.rules s = pre ++ r :: post → Spec.rules m = pre' ++ a :: post' →
  Forall2 (rule_rep (metas w) acts (Spec.name m) (Spec.failed m)) pre pre' →
  Forall2 (rule_rep (metas w) acts (Spec.name m) (Spec.failed m)) post post' →
  rule_rep (metas w) acts (Spec.name m) (Spec.failed m) r a →
  metas w !! meta r = Some x → world_ok (count_call (meta r) x w) →
  v = Spec.saw args a → action_rep v (Some act) →
  holds (count_call (meta r) x w) (<[ShimforgeRule.action r := act]> acts) k
    (Spec.Mock (Spec.name m) (pre' ++ v :: post') (Spec.failed m)).
Proof.
  intros [_ (s' & Hk & Ha & Hn & Hf & Hall & Hd1 & Hd2)] Hs Hrs Hrs' Hpre Hpost Hr Hx Hw' -> Hact.
  rewrite Hk in Hs. injection Hs as ->.
  assert (metas (count_call (meta r) x w) = <[meta r := Meta.set_calls (Meta.calls x + 1) x]> (metas w))
    as Hms by (unfold count_call; simpl; by rewrite metas_advance).
  split; [done|]. exists s. split_and!; [unfold count_call; simpl; by rewrite mocks_advance|done..| |done|done].
  rewrite Hrs. cbn [Spec.name Spec.rules Spec.failed]. rewrite Hrs in Hd1, Hd2. rewrite !fmap_app, !fmap_cons in Hd1, Hd2.
  apply NoDup_app in Hd1 as (_ & Hpre1 & [Hpost1 _]%NoDup_cons).
  apply NoDup_app in Hd2 as (_ & Hpre2 & [Hpost2 _]%NoDup_cons).
  assert (∀ q, q ∈ pre ∨ q ∈ post → meta q ≠ meta r) as Hne1.
  { intros q [Hq|Hq] He; [|apply Hpost1; rewrite <-He; by apply list_elem_of_fmap_2].
    apply (Hpre1 (meta r)); [rewrite <-He; by apply list_elem_of_fmap_2|by left]. }
  assert (∀ q, q ∈ pre ∨ q ∈ post → ShimforgeRule.action q ≠ ShimforgeRule.action r) as Hne2.
  { intros q [Hq|Hq] He; [|apply Hpost2; rewrite <-He; by apply list_elem_of_fmap_2].
    apply (Hpre2 (ShimforgeRule.action r)); [rewrite <-He; by apply list_elem_of_fmap_2|by left]. }
  rewrite Hms. apply Forall2_app; [|constructor].
  - refine (rules_rep_frame _ _ _ _ _ _ _ _ _ _ _ id Hpre); intros q Hq; apply list_lookup_insert_ne.
    + apply not_eq_sym, Hne1. by left.
    + apply not_eq_sym, Hne2. by left.
  - destruct Hr as [Hma (x' & Hx' & Hnm & Hc & Hcalls & Ht & Hfail) Hac]. simplify_eq.
    split; [done| |].
    + eexists. rewrite list_lookup_insert_eq by (by eapply lookup_lt_Some). split; [done|].
      unfold meta_rep. simpl. split_and!; try done. rewrite Hcalls. unfold Spec.calls. simpl.
      rewrite length_app. simpl. lia.
    + rewrite list_lookup_insert_eq; [done|].
      assert (is_Some (acts !! ShimforgeRule.action r)) as [? ?] by (by destruct Hac; eauto).
      by eapply lookup_lt_Some.
  - refine (rules_rep_frame _ _ _ _ _ _ _ _ _ _ _ id Hpost); intros q Hq; apply list_lookup_insert_ne.
    + apply not_eq_sym, Hne1. by right.
    + apply not_eq_sym, Hne2. by right.
Qed.

Lemma fail_meta_rep (w : World (ShimforgeRule.t A)) acts nm failed e i x message r a :
  metas w !! i = Some x → rule_rep (metas w) acts nm failed r a →
  rule_rep (metas (fail_meta i x message w)) acts nm (Some e) r a.
Proof.
  intros Hx Hr. destruct (decide (i = meta r)) as [->|Hne].
  - destruct Hr as [Hma (x' & Hx' & Hnm & Hc & Hcalls & Ht & _) Hac].
    rewrite Hx in Hx'. injection Hx' as <-. split; [done| |done]. eexists. simpl.
    rewrite list_lookup_insert_eq by (by eapply lookup_lt_Some). by split_and!.
  - eapply rule_rep_frame; [|done| |exact Hr]; [|done]. simpl. by rewrite list_lookup_insert_ne.
Qed.

(** What [select] decides is what the abstract mock decides. *)
Lemma select_refines w acts k s m args o w1 :
  holds w acts k m → mocks w !! k = Some s →
  selects w k s (λ r, ShimforgeRule.matcher r args) o w1 →
  match o with
  | Ok r => ∃ a m', action_rep a (acts !! ShimforgeRule.action r) ∧
      Spec.call args m = (Spec.respond a (Spec.seen a) args, m') ∧
      (∀ n, Spec.most a = Some n → Spec.calls a < n) ∧
      ∀ act, action_rep (Spec.saw args a) (Some act) →
        holds w1 (<[ShimforgeRule.action r := act]> acts) k m'
  | Panic message => ∃ m', Spec.call args m = (Panic message, m') ∧ holds w1 acts k m'
  | _ => False
  end.
Proof.
  intros Hh Hs Hsel. pose proof Hh as [Hw (s' & Hk & Ha & Hn & Hf & Hall & Hd1 & Hd2)].
  rewrite Hk in Hs. injection Hs as ->.
  destruct Hsel as [pre r post x Hrs Hpre Hm Hx _ Hc|pre r post x e w' Hrs Hpre Hm Hx _ Hc|Hnone e].
  - pose proof Hall as Hall'. rewrite Hrs in Hall'.
    apply Forall2_app_inv_l in Hall' as (pre' & rest & H1 & (a & post' & Ha' & H2 & ->)%Forall2_cons_inv_l & Hrs').
    pose proof (rep_passed w _ _ _ args _ _ H1 Hpre) as Hpre'.
    assert (Spec.accepts a args = true) as Hacc by (by rewrite <-(rep_matcher _ _ _ _ _ _ Ha')).
    inversion Hc as [| | | |Hu Hlt Hturn]; subst.
    destruct (rep_meta _ _ _ _ _ _ Ha') as (x' & Hx' & Hnm & Hcnt & Hcalls & Ht & Hfail).
    rewrite Hx in Hx'. injection Hx' as <-. rewrite Hcnt, Hcalls in Hlt. rewrite Hcalls in Hu. simpl in Hlt.
    exists a, (Spec.Mock (Spec.name m) (pre' ++ Spec.saw args a :: post') (Spec.failed m)).
    split_and!; [apply Ha'| |done|].
    + unfold Spec.call. rewrite Hrs', Spec.serve_first; [|done|done|].
      * rewrite bool_decide_false; [|intros H0%Hlt; unfold Spec.calls in H0; lia].
        by rewrite (proj2 (Z.eqb_neq _ _)) by lia.
      * unfold Spec.used_up. destruct (Spec.most a) as [n|]; [|done].
        rewrite (proj2 (Z.leb_gt _ _)) by (by apply Hlt). by rewrite andb_false_r.
    + intros act Hact. eapply holds_taken; try done.
      apply world_ok_count_call; try done; rewrite ?Hcnt, Hcalls; done.
  - pose proof Hall as Hall'. rewrite Hrs in Hall'.
    apply Forall2_app_inv_l in Hall' as (pre' & rest & H1 & (a & post' & Ha' & H2 & ->)%Forall2_cons_inv_l & Hrs').
    pose proof (rep_passed w _ _ _ args _ _ H1 Hpre) as Hpre'.
    assert (Spec.accepts a args = true) as Hacc by (by rewrite <-(rep_matcher _ _ _ _ _ _ Ha')).
    destruct (rep_meta _ _ _ _ _ _ Ha') as (x' & Hx' & Hnm & Hcnt & Hcalls & Ht & Hfail).
    rewrite Hx in Hx'. injection Hx' as <-.
    assert (∀ reason, e = error (Meta.name x +:+ ": " +:+ reason) →
      w' = fail_meta (meta r) x (Meta.name x +:+ ": " +:+ reason) w →
      Spec.call args m = Spec.reject reason m →
      ∃ m', Spec.call args m = (Panic (display e), m') ∧ holds (fail_mock k e s w') acts k m') as Hrej.
    { intros reason -> -> Hcall. rewrite Hcall. unfold Spec.reject. rewrite Hnm.
      eexists. split; [done|]. eapply holds_rejected; [done..|by apply world_ok_failure|done|].
      intros q b. by apply fail_meta_rep. }
    assert (Spec.used_up a = false → Spec.serve args (Spec.rules m) = Some (pre', a, post')) as Hserve
      by (intros; rewrite Hrs'; by apply Spec.serve_first).
    inversion Hc as [Hz| |Hnn Hov|y p _ Hy|]; subst.
    + apply (Hrej "a forbidden call was made"); [done..|]. rewrite Hcnt in Hz. simpl in Hz.
      unfold Spec.call. rewrite Hserve by (unfold Spec.used_up; by rewrite Hz).
      by rewrite bool_decide_true.
    + apply (Hrej "call count overflow"); [done..|]. rewrite Hcnt in Hnn. simpl in Hnn.
      unfold Spec.call. rewrite Hserve by (unfold Spec.used_up; by rewrite Hnn).
      rewrite bool_decide_false by (by rewrite Hnn). rewrite <-Hcalls, Hov. by rewrite Z.eqb_refl.
    + congruence.
  - unfold Spec.call. rewrite Spec.serve_nobody by (by eapply rep_passed).
    rewrite <-(rep_matched w _ _ _ args _ _ Hall). unfold Spec.reject, e, unmatched. rewrite Hn.
    eexists. split; [done|]. eapply holds_rejected; [done..|]. intros q b Hq.
    eapply rule_rep_frame; [done|done| |exact Hq]. done.
Qed.

(** The guard of a call is not part of what a mock is. *)
Lemma holds_active f w acts k m : holds w acts k m → holds (at_active f w) acts k m.
Proof. intros [Hw Hm]. split; [by apply world_ok_active|done]. Qed.

(** Running the action that the abstract expectation stands for. *)
Lemma run_action_refines args r a (x : site A V) :
  action_rep a (mock_actions x !! ShimforgeRule.action r) →
  (∀ n, Spec.most a = Some n → Spec.calls a < n) →
  ∃ act, action_rep (Spec.saw args a) (Some act) ∧
    run_action args r x = (Spec.respond a (Spec.seen a) args,
      set_actions (<[ShimforgeRule.action r := act]> (mock_actions x)) x).
Proof.
  intros Hact Hlt. unfold run_action. inversion Hact as [Hx|f n Hn Hle Hf Hseen Hx|n Hn Hle Hseen Hx].
  - eexists. split; [|done]. apply (rep_repeat (Spec.saw args a)).
  - exists (Once None). split; [|by rewrite Hf]. eapply rep_gone; [exact Hn|done|].
    simpl. rewrite Hseen. done.
  - exfalso. specialize (Hlt _ Hn). destruct (Spec.seen a) as [|y l] eqn:Hl; [done|].
    unfold Spec.calls in Hlt. rewrite Hl in Hlt. simpl in Hlt. lia.
Qed.

Lemma call_promises th dispatcher args c k m :
  promises c k m → site_state th (slots c) = Some k → (Spec.call args m).1 ≠ Abort →
  ∃ c', shimforge_call th dispatcher args c = (Answer <$> (Spec.call args m).1, c') ∧
    promises c' k (Spec.call args m).2 ∧ same_site c c'.
Proof.
  intros [Hh Hidle] Hsite Hna. pose proof Hh as [Hw (s & Hk & Ha & _)].
  destruct (mocked_call_run th k s (λ r, ShimforgeRule.matcher r args) (run_action args) c Hw Hk Ha (Hidle th))
    as (o & wd1 & x & Hans & Hcall).
  pose proof (answers_active _ _ _ _ _ _ _ _ _ Hans) as Hact.
  assert (∀ th', k ∉ calls_of th' (guard_drop th k wd1).2) as Hidle'.
  { intros th'. by rewrite (guard_restores th k (world c)). }
  unfold shimforge_call. unfold mbind at 1, M_bind at 1, gets at 1. rewrite Hsite.
  unfold mbind at 1, M_bind at 1. rewrite Hcall.
  apply (holds_active (<[th := calls_of th (world c) ++ [k]]>)) in Hh.
  destruct Hans as [r wd1 o x Hsel Hrun|message wd1 Hsel];
    apply (select_refines _ _ _ _ _ _ _ _ Hh Hk) in Hsel.
  - destruct Hsel as (a & m' & Hrep & Hspec & Hlt & Hnew). rewrite Hspec in Hna |- *. cbn [fst snd] in *.
    destruct (run_action_refines args r a (slots c) Hrep Hlt) as (act & Hact' & Hrun').
    rewrite Hrun' in Hrun. injection Hrun as <- <-.
    eexists. split; [by destruct (Spec.respond a (Spec.seen a) args)|].
    split; [|done]. destruct (Spec.respond a (Spec.seen a) args); try done;
      (split; [apply (holds_active (λ calls, <[th := filter (.≠ k) (default [] (calls !! th))]> calls)), Hnew, Hact'|done]).
  - destruct Hsel as (m' & Hspec & Hnew). rewrite Hspec. eexists. split; [done|].
    split; [|apply same_site_world].
    split; [apply (holds_active (λ calls, <[th := filter (.≠ k) (default [] (calls !! th))]> calls)), Hnew|done].
Qed.

(** *** An expectation *)

(** A closure that no rule has yet changes nothing. *)
Lemma holds_more_actions w acts act k m : holds w acts k m → holds w (acts ++ [act]) k m.
Proof.
  intros [Hw (s & Hk & Ha & Hn & Hf & Hall & Hd)]. split; [done|]. exists s.
  split_and!; try done; [|apply Hd..]. eapply Forall2_impl; [done|]. intros r a [H1 H2 H3].
  split; [done|done|]. rewrite lookup_app_l; [done|].
  inversion H3 as [Hx|? ? ? ? ? ? Hx|? ? ? ? Hx]; symmetry in Hx; by eapply lookup_lt_Some.
Qed.

Lemma holds_pushed w acts act k s m (f : A → bool) g n :
  holds w acts k m → mocks w !! k = Some s → CallCount.valid n →
  let new := Spec.Rule f (CallCount.min n) (CallCount.max n) g [] in
  action_rep new (Some act) →
  let w1 := at_metas (λ l, l ++ [Meta.Make (State.name s) n 0 None None]) w in
  holds
    (at_mocks (<[k := State.set_rules (State.rules s ++
       [ShimforgeRule.Make (length (metas w)) f (length acts)]) s]>) w1)
    (acts ++ [act]) k (Spec.Mock (Spec.name m) (Spec.rules m ++ [new]) (Spec.failed m)).
Proof.
  intros Hh Hs Hv new Hact w1.
  destruct (holds_more_actions _ _ act _ _ Hh) as [Hw (s' & Hk & Ha & Hn & Hf & Hall & Hd1 & Hd2)].
  rewrite Hk in Hs. injection Hs as ->.
  assert (∀ r, r ∈ State.rules s → (meta r < length (metas w))%nat) as Hm.
  { intros r Hr. destruct (ok_rules _ Hw k s r Hk Hr) as [x Hx]. by eapply lookup_lt_Some. }
  assert (∀ r, r ∈ State.rules s → (ShimforgeRule.action r < length acts)%nat) as Hact'.
  { destruct Hh as [_ (s2 & Hk2 & _ & _ & _ & Hall2 & _)]. rewrite Hk in Hk2. injection Hk2 as <-.
    intros r [i Hi]%list_elem_of_lookup_1.
    destruct (Forall2_lookup_l _ _ _ _ _ Hall2 Hi) as (a & _ & [_ _ Hrep]).
    inversion Hrep as [Hx|? ? ? ? ? ? Hx|? ? ? ? Hx]; symmetry in Hx; by eapply lookup_lt_Some. }
  assert (k < length (mocks w))%nat as Hlen by (by eapply lookup_lt_Some).
  split.
  - apply world_ok_mock; [by apply world_ok_meta_new|]. intros r. simpl.
    rewrite elem_of_app, list_elem_of_singleton. rewrite lookup_app. intros [Hr| ->].
    + destruct (ok_rules _ Hw k s r Hk Hr) as [x ->]. eauto.
    + unfold meta, shimforge_rule. simpl. rewrite lookup_ge_None_2, Nat.sub_diag by lia. by eexists.
  - eexists. simpl. rewrite list_lookup_insert_eq by done. split; [done|]. simpl.
    split_and!; [done|done|done| | |].
    + apply Forall2_app; [|apply Forall2_cons; split; [|done]].
      * refine (rules_rep_frame _ _ _ _ _ _ _ _ _ _ _ id Hall); [|done].
        intros r Hr. by rewrite lookup_app_l by (by apply Hm).
      * split; [done| |].
        -- eexists. unfold meta, shimforge_rule. simpl. rewrite list_lookup_middle by done.
           split; [done|]. unfold meta_rep, Spec.calls. simpl. by destruct n.
        -- simpl. by rewrite list_lookup_middle.
    + rewrite fmap_app. apply NoDup_app. split_and!; [done| |apply NoDup_singleton].
      intros i (r & -> & Hr)%list_elem_of_fmap ?%list_elem_of_singleton. specialize (Hm r Hr).
      unfold meta, shimforge_rule in *. simpl in *. lia.
    + rewrite fmap_app. apply NoDup_app. split_and!; [done| |apply NoDup_singleton].
      intros i (r & -> & Hr)%list_elem_of_fmap ?%list_elem_of_singleton. specialize (Hact' r Hr).
      simpl in *. lia.
Qed.

Lemma add_promises b config act g c k m :
  promises c k m → Builder.state b = k → Config.sequence config = None → Config.built config →
  (∀ n, Config.validate config = Ok n →
     action_rep (Spec.Rule (Builder.matcher b) (CallCount.min n) (CallCount.max n) g []) (Some act)) →
  ∃ o c', add_action b config act c = (o, c') ∧
    (_ ← o; Ok tt) = check (Spec.push (Config.validate config) (Builder.matcher b) g m).1 ∧
    promises c' k (Spec.push (Config.validate config) (Builder.matcher b) g m).2 ∧
    same_site c c'.
Proof.
  intros [Hh Hidle] Hb Hsq Hbuilt Hact. unfold add_action. unfold mbind at 1, M_bind at 1, in_slots at 1.
  simpl. unfold checked, in_world. simpl. rewrite Hb.
  pose proof Hh as [Hw (s & Hk & Ha & _)].
  destruct (Config.validate config) as [n|e|message|] eqn:Hv; simpl.
  - pose proof (add_run (world c) k s config
      (λ meta, ShimforgeRule.Make meta (Builder.matcher b) (length (mock_actions (slots c)))) n Hv Hk Ha)
      as Hrun. simpl in Hrun. rewrite Hsq in Hrun. rewrite Hrun. eexists _, _. split; [done|].
    split; [done|]. split; [|done]. split; [|exact Hidle]. simpl.
    apply holds_pushed; [done|done|by eapply Config.validate_valid|by apply Hact].
  - unfold add, mbind, M_bind, lift. rewrite Hv. eexists _, _. split; [done|].
    split; [done|]. split; [|done]. split; [by apply holds_more_actions|exact Hidle].
  - unfold add, mbind, M_bind, lift. rewrite Hv. eexists _, _. split; [done|].
    split; [done|]. split; [|done]. split; [by apply holds_more_actions|exact Hidle].
  - unfold add, mbind, M_bind, lift. rewrite Hv. eexists _, _. split; [done|].
    split; [done|]. split; [|done]. split; [by apply holds_more_actions|exact Hidle].
Qed.

(** *** Verification *)

Lemma verify_rules_rep (w : World (ShimforgeRule.t A)) acts nm rs rs' :
  Forall2 (rule_rep (metas w) acts nm None) rs rs' → verify_rules rs w = (Spec.missing nm rs', w).
Proof.
  induction 1 as [|r a rs rs' [_ (x & Hx & Hn & Hc & Hk & _ & Hf) _] _ IH]; [done|]. simpl.
  rewrite (deref_bind _ _ _ _ _ Hx). unfold mbind, M_bind, lift, meta_verify.
  rewrite (Hf eq_refl), Hk, Hc, Hn. simpl. destruct (Spec.calls a <? Spec.least a); [done|]. exact IH.
Qed.

Lemma verify_holds w acts k s m :
  holds w acts k m → mocks w !! k = Some s → verify_inner s w = (Spec.verify m, w).
Proof.
  intros [_ (s' & Hk & _ & Hn & Hf & Hall & _)] Hs. rewrite Hk in Hs. injection Hs as ->.
  unfold verify_inner, Spec.verify. rewrite Hf. destruct (Spec.failed m) as [e|]; [done|].
  by eapply verify_rules_rep.
Qed.

Lemma verify_promises c k m :
  promises c k m → in_world (state_verify k) c = (Spec.verify m, c).
Proof.
  intros [Hh _]. pose proof Hh as [_ (s & Hk & _)]. destruct c as [se th pr w x]. unfold in_world. simpl in *.
  unfold state_verify. rewrite (deref_bind _ _ _ _ _ Hk). by rewrite (verify_holds _ _ _ _ _ Hh Hk).
Qed.

Lemma checkpoint_promises c k m :
  promises c k m →
  ∃ c', in_world (checkpoint k) c = (Spec.verify m, c') ∧ same_site c c' ∧
    promises c' k (if is_ok (Spec.verify m) then Spec.Mock (Spec.name m) [] (Spec.failed m) else m).
Proof.
  intros Hp. pose proof Hp as [Hh Hidle]. pose proof Hh as [Hw (s & Hk & Ha & Hn & Hf & _)].
  unfold in_world, checkpoint. rewrite (deref_bind _ _ _ _ _ Hk), Ha. simpl.
  unfold mbind, M_bind. rewrite (verify_holds _ _ _ _ _ Hh Hk).
  destruct (Spec.verify m) as [[]|e|message|]; simpl; eexists; (split; [done|]); (split; [apply same_site_world|]);
    destruct c as [se th pr w x]; simpl in *; try exact Hp.
  split; [|exact Hidle]. split; simpl.
  - apply world_ok_mock; [done|]. by intros r ?%not_elem_of_nil.
  - eexists. rewrite list_lookup_insert_eq by (by eapply lookup_lt_Some).
    split; [done|]. simpl. split_and!; try done; constructor.
Qed.

(** *** A step of the test *)

(** What a test can write: counts are machine numbers, and a response ends. *)
Definition responds (m : Spec.mock A V) : Prop :=
  ∀ a h args, a ∈ Spec.rules m → Spec.respond a h args ≠ Abort.
Definition op_ok (sees : nat → Prop) (o : Spec.op A V) : Prop :=
  match o with
  | Spec.Call th _ => sees th
  | Spec.Expect count _ g =>
      (∀ n, count = Some n → CallCount.bounds_ok n) ∧ ∀ h args, g h args ≠ Abort
  | Spec.ExpectOnce count _ g =>
      (∀ n, count = Some n → CallCount.bounds_ok n) ∧ ∀ args, g args ≠ Abort
  | Spec.Verify | Spec.Checkpoint => True
  end.

Lemma spec_config_built count :
  (∀ n, count = Some n → CallCount.bounds_ok n) → Config.built (Spec.config count).
Proof.
  intros Hn. destruct count as [n|]; [|apply Config.built_default].
  apply (Config.built_times Config.default); [apply Config.built_default|by apply Hn].
Qed.

Lemma builder_config k count (f : A → bool) : Builder.config (builder k count f) = Spec.config count.
Proof. by destruct count. Qed.
Lemma builder_state k count (f : A → bool) : Builder.state (builder k count f) = k.
Proof. by destruct count. Qed.
Lemma builder_matcher k count (f : A → bool) : Builder.matcher (builder k count f) = f.
Proof. by destruct count. Qed.

Lemma serve_split args (rs : list (Spec.rule A V)) pre a post :
  Spec.serve args rs = Some (pre, a, post) → rs = pre ++ a :: post.
Proof.
  revert pre. induction rs as [|r rs IH]; intros pre; [done|]. simpl. case_match; [by intros [= <- <- <-]|].
  intros ([[pre' q] post'] & Hs & [= <- <- <-])%bind_Some. simpl. f_equal. by apply IH.
Qed.

Lemma call_responds args m :
  responds m → (Spec.call args m).1 ≠ Abort ∧ responds (Spec.call args m).2.
Proof.
  intros Hm. unfold Spec.call, Spec.reject.
  destruct (Spec.serve args (Spec.rules m)) as [[[pre a] post]|] eqn:Hs; [|done].
  apply serve_split in Hs. destruct (bool_decide _); [done|]. destruct (_ =? _); [done|].
  assert (∀ q, q ∈ pre ++ a :: post → q ∈ Spec.rules m) as Hin by (by rewrite Hs).
  split; [apply Hm, Hin; set_solver|]. intros q h y. simpl.
  rewrite elem_of_app, elem_of_cons. intros [Hq|[->|Hq]]; [apply Hm, Hin; set_solver| |apply Hm, Hin; set_solver].
  apply (Hm a), Hin. set_solver.
Qed.

Lemma push_responds count f g m :
  responds m → (∀ h args, g h args ≠ Abort) → responds (Spec.push count f g m).2.
Proof.
  intros Hm Hg. destruct count as [n| | |]; try done. intros a h args. simpl.
  rewrite elem_of_app, list_elem_of_singleton. intros [Ha| ->]; [by apply Hm|apply Hg].
Qed.

Lemma expect_refines count f g act config k c m :
  promises c k m → Config.sequence config = None → Config.built config →
  (∀ n, Config.validate config = Ok n →
     action_rep (Spec.Rule f (CallCount.min n) (CallCount.max n) g []) (Some act)) →
  ∃ c', (add_action (builder k count f) config act;; mret (@None V)) c =
      (r ← check (Spec.push (Config.validate config) f g m).1; Ok None, c') ∧
    promises c' k (Spec.push (Config.validate config) f g m).2 ∧ same_site c c'.
Proof.
  intros Hp Hsq Hb Hact.
  destruct (add_promises (builder k count f) config act g c k m) as (o & c' & Hrun & Ho & Hrest);
    [done|apply builder_state|done|done|by rewrite builder_matcher|].
  rewrite builder_matcher in Ho, Hrest. exists c'. split; [|done].
  unfold mbind at 1, M_bind at 1. rewrite Hrun, <-Ho. by destruct o.
Qed.

Lemma step_refines dispatcher k (sees : nat → Prop) o c m :
  promises c k m → responds m → op_ok sees o →
  (∀ th, sees th → site_state th (slots c) = Some k) →
  ∃ c', perform dispatcher k o c = ((Spec.step o m).1, c') ∧ promises c' k (Spec.step o m).2 ∧
    responds (Spec.step o m).2 ∧ same_site c c'.
Proof.
  intros Hp Hr Hok Hsees. destruct o as [th args|count f g|count f g| |]; simpl in *.
  - destruct (call_responds args m Hr) as [Hna Hr'].
    destruct (call_promises th dispatcher args c k m Hp (Hsees th Hok) Hna) as (c' & Hrun & Hp' & Hs).
    destruct (Spec.call args m) as [v m']. exists c'. unfold mbind, M_bind. rewrite Hrun.
    by destruct v.
  - destruct Hok as [Hn Hg].
    destruct (expect_refines count f g (Repeat g []) (Spec.config count) k c m) as (c' & Hrun & Hp' & Hs);
      [done|done|by apply spec_config_built|intros; apply (rep_repeat (Spec.Rule f _ _ g []))|].
    pose proof (push_responds (Config.validate (Spec.config count)) f g m Hr Hg) as Hr'.
    unfold mock_returning. rewrite builder_config.
    destruct (Spec.push (Config.validate (Spec.config count)) f g m). by exists c'.
  - destruct Hok as [Hn Hg]. unfold mock_returning_once. rewrite builder_config.
    unfold mbind at 1, M_bind at 1. unfold mbind at 1, M_bind at 1, lift at 1.
    destruct (Config.for_once (Spec.config count)) as [config|e|msg|] eqn:Hf; simpl;
      [|exists c; pose proof (same_site_refl c); done..].
    destruct (Config.for_once_Ok _ _ Hf) as (lo & hi & Hcount & Hle & Hsq & _).
    destruct (expect_refines count f (λ _, g) (Once (Some g)) config k c m) as (c' & Hrun & Hp' & Hs);
      [done|by rewrite Hsq|eapply Config.built_for_once; [by apply (spec_config_built count)|done]| |].
    { intros n (-> & _)%Config.config_validate_Ok. rewrite Hcount. simpl.
      eapply rep_once; simpl; [done|lia|done|done]. }
    pose proof (push_responds (Config.validate config) f (λ _, g) m Hr (λ _, Hg)) as Hr'.
    destruct (Spec.push (Config.validate config) f (λ _, g) m). by exists c'.
  - exists c. unfold mock_verify, checked, mbind, M_bind. rewrite (verify_promises _ _ _ Hp).
    pose proof (same_site_refl c) as Hs. by destruct (Spec.verify m).
  - destruct (checkpoint_promises c k m Hp) as (c' & Hrun & Hs & Hp'). exists c'.
    unfold mock_checkpoint, checked, mbind, M_bind. rewrite Hrun.
    destruct (Spec.verify m) as [[]| | |]; simpl in *; split_and!; try done. by intros a h args ?%not_elem_of_nil.
Qed.

Lemma script_refines dispatcher k (sees : nat → Prop) ops c m :
  promises c k m → responds m → Forall (op_ok sees) ops →
  (∀ th, sees th → site_state th (slots c) = Some k) →
  ∃ c', perform_all dispatcher k ops c = ((Spec.trace ops m).1, c') ∧
    promises c' k (Spec.trace ops m).2 ∧ same_site c c'.
Proof.
  intros Hp Hr Hops. revert c m Hp Hr. induction Hops as [|o ops Ho Hops IH]; intros c m Hp Hr Hsees.
  { exists c. pose proof (same_site_refl c). done. }
  destruct (step_refines dispatcher k sees o c m Hp Hr Ho Hsees) as (c1 & Hrun & Hp1 & Hr1 & Hs1).
  simpl. rewrite Hrun. destruct (Spec.step o m) as [v m1]. cbn [fst snd] in *.
  destruct (IH c1 m1 Hp1 Hr1) as (c2 & Hrun2 & Hp2 & Hs2).
  { intros th Hth. rewrite (same_site_state _ _ _ Hs1). by apply Hsees. }
  rewrite Hrun2. destruct (Spec.trace ops m1) as [vs m2]. exists c2. split; [done|].
  split; [done|by eapply same_site_trans].
Qed.

(** The threads a session's mock is for. *)
Definition sees c (th : nat) : Prop :=
  match session_owner c with
  | Some owner => th = owner
  | None => SHIMFORGE_LOCAL (slots c) !! th = None
  end.

(** Every running call is one of a mock that exists. *)
Definition calls_allocated c : Prop :=
  ∀ th j, j ∈ calls_of th (world c) → (j < length (mocks (world c)))%nat.

(** A new mock has no expectations. *)
Lemma mock_promises source target nm c k c1 :
  world_ok (world c) → site_ok (slots c) → calls_allocated c →
  mock source target nm c = (Ok k, c1) →
  promises c1 k (Spec.Mock nm [] None) ∧ ∀ th, sees c th → site_state th (slots c1) = Some k.
Proof.
  intros Hw Hs Hc Hrun. destruct (mock_run _ _ _ _ _ _ Hs Hrun) as ([-> Hw1] & _ & _ & Hseen & _).
  split; [split|].
  - rewrite Hw1. split; [by apply world_ok_state_new|]. eexists. simpl.
    rewrite list_lookup_middle by done. split; [done|]. simpl. split_and!; try done; constructor.
  - rewrite Hw1. intros th Hin. apply Hc in Hin. lia.
  - intros th Hth. rewrite Hseen. unfold site_seen, sees in *.
    destruct (session_owner c) as [owner|]; [by rewrite decide_True|by rewrite Hth].
Qed.
End refinement.

(** ** The theorem *)

(** C6. After [mock!], whatever a test does with the mock (expectations with any
    count, matcher and closure, one-use responses, calls on the threads the
    session is for, verifications and checkpoints, in any order, going on
    after panics), each step has exactly the outcome of the abstract mock:
    the same answers, the same panic messages, and nothing else of the
    session changes. *)
Theorem mock_refines_spec {P A V : Type} `{!Platform P, !Pages P, !Code}
    source target nm dispatcher ops (c c1 : scope P (ShimforgeRule.t A) (site A V)) k :
  world_ok (world c) → site_ok (slots c) → calls_allocated c →
  mock source target nm c = (Ok k, c1) → Forall (op_ok (sees c)) ops →
  ∃ c2, perform_all dispatcher k ops c1 = ((Spec.trace ops (Spec.Mock nm [] None)).1, c2) ∧
    same_site c1 c2.
Proof.
  intros Hw Hs Hc Hrun Hops. destruct (mock_promises _ _ _ _ _ _ Hw Hs Hc Hrun) as [Hp Hsees].
  destruct (script_refines dispatcher k (sees c) ops c1 _ Hp) as (c2 & Hall & _ & Hsame); try done.
  - by intros a h args ?%not_elem_of_nil.
  - by exists c2.
Qed.

(** ** A test on the example machine *)

Module ScriptDemo.
Definition large (n : Z) : bool := 10 <? n.
Definition ops : list (Spec.op Z Z) :=
  [ Spec.Expect (Some (CallCount.Exact 1)) large (λ _ n, Ok (n + 1));
    Spec.ExpectOnce None (λ _, true) (λ _, Ok 7);
    Spec.Call 0 12; Spec.Verify; Spec.Call 0 12; Spec.Verify; Spec.Call 0 12; Spec.Checkpoint ].

Lemma ops_ok : Forall (op_ok (sees MockDemo.opened_local)) ops.
Proof.
  repeat constructor; simpl; try done; intros n [= <-]; simpl; unfold usize_max; lia.
Qed.

Lemma allocated : calls_allocated MockDemo.opened_local.
Proof.
  intros th j. unfold calls_of. change (world MockDemo.opened_local) with (@world_empty (ShimforgeRule.t Z)).
  cbn [active_calls world_empty]. rewrite lookup_empty. by intros ?%not_elem_of_nil.
Qed.
End ScriptDemo.

Lemma mock_refines_spec_witness :
  ∃ (c1 c2 : scope Machine.t (ShimforgeRule.t Z) (site Z Z)),
    perform_all RouteDemo.fake 0 ScriptDemo.ops c1 =
      ([Ok None; Ok None; Ok (Some 13);
        Panic "read: expected at least 1 calls, observed 0";
        Ok (Some 7); Ok None;
        Panic "read: matching expectations are exhausted";
        Panic "read: matching expectations are exhausted"], c2).
Proof.
  destruct (mock RouteDemo.function RouteDemo.fake "read" MockDemo.opened_local) as [o c1] eqn:H.
  assert (o = Ok 0%nat) as ->.
  { change o with (o, c1).1. rewrite <-H. vm_compute. reflexivity. }
  destruct (mock_refines_spec RouteDemo.function RouteDemo.fake "read" RouteDemo.fake ScriptDemo.ops
    MockDemo.opened_local c1 0) as (c2 & Hrun & _).
  - apply world_ok_empty.
  - reflexivity.
  - exact ScriptDemo.allocated.
  - exact H.
  - exact ScriptDemo.ops_ok.
  - exists c1, c2. rewrite Hrun. vm_compute. reflexivity.
Defined.
