(* ===== verification/Systems.v ===== *)
(** * The supported systems

    [Routing] and [Session] are proved from the laws of memory, pages and
    machine code.  Here the three meet: the builds for Linux and macOS, each on
    x86-64 and AArch64, as instances of those laws. *)

From S2P Require Import Prelude Errors Memory Executable Code Arm64Code UnixPages LinuxMemory LinuxPages MacosMemory MacosRemap MacosPages Expectations Routing Session.

#[local] Open Scope Z_scope.
#[local] Existing Instance arm64_laws.

(** What a global session promises, with the memory, pages and code of a
    build. *)
Section promises.
Context (P : Type) (platform : Platform P) (view : View P) (pages : Pages P) (code : Code).

(** Some run of a global session opened in [w0] led to [c]. *)
Definition reached {R X} (w0 : process P) (c : scope P R X) : Prop :=
  routing_ok w0 ∧ globals_free w0 ∧
  ∃ th wd x, rtc (session_step w0) (session_start th w0 wd x) c.

Record session_promises : Prop := {
  raw_promise R `{!Rule R} X w0 (c : scope P R X) source target o c' :
    reached w0 c → usable w0 c source → 0 ≤ target ≤ usize_max →
    install_raw source target c = (o, c') →
    match o with
    | Ok _ => raw_installed c c' source target ∧ world c' = world c
    | Err _ => only_memory c c'
    | Panic _ => False
    | Abort => True
    end;
  restore_promise R `{!Rule R} X w0 (c : scope P R X) o c' :
    reached w0 c → restore_patches c = (o, c') →
    match o with
    | Ok _ => Session.patches (self c') = [] ∧ ∃ s, proc c' = set_os s w0 ∧ keeps (os w0) s
    | Err _ => Session.patches (self c') `prefix_of` Session.patches (self c) ∧
        undo (os w0) (Session.patches (self c')) (os (proc c'))
    | Panic _ => False
    | Abort => True
    end }.

Lemma laws_promise :
  PlatformLaws P → PagesLaws P → CodeLaws → session_promises.
Proof.
  intros Hplatform Hpages Hcode. split.
  - intros R rule X w0 c source target o c' (Hw & Hf & th & wd & x & Hs). by eapply install_raw_reached.
  - intros R rule X w0 c o c' (Hw & Hf & th & wd & x & Hs) Hrun.
    pose proof (restore_reached _ _ _ _ _ _ _ Hw Hf Hs Hrun) as Hr. destruct o; try done.
    + by destruct Hr as (? & _ & _ & _ & ?).
    + by destruct Hr as (_ & ? & _ & ?).
Qed.
End promises.

Arguments session_promises : clear implicits.

(** C14. On Linux and on macOS, on x86-64 and on AArch64, with any system that
    honours the documented calls, a global session keeps its promises.
    Installing: [Ok] sends the function to the target, [Err] leaves every byte
    that was mapped and every route as before.  Restoring: [Ok] gives the
    process back as it was at the start, [Err] leaves exactly the patches that
    are still listed.  Neither panics. *)
Theorem every_system_promises S :
  (∀ (linux : Linux S), LinuxLaws S →
     session_promises S linux_platform linux_view linux_pages x86_code ∧
     session_promises S linux_platform linux_view linux_arm64_pages arm64_code) ∧
  (∀ (mach : Mach S), MachLaws S →
     session_promises S macos_platform macos_view macos_pages x86_code ∧
     session_promises S macos_arm64_platform macos_view macos_arm64_pages arm64_code).
Proof.
  split; intros sys laws; split; apply laws_promise; apply _.
Qed.

(** ** A function of NOPs, replaced and restored on Apple Silicon *)

Module SystemsDemo.
#[local] Instance rule_nat : Rule nat := λ r, r.

Definition task : Task.t :=
  Task.Make (λ b, nth (Z.to_nat (b mod 4)) [0x1f; 0x20; 0x03; 0xd5] 0)
    (λ q, if (1 <=? q) && (q <? 5) then Some 5 else None) [].
Definition start : process Task.t := process_start task.
Definition opened : scope Task.t nat nat := session_start 0 start world_empty 0%nat.

Abbreviation install :=
  (@install_raw Task.t nat nat macos_arm64_platform macos_arm64_pages arm64_code 64 256).
Abbreviation restore_all :=
  (@restore_patches Task.t nat nat macos_arm64_platform macos_arm64_pages).

Definition replaced : scope Task.t nat nat := (install opened).2.

Lemma installed_run : install opened = (Ok tt, replaced).
Proof.
  assert (is_ok (install opened).1 = true) as Hok by (vm_compute; reflexivity).
  unfold replaced. by destruct (install opened) as [[[]| | |] ?].
Qed.

Lemma task_free : globals_free start.
Proof. intros i r e [Hi _]. discriminate Hi. Qed.

Lemma usable_opened : usable start opened 64.
Proof. split; [intros i r e b [Hi _]; discriminate Hi|done]. Qed.

Lemma target_bounds : 0 ≤ 256 ≤ usize_max.
Proof. split; vm_compute; discriminate. Qed.

Lemma opened_reached :
  reached Task.t macos_arm64_platform macos_view macos_arm64_pages arm64_code start opened.
Proof.
  split; [apply routing_ok_start|]. split; [apply task_free|]. exists 0%nat, world_empty, 0%nat.
  apply rtc_refl.
Qed.

Lemma replaced_reached :
  reached Task.t macos_arm64_platform macos_view macos_arm64_pages arm64_code start replaced.
Proof.
  split; [apply routing_ok_start|]. split; [apply task_free|]. exists 0%nat, world_empty, 0%nat.
  change (session_start 0 start world_empty 0%nat) with opened.
  apply rtc_once, (step_replace start opened 64 256 (Ok tt) replaced);
    [exact usable_opened|exact target_bounds|exact installed_run|discriminate].
Qed.
End SystemsDemo.

#[local] Existing Instance SystemsDemo.rule_nat.

(** The function goes to its replacement, and comes back. *)
Lemma every_system_promises_witness :
  SystemsDemo.install SystemsDemo.opened = (Ok tt, SystemsDemo.replaced) ∧
  @raw_installed Task.t nat nat _ arm64_code SystemsDemo.opened SystemsDemo.replaced 64 256 ∧
  ∃ c' s, SystemsDemo.restore_all SystemsDemo.replaced = (Ok tt, c') ∧
    proc c' = set_os s SystemsDemo.start ∧ keeps SystemsDemo.task s.
Proof.
  destruct (proj2 (every_system_promises Task.t) Task.mach Task.laws) as [_ [Hraw Hrestore]].
  split; [exact SystemsDemo.installed_run|]. split.
  - apply (Hraw _ _ _ _ _ _ _ _ _ SystemsDemo.opened_reached SystemsDemo.usable_opened
      SystemsDemo.target_bounds SystemsDemo.installed_run).
  - destruct (SystemsDemo.restore_all SystemsDemo.replaced) as [o c'] eqn:H.
    pose proof (Hrestore _ _ _ _ _ _ _ SystemsDemo.replaced_reached H) as Hr.
    destruct o as [[]|e|m|];
      [|apply (f_equal (is_ok ∘ fst)) in H; vm_compute in H; discriminate H..].
    destruct Hr as (_ & s & H1 & H2). exists c', s. split; [reflexivity|]. split; [exact H1|exact H2].
Defined.
