(* ===== verification/Client.v ===== *)
(** * Tests written with [mock!]

    A test is a program that sets expectations, calls the mocked function
    through the code under test, and verifies the session.  [runs] executes
    it on the generated code, with the steps of other threads anywhere in
    between; [ideal] executes it on the abstract mock.  [runs_ideal]: both
    end the same way; [mock_bystander]: a thread that had no mock before a
    [mock!] on another thread still reaches the original. *)

From S2P Require Import Prelude Errors Memory Executable X86 Code Routing Expectations Session Calls Mock Behaviour.

#[local] Open Scope Z_scope.
#[local] Set Default Proof Using "Type*".

(** ** Programs *)

(** A use of the mock, [session.verify()], or a call of the function on a
    thread that has no session. *)
Inductive act (A V : Type) :=
| Use (o : Spec.op A V)
| SessionVerify
| Elsewhere (thread : nat) (args : A).
Arguments Use {A V}. Arguments SessionVerify {A V}. Arguments Elsewhere {A V}.

(** A program; a panic ends it. *)
Inductive prog (A V R : Type) :=
| Ret (r : R)
| Stop (message : string)
| Do (a : act A V) (k : option V → prog A V R).
Arguments Ret {A V R}. Arguments Stop {A V R}. Arguments Do {A V R}.

#[export] Instance prog_ret {A V} : MRet (prog A V) := λ R r, Ret r.
#[export] Instance prog_bind {A V} : MBind (prog A V) :=
  fix bind R S (f : R → prog A V S) (p : prog A V R) : prog A V S :=
    match p with
    | Ret r => f r
    | Stop message => Stop message
    | Do a k => Do a (λ v, bind R S f (k v))
    end.

Section programs.
Context {A V : Type}.
Abbreviation prog := (prog A V).

Definition use (o : Spec.op A V) : prog unit := Do (Use o) (λ _, Ret tt).

(** [mock.expect().with(accepts).times(count).returning(respond)]. *)
Definition expect_returning (count : option CallCount.bounds) (accepts : A → bool)
  (respond : list A → A → result V) : prog unit := use (Spec.Expect count accepts respond).
Definition expect_returns (count : option CallCount.bounds) (accepts : A → bool) (value : V) : prog unit :=
  expect_returning count accepts (λ _ _, Ok value).

(** A call on the test's thread; what a call answers. *)
Definition answered (v : option V) : prog V :=
  match v with Some v => Ret v | None => Stop "no answer" end.
Definition call (thread : nat) (args : A) : prog V := Do (Use (Spec.Call thread args)) answered.
Definition call_elsewhere (thread : nat) (args : A) : prog V := Do (Elsewhere thread args) answered.

Definition verify_session : prog unit := Do SessionVerify (λ _, Ret tt).

(** [assert!]. *)
Definition assert (b : bool) : prog unit := if b then Ret tt else Stop "assertion failed".

(** A panicking computation, [(0..n).map(|_| p).collect()], [for x in l]. *)
Definition try {R} (r : result R) : prog R :=
  match r with
  | Ok r => Ret r
  | Err e => Stop (display e)
  | Panic message => Stop message
  | Abort => Stop "abort"
  end.
Fixpoint repeat_prog {R} (n : nat) (p : prog R) : prog (list R) :=
  match n with
  | O => mret []
  | S n => r ← p; rs ← repeat_prog n p; mret (r :: rs)
  end.
Fixpoint for_each {X} (l : list X) (p : X → prog unit) : prog unit :=
  match l with
  | [] => mret tt
  | x :: l => p x;; for_each l p
  end.

(** ** The abstract run *)

Section ideal.
Context (real : A → result V).

Definition ideal_act (a : act A V) (m : Spec.mock A V) : result (option V) * Spec.mock A V :=
  match a with
  | Use o => Spec.step o m
  | SessionVerify => Spec.step Spec.Verify m
  | Elsewhere _ args => (Some <$> real args, m)
  end.

Fixpoint ideal {R} (p : prog R) (m : Spec.mock A V) : result R :=
  match p with
  | Ret r => Ok r
  | Stop message => Panic message
  | Do a k =>
      match ideal_act a m with
      | (Ok v, m) => ideal (k v) m
      | (Err e, _) => Err e
      | (Panic message, _) => Panic message
      | (Abort, _) => Abort
      end
  end.

(** The mock a program leaves. *)
Fixpoint ideal_state {R} (p : prog R) (m : Spec.mock A V) : Spec.mock A V :=
  match p with
  | Do a k =>
      match ideal_act a m with
      | (Ok v, m) => ideal_state (k v) m
      | (_, m) => m
      end
  | _ => m
  end.

Lemma ideal_bind {R S} (p : prog R) (f : R → prog S) m r :
  ideal p m = Ok r → ideal (p ≫= f) m = ideal (f r) (ideal_state p m).
Proof.
  revert m. induction p as [r'|message|a k IH]; intros m Hp; simpl in *.
  - by injection Hp as ->.
  - done.
  - destruct (ideal_act a m) as [[v|e|message|] m']; try done. by apply IH.
Qed.
End ideal.

(** What a program may do. *)
Definition act_ok (sees elsewhere : nat → Prop) (a : act A V) : Prop :=
  match a with
  | Use o => op_ok sees o
  | SessionVerify => True
  | Elsewhere th _ => elsewhere th
  end.
Fixpoint prog_ok (sees elsewhere : nat → Prop) {R} (p : prog R) : Prop :=
  match p with
  | Do a k => act_ok sees elsewhere a ∧ ∀ v, prog_ok sees elsewhere (k v)
  | _ => True
  end.

Lemma prog_ok_bind sees elsewhere {R S} (p : prog R) (f : R → prog S) :
  prog_ok sees elsewhere p → (∀ r, prog_ok sees elsewhere (f r)) →
  prog_ok sees elsewhere (p ≫= f).
Proof.
  intros Hp Hf. induction p as [r|message|a k IH]; [apply Hf|done|].
  destruct Hp as [Ha Hk]. split; [done|]. intros v. by apply IH.
Qed.

Lemma prog_ok_repeat sees elsewhere {R} n (p : prog R) :
  prog_ok sees elsewhere p → prog_ok sees elsewhere (repeat_prog n p).
Proof. intros Hp. induction n; simpl; [done|]. do 2 (apply prog_ok_bind; [done|intros]). done. Qed.

Lemma prog_ok_for_each sees elsewhere {X} (l : list X) p :
  (∀ x, prog_ok sees elsewhere (p x)) → prog_ok sees elsewhere (for_each l p).
Proof. intros Hp. induction l; simpl; [done|]. by apply prog_ok_bind. Qed.

Lemma prog_ok_try sees elsewhere {R} (r : result R) : prog_ok sees elsewhere (try r).
Proof. by destruct r. Qed.
Lemma prog_ok_assert sees elsewhere b : prog_ok sees elsewhere (assert b).
Proof. by destruct b. Qed.
Lemma prog_ok_call (sees elsewhere : nat → Prop) th args :
  sees th → prog_ok sees elsewhere (call th args).
Proof. split; [done|]. by intros []. Qed.
Lemma prog_ok_elsewhere (sees elsewhere : nat → Prop) th args :
  elsewhere th → prog_ok sees elsewhere (call_elsewhere th args).
Proof. split; [done|]. by intros []. Qed.
Lemma prog_ok_expect_returning sees elsewhere count accepts respond :
  (∀ n, count = Some n → CallCount.bounds_ok n) → (∀ h args, respond h args ≠ Abort) →
  prog_ok sees elsewhere (expect_returning count accepts respond).
Proof. done. Qed.
End programs.

Lemma prog_ok_expect_returns {A V} sees elsewhere count accepts (value : V) :
  (∀ n, count = Some n → CallCount.bounds_ok n) →
  prog_ok (A:=A) sees elsewhere (expect_returns count accepts value).
Proof. intros Hn. by apply prog_ok_expect_returning. Qed.
Lemma prog_ok_verify {A V} sees elsewhere : prog_ok (A:=A) (V:=V) sees elsewhere verify_session.
Proof. done. Qed.

Create HintDb prog.
#[export] Hint Resolve prog_ok_bind prog_ok_repeat prog_ok_for_each prog_ok_try prog_ok_assert
  prog_ok_call prog_ok_elsewhere prog_ok_expect_returns prog_ok_verify : prog.

(** ** The steps of a test on the generated code *)

(** No thread. *)
Definition nowhere (_ : nat) : Prop := False.

Section acts.
Context {P A V : Type} `{!Platform P, !Pages P, !Code}.
Abbreviation C := (scope P (ShimforgeRule.t A) (site A V)).
Abbreviation T := (M Error C).
Implicit Types (c : C) (m : Spec.mock A V).

(** [source] is the mocked function, [dispatcher] the address of the
    [__shimforge_call] of the test, [k] its mock, and [code] what the code at
    an address returns. *)
Context (source dispatcher : Z) (k : nat) (code : Z → A → result V).

(** The entry through which the function's code jumps, if it was patched. *)
Definition entry_of (w : process P) : option Entry.t :=
  find (λ e, Patch.entry (Entry.patch e) =? source)
    (omap (λ r, leaked w !! Record_.entry r) (ENTRIES w)).

(** The code at an address, which may be the test's [__shimforge_call]. *)
Definition run_at (th : nat) (args : A) (target : Z) : T V :=
  if target =? dispatcher then
    r ← shimforge_call th dispatcher args;
    match r with
    | Answer v => mret v
    | Invoke target => lift (code target args)
    end
  else lift (code target args).

(** A call of the function: its own code, or the dispatcher it was patched
    with.  That is the test's, or the one of another site that has no mock on
    this thread, which goes on to the saved original or to a replacement. *)
Definition call_function (th : nat) (args : A) : T V :=
  e ← gets (λ c, entry_of (proc c));
  match e with
  | None => run_at th args source
  | Some e =>
      if Entry.dispatcher e =? dispatcher then run_at th args dispatcher else
      target ← in_proc (route th (Entry.dispatcher e));
      target ← lift (expect "mock is not active" target);
      if target =? Executable.address (Entry.original e) then lift (code target args)
      else run_at th args target
  end.

Definition perform_act (a : act A V) : T (option V) :=
  match a with
  | Use o => perform dispatcher k o
  | SessionVerify => session_verify;; mret None
  | Elsewhere th args => v ← call_function th args; mret (Some v)
  end.

(** A step of other threads leaves the mock, its expectations and their
    actions, and who sees it. *)
Record undisturbed c c' : Prop := {
  un_self : self c' = self c;
  un_world : world_ok (world c');
  un_mock : mocks (world c') !! k = mocks (world c) !! k;
  un_rules s r : mocks (world c) !! k = Some s → r ∈ State.rules s →
    metas (world c') !! meta r = metas (world c) !! meta r ∧
    mock_actions (slots c') !! ShimforgeRule.action r =
      mock_actions (slots c) !! ShimforgeRule.action r;
  un_idle th : k ∉ calls_of th (world c) → k ∉ calls_of th (world c');
  un_sees th : site_state th (slots c) = Some k → site_state th (slots c') = Some k }.

(** The state of a test: its mock is the only one of its session. *)
Record testing (sees : nat → Prop) c m : Prop := {
  te_promises : promises c k m;
  te_responds : responds m;
  te_session : ∃ detach, Session.mocks (self c) = [OwnedMock.Make k detach];
  te_sees th : sees th → site_state th (slots c) = Some k }.
End acts.

Section steps.
Context {P A V : Type} `{!Platform P, !Pages P, !Code}.
Abbreviation C := (scope P (ShimforgeRule.t A) (site A V)).
Implicit Types (c : C) (m : Spec.mock A V).

Lemma undisturbed_promises k c c' m : promises c k m → undisturbed k c c' → promises c' k m.
Proof.
  intros [[Hw (s & Hk & Ha & Hn & Hf & Hall & Hd)] Hidle] Hu.
  split; [|intros th; by apply (un_idle _ _ _ Hu)]. split; [apply Hu|]. exists s.
  rewrite (un_mock _ _ _ Hu). split_and!; try done; [|apply Hd..].
  refine (rules_rep_frame _ _ _ _ _ _ _ _ _ _ _ id Hall); intros r Hr; by eapply un_rules.
Qed.

Lemma undisturbed_testing k sees c c' m :
  testing k sees c m → undisturbed k c c' → testing k sees c' m.
Proof.
  intros [Hp Hr Hs Hsee] Hu. split; try done.
  - by eapply undisturbed_promises.
  - by rewrite (un_self _ _ _ Hu).
  - intros th Hth. by apply (un_sees _ _ _ Hu), Hsee.
Qed.

Lemma same_site_testing k sees c c' m m' :
  testing k sees c m → same_site c c' → promises c' k m' → responds m' → testing k sees c' m'.
Proof.
  intros [_ _ Hs Hsee] Hsame Hp Hr. pose proof Hsame as (Hself & _ & _). split; try done.
  - by rewrite Hself.
  - intros th Hth. rewrite (same_site_state _ _ _ Hsame). by apply Hsee.
Qed.

Lemma session_verify_testing k c m detach :
  promises c k m → Session.mocks (self c) = [OwnedMock.Make k detach] →
  session_verify c = (check (Spec.verify m), c).
Proof.
  intros Hp Hs. unfold session_verify, checked, check_expectations.
  unfold mbind at 1, M_bind at 1, gets. rewrite Hs. simpl. unfold mbind, M_bind.
  rewrite (verify_promises _ _ _ Hp). by destruct (Spec.verify m) as [[]| | |].
Qed.

(** A step of a test on its own thread. *)
Lemma act_refines source dispatcher k code real sees a c m :
  testing k sees c m → act_ok sees nowhere a →
  ∃ c', perform_act source dispatcher k code a c = ((ideal_act real a m).1, c') ∧
    testing k sees c' (ideal_act real a m).2 ∧ same_site c c'.
Proof.
  intros Ht Hok. pose proof Ht as [Hp Hr [detach Hs] Hsee].
  destruct a as [o| |th args]; [| |done]; simpl in *.
  - destruct (step_refines dispatcher k sees o c m Hp Hr Hok Hsee) as (c' & Hrun & Hp' & Hr' & Hsame).
    exists c'. split_and!; [done|by eapply same_site_testing|done].
  - exists c. unfold mbind, M_bind. rewrite (session_verify_testing _ _ _ _ Hp Hs).
    split_and!; [by destruct (Spec.verify m) as [[]| | |]|done|apply same_site_refl].
Qed.

(** The state after [mock!] in a session that has no mock yet. *)
Lemma mock_testing source dispatcher k nm c c1 :
  world_ok (world c) → site_ok (slots c) → calls_allocated c → Session.mocks (self c) = [] →
  mock source dispatcher nm c = (Ok k, c1) → testing k (sees c) c1 (Spec.Mock nm [] None).
Proof.
  intros Hw Hs Hc Hnone Hrun. destruct (mock_promises _ _ _ _ _ _ Hw Hs Hc Hrun) as [Hp Hsees].
  destruct (mock_run _ _ _ _ _ _ Hs Hrun) as (_ & _ & _ & _ & _ & Hms).
  split; [done| | |done].
  - by intros a h args ?%not_elem_of_nil.
  - rewrite Hms, Hnone. by eexists.
Qed.
End steps.

(** ** The run of a test

    Steps of other threads may come anywhere in between. *)

Section runs.
Context {P A V : Type} `{!Platform P, !View P, !PlatformLaws P, !Pages P, !PagesLaws P, !Code, !CodeLaws}.
Abbreviation C := (scope P (ShimforgeRule.t A) (site A V)).
Implicit Types (c : C) (m : Spec.mock A V).
Context (source dispatcher : Z) (k : nat) (code : Z → A → result V) (real : A → result V).

(** A thread without a mock and without a route, when the function has been
    patched. *)
Record bystander c (th : nat) : Prop := {
  by_site : site_state th (slots c) = None;
  by_routing : routing_ok (proc c);
  by_access : is_Some (local_routes th (proc c));
  by_route : local_target (proc c) th source = None;
  by_entry : ∃ i r e, recorded (proc c) i r e ∧ Patch.entry (Entry.patch e) = source ∧
    Entry.global e = 0 }.

(** What a step of other threads leaves of a thread: it has the mock it had,
    and its calls go where they went. *)
Definition left_alone c c' (th : nat) : Prop :=
  site_state th (slots c') = site_state th (slots c) ∧
  (is_Some (local_routes th (proc c)) → is_Some (local_routes th (proc c'))) ∧
  calls_kept th (proc c) (proc c').

(** [elsewhere] are the other threads that the test calls the function on. *)
Inductive runs (elsewhere : nat → Prop) {R} : prog A V R → C → result R → C → Prop :=
| runs_ret r c : runs elsewhere (Ret r) c (Ok r) c
| runs_stop message c : runs elsewhere (Stop message) c (Panic message) c
| runs_do a p c v c1 o c2 :
    perform_act source dispatcher k code a c = (Ok v, c1) → runs elsewhere (p v) c1 o c2 →
    runs elsewhere (Do a p) c o c2
| runs_unwind a p c message c1 :
    perform_act source dispatcher k code a c = (Panic message, c1) →
    runs elsewhere (Do a p) c (Panic message) c1
| runs_error a p c e c1 :
    perform_act source dispatcher k code a c = (Err e, c1) → runs elsewhere (Do a p) c (Err e) c1
| runs_abort a p c c1 :
    perform_act source dispatcher k code a c = (Abort, c1) → runs elsewhere (Do a p) c Abort c1
| runs_others p c c1 o c2 :
    undisturbed k c c1 → routing_ok (proc c1) → (∀ th, elsewhere th → left_alone c c1 th) →
    runs elsewhere p c1 o c2 → runs elsewhere p c o c2.

(** The saved original of a patched function runs like the function. *)
Definition original_kept : Prop :=
  ∀ (s : P) e args, code_ok s e → Patch.entry (Entry.patch e) = source →
    code (Executable.address (Entry.original e)) args = real args.

Definition no_shadow_stacks : Prop := ∀ s : P, (shadow_stack s).1 = Ok false.

Lemma bystander_frame c c' th : same_site c c' → bystander c th → bystander c' th.
Proof.
  intros Hsame []. pose proof Hsame as (_ & _ & Hp & _). split; rewrite ?Hp; try done.
  by rewrite (same_site_state _ _ _ Hsame).
Qed.

Lemma bystander_os c s th :
  same_view (os (proc c)) s → bystander c th → bystander (set_proc (set_os s (proc c)) c) th.
Proof. intros Hv []. split; try done. simpl. by apply routing_ok_os, same_view_keeps. Qed.

Lemma bystander_left c c' th :
  routing_ok (proc c') → left_alone c c' th → bystander c th → bystander c' th.
Proof.
  intros Hw (Hs & Ha & Hk) [Hsite _ Hacc Hroute (i & r & e & Hr & He & Hg)]. split; try done.
  - by rewrite Hs.
  - by apply Ha.
  - by rewrite (kept_locals _ _ _ Hk).
  - destruct (kept_entries _ _ _ Hk _ _ _ Hr) as [r' Hr']. by exists i, r', e.
Qed.

(** The entry of a function is unique. *)
Lemma entry_of_recorded (w : process P) i r e :
  routing_ok w → recorded w i r e → Patch.entry (Entry.patch e) = source →
  entry_of source w = Some e.
Proof.
  intros Hw Hr He. unfold entry_of. destruct (find _ _) as [e'|] eqn:Hf.
  - apply find_some in Hf as [Hin%list_elem_of_In Hs%Z.eqb_eq].
    apply list_elem_of_omap in Hin as (r' & Hr' & Hl). apply list_elem_of_lookup_1 in Hr' as [j Hj].
    destruct (recorded_unique w i j r r' e e' Hw Hr) as (_ & _ & ->); [done|right; congruence|done].
  - destruct Hr as [Hi Hl]. exfalso.
    assert (e ∈ omap (λ r, leaked w !! Record_.entry r) (ENTRIES w)) as Hin.
    { apply list_elem_of_omap. exists r. split; [by eapply list_elem_of_lookup_2|done]. }
    apply list_elem_of_In in Hin. pose proof (find_none _ _ Hf _ Hin) as Hn. simpl in Hn. lia.
Qed.

(** A call on such a thread runs the function. *)
Lemma bystander_call c th args :
  original_kept → no_shadow_stacks → bystander c th →
  ∃ s, perform_act source dispatcher k code (Elsewhere th args) c =
    (Some <$> real args, set_proc (set_os s (proc c)) c) ∧ same_view (os (proc c)) s.
Proof.
  intros Hcode Hshadow [Hsite Hw Hacc Hroute (i & r & e & Hr & He & Hg)].
  destruct (route_original _ th _ _ _ Hw Hacc Hr) as (s & Hrun & Hv); [by rewrite He|done..|].
  destruct (ok_code _ Hw _ _ _ Hr) as [Hc _]. pose proof (Hcode _ _ args Hc He) as Hreal.
  exists s. split; [|done]. simpl. unfold call_function. unfold mbind at 1 2, M_bind at 1 2, gets at 1.
  rewrite (entry_of_recorded _ _ _ _ Hw Hr He).
  destruct (Z.eqb_spec (Entry.dispatcher e) dispatcher) as [Hd|Hd].
  - unfold run_at. rewrite Z.eqb_refl. unfold mbind, M_bind, shimforge_call, gets.
    unfold mbind at 1, M_bind at 1. rewrite Hsite.
    unfold mbind, M_bind. rewrite <-Hd, (in_proc_run _ _ _ _ Hrun). simpl. unfold mbind, M_bind, lift.
    rewrite Hreal. by destruct (real args).
  - unfold mbind at 1, M_bind at 1. rewrite (in_proc_run _ _ _ _ Hrun). unfold mbind, M_bind, lift. simpl.
    rewrite Z.eqb_refl. unfold lift. rewrite Hreal. by destruct (real args).
Qed.

(** One step of a test. *)
Lemma run_act_refines sees elsewhere a c m :
  original_kept → no_shadow_stacks → testing k sees c m → (∀ th, elsewhere th → bystander c th) →
  act_ok sees elsewhere a →
  ∃ c', perform_act source dispatcher k code a c = ((ideal_act real a m).1, c') ∧
    testing k sees c' (ideal_act real a m).2 ∧ ∀ th, elsewhere th → bystander c' th.
Proof.
  intros Hcode Hshadow Ht Hby Hok.
  assert (act_ok sees nowhere a → ∃ c', perform_act source dispatcher k code a c = ((ideal_act real a m).1, c') ∧
    testing k sees c' (ideal_act real a m).2 ∧ ∀ th, elsewhere th → bystander c' th) as Hown.
  { intros Hok'.
    destruct (act_refines source dispatcher k code real sees a c m Ht Hok') as (c' & Hrun & Ht' & Hsame).
    exists c'. split_and!; [done|done|]. intros th Hth. eapply bystander_frame; [done|by apply Hby]. }
  destruct a as [o| |th args]; [by apply Hown|by apply Hown|].
  destruct (bystander_call c th args Hcode Hshadow (Hby th Hok)) as (s & Hrun & Hv).
  eexists. split_and!; [exact Hrun| |].
  - destruct Ht as [Hp Hr Hs Hsee]. by split.
  - intros th' Hth'. apply bystander_os; [done|by apply Hby].
Qed.

(** Every run ends like the abstract one, whatever other threads do. *)
Lemma runs_ideal sees elsewhere {R} (p : prog A V R) c o c' m :
  original_kept → no_shadow_stacks → runs elsewhere p c o c' → testing k sees c m →
  (∀ th, elsewhere th → bystander c th) → prog_ok sees elsewhere p → o = ideal real p m.
Proof.
  intros Hcode Hshadow Hrun. revert m. induction Hrun as [r c|message c|a p c v c1 o c2 Ha Hrun IH
    |a p c message c1 Ha|a p c e c1 Ha|a p c c1 Ha|p c c1 o c2 Hu Hw Hl Hrun IH]; intros m Ht Hby Hok; simpl.
  1, 2: done.
  1, 2, 3, 4: destruct Hok as [Hact Hk];
    destruct (run_act_refines sees elsewhere a c m Hcode Hshadow Ht Hby Hact) as (c' & Hrun' & Ht' & Hby');
    rewrite Hrun' in Ha; destruct (ideal_act real a m) as [w m']; injection Ha as -> ->; auto.
  apply IH; [by eapply undisturbed_testing| |done]. intros th Hth.
  eapply bystander_left; [done|by apply Hl|by apply Hby].
Qed.

(** A test always has a run. *)
Lemma runs_exist sees elsewhere {R} (p : prog A V R) c m :
  original_kept → no_shadow_stacks → testing k sees c m → (∀ th, elsewhere th → bystander c th) →
  prog_ok sees elsewhere p → ∃ c', runs elsewhere p c (ideal real p m) c'.
Proof.
  intros Hcode Hshadow. revert c m. induction p as [r|message|a p IH]; intros c m Ht Hby Hok.
  - exists c. constructor.
  - exists c. constructor.
  - destruct Hok as [Hact Hk].
    destruct (run_act_refines sees elsewhere a c m Hcode Hshadow Ht Hby Hact) as (c1 & Hrun & Ht1 & Hby1).
    simpl. destruct (ideal_act real a m) as [[v|e|message|] m1]; simpl in *.
    + destruct (IH v c1 m1 Ht1 Hby1 (Hk v)) as (c2 & Hrun2). exists c2. by econstructor.
    + exists c1. by econstructor.
    + exists c1. by econstructor.
    + exists c1. by econstructor.
Qed.

(** [mock!] in a local session installs the dispatcher on its thread. *)
Lemma mock_installs nm c c1 :
  is_local c = true → mock source dispatcher nm c = (Ok k, c1) →
  install_replacement (thread c) source dispatcher dispatcher (proc c) = (Ok tt, proc c1).
Proof.
  intros Hl. assert (∀ wd x, is_local (mkScope (self c) (thread c) (proc c) wd x : C) = true) as Hl' by done.
  unfold mock, checked. unfold mbind at 1, M_bind at 1, gets at 1.
  unfold mbind at 1, M_bind at 1, gets at 1. unfold mbind at 1, M_bind at 1, in_world at 1. simpl.
  unfold mbind at 1, M_bind at 1, in_slots at 1. destruct (activate _ _ _) as [[[]|e|m|] x1]; try done. simpl.
  unfold mbind at 1, M_bind at 1. unfold install_mock at 1. unfold mbind at 1, M_bind at 1, gets at 1.
  rewrite Hl'.
  unfold mbind at 1, M_bind at 1, attempt. unfold mbind at 1, M_bind at 1, gets at 1. simpl.
  unfold mbind at 1, M_bind at 1, in_proc, install. simpl.
  destruct (install_replacement (thread c) source dispatcher dispatcher (proc c)) as [[[]|e|m|] w1].
  - unfold mbind, M_bind, modify, gets. simpl. by intros [= _ <-].
  - simpl. unfold mbind at 1, M_bind at 1. by destruct (mock_drop _ _) as [[[]|?|?|] c2].
  - simpl. unfold mbind at 1, M_bind at 1. by destruct (mock_drop _ _) as [[[]|?|?|] c2].
  - done.
Qed.

(** A thread without a mock and without a route stays so when another thread
    mocks the function. *)
Lemma mock_bystander nm c c1 th :
  site_ok (slots c) → is_local c = true → mock source dispatcher nm c = (Ok k, c1) →
  routing_ok (proc c) → is_Some (local_routes (thread c) (proc c)) → outside_pages (proc c) source →
  (∀ i r e, recorded (proc c) i r e → Patch.entry (Entry.patch e) = source → Entry.global e = 0) →
  th ≠ thread c → site_state th (slots c) = None → is_Some (local_routes th (proc c)) →
  local_target (proc c) th source = None → bystander c1 th.
Proof.
  intros Hs Hl Hrun Hw Hacc Hout Hglobal Hne Hsite Hth Hroute.
  pose proof (install_replacement_run _ _ _ _ _ _ _ Hw Hacc Hout (mock_installs _ _ _ Hl Hrun))
    as (Hw1 & e & Hi).
  destruct (mock_run _ _ _ _ _ _ Hs Hrun) as (_ & _ & _ & Hseen & _ & _).
  destruct (installed_entry _ _ _ _ _ _ _ Hi) as (i & r & Hr & _).
  split; [|done|by apply (installed_access _ _ _ _ _ _ _ Hi)| |].
  - rewrite Hseen. unfold site_seen, session_owner. rewrite Hl. by rewrite decide_False.
  - rewrite (installed_locals _ _ _ _ _ _ _ Hi). by rewrite decide_False by naive_solver.
  - exists i, r, e. split_and!; [done|by apply Hi|].
    destruct (installed_new _ _ _ _ _ _ _ Hi) as [(j & r' & Hr')|(_ & _ & Hg)]; [|done].
    eapply Hglobal; [done|by apply Hi].
Qed.
End runs.

(** ** The steps of other threads

    A mock of another thread, whose session has a state of its own but shares
    the process, the heap and the statics. *)

Section others.
Context {P A V : Type} `{!Platform P, !Pages P, !Code}.
Abbreviation C := (scope P (ShimforgeRule.t A) (site A V)).
Implicit Types (c : C) (m : Spec.mock A V).

(** What a step on the mock [j] may change: its own expectations, their
    actions, and what is new. *)
Record only_mock (j : nat) (s : State.t (ShimforgeRule.t A)) c c' : Prop := {
  om_mocks i : i ≠ j → mocks (world c') !! i = mocks (world c) !! i;
  om_metas i : (i < length (metas (world c)))%nat → i ∉ (meta <$> State.rules s) →
    metas (world c') !! i = metas (world c) !! i;
  om_actions i : (i < length (mock_actions (slots c)))%nat →
    i ∉ (ShimforgeRule.action <$> State.rules s) →
    mock_actions (slots c') !! i = mock_actions (slots c) !! i;
  om_calls th i : i ≠ j → i ∈ calls_of th (world c') → i ∈ calls_of th (world c);
  om_rules s' r : mocks (world c') !! j = Some s' → r ∈ State.rules s' →
    r ∈ State.rules s ∨
    (length (metas (world c)) ≤ meta r)%nat ∧
    (length (mock_actions (slots c)) ≤ ShimforgeRule.action r)%nat }.

Lemma only_mock_refl j s c : mocks (world c) !! j = Some s → only_mock j s c c.
Proof. intros Hs. split; try done. intros s' r Hs'. rewrite Hs in Hs'. injection Hs' as <-. by left. Qed.

Lemma selects_only (w : World (ShimforgeRule.t A)) j s f o w1 :
  selects w j s f o w1 →
  (∀ i, i ≠ j → mocks w1 !! i = mocks w !! i) ∧
  (∀ i, i ∉ (meta <$> State.rules s) → metas w1 !! i = metas w !! i) ∧
  (∀ r, o = Ok r → r ∈ State.rules s) ∧
  (mocks w !! j = Some s → ∃ s', mocks w1 !! j = Some s' ∧ State.rules s' = State.rules s).
Proof.
  destruct 1 as [pre r post x Hrs _ _ Hx _ _|pre r post x e w' Hrs _ _ Hx _ Hc|_ e].
  - split_and!.
    + intros i _. unfold count_call. simpl. by rewrite mocks_advance.
    + intros i Hi. unfold count_call. simpl. rewrite metas_advance, list_lookup_insert_ne; [done|].
      intros <-. apply Hi, list_elem_of_fmap_2. rewrite Hrs. set_solver.
    + intros r' [= <-]. rewrite Hrs. set_solver.
    + intros Hs. exists s. split; [|done]. unfold count_call. simpl. by rewrite mocks_advance.
  - assert (∀ i, i ∉ (meta <$> State.rules s) → metas w' !! i = metas w !! i) as Hm.
    { intros i Hi. assert (meta r ≠ i) as Hne.
      { intros <-. apply Hi, list_elem_of_fmap_2. rewrite Hrs. set_solver. }
      inversion Hc; simpl; try done; by rewrite list_lookup_insert_ne. }
    split_and!; [|done|done|].
    + intros i Hi. simpl. rewrite list_lookup_insert_ne by done. by rewrite (claim_mocks _ _ _ _ _ Hc).
    + intros Hs. eexists. simpl. rewrite list_lookup_insert_eq; [done|].
      rewrite (claim_mocks _ _ _ _ _ Hc). by eapply lookup_lt_Some.
  - split_and!; [|done|done|].
    + intros i Hi. simpl. by rewrite list_lookup_insert_ne.
    + intros Hs. eexists. simpl. rewrite list_lookup_insert_eq; [done|]. by eapply lookup_lt_Some.
Qed.

Lemma call_only th dispatcher args c j s m o c' :
  promises c j m → mocks (world c) !! j = Some s → site_state th (slots c) = Some j →
  shimforge_call th dispatcher args c = (o, c') → o ≠ Abort → only_mock j s c c'.
Proof.
  intros [[Hw (s' & Hk & Ha & _)] Hidle] Hs Hsite Hrun Hna. rewrite Hk in Hs. injection Hs as ->.
  destruct (mocked_call_run th j s (λ r, ShimforgeRule.matcher r args) (run_action args) c Hw Hk Ha (Hidle th))
    as (v & wd1 & x & Hans & Hcall).
  pose proof (answers_active _ _ _ _ _ _ _ _ _ Hans) as Hact.
  pose proof (guard_restores th j (world c) wd1 (Hidle th) Hact) as Hcalls.
  unfold shimforge_call in Hrun. unfold mbind at 1, M_bind at 1, gets at 1 in Hrun.
  rewrite Hsite in Hrun. unfold mbind at 1, M_bind at 1 in Hrun. rewrite Hcall in Hrun.
  assert (c' = mkScope (self c) (thread c) (proc c) (guard_drop th j wd1).2 x) as ->.
  { destruct v; injection Hrun as <- <-; done. }
  assert (∀ f w1 o1, selects (entered th j (world c)) j s f o1 w1 → wd1 = w1 →
    (∀ i, i ≠ j → mocks (guard_drop th j wd1).2 !! i = mocks (world c) !! i) ∧
    (∀ i, i ∉ (meta <$> State.rules s) → metas (guard_drop th j wd1).2 !! i = metas (world c) !! i) ∧
    (∀ s' r, mocks (guard_drop th j wd1).2 !! j = Some s' → r ∈ State.rules s' → r ∈ State.rules s)) as Hsel.
  { intros f w1 o1 Hsel ->. destruct (selects_only _ _ _ _ _ _ Hsel) as (Hm1 & Hm2 & _ & Hm4).
    destruct (Hm4 Hk) as (s1 & Hs1 & Hrules). split_and!; [done|done|]. simpl. rewrite Hs1.
    intros s' r [= <-]. by rewrite Hrules. }
  destruct Hans as [r wd1 v x Hs Hrun'|message wd1 Hs]; destruct (Hsel _ _ _ Hs eq_refl) as (Hm1 & Hm2 & Hm3);
    (split; [exact Hm1|intros i _; apply Hm2| |intros th' i _; by rewrite Hcalls|intros; left; by eapply Hm3]);
    simpl; [|done].
  intros i _ Hi. destruct (selects_only _ _ _ _ _ _ Hs) as (_ & _ & Hin & _). specialize (Hin r eq_refl).
  assert (ShimforgeRule.action r ≠ i) as Hne by (intros <-; by apply Hi, list_elem_of_fmap_2).
  unfold run_action in Hrun'.
  destruct (mock_actions (slots c) !! ShimforgeRule.action r) as [[g h|[g|]]|];
    injection Hrun' as <- <-; simpl; try done; by rewrite list_lookup_insert_ne.
Qed.

Lemma add_only b config act c j s o c' :
  mocks (world c) !! j = Some s → State.active s = true → Builder.state b = j →
  Config.sequence config = None → add_action b config act c = (o, c') → only_mock j s c c'.
Proof.
  intros Hk Ha Hb Hsq. unfold add_action. unfold mbind at 1, M_bind at 1, in_slots at 1. simpl.
  unfold checked, in_world. simpl. rewrite Hb.
  set (make := λ meta, ShimforgeRule.Make meta (Builder.matcher b) (length (mock_actions (slots c)))).
  destruct (Config.validate config) as [n|e|message|] eqn:Hv.
  - pose proof (add_run (world c) j s config make n Hv Hk Ha) as Hrun. simpl in Hrun. rewrite Hsq in Hrun.
    rewrite Hrun. intros [= <- <-]. split; simpl; try done.
    + intros i Hi. by rewrite list_lookup_insert_ne.
    + intros i Hi _. by rewrite lookup_app_l.
    + intros i Hi _. by rewrite lookup_app_l.
    + intros s' r. rewrite list_lookup_insert_eq by (by eapply lookup_lt_Some). intros [= <-]. simpl.
      rewrite elem_of_app, list_elem_of_singleton. intros [Hr| ->]; [by left|right; simpl; done].
  - unfold add, mbind, M_bind, lift. rewrite Hv. intros [= <- <-].
    split; simpl; try done; [intros i Hi _; by rewrite lookup_app_l|intros s' r Hs'].
    rewrite Hk in Hs'. injection Hs' as <-. by left.
  - unfold add, mbind, M_bind, lift. rewrite Hv. intros [= <- <-].
    split; simpl; try done; [intros i Hi _; by rewrite lookup_app_l|intros s' r Hs'].
    rewrite Hk in Hs'. injection Hs' as <-. by left.
  - unfold add, mbind, M_bind, lift. rewrite Hv. intros [= <- <-].
    split; simpl; try done; [intros i Hi _; by rewrite lookup_app_l|intros s' r Hs'].
    rewrite Hk in Hs'. injection Hs' as <-. by left.
Qed.

Lemma checkpoint_only c j s m o c' :
  promises c j m → mocks (world c) !! j = Some s → in_world (checkpoint j) c = (o, c') →
  only_mock j s c c'.
Proof.
  intros [Hh _] Hk. pose proof Hh as [_ (s' & Hk' & Ha & _)]. rewrite Hk in Hk'. injection Hk' as <-.
  unfold in_world, checkpoint. rewrite (deref_bind _ _ _ _ _ Hk), Ha. simpl.
  unfold mbind, M_bind. rewrite (verify_holds _ _ _ _ _ Hh Hk).
  destruct (Spec.verify m) as [[]|e|message|]; intros [= <- <-]; split; simpl; try done.
  - intros i Hi. by rewrite list_lookup_insert_ne.
  - intros s' r. rewrite list_lookup_insert_eq by (by eapply lookup_lt_Some). intros [= <-].
    by intros ?%not_elem_of_nil.
  - intros s' r Hs'. rewrite Hk in Hs'. injection Hs' as <-. by left.
  - intros s' r Hs'. rewrite Hk in Hs'. injection Hs' as <-. by left.
  - intros s' r Hs'. rewrite Hk in Hs'. injection Hs' as <-. by left.
Qed.

Lemma perform_only dispatcher j sees o c s m v c' :
  promises c j m → responds m → mocks (world c) !! j = Some s → op_ok sees o →
  (∀ th, sees th → site_state th (slots c) = Some j) →
  perform dispatcher j o c = (v, c') → only_mock j s c c'.
Proof.
  intros Hp Hr Hk Hok Hsees Hrun.
  pose proof Hp as [[_ (s' & Hk' & Ha & _)] _]. rewrite Hk in Hk'. injection Hk' as <-.
  destruct o as [th args|count f g|count f g| |]; simpl in *.
  - destruct (call_responds args m Hr) as [Hna _].
    destruct (call_promises th dispatcher args c j m Hp (Hsees th Hok) Hna) as (c1 & Hcall & _).
    unfold mbind, M_bind in Hrun. rewrite Hcall in Hrun.
    assert (c1 = c') as -> by (by destruct (Spec.call args m).1; injection Hrun as _ ->).
    eapply call_only; [done|done|by apply Hsees|done|]. by destruct (Spec.call args m).1.
  - unfold mbind, M_bind, mock_returning in Hrun. rewrite builder_config in Hrun.
    destruct (add_action (builder j count f) (Spec.config count) (Repeat g []) c) as [v1 c1] eqn:Hadd.
    assert (c1 = c') as -> by (by destruct v1; injection Hrun as _ ->).
    by refine (add_only _ _ _ _ _ _ _ _ Hk Ha (builder_state j count f) _ Hadd).
  - unfold mbind, M_bind, mock_returning_once, lift in Hrun. rewrite builder_config in Hrun.
    destruct (Config.for_once (Spec.config count)) as [config|e|msg|] eqn:Hf; simpl in Hrun;
      [|injection Hrun as _ <-; by apply only_mock_refl..].
    destruct (Config.for_once_Ok _ _ Hf) as (_ & _ & _ & _ & Hsq & _).
    unfold mbind, M_bind in Hrun.
    destruct (add_action (builder j count f) config (Once (Some g)) c) as [v1 c1] eqn:Hadd.
    assert (c1 = c') as -> by (by destruct v1; injection Hrun as _ ->).
    by refine (add_only _ _ _ _ _ _ _ _ Hk Ha (builder_state j count f) _ Hadd).
  - unfold mock_verify, checked, mbind, M_bind in Hrun. rewrite (verify_promises _ _ _ Hp) in Hrun.
    assert (c = c') as -> by (by destruct (Spec.verify m) as [[]| | |]; injection Hrun as _ <-).
    by apply only_mock_refl.
  - unfold mock_checkpoint, checked, mbind, M_bind in Hrun.
    destruct (in_world (checkpoint j) c) as [v1 c1] eqn:Hc.
    assert (c1 = c') as -> by (by destruct v1 as [[]| | |]; injection Hrun as _ ->).
    by eapply checkpoint_only.
Qed.

(** The state of a test after a step in the session of another one. *)
Definition after_other c co : C := mkScope (self c) (thread c) (proc co) (world co) (slots co).
Definition shares c co : Prop := proc co = proc c ∧ world co = world c ∧ slots co = slots c.

(** Two mocks have different expectations. *)
Definition apart c (k j : nat) : Prop :=
  ∀ s s' r r', mocks (world c) !! k = Some s → mocks (world c) !! j = Some s' →
    r ∈ State.rules s → r' ∈ State.rules s' →
    meta r ≠ meta r' ∧ ShimforgeRule.action r ≠ ShimforgeRule.action r'.

Lemma only_undisturbed k j s c co co' m :
  k ≠ j → shares c co → promises c k m → mocks (world co) !! j = Some s → apart c k j →
  only_mock j s co co' → world_ok (world co') →
  (∀ th, site_state th (slots co') = site_state th (slots co)) →
  undisturbed k c (after_other c co').
Proof.
  intros Hne (_ & Hw & Hx) [[Hok (sk & Hk & _ & _ & _ & Hall & _)] _] Hj Hap Hom Hw' Hsite.
  split; simpl; [done|done| | | |].
  - rewrite <-Hw. by apply (om_mocks _ _ _ _ Hom).
  - intros s' r Hs' Hr. rewrite Hk in Hs'. injection Hs' as <-. rewrite <-Hw, <-Hx.
    destruct (ok_rules _ Hok k sk r Hk Hr) as [x Hmeta].
    apply list_elem_of_lookup_1 in Hr as [i Hi].
    destruct (Forall2_lookup_l _ _ _ _ _ Hall Hi) as (a & _ & [_ _ Hrep]).
    apply list_elem_of_lookup_2 in Hi. split.
    + apply (om_metas _ _ _ _ Hom); [rewrite Hw; by eapply lookup_lt_Some|].
      intros (r' & He & Hr')%list_elem_of_fmap. rewrite Hw in Hj.
      by destruct (Hap _ _ _ _ Hk Hj Hi Hr') as [? _].
    + apply (om_actions _ _ _ _ Hom).
      * rewrite Hx. inversion Hrep as [Hy|? ? ? ? ? ? Hy|? ? ? ? Hy]; symmetry in Hy; by eapply lookup_lt_Some.
      * intros (r' & He & Hr')%list_elem_of_fmap. rewrite Hw in Hj.
        by destruct (Hap _ _ _ _ Hk Hj Hi Hr') as [_ ?].
  - intros th Hin Hin'. apply Hin. rewrite <-Hw. by apply (om_calls _ _ _ _ Hom).
  - intros th Hth. by rewrite Hsite, Hx.
Qed.

(** Whatever another test does with its own mock. *)
Lemma perform_undisturbed dispatcher k j sees o c co m mo v co' :
  k ≠ j → shares c co → promises c k m → promises co j mo → responds mo → apart c k j →
  op_ok sees o → (∀ th, sees th → site_state th (slots co) = Some j) →
  perform dispatcher j o co = (v, co') → undisturbed k c (after_other c co').
Proof.
  intros Hne Hsh Hp Hpo Hr Hap Hok Hsees Hrun.
  pose proof Hpo as [[_ (s & Hj & _)] _].
  pose proof (perform_only _ _ _ _ _ _ _ _ _ Hpo Hr Hj Hok Hsees Hrun) as Hom.
  destruct (step_refines dispatcher j sees o co mo Hpo Hr Hok Hsees) as (co1 & Hrun1 & Hp1 & _ & Hsame).
  rewrite Hrun in Hrun1. injection Hrun1 as -> ->.
  eapply only_undisturbed; [done|done|done|done|done|done|apply Hp1|].
  intros th. by apply same_site_state.
Qed.

(** Another thread mocks the function in its own session. *)
Lemma mock_undisturbed k source target nm c co m j co' :
  shares c co → promises c k m → site_ok (slots co) → is_local co = true →
  site_state (thread co) (slots c) ≠ Some k →
  mock source target nm co = (Ok j, co') → undisturbed k c (after_other c co').
Proof.
  intros (_ & Hw & Hx) [[Hok (s & Hk & _)] _] Hs Hl Hnot Hrun.
  destruct (mock_run _ _ _ _ _ _ Hs Hrun) as ([-> Hw1] & _ & Ha & Hseen & _).
  split; simpl; [done|rewrite Hw1, Hw; by apply world_ok_state_new| | | |].
  - rewrite Hw1, Hw. simpl. rewrite lookup_app_l; [done|]. by eapply lookup_lt_Some.
  - intros s' r _ _. by rewrite Hw1, Hw, Ha, Hx.
  - intros th. by rewrite Hw1, Hw.
  - intros th Hth. rewrite Hseen. unfold site_seen, session_owner. rewrite Hl.
    destruct (decide (th = thread co)) as [->|_]; [done|by rewrite Hx].
Qed.
End others.

(** ** Tests in parallel

    Tests on different threads, each with a local session and a mock of its
    own at one [mock!] site, share the process, the heap and the statics;
    their steps interleave in any order.  An installation that fails ends its
    test and is left out. *)

Section parallel.
Context {P A V R : Type} `{!Platform P, !Pages P, !Code}.
Abbreviation C := (scope P (ShimforgeRule.t A) (site A V)).
Context (source dispatcher : Z) (nm : string) (code : Z → A → result V) (real : A → result V).

Inductive status := Opening (p : prog A V R) | Running (p : prog A V R) | Ended (o : result R).

Record worker := Worker { own : Session.t (site A V); at_thread : nat; key : nat; state : status }.
Record shared := Shared {
  sh_proc : process P;
  sh_world : World (ShimforgeRule.t A);
  sh_slots : site A V }.

Definition scope_of (wk : worker) (sh : shared) : C :=
  mkScope (own wk) (at_thread wk) (sh_proc sh) (sh_world sh) (sh_slots sh).
Definition shared_of (c : C) : shared := Shared (proc c) (world c) (slots c).

(** What is left of a test after a step. *)
Definition continue (p : option V → prog A V R) (v : result (option V)) : status :=
  match v with
  | Ok v => Running (p v)
  | Err e => Ended (Err e)
  | Panic message => Ended (Panic message)
  | Abort => Ended Abort
  end.
Definition finished (p : prog A V R) : option (result R) :=
  match p with Ret r => Some (Ok r) | Stop message => Some (Panic message) | Do _ _ => None end.

Inductive par_step : shared * list worker → shared * list worker → Prop :=
| par_mock sh ws i wk p k c' :
    ws !! i = Some wk → state wk = Opening p →
    mock source dispatcher nm (scope_of wk sh) = (Ok k, c') →
    par_step (sh, ws) (shared_of c', <[i := Worker (self c') (at_thread wk) k (Running p)]> ws)
| par_act sh ws i wk a p v c' :
    ws !! i = Some wk → state wk = Running (Do a p) →
    perform_act source dispatcher (key wk) code a (scope_of wk sh) = (v, c') →
    par_step (sh, ws) (shared_of c', <[i := Worker (self c') (at_thread wk) (key wk) (continue p v)]> ws)
| par_end sh ws i wk p o :
    ws !! i = Some wk → state wk = Running p → finished p = Some o →
    par_step (sh, ws) (sh, <[i := Worker (own wk) (at_thread wk) (key wk) (Ended o)]> ws).

(** ** The invariant *)

Definition worker_ok (sh : shared) (goal : result R) (wk : worker) : Prop :=
  match state wk with
  | Opening p =>
      Session.lock (own wk) = Local ∧ Session.mocks (own wk) = [] ∧
      site_state (at_thread wk) (sh_slots sh) = None ∧
      prog_ok (eq (at_thread wk)) nowhere p ∧ ideal real p (Spec.Mock nm [] None) = goal
  | Running p => ∃ m,
      testing (key wk) (eq (at_thread wk)) (scope_of wk sh) m ∧
      prog_ok (eq (at_thread wk)) nowhere p ∧ ideal real p m = goal
  | Ended o => o = goal
  end.

Definition running (wk : worker) : Prop := ∃ p, state wk = Running p.

Record par_ok (goals : list (result R)) (s : shared * list worker) : Prop := {
  par_world : world_ok (sh_world s.1);
  par_site : site_ok (sh_slots s.1);
  par_calls th j : j ∈ calls_of th (sh_world s.1) → is_Some (mocks (sh_world s.1) !! j);
  par_workers i wk : s.2 !! i = Some wk → ∃ goal, goals !! i = Some goal ∧ worker_ok s.1 goal wk;
  par_threads i j wk wk' : s.2 !! i = Some wk → s.2 !! j = Some wk' → i ≠ j →
    at_thread wk ≠ at_thread wk';
  par_apart i j wk wk' : s.2 !! i = Some wk → s.2 !! j = Some wk' → i ≠ j →
    running wk → running wk' → key wk ≠ key wk' ∧ apart (scope_of wk s.1) (key wk) (key wk') }.

Lemma apart_sym (c : C) k j : apart c k j → apart c j k.
Proof. intros Ha s s' r r' Hs Hs' Hr Hr'. destruct (Ha s' s r' r Hs' Hs Hr' Hr). split; congruence. Qed.

(** A step of one worker, and what it owes the others. *)
Lemma par_ok_update goals sh ws sh' i wk wk' :
  par_ok goals (sh, ws) → ws !! i = Some wk → at_thread wk' = at_thread wk →
  world_ok (sh_world sh') → site_ok (sh_slots sh') →
  (∀ th j, j ∈ calls_of th (sh_world sh') → is_Some (mocks (sh_world sh') !! j)) →
  (∀ goal, goals !! i = Some goal → worker_ok sh goal wk → worker_ok sh' goal wk') →
  (∀ j wkj goal, j ≠ i → ws !! j = Some wkj → worker_ok sh goal wkj → worker_ok sh' goal wkj) →
  (running wk' → ∀ j wkj, j ≠ i → ws !! j = Some wkj → running wkj →
     key wk' ≠ key wkj ∧ apart (scope_of wk' sh') (key wk') (key wkj)) →
  (∀ j l wkj wkl, j ≠ i → l ≠ i → j ≠ l → ws !! j = Some wkj → ws !! l = Some wkl →
     running wkj → running wkl →
     apart (scope_of wkj sh) (key wkj) (key wkl) → apart (scope_of wkj sh') (key wkj) (key wkl)) →
  par_ok goals (sh', <[i := wk']> ws).
Proof.
  intros Hok Hi Hth Hw Hs Hc Hown Hothers Hmine Hrest.
  pose proof Hok as [_ _ _ Hwk Hthr Hap]. simpl in *.
  assert (i < length ws)%nat as Hlen by (by eapply lookup_lt_Some).
  split; simpl; [done..| | |].
  - intros j wkj Hj. destruct (decide (j = i)) as [->|Hne].
    + rewrite list_lookup_insert_eq in Hj by done. injection Hj as <-.
      destruct (Hwk i wk Hi) as (goal & Hg & Hwko). eauto.
    + rewrite list_lookup_insert_ne in Hj by done. destruct (Hwk j wkj Hj) as (goal & Hg & Hwko). eauto.
  - intros j l wkj wkl Hj Hl Hne. destruct (decide (j = i)) as [->|Hji], (decide (l = i)) as [->|Hli]; [done|..];
      rewrite ?list_lookup_insert_eq in Hj by done; rewrite ?list_lookup_insert_eq in Hl by done;
      rewrite ?list_lookup_insert_ne in Hj by done; rewrite ?list_lookup_insert_ne in Hl by done; simplify_eq;
      rewrite ?Hth; by eapply Hthr.
  - intros j l wkj wkl Hj Hl Hne Hrj Hrl.
    destruct (decide (j = i)) as [->|Hji], (decide (l = i)) as [->|Hli]; [done|..];
      rewrite ?list_lookup_insert_eq in Hj by done; rewrite ?list_lookup_insert_eq in Hl by done;
      rewrite ?list_lookup_insert_ne in Hj by done; rewrite ?list_lookup_insert_ne in Hl by done; simplify_eq.
    + by eapply Hmine.
    + destruct (Hmine Hrl j wkj Hji Hj Hrj) as [Hk Ha]. split; [congruence|].
      by apply apart_sym in Ha.
    + destruct (Hap j l wkj wkl Hj Hl Hne Hrj Hrl) as [Hk Ha]. split; [done|]. by apply (Hrest j l).
Qed.

(** A step on its own mock changes nothing else. *)
Lemma act_only k sees (a : act A V) (c : C) m v c' :
  testing k sees c m → act_ok sees nowhere a →
  perform_act source dispatcher k code a c = (v, c') →
  ∃ s, mocks (world c) !! k = Some s ∧ only_mock k s c c' ∧ same_site c c' ∧
    v = (ideal_act real a m).1 ∧ testing k sees c' (ideal_act real a m).2.
Proof.
  intros Ht Hok Hrun. pose proof Ht as [Hp Hr [detach Hs] Hsee].
  pose proof Hp as [[_ (s & Hk & _)] _]. exists s. split; [done|].
  destruct (act_refines source dispatcher k code real sees a c m Ht Hok) as (c1 & Hrun1 & Ht1 & Hsame).
  rewrite Hrun in Hrun1. injection Hrun1 as Hv Hc. subst c1.
  assert (only_mock k s c c') as Hom; [|done].
  destruct a as [o| |th args]; [| |done]; simpl in *; [by eapply perform_only|].
  unfold mbind, M_bind in Hrun. rewrite (session_verify_testing k c m detach Hp Hs) in Hrun.
  assert (c' = c) as -> by (by destruct (Spec.verify m) as [[]| | |]; injection Hrun as _ <-).
  by apply only_mock_refl.
Qed.

Lemma only_apart k j s (c c' : C) m :
  promises c j m → k ≠ j → apart c k j → mocks (world c) !! k = Some s → only_mock k s c c' →
  apart c' k j.
Proof.
  intros [[Hw (sj & Hj & _ & _ & _ & Hall & _)] _] Hne Hap Hk Hom s1 s2 r r' Hs1 Hs2 Hr Hr'.
  rewrite (om_mocks _ _ _ _ Hom j) in Hs2 by done.
  destruct (om_rules _ _ _ _ Hom s1 r Hs1 Hr) as [Hold|[Hm Ha]]; [by apply (Hap s s2)|].
  rewrite Hj in Hs2. injection Hs2 as <-. destruct (ok_rules _ Hw j sj r' Hj Hr') as [x Hx].
  apply lookup_lt_Some in Hx. apply list_elem_of_lookup_1 in Hr' as [i Hi].
  destruct (Forall2_lookup_l _ _ _ _ _ Hall Hi) as (a & _ & [_ _ Hrep]).
  assert (ShimforgeRule.action r' < length (mock_actions (slots c)))%nat as Hlt.
  { inversion Hrep as [Hy|? ? ? ? ? ? Hy|? ? ? ? Hy]; symmetry in Hy; by eapply lookup_lt_Some. }
  split; lia.
Qed.

Lemma same_site_ok (c c' : C) : same_site c c' → site_ok (slots c) → site_ok (slots c').
Proof. by intros (_ & _ & _ & ->). Qed.

(** A worker that does not move. *)
Lemma worker_ok_other sh sh' goal wk :
  (∀ th, site_state th (sh_slots sh) = None → th = at_thread wk → site_state th (sh_slots sh') = None) →
  (running wk → ∀ m, promises (scope_of wk sh) (key wk) m →
     undisturbed (key wk) (scope_of wk sh) (scope_of wk sh')) →
  worker_ok sh goal wk → worker_ok sh' goal wk.
Proof.
  intros Hnone Hun. unfold worker_ok, running in *. destruct (state wk) as [p|p|o]; [| |done].
  - intros (Hl & Hm & Hs & Hrest). split_and!; [done|done|by eapply Hnone|apply Hrest..].
  - intros (m & Ht & Hp & Hg). exists m. split; [|done].
    eapply undisturbed_testing; [done|]. apply (Hun ltac:(by eexists) m). apply Ht.
Qed.

Lemma par_ok_act goals sh ws i wk a p v c' :
  par_ok goals (sh, ws) → ws !! i = Some wk → state wk = Running (Do a p) →
  perform_act source dispatcher (key wk) code a (scope_of wk sh) = (v, c') →
  par_ok goals (shared_of c', <[i := Worker (self c') (at_thread wk) (key wk) (continue p v)]> ws).
Proof.
  intros Hok Hi Hst Hrun. pose proof Hok as [Hw Hs Hc Hwk Hthr Hap]. simpl in *.
  assert (running wk) as Hri by (by eexists).
  destruct (Hwk i wk Hi) as (goal & Hg & Hwi). unfold worker_ok in Hwi. rewrite Hst in Hwi.
  destruct Hwi as (m & Ht & [Hact Hk] & Hgoal).
  destruct (act_only _ _ _ _ _ _ _ Ht Hact Hrun) as (s & Hmock & Hom & Hsame & Hv & Ht').
  assert (mkScope (self c') (at_thread wk) (proc c') (world c') (slots c') = c') as Hc'.
  { destruct Hsame as (_ & Hth & _). destruct c'. simpl in *. congruence. }
  pose proof (te_promises _ _ _ _ Ht') as Hp'. pose proof (te_promises _ _ _ _ Ht) as Hp.
  assert (∀ j wkj m', j ≠ i → ws !! j = Some wkj → running wkj → promises (scope_of wkj sh) (key wkj) m' →
    undisturbed (key wkj) (scope_of wkj sh) (scope_of wkj (shared_of c'))) as Hun.
  { intros j wkj m' Hj Hwj Hrj Hpj. destruct (Hap j i wkj wk Hwj Hi Hj Hrj Hri) as [Hne Hapj].
    eapply (only_undisturbed (key wkj) (key wk) s (scope_of wkj sh) (scope_of wk sh)); try done.
    - apply Hp'.
    - intros th. by apply same_site_state. }
  eapply par_ok_update; [done|done|done|apply Hp'|by eapply same_site_ok| | | | |].
  - intros th j Hj. simpl in Hj |- *. destruct (decide (j = key wk)) as [->|Hne].
    + destruct Hp' as [[_ (s' & Hs' & _)] _]. by eexists.
    + rewrite (om_mocks _ _ _ _ Hom j Hne). eapply Hc. by apply (om_calls _ _ _ _ Hom).
  - intros goal' Hg' _. rewrite Hg in Hg'. injection Hg' as <-. unfold worker_ok. simpl in Hgoal. simpl.
    rewrite Hv in *. destruct (ideal_act real a m) as [[v'|e|message|] m']; simpl in *; try done.
    exists m'. split_and!; [|done|done]. unfold scope_of. simpl. by rewrite Hc'.
  - intros j wkj goal' Hj Hwj. apply worker_ok_other; [|intros Hrj m'; by apply (Hun j)].
    intros th Hn _. simpl. by rewrite (same_site_state _ _ _ Hsame).
  - intros _ j wkj Hj Hwj Hrj. destruct (Hap i j wk wkj Hi Hwj ltac:(done) Hri Hrj) as [Hne Hapj].
    split; [done|]. destruct (Hwk j wkj Hwj) as (goal' & _ & Hwo). unfold worker_ok in Hwo.
    destruct Hrj as [q Hq]. rewrite Hq in Hwo. destruct Hwo as (mj & Htj & _).
    eapply (only_apart (key wk) (key wkj) s (scope_of wk sh) c'); [apply Htj|done..].
  - intros j l wkj wkl Hj Hl Hjl Hwj Hwl Hrj Hrl Hapj s1 s2 r r' Hs1 Hs2. simpl in Hs1, Hs2.
    destruct (Hap j i wkj wk Hwj Hi Hj Hrj Hri) as [Hne _].
    destruct (Hap l i wkl wk Hwl Hi Hl Hrl Hri) as [Hne' _].
    rewrite (om_mocks _ _ _ _ Hom) in Hs1 by done. rewrite (om_mocks _ _ _ _ Hom) in Hs2 by done.
    by apply Hapj.
Qed.

Lemma running_key sh goal wk :
  running wk → worker_ok sh goal wk → is_Some (mocks (sh_world sh) !! key wk).
Proof.
  intros [q Hq] Hw. unfold worker_ok in Hw. rewrite Hq in Hw. destruct Hw as (m & Ht & _).
  destruct (te_promises _ _ _ _ Ht) as [[_ (s & Hs & _)] _]. by eexists.
Qed.

Lemma par_ok_mock goals sh ws i wk p k c' :
  par_ok goals (sh, ws) → ws !! i = Some wk → state wk = Opening p →
  mock source dispatcher nm (scope_of wk sh) = (Ok k, c') →
  par_ok goals (shared_of c', <[i := Worker (self c') (at_thread wk) k (Running p)]> ws).
Proof.
  intros Hok Hi Hst Hrun. pose proof Hok as [Hw Hs Hc Hwk Hthr Hap]. simpl in *.
  destruct (Hwk i wk Hi) as (goal & Hg & Hwi). pose proof Hwi as Hwi'. unfold worker_ok in Hwi'.
  rewrite Hst in Hwi'. destruct Hwi' as (Hlock & Hnone & Hslot & Hp & Hgoal).
  assert (is_local (scope_of wk sh) = true) as Hl by (unfold is_local; by rewrite bool_decide_true).
  destruct (mock_promises source dispatcher nm (scope_of wk sh) k c') as [Hpr Hsees]; [done|done| |done|].
  { intros th j Hj. eapply lookup_lt_is_Some_1, Hc, Hj. }
  destruct (mock_run _ _ _ (scope_of wk sh) _ _ Hs Hrun) as ([Hk Hw1] & Hs' & Ha & Hseen & _ & Hms).
  change (mocks (world (scope_of wk sh))) with (mocks (sh_world sh)) in Hk.
  change (world (scope_of wk sh)) with (sh_world sh) in Hw1.
  assert (∀ j, is_Some (mocks (sh_world sh) !! j) → mocks (world c') !! j = mocks (sh_world sh) !! j) as Hold.
  { intros j Hj. rewrite Hw1. simpl. by rewrite lookup_app_l by (by apply lookup_lt_is_Some_1). }
  assert (∀ j wkj, ws !! j = Some wkj → running wkj → is_Some (mocks (sh_world sh) !! key wkj)) as Hkeys.
  { intros j wkj Hj Hr. destruct (Hwk j wkj Hj) as (goal' & _ & Hwo). by eapply running_key. }
  eapply par_ok_update; [done|done|done|apply Hpr|done| | | | |].
  - intros th j Hj. simpl in *. rewrite Hw1 in Hj. specialize (Hc th j Hj). by rewrite Hold.
  - intros goal' Hg' _. rewrite Hg in Hg'. injection Hg' as <-.
    exists (Spec.Mock nm [] None). split_and!; [|done|done]. split; simpl.
    + exact Hpr.
    + by intros a h args ?%not_elem_of_nil.
    + rewrite Hms. simpl. rewrite Hnone. by eexists.
    + intros th <-. apply Hsees. unfold sees, session_owner. by rewrite Hl.
  - intros j wkj goal' Hj Hwj. apply worker_ok_other.
    + intros th Hn ->. simpl. rewrite Hseen. unfold site_seen, session_owner. rewrite Hl. simpl.
      rewrite decide_False; [done|]. by eapply Hthr.
    + intros Hrj m' Hpj.
      eapply (mock_undisturbed (key wkj) source dispatcher nm (scope_of wkj sh) (scope_of wk sh));
        try done. simpl. by rewrite Hslot.
  - intros _ j wkj Hj Hwj Hrj. specialize (Hkeys j wkj Hwj Hrj). split.
    + simpl. intros He. rewrite <-He in Hkeys. apply lookup_lt_is_Some_1 in Hkeys. lia.
    + intros s1 s2 r r' Hs1 _ Hr. simpl in Hs1. rewrite Hw1 in Hs1. simpl in Hs1.
      rewrite Hk, list_lookup_middle in Hs1 by done. injection Hs1 as <-. by apply not_elem_of_nil in Hr.
  - intros j l wkj wkl Hj Hl' Hjl Hwj Hwl Hrj Hrl Hapj s1 s2 r r' Hs1 Hs2. simpl in Hs1, Hs2.
    rewrite Hold in Hs1 by (by eapply Hkeys). rewrite Hold in Hs2 by (by eapply Hkeys). by apply Hapj.
Qed.

Lemma par_ok_end goals sh ws i wk p o :
  par_ok goals (sh, ws) → ws !! i = Some wk → state wk = Running p → finished p = Some o →
  par_ok goals (sh, <[i := Worker (own wk) (at_thread wk) (key wk) (Ended o)]> ws).
Proof.
  intros Hok Hi Hst Hf. pose proof Hok as [Hw Hs Hc _ _ _].
  eapply par_ok_update; try done.
  - intros goal _ Hwk. unfold worker_ok in *. rewrite Hst in Hwk. destruct Hwk as (m & _ & _ & <-).
    by destruct p; simpl in Hf; simplify_eq.
  - by intros [q Hq].
Qed.

Lemma par_ok_steps goals s s' : par_ok goals s → rtc par_step s s' → par_ok goals s'.
Proof.
  intros Hok Hs. induction Hs as [|s1 s2 s3 Hstep _ IH]; [done|]. apply IH. clear IH.
  destruct Hstep; [by eapply par_ok_mock|by eapply par_ok_act|by eapply par_ok_end].
Qed.

(** The tests before their first step: a thread and a program each. *)
Definition opening (tests : list (nat * prog A V R)) : list worker :=
  (λ '(th, p), Worker (Session.opened Local) th 0 (Opening p)) <$> tests.

Lemma par_ok_start sh tests :
  world_ok (sh_world sh) → site_ok (sh_slots sh) →
  (∀ th j, j ∈ calls_of th (sh_world sh) → is_Some (mocks (sh_world sh) !! j)) →
  NoDup tests.*1 →
  (∀ th p, (th, p) ∈ tests →
     site_state th (sh_slots sh) = None ∧ prog_ok (eq th) nowhere p) →
  par_ok ((λ '(_, p), ideal real p (Spec.Mock nm [] None)) <$> tests) (sh, opening tests).
Proof.
  intros Hw Hs Hc Hd Hall. unfold opening. split; cbn [fst snd]; [done..| | |].
  - intros i wk Hi. rewrite list_lookup_fmap in Hi. rewrite list_lookup_fmap.
    destruct (tests !! i) as [[th p]|] eqn:Ht; [|done]. injection Hi as <-. eexists. split; [done|].
    apply list_elem_of_lookup_2 in Ht. destruct (Hall th p Ht) as [Hsite Hp]. by split_and!.
  - intros i j wk wk' Hi Hj Hne Heq. rewrite list_lookup_fmap in Hi, Hj.
    destruct (tests !! i) as [[th p]|] eqn:Hti, (tests !! j) as [[th' p']|] eqn:Htj; try done.
    injection Hi as <-. injection Hj as <-. simpl in Heq. subst th'. apply Hne.
    eapply (NoDup_lookup _ _ _ th Hd); by rewrite list_lookup_fmap, ?Hti, ?Htj.
  - intros i j wk wk' Hi _ _ [q Hq]. rewrite list_lookup_fmap in Hi.
    destruct (tests !! i) as [[th p]|]; [|done]. by injection Hi as <-.
Qed.

(** ** Schedules *)

(** The step of the worker [i]. *)
Definition step_at (i : nat) (s : shared * list worker) : option (shared * list worker) :=
  let '(sh, ws) := s in
  wk ← ws !! i;
  match state wk with
  | Opening p =>
      match mock source dispatcher nm (scope_of wk sh) with
      | (Ok k, c') => Some (shared_of c', <[i := Worker (self c') (at_thread wk) k (Running p)]> ws)
      | _ => None
      end
  | Running (Do a p) =>
      let '(v, c') := perform_act source dispatcher (key wk) code a (scope_of wk sh) in
      Some (shared_of c', <[i := Worker (self c') (at_thread wk) (key wk) (continue p v)]> ws)
  | Running p =>
      o ← finished p;
      Some (sh, <[i := Worker (own wk) (at_thread wk) (key wk) (Ended o)]> ws)
  | Ended _ => None
  end.
Fixpoint schedule (order : list nat) (s : shared * list worker) : option (shared * list worker) :=
  match order with
  | [] => Some s
  | i :: order => s ← step_at i s; schedule order s
  end.

Lemma step_at_sound i s s' : step_at i s = Some s' → par_step s s'.
Proof.
  destruct s as [sh ws]. unfold step_at. intros (wk & Hi & Hrun)%bind_Some.
  destruct (state wk) as [p|[r|message|a p]|o] eqn:Hst; [| | | |done].
  - destruct (mock _ _ _ _) as [[k| | |] c'] eqn:Hm; try done. injection Hrun as <-. by eapply par_mock.
  - injection Hrun as <-. by eapply par_end.
  - injection Hrun as <-. by eapply par_end.
  - destruct (perform_act _ _ _ _ _ _) as [v c'] eqn:Hp. injection Hrun as <-. by eapply par_act.
Qed.

Lemma schedule_sound order s s' : schedule order s = Some s' → rtc par_step s s'.
Proof.
  revert s. induction order as [|i order IH]; intros s; simpl; [by intros [= <-]|].
  intros (s1 & H1 & H2)%bind_Some. eapply rtc_l; [by eapply step_at_sound|by apply IH].
Qed.
End parallel.

(** How a test of an interleaved run ends. *)
Lemma par_outcome {P A V R : Type} `{!Platform P, !Pages P, !Code}
    source dispatcher nm code real sh (tests : list (nat * prog A V R)) sh' ws i wk o :
  world_ok (sh_world sh) → site_ok (sh_slots sh) →
  (∀ th j, j ∈ calls_of th (sh_world sh) → is_Some (mocks (sh_world sh) !! j)) →
  NoDup tests.*1 →
  (∀ th p, (th, p) ∈ tests → site_state th (sh_slots sh) = None ∧ prog_ok (eq th) nowhere p) →
  rtc (par_step (P:=P) source dispatcher nm code) (sh, opening tests) (sh', ws) →
  ws !! i = Some wk → state wk = Ended o →
  ∃ th p, tests !! i = Some (th, p) ∧ o = ideal real p (Spec.Mock nm [] None).
Proof.
  intros Hw Hs Hc Hd Hall Hrun Hi Ho.
  pose proof (par_ok_start nm code real sh tests Hw Hs Hc Hd Hall) as Hok.
  destruct (par_workers _ _ _ _ (par_ok_steps _ _ _ _ _ _ _ _ Hok Hrun) i wk Hi) as (goal & Hg & Hwk).
  unfold worker_ok in Hwk. rewrite Ho in Hwk. subst goal. rewrite list_lookup_fmap in Hg.
  destruct (tests !! i) as [[th p]|]; [|done]. injection Hg as Hg. by exists th, p.
Qed.

(** C13. Tests in parallel do not see each other.  However the steps of tests on
    different threads interleave, each with a local session and a mock of the
    same function, a test ends the way it does alone on the abstract mock:
    with the same value, or the same panic. *)
Theorem parallel_tests_isolated {P A V R : Type} `{!Platform P, !Pages P, !Code}
    source dispatcher nm code real sh (tests : list (nat * prog A V R)) sh' ws i wk o :
  world_ok (sh_world sh) → site_ok (sh_slots sh) →
  (∀ th j, j ∈ calls_of th (sh_world sh) → is_Some (mocks (sh_world sh) !! j)) →
  NoDup tests.*1 →
  (∀ th p, (th, p) ∈ tests → site_state th (sh_slots sh) = None ∧ prog_ok (eq th) nowhere p) →
  rtc (par_step (P:=P) source dispatcher nm code) (sh, opening tests) (sh', ws) →
  ws !! i = Some wk → state wk = Ended o →
  ∃ th p, tests !! i = Some (th, p) ∧ o = ideal real p (Spec.Mock nm [] None).
Proof. apply par_outcome. Qed.

(** ** Two tests on the example machine *)

Module ParallelDemo.
Definition test (th : nat) (value : Z) : prog Z Z Z :=
  expect_returns (Some (CallCount.Exact 1)) (λ _, true) value;;
  v ← call th 1; verify_session;; mret v.
Definition tests : list (nat * prog Z Z Z) := [(0, test 0 5); (1, test 1 6)]%nat.
Definition start : shared (P:=Machine.t) (A:=Z) (V:=Z) :=
  Shared RouteDemo.start world_empty MockDemo.site0.
Definition code (_ _ : Z) : result Z := Ok 0.
Definition finish : option (shared (P:=Machine.t) (A:=Z) (V:=Z) * list (worker (A:=Z) (V:=Z) (R:=Z))) :=
  schedule RouteDemo.function RouteDemo.fake "read" code
    [0; 1; 1; 0; 0; 1; 1; 0; 0; 1]%nat (start, opening tests).

(** How the tests ended. *)
Definition ends : option (list (option (result Z))) :=
  match finish with
  | Some (_, ws) => Some ((λ wk, match state wk with Ended o => Some o | _ => None end) <$> ws)
  | None => None
  end.

Lemma all_end : ends = Some [Some (Ok 5); Some (Ok 6)].
Proof. vm_compute. reflexivity. Qed.

Lemma test_ok th value : prog_ok (eq th) nowhere (test th value).
Proof.
  unfold test. apply prog_ok_bind.
  - apply prog_ok_expect_returning; [|done]. intros n [= <-]. simpl. unfold usize_max. lia.
  - intros _. apply prog_ok_bind; [by apply prog_ok_call|]. intros v. by split.
Qed.

Lemma tests_ok th p :
  (th, p) ∈ tests → site_state th (sh_slots start) = None ∧ prog_ok (eq th) nowhere p.
Proof.
  intros Hin. repeat (apply elem_of_cons in Hin as [Hin|Hin]);
    [injection Hin as -> ->|injection Hin as -> ->|by apply elem_of_nil in Hin];
    (split; [reflexivity|apply test_ok]).
Qed.

Lemma no_calls th j : j ∈ calls_of th (sh_world start) → is_Some (mocks (sh_world start) !! j).
Proof.
  unfold calls_of. cbn [start sh_world active_calls world_empty]. rewrite lookup_empty.
  by intros ?%not_elem_of_nil.
Qed.
End ParallelDemo.

Lemma parallel_tests_isolated_witness :
  ∃ sh ws wk, ParallelDemo.finish = Some (sh, ws) ∧ ws !! 1%nat = Some wk ∧
    state wk = Ended (Ok 6).
Proof.
  pose proof ParallelDemo.all_end as Hends. unfold ParallelDemo.ends in Hends.
  destruct ParallelDemo.finish as [[sh ws]|] eqn:Hf; [|discriminate Hends].
  injection Hends as Hends.
  assert (∃ wk o, ws !! 1%nat = Some wk ∧ state wk = Ended o) as (wk & o & Hi & Ho).
  { apply (f_equal (.!! 1%nat)) in Hends. rewrite list_lookup_fmap in Hends.
    destruct (ws !! 1%nat) as [wk|]; [|discriminate Hends].
    exists wk. cbn in Hends. destruct (state wk) as [q|q|o]; [discriminate Hends..|].
    exists o. split; reflexivity. }
  exists sh, ws, wk. split; [reflexivity|]. split; [exact Hi|].
  destruct (parallel_tests_isolated RouteDemo.function RouteDemo.fake "read" ParallelDemo.code
    (λ _, Ok 0) ParallelDemo.start ParallelDemo.tests sh ws 1 wk o) as (th & p & Ht & Hgoal).
  - apply world_ok_empty.
  - reflexivity.
  - exact ParallelDemo.no_calls.
  - apply (bool_decide_unpack _). vm_compute. exact I.
  - exact ParallelDemo.tests_ok.
  - exact (schedule_sound _ _ _ _ (λ _, Ok 0) _ _ _ Hf).
  - exact Hi.
  - exact Ho.
  - injection Ht as <- <-. rewrite Ho, Hgoal. vm_compute. reflexivity.
Defined.
