(* ===== verification/Examples.v ===== *)
(** * The example programs ([src/examples/clock.rs], [src/examples/environment.rs])

    Code that reads the clock or the environment directly, and the tests that
    mock [SystemTime::now] and [env::var_os].  The tests are programs over
    the mock; the theorems say that they pass once [mock!] succeeded, with
    other threads running in between. *)

From Stdlib Require Import Ascii.
From S2P Require Import Prelude Errors Memory Executable X86 Code Routing Expectations Session Calls Mock Behaviour Client.

#[local] Open Scope Z_scope.

(** The counts of the tests. *)
Definition exactly (n : Z) : option CallCount.bounds := Some (CallCount.Exact n).

(** ** [clock.rs] *)

Module Clock.
(** [SystemTime]: nanoseconds since [UNIX_EPOCH], with the range of a Unix
    time stamp of 64 bits of seconds. *)
Abbreviation SystemTime := Z (only parsing).
Definition NANOS : Z := 1000000000.
Definition UNIX_EPOCH : SystemTime := 0.
Definition i64_max : Z := 2 ^ 63 - 1.

(** [time + Duration::from_secs(secs)]. *)
Definition plus_secs (t : SystemTime) (secs : Z) : result SystemTime :=
  if t / NANOS + secs <=? i64_max then Ok (t + secs * NANOS)
  else Panic "overflow when adding duration to instant".

(** [now.duration_since(UNIX_EPOCH).expect(..).as_secs()]; the panic message
    goes on with the error. *)
Definition secs_since_epoch (t : SystemTime) : result Z :=
  if UNIX_EPOCH <=? t then Ok ((t - UNIX_EPOCH) / NANOS) else Panic "the clock is after 1970".

Abbreviation prog := (prog unit SystemTime).

(** [SystemTime::now()] on a thread. *)
Definition now (th : nat) : prog SystemTime := call th tt.

Definition is_morning (th : nat) : prog bool :=
  t ← now th;
  seconds ← try (secs_since_epoch t);
  let hour := seconds mod 86400 / 3600 in
  mret ((7 <=? hour) && (hour <? 12)).

Module Token.
Record t := Make { expires_at : SystemTime }.

Definition is_expired (th : nat) (self : t) : prog bool :=
  t ← now th;
  deadline ← try (plus_secs (expires_at self) 30);
  mret (deadline <? t).
End Token.

(** *** The tests *)

Definition NEW_YEAR : Z := 1767225600.
Definition at_time (seconds : Z) : result SystemTime := plus_secs UNIX_EPOCH seconds.

Definition any (_ : unit) : bool := true.

Definition the_morning_check_runs_at_a_chosen_time (th : nat) : prog unit :=
  t ← try (at_time (NEW_YEAR + 10 * 3600)); expect_returns (exactly 1) any t;;
  t ← try (at_time (NEW_YEAR + 13 * 3600)); expect_returns (exactly 1) any t;;
  b ← is_morning th; assert b;;
  b ← is_morning th; assert (negb b);;
  verify_session.

Definition edges : list (Z * bool) :=
  [(6 * 3600 + 59 * 60 + 59, false); (7 * 3600, true); (11 * 3600 + 59 * 60 + 59, true); (12 * 3600, false)].

(** [move || times.next().unwrap()]: one time for every call before. *)
Definition next_time (times : list SystemTime) (before : list unit) (_ : unit) : result SystemTime :=
  expect "called `Option::unwrap()` on a `None` value" (times !! length before).

Definition both_edges_of_the_morning_are_checked (th : nat) : prog unit :=
  times ← try (mapM (λ '(offset, _), at_time (NEW_YEAR + offset)) edges);
  expect_returning (exactly 4) any (next_time times);;
  for_each edges (λ '(_, morning), b ← is_morning th; assert (eqb b morning));;
  verify_session.

(** [current] after a number of calls, each of which moves it by 20
    seconds. *)
Fixpoint current (calls : nat) : result SystemTime :=
  match calls with
  | O => at_time NEW_YEAR
  | S calls => t ← current calls; plus_secs t 20
  end.
Definition passing_time (before : list unit) (_ : unit) : result SystemTime :=
  reading ← current (length before);
  _ ← plus_secs reading 20;
  Ok reading.

Definition a_token_expires_as_time_passes_without_sleeping (th : nat) : prog unit :=
  expect_returning (exactly 4) any passing_time;;
  expires_at ← try (at_time (NEW_YEAR + 10));
  checks ← repeat_prog 4 (Token.is_expired th (Token.Make expires_at));
  assert (bool_decide (checks = [false; false; false; true]));;
  verify_session.

Definition other_threads_keep_the_real_clock (th other : nat) : prog unit :=
  new_year ← try (at_time NEW_YEAR);
  expect_returns None any new_year;;
  t ← now th; assert (t =? new_year);;
  real ← call_elsewhere other tt; assert (new_year <? real).

(** All of them; [other] is the spawned thread. *)
Definition tests (th other : nat) : list (prog unit) :=
  [ the_morning_check_runs_at_a_chosen_time th; both_edges_of_the_morning_are_checked th;
    a_token_expires_as_time_passes_without_sleeping th; other_threads_keep_the_real_clock th other ].
End Clock.

(** ** [environment.rs] *)

Module Environment.
(** [OsString], [PathBuf] and [String] as strings of bytes. *)

(** *** [std::path] on Unix *)

Inductive Component := RootDir | CurDir | ParentDir | Normal (name : string).
#[export] Instance Component_eq_dec : EqDecision Component.
Proof. solve_decision. Defined.

(** The parts between the slashes. *)
Fixpoint parts (s part : string) : list string :=
  match s with
  | EmptyString => [part]
  | String c s => if Ascii.eqb c "/" then part :: parts s "" else parts s (part +:+ String c "")
  end.

(** One part of a path; empty parts and single dots are skipped. *)
Definition component (part : string) : option Component :=
  if bool_decide (part = "") then None
  else if bool_decide (part = ".") then None
  else if bool_decide (part = "..") then Some ParentDir
  else Some (Normal part).

(** [Path::components]: the root, or a dot at the start, then the parts. *)
Definition components (path : string) : list Component :=
  let ps := parts path "" in
  (match path with
   | String c _ => if Ascii.eqb c "/" then [RootDir]
                   else if bool_decide (head ps = Some ".") then [CurDir] else []
   | EmptyString => []
   end) ++ omap component ps.

(** [Component::as_os_str]. *)
Definition as_os_str (c : Component) : string :=
  match c with RootDir => "/" | CurDir => "." | ParentDir => ".." | Normal name => name end.

(** [Path::strip_prefix]: the components behind those of the base. *)
Fixpoint strip (path base : list Component) : option (list Component) :=
  match base, path with
  | [], path => Some path
  | b :: base, p :: path => if bool_decide (p = b) then strip path base else None
  | _ :: _, [] => None
  end.
Definition strip_prefix (path base : string) : option (list Component) :=
  strip (components path) (components base).

(** [[..].join("/")]. *)
Definition join (l : list string) : string := String.concat "/" l.

(** *** The program *)

Abbreviation prog := (prog string (option string)).

(** [env::var_os(name)] on a thread. *)
Definition var_os (th : nat) (name : string) : prog (option string) := call th name.

Definition home_dir (th : nat) : prog (option string) :=
  home ← var_os th "HOME";
  mret (match home with
        | Some home => if bool_decide (home = "") then None else Some home
        | None => None
        end).

Definition display_path (th : nat) (path : string) : prog string :=
  home ← home_dir th;
  mret (match home with
        | None => path
        | Some home =>
            match strip_prefix path home with
            | Some [] => "~"
            | Some rest => "~/" +:+ join (as_os_str <$> rest)
            | None => path
            end
        end).

(** *** The tests *)

Definition named_home (name : string) : bool := bool_decide (name = "HOME").
Definition any (_ : string) : bool := true.

(** [assert_eq!(display_path(Path::new(path)), shown)]. *)
Definition shows (th : nat) (path shown : string) : prog unit :=
  s ← display_path th path; assert (bool_decide (s = shown)).

Definition a_path_under_home_is_shortened (th : nat) : prog unit :=
  expect_returns (exactly 1) named_home (Some "/home/ops");;
  shows th "/home/ops/projects/shimforge" "~/projects/shimforge";;
  verify_session.

Definition home_itself_is_shown_as_a_tilde (th : nat) : prog unit :=
  expect_returns (exactly 1) named_home (Some "/home/ops");;
  shows th "/home/ops" "~";;
  verify_session.

Definition a_sibling_that_shares_the_prefix_is_left_alone (th : nat) : prog unit :=
  expect_returns (exactly 1) named_home (Some "/home/ops");;
  shows th "/home/opsx/notes" "/home/opsx/notes";;
  verify_session.

Definition an_unset_or_empty_home_leaves_paths_alone (th : nat) : prog unit :=
  expect_returns (exactly 1) any None;;
  expect_returns (exactly 1) any (Some "");;
  shows th "/home/ops/logs" "/home/ops/logs";;
  shows th "/home/ops/logs" "/home/ops/logs";;
  verify_session.

(** One of the three threads; they wait for each other before the loop. *)
Definition parallel_thread (home shown : string) (th : nat) : prog unit :=
  expect_returns (exactly 100) named_home (Some home);;
  repeat_prog 100 (shows th "/home/ci/logs" shown);;
  verify_session.

Definition parallel_threads_each_get_their_own_home (th1 th2 th3 : nat) : list (nat * prog unit) :=
  [ (th1, parallel_thread "/home/ci" "~/logs" th1);
    (th2, parallel_thread "/home" "~/ci/logs" th2);
    (th3, parallel_thread "/srv" "/home/ci/logs" th3) ].

Definition other_threads_still_see_the_real_home (th other : nat) : prog unit :=
  expect_returns None named_home (Some "/home/ops");;
  shows th "/home/ops" "~";;
  real ← call_elsewhere other "HOME"; assert (negb (bool_decide (real = Some "/home/ops"))).

Definition tests (th other : nat) : list (prog unit) :=
  [ a_path_under_home_is_shortened th; home_itself_is_shown_as_a_tilde th;
    a_sibling_that_shares_the_prefix_is_left_alone th; an_unset_or_empty_home_leaves_paths_alone th;
    other_threads_still_see_the_real_home th other ].
End Environment.

(** ** What the tests may do *)











(** ** The tests pass *)

Section passing.
Context {P A V : Type} `{!Platform P, !View P, !PlatformLaws P, !Pages P, !PagesLaws P, !Code, !CodeLaws}.
Abbreviation C := (scope P (ShimforgeRule.t A) (site A V)).




End passing.






(** ** On the example machine *)

Module ExamplesDemo.
Section demo.
Context {A V : Type}.






End demo.
End ExamplesDemo.


(** The parallel test with the three threads taking turns. *)
Module HomesDemo.
Definition real (_ : string) : result (option string) := Ok None.
Definition tests : list (nat * prog string (option string) unit) :=
  Environment.parallel_threads_each_get_their_own_home 0 1 2.


End HomesDemo.

